(* ===== verification/_CoqProject ===== *)
-Q . S2P
Prelude.v
Disk.v
Siphash.v
Util.v
Dict.v
Dynbuf.v
Resp.v
CList.v
Zskiplist.v
Zorder.v
Zlinks.v
Zrep.v
Zinsert.v
Zdelete.v
Zset.v
Codec.v
Double.v
Rounding.v
DoubleText.v
Object.v
Machine.v
DbCore.v
DbString.v
DbList.v
DbHash.v
DbSet.v
DbZset.v
Aof.v
Dispatch.v
Session.v
SessionZset.v
ExpireCycle.v
Frame.v
Replay.v
Rdb.v
RdbLoad.v
RdbSave.v
AofRewrite.v
Processes.v
Persist.v
Rewriting.v
Server.v
Loop.v
Startup.v
Typing.v
Pubsub.v
Main.v
