(* ===== verification/Prelude.v ===== *)
(** * miniredis: a verification development

    miniredis is a Redis-compatible key/value server in C.  Clients send commands in
    the RESP protocol over TCP; an event loop ([src/server.c]) reads them, a parser
    ([src/resp.c]) cuts them out of the byte stream, a dispatcher ([src/db.c]) finds
    the handler, which acts on a keyspace of typed values with expirations and
    appends its reply to the client's output.  Values are strings, linked lists
    ([src/list.c]), hash tables ([src/dict.c] on [src/siphash.c]) and sorted sets
    ([src/zskiplist.c]).  Write commands are appended to a log ([src/aof.c]) that is
    replayed at start-up and can be rewritten; the keyspace can be saved to and loaded
    from a snapshot ([src/rdb.c]); both can be written by child processes while the
    server runs.  [src/pubsub.c] is a registry of channels, [src/main.c] the command
    line.  All paths below are relative to [src/].

    ** Files

    - [Prelude]: bytes, C integers and strings, list lemmas, tactics and hints.
    - [Disk]: named files, the system calls that write them with every failure, and a
      process that may stop before any call; the protocol "write a temporary file,
      fsync, close, rename" of [rdb_save] and [aof_rewrite].
    - [Siphash], [Util], [Dict], [Dynbuf], [Resp], [CList]: one file of [src/] each
      ([siphash.c], [util.c], [dict.c], [dynbuf.c], [resp.c], [list.c]): the
      operations, an invariant, and the refinement of a specification.
    - [Zskiplist] (the operations of [zskiplist.c]), [Zorder], [Zlinks], [Zrep],
      [Zinsert], [Zdelete] (order of entries, links as a function of node heights,
      representation, insertion, deletion), [Zset] (sorted sets refine ascending
      sequences).
    - [Codec] (integers, strings and doubles in the snapshot format), [Double],
      [Rounding], [DoubleText] (text of doubles, and that it reads back), [Object]
      ([object.c] and the abstract values), [Machine] (state, effects, reply builders
      of [server.c]).
    - [DbCore], [DbString], [DbList], [DbHash], [DbSet], [DbZset]: the keyspace and
      every handler of [db.c] from PING to ZCOUNT, each next to the abstract command
      it is proved to refine.  [Aof]: logging of a command.  [Dispatch]: the command
      table and the abstract machine.
    - [Session], [SessionZset]: sequences of commands.  [ExpireCycle]: active
      expiration.  [Frame]: what handlers leave alone; the exact content of the log.
      [Replay]: replay of a log.
    - [Rdb], [RdbLoad], [RdbSave]: snapshots, loading arbitrary files, replacement on
      disk.  [AofRewrite]: rewriting the log.  [Processes]: several processes that
      replace files at the same time.  [Persist]: the log as an open file,
      SAVE, BGSAVE, REWRITEAOF and BGREWRITEAOF, child processes.  [Rewriting]: what
      rewriting the log of a running server leaves on disk.
    - [Server]: sockets, packets, the table of clients.  [Loop]: a turn of the epoll
      and of the select loop.  [Startup]: [server_run] as a whole, and restarts.
      [Typing]: signatures of the commands.  [Pubsub]: the registry of channels.
      [Main]: the command line and the whole program.

    ** State and effects

    A handler is a computation in [Machine.M], a state monad over the keyspace, the
    calling client, the globals of the persistence code and the outside world (clock,
    [rand], [/dev/urandom], results of [write]), in which undefined behaviour is
    [None]; [wp] is its weakest precondition.  The world includes the files, the
    results of the next [open] and [fork] calls, the fates of the system calls of every
    program that replaces a file, and the children that have not ended.  The log is the
    file that is open as [g_aof_fd]; [g_aof_linked] says whether it still has its name
    ([Persist.files_now] is what any process finds on disk).  A child is the program it
    runs; its effects, which go to its temporary file but for the final [rename],
    happen at one point between two steps of the server, and it may be killed anywhere;
    [Processes] has the finer steps, on inodes, and shows that this is enough.

    Pointer structures are finite maps from locations to nodes, and following a NULL
    or freed pointer is undefined.  The abstraction is [DbCore.Rep t m c s]: at time [t]
    the keys that have not expired form the finite map [m].  The clock stands still
    during one command (and one replay or read of a socket); it moves between them.
    Where a second reading of the clock inside one command matters, an example runs it
    with a moving clock.

    Integers are [Z] with their wrap-around written out; signed overflow wraps (the
    code relies on it).  Doubles are [SpecFloat] values, and [strtod] and ["%.17g"] are
    exact, with rounding to nearest.  Loops that do not recurse on data run on fuel:
    the length of the buffer, list or table they consume, which the proofs show to be
    enough (no theorem assumes that a loop ends, but for the doubling loop of
    [dynbuf_reserve], which is proved not to).

    ** Theorems

    - Refinement: a session of commands refines an abstract server whose keyspace is a
      finite map ([Session]); tables, lists, sorted sets and channels refine finite
      maps and sequences; however the input is split into packets the same commands
      run ([Server]).
    - Types: every command keeps to its signature ([Typing]).
    - Round trips: RESP ([Resp]), snapshots ([Rdb]), the 17 digits of a double
      ([DoubleText]), decimal integers ([Util]).
    - Recovery: the log holds exactly the write commands ([Frame]); replaying it, or a
      rewritten one, or one completed after a background rewrite, gives the keyspace
      back ([Replay], [AofRewrite], [Rewriting]); torn files are handled; a server that
      is killed or shut down and started again holds the same keys ([Startup]).
    - Safety: snapshots and logs are replaced atomically whatever fails ([RdbSave],
      [AofRewrite]) and however processes with temporary files of their own are
      interleaved ([Processes], by induction on the steps); no command line, no bytes
      from the network or from a file and no failing system call make a turn of the
      loop, or a whole run of the program, undefined or break its invariants ([Server],
      [RdbLoad], [Loop], [Startup], [Main]).
    - Bounds, termination and error behaviour of the single components; and the places
      where the code deviates from its documentation, as theorems.

    ** Not modelled

    Allocation ([xmalloc] aborts when memory is exhausted) and the functions that only
    free memory; output of log messages; interrupted system calls are retried and not
    counted; [srand] (the values of [rand] are arbitrary); [util_random_bytes], whose
    results are inputs.  Values of hash fields are kept as bytes rather than as nested
    objects; NaN has one bit pattern.  Two processes that use the same temporary file at
    the same time (two BGSAVE) are outside the theorems on snapshots; an example in
    [Processes] shows what they can do.  Configurations in which
    the log has the name of a temporary file are excluded by a hypothesis
    ([Persist.names_apart]).

    ** Plan

    Next: recovery of keys with expirations from the log, as far as the code provides
    it; the release of the stored objects. *)

From Stdlib Require Export ZArith Lia Strings.Byte.
From stdpp Require Export base numbers gmap strings countable list.

#[global] Open Scope Z_scope.
#[export] Set Warnings "-clear-no-such-hyp,-register-all".

(** ** Bytes *)

(** A C buffer of known length is the list of its bytes. *)
Abbreviation bytes := (list byte).

Definition bs (s : string) : bytes := String.list_byte_of_string s.

Definition CR : byte := x0d.
Definition LF : byte := x0a.
Definition NUL : byte := x00.
Definition crlf : bytes := [CR; LF].

#[global] Instance byte_eq_decision : EqDecision byte := Byte.byte_eq_dec.

#[global] Program Instance byte_countable : Countable byte :=
  inj_countable Byte.to_N Byte.of_N _.
Next Obligation. intros b. apply Byte.of_to_N. Qed.

(** The value of a byte as [unsigned char], and as the (signed) [char] of the
    x86-64 ABI. *)
Definition uchar (b : byte) : Z := Z.of_N (Byte.to_N b).
Definition schar (b : byte) : Z := if uchar b <? 128 then uchar b else uchar b - 256.

(** Conversion to [unsigned char]: the value modulo 256. *)
Definition byte_of_Z (z : Z) : byte := default x00 (Byte.of_N (Z.to_N (z mod 256))).

(** ** C integers *)

Definition INT64_MAX : Z := 2 ^ 63 - 1.
Definition INT64_MIN : Z := - 2 ^ 63.
Definition LLONG_MAX : Z := INT64_MAX.

(** Reduction to 64 bits: unsigned, and two's complement. *)
Definition wrapu64 (z : Z) : Z := z mod 2 ^ 64.
Definition wraps64 (z : Z) : Z := (z + 2 ^ 63) mod 2 ^ 64 - 2 ^ 63.

Definition wrapu32 (z : Z) : Z := z mod 2 ^ 32.

(** A value of type [long long] / [int64_t]. *)
Definition in_ll (z : Z) : Prop := INT64_MIN <= z <= INT64_MAX.
#[global] Instance in_ll_dec z : Decision (in_ll z).
Proof. apply _. Defined.

(** ** C strings *)

(** What a NUL-terminated reading of a buffer sees: the bytes before the
    first NUL ([strlen], [strcmp], ["%s"]). *)
Fixpoint cstr (s : bytes) : bytes :=
  match s with
  | [] => []
  | c :: s' => if decide (c = NUL) then [] else c :: cstr s'
  end.

(** A buffer that a NUL-terminated reading sees in full. *)
Definition nul_free (s : bytes) : Prop := NUL ∉ s.
#[global] Instance nul_free_dec s : Decision (nul_free s).
Proof. apply _. Defined.

(** [tolower] of the "C" locale, and equality up to it ([strcasecmp] = 0). *)
Definition tolower (c : byte) : byte :=
  if (65 <=? uchar c) && (uchar c <=? 90) then byte_of_Z (uchar c + 32) else c.

Definition strcaseeq (a b : bytes) : bool :=
  bool_decide (tolower <$> cstr a = tolower <$> cstr b).

(** A pointer that is not null. *)
Definition is_some {A} (o : option A) : bool := match o with Some _ => true | None => false end.

(** ** Automation *)

Create HintDb miniredis.

(** Case analysis on the test of the first [if] or [match] of the goal, keeping
    the equation. *)
Ltac case_if :=
  match goal with
  | |- context [ if ?b then _ else _ ] =>
      lazymatch type of b with
      | bool => destruct b eqn:?
      | _ => destruct b
      end
  end.

(** Turn boolean comparisons of the context into propositions. *)
Ltac bool_prop :=
  repeat match goal with
  | H : bool_decide _ = true |- _ => apply bool_decide_eq_true in H
  | H : bool_decide _ = false |- _ => apply bool_decide_eq_false in H
  | H : (_ && _) = true |- _ => apply andb_true_iff in H; destruct H
  | H : (_ && _) = false |- _ => apply andb_false_iff in H
  | H : (_ || _) = false |- _ => apply orb_false_iff in H; destruct H
  | H : (_ || _) = true |- _ => apply orb_true_iff in H
  | H : negb _ = true |- _ => apply negb_true_iff in H
  | H : negb _ = false |- _ => apply negb_false_iff in H
  | H : (_ =? _) = true |- _ => apply Z.eqb_eq in H
  | H : (_ =? _) = false |- _ => apply Z.eqb_neq in H
  | H : (_ <? _) = true |- _ => apply Z.ltb_lt in H
  | H : (_ <? _) = false |- _ => apply Z.ltb_ge in H
  | H : (_ <=? _) = true |- _ => apply Z.leb_le in H
  | H : (_ <=? _) = false |- _ => apply Z.leb_gt in H
  | H : (_ >? _) = true |- _ => apply Z.gtb_lt in H
  | H : (_ >? _) = false |- _ => rewrite Z.gtb_ltb in H; apply Z.ltb_ge in H
  | H : (_ >=? _) = true |- _ => apply Z.geb_le in H
  | H : (_ >=? _) = false |- _ => rewrite Z.geb_leb in H; apply Z.leb_gt in H
  end.

(** ** Lemmas on bytes *)

Lemma uchar_range b : 0 <= uchar b < 256.
Proof. unfold uchar. pose proof (Byte.to_N_bounded b). lia. Qed.

Lemma uchar_inj a b : uchar a = uchar b → a = b.
Proof.
  unfold uchar. intros H%N2Z.inj.
  pose proof (Byte.of_to_N a) as Ha. rewrite H, Byte.of_to_N in Ha. congruence.
Qed.

Lemma uchar_byte_of_Z z : uchar (byte_of_Z z) = z mod 256.
Proof.
  unfold uchar, byte_of_Z.
  pose proof (Z.mod_pos_bound z 256 ltac:(lia)).
  destruct (Byte.of_N (Z.to_N (z mod 256))) as [b|] eqn:E; simpl.
  - apply Byte.to_of_N in E. rewrite E. lia.
  - apply Byte.of_N_None_iff in E. lia.
Qed.

Lemma byte_of_Z_uchar b : byte_of_Z (uchar b) = b.
Proof.
  apply uchar_inj. rewrite uchar_byte_of_Z. pose proof (uchar_range b).
  by rewrite Z.mod_small.
Qed.

Lemma schar_uchar b : uchar b < 128 → schar b = uchar b.
Proof. intros. unfold schar. case_if; bool_prop; lia. Qed.

Lemma schar_range b : -128 <= schar b < 128.
Proof. pose proof (uchar_range b). unfold schar. case_if; bool_prop; lia. Qed.

(** ** Lemmas on C integers *)

Lemma gtb_le a b : a <= b → (a >? b) = false.
Proof. rewrite Z.gtb_ltb. apply Z.ltb_ge. Qed.

Lemma in_ll_m1 : in_ll (-1).
Proof. unfold in_ll, INT64_MIN, INT64_MAX. lia. Qed.

Lemma wraps64_id z : in_ll z → wraps64 z = z.
Proof. unfold in_ll, INT64_MIN, INT64_MAX, wraps64. intros. rewrite Z.mod_small; lia. Qed.

Lemma wraps64_in_ll z : in_ll (wraps64 z).
Proof.
  unfold in_ll, INT64_MIN, INT64_MAX, wraps64.
  pose proof (Z.mod_pos_bound (z + 2 ^ 63) (2 ^ 64) ltac:(lia)). lia.
Qed.

Lemma wraps64_cases z :
  2 * INT64_MIN <= z <= 2 * INT64_MAX →
  wraps64 z = if z >? INT64_MAX then z - 2 ^ 64 else if z <? INT64_MIN then z + 2 ^ 64 else z.
Proof.
  unfold INT64_MIN, INT64_MAX, wraps64. intros. repeat case_if; bool_prop.
  - rewrite <- (Z.mod_unique (z + 2 ^ 63) (2 ^ 64) 1 (z - 2 ^ 63)); lia.
  - rewrite <- (Z.mod_unique (z + 2 ^ 63) (2 ^ 64) (-1) (z + 2 ^ 63 + 2 ^ 64)); lia.
  - rewrite Z.mod_small; lia.
Qed.

(** The test [(d > 0 && v + d < v) || (d < 0 && v + d > v)] on wrapped sums is the
    overflow test. *)
Lemma wraps64_overflow v d :
  in_ll v → in_ll d →
  ((d >? 0) && (wraps64 (v + d) <? v)) || ((d <? 0) && (wraps64 (v + d) >? v))
  = negb (bool_decide (in_ll (v + d))).
Proof.
  unfold in_ll. intros Hv Hd. rewrite wraps64_cases by (unfold INT64_MIN, INT64_MAX in *; lia).
  unfold INT64_MIN, INT64_MAX in *.
  case_bool_decide; simpl; repeat case_if; bool_prop; try (exfalso; lia);
    destruct (d >? 0) eqn:?, (d <? 0) eqn:?; bool_prop; simpl; try done;
    match goal with |- context [?a <? ?b] => destruct (a <? b) eqn:? | _ => idtac end;
    match goal with |- context [?a >? ?b] => destruct (a >? b) eqn:? | _ => idtac end;
    bool_prop; done || (exfalso; lia).
Qed.

Lemma wrapu64_range z : 0 <= wrapu64 z < 2 ^ 64.
Proof. apply Z.mod_pos_bound. lia. Qed.

Lemma wraps64_wrapu64 z : wraps64 (wrapu64 z) = wraps64 z.
Proof. unfold wraps64, wrapu64. by rewrite Z.add_mod_idemp_l. Qed.

#[export] Hint Resolve uchar_range schar_range in_ll_m1 wraps64_in_ll wrapu64_range : miniredis.

(** ** Lemmas on C strings *)

Lemma cstr_app_nul s t : nul_free s → cstr (s ++ NUL :: t) = s.
Proof.
  induction s as [|c s IH]; simpl; intros H.
  - reflexivity.
  - unfold nul_free in *. apply not_elem_of_cons in H as [Hc Hs].
    rewrite decide_False by congruence. by rewrite IH.
Qed.

Lemma cstr_nul_free s : nul_free (cstr s).
Proof.
  unfold nul_free. induction s as [|c s IH]; simpl; [set_solver|].
  case_decide; set_solver.
Qed.

Lemma cstr_id s : nul_free s → cstr s = s.
Proof.
  unfold nul_free. induction s as [|c s IH]; simpl; intros H; [done|].
  apply not_elem_of_cons in H as [Hc Hs].
  rewrite decide_False by congruence. by rewrite IH.
Qed.

Lemma cstr_idemp s : cstr (cstr s) = cstr s.
Proof. apply cstr_id, cstr_nul_free. Qed.

Lemma cstr_length s : (length (cstr s) <= length s)%nat.
Proof. induction s as [|c s IH]; simpl; [lia|]. case_decide; simpl; lia. Qed.

#[export] Hint Resolve cstr_nul_free : miniredis.

(** ** Lists *)

(** Induction on the length of a list. *)
Lemma list_len_ind {A} (P : list A → Prop) :
  (∀ l, (∀ l', (length l' < length l)%nat → P l') → P l) → ∀ l, P l.
Proof.
  intros H l. assert (Hn : ∀ n l, (length l < n)%nat → P l).
  { induction n as [|n IH]; intros l' Hl; [lia|]. apply H. intros. apply IH. lia. }
  apply (Hn (S (length l))). lia.
Qed.

(** The length of a list as an integer. *)
Definition zlen {A} (l : list A) : Z := Z.of_nat (length l).

Lemma zlen_app {A} (x y : list A) : zlen (x ++ y) = zlen x + zlen y.
Proof. unfold zlen. rewrite length_app. lia. Qed.

Lemma NoDup_fmap_filter {A B} (f : A → B) (P : A → Prop) `{∀ x, Decision (P x)} l :
  NoDup (f <$> l) → NoDup (f <$> filter P l).
Proof.
  induction l as [|x l IH]; [done|]. rewrite fmap_cons, NoDup_cons, filter_cons. intros [Hx Hl].
  case_decide; [|auto]. rewrite fmap_cons, NoDup_cons. split; [|auto]. contradict Hx.
  apply list_elem_of_fmap in Hx as (y & -> & [_ Hy]%list_elem_of_filter). by apply list_elem_of_fmap_2.
Qed.

Lemma foldl_count {A} (P : A → Prop) `{∀ x, Decision (P x)} (g : Z → A → Z) n xs :
  (∀ n x, g n x = if decide (P x) then n + 1 else n) →
  foldl g n xs = n + zlen (filter P xs).
Proof.
  intros Hg. revert n. induction xs as [|x xs IH]; intros n; simpl; [unfold zlen; simpl; lia|].
  rewrite IH, Hg, filter_cons. unfold zlen. case_decide; simpl; lia.
Qed.

(** The elements at the positions from [start] to [stop] included; negative
    positions count from the end. *)
Definition slice {A} (xs : list A) (start stop : Z) : list A :=
  let pos i := if i <? 0 then zlen xs + i else i in
  let lo := Z.max 0 (pos start) in
  take (Z.to_nat (pos stop + 1 - lo)) (drop (Z.to_nat lo) xs).

(** The inclusive range the handlers compute by clamping both ends. *)
Lemma slice_clamped {A} (xs : list A) (start stop : Z) :
  let len := Z.of_nat (length xs) in
  let start' := if start <? 0 then len + start else start in
  let stop' := if stop <? 0 then len + stop else stop in
  let start' := if start' <? 0 then 0 else start' in
  let stop' := if stop' >=? len then len - 1 else stop' in
  (if (start' >? stop') || (start' >=? len) then []
   else take (Z.to_nat (stop' - start' + 1)) (drop (Z.to_nat start') xs)) = slice xs start stop.
Proof.
  cbv zeta. symmetry. unfold slice, zlen. set (len := Z.of_nat (length xs)).
  set (p := if start <? 0 then _ else _). set (q := if stop <? 0 then _ else _).
  replace (Z.max 0 p) with (if p <? 0 then 0 else p) by (case_if; bool_prop; lia).
  assert (0 <= if p <? 0 then 0 else p) by (case_if; bool_prop; lia).
  set (lo := if p <? 0 then 0 else p) in *. clearbody p q lo.
  destruct (_ || _) eqn:E; bool_prop.
  - apply length_zero_iff_nil. rewrite length_take, length_drop.
    destruct E as [E|E]; bool_prop; [|lia].
    destruct (q >=? len) eqn:E2; bool_prop; lia.
  - destruct (q >=? len) eqn:E2; bool_prop; [|f_equal; lia].
    rewrite !take_ge; rewrite ?length_drop; try lia. done.
Qed.
