(* ===== verification/Disk.v ===== *)
(** * Files and system calls

    The part of the file system the persistence code writes to, with every way a
    system call can fail and every point at which the process can stop; and the
    protocol [rdb_save] and [aof_rewrite] share: write a temporary file, [fsync],
    [close], and [rename] it over the old one. *)

From S2P Require Import Prelude.

(** The file system as [rdb_save] and [aof_rewrite] use it: named contents, and the results the
    system calls will have ([open], [fsync], [close], [rename]: success or not;
    [write]: an error, or at most [S n] bytes accepted; interrupted calls are
    retried and not counted).  The process may stop before any system call:
    [d_left] counts the calls it still makes, [None] for a process that goes on. *)
Record disk := Disk {
  d_files : gmap bytes bytes;
  d_open : bool;
  d_write : nat → option nat;
  d_writes : nat;
  d_fsync : bool;
  d_close : bool;
  d_rename : bool;
  d_left : option nat;
}.

(** A computation returns a result, or stops with the files as they are. *)
Definition D (A : Type) : Type := disk → (A * disk) + disk.

#[export] Instance D_ret : MRet D := λ A a d, inl (a, d).
#[export] Instance D_bind : MBind D := λ A B f m d,
  match m d with inl (a, d') => f a d' | inr d' => inr d' end.

Definition syscall {A} (f : disk → A * disk) : D A := λ d,
  match d_left d with
  | Some O => inr d
  | left_ => inl (f (Disk (d_files d) (d_open d) (d_write d) (d_writes d) (d_fsync d) (d_close d) (d_rename d) (pred <$> left_)))
  end.

Definition with_files (d : disk) (f : gmap bytes bytes) : disk :=
  Disk f (d_open d) (d_write d) (d_writes d) (d_fsync d) (d_close d) (d_rename d) (d_left d).

(** [open(path, O_WRONLY | O_CREAT | O_TRUNC)]. *)
Definition sys_open (path : bytes) : D bool := syscall (λ d,
  (d_open d, if d_open d then with_files d (<[path := []]> (d_files d)) else d)).

Definition sys_write (path buf : bytes) : D (option nat) := syscall (λ d,
  let d' := Disk (d_files d) (d_open d) (d_write d) (S (d_writes d)) (d_fsync d) (d_close d) (d_rename d) (d_left d) in
  match d_write d (d_writes d) with
  | None => (None, d')
  | Some n =>
      let n := Nat.min (S n) (length buf) in
      (Some n, with_files d' (<[path := default [] (d_files d !! path) ++ take n buf]> (d_files d)))
  end).

Definition sys_fsync : D bool := syscall (λ d, (d_fsync d, d)).
Definition sys_close : D bool := syscall (λ d, (d_close d, d)).

Definition sys_rename (old new : bytes) : D bool := syscall (λ d,
  (d_rename d, if d_rename d then with_files d (<[new := default [] (d_files d !! old)]> (delete old (d_files d))) else d)).

(** [write_full] of [src/rdb.c] and [src/aof.c]; every turn that does not fail takes at
    least one byte. *)
Fixpoint file_write_full (fuel : nat) (path buf : bytes) : D bool :=
  match fuel, buf with
  | _, [] => mret true
  | O, _ => mret false
  | S fuel, _ =>
      w ← sys_write path buf;
      match w with
      | None => mret false
      | Some n => file_write_full fuel path (drop n buf)
      end
  end.

(** After the writes: [fsync] unless a write failed, [close], and [rename] unless one of
    them failed. *)
Definition commit_file (tmp path : bytes) (ok : bool) : D Z :=
  ok ← (if ok then sys_fsync else mret false);
  closed ← sys_close;
  if negb (ok && closed) then mret (-1) else
  renamed ← sys_rename tmp path;
  mret (if (renamed : bool) then 0 else -1).

(** [Q] holds of the result, [I] of the files wherever the process stops. *)
Definition dwp {A} (m : D A) (Q : A → disk → Prop) (I : disk → Prop) (d : disk) : Prop :=
  match m d with inl (a, d') => Q a d' | inr d' => I d' end.

Lemma dwp_bind {A B} (m : D A) (f : A → D B) Q I d :
  dwp m (λ a d', dwp (f a) Q I d') I d → dwp (m ≫= f) Q I d.
Proof. unfold dwp, mbind, D_bind. by destruct (m d) as [[a d']|d']. Qed.

Lemma dwp_ret {A} (a : A) (Q : A → disk → Prop) I d : Q a d → dwp (mret a) Q I d.
Proof. done. Qed.

Lemma dwp_mono {A} (m : D A) (Q Q' : A → disk → Prop) I d :
  dwp m Q I d → (∀ a d', Q a d' → Q' a d') → dwp m Q' I d.
Proof. unfold dwp. destruct (m d) as [[a d']|d']; auto. Qed.

Lemma dwp_syscall {A} (f : disk → A * disk) (Q : A → disk → Prop) (I : disk → Prop) d :
  I d → (∀ d', d_files d' = d_files d → Q (f d').1 (f d').2) → dwp (syscall f) Q I d.
Proof.
  intros HI HQ. unfold dwp, syscall. destruct (d_left d) as [[|n]|]; [done|..].
  all: set (d' := Disk _ _ _ _ _ _ _ _); specialize (HQ d' eq_refl); by destruct (f d').
Qed.

Lemma dwp_consequence {A} (m : D A) (Q Q' : A → disk → Prop) (I I' : disk → Prop) d :
  dwp m Q I d → (∀ a d', Q a d' → Q' a d') → (∀ d', I d' → I' d') → dwp m Q' I' d.
Proof. unfold dwp. destruct (m d) as [[a d']|d']; auto. Qed.

Section Atomic.
Context (tmp : bytes) (files : gmap bytes bytes).

(** Only the temporary file differs. *)
Definition untouched (d : disk) : Prop := ∀ p, p ≠ tmp → d_files d !! p = files !! p.

Lemma untouched_insert d x : untouched d → untouched (with_files d (<[tmp := x]> (d_files d))).
Proof. intros H p Hp. cbn. rewrite lookup_insert_ne by done. by apply H. Qed.

Lemma untouched_same d d' : d_files d' = d_files d → untouched d → untouched d'.
Proof. intros E H. unfold untouched. by rewrite E. Qed.

Lemma dwp_open_tmp d :
  untouched d →
  dwp (sys_open tmp) (λ ok d', untouched d' ∧ (ok = true → d_files d' !! tmp = Some [])) untouched d.
Proof.
  intros Hu. unfold sys_open. apply dwp_syscall; [done|]. intros d1 Hd1. cbn [fst snd].
  pose proof (untouched_same _ _ Hd1 Hu) as Hu1. destruct (d_open d1); [|done].
  split; [by apply untouched_insert|]. intros _. cbn. by rewrite lookup_insert_eq.
Qed.

Lemma dwp_write_full fuel buf done_ d :
  (length buf <= fuel)%nat → untouched d → d_files d !! tmp = Some done_ →
  dwp (file_write_full fuel tmp buf)
    (λ ok d', untouched d' ∧ (ok = true → d_files d' !! tmp = Some (done_ ++ buf))) untouched d.
Proof.
  revert buf done_ d. induction fuel as [|fuel IH]; intros buf done_ d Hf Hu Hd.
  { destruct buf; [|cbn in Hf; lia]. apply dwp_ret. by rewrite app_nil_r. }
  destruct buf as [|c buf]; cbn [file_write_full]; [apply dwp_ret; by rewrite app_nil_r|].
  apply dwp_bind. unfold sys_write. apply dwp_syscall; [done|]. intros d1 Hd1.
  pose proof (untouched_same _ _ Hd1 Hu) as Hu1.
  destruct (d_write d1 (d_writes d1)) as [n|]; cbn [fst snd]; [|by apply dwp_ret].
  set (k := Nat.min (S n) (length (c :: buf))).
  assert (done_ ++ c :: buf = (done_ ++ take k (c :: buf)) ++ drop k (c :: buf)) as -> by (by rewrite <- app_assoc, take_drop).
  apply IH.
  - rewrite length_drop. subst k. cbn in *. lia.
  - by apply (untouched_insert (Disk _ _ _ _ _ _ _ _)).
  - cbn. by rewrite lookup_insert_eq, Hd1, Hd.
Qed.

Context (path b : bytes) (Hne : path ≠ tmp).

(** What a caller may find after the replacement. *)
Definition replaced (rc : Z) (d : disk) : Prop :=
  (rc = 0 ∧ d_files d !! path = Some b ∨ rc = -1 ∧ d_files d !! path = files !! path) ∧
  ∀ p, p ≠ path → p ≠ tmp → d_files d !! p = files !! p.

Lemma replaced_fail d : untouched d → replaced (-1) d.
Proof. intros Hu. split; [right; split; [done|]; by apply Hu|]. intros p _. apply Hu. Qed.

Lemma dwp_close_rename (ok : bool) d :
  untouched d → (ok = true → d_files d !! tmp = Some b) →
  dwp (closed ← sys_close; if negb (ok && closed) then mret (-1) else
       renamed ← sys_rename tmp path; mret (if (renamed : bool) then 0 else -1)) replaced untouched d.
Proof.
  intros Hu Hb. apply dwp_bind. unfold sys_close. apply dwp_syscall; [done|]. intros d1 Hd1. cbn [fst snd].
  pose proof (untouched_same _ _ Hd1 Hu) as Hu1.
  destruct (ok && d_close d1) eqn:E; cbn [negb]; [|apply dwp_ret; by apply replaced_fail]. apply andb_true_iff in E as [-> _].
  apply dwp_bind. unfold sys_rename. apply dwp_syscall; [done|]. intros d2 Hd2. cbn [fst snd].
  destruct (d_rename d2); apply dwp_ret; [|apply replaced_fail; by eapply untouched_same].
  split; cbn [with_files d_files]; rewrite Hd2, Hd1, (Hb eq_refl); [left; by rewrite lookup_insert_eq|].
  intros p Hp Hp'. rewrite lookup_insert_ne, lookup_delete_ne by done. by apply Hu.
Qed.

Lemma dwp_commit (ok : bool) d :
  untouched d → (ok = true → d_files d !! tmp = Some b) → dwp (commit_file tmp path ok) replaced untouched d.
Proof.
  intros Hu Hb. unfold commit_file. apply dwp_bind. destruct ok; [|apply dwp_ret; by apply dwp_close_rename].
  unfold sys_fsync. apply dwp_syscall; [done|]. intros d3 Hd3. cbn [fst snd].
  apply dwp_close_rename; [by eapply untouched_same|]. intros _. rewrite Hd3. by apply Hb.
Qed.

End Atomic.

(** A disk on which every call succeeds, and [n] more calls are made. *)
Definition healthy (n : nat) (d : disk) : Prop :=
  d_open d = true ∧ (∀ i, is_Some (d_write d i)) ∧ d_fsync d = true ∧ d_close d = true ∧ d_rename d = true ∧
  match d_left d with Some k => (n <= k)%nat | None => True end.

Lemma healthy_syscall n d :
  healthy (S n) d → ∃ d', healthy n d' ∧ ∀ A (f : disk → A * disk), syscall f d = inl (f d').
Proof.
  intros (Ho & Hw & Hf & Hc & Hr & Hl). unfold syscall. destruct (d_left d) as [[|k]|] eqn:E; [lia|..].
  all: eexists; split; [|done]; unfold healthy; cbn; repeat split; try done. lia.
Qed.

Lemma healthy_write_full fuel path buf n d :
  (length buf <= fuel)%nat → healthy (length buf + n) d →
  ∃ d', healthy n d' ∧ file_write_full fuel path buf d = inl (true, d').
Proof.
  revert buf d. induction fuel as [|fuel IH]; intros buf d Hf Hd.
  { destruct buf; [|cbn in Hf; lia]. by exists d. }
  destruct buf as [|c buf]; cbn [file_write_full]; [by exists d|]. unfold sys_write, mbind, D_bind.
  destruct (healthy_syscall (length buf + n) d Hd) as (d1 & Hd1 & E1); rewrite E1. cbn beta iota zeta.
  pose proof Hd1 as (Ho & Hw & Hfs & Hc & Hr & Hl). destruct (Hw (d_writes d1)) as [k ->]. apply IH.
  - rewrite length_drop. cbn in *. lia.
  - unfold healthy. cbn. repeat split; try done. destruct (d_left d1); [|done]. rewrite length_drop. cbn. lia.
Qed.

Lemma healthy_open path n d : healthy (S n) d → ∃ d', healthy n d' ∧ sys_open path d = inl (true, d').
Proof.
  intros Hd. unfold sys_open. destruct (healthy_syscall _ d Hd) as (d1 & Hd1 & ->).
  pose proof Hd1 as (Ho & Hr). rewrite Ho. eexists. split; [|reflexivity]. exact (conj Ho Hr).
Qed.

Lemma healthy_commit tmp path d : healthy 3 d → ∃ d', commit_file tmp path true d = inl (0, d').
Proof.
  intros Hd. unfold commit_file, mbind, D_bind, sys_fsync, sys_close, sys_rename.
  destruct (healthy_syscall _ d Hd) as (d3 & Hd3 & E3); rewrite E3.
  destruct (healthy_syscall _ d3 Hd3) as (d4 & Hd4 & E4); rewrite E4.
  pose proof Hd3 as (_ & _ & -> & _). pose proof Hd4 as (_ & _ & _ & -> & _). cbn [negb andb].
  destruct (healthy_syscall _ d4 Hd4) as (d5 & Hd5 & E5); rewrite E5. pose proof Hd5 as (_ & _ & _ & _ & -> & _). eauto.
Qed.

(** ** Programs of a process that goes on *)

(** The results the calls of one program will have. *)
Record fate := Fate {
  k_open : bool;
  k_write : nat → option nat;
  k_fsync : bool;
  k_close : bool;
  k_rename : bool;
}.

Definition boot (files : gmap bytes bytes) (k : fate) (left_ : option nat) : disk :=
  Disk files (k_open k) (k_write k) 0 (k_fsync k) (k_close k) (k_rename k) left_.

(** Every call succeeds. *)
Definition good_fate (k : fate) : Prop :=
  k_open k = true ∧ (∀ i, is_Some (k_write k i)) ∧ k_fsync k = true ∧ k_close k = true ∧ k_rename k = true.

Lemma boot_healthy files k n : good_fate k → healthy n (boot files k None).
Proof. intros (? & ? & ? & ? & ?). by repeat split. Qed.

(** The program ends when the process goes on. *)
Definition ends {A} (m : D A) : Prop := ∀ d, d_left d = None → ∃ a d', m d = inl (a, d') ∧ d_left d' = None.

Create HintDb ends.

Lemma ends_ret {A} (a : A) : ends (mret a).
Proof. intros d Hd. by exists a, d. Qed.

Lemma ends_bind {A B} (m : D A) (f : A → D B) : ends m → (∀ a, ends (f a)) → ends (m ≫= f).
Proof.
  intros Hm Hf d Hd. destruct (Hm d Hd) as (a & d1 & E & Hd1). destruct (Hf a d1 Hd1) as (b & d2 & E2 & Hd2).
  exists b, d2. split; [|done]. unfold mbind, D_bind. by rewrite E.
Qed.

Lemma ends_if {A} (b : bool) (m1 m2 : D A) : ends m1 → ends m2 → ends (if b then m1 else m2).
Proof. by destruct b. Qed.

Lemma ends_syscall {A} (f : disk → A * disk) : (∀ d, d_left (f d).2 = d_left d) → ends (syscall f).
Proof.
  intros Hf d Hd. unfold syscall. rewrite Hd. set (d' := Disk _ _ _ _ _ _ _ _). specialize (Hf d').
  destruct (f d') as [a d2] eqn:E. exists a, d2. by split.
Qed.

Lemma ends_open path : ends (sys_open path).
Proof. apply ends_syscall. intros d. cbn. by destruct (d_open d). Qed.
Lemma ends_write path buf : ends (sys_write path buf).
Proof. apply ends_syscall. intros d. by destruct (d_write d (d_writes d)). Qed.
Lemma ends_fsync : ends sys_fsync.
Proof. by apply ends_syscall. Qed.
Lemma ends_close : ends sys_close.
Proof. by apply ends_syscall. Qed.
Lemma ends_rename old new : ends (sys_rename old new).
Proof. apply ends_syscall. intros d. cbn. by destruct (d_rename d). Qed.
#[export] Hint Resolve ends_ret ends_bind ends_if ends_open ends_write ends_fsync ends_close ends_rename : ends.

Lemma ends_write_full fuel path buf : ends (file_write_full fuel path buf).
Proof.
  revert buf. induction fuel as [|fuel IH]; intros [|c buf]; cbn [file_write_full]; auto with ends.
  apply ends_bind; [auto with ends|]. intros [n|]; auto with ends.
Qed.

Lemma ends_commit tmp path ok : ends (commit_file tmp path ok).
Proof. unfold commit_file. auto 7 with ends. Qed.
#[export] Hint Resolve ends_write_full ends_commit : ends.

Lemma ends_dwp {A} (m : D A) Q I d :
  ends m → d_left d = None → dwp m Q I d → ∃ a d', m d = inl (a, d') ∧ Q a d'.
Proof. intros Hm Hd. destruct (Hm d Hd) as (a & d' & E & _). unfold dwp. rewrite E. eauto. Qed.

(** ** Programs that replace a file *)

(** Programs that write the bytes [b] to the open file, one [write_full] after the other,
    and give up at the first error. *)
Inductive writer (tmp : bytes) : D bool → bytes → Prop :=
| writer_nil : writer tmp (mret true) []
| writer_bytes b : writer tmp (file_write_full (length b) tmp b) b
| writer_seq m1 m2 b1 b2 :
    writer tmp m1 b1 → writer tmp m2 b2 → writer tmp (ok ← m1; if (ok : bool) then m2 else mret false) (b1 ++ b2)
| writer_ext m m' b : (∀ d, m' d = m d) → writer tmp m b → writer tmp m' b.

(** The program replaces the file [path] by [b] through the temporary file [tmp]: it
    ends, wherever it stops only the temporary file has changed, and it succeeds when
    no call fails. *)
Class Replacer (tmp path b : bytes) (w : D Z) : Prop := {
  rp_ends : ends w;
  rp_dwp d : dwp w (replaced tmp (d_files d) path b) (untouched tmp (d_files d)) d;
  rp_ok d : healthy (length b + 4) d → ∃ d', w d = inl (0, d');
}.
