(* ===== verification/Util.v ===== *)
(** * Strict integer parsing and glob matching ([src/util.c])

    [Num]: [string_to_ll_n] / [string_to_ll], with the decimal printing
    (["%lld"], ["%zu"]) that the rest of the program pairs with it.
    [Glob]: the pattern matcher behind [KEYS], with a declarative semantics of
    patterns it is proved equivalent to. *)

From S2P Require Import Prelude.

Module Num.

(** ** The parser *)

(** The digit loop of [string_to_ll_n], on the bytes from index [i] on. *)
Fixpoint digits_loop (s : bytes) (v : Z) : option Z :=
  match s with
  | [] => Some v
  | c :: s' =>
      if (schar c <? 48) || (schar c >? 57) then None
      else
        let d := schar c - 48 in
        if v >? Z.quot (LLONG_MAX - d) 10 then None
        else digits_loop s' (v * 10 + d)
  end.

(** [s] is the [n] bytes given to the C function; [None] is a return value of 0
    and [Some v] a return value of 1 with [*out = v]. *)
Definition string_to_ll_n (s : bytes) : option Z :=
  match s with
  | [] => None
  | c :: s' =>
      if decide (c = "-"%byte) then
        if decide (s' = []) then None
        else match digits_loop s' 0 with Some v => Some (- v) | None => None end
      else if decide (c = "+"%byte) then
        if decide (s' = []) then None else digits_loop s' 0
      else digits_loop s 0
  end.

(** The NUL-terminated variant. *)
Definition string_to_ll (s : bytes) : option Z := string_to_ll_n (cstr s).

(** ** Decimal printing *)

Definition digit (d : Z) : byte := byte_of_Z (48 + d).

(** The decimal digits of [n], most significant first, in front of [acc].  The
    fuel bounds the number of digits. *)
Fixpoint dec_loop (fuel : nat) (n : Z) (acc : bytes) : bytes :=
  match fuel with
  | O => acc
  | S fuel =>
      let acc := digit (n mod 10) :: acc in
      if n <? 10 then acc else dec_loop fuel (n / 10) acc
  end.

(** ["%zu"] (for [n >= 0]): [S (log2 n)] digits are always enough. *)
Definition dec_of (n : Z) : bytes := dec_loop (S (Z.to_nat (Z.log2 n))) n [].

(** ["%lld"]. *)
Definition ll_to_string (z : Z) : bytes :=
  if z <? 0 then "-"%byte :: dec_of (- z) else dec_of z.

Example num_tests :
  string_to_ll (bs "123") = Some 123 ∧ string_to_ll (bs "-42") = Some (-42) ∧
  string_to_ll (bs "+7") = Some 7 ∧ string_to_ll (bs "--1") = None ∧
  string_to_ll (bs " 1") = None ∧ string_to_ll (bs "9223372036854775808") = None ∧
  string_to_ll (bs "9223372036854775807") = Some LLONG_MAX ∧
  ll_to_string (-1205) = bs "-1205" ∧ dec_of 0 = bs "0".
Proof. vm_compute. repeat split; reflexivity. Qed.

(** ** Specification: the value of a digit string *)

Definition is_digit (c : byte) : Prop := 48 <= uchar c <= 57.
#[global] Instance is_digit_dec c : Decision (is_digit c).
Proof. apply _. Defined.

(** The value of a digit string, continuing from [v]. *)
Fixpoint dec_value (v : Z) (s : bytes) : Z :=
  match s with
  | [] => v
  | c :: s' => dec_value (v * 10 + (uchar c - 48)) s'
  end.

(** A signed decimal literal: an optional sign, then at least one digit, of
    magnitude at most [LLONG_MAX]. *)
Inductive ll_literal : bytes → Z → Prop :=
| Lit_plain ds : ds ≠ [] → Forall is_digit ds → dec_value 0 ds <= LLONG_MAX →
    ll_literal ds (dec_value 0 ds)
| Lit_plus ds : ds ≠ [] → Forall is_digit ds → dec_value 0 ds <= LLONG_MAX →
    ll_literal ("+"%byte :: ds) (dec_value 0 ds)
| Lit_minus ds : ds ≠ [] → Forall is_digit ds → dec_value 0 ds <= LLONG_MAX →
    ll_literal ("-"%byte :: ds) (- dec_value 0 ds).

(** ** Proofs *)

Lemma schar_digit c : (schar c <? 48) || (schar c >? 57) = false ↔ is_digit c.
Proof.
  unfold is_digit, schar. pose proof (uchar_range c).
  rewrite orb_false_iff, Z.ltb_ge, Z.gtb_ltb, Z.ltb_ge. case_if; bool_prop; lia.
Qed.

Lemma dec_value_mono s v : 0 <= v → Forall is_digit s → v <= dec_value v s.
Proof.
  revert v. induction s as [|c s IH]; intros v Hv Hs; simpl; [lia|].
  inversion_clear Hs as [|? ? Hc Hs']. unfold is_digit in Hc.
  etrans; [|apply IH; [|done]]; lia.
Qed.

(** The guard [v > (LLONG_MAX - d) / 10] rejects exactly the digits that would
    carry the value past [LLONG_MAX]. *)
Lemma digit_guard v d :
  0 <= v → 0 <= d <= 9 → (v >? Z.quot (LLONG_MAX - d) 10) = false ↔ v * 10 + d <= LLONG_MAX.
Proof.
  intros Hv Hd. unfold LLONG_MAX, INT64_MAX. rewrite Z.gtb_ltb, Z.ltb_ge.
  rewrite Z.quot_div_nonneg by lia.
  pose proof (Z.div_mod (2 ^ 63 - 1 - d) 10 ltac:(lia)).
  pose proof (Z.mod_pos_bound (2 ^ 63 - 1 - d) 10 ltac:(lia)). lia.
Qed.

Lemma digits_loop_spec s v r :
  0 <= v <= LLONG_MAX →
  digits_loop s v = Some r ↔ Forall is_digit s ∧ r = dec_value v s ∧ r <= LLONG_MAX.
Proof.
  revert v. induction s as [|c s IH]; intros v Hv; simpl.
  { split; [intros [= ->]; split_and!; auto; lia | intros (_ & -> & _); done]. }
  destruct ((schar c <? 48) || (schar c >? 57)) eqn:Ec.
  { split; [done|]. intros (Hf & _). inversion_clear Hf as [|? ? Hd _].
    apply schar_digit in Hd. congruence. }
  apply schar_digit in Ec. rewrite (schar_uchar c) by (unfold is_digit in Ec; lia).
  rewrite Forall_cons.
  destruct (v >? _) eqn:Eg.
  - split; [done|]. intros ((_ & Hf) & -> & Hle). exfalso.
    apply not_false_iff_true in Eg. apply Eg.
    apply digit_guard; [lia|unfold is_digit in Ec; lia|].
    etrans; [apply (dec_value_mono s)|exact Hle]; [unfold is_digit in Ec; lia|done].
  - apply digit_guard in Eg; [|lia|unfold is_digit in Ec; lia].
    rewrite IH by (unfold is_digit in Ec; lia). naive_solver.
Qed.

Lemma ll0 : 0 <= 0 <= LLONG_MAX.
Proof. unfold LLONG_MAX, INT64_MAX. lia. Qed.

Lemma digit_not_sign ds : Forall is_digit ds → ∀ c s, ds = c :: s → c ≠ "-"%byte ∧ c ≠ "+"%byte.
Proof.
  intros Hf c s ->. inversion_clear Hf as [|? ? Hc _].
  split; intros ->; revert Hc; vm_compute; intuition congruence.
Qed.

(** [string_to_ll_n] accepts exactly the decimal literals whose magnitude fits
    in [long long], and returns their value. *)
Lemma string_to_ll_n_iff (s : bytes) (z : Z) :
  string_to_ll_n s = Some z ↔ ll_literal s z.
Proof.
  split.
  - destruct s as [|c s']; [done|]. cbn [string_to_ll_n].
    destruct (decide (c = "-"%byte)) as [->|]; [|destruct (decide (c = "+"%byte)) as [->|]].
    + case_decide as Hne; [done|].
      destruct (digits_loop s' 0) eqn:E; [|done]. intros [= <-].
      apply digits_loop_spec in E as (? & -> & ?); [|apply ll0]. by constructor.
    + case_decide as Hne; [done|]. intros E.
      apply digits_loop_spec in E as (? & -> & ?); [|apply ll0]. by constructor.
    + intros E. apply digits_loop_spec in E as (? & -> & ?); [|apply ll0]. by constructor.
  - assert (Hl : ∀ ds, Forall is_digit ds → dec_value 0 ds <= LLONG_MAX →
                 digits_loop ds 0 = Some (dec_value 0 ds))
      by (intros; apply digits_loop_spec; [apply ll0|done]).
    intros [ds Hne Hd Hle|ds Hne Hd Hle|ds Hne Hd Hle]; unfold string_to_ll_n.
    + destruct ds as [|c ds]; [done|].
      destruct (digit_not_sign _ Hd c ds eq_refl) as [? ?].
      rewrite !decide_False by done. by apply Hl.
    + rewrite (decide_False (P := _ = "-"%byte)) by done.
      rewrite decide_True by done. rewrite decide_False by done. by apply Hl.
    + rewrite decide_True, decide_False by done. by rewrite Hl.
Qed.

Lemma string_to_ll_n_bounds s z : string_to_ll_n s = Some z → - LLONG_MAX <= z <= LLONG_MAX.
Proof.
  intros H%string_to_ll_n_iff. pose proof ll0 as Hm.
  destruct H as [ds _ Hd ?|ds _ Hd ?|ds _ Hd ?];
    pose proof (dec_value_mono ds 0 ltac:(lia) Hd); lia.
Qed.

(** Printing. *)

Lemma digit_is_digit d : 0 <= d <= 9 → is_digit (digit d) ∧ uchar (digit d) = 48 + d.
Proof.
  intros. unfold is_digit, digit. rewrite uchar_byte_of_Z, Z.mod_small by lia. lia.
Qed.

Lemma dec_value_app v s t : dec_value v (s ++ t) = dec_value (dec_value v s) t.
Proof. revert v. induction s as [|c s IH]; intros v; simpl; auto. Qed.

(** [dec_loop] puts the digits of [n] in front of its accumulator. *)
Lemma dec_loop_spec fuel n acc :
  0 <= n < 2 ^ Z.of_nat fuel →
  ∃ ds, dec_loop fuel n acc = ds ++ acc ∧ Forall is_digit ds ∧ dec_value 0 ds = n ∧
        (fuel ≠ 0%nat → ds ≠ []).
Proof.
  revert n acc. induction fuel as [|fuel IH]; intros n acc Hn.
  { exists []. simpl. split_and!; auto; simpl in Hn; lia. }
  cbn [dec_loop]. pose proof (Z.mod_pos_bound n 10 ltac:(lia)).
  destruct (digit_is_digit (n mod 10) ltac:(lia)) as [Hd Hu].
  destruct (n <? 10) eqn:E; bool_prop.
  - exists [digit (n mod 10)]. rewrite Z.mod_small in * by lia.
    simpl. split_and!; auto; lia.
  - destruct (IH (n / 10) (digit (n mod 10) :: acc)) as (ds & Heq & Hf & Hv & _).
    { rewrite Nat2Z.inj_succ, Z.pow_succ_r in Hn by lia.
      split; [apply Z.div_pos; lia|apply Z.div_lt_upper_bound; lia]. }
    exists (ds ++ [digit (n mod 10)]). rewrite Heq, <- app_assoc. split_and!.
    + done.
    + apply Forall_app; auto.
    + rewrite dec_value_app, Hv. cbn [dec_value]. rewrite Hu.
      pose proof (Z.div_mod n 10 ltac:(lia)). lia.
    + intros _ [_ ?]%app_nil. done.
Qed.

Lemma dec_of_spec n : 0 <= n → dec_of n ≠ [] ∧ Forall is_digit (dec_of n) ∧ dec_value 0 (dec_of n) = n.
Proof.
  intros Hn. unfold dec_of.
  destruct (dec_loop_spec (S (Z.to_nat (Z.log2 n))) n []) as (ds & -> & ? & ? & Hne).
  - split; [done|]. pose proof (Z.log2_nonneg n).
    destruct (Z.eq_dec n 0) as [->|]; [simpl; lia|].
    rewrite Nat2Z.inj_succ, Z2Nat.id by done. apply Z.log2_spec. lia.
  - rewrite app_nil_r. auto.
Qed.

Lemma dec_of_parse n : 0 <= n <= LLONG_MAX → string_to_ll_n (dec_of n) = Some n.
Proof.
  intros Hn. destruct (dec_of_spec n) as (? & ? & Hv); [lia|].
  apply string_to_ll_n_iff. rewrite <- Hv at 2. constructor; [done..|lia].
Qed.

(** C33: [string_to_ll] accepts exactly the decimal literals (an optional sign, at
    least one digit, nothing else) whose magnitude fits in [long long], up to the
    first NUL, and returns their value. *)
Theorem string_to_ll_accepts_literals (s : bytes) (z : Z) :
  string_to_ll s = Some z ↔ ll_literal (cstr s) z.
Proof. apply string_to_ll_n_iff. Qed.

(** Printing and parsing back. *)
Lemma ll_parse_print z :
  in_ll z → z ≠ INT64_MIN → string_to_ll_n (ll_to_string z) = Some z.
Proof.
  intros Hz Hmin. unfold in_ll, INT64_MIN in *. unfold ll_to_string. case_if; bool_prop.
  - destruct (dec_of_spec (- z)) as (? & ? & Hv); [lia|].
    apply string_to_ll_n_iff. replace z with (- dec_value 0 (dec_of (- z))) at 2 by lia.
    constructor; [done..|unfold LLONG_MAX, INT64_MAX in *; lia].
  - apply dec_of_parse. unfold LLONG_MAX. lia.
Qed.

(** Every [long long] except the least one survives printing with ["%lld"] and
    parsing with [string_to_ll_n]; [LLONG_MIN] is printed but refused. *)
Theorem ll_roundtrip (z : Z) :
  in_ll z →
  string_to_ll_n (ll_to_string z) = if decide (z = INT64_MIN) then None else Some z.
Proof.
  intros Hz. case_decide as Hmin; [by subst|]. by apply ll_parse_print.
Qed.

Lemma ll_roundtrip_witness :
  string_to_ll_n (ll_to_string (-9223372036854775807)) = Some (-9223372036854775807).
Proof. apply (ll_roundtrip (-9223372036854775807)). vm_compute. split; congruence. Defined.

(** A printed number contains digits and at most a leading minus sign. *)
Lemma ll_to_string_chars z c : in_ll z → c ∈ ll_to_string z → is_digit c ∨ c = "-"%byte.
Proof.
  intros Hz Hc. unfold ll_to_string in Hc.
  assert (∀ n, 0 <= n → c ∈ dec_of n → is_digit c).
  { intros n Hn Hin. destruct (dec_of_spec n Hn) as (_ & Hf & _).
    by apply (proj1 (Forall_forall _ _) Hf). }
  destruct (z <? 0) eqn:?; bool_prop.
  - apply elem_of_cons in Hc as [->|Hc]; [auto|]. left. apply (H (- z)); auto; lia.
  - left. apply (H z); auto.
Qed.

Lemma ll_to_string_nul_free z : in_ll z → nul_free (ll_to_string z).
Proof. intros Hz Hc. apply ll_to_string_chars in Hc as [[H _]|H]; [by vm_compute in H|done|done]. Qed.

(** A printed number is read back as a command argument. *)
Lemma string_to_ll_print z :
  in_ll z → z ≠ INT64_MIN → string_to_ll (cstr (ll_to_string z)) = Some z.
Proof.
  intros Hz Hmin. unfold string_to_ll. rewrite cstr_idemp, cstr_id by (by apply ll_to_string_nul_free).
  by apply ll_parse_print.
Qed.

End Num.

Module Glob.

(** ** The matcher

    A pattern is the list of its bytes before the terminating NUL; the pointers
    [p] and [q] into it are suffixes, and the end of the list is the NUL.  The
    subject pointers [s], [e] are the remaining subject. *)

(** The [while] loop of [glob_class]: result of the loop and the pointer [q]. *)
Fixpoint class_loop (q : bytes) (c : byte) (first matched : bool) : bool * bytes :=
  match q with
  | [] => (matched, [])
  | lo :: q1 =>
      if first || negb (bool_decide (lo = "]"%byte)) then
        match q1 with
        | d :: hi :: q2 =>
            if bool_decide (d = "-"%byte) && negb (bool_decide (hi = "]"%byte)) then
              class_loop q2 c false
                (matched || ((uchar lo <=? uchar c) && (uchar c <=? uchar hi)))
            else class_loop q1 c false (matched || bool_decide (c = lo))
        | _ => class_loop q1 c false (matched || bool_decide (c = lo))
        end
      else (matched, q)
  end.

(** [p] points just after the ['[']; the result is the return value and the
    updated [*p]. *)
Definition glob_class (p : bytes) (c : byte) : bool * bytes :=
  let '(negate, q) :=
    match p with
    | n :: q => if bool_decide (n = "!"%byte) || bool_decide (n = "^"%byte)
                then (true, q) else (false, p)
    | [] => (false, p)
    end in
  let '(matched, q) := class_loop q c true false in
  match q with
  | r :: q' => if decide (r = "]"%byte) then (xorb matched negate, q') else (false, q)
  | [] => (false, [])
  end.

(** [while ( *p == '*' ) p++]. *)
Fixpoint skip_stars (p : bytes) : bytes :=
  match p with
  | c :: p' => if decide (c = "*"%byte) then skip_stars p' else p
  | [] => []
  end.

(** [for (q = s; q <= e; q++) if (glob_rec(p, q, e)) return 1]. *)
Fixpoint star_loop (f : bytes → bool) (s : bytes) : bool :=
  f s || match s with [] => false | _ :: s' => star_loop f s' end.

(** Every recursive call is on a strictly shorter pattern, so fuel beyond the
    length of the pattern is never used up. *)
Fixpoint glob_rec (fuel : nat) (p s : bytes) : bool :=
  match fuel with
  | O => false
  | S fuel =>
      match p with
      | [] => bool_decide (s = [])
      | c :: p1 =>
          if decide (c = "*"%byte) then
            match skip_stars p with
            | [] => true
            | p2 => star_loop (glob_rec fuel p2) s
            end
          else
            match s with
            | [] => false
            | b :: s1 =>
                if decide (c = "?"%byte) then glob_rec fuel p1 s1
                else if decide (c = "["%byte) then
                  let '(ok, p2) := glob_class p1 b in
                  if ok then glob_rec fuel p2 s1 else false
                else if schar c =? uchar b then glob_rec fuel p1 s1
                else false
            end
      end
  end.

Definition util_glob_match (pat s : bytes) : bool :=
  let p := cstr pat in glob_rec (S (length p)) p s.

Example glob_tests :
  util_glob_match (bs "*") (bs "") = true ∧ util_glob_match (bs "**") (bs "x") = true ∧
  util_glob_match (bs "user:*") (bs "user:123") = true ∧
  util_glob_match (bs "a?c") (bs "ac") = false ∧
  util_glob_match (bs "[a-c]at") (bs "bat") = true ∧
  util_glob_match (bs "[!a-c]at") (bs "bat") = false ∧
  util_glob_match (bs "*.txt") (bs "report.txt") = true ∧
  util_glob_match (bs "file[0-9]") (bs "filex") = false ∧
  util_glob_match (bs "a[]x]b") (bs "a]b") = true.
Proof. vm_compute. repeat split; reflexivity. Qed.

(** ** Declarative semantics *)

Inductive token :=
| TStar
| TAny
| TClass (negate : bool) (ranges : list (byte * byte))
| TBad                       (* unterminated class *)
| TLit (c : byte).

(** The ranges of a class body, and what follows them. *)
Fixpoint class_ranges (q : bytes) (first : bool) : list (byte * byte) * bytes :=
  match q with
  | [] => ([], [])
  | lo :: q1 =>
      if first || negb (bool_decide (lo = "]"%byte)) then
        match q1 with
        | d :: hi :: q2 =>
            if bool_decide (d = "-"%byte) && negb (bool_decide (hi = "]"%byte)) then
              let '(rs, q) := class_ranges q2 false in ((lo, hi) :: rs, q)
            else let '(rs, q) := class_ranges q1 false in ((lo, lo) :: rs, q)
        | _ => let '(rs, q) := class_ranges q1 false in ((lo, lo) :: rs, q)
        end
      else ([], q)
  end.

Fixpoint tokenize (fuel : nat) (p : bytes) : list token :=
  match fuel, p with
  | S fuel, c :: p1 =>
      if decide (c = "*"%byte) then TStar :: tokenize fuel p1
      else if decide (c = "?"%byte) then TAny :: tokenize fuel p1
      else if decide (c = "["%byte) then
        let '(negate, q) :=
          match p1 with
          | n :: q => if bool_decide (n = "!"%byte) || bool_decide (n = "^"%byte)
                      then (true, q) else (false, p1)
          | [] => (false, p1)
          end in
        let '(rs, q) := class_ranges q true in
        match q with
        | r :: q' => if decide (r = "]"%byte) then TClass negate rs :: tokenize fuel q' else [TBad]
        | [] => [TBad]
        end
      else TLit c :: tokenize fuel p1
  | _, _ => []
  end.

Definition in_ranges (rs : list (byte * byte)) (c : byte) : bool :=
  existsb (λ '(lo, hi), (uchar lo <=? uchar c) && (uchar c <=? uchar hi)) rs.

(** What a token string matches.  A literal compares the pattern's [char] with
    the subject's [unsigned char]. *)
Inductive matches : list token → bytes → Prop :=
| M_nil : matches [] []
| M_star ts s1 s2 : matches ts s2 → matches (TStar :: ts) (s1 ++ s2)
| M_any ts c s : matches ts s → matches (TAny :: ts) (c :: s)
| M_class ts negate rs c s :
    xorb (in_ranges rs c) negate = true → matches ts s → matches (TClass negate rs :: ts) (c :: s)
| M_lit ts p c s : schar p = uchar c → matches ts s → matches (TLit p :: ts) (c :: s).

(** ** Proofs *)

Lemma in_ranges_cons lo hi rs c :
  in_ranges ((lo, hi) :: rs) c =
  ((uchar lo <=? uchar c) && (uchar c <=? uchar hi)) || in_ranges rs c.
Proof. done. Qed.

Lemma single_range lo c : bool_decide (c = lo) = ((uchar lo <=? uchar c) && (uchar c <=? uchar lo)).
Proof.
  apply eq_bool_prop_intro. rewrite bool_decide_spec, andb_True, !Is_true_true, !Z.leb_le.
  split; [intros ->; lia|]. intros. apply uchar_inj. lia.
Qed.

(** The loop of [glob_class] tests membership in the ranges of the class. *)
Lemma class_loop_ranges q c first m :
  class_loop q c first m =
  (m || in_ranges (class_ranges q first).1 c, (class_ranges q first).2).
Proof.
  revert first m. induction q as [q IH] using list_len_ind. intros first m.
  assert (Hone : ∀ lo q1, (length q1 < length q)%nat →
    class_loop q1 c false (m || bool_decide (c = lo)) =
    (let '(rs, q') := class_ranges q1 false in
     (m || in_ranges ((lo, lo) :: rs) c, q'))).
  { intros lo q1 Hl. rewrite IH by done. destruct (class_ranges q1 false) as [rs q'].
    by rewrite in_ranges_cons, <- single_range, orb_assoc. }
  destruct q as [|lo q1]; [simpl; by rewrite orb_false_r|].
  cbn [class_loop class_ranges]. case_if; [|simpl; by rewrite orb_false_r].
  destruct q1 as [|d [|hi q2]]; try case_if;
    try (rewrite Hone by (simpl; lia); by destruct (class_ranges _ false)).
  rewrite IH by (simpl; lia). destruct (class_ranges q2 false) as [rs q'].
  cbn [fst snd]. by rewrite in_ranges_cons, orb_assoc.
Qed.

Lemma class_ranges_length q first : (length (class_ranges q first).2 <= length q)%nat.
Proof.
  revert first. induction q as [q IH] using list_len_ind. intros first.
  assert (Hone : ∀ (r : byte * byte) q1, (length q1 < length q)%nat →
    (length (let '(rs, q') := class_ranges q1 false in (r :: rs, q')).2 <= length q)%nat).
  { intros r q1 Hl. specialize (IH q1 Hl false). destruct (class_ranges q1 false). simpl in *. lia. }
  destruct q as [|lo q1]; [simpl; lia|].
  cbn [class_ranges]. case_if; [|simpl; lia].
  destruct q1 as [|d [|hi q2]]; try case_if; apply Hone; simpl; lia.
Qed.

Lemma tokenize_fuel f f' p :
  (length p <= f)%nat → (length p <= f')%nat → tokenize f p = tokenize f' p.
Proof.
  revert f f'. induction p as [p IH] using list_len_ind. intros f f' Hf Hf'.
  destruct p as [|c p1]; [by destruct f, f'|].
  destruct f as [|f], f' as [|f']; simpl in Hf, Hf'; try lia.
  cbn [tokenize]. repeat case_decide; try (f_equal; apply IH; simpl; lia).
  destruct (match p1 with [] => _ | _ => _ end) as [neg q] eqn:E.
  assert (Hq : (length q <= length p1)%nat).
  { destruct p1 as [|n q1]; [by simplify_eq|].
    destruct (_ || _); simplify_eq; simpl; lia. }
  pose proof (class_ranges_length q true) as Hr.
  destruct (class_ranges q true) as [rs [|r q']]; [done|]. simpl in Hr.
  case_decide; [|done]. f_equal. apply IH; simpl; lia.
Qed.

(** The tokens of a pattern. *)
Definition toks (p : bytes) : list token := tokenize (length p) p.

Lemma toks_star p : toks ("*"%byte :: p) = TStar :: toks p.
Proof. done. Qed.

Lemma toks_any p : toks ("?"%byte :: p) = TAny :: toks p.
Proof. done. Qed.

Lemma toks_lit c p :
  c ≠ "*"%byte → c ≠ "?"%byte → c ≠ "["%byte → toks (c :: p) = TLit c :: toks p.
Proof. intros. unfold toks. cbn [length tokenize]. by rewrite !decide_False. Qed.

(** [glob_class] accepts a byte exactly when the class token does, and then
    continues with the rest of the pattern. *)
Lemma glob_class_spec p b :
  (∃ neg rs p2, toks ("["%byte :: p) = TClass neg rs :: toks p2 ∧ (length p2 <= length p)%nat ∧
     glob_class p b = (xorb (in_ranges rs b) neg, p2)) ∨
  (toks ("["%byte :: p) = [TBad] ∧ (glob_class p b).1 = false).
Proof.
  unfold toks, glob_class. cbn [length tokenize].
  rewrite (decide_False (P := _ = "*"%byte)), (decide_False (P := _ = "?"%byte)) by done.
  rewrite decide_True by done.
  destruct (match p with [] => _ | _ => _ end) as [neg q] eqn:E.
  assert (Hq : (length q <= length p)%nat).
  { destruct p as [|n q1]; [by simplify_eq|].
    destruct (_ || _); simplify_eq; simpl; lia. }
  rewrite class_loop_ranges. pose proof (class_ranges_length q true) as Hr.
  destruct (class_ranges q true) as [rs [|r q']]; [by right|]. simpl in Hr |- *.
  case_decide; [left|by right].
  exists neg, rs, q'. split_and!; [|lia|done]. f_equal. apply tokenize_fuel; lia.
Qed.

Lemma skip_stars_length p : (length (skip_stars p) <= length p)%nat.
Proof. induction p as [|c p IH]; simpl; [lia|]. case_decide; simpl; lia. Qed.

Lemma star_loop_true f s : star_loop f s = true ↔ ∃ s1 s2, s = s1 ++ s2 ∧ f s2 = true.
Proof.
  induction s as [|b s IH]; simpl; rewrite orb_true_iff.
  - split; [intros [?|?]; [exists [], []; auto|done]|].
    intros (s1 & s2 & [-> ->]%eq_sym%app_nil & ?). auto.
  - rewrite IH. split.
    + intros [?|(s1 & s2 & -> & ?)]; [by exists [], (b :: s)|by exists (b :: s1), s2].
    + intros ([|b' s1] & s2 & Heq & ?); simplify_list_eq; eauto.
Qed.

Lemma matches_star_inv ts s :
  matches (TStar :: ts) s ↔ ∃ s1 s2, s = s1 ++ s2 ∧ matches ts s2.
Proof.
  split.
  - intros H. inversion H; subst. eauto.
  - intros (s1 & s2 & -> & ?). by constructor.
Qed.

(** A run of stars means the same as one star. *)
Lemma matches_skip_stars p s :
  matches (toks ("*"%byte :: p)) s ↔
  ∃ s1 s2, s = s1 ++ s2 ∧ matches (toks (skip_stars p)) s2.
Proof.
  revert s. induction p as [|c p IH]; intros s; rewrite toks_star, matches_star_inv; [done|].
  simpl. case_decide as Hc; [subst c|done]. split.
  - intros (s1 & s2 & -> & (s3 & s4 & -> & ?)%IH). exists (s1 ++ s3), s4.
    by rewrite <- app_assoc.
  - intros (s1 & s2 & -> & ?). exists [], (s1 ++ s2). split; [done|]. apply IH. eauto.
Qed.

Lemma matches_nil_inv s : matches [] s ↔ s = [].
Proof. split; [by inversion 1|intros ->; constructor]. Qed.

Lemma matches_cons_inv t ts b s :
  matches (t :: ts) (b :: s) → t ≠ TStar →
  matches ts s ∧ match t with
                 | TAny => True
                 | TClass neg rs => xorb (in_ranges rs b) neg = true
                 | TLit c => schar c = uchar b
                 | _ => False
                 end.
Proof. intros H Ht. inversion H; subst; done. Qed.

Lemma matches_no_star_nil t ts : t ≠ TStar → ¬ matches (t :: ts) [].
Proof. intros Ht H. inversion H; subst; done. Qed.

Lemma glob_rec_correct fuel p s :
  (length p < fuel)%nat → glob_rec fuel p s = true ↔ matches (toks p) s.
Proof.
  revert p s. induction fuel as [|fuel IH]; intros p s Hf; [lia|].
  destruct p as [|c p1]; cbn [glob_rec].
  { rewrite bool_decide_eq_true, matches_nil_inv. done. }
  simpl in Hf. destruct (decide (c = "*"%byte)) as [->|Hstar].
  { cbn [skip_stars]. rewrite decide_True by done. rewrite matches_skip_stars.
    pose proof (skip_stars_length p1).
    destruct (skip_stars p1) as [|c2 p2] eqn:E.
    - split; [|done]. intros _. exists s, []. rewrite app_nil_r. split; [done|constructor].
    - rewrite star_loop_true. setoid_rewrite IH; [done|lia]. }
  destruct s as [|b s1].
  { split; [done|]. intros H. exfalso. revert H.
    destruct (decide (c = "?"%byte)) as [->|]; [rewrite toks_any; by apply matches_no_star_nil|].
    destruct (decide (c = "["%byte)) as [->|];
      [destruct (glob_class_spec p1 x00) as [(? & ? & ? & -> & _)|[-> _]]|rewrite toks_lit by done];
      by apply matches_no_star_nil. }
  destruct (decide (c = "?"%byte)) as [->|].
  { rewrite toks_any, IH by lia. split; [by constructor|].
    intros [? _]%matches_cons_inv; done. }
  destruct (decide (c = "["%byte)) as [->|].
  { destruct (glob_class_spec p1 b) as [(neg & rs & p2 & -> & Hl & ->)|[-> Hb]].
    - case_if.
      + rewrite IH by lia. split; [by constructor|]. intros [? _]%matches_cons_inv; done.
      + split; [done|]. intros [_ ?]%matches_cons_inv; congruence.
    - destruct (glob_class p1 b) as [ok p2]. simpl in Hb. subst ok.
      split; [done|]. by intros [_ ?]%matches_cons_inv. }
  rewrite toks_lit by done. case_if; bool_prop.
  - rewrite IH by lia. split; [by constructor|]. intros [? _]%matches_cons_inv; done.
  - split; [done|]. intros [_ ?]%matches_cons_inv; done.
Qed.

Lemma glob_match_toks (pat s : bytes) :
  util_glob_match pat s = true ↔ matches (toks (cstr pat)) s.
Proof. apply glob_rec_correct. lia. Qed.

(** C34: The recursive matcher decides the declarative semantics of the pattern's
    tokens, for every pattern and subject (so its fuel always suffices). *)
Theorem util_glob_match_correct (pat s : bytes) :
  util_glob_match pat s = true ↔ matches (toks (cstr pat)) s.
Proof. apply glob_match_toks. Qed.

(** A pattern byte that stands for itself. *)
Definition plain (c : byte) : Prop :=
  c ≠ "*"%byte ∧ c ≠ "?"%byte ∧ c ≠ "["%byte ∧ c ≠ NUL ∧ uchar c < 128.
#[global] Instance plain_dec c : Decision (plain c).
Proof. apply _. Defined.

(** An ASCII pattern without metacharacters matches exactly itself. *)
Theorem glob_plain_is_equality (p s : bytes) :
  Forall plain p → util_glob_match p s = true ↔ s = p.
Proof.
  intros Hp. rewrite glob_match_toks.
  rewrite cstr_id; cycle 1.
  { intros Hin. apply (proj1 (Forall_forall _ _) Hp) in Hin as (_ & _ & _ & ? & _). done. }
  revert s. induction Hp as [|c p (? & ? & ? & ? & ?) Hp IH]; intros s.
  { apply matches_nil_inv. }
  rewrite toks_lit by done. split.
  - intros H4. destruct s as [|b s]; [by apply matches_no_star_nil in H4|].
    apply matches_cons_inv in H4 as [Hm Hc]; [|done].
    rewrite schar_uchar in Hc by done. apply uchar_inj in Hc. f_equal; [done|by apply IH].
  - intros ->. constructor; [by rewrite schar_uchar|by apply IH].
Qed.

Lemma glob_plain_is_equality_witness :
  util_glob_match (bs "user:1") (bs "user:1") = true ↔ bs "user:1" = bs "user:1".
Proof.
  apply (glob_plain_is_equality (bs "user:1") (bs "user:1")).
  apply (bool_decide_unpack _). vm_compute. exact I.
Defined.

(** With the signed [char] of x86-64, a pattern that starts with a byte above
    0x7f matches nothing at all, not even the key it spells: the comparison
    [ *p == (unsigned char) *s ] compares a negative number with one in 128..255. *)
Theorem glob_high_byte_never_matches (c : byte) (p s : bytes) :
  128 <= uchar c → util_glob_match (c :: p) s = false.
Proof.
  intros Hc. apply not_true_iff_false. rewrite glob_match_toks.
  assert (Hne : ∀ b : byte, uchar b < 128 → c ≠ b) by (intros b Hb ->; lia).
  cbn [cstr]. rewrite decide_False by (by apply Hne).
  rewrite toks_lit by (by apply Hne).
  destruct s as [|b s]; [by apply matches_no_star_nil|].
  intros [_ H]%matches_cons_inv; [|done].
  pose proof (uchar_range b). pose proof (uchar_range c).
  unfold schar in H. revert H. case_if; bool_prop; lia.
Qed.

Lemma glob_high_byte_never_matches_witness :
  util_glob_match [xc3; xa9] [xc3; xa9] = false.
Proof. apply (glob_high_byte_never_matches xc3). vm_compute. congruence. Defined.

End Glob.
