(* ===== verification/Dict.v ===== *)
(** * The hash table ([src/dict.c])

    Chained buckets with SipHash, doubling at load factor 3/4.  The model keeps
    the bucket array, the order of every chain, and the stored hashes, because
    iteration order is visible to clients ([KEYS], [HGETALL], snapshots).

    Part 1 translates the operations; part 2 states the invariant [dict_wf] and
    the abstraction [dict_abs] to a finite map, and proves that every operation
    preserves the one and implements the corresponding map operation. *)

From S2P Require Import Prelude Siphash.

Record entry (V : Type) := Entry { e_key : bytes; e_val : V; e_hash : Z }.
Arguments Entry {V} _ _ _.
Arguments e_key {V} _.
Arguments e_val {V} _.
Arguments e_hash {V} _.

Record dict (V : Type) := Dict {
  table : list (list (entry V));   (* buckets, each a chain in [next] order *)
  size : nat;                      (* number of buckets *)
  used : nat;                      (* number of entries *)
  seed : bytes;                    (* SipHash key *)
}.
Arguments Dict {V} _ _ _ _.
Arguments table {V} _.
Arguments size {V} _.
Arguments used {V} _.
Arguments seed {V} _.

Definition INITIAL_SIZE : nat := 16.
Definition LOAD_FACTOR_NUM : nat := 3.
Definition LOAD_FACTOR_DEN : nat := 4.

Section Operations.
Context {V : Type}.
Implicit Types (d : dict V) (c : list (entry V)).

Definition dict_hash (key seed : bytes) : Z := siphash key seed.

(** [e->hash == hash && e->klen == klen && memcmp(...) == 0]. *)
Definition key_equal (e : entry V) (key : bytes) (hash : Z) : bool :=
  (e_hash e =? hash) && bool_decide (length (e_key e) = length key) && bool_decide (e_key e = key).

(** The random key is the sixteen bytes [util_random_bytes] delivered. *)
Definition dict_create (random16 : bytes) : dict V := Dict [] 0 0 random16.

(** [h & (size - 1)]. *)
Definition bucket_of (h : Z) (size : nat) : nat := Z.to_nat (Z.land h (Z.of_nat size - 1)).

(** [table[idx]]; the index is always below the size. *)
Definition bucket (t : list (list (entry V))) (idx : nat) : list (entry V) := nth idx t [].

(** The inner loop of [dict_resize]: unlink each entry of a chain and push it at
    the head of its new bucket. *)
Fixpoint move_chain (new_size : nat) c (new_table : list (list (entry V))) :=
  match c with
  | [] => new_table
  | e :: next =>
      let idx := bucket_of (e_hash e) new_size in
      move_chain new_size next (<[idx := e :: bucket new_table idx]> new_table)
  end.

Definition dict_resize d (new_size : nat) : dict V :=
  let new_table :=
    fold_left (λ nt c, move_chain new_size c nt) (table d) (replicate new_size []) in
  Dict new_table new_size (used d) (seed d).

Definition dict_grow d : dict V :=
  if (size d =? 0)%nat then dict_resize d INITIAL_SIZE
  else if (size d * LOAD_FACTOR_NUM <=? used d * LOAD_FACTOR_DEN)%nat then dict_resize d (size d * 2)
  else d.

(** The search loop over a chain. *)
Fixpoint chain_get c (key : bytes) (h : Z) : option V :=
  match c with
  | [] => None
  | e :: c' => if key_equal e key h then Some (e_val e) else chain_get c' key h
  end.

Definition dict_get d (key : bytes) : option V :=
  if (size d =? 0)%nat then None
  else
    let h := dict_hash key (seed d) in
    chain_get (bucket (table d) (bucket_of h (size d))) key h.

(** The replacement loop of [dict_set]: the old value and the updated chain, or
    [None] when the key is not in the chain. *)
Fixpoint chain_replace c (key : bytes) (h : Z) (v : V) : option (V * list (entry V)) :=
  match c with
  | [] => None
  | e :: c' =>
      if key_equal e key h then Some (e_val e, Entry (e_key e) v (e_hash e) :: c')
      else match chain_replace c' key h v with
           | Some (old, c'') => Some (old, e :: c'')
           | None => None
           end
  end.

(** Returns the previous value ([None] for NULL) and the updated dictionary. *)
Definition dict_set d (key : bytes) (v : V) : option V * dict V :=
  let d := dict_grow d in
  let h := dict_hash key (seed d) in
  let idx := bucket_of h (size d) in
  match chain_replace (bucket (table d) idx) key h v with
  | Some (old, c) => (Some old, Dict (<[idx := c]> (table d)) (size d) (used d) (seed d))
  | None =>
      (None, Dict (<[idx := Entry key v h :: bucket (table d) idx]> (table d))
                  (size d) (S (used d)) (seed d))
  end.

(** The unlinking loop of [dict_delete]. *)
Fixpoint chain_remove c (key : bytes) (h : Z) : option (V * list (entry V)) :=
  match c with
  | [] => None
  | e :: c' =>
      if key_equal e key h then Some (e_val e, c')
      else match chain_remove c' key h with
           | Some (v, c'') => Some (v, e :: c'')
           | None => None
           end
  end.

Definition dict_delete d (key : bytes) : option V * dict V :=
  if (size d =? 0)%nat then (None, d)
  else
    let h := dict_hash key (seed d) in
    let idx := bucket_of h (size d) in
    match chain_remove (bucket (table d) idx) key h with
    | Some (v, c) => (Some v, Dict (<[idx := c]> (table d)) (size d) (used d - 1) (seed d))
    | None => (None, d)
    end.

Definition dict_size d : nat := used d.

(** An assignment through the pointer that [dict_get] returned: the entry keeps
    its place in its chain and holds the new value. *)
Definition dict_poke d (key : bytes) (v : V) : dict V :=
  let h := dict_hash key (seed d) in
  let idx := bucket_of h (size d) in
  match chain_replace (bucket (table d) idx) key h v with
  | Some (_, c) => Dict (<[idx := c]> (table d)) (size d) (used d) (seed d)
  | None => d
  end.

(** ** Iteration *)

(** [it->entry] points at the head of a chain suffix; the empty suffix is NULL. *)
Record dict_iter := DictIter { it_bucket : nat; it_entry : list (entry V) }.

Definition dict_iter_init : dict_iter := DictIter 0 [].

(** The [while (it->bucket < d->size)] scan over the buckets from [b] on. *)
Fixpoint iter_scan (ts : list (list (entry V))) (b : nat) : option (entry V) * dict_iter :=
  match ts with
  | [] => (None, DictIter b [])
  | [] :: ts' => iter_scan ts' (S b)
  | (e :: c) :: _ => (Some e, DictIter b (e :: c))
  end.

Definition dict_iter_next d (it : dict_iter) : option (entry V) * dict_iter :=
  match it_entry it with
  | _ :: e :: c => (Some e, DictIter (it_bucket it) (e :: c))
  | [_] => iter_scan (drop (S (it_bucket it)) (table d)) (S (it_bucket it))
  | [] => iter_scan (drop (it_bucket it) (table d)) (it_bucket it)
  end.

(** [while ((e = dict_iter_next(&it)) != NULL)]: the entries in visiting order. *)
Fixpoint iter_run (fuel : nat) d (it : dict_iter) : list (entry V) :=
  match fuel with
  | O => []
  | S fuel =>
      match dict_iter_next d it with
      | (None, _) => []
      | (Some e, it) => e :: iter_run fuel d it
      end
  end.

(** A full iteration.  The loop stops by itself; the fuel is one more than the
    number of entries in the table. *)
Definition dict_entries d : list (entry V) :=
  iter_run (S (length (concat (table d)))) d dict_iter_init.

(** ** Random entry *)

(** The reservoir loop: [r i] is the value of the [i]-th call of [rand]. *)
Fixpoint reservoir (es : list (entry V)) (r : nat → Z) (i : nat) (pick : option (entry V)) :
    option (entry V) :=
  match es with
  | [] => pick
  | e :: es' =>
      reservoir es' r (S i) (if r i mod (Z.of_nat i + 1) =? 0 then Some e else pick)
  end.

(** The loops over buckets and chains visit [concat table]; one [rand] each. *)
Definition dict_random_entry d (r : nat → Z) : option (entry V) :=
  if (used d =? 0)%nat then None else reservoir (concat (table d)) r 0 None.

End Operations.

Arguments dict_iter V : clear implicits.

(** ** Invariant and abstraction *)

Section Correctness.
Context {V : Type}.
Implicit Types (d : dict V) (c es : list (entry V)) (t : list (list (entry V))).

Definition pair_of (e : entry V) : bytes * V := (e_key e, e_val e).

Definition to_map es : gmap bytes V := list_to_map (pair_of <$> es).

(** The finite map a dictionary stands for. *)
Definition dict_abs d : gmap bytes V := to_map (concat (table d)).

Definition entry_ok (sd : bytes) (sz i : nat) (e : entry V) : Prop :=
  e_hash e = dict_hash (e_key e) sd ∧ bucket_of (e_hash e) sz = i.

Record dict_wf d : Prop := {
  wf_table : length (table d) = size d;
  wf_size : size d = 0%nat ∨ ∃ k, size d = (2 ^ (4 + k))%nat;
  wf_entry : ∀ i c e, table d !! i = Some c → e ∈ c → entry_ok (seed d) (size d) i e;
  wf_nodup : NoDup (e_key <$> concat (table d));
  wf_used : used d = length (concat (table d));
  wf_load : (used d * 4 <= size d * 3)%nat;
}.

(** *** Lists of buckets *)

Definition others t (i : nat) : list (entry V) := concat (take i t) ++ concat (drop (S i) t).

Lemma concat_bucket t i c : t !! i = Some c → concat t ≡ₚ c ++ others t i.
Proof.
  intros H. rewrite <- (take_drop_middle t i c H) at 1. unfold others.
  rewrite concat_app. cbn [concat]. by rewrite Permutation_app_swap_app.
Qed.

Lemma concat_insert_bucket t i c c' : t !! i = Some c → concat (<[i:=c']> t) ≡ₚ c' ++ others t i.
Proof.
  intros H. rewrite insert_take_drop by (by eapply lookup_lt_Some). unfold others.
  rewrite concat_app. cbn [concat]. by rewrite Permutation_app_swap_app.
Qed.

Lemma elem_of_concat t e : e ∈ concat t ↔ ∃ i c, t !! i = Some c ∧ e ∈ c.
Proof.
  induction t as [|c0 t IH]; simpl.
  - split; [by intros ?%elem_of_nil|]. intros (i & c & H & _). by rewrite lookup_nil in H.
  - rewrite elem_of_app, IH. split.
    + intros [?|(i & c & ? & ?)]; [by exists 0%nat, c0|by exists (S i), c].
    + intros ([|i] & c & H & ?); simplify_eq/=; eauto.
Qed.

Lemma elem_of_others t i e : e ∈ others t i → ∃ j c, j ≠ i ∧ t !! j = Some c ∧ e ∈ c.
Proof.
  unfold others. rewrite elem_of_app, !elem_of_concat.
  intros [(j & c & Hj & He)|(j & c & Hj & He)].
  - apply lookup_take_Some in Hj as [? ?]. exists j, c. split_and!; auto; lia.
  - rewrite lookup_drop in Hj. exists (S i + j)%nat, c. split_and!; auto; lia.
Qed.

Lemma bucket_lookup t i : (i < length t)%nat → t !! i = Some (bucket t i).
Proof.
  intros H. unfold bucket. destruct (lookup_lt_is_Some_2 t i H) as [c Hc].
  by rewrite (nth_lookup_Some _ _ _ _ Hc).
Qed.

(** *** Chains *)

Lemma key_equal_true (e : entry V) k h : key_equal e k h = true ↔ e_hash e = h ∧ e_key e = k.
Proof.
  unfold key_equal. rewrite !andb_true_iff, !bool_decide_eq_true, Z.eqb_eq.
  split; [intros [[? ?] ?]; auto|]. intros [? <-]. auto.
Qed.

(** All entries of the chain under key [k] carry the hash [h]. *)
Definition hash_consistent c k h : Prop := ∀ e, e ∈ c → e_key e = k → e_hash e = h.

Lemma hash_consistent_cons e c k h :
  hash_consistent (e :: c) k h → (key_equal e k h = true ↔ e_key e = k) ∧ hash_consistent c k h.
Proof.
  intros H. split.
  - rewrite key_equal_true. split; [tauto|]. intros Hk. split; [|done]. apply H; [left|done].
  - intros e' He'. apply H. by right.
Qed.

Lemma to_map_cons e es : to_map (e :: es) = <[e_key e := e_val e]> (to_map es).
Proof. done. Qed.

Lemma chain_get_spec c k h : hash_consistent c k h → chain_get c k h = to_map c !! k.
Proof.
  induction c as [|e c IH]; intros H; [done|]. cbn [chain_get].
  apply hash_consistent_cons in H as [Hk Hc]. rewrite to_map_cons.
  destruct (key_equal e k h).
  - rewrite <- (proj1 Hk eq_refl). by rewrite lookup_insert_eq.
  - rewrite lookup_insert_ne by (intros ?%Hk; done). by apply IH.
Qed.

Lemma chain_replace_spec c k h v :
  hash_consistent c k h →
  match chain_replace c k h v with
  | Some (old, c') => ∃ c1 e c2, c = c1 ++ e :: c2 ∧ e_key e = k ∧ e_hash e = h ∧ old = e_val e ∧
                                c' = c1 ++ Entry k v h :: c2
  | None => k ∉ e_key <$> c
  end.
Proof.
  induction c as [|e c IH]; intros H; [apply not_elem_of_nil|]. cbn [chain_replace].
  pose proof (hash_consistent_cons _ _ _ _ H) as [Hk Hc]. specialize (IH Hc).
  destruct (key_equal e k h) eqn:E.
  - apply key_equal_true in E as [<- <-]. by exists [], e, c.
  - destruct (chain_replace c k h v) as [[old c']|].
    + destruct IH as (c1 & e' & c2 & -> & ? & ? & ? & ->). by exists (e :: c1), e', c2.
    + rewrite fmap_cons, not_elem_of_cons. split; [|done].
      intros Hke%eq_sym%Hk. done.
Qed.

Lemma chain_remove_spec c k h :
  hash_consistent c k h →
  match chain_remove c k h with
  | Some (old, c') => ∃ c1 e c2, c = c1 ++ e :: c2 ∧ e_key e = k ∧ old = e_val e ∧ c' = c1 ++ c2
  | None => k ∉ e_key <$> c
  end.
Proof.
  induction c as [|e c IH]; intros H; [apply not_elem_of_nil|]. cbn [chain_remove].
  pose proof (hash_consistent_cons _ _ _ _ H) as [Hk Hc]. specialize (IH Hc).
  destruct (key_equal e k h) eqn:E.
  - apply key_equal_true in E as [<- <-]. by exists [], e, c.
  - destruct (chain_remove c k h) as [[old c']|].
    + destruct IH as (c1 & e' & c2 & -> & ? & ? & ->). by exists (e :: c1), e', c2.
    + rewrite fmap_cons, not_elem_of_cons. split; [|done].
      intros Hke%eq_sym%Hk. done.
Qed.

(** *** Maps of entry lists *)

Lemma to_map_app es es' : to_map (es ++ es') = to_map es ∪ to_map es'.
Proof. unfold to_map. by rewrite fmap_app, list_to_map_app. Qed.

Lemma to_map_None es k : k ∉ e_key <$> es → to_map es !! k = None.
Proof.
  intros H. unfold to_map. apply not_elem_of_list_to_map_1.
  rewrite <- list_fmap_compose. exact H.
Qed.

Lemma to_map_perm es es' : NoDup (e_key <$> es) → es ≡ₚ es' → to_map es = to_map es'.
Proof.
  intros Hn Hp. unfold to_map. apply list_to_map_proper; [|by rewrite Hp].
  rewrite <- list_fmap_compose. exact Hn.
Qed.

Lemma to_map_size es : NoDup (e_key <$> es) → base.size (to_map es) = length es.
Proof.
  induction es as [|e es IH]; intros H; [done|].
  rewrite to_map_cons. rewrite fmap_cons in H. apply NoDup_cons in H as [Hk Hn].
  rewrite map_size_insert_None by (by apply to_map_None). by rewrite IH.
Qed.

(** *** The bucket of a key *)

Lemma bucket_of_lt h k : (bucket_of h (2 ^ k) < 2 ^ k)%nat.
Proof.
  unfold bucket_of. rewrite Nat2Z.inj_pow. change (Z.of_nat 2) with 2.
  rewrite Z.sub_1_r, <- Z.ones_equiv, Z.land_ones by lia.
  pose proof (Z.mod_pos_bound h (2 ^ Z.of_nat k) ltac:(lia)).
  apply Nat2Z.inj_lt. rewrite Z2Nat.id, Nat2Z.inj_pow by lia. lia.
Qed.

Lemma wf_bucket_lookup d h :
  dict_wf d → size d ≠ 0%nat →
  table d !! bucket_of h (size d) = Some (bucket (table d) (bucket_of h (size d))).
Proof.
  intros Hwf Hs. apply bucket_lookup. rewrite (wf_table _ Hwf).
  destruct (wf_size _ Hwf) as [?|[k Hk]]; [done|]. rewrite Hk. apply bucket_of_lt.
Qed.

Lemma wf_hash_consistent d i c k :
  dict_wf d → table d !! i = Some c → hash_consistent c k (dict_hash k (seed d)).
Proof. intros Hwf Hi e He <-. apply (wf_entry _ Hwf i c e Hi He). Qed.

(** No other bucket holds the key. *)
Lemma wf_not_in_others d k :
  dict_wf d → k ∉ e_key <$> others (table d) (bucket_of (dict_hash k (seed d)) (size d)).
Proof.
  intros Hwf (e & -> & He)%list_elem_of_fmap.
  apply elem_of_others in He as (j & c & Hne & Hj & He).
  destruct (wf_entry _ Hwf j c e Hj He) as [Hh Hb]. rewrite Hh in Hb. done.
Qed.

(** Lookup in the whole table is lookup in the bucket of the key. *)
Lemma abs_bucket d k c :
  dict_wf d →
  table d !! bucket_of (dict_hash k (seed d)) (size d) = Some c →
  dict_abs d !! k = to_map c !! k.
Proof.
  intros Hwf Hc. unfold dict_abs.
  rewrite (to_map_perm _ _ (wf_nodup _ Hwf) (concat_bucket _ _ _ Hc)), to_map_app.
  apply lookup_union_l, to_map_None, (wf_not_in_others d k Hwf).
Qed.

(** *** Replacing one bucket *)

(** The side conditions under which a new chain may take the place of the old
    one. *)
Lemma wf_replace_bucket d i c c' n :
  dict_wf d → table d !! i = Some c →
  (∀ e, e ∈ c' → entry_ok (seed d) (size d) i e) →
  NoDup (e_key <$> c' ++ others (table d) i) →
  n = length (c' ++ others (table d) i) → (n * 4 <= size d * 3)%nat →
  dict_wf (Dict (<[i:=c']> (table d)) (size d) n (seed d)) ∧
  dict_abs (Dict (<[i:=c']> (table d)) (size d) n (seed d)) = to_map (c' ++ others (table d) i).
Proof.
  intros Hwf Hi Hc' Hnd Hn Hl.
  pose proof (concat_insert_bucket _ _ _ c' Hi) as Hp.
  assert (Hnd' : NoDup (e_key <$> concat (<[i:=c']> (table d)))) by (by rewrite Hp).
  split; [constructor; simpl|].
  - rewrite length_insert. apply (wf_table _ Hwf).
  - apply (wf_size _ Hwf).
  - intros j cj e Hj He. destruct (decide (i = j)) as [<-|Hne].
    + rewrite list_lookup_insert_eq in Hj by (by eapply lookup_lt_Some). simplify_eq. auto.
    + rewrite list_lookup_insert_ne in Hj by done. by eapply (wf_entry _ Hwf).
  - done.
  - by rewrite Hp.
  - done.
  - unfold dict_abs. simpl. by apply to_map_perm.
Qed.

Lemma wf_nodup_bucket d i c :
  dict_wf d → table d !! i = Some c → NoDup (e_key <$> c ++ others (table d) i).
Proof. intros Hwf Hi. rewrite <- (concat_bucket _ _ _ Hi). apply (wf_nodup _ Hwf). Qed.

Lemma wf_used_bucket d i c :
  dict_wf d → table d !! i = Some c → used d = length (c ++ others (table d) i).
Proof. intros Hwf Hi. rewrite <- (concat_bucket _ _ _ Hi). apply (wf_used _ Hwf). Qed.

(** A chain [c1 ++ e :: c2] in context: the entry in front of everything else. *)
Lemma chain_middle (c1 c2 r : list (entry V)) e : (c1 ++ e :: c2) ++ r ≡ₚ e :: (c1 ++ c2) ++ r.
Proof. by rewrite <- Permutation_middle. Qed.

Lemma abs_eq_bucket d i c :
  dict_wf d → table d !! i = Some c → dict_abs d = to_map (c ++ others (table d) i).
Proof. intros Hwf Hi. apply to_map_perm; [apply (wf_nodup _ Hwf)|by apply concat_bucket]. Qed.

(** *** Resizing *)

Definition table_ok (sd : bytes) (n : nat) t : Prop :=
  length t = n ∧ ∀ i c e, t !! i = Some c → e ∈ c → entry_ok sd n i e.

Lemma move_chain_spec sd k c t :
  table_ok sd (2 ^ k) t → (∀ e, e ∈ c → e_hash e = dict_hash (e_key e) sd) →
  table_ok sd (2 ^ k) (move_chain (2 ^ k) c t) ∧ concat (move_chain (2 ^ k) c t) ≡ₚ c ++ concat t.
Proof.
  revert t. induction c as [|e c IH]; intros t Ht Hc; [done|]. cbn [move_chain].
  destruct Ht as [Hlen Hok].
  set (idx := bucket_of (e_hash e) (2 ^ k)).
  assert (Hidx : t !! idx = Some (bucket t idx)).
  { apply bucket_lookup. rewrite Hlen. apply bucket_of_lt. }
  destruct (IH (<[idx := e :: bucket t idx]> t)) as [Hok' Hp].
  - split; [by rewrite length_insert|]. intros i ci e' Hi He'.
    destruct (decide (idx = i)) as [<-|Hne].
    + rewrite list_lookup_insert_eq in Hi by (by eapply lookup_lt_Some). simplify_eq.
      apply elem_of_cons in He' as [->|He']; [|by eapply Hok].
      split; [|done]. apply Hc. left.
    + rewrite list_lookup_insert_ne in Hi by done. by eapply Hok.
  - intros e' He'. apply Hc. by right.
  - split; [done|]. rewrite Hp, (concat_insert_bucket _ _ _ _ Hidx), (concat_bucket _ _ _ Hidx).
    simpl. by rewrite <- Permutation_middle.
Qed.

Lemma move_all_spec sd k cs t :
  table_ok sd (2 ^ k) t → (∀ e, e ∈ concat cs → e_hash e = dict_hash (e_key e) sd) →
  let t' := fold_left (λ nt c, move_chain (2 ^ k) c nt) cs t in
  table_ok sd (2 ^ k) t' ∧ concat t' ≡ₚ concat cs ++ concat t.
Proof.
  revert t. induction cs as [|c cs IH]; intros t Ht Hc; [done|]. cbn [fold_left concat] in *.
  destruct (move_chain_spec sd k c t Ht) as [Ht' Hp].
  { intros e He. apply Hc, elem_of_app. by left. }
  destruct (IH _ Ht') as [Ht'' Hp'].
  { intros e He. apply Hc, elem_of_app. by right. }
  split; [done|]. rewrite Hp', Hp, <- app_assoc. apply Permutation_app_swap_app.
Qed.

Lemma concat_replicate_nil n : concat (replicate n ([] : list (entry V))) = [].
Proof. induction n; simpl; auto. Qed.

Lemma dict_resize_spec d k :
  dict_wf d → (used d * 4 <= 2 ^ (4 + k) * 3)%nat →
  dict_wf (dict_resize d (2 ^ (4 + k))) ∧ dict_abs (dict_resize d (2 ^ (4 + k))) = dict_abs d.
Proof.
  intros Hwf Hl. unfold dict_resize.
  destruct (move_all_spec (seed d) (4 + k) (table d) (replicate (2 ^ (4 + k)) []))
    as [[Hlen Hok] Hp].
  { split; [by rewrite length_replicate|]. intros i c e Hi He.
    apply lookup_replicate in Hi as [-> _]. by apply elem_of_nil in He. }
  { intros e (i & c & Hi & He)%elem_of_concat. apply (wf_entry _ Hwf i c e Hi He). }
  rewrite concat_replicate_nil, app_nil_r in Hp.
  split; [constructor; simpl|].
  - done.
  - right. by exists k.
  - done.
  - rewrite Hp. apply (wf_nodup _ Hwf).
  - rewrite Hp. apply (wf_used _ Hwf).
  - done.
  - unfold dict_abs. simpl. apply to_map_perm; [|done]. rewrite Hp. apply (wf_nodup _ Hwf).
Qed.

(** After [dict_grow] there is room for one more entry below load 3/4. *)
Lemma dict_grow_spec d :
  dict_wf d →
  dict_wf (dict_grow d) ∧ dict_abs (dict_grow d) = dict_abs d ∧ size (dict_grow d) ≠ 0%nat ∧
  (S (used (dict_grow d)) * 4 <= size (dict_grow d) * 3)%nat ∧ used (dict_grow d) = used d ∧
  seed (dict_grow d) = seed d.
Proof.
  intros Hwf. unfold dict_grow, INITIAL_SIZE, LOAD_FACTOR_NUM, LOAD_FACTOR_DEN.
  pose proof (wf_load _ Hwf).
  destruct (size d =? 0)%nat eqn:E0; [apply Nat.eqb_eq in E0|apply Nat.eqb_neq in E0].
  { change 16%nat with (2 ^ (4 + 0))%nat.
    destruct (dict_resize_spec d 0 Hwf) as [? ?]; [simpl; lia|].
    split_and!; auto; simpl; lia. }
  destruct (wf_size _ Hwf) as [?|[k Hk]]; [done|].
  assert (H4 : (2 ^ (4 + k) = 16 * 2 ^ k)%nat) by (rewrite Nat.pow_add_r; done).
  destruct (size d * 3 <=? used d * 4)%nat eqn:E; [apply Nat.leb_le in E|apply Nat.leb_gt in E].
  - assert (Heq : (size d * 2 = 2 ^ (4 + S k))%nat).
    { rewrite Hk. replace (4 + S k)%nat with (S (4 + k)) by lia. cbn [Nat.pow]. lia. }
    rewrite Heq. destruct (dict_resize_spec d (S k) Hwf) as [? ?]; [lia|].
    split_and!; auto; cbn [dict_resize size used]; lia.
  - split_and!; auto. lia.
Qed.

(** ** Every operation implements its map operation *)

Lemma dict_create_spec r16 : dict_wf (dict_create r16) ∧ dict_abs (dict_create r16) = ∅.
Proof.
  split; [constructor; simpl|done]; auto using NoDup_nil_2.
  - intros i c e Hi. by rewrite lookup_nil in Hi.
Qed.

Lemma wf_size_0 d : dict_wf d → size d = 0%nat → dict_abs d = ∅.
Proof.
  intros Hwf H0. unfold dict_abs. pose proof (wf_table _ Hwf) as Ht. rewrite H0 in Ht.
  by rewrite (nil_length_inv _ Ht).
Qed.

Lemma dict_get_correct d k : dict_wf d → dict_get d k = dict_abs d !! k.
Proof.
  intros Hwf. unfold dict_get.
  destruct (size d =? 0)%nat eqn:E; [apply Nat.eqb_eq in E|apply Nat.eqb_neq in E].
  { by rewrite (wf_size_0 d Hwf E), lookup_empty. }
  pose proof (wf_bucket_lookup d (dict_hash k (seed d)) Hwf E) as Hb.
  rewrite (abs_bucket d k _ Hwf Hb). apply chain_get_spec. by eapply wf_hash_consistent.
Qed.

(** Replacing a value in place, in the bucket of its key. *)
Lemma replace_in_place d k v c1 e c2 :
  dict_wf d →
  let i := bucket_of (dict_hash k (seed d)) (size d) in
  table d !! i = Some (c1 ++ e :: c2) → e_key e = k → e_hash e = dict_hash k (seed d) →
  let d' := Dict (<[i := c1 ++ Entry k v (dict_hash k (seed d)) :: c2]> (table d))
                 (size d) (used d) (seed d) in
  dict_wf d' ∧ dict_abs d' = <[k := v]> (dict_abs d) ∧ dict_abs d !! k = Some (e_val e).
Proof.
  intros Hwf i Hi Hk Hh. cbn zeta.
  pose proof (wf_nodup_bucket d i _ Hwf Hi) as Hnd.
  set (e' := Entry k v (dict_hash k (seed d))).
  assert (Hnd' : NoDup (e_key <$> (c1 ++ e' :: c2) ++ others (table d) i)).
  { rewrite chain_middle in Hnd |- *. rewrite fmap_cons in Hnd |- *. by rewrite Hk in Hnd. }
  destruct (wf_replace_bucket d i _ (c1 ++ e' :: c2) (used d) Hwf Hi) as [Hwf' Habs]; auto.
  - intros x [?|[->|?]%elem_of_cons]%elem_of_app.
    + apply (wf_entry _ Hwf i _ x Hi). apply elem_of_app. by left.
    + done.
    + apply (wf_entry _ Hwf i _ x Hi). apply elem_of_app. right. by right.
  - rewrite (wf_used_bucket d i _ Hwf Hi). rewrite !length_app. simpl. lia.
  - apply (wf_load _ Hwf).
  - rewrite (abs_eq_bucket d i _ Hwf Hi), Habs.
    rewrite (to_map_perm _ _ Hnd' (chain_middle _ _ _ _)).
    rewrite (to_map_perm _ _ Hnd (chain_middle _ _ _ _)).
    rewrite !to_map_cons, Hk. split_and!; [done| |by rewrite lookup_insert_eq].
    simpl. by rewrite insert_insert_eq.
Qed.

Lemma dict_set_correct d k v :
  dict_wf d →
  dict_wf (dict_set d k v).2 ∧
  dict_abs (dict_set d k v).2 = <[k := v]> (dict_abs d) ∧
  (dict_set d k v).1 = dict_abs d !! k.
Proof.
  intros Hwf0. destruct (dict_grow_spec d Hwf0) as (Hwf & Habs & Hs & Hload & _ & _).
  unfold dict_set. rewrite <- Habs. revert Hwf Hs Hload. clear Hwf0 Habs.
  generalize (dict_grow d). clear d. intros d Hwf Hs Hload.
  set (h := dict_hash k (seed d)). set (i := bucket_of h (size d)).
  pose proof (wf_bucket_lookup d h Hwf Hs) as Hi. fold i in Hi.
  pose proof (chain_replace_spec (bucket (table d) i) k h v (wf_hash_consistent d i _ k Hwf Hi)) as Hr.
  destruct (chain_replace _ k h v) as [[old c]|].
  - destruct Hr as (c1 & e & c2 & Hb & Hk & Hh & -> & ->). rewrite Hb in Hi.
    destruct (replace_in_place d k v c1 e c2 Hwf Hi Hk Hh) as (? & ? & ?). auto.
  - pose proof (abs_bucket d k _ Hwf Hi) as Hlk. rewrite (to_map_None _ _ Hr) in Hlk.
    assert (Hnk : k ∉ e_key <$> others (table d) i) by apply (wf_not_in_others d k Hwf).
    destruct (wf_replace_bucket d i _ (Entry k v h :: bucket (table d) i) (S (used d)) Hwf Hi)
      as [Hwf' Habs']; auto.
    + intros x [->|?]%elem_of_cons; [done|]. by apply (wf_entry _ Hwf i _ x Hi).
    + cbn [app]. rewrite fmap_cons. apply NoDup_cons. split; [|by apply wf_nodup_bucket].
      rewrite fmap_app. intros [?|?]%elem_of_app; done.
    + by rewrite (wf_used_bucket d i _ Hwf Hi).
    + simpl. rewrite Habs'. cbn [app]. rewrite to_map_cons. simpl.
      rewrite <- (abs_eq_bucket d i _ Hwf Hi). auto.
Qed.

Lemma dict_delete_correct d k :
  dict_wf d →
  dict_wf (dict_delete d k).2 ∧
  dict_abs (dict_delete d k).2 = delete k (dict_abs d) ∧
  (dict_delete d k).1 = dict_abs d !! k.
Proof.
  intros Hwf. unfold dict_delete.
  destruct (size d =? 0)%nat eqn:E; [apply Nat.eqb_eq in E|apply Nat.eqb_neq in E].
  { simpl. rewrite (wf_size_0 d Hwf E), delete_empty, lookup_empty. auto. }
  set (h := dict_hash k (seed d)). set (i := bucket_of h (size d)).
  pose proof (wf_bucket_lookup d h Hwf E) as Hi. fold i in Hi.
  pose proof (chain_remove_spec (bucket (table d) i) k h (wf_hash_consistent d i _ k Hwf Hi)) as Hr.
  pose proof (abs_bucket d k _ Hwf Hi) as Hlk.
  destruct (chain_remove _ k h) as [[old c]|].
  - destruct Hr as (c1 & e & c2 & Hb & Hk & -> & ->). rewrite Hb in Hi.
    pose proof (wf_nodup_bucket d i _ Hwf Hi) as Hnd.
    pose proof Hnd as Hnd'. rewrite chain_middle, fmap_cons in Hnd'.
    apply NoDup_cons in Hnd' as [Hnk Hnd'].
    pose proof (wf_used_bucket d i _ Hwf Hi) as Hu. rewrite chain_middle in Hu. simpl in Hu.
    destruct (wf_replace_bucket d i _ (c1 ++ c2) (used d - 1) Hwf Hi) as [Hwf' Habs']; auto.
    + intros x Hx. apply (wf_entry _ Hwf i _ x Hi).
      apply elem_of_app in Hx as [?|?]; apply elem_of_app; [by left|right; by right].
    + rewrite Hu. lia.
    + pose proof (wf_load _ Hwf). lia.
    + simpl. split; [done|]. rewrite (abs_eq_bucket d i _ Hwf Hi), Habs'.
      rewrite (to_map_perm _ _ Hnd (chain_middle _ _ _ _)), to_map_cons, Hk.
      rewrite Hk in Hnk. rewrite lookup_insert_eq. split; [|done].
      rewrite delete_insert_id; [done|]. by apply to_map_None.
  - simpl. rewrite (to_map_None _ _ Hr) in Hlk. split_and!; [done| |done].
    by rewrite delete_id.
Qed.

(** Mutation through a pointer obtained by [dict_get]. *)
Lemma dict_poke_correct d k v :
  dict_wf d → is_Some (dict_abs d !! k) →
  dict_wf (dict_poke d k v) ∧ dict_abs (dict_poke d k v) = <[k := v]> (dict_abs d).
Proof.
  intros Hwf [w Hw]. unfold dict_poke.
  assert (Hs : size d ≠ 0%nat).
  { intros H0. by rewrite (wf_size_0 d Hwf H0), lookup_empty in Hw. }
  set (h := dict_hash k (seed d)). set (i := bucket_of h (size d)).
  pose proof (wf_bucket_lookup d h Hwf Hs) as Hi. fold i in Hi.
  pose proof (chain_replace_spec (bucket (table d) i) k h v (wf_hash_consistent d i _ k Hwf Hi)) as Hr.
  destruct (chain_replace _ k h v) as [[old c]|].
  - destruct Hr as (c1 & e & c2 & Hb & Hk & Hh & -> & ->). rewrite Hb in Hi.
    destruct (replace_in_place d k v c1 e c2 Hwf Hi Hk Hh) as (? & ? & ?). auto.
  - rewrite (abs_bucket d k _ Hwf Hi), (to_map_None _ _ Hr) in Hw. done.
Qed.

Lemma dict_size_correct d : dict_wf d → dict_size d = base.size (dict_abs d).
Proof.
  intros Hwf. unfold dict_size, dict_abs. rewrite to_map_size by apply (wf_nodup _ Hwf).
  apply (wf_used _ Hwf).
Qed.

(** ** Iteration visits every entry once, bucket by bucket *)

(** What an iterator has still to deliver. *)
Definition remaining t (it : dict_iter V) : list (entry V) :=
  match it_entry it with
  | _ :: c => c ++ concat (drop (S (it_bucket it)) t)
  | [] => concat (drop (it_bucket it) t)
  end.

Lemma iter_scan_spec t b :
  match iter_scan (drop b t) b with
  | (None, _) => concat (drop b t) = []
  | (Some e, it) => concat (drop b t) = e :: remaining t it
  end.
Proof.
  remember (drop b t) as ts eqn:E. revert b E. induction ts as [|c ts IH]; intros b E; [done|].
  assert (Hd : ts = drop (S b) t).
  { replace (S b) with (b + 1)%nat by lia. rewrite <- drop_drop, <- E. done. }
  destruct c as [|e c]; cbn [iter_scan concat app].
  - by apply IH.
  - unfold remaining. cbn [it_entry it_bucket]. by rewrite Hd.
Qed.

Lemma dict_iter_next_spec d it :
  match dict_iter_next d it with
  | (None, _) => remaining (table d) it = []
  | (Some e, it') => remaining (table d) it = e :: remaining (table d) it'
  end.
Proof.
  destruct it as [b [|e0 [|e c]]]; unfold dict_iter_next; cbn [it_entry it_bucket];
    [exact (iter_scan_spec (table d) _)..|done].
Qed.

Lemma iter_run_spec fuel d it :
  (length (remaining (table d) it) < fuel)%nat → iter_run fuel d it = remaining (table d) it.
Proof.
  revert it. induction fuel as [|fuel IH]; intros it Hf; [lia|]. cbn [iter_run].
  pose proof (dict_iter_next_spec d it) as H. destruct (dict_iter_next d it) as [[e|] it'].
  - rewrite H in Hf |- *. simpl in Hf. rewrite IH by lia. done.
  - done.
Qed.

Lemma dict_entries_concat d : dict_entries d = concat (table d).
Proof. unfold dict_entries. rewrite iter_run_spec; unfold remaining; simpl; [|rewrite drop_0; lia]. by rewrite drop_0. Qed.

Lemma dict_entries_map d : to_map (dict_entries d) = dict_abs d.
Proof. by rewrite dict_entries_concat. Qed.

Lemma dict_entries_length d : dict_wf d → length (dict_entries d) = used d.
Proof. intros Hwf. rewrite dict_entries_concat. by rewrite (wf_used _ Hwf). Qed.

Lemma dict_entries_nodup d : dict_wf d → NoDup (e_key <$> dict_entries d).
Proof. intros Hwf. rewrite dict_entries_concat. apply (wf_nodup _ Hwf). Qed.

Lemma dict_entries_to_list d : dict_wf d → pair_of <$> dict_entries d ≡ₚ map_to_list (dict_abs d).
Proof.
  intros Hwf. rewrite <- dict_entries_map. unfold to_map. symmetry. apply map_to_list_to_map.
  rewrite <- list_fmap_compose. by apply dict_entries_nodup.
Qed.

Lemma elem_of_dict_entries d e :
  dict_wf d → e ∈ dict_entries d → dict_abs d !! e_key e = Some (e_val e).
Proof.
  intros Hwf He. rewrite <- dict_entries_map. unfold to_map.
  apply elem_of_list_to_map_1.
  - rewrite <- list_fmap_compose. by apply dict_entries_nodup.
  - by apply (list_elem_of_fmap_2 pair_of).
Qed.

Lemma dict_abs_entries d k v :
  dict_abs d !! k = Some v → ∃ e, e ∈ dict_entries d ∧ e_key e = k ∧ e_val e = v.
Proof.
  rewrite <- dict_entries_map. unfold to_map. intros H%elem_of_list_to_map_2.
  apply list_elem_of_fmap in H as (e & [= -> ->] & He). eauto.
Qed.

(** ** The random entry *)

Lemma reservoir_some es r i p : ∃ e, reservoir es r i (Some p) = Some e ∧ (e = p ∨ e ∈ es).
Proof.
  revert i p. induction es as [|e es IH]; intros i p; cbn [reservoir]; [eauto|].
  case_if.
  - destruct (IH (S i) e) as (x & -> & [->|?]); eexists; split; eauto; right; [left|by right].
  - destruct (IH (S i) p) as (x & -> & [->|?]); eexists; split; eauto. right. by right.
Qed.

Lemma dict_random_entry_spec d r :
  dict_wf d → used d ≠ 0%nat → ∃ e, dict_random_entry d r = Some e ∧ e ∈ dict_entries d.
Proof.
  intros Hwf Hu. unfold dict_random_entry. rewrite (proj2 (Nat.eqb_neq _ _) Hu).
  rewrite dict_entries_concat. pose proof (wf_used _ Hwf) as Hl.
  destruct (concat (table d)) as [|e es]; [done|]. cbn [reservoir].
  rewrite Z.mod_1_r. simpl. destruct (reservoir_some es r 1 e) as (x & -> & [->|?]);
    eexists; split; eauto; [left|by right].
Qed.

End Correctness.

#[global] Opaque dict_entries.

(** ** The interface the rest of the program relies on

    A store of values under binary-safe keys: what [src/dict.h] promises to its
    clients, as operations with their laws against a finite map. *)
Class KVMap (D V : Type) := {
  kv_wf : D → Prop;
  kv_abs : D → gmap bytes V;
  kv_get : D → bytes → option V;
  kv_set : D → bytes → V → option V * D;
  kv_delete : D → bytes → option V * D;
  kv_size : D → nat;
  kv_get_ok d k : kv_wf d → kv_get d k = kv_abs d !! k;
  kv_set_ok d k v :
    kv_wf d → kv_wf (kv_set d k v).2 ∧ kv_abs (kv_set d k v).2 = <[k := v]> (kv_abs d) ∧
              (kv_set d k v).1 = kv_abs d !! k;
  kv_delete_ok d k :
    kv_wf d → kv_wf (kv_delete d k).2 ∧ kv_abs (kv_delete d k).2 = delete k (kv_abs d) ∧
              (kv_delete d k).1 = kv_abs d !! k;
  kv_size_ok d : kv_wf d → kv_size d = base.size (kv_abs d);
}.

#[export] Instance dict_KVMap V : KVMap (dict V) V := {|
  kv_wf := dict_wf;
  kv_abs := dict_abs;
  kv_get := dict_get;
  kv_set := dict_set;
  kv_delete := dict_delete;
  kv_size := dict_size;
  kv_get_ok := dict_get_correct;
  kv_set_ok := dict_set_correct;
  kv_delete_ok := dict_delete_correct;
  kv_size_ok := dict_size_correct;
|}.

(** Sequences of operations and what they return, for any implementation of the
    interface and for the finite map itself. *)
Section Traces.
Context {V : Type}.

Inductive kv_op := OGet (k : bytes) | OSet (k : bytes) (v : V) | ODelete (k : bytes) | OSize.

Definition kv_out : Type := option V + nat.

Fixpoint run_impl {D} `{!KVMap D V} (ops : list kv_op) (d : D) : list kv_out * D :=
  match ops with
  | [] => ([], d)
  | op :: ops =>
      let '(o, d) :=
        match op with
        | OGet k => (inl (kv_get d k), d)
        | OSet k v => let '(old, d) := kv_set d k v in (inl old, d)
        | ODelete k => let '(old, d) := kv_delete d k in (inl old, d)
        | OSize => (inr (kv_size d), d)
        end in
      let '(os, d) := run_impl ops d in (o :: os, d)
  end.

Fixpoint run_spec (ops : list kv_op) (m : gmap bytes V) : list kv_out * gmap bytes V :=
  match ops with
  | [] => ([], m)
  | op :: ops =>
      let '(o, m) :=
        match op with
        | OGet k => (inl (m !! k), m)
        | OSet k v => (inl (m !! k), <[k := v]> m)
        | ODelete k => (inl (m !! k), delete k m)
        | OSize => (inr (base.size m), m)
        end in
      let '(os, m) := run_spec ops m in (o :: os, m)
  end.

Lemma run_impl_refines {D} `{!KVMap D V} (ops : list kv_op) (d : D) :
  kv_wf d →
  kv_wf (run_impl ops d).2 ∧
  (run_impl ops d).1 = (run_spec ops (kv_abs d)).1 ∧
  kv_abs (run_impl ops d).2 = (run_spec ops (kv_abs d)).2.
Proof.
  revert d. induction ops as [|op ops IH]; intros d Hwf; [done|]. cbn [run_impl run_spec].
  assert (Hstep : ∀ o (d' : D) m', kv_wf d' → kv_abs d' = m' →
    kv_wf (let '(os, d) := run_impl ops d' in (o :: os, d)).2 ∧
    (let '(os, d) := run_impl ops d' in (o :: os, d)).1 =
    (let '(os, m) := run_spec ops m' in (o :: os, m)).1 ∧
    kv_abs (let '(os, d) := run_impl ops d' in (o :: os, d)).2 =
    (let '(os, m) := run_spec ops m' in (o :: os, m)).2).
  { intros o d' m' Hwf' <-. destruct (IH d' Hwf') as (? & ? & ?).
    destruct (run_impl ops d'), (run_spec ops (kv_abs d')). simpl in *. split_and!; congruence. }
  destruct op as [k|k v|k|].
  - rewrite kv_get_ok by done. auto.
  - destruct (kv_set_ok d k v Hwf) as (? & ? & ?). destruct (kv_set d k v) as [old d'].
    simpl in *. subst old. auto.
  - destruct (kv_delete_ok d k Hwf) as (? & ? & ?). destruct (kv_delete d k) as [old d'].
    simpl in *. subst old. auto.
  - rewrite kv_size_ok by done. auto.
Qed.

(** The dictionary after a sequence of operations on a fresh one. *)
Definition dict_after (r16 : bytes) (ops : list kv_op) : dict V := (run_impl ops (dict_create r16)).2.

Lemma dict_after_wf r16 ops : dict_wf (dict_after r16 ops).
Proof. exact (proj1 (run_impl_refines ops (dict_create r16) (proj1 (dict_create_spec r16)))). Qed.

End Traces.
Arguments kv_op V : clear implicits.
Arguments kv_out V : clear implicits.

(** ** Properties *)

(** C18: the hash table implements a finite map.  Any sequence of get, set,
    delete and size operations on a fresh dictionary, whatever its random SipHash
    key, returns exactly what the same sequence returns on a finite map, through
    every collision and every resize, and leaves a table that stands for the
    resulting map. *)
Theorem dict_refines_finite_map {V} (r16 : bytes) (ops : list (kv_op V)) :
  (run_impl ops (dict_create r16)).1 = (run_spec ops ∅).1 ∧
  dict_abs (dict_after r16 ops) = (run_spec ops ∅).2.
Proof.
  destruct (dict_create_spec (V:=V) r16) as [Hwf Habs].
  destruct (@run_impl_refines V (dict V) (dict_KVMap V) ops (dict_create r16) Hwf) as (_ & H1 & H2).
  unfold dict_after. simpl in H1, H2. by rewrite H1, H2, Habs.
Qed.

(** C37: sizes and load.  After any sequence of operations the bucket count is
    zero or a power of two of at least sixteen, [used] is the number of entries,
    and the load factor is at most 3/4, so that [h & (size - 1)] is always a valid
    bucket index. *)
Theorem dict_load_bounded {V} (r16 : bytes) (ops : list (kv_op V)) :
  let d := dict_after r16 ops in
  (size d = 0%nat ∨ ∃ k, size d = (2 ^ (4 + k))%nat) ∧
  length (table d) = size d ∧
  used d = length (concat (table d)) ∧
  (used d * LOAD_FACTOR_DEN <= size d * LOAD_FACTOR_NUM)%nat ∧
  (size d ≠ 0%nat → ∀ h, (bucket_of h (size d) < length (table d))%nat).
Proof.
  intros d. pose proof (dict_after_wf r16 ops) as Hwf. fold d in Hwf.
  split_and!; try apply Hwf. intros Hs h.
  by eapply lookup_lt_Some, wf_bucket_lookup.
Qed.

(** C38: iteration.  Running [dict_iter_next] until it returns NULL delivers every
    binding of the map exactly once and nothing else, and takes exactly
    [dict_size] steps. *)
Theorem dict_iteration_exact {V} (r16 : bytes) (ops : list (kv_op V)) :
  let d := dict_after r16 ops in
  NoDup (e_key <$> dict_entries d) ∧
  (∀ k v, dict_abs d !! k = Some v ↔ ∃ e, e ∈ dict_entries d ∧ e_key e = k ∧ e_val e = v) ∧
  length (dict_entries d) = dict_size d.
Proof.
  intros d. pose proof (dict_after_wf r16 ops) as Hwf. fold d in Hwf. split_and!.
  - by apply dict_entries_nodup.
  - intros k v. split; [apply dict_abs_entries|].
    intros (e & He & <- & <-). by apply elem_of_dict_entries.
  - by apply dict_entries_length.
Qed.
