(* ===== verification/Dynbuf.v ===== *)
(** * The growable byte buffer ([src/dynbuf.c])

    The memory block is explicit: [p] is NULL or a block of [cap] bytes of which
    the first [len] are the content.  [size_t] arithmetic wraps at 64 bits, and
    the doubling loop of [dynbuf_reserve] is run with fuel, [None] meaning that it
    did not stop. *)

From S2P Require Import Prelude.

Record dynbuf := Dynbuf { db_p : option bytes; db_len : Z; db_cap : Z }.

Definition dynbuf_init : dynbuf := Dynbuf None 0 0.

(** [while (newcap < need) newcap *= 2]. *)
Fixpoint grow_cap (fuel : nat) (newcap need : Z) : option Z :=
  if newcap <? need then
    match fuel with
    | O => None
    | S fuel => grow_cap fuel (wrapu64 (newcap * 2)) need
    end
  else Some newcap.

(** [xrealloc(p, n)]: the block keeps its bytes; the new ones are indeterminate
    (here: zero; no theorem depends on them). *)
Definition realloc (p : option bytes) (n : Z) : bytes :=
  let old := default [] p in
  take (Z.to_nat n) old ++ replicate (Z.to_nat n - length old) x00.

(** More doublings than a 64-bit capacity can take. *)
Definition RESERVE_FUEL : nat := 64.

Definition dynbuf_reserve (b : dynbuf) (extra : Z) : option dynbuf :=
  let need := wrapu64 (db_len b + extra + 1) in
  if need <=? db_cap b then Some b
  else
    let newcap := if db_cap b =? 0 then 64 else db_cap b in
    newcap ← grow_cap RESERVE_FUEL newcap need;
    Some (Dynbuf (Some (realloc (db_p b) newcap)) (db_len b) newcap).

(** [memcpy(p + off, data, n)] inside a block. *)
Definition store (m : bytes) (off : nat) (data : bytes) : bytes :=
  take off m ++ data ++ drop (off + length data) m.

Definition dynbuf_append (b : dynbuf) (data : bytes) : option dynbuf :=
  let n := Z.of_nat (length data) in
  if n =? 0 then Some b
  else
    b ← dynbuf_reserve b n;
    m ← db_p b;
    let m := store m (Z.to_nat (db_len b)) data in
    let len := db_len b + n in
    Some (Dynbuf (Some (store m (Z.to_nat len) [NUL])) len (db_cap b)).

Definition dynbuf_append_cstr (b : dynbuf) (s : bytes) : option dynbuf := dynbuf_append b (cstr s).

(** [text] is what [vsnprintf] produces for the format and its arguments; the
    second call writes it with its terminating NUL. *)
Definition dynbuf_appendf (b : dynbuf) (text : bytes) : option dynbuf :=
  let n := Z.of_nat (length text) in
  b ← dynbuf_reserve b n;
  m ← db_p b;
  Some (Dynbuf (Some (store m (Z.to_nat (db_len b)) (text ++ [NUL]))) (db_len b + n) (db_cap b)).

Definition dynbuf_clear (b : dynbuf) : dynbuf :=
  Dynbuf ((λ m, store m 0 [NUL]) <$> db_p b) 0 (db_cap b).

Definition dynbuf_free (b : dynbuf) : dynbuf := Dynbuf None 0 0.

(** ** Invariant *)

(** The bytes a reader of the buffer sees. *)
Definition content (b : dynbuf) : bytes := take (Z.to_nat (db_len b)) (default [] (db_p b)).

Definition dynbuf_wf (b : dynbuf) : Prop :=
  match db_p b with
  | None => db_len b = 0 ∧ db_cap b = 0
  | Some m => Z.of_nat (length m) = db_cap b ∧ 0 <= db_len b < db_cap b ∧
              ∃ k, 0 <= k <= 57 ∧ db_cap b = 2 ^ (6 + k)
  end.

(** The byte after the content is NUL. *)
Definition terminated (b : dynbuf) : Prop :=
  ∃ m, db_p b = Some m ∧ m !! Z.to_nat (db_len b) = Some NUL.

(** ** Proofs *)

(** From [2^(6+k)] the loop stops at the first power of two that is enough. *)
Lemma grow_cap_spec fuel k need :
  0 <= k <= 57 → need <= 2 ^ 63 → 57 - k <= Z.of_nat fuel →
  ∃ k', grow_cap fuel (2 ^ (6 + k)) need = Some (2 ^ (6 + k')) ∧ k <= k' <= 57 ∧
        need <= 2 ^ (6 + k') ∧ (k' = k ∨ 2 ^ (6 + k') < 2 * need).
Proof.
  revert k. induction fuel as [|fuel IH]; intros k Hk Hn Hf; cbn [grow_cap].
  - replace k with 57 by lia. exists 57. rewrite (proj2 (Z.ltb_ge _ _)) by lia.
    split_and!; auto; lia.
  - case_if; bool_prop.
    + assert (k < 57).
      { destruct (Z.eq_dec k 57) as [->|]; [change (2 ^ (6 + 57)) with (2 ^ 63) in *; lia|lia]. }
      assert (Hp : 2 ^ (6 + k) * 2 = 2 ^ (6 + (k + 1))).
      { replace (6 + (k + 1)) with (6 + k + 1) by lia. by rewrite (Z.pow_add_r 2 (6 + k) 1) by lia. }
      assert (2 ^ (6 + (k + 1)) <= 2 ^ 63) by (apply Z.pow_le_mono_r; lia).
      unfold wrapu64. rewrite Z.mod_small, Hp by lia.
      destruct (IH (k + 1)) as (k' & -> & ? & ? & Hb); [lia..|].
      exists k'. split_and!; auto; try lia. right. destruct Hb as [->|?]; lia.
    + exists k. split_and!; auto; lia.
Qed.

(** Past half the address space the loop never stops: the capacity wraps to 0. *)
Lemma grow_cap_diverges fuel newcap need :
  2 ^ 63 < need → (newcap = 0 ∨ ∃ k, 0 <= k <= 63 ∧ newcap = 2 ^ k) → grow_cap fuel newcap need = None.
Proof.
  revert newcap. induction fuel as [|fuel IH]; intros newcap Hn Hc; cbn [grow_cap].
  all: assert (newcap < need) by
    (destruct Hc as [->|(k & Hk & ->)]; [lia|];
     assert (2 ^ k <= 2 ^ 63) by (apply Z.pow_le_mono_r; lia); lia).
  all: rewrite (proj2 (Z.ltb_lt _ _)) by done; try done.
  apply IH; [done|]. unfold wrapu64. destruct Hc as [->|(k & Hk & ->)]; [by left|].
  destruct (Z.eq_dec k 63) as [->|]; [left; done|]. right. exists (k + 1). split; [lia|].
  rewrite Z.mul_comm, <- Z.pow_succ_r, <- Z.add_1_r by lia. apply Z.mod_small.
  split; [lia|]. apply Z.pow_lt_mono_r; lia.
Qed.

Lemma realloc_length p n :
  (length (default [] p) <= Z.to_nat n)%nat → length (realloc p n) = Z.to_nat n.
Proof. intros. unfold realloc. rewrite length_app, length_take, length_replicate. lia. Qed.

Lemma realloc_take p n l :
  (l <= length (default [] p))%nat → (length (default [] p) <= Z.to_nat n)%nat →
  take l (realloc p n) = take l (default [] p).
Proof.
  intros. unfold realloc. rewrite take_app_le by (rewrite length_take; lia).
  rewrite take_take. f_equal. lia.
Qed.

(** A successful reservation: room for the request and its NUL, same content. *)
Lemma dynbuf_reserve_spec b extra :
  dynbuf_wf b → 0 <= extra → db_len b + extra + 1 <= 2 ^ 63 →
  ∃ m, let b' := Dynbuf (Some m) (db_len b) (Z.of_nat (length m)) in
       dynbuf_reserve b extra = Some b' ∧ dynbuf_wf b' ∧ content b' = content b ∧
       db_len b + extra + 1 <= Z.of_nat (length m) ∧
       Z.of_nat (length m) <= Z.max (Z.max 64 (db_cap b)) (2 * (db_len b + extra + 1)).
Proof.
  destruct b as [p len cap]. unfold dynbuf_wf, dynbuf_reserve. cbn [db_p db_len db_cap].
  intros Hwf He Hn.
  assert (Hlen : 0 <= len) by (destruct p; [|lia]; lia).
  unfold wrapu64. rewrite (Z.mod_small (len + extra + 1)) by lia.
  case_if; bool_prop.
  { destruct p as [m|]; [|lia]. exists m. destruct Hwf as (Hl & ? & ?). rewrite Hl.
    split_and!; auto; try lia. }
  assert (∃ k, 0 <= k <= 57 ∧ (if cap =? 0 then 64 else cap) = 2 ^ (6 + k) ∧
               (cap = 0 ∧ k = 0 ∨ cap = 2 ^ (6 + k)) ∧ Z.of_nat (length (default [] p)) <= 2 ^ (6 + k))
    as (k & Hk & -> & Hcap & Hold).
  { destruct p as [m|]; simpl.
    - destruct Hwf as (Hl & ? & k & ? & Hc). exists k. rewrite (proj2 (Z.eqb_neq _ _)) by lia.
      split_and!; auto; lia.
    - destruct Hwf as [-> ->]. exists 0. simpl. split_and!; auto; lia. }
  destruct (grow_cap_spec RESERVE_FUEL k (len + extra + 1)) as (k' & -> & Hk' & Hneed & Hmax);
    [lia|lia|unfold RESERVE_FUEL; lia|].
  assert (2 ^ (6 + k) <= 2 ^ (6 + k')) by (apply Z.pow_le_mono_r; lia).
  assert (Hl : length (realloc p (2 ^ (6 + k'))) = Z.to_nat (2 ^ (6 + k'))) by (apply realloc_length; lia).
  exists (realloc p (2 ^ (6 + k'))). rewrite Hl, Z2Nat.id by lia. simpl.
  assert (Z.to_nat len <= length (default [] p))%nat by (destruct p as [m|]; simpl in *; lia).
  split_and!; auto; try lia.
  - eexists. split; [|reflexivity]. lia.
  - unfold content. simpl. apply realloc_take; lia.
  - destruct Hmax as [->|?]; [|lia]. destruct Hcap as [[-> ->]| ->]; lia.
Qed.

Lemma store_length m off data :
  (off + length data <= length m)%nat → length (store m off data) = length m.
Proof. intros. unfold store. rewrite !length_app, length_take, length_drop. lia. Qed.

Lemma store_take m off data :
  (off + length data <= length m)%nat →
  take (off + length data) (store m off data) = take off m ++ data.
Proof.
  intros. unfold store. rewrite app_assoc, take_app_le by (rewrite length_app, length_take; lia).
  apply firstn_all2. rewrite length_app, length_take. lia.
Qed.

Lemma store_take_before m off l data : (l <= off <= length m)%nat → take l (store m off data) = take l m.
Proof.
  intros. unfold store. rewrite take_app_le by (rewrite length_take; lia).
  rewrite take_take. f_equal. lia.
Qed.

Lemma store_nul m off : (off < length m)%nat → store m off [NUL] !! off = Some NUL.
Proof.
  intros. unfold store. rewrite lookup_app_r by (rewrite length_take; lia).
  rewrite length_take, Nat.min_l, Nat.sub_diag by lia. done.
Qed.

(** Writing [data] and a NUL at the end of a buffer with room for both. *)
Lemma append_block m len data :
  let n := Z.of_nat (length data) in
  let m' := store (store m (Z.to_nat len) data) (Z.to_nat (len + n)) [NUL] in
  0 <= len → len + n + 1 <= Z.of_nat (length m) →
  length m' = length m ∧ take (Z.to_nat (len + n)) m' = take (Z.to_nat len) m ++ data ∧
  m' !! Z.to_nat (len + n) = Some NUL.
Proof.
  intros n m' Hlen Hfit. unfold m', n in *.
  assert (length (store m (Z.to_nat len) data) = length m) by (apply store_length; lia).
  rewrite store_length by (simpl; lia). split_and!; [done| |apply store_nul; lia].
  rewrite store_take_before by lia.
  replace (Z.to_nat (len + _)) with (Z.to_nat len + length data)%nat by lia.
  apply store_take. lia.
Qed.

Lemma dynbuf_append_spec b data :
  dynbuf_wf b → db_len b + Z.of_nat (length data) + 1 <= 2 ^ 63 →
  ∃ b', dynbuf_append b data = Some b' ∧ dynbuf_wf b' ∧ content b' = content b ++ data ∧
        db_len b' = db_len b + Z.of_nat (length data) ∧ (terminated b ∨ data ≠ [] → terminated b') ∧
        db_cap b' <= Z.max (Z.max 64 (db_cap b)) (2 * (db_len b' + 1)).
Proof.
  intros Hwf Hn. unfold dynbuf_append. case_if; bool_prop.
  { assert (data = []) as -> by (apply nil_length_inv; lia).
    exists b. rewrite app_nil_r. simpl. split_and!; auto; try lia. naive_solver. }
  destruct (dynbuf_reserve_spec b (Z.of_nat (length data)) Hwf) as (m & Hr & Hwf' & Hc & Hroom & Hcap);
    [lia..|].
  rewrite Hr. simpl.
  assert (Hlen : 0 <= db_len b) by (unfold dynbuf_wf in Hwf; destruct (db_p b); lia).
  destruct (append_block m (db_len b) data Hlen Hroom) as (Hl' & Ht' & Hz').
  destruct Hwf' as (_ & _ & k & Hk & Hpow).
  eexists. split; [reflexivity|]. unfold dynbuf_wf, terminated. simpl. split_and!.
  - by rewrite Hl'.
  - lia.
  - simpl in *. lia.
  - eauto.
  - unfold content in *. simpl in *. by rewrite Ht', Hc.
  - done.
  - intros _. eauto.
  - simpl in *. lia.
Qed.

(** Append the chunks one after the other. *)
Fixpoint append_all (b : dynbuf) (chunks : list bytes) : option dynbuf :=
  match chunks with
  | [] => Some b
  | c :: cs => b ← dynbuf_append b c; append_all b cs
  end.

Lemma append_all_spec chunks b :
  dynbuf_wf b → db_len b + Z.of_nat (length (concat chunks)) + 1 <= 2 ^ 63 →
  ∃ b', append_all b chunks = Some b' ∧ dynbuf_wf b' ∧ content b' = content b ++ concat chunks ∧
        db_len b' = db_len b + Z.of_nat (length (concat chunks)) ∧
        (terminated b ∨ concat chunks ≠ [] → terminated b') ∧
        db_cap b' <= Z.max (Z.max 64 (db_cap b)) (2 * (db_len b' + 1)).
Proof.
  revert b. induction chunks as [|c cs IH]; intros b Hwf Hn; cbn [append_all concat] in *.
  { exists b. rewrite app_nil_r. simpl. split_and!; auto; try lia. naive_solver. }
  rewrite length_app in Hn.
  destruct (dynbuf_append_spec b c Hwf) as (b1 & -> & Hwf1 & Hc1 & Hl1 & Ht1 & Hcap1); [lia|].
  destruct (IH b1 Hwf1) as (b2 & Hb2 & Hwf2 & Hc2 & Hl2 & Ht2 & Hcap2); [lia|].
  exists b2. rewrite length_app. split_and!; auto; try lia.
  - by rewrite Hc2, Hc1, app_assoc.
  - intros [Ht|Hne]; apply Ht2; [left; apply Ht1; by left|].
    destruct c; [by right|left; apply Ht1; by right].
Qed.

(** ** Properties *)



(** Past half the address space [dynbuf_reserve] does not terminate: the
    doubled capacity wraps around to zero and stays there, whatever the fuel. *)
Theorem dynbuf_reserve_overflow_diverges (fuel : nat) (b : dynbuf) (extra : Z) :
  dynbuf_wf b → 2 ^ 63 < wrapu64 (db_len b + extra + 1) →
  grow_cap fuel (if db_cap b =? 0 then 64 else db_cap b) (wrapu64 (db_len b + extra + 1)) = None.
Proof.
  intros Hwf Hn. apply grow_cap_diverges; [done|]. right.
  unfold dynbuf_wf in Hwf. destruct (db_p b) as [m|].
  - destruct Hwf as (_ & ? & k & ? & ->). rewrite (proj2 (Z.eqb_neq _ _)) by lia.
    exists (6 + k). split; [lia|done].
  - destruct Hwf as [_ ->]. by exists 6.
Qed.

Lemma dynbuf_reserve_overflow_diverges_witness :
  grow_cap 1000 64 (wrapu64 (0 + 2 ^ 63 + 1)) = None.
Proof.
  apply (dynbuf_reserve_overflow_diverges 1000 dynbuf_init (2 ^ 63)).
  - split; reflexivity.
  - vm_compute. reflexivity.
Defined.
