(* ===== verification/Resp.v ===== *)
(** * The RESP request parser ([src/resp.c])

    The pointer [buf + pos] is the suffix of the buffer it points to, so [pos] is
    the length already cut off and every read is within the buffer.  A command is
    the list of the byte strings pushed on [argv].

    The theorems: parsing inverts the wire encoding whatever follows it; adding
    input never changes a verdict already reached, so splitting the stream into
    packets has no effect; every strict prefix of a frame asks for more data. *)

From S2P Require Import Prelude Util.
Import Num.

Definition MAX_ARGC : Z := Z.shiftl 1 20.
Definition MAX_BULK_LEN : Z := 512 * 1024 * 1024.

(** [get_line] from the current position: the line without its CRLF, and the
    position after it; [None] when no CRLF is available yet. *)
Fixpoint get_line (s : bytes) : option (bytes * bytes) :=
  match s with
  | [] => None
  | c :: s' =>
      match s' with
      | [] => None
      | c' :: rest =>
          if bool_decide (c = CR) && bool_decide (c' = LF) then Some ([], rest)
          else match get_line s' with
               | Some (line, rest) => Some (c :: line, rest)
               | None => None
               end
      end
  end.

(** How a parse ends: more data needed, protocol error, or a command decoded
    with the unread suffix of the buffer. *)
Inductive status := More | Bad | Done (rest : bytes).

(** The [for] loop over the arguments; [argv] is what [command_push] has stored. *)
Fixpoint parse_args (count : nat) (rest : bytes) (argv : list bytes) : status * list bytes :=
  match count with
  | O => (Done rest, argv)
  | S count =>
      match rest with
      | [] => (More, argv)
      | t :: _ =>
          if negb (bool_decide (t = "$"%byte)) && negb (bool_decide (t = "+"%byte)) then (Bad, argv)
          else
            match get_line rest with
            | None => (More, argv)
            | Some (line, rest) =>
                if bool_decide (t = "$"%byte) then
                  match string_to_ll_n (drop 1 line) with
                  | None => (Bad, argv)
                  | Some slen =>
                      if slen <? 0 then parse_args count rest (argv ++ [[]])
                      else if slen >? MAX_BULK_LEN then (Bad, argv)
                      else if slen + 2 >? Z.of_nat (length rest) then (More, argv)
                      else
                        let n := Z.to_nat slen in
                        if negb (bool_decide (rest !! n = Some CR)) ||
                           negb (bool_decide (rest !! S n = Some LF)) then (Bad, argv)
                        else parse_args count (drop (n + 2) rest) (argv ++ [take n rest])
                  end
                else parse_args count rest (argv ++ [drop 1 line])
            end
      end
  end.

Definition resp_parse (buf : bytes) : status * list bytes :=
  match buf with
  | [] => (More, [])
  | c :: _ =>
      if negb (bool_decide (c = "*"%byte)) then (Bad, [])
      else
        match get_line buf with
        | None => (More, [])
        | Some (line, rest) =>
            if (length line <? 2)%nat then (Bad, [])
            else
              match string_to_ll_n (drop 1 line) with
              | None => (Bad, [])
              | Some count =>
                  if (count <? 0) || (count >? MAX_ARGC) then (Bad, [])
                  else parse_args (Z.to_nat count) rest []
              end
        end
  end.

(** Conversion to a 32-bit [int]. *)
Definition wraps32 (z : Z) : Z := (z + 2 ^ 31) mod 2 ^ 32 - 2 ^ 31.

(** The return value, and the arguments left in [cmd]. *)
Definition resp_parse_command (buf : bytes) : Z * list bytes :=
  match resp_parse buf with
  | (More, argv) => (0, argv)
  | (Bad, argv) => (-1, argv)
  | (Done rest, argv) => (wraps32 (Z.of_nat (length buf) - Z.of_nat (length rest)), argv)
  end.

Example resp_tests :
  resp_parse_command (bs "*2" ++ crlf ++ bs "$4" ++ crlf ++ bs "ECHO" ++ crlf ++ bs "$2" ++ crlf ++ bs "hi" ++ crlf)
    = (22, [bs "ECHO"; bs "hi"]) ∧
  resp_parse_command (bs "*0" ++ crlf) = (4, []) ∧
  (resp_parse_command (bs "*2" ++ crlf ++ bs "$3" ++ crlf ++ bs "SET" ++ crlf)).1 = 0 ∧
  (resp_parse_command (bs ":5" ++ crlf)).1 = -1 ∧
  (resp_parse_command (bs "*1" ++ crlf ++ bs "$3" ++ crlf ++ bs "SETxx")).1 = -1.
Proof. vm_compute. repeat split; reflexivity. Qed.

(** ** The wire encoding of a command *)

Definition encode_arg (a : bytes) : bytes :=
  bs "$" ++ dec_of (Z.of_nat (length a)) ++ crlf ++ a ++ crlf.

Definition resp_encode (argv : list bytes) : bytes :=
  bs "*" ++ dec_of (Z.of_nat (length argv)) ++ crlf ++ concat (encode_arg <$> argv).

(** A command the parser's limits admit. *)
Definition encodable (argv : list bytes) : Prop :=
  Z.of_nat (length argv) <= MAX_ARGC ∧
  Forall (λ a, Z.of_nat (length a) <= MAX_BULK_LEN) argv.
#[global] Instance encodable_dec argv : Decision (encodable argv).
Proof. apply _. Defined.

(** ** Lines *)

Lemma get_line_cons c s :
  get_line (c :: s) =
  match s with
  | [] => None
  | c' :: rest =>
      if bool_decide (c = CR) && bool_decide (c' = LF) then Some ([], rest)
      else match get_line s with
           | Some (line, rest) => Some (c :: line, rest)
           | None => None
           end
  end.
Proof. by destruct s. Qed.

(** A line without CR, followed by CRLF. *)
Lemma get_line_crlf l rest : CR ∉ l → get_line (l ++ crlf ++ rest) = Some (l, rest).
Proof.
  induction l as [|c l IH]; intros Hl; [done|].
  apply not_elem_of_cons in Hl as [Hc Hl]. cbn [app]. rewrite get_line_cons.
  destruct (l ++ crlf ++ rest) as [|c' r] eqn:E; [by destruct l|].
  rewrite bool_decide_false by congruence. cbn [andb]. rewrite IH by done. done.
Qed.

Lemma get_line_length s line rest :
  get_line s = Some (line, rest) → length s = (length line + 2 + length rest)%nat.
Proof.
  revert line rest. induction s as [|c s IH]; intros line rest; [done|].
  rewrite get_line_cons. destruct s as [|c' r]; [done|].
  destruct (_ && _); [by intros [= <- <-]|].
  destruct (get_line (c' :: r)) as [[l r']|]; [|done]. intros [= <- <-].
  specialize (IH l r' eq_refl). simpl in *. lia.
Qed.

(** The line starts with the byte at the current position, unless it is empty. *)
Lemma get_line_head c s line rest :
  get_line (c :: s) = Some (line, rest) → c ≠ CR → ∃ l, line = c :: l.
Proof.
  rewrite get_line_cons. destruct s as [|c' r]; [done|]. intros H Hc.
  rewrite bool_decide_false in H by done. cbn [andb] in H.
  destruct (get_line (c' :: r)) as [[l r']|]; simplify_eq; eauto.
Qed.

(** A line found in a buffer is found in any extension of it. *)
Lemma get_line_app s x line rest :
  get_line s = Some (line, rest) → get_line (s ++ x) = Some (line, rest ++ x).
Proof.
  revert line rest. induction s as [|c s IH]; intros line rest; [done|].
  cbn [app]. rewrite !get_line_cons. destruct s as [|c' r]; [done|]. cbn [app].
  destruct (_ && _); [by intros [= <- <-]|].
  destruct (get_line (c' :: r)) as [[l r']|]; [|done]. intros [= <- <-].
  specialize (IH l r' eq_refl). cbn [app] in IH. by rewrite IH.
Qed.

(** ** Round trip *)

Lemma dec_of_no_cr n : 0 <= n → CR ∉ dec_of n.
Proof.
  intros Hn Hin. destruct (dec_of_spec n Hn) as (_ & Hf & _).
  apply (proj1 (Forall_forall _ _) Hf) in Hin. revert Hin. vm_compute. intuition congruence.
Qed.

(** The header line of an argument or of the array. *)
Lemma get_line_header c n rest :
  c ≠ CR → 0 <= n → get_line (c :: dec_of n ++ crlf ++ rest) = Some (c :: dec_of n, rest).
Proof.
  intros Hc Hn. apply (get_line_crlf (c :: dec_of n)).
  apply not_elem_of_cons. split; [congruence|by apply dec_of_no_cr].
Qed.

Lemma parse_arg_encoded count a rest argv :
  Z.of_nat (length a) <= MAX_BULK_LEN →
  parse_args (S count) (encode_arg a ++ rest) argv = parse_args count rest (argv ++ [a]).
Proof.
  intros Ha. unfold encode_arg. rewrite <- !app_assoc.
  change (bs "$") with ["$"%byte]. cbn [app parse_args].
  rewrite bool_decide_true by done. simpl negb. cbn [andb].
  rewrite get_line_header by (done || lia). cbn [drop].
  assert (LLONG_MAX >= MAX_BULK_LEN) by (vm_compute; congruence).
  rewrite drop_0, dec_of_parse by lia.
  rewrite (proj2 (Z.ltb_ge _ _)) by lia.
  rewrite Z.gtb_ltb, (proj2 (Z.ltb_ge _ _)) by lia.
  rewrite Z.gtb_ltb, (proj2 (Z.ltb_ge _ _)) by (rewrite !length_app; simpl; lia).
  rewrite Nat2Z.id.
  rewrite !(lookup_app_r a), Nat.sub_diag by lia. replace (S (length a) - length a)%nat with 1%nat by lia.
  rewrite !bool_decide_true by done. cbn [negb orb].
  rewrite drop_app_ge by lia. replace (length a + 2 - length a)%nat with 2%nat by lia.
  by rewrite take_app_length.
Qed.

Lemma parse_args_encoded args rest argv :
  Forall (λ a, Z.of_nat (length a) <= MAX_BULK_LEN) args →
  parse_args (length args) (concat (encode_arg <$> args) ++ rest) argv = (Done rest, argv ++ args).
Proof.
  intros Hf. revert argv. induction Hf as [|a args Ha Hf IH]; intros argv.
  - simpl. by rewrite app_nil_r.
  - rewrite fmap_cons. cbn [concat length]. rewrite <- app_assoc.
    rewrite parse_arg_encoded by done. rewrite IH, <- app_assoc. done.
Qed.

Lemma resp_parse_encoded argv rest :
  encodable argv → resp_parse (resp_encode argv ++ rest) = (Done rest, argv).
Proof.
  intros [Hc Hf]. unfold resp_encode. rewrite <- !app_assoc.
  change (bs "*") with ["*"%byte]. cbn [app resp_parse].
  rewrite bool_decide_true by done. cbn [negb].
  rewrite get_line_header by (done || lia).
  destruct (dec_of_spec (Z.of_nat (length argv))) as (Hne & _); [lia|].
  destruct (dec_of (Z.of_nat (length argv))) as [|c ds] eqn:E; [done|].
  replace (length ("*"%byte :: c :: ds) <? 2)%nat with false by (symmetry; apply Nat.ltb_ge; simpl; lia).
  change (drop 1 ("*"%byte :: c :: ds)) with (c :: ds). rewrite <- E.
  assert (LLONG_MAX >= MAX_ARGC) by (vm_compute; congruence).
  rewrite dec_of_parse by lia.
  rewrite (proj2 (Z.ltb_ge _ _)), Z.gtb_ltb, (proj2 (Z.ltb_ge _ _)) by lia. cbn [orb].
  rewrite Nat2Z.id. by rewrite parse_args_encoded.
Qed.

(** ** Stability under more input *)

(** A verdict on a buffer, carried over to an extension of the buffer. *)
Definition extend (st : status) (x : bytes) : status :=
  match st with Done rest => Done (rest ++ x) | _ => st end.

Lemma parse_args_app count rest x argv :
  (parse_args count rest argv).1 ≠ More →
  parse_args count (rest ++ x) argv =
  (extend (parse_args count rest argv).1 x, (parse_args count rest argv).2).
Proof.
  revert rest argv. induction count as [|count IH]; intros rest argv; [done|].
  cbn [parse_args]. destruct rest as [|t r]; [done|]. cbn [app].
  case_if; [done|].
  destruct (get_line (t :: r)) as [[line rest']|] eqn:El; [|done].
  pose proof (get_line_app _ x _ _ El) as El'. cbn [app] in El'. rewrite El'.
  case_if; [|apply IH].
  destruct (string_to_ll_n (drop 1 line)) as [slen|]; [|done].
  destruct (slen <? 0) eqn:?; [apply IH|]. destruct (slen >? MAX_BULK_LEN); [done|].
  destruct (slen + 2 >? Z.of_nat (length rest')) eqn:?; [done|]. bool_prop.
  rewrite Z.gtb_ltb, (proj2 (Z.ltb_ge _ _)) by (rewrite length_app; lia).
  rewrite !lookup_app_l by lia.
  case_if; [done|]. rewrite take_app_le, drop_app_le by lia. apply IH.
Qed.

Lemma resp_parse_app buf x :
  (resp_parse buf).1 ≠ More →
  resp_parse (buf ++ x) = (extend (resp_parse buf).1 x, (resp_parse buf).2).
Proof.
  unfold resp_parse. destruct buf as [|c b]; [done|]. cbn [app].
  case_if; [done|].
  destruct (get_line (c :: b)) as [[line rest]|] eqn:El; [|done].
  pose proof (get_line_app _ x _ _ El) as El'. cbn [app] in El'. rewrite El'.
  case_if; [done|]. destruct (string_to_ll_n _) as [count|]; [|done].
  case_if; [done|]. apply parse_args_app.
Qed.

(** A strict prefix of a frame is incomplete. *)
Lemma resp_parse_prefix argv p x :
  encodable argv → resp_encode argv = p ++ x → x ≠ [] → (resp_parse p).1 = More.
Proof.
  intros He Heq Hx. pose proof (resp_parse_app p x) as Happ.
  pose proof (resp_parse_encoded argv [] He) as Henc. rewrite app_nil_r, Heq in Henc.
  rewrite Henc in Happ.
  destruct (resp_parse p) as [[| |rest] av]; simpl in *; [done| |];
    specialize (Happ ltac:(done)); simplify_eq.
  by destruct rest, x.
Qed.

(** ** Bounds *)

Lemma parse_args_bounds count rest argv :
  match parse_args count rest argv with
  | (Done rest', argv') => (length rest' <= length rest)%nat ∧ length argv' = (length argv + count)%nat
  | (_, argv') => (length argv' <= length argv + count)%nat
  end.
Proof.
  revert rest argv. induction count as [|count IH]; intros rest argv; cbn [parse_args]; [lia|].
  assert (Hstep : ∀ r a, (length r <= length rest)%nat →
    match parse_args count r (argv ++ [a]) with
    | (Done rest', argv') => (length rest' <= length rest)%nat ∧ length argv' = (length argv + S count)%nat
    | (_, argv') => (length argv' <= length argv + S count)%nat
    end).
  { intros r a Hr. specialize (IH r (argv ++ [a])). rewrite length_app in IH. simpl in IH.
    destruct (parse_args count r _) as [[| |r'] av]; lia. }
  destruct rest as [|t r]; [lia|]. case_if; [lia|].
  destruct (get_line (t :: r)) as [[line rest']|] eqn:El; [|lia].
  apply get_line_length in El.
  case_if; [|apply Hstep; lia].
  destruct (string_to_ll_n _) as [slen|]; [|lia].
  case_if; [apply Hstep; lia|]. case_if; [lia|]. case_if; [lia|]. case_if; [lia|].
  apply Hstep. rewrite length_drop. lia.
Qed.

Lemma resp_parse_bounds buf :
  match resp_parse buf with
  | (Done rest, argv) => (4 <= length buf - length rest)%nat ∧ (length rest <= length buf)%nat ∧
                         Z.of_nat (length argv) <= MAX_ARGC
  | (_, argv) => Z.of_nat (length argv) <= MAX_ARGC
  end.
Proof.
  assert (0 <= MAX_ARGC) by (vm_compute; congruence).
  unfold resp_parse. destruct buf as [|c b]; [simpl; lia|].
  case_if; [simpl; lia|].
  destruct (get_line (c :: b)) as [[line rest]|] eqn:El; [|simpl; lia].
  apply get_line_length in El.
  destruct (length line <? 2)%nat eqn:Hl; [simpl; lia|]. apply Nat.ltb_ge in Hl.
  destruct (string_to_ll_n _) as [count|]; [|simpl; lia].
  case_if; [simpl; lia|]. bool_prop.
  pose proof (parse_args_bounds (Z.to_nat count) rest []) as Hb. simpl in Hb.
  destruct (parse_args _ _ _) as [[| |r] argv]; [lia|lia|]. destruct Hb. rewrite El. lia.
Qed.

(** ** Properties *)

(** C25: parsing inverts the wire encoding.  For every command within the
    protocol limits, followed by any bytes, [resp_parse_command] returns exactly
    the arguments (binary-safe, empty ones included) and the length of the frame. *)
Theorem resp_roundtrip (argv : list bytes) (rest : bytes) :
  encodable argv → Z.of_nat (length (resp_encode argv)) < 2 ^ 31 →
  resp_parse_command (resp_encode argv ++ rest) = (Z.of_nat (length (resp_encode argv)), argv).
Proof.
  intros He Hlen. unfold resp_parse_command. rewrite resp_parse_encoded by done.
  rewrite length_app. unfold wraps32. rewrite Z.mod_small by lia. f_equal. lia.
Qed.

Lemma resp_roundtrip_witness :
  resp_parse_command (resp_encode [bs "SET"; bs "k"; [x00; x0d; x0a]] ++ bs "*1")
  = (29, [bs "SET"; bs "k"; [x00; x0d; x0a]]).
Proof.
  apply (resp_roundtrip [bs "SET"; bs "k"; [x00; x0d; x0a]] (bs "*1")).
  - apply (bool_decide_unpack _). vm_compute. exact I.
  - vm_compute. reflexivity.
Defined.

(** C26: verdicts are stable.  Once the parser has decoded a command or reported
    a protocol error, appending input changes neither the verdict nor the decoded
    arguments nor the number of bytes consumed; only "need more data" can change. *)
Theorem resp_parse_stable (buf x : bytes) :
  Z.of_nat (length (buf ++ x)) < 2 ^ 31 →
  (resp_parse_command buf).1 ≠ 0 →
  resp_parse_command (buf ++ x) = resp_parse_command buf.
Proof.
  intros Hlen. unfold resp_parse_command. rewrite length_app in Hlen.
  pose proof (resp_parse_app buf x) as Happ. pose proof (resp_parse_bounds buf) as Hb.
  destruct (resp_parse buf) as [[| |rest] argv]; simpl in *; [done| |]; intros _;
    rewrite Happ by done; [done|].
  f_equal. unfold wraps32. rewrite !length_app. f_equal. f_equal. lia.
Qed.

Lemma resp_parse_stable_witness :
  resp_parse_command (resp_encode [bs "PING"] ++ bs "*garbage") = (14, [bs "PING"]).
Proof. apply (resp_parse_stable (resp_encode [bs "PING"]) (bs "*garbage")); vm_compute; congruence. Defined.

(** C27: half packets.  Every strict prefix of an encoded command, cut at any
    byte, makes the parser ask for more data; it never reports an error or a
    shorter command. *)
Theorem resp_strict_prefix_needs_more (argv : list bytes) (p x : bytes) :
  encodable argv → resp_encode argv = p ++ x → x ≠ [] →
  Z.of_nat (length (resp_encode argv)) < 2 ^ 31 →
  (resp_parse_command p).1 = 0.
Proof.
  intros He Heq Hx Hlen. unfold resp_parse_command.
  pose proof (resp_parse_prefix argv p x He Heq Hx) as Hp.
  by destruct (resp_parse p) as [[| |rest] av].
Qed.

Lemma resp_strict_prefix_needs_more_witness :
  (resp_parse_command (bs "*1" ++ crlf ++ bs "$4" ++ crlf ++ bs "PI")).1 = 0.
Proof.
  apply (resp_strict_prefix_needs_more [bs "PING"] _ (bs "NG" ++ crlf)).
  - apply (bool_decide_unpack _). vm_compute. exact I.
  - vm_compute. reflexivity.
  - vm_compute. congruence.
  - vm_compute. reflexivity.
Defined.

(** Bounds.  On any input of less than 2 GiB the parser's return value is -1,
    0, or a count of consumed bytes between 4 and the length of the buffer, and it
    never stores more than [MAX_ARGC] arguments. *)
Theorem resp_parse_command_bounds (buf : bytes) :
  Z.of_nat (length buf) < 2 ^ 31 →
  let '(rc, argv) := resp_parse_command buf in
  (rc = -1 ∨ rc = 0 ∨ 4 <= rc <= Z.of_nat (length buf)) ∧ Z.of_nat (length argv) <= MAX_ARGC.
Proof.
  intros Hlen. unfold resp_parse_command. pose proof (resp_parse_bounds buf) as Hb.
  destruct (resp_parse buf) as [[| |rest] argv]; [auto..|].
  unfold wraps32. rewrite Z.mod_small by lia. lia.
Qed.

Lemma resp_parse_command_bounds_witness :
  (-1 = -1 ∨ -1 = 0 ∨ 4 <= -1 <= Z.of_nat (length (bs "PING"))) ∧ Z.of_nat (length ([] : list bytes)) <= MAX_ARGC.
Proof. apply (resp_parse_command_bounds (bs "PING")). vm_compute. reflexivity. Defined.
