(* ===== verification/CList.v ===== *)
(** * The doubly linked list ([src/list.c])

    A list owns its nodes: they live in a heap of its own, a finite map from
    locations to nodes, and a pointer is NULL ([None]) or a location.  Every
    dereference looks the location up and the operation is undefined ([None] of
    the result) when it is NULL or was freed.  [list_rep] relates the pointer
    structure to the sequence of values it stores; each operation is proved
    defined on represented lists and equal to an operation on sequences. *)

From S2P Require Import Prelude.

Abbreviation loc := nat.
Abbreviation ptr := (option loc).

Record list_node (A : Type) := Node { n_prev : ptr; n_next : ptr; n_val : A }.
Arguments Node {A} _ _ _.
Arguments n_prev {A} _.
Arguments n_next {A} _.
Arguments n_val {A} _.

Record clist (A : Type) := CList {
  l_nodes : gmap loc (list_node A);
  l_head : ptr;
  l_tail : ptr;
  l_len : Z;
  l_fresh : loc;                 (* where the allocator will place the next node *)
}.
Arguments CList {A} _ _ _ _ _.
Arguments l_nodes {A} _.
Arguments l_head {A} _.
Arguments l_tail {A} _.
Arguments l_len {A} _.
Arguments l_fresh {A} _.

Section Operations.
Context {A : Type}.
Implicit Types (l : clist A) (m : gmap loc (list_node A)) (x : ptr).

(** [x->f] for a possibly NULL or dangling [x]. *)
Definition deref m x : option (list_node A) := a ← x; m !! a.

(** [x->prev = y] and [x->next = y] and [x->val = v]. *)
Definition set_prev m x y : option (gmap loc (list_node A)) :=
  a ← x; n ← m !! a; Some (<[a := Node y (n_next n) (n_val n)]> m).
Definition set_next m x y : option (gmap loc (list_node A)) :=
  a ← x; n ← m !! a; Some (<[a := Node (n_prev n) y (n_val n)]> m).
Definition set_val m x (v : A) : option (gmap loc (list_node A)) :=
  a ← x; n ← m !! a; Some (<[a := Node (n_prev n) (n_next n) v]> m).

Definition list_create : clist A := CList ∅ None None 0 0.

Definition list_len l : Z := l_len l.

Definition list_push_head l (v : A) : option (clist A) :=
  let n := l_fresh l in
  let m := <[n := Node None (l_head l) v]> (l_nodes l) in
  match l_head l with
  | Some h =>
      m ← set_prev m (Some h) (Some n);
      Some (CList m (Some n) (l_tail l) (l_len l + 1) (S n))
  | None => Some (CList m (Some n) (Some n) (l_len l + 1) (S n))
  end.

Definition list_push_tail l (v : A) : option (clist A) :=
  let n := l_fresh l in
  let m := <[n := Node (l_tail l) None v]> (l_nodes l) in
  match l_tail l with
  | Some t =>
      m ← set_next m (Some t) (Some n);
      Some (CList m (l_head l) (Some n) (l_len l + 1) (S n))
  | None => Some (CList m (Some n) (Some n) (l_len l + 1) (S n))
  end.

(** The popped value, [None] for NULL, and the shortened list. *)
Definition list_pop_head l : option (option A * clist A) :=
  match l_head l with
  | None => Some (None, l)
  | Some n =>
      nd ← l_nodes l !! n;
      match n_next nd with
      | Some h =>
          m ← set_prev (l_nodes l) (Some h) None;
          Some (Some (n_val nd), CList (delete n m) (Some h) (l_tail l) (l_len l - 1) (l_fresh l))
      | None =>
          Some (Some (n_val nd), CList (delete n (l_nodes l)) None None (l_len l - 1) (l_fresh l))
      end
  end.

Definition list_pop_tail l : option (option A * clist A) :=
  match l_tail l with
  | None => Some (None, l)
  | Some n =>
      nd ← l_nodes l !! n;
      match n_prev nd with
      | Some t =>
          m ← set_next (l_nodes l) (Some t) None;
          Some (Some (n_val nd), CList (delete n m) (l_head l) (Some t) (l_len l - 1) (l_fresh l))
      | None =>
          Some (Some (n_val nd), CList (delete n (l_nodes l)) None None (l_len l - 1) (l_fresh l))
      end
  end.

Definition list_peek_head l : option (option A) :=
  match l_head l with Some h => n ← l_nodes l !! h; Some (Some (n_val n)) | None => Some None end.
Definition list_peek_tail l : option (option A) :=
  match l_tail l with Some t => n ← l_nodes l !! t; Some (Some (n_val n)) | None => Some None end.

Definition list_insert_after l (node : ptr) (v : A) : option (clist A) :=
  let n := l_fresh l in
  match node with
  | None =>
      let m := <[n := Node None (l_head l) v]> (l_nodes l) in
      match l_head l with
      | Some h =>
          m ← set_prev m (Some h) (Some n);
          Some (CList m (Some n) (l_tail l) (l_len l + 1) (S n))
      | None => Some (CList m (Some n) (Some n) (l_len l + 1) (S n))
      end
  | Some a =>
      nd ← l_nodes l !! a;
      let m := <[n := Node (Some a) (n_next nd) v]> (l_nodes l) in
      match n_next nd with
      | Some b =>
          m ← set_prev m (Some b) (Some n);
          m ← set_next m (Some a) (Some n);
          Some (CList m (l_head l) (l_tail l) (l_len l + 1) (S n))
      | None =>
          m ← set_next m (Some a) (Some n);
          Some (CList m (l_head l) (Some n) (l_len l + 1) (S n))
      end
  end.

Definition list_detach l (node : ptr) : option (option A * clist A) :=
  match node with
  | None => Some (None, l)
  | Some a =>
      nd ← l_nodes l !! a;
      '(m, hd) ← match n_prev nd with
                 | Some p => m ← set_next (l_nodes l) (Some p) (n_next nd); Some (m, l_head l)
                 | None => Some (l_nodes l, n_next nd)
                 end;
      '(m, tl) ← match n_next nd with
                 | Some q => m ← set_prev m (Some q) (n_prev nd); Some (m, l_tail l)
                 | None => Some (m, n_prev nd)
                 end;
      Some (Some (n_val nd), CList (delete a m) hd tl (l_len l - 1) (l_fresh l))
  end.

Definition list_first l : ptr := l_head l.
Definition list_last l : ptr := l_tail l.
Definition list_next l (node : ptr) : option ptr :=
  match node with Some a => n ← l_nodes l !! a; Some (n_next n) | None => Some None end.
Definition list_prev l (node : ptr) : option ptr :=
  match node with Some a => n ← l_nodes l !! a; Some (n_prev n) | None => Some None end.

(** [for (i = 0; i < k; i++) x = x->next] and its mirror image. *)
Fixpoint walk_next m (k : nat) x : option ptr :=
  match k with
  | O => Some x
  | S k => n ← deref m x; walk_next m k (n_next n)
  end.
Fixpoint walk_prev m (k : nat) x : option ptr :=
  match k with
  | O => Some x
  | S k => n ← deref m x; walk_prev m k (n_prev n)
  end.

Definition list_node_at l (index : Z) : option ptr :=
  let n := l_len l in
  let index := if index <? 0 then index + n else index in
  if (index <? 0) || (index >=? n) then Some None
  else if index <=? Z.quot n 2 then walk_next (l_nodes l) (Z.to_nat index) (l_head l)
  else walk_prev (l_nodes l) (Z.to_nat (n - 1 - index)) (l_tail l).

(** The release of a list visits and frees every node from the head on; the
    result is what is left in the heap.  The fuel bounds the walk. *)
Fixpoint list_free_loop (fuel : nat) m x : option (gmap loc (list_node A)) :=
  match x with
  | None => Some m
  | Some a =>
      match fuel with
      | O => None
      | S fuel => n ← m !! a; list_free_loop fuel (delete a m) (n_next n)
      end
  end.

Definition list_free l : option (gmap loc (list_node A)) :=
  list_free_loop (Z.to_nat (l_len l)) (l_nodes l) (l_head l).

(** The values in list order, by the loop [for (n = list_first(l); n; n = list_next(n))]. *)
Fixpoint list_values_loop (fuel : nat) m x : option (list A) :=
  match x with
  | None => Some []
  | Some a =>
      match fuel with
      | O => None
      | S fuel => n ← m !! a; vs ← list_values_loop fuel m (n_next n); Some (n_val n :: vs)
      end
  end.

Definition list_values l : option (list A) :=
  list_values_loop (Z.to_nat (l_len l)) (l_nodes l) (l_head l).

End Operations.

(** ** Representation *)

Section Representation.
Context {A : Type}.
Implicit Types (l : clist A) (m : gmap loc (list_node A)) (ls : list loc) (xs : list A).

(** The predecessor of position [i]. *)
Definition prev_of ls (i : nat) : ptr := match i with O => None | S i => ls !! i end.

(** The heap holds exactly the nodes [ls], linked in both directions and
    carrying the values [xs]. *)
Record heap_rep m ls xs : Prop := {
  hr_nodup : NoDup ls;
  hr_len : length ls = length xs;
  hr_node i a v : ls !! i = Some a → xs !! i = Some v →
                  m !! a = Some (Node (prev_of ls i) (ls !! S i) v);
  hr_dom a : a ∉ ls → m !! a = None;
}.

Record list_rep l ls xs : Prop := {
  lr_heap : heap_rep (l_nodes l) ls xs;
  lr_head : l_head l = ls !! 0%nat;
  lr_tail : l_tail l = prev_of ls (length ls);
  lr_len : l_len l = Z.of_nat (length xs);
  lr_fresh a : a ∈ ls → (a < l_fresh l)%nat;
}.

(** The list stores the sequence [xs]. *)
Definition is_list l xs : Prop := ∃ ls, list_rep l ls xs.

(** *** Inserting and deleting at a position *)

Definition ins {B} (j : nat) (x : B) (s : list B) : list B := take j s ++ x :: drop j s.

Lemma lookup_ins {B} (s : list B) j x i :
  (j <= length s)%nat →
  ins j x s !! i = if decide (i < j)%nat then s !! i
                   else if decide (i = j) then Some x else s !! (i - 1)%nat.
Proof.
  intros Hj. unfold ins. repeat case_decide.
  - rewrite lookup_app_l by (rewrite length_take; lia). by apply lookup_take_lt.
  - subst. rewrite lookup_app_r by (rewrite length_take; lia).
    by rewrite length_take, Nat.min_l, Nat.sub_diag by lia.
  - rewrite lookup_app_r by (rewrite length_take; lia). rewrite length_take, Nat.min_l by lia.
    destruct (i - j)%nat as [|k] eqn:E; [lia|]. change ((x :: drop j s) !! S k) with (drop j s !! k).
    rewrite lookup_drop. f_equal. lia.
Qed.

Lemma ins_length {B} (s : list B) j x : (j <= length s)%nat → length (ins j x s) = S (length s).
Proof. intros. unfold ins. rewrite length_app, length_take. simpl. rewrite length_drop. lia. Qed.

Lemma elem_of_ins {B} (s : list B) j x y : y ∈ ins j x s ↔ y = x ∨ y ∈ s.
Proof.
  unfold ins. rewrite elem_of_app, elem_of_cons.
  rewrite <- (take_drop j s) at 3. rewrite elem_of_app. tauto.
Qed.

Lemma NoDup_ins {B} (s : list B) j x : NoDup (ins j x s) ↔ (x ∉ s) ∧ NoDup s.
Proof.
  unfold ins. rewrite <- Permutation_middle, NoDup_cons, take_drop. done.
Qed.

Lemma prev_of_ins ls j n i :
  (j <= length ls)%nat →
  prev_of (ins j n ls) i = if decide (i <= j)%nat then prev_of ls i
                           else if decide (i = S j) then Some n else prev_of ls (i - 1).
Proof.
  intros Hj. destruct i as [|i]; [done|]. unfold prev_of. rewrite lookup_ins by done.
  repeat case_decide; try lia; try done. replace (S i - 1)%nat with i by lia.
  destruct i as [|i]; [lia|]. f_equal. lia.
Qed.

Lemma lookup_delete_list {B} (s : list B) j i :
  delete j s !! i = if decide (i < j)%nat then s !! i else s !! S i.
Proof.
  case_decide; [by apply list_lookup_delete_lt|apply list_lookup_delete_ge; lia].
Qed.

Lemma prev_of_delete ls j i :
  prev_of (delete j ls) i = if decide (i <= j)%nat then prev_of ls i else prev_of ls (S i).
Proof.
  destruct i as [|i]; [done|]. unfold prev_of. rewrite lookup_delete_list.
  repeat case_decide; try lia; done.
Qed.

Lemma hr_lookup m ls xs i a :
  heap_rep m ls xs → ls !! i = Some a →
  ∃ v, xs !! i = Some v ∧ m !! a = Some (Node (prev_of ls i) (ls !! S i) v).
Proof.
  intros H Hi. destruct (lookup_lt_is_Some_2 xs i) as [v Hv].
  { rewrite <- (hr_len _ _ _ H). by eapply lookup_lt_Some. }
  exists v. split; [done|]. by apply (hr_node _ _ _ H).
Qed.

Lemma hr_inj m ls xs i j a : heap_rep m ls xs → ls !! i = Some a → ls !! j = Some a → i = j.
Proof. intros H Hi Hj. by eapply (NoDup_lookup _ _ _ _ (hr_nodup _ _ _ H)). Qed.

(** Linking the fresh node [n] in at position [j]: the new heap differs at [n]
    and at the two neighbours only. *)
Lemma heap_rep_ins m m' ls xs j n v :
  heap_rep m ls xs → (j <= length ls)%nat → n ∉ ls →
  m' !! n = Some (Node (prev_of ls j) (ls !! j) v) →
  (∀ i a w, ls !! i = Some a → xs !! i = Some w →
     m' !! a = Some (Node (if decide (i = j) then Some n else prev_of ls i)
                          (if decide (S i = j) then Some n else ls !! S i) w)) →
  (∀ a, a ≠ n → a ∉ ls → m' !! a = None) →
  heap_rep m' (ins j n ls) (ins j v xs).
Proof.
  intros H Hj Hn Hm Hold Hnone. pose proof (hr_len _ _ _ H) as Hlen. constructor.
  - apply NoDup_ins. split; [done|apply H].
  - rewrite !ins_length by lia. lia.
  - intros i a w. rewrite !lookup_ins, prev_of_ins by lia. intros Hi Hw.
    destruct (decide (i < j)%nat); [|destruct (decide (i = j)); simplify_eq].
    + rewrite (Hold i a w Hi Hw). repeat case_decide; try lia; done.
    + repeat case_decide; try lia. replace (S j - 1)%nat with j by lia. done.
    + rewrite (Hold _ a w Hi Hw). destruct i as [|i]; [lia|].
      replace (S i - 1)%nat with i in * by lia. replace (S (S i) - 1)%nat with (S i) by lia.
      repeat case_decide; try lia; done.
  - intros a Ha. rewrite elem_of_ins in Ha. apply Hnone; tauto.
Qed.

(** Unlinking the node at position [j]. *)
Lemma heap_rep_delete m m' ls xs j n :
  heap_rep m ls xs → ls !! j = Some n →
  m' !! n = None →
  (∀ i a w, i ≠ j → ls !! i = Some a → xs !! i = Some w →
     m' !! a = Some (Node (if decide (i = S j) then prev_of ls j else prev_of ls i)
                          (if decide (S i = j) then ls !! S j else ls !! S i) w)) →
  (∀ a, a ∉ ls → m' !! a = None) →
  heap_rep m' (delete j ls) (delete j xs).
Proof.
  intros H Hj Hm Hold Hnone. pose proof (hr_len _ _ _ H) as Hlen.
  assert (j < length ls)%nat by (by eapply lookup_lt_Some). constructor.
  - eapply sublist_NoDup; [apply H|apply sublist_delete].
  - rewrite !length_delete by (apply lookup_lt_is_Some_2; lia). lia.
  - intros i a w. rewrite !lookup_delete_list, prev_of_delete. intros Hi Hw.
    destruct (decide (i < j)%nat).
    + rewrite (Hold i a w) by (done || lia). repeat case_decide; try lia; by subst.
    + rewrite (Hold (S i) a w) by (done || lia). repeat case_decide; try lia; try done.
      by replace j with i by lia.
  - intros a Ha. destruct (decide (a ∈ ls)) as [Hin|]; [|by apply Hnone].
    apply list_elem_of_lookup in Hin as [i Hi]. destruct (decide (i = j)) as [->|Hne]; [by simplify_eq|].
    exfalso. apply Ha. apply list_elem_of_lookup.
    destruct (decide (i < j)%nat).
    + exists i. rewrite lookup_delete_list. by rewrite decide_True.
    + exists (i - 1)%nat. rewrite lookup_delete_list. rewrite decide_False by lia.
      replace (S (i - 1)) with i by lia. done.
Qed.

(** Positions and locations of a represented list determine each other. *)
Lemma hr_lookup_iff m ls xs i j a :
  heap_rep m ls xs → ls !! i = Some a → ls !! j = Some a ↔ i = j.
Proof. intros H Hi. split; [intros; by eapply hr_inj|by intros <-]. Qed.

Lemma hr_prev_iff m ls xs i j a :
  heap_rep m ls xs → ls !! i = Some a → prev_of ls j = Some a ↔ S i = j.
Proof.
  intros H Hi. destruct j as [|j]; cbn [prev_of]; [split; done|].
  rewrite (hr_lookup_iff _ _ _ i j a H Hi). lia.
Qed.

(** *** Link surgery, as total functions on heaps *)

Definition upd_prev (x y : ptr) m : gmap loc (list_node A) :=
  match x with Some a => alter (λ n, Node y (n_next n) (n_val n)) a m | None => m end.
Definition upd_next (x y : ptr) m : gmap loc (list_node A) :=
  match x with Some a => alter (λ n, Node (n_prev n) y (n_val n)) a m | None => m end.

(** Link [n] in between [p] and [q]; unlink it. *)
Definition link m (p : ptr) (n : loc) (q : ptr) (v : A) : gmap loc (list_node A) :=
  upd_next p (Some n) (upd_prev q (Some n) (<[n := Node p q v]> m)).
Definition unlink m (p : ptr) (n : loc) (q : ptr) : gmap loc (list_node A) :=
  delete n (upd_prev q p (upd_next p q m)).

Lemma lookup_upd_prev x y m b :
  upd_prev x y m !! b =
  if decide (x = Some b) then (λ n, Node y (n_next n) (n_val n)) <$> m !! b else m !! b.
Proof.
  destruct x as [a|]; simpl; [|done]. rewrite lookup_alter.
  repeat case_decide; congruence.
Qed.

Lemma lookup_upd_next x y m b :
  upd_next x y m !! b =
  if decide (x = Some b) then (λ n, Node (n_prev n) y (n_val n)) <$> m !! b else m !! b.
Proof.
  destruct x as [a|]; simpl; [|done]. rewrite lookup_alter.
  repeat case_decide; congruence.
Qed.

Lemma set_prev_upd m a y : is_Some (m !! a) → set_prev m (Some a) y = Some (upd_prev (Some a) y m).
Proof.
  intros [n Hn]. unfold set_prev. simpl. rewrite Hn. simpl. f_equal.
  apply map_eq. intros b. rewrite lookup_insert, lookup_alter. case_decide; [|done].
  subst. by rewrite Hn.
Qed.

Lemma set_next_upd m a y : is_Some (m !! a) → set_next m (Some a) y = Some (upd_next (Some a) y m).
Proof.
  intros [n Hn]. unfold set_next. simpl. rewrite Hn. simpl. f_equal.
  apply map_eq. intros b. rewrite lookup_insert, lookup_alter. case_decide; [|done].
  subst. by rewrite Hn.
Qed.

Lemma heap_rep_link m ls xs j n v :
  heap_rep m ls xs → (j <= length ls)%nat → n ∉ ls →
  heap_rep (link m (prev_of ls j) n (ls !! j) v) (ins j n ls) (ins j v xs).
Proof.
  intros H Hj Hn.
  assert (Hp : prev_of ls j ≠ Some n)
    by (destruct j; [done|]; intros ?%list_elem_of_lookup_2; done).
  assert (Hq : ls !! j ≠ Some n) by (intros ?%list_elem_of_lookup_2; done).
  unfold link. eapply heap_rep_ins; [done..| | |].
  - rewrite lookup_upd_next, lookup_upd_prev, !decide_False, lookup_insert_eq by done. done.
  - intros i a w Hi Hw.
    assert (n ≠ a) by (intros ->; by apply Hn, (list_elem_of_lookup_2 _ i)).
    rewrite lookup_upd_next, lookup_upd_prev, lookup_insert_ne by done.
    rewrite (hr_node _ _ _ H i a w) by done.
    pose proof (hr_prev_iff _ _ _ i j a H Hi). pose proof (hr_lookup_iff _ _ _ i j a H Hi).
    repeat case_decide; try tauto; done.
  - intros a Ha Hal. rewrite lookup_upd_next, lookup_upd_prev, lookup_insert_ne by done.
    rewrite (hr_dom _ _ _ H a Hal). by repeat case_decide.
Qed.

Lemma heap_rep_unlink m ls xs j n :
  heap_rep m ls xs → ls !! j = Some n →
  heap_rep (unlink m (prev_of ls j) n (ls !! S j)) (delete j ls) (delete j xs).
Proof.
  intros H Hj. unfold unlink. eapply heap_rep_delete; [done..| | |].
  - apply lookup_delete_eq.
  - intros i a w Hne Hi Hw.
    assert (n ≠ a) by (intros ->; by eapply Hne, hr_inj).
    rewrite lookup_delete_ne, lookup_upd_prev, lookup_upd_next by done.
    rewrite (hr_node _ _ _ H i a w) by done.
    pose proof (hr_prev_iff _ _ _ i j a H Hi). pose proof (hr_lookup_iff _ _ _ i (S j) a H Hi).
    repeat case_decide; try tauto; done.
  - intros a Hal. rewrite lookup_delete, lookup_upd_prev, lookup_upd_next.
    rewrite (hr_dom _ _ _ H a Hal). by repeat case_decide.
Qed.

Lemma hr_not_fresh l ls xs i a : list_rep l ls xs → ls !! i = Some a → a ≠ l_fresh l.
Proof.
  intros H Hi ->. assert (l_fresh l < l_fresh l)%nat; [|lia].
  apply (lr_fresh _ _ _ H). by eapply list_elem_of_lookup_2.
Qed.

Lemma fresh_not_in l ls xs : list_rep l ls xs → l_fresh l ∉ ls.
Proof. intros H Hin%(lr_fresh _ _ _ H). lia. Qed.

(** *** Insertion *)

(** The whole record after linking a node in at position [j]. *)
Lemma list_rep_ins l ls xs j v m' hd tl :
  list_rep l ls xs → (j <= length ls)%nat →
  heap_rep m' (ins j (l_fresh l) ls) (ins j v xs) →
  hd = (if decide (j = 0%nat) then Some (l_fresh l) else l_head l) →
  tl = (if decide (j = length ls) then Some (l_fresh l) else l_tail l) →
  list_rep (CList m' hd tl (l_len l + 1) (S (l_fresh l))) (ins j (l_fresh l) ls) (ins j v xs).
Proof.
  intros H Hj Hm -> ->. pose proof (hr_len _ _ _ (lr_heap _ _ _ H)) as Hlen.
  constructor; cbn [l_nodes l_head l_tail l_len l_fresh].
  - done.
  - rewrite lookup_ins by done. rewrite (lr_head _ _ _ H).
    repeat case_decide; try lia; done.
  - rewrite ins_length, prev_of_ins by done. rewrite (lr_tail _ _ _ H).
    replace (S (length ls) - 1)%nat with (length ls) by lia.
    repeat case_decide; try lia; done.
  - rewrite (lr_len _ _ _ H), ins_length by lia. lia.
  - intros a [->|Ha]%elem_of_ins; [lia|]. apply (lr_fresh _ _ _ H) in Ha. lia.
Qed.

Lemma list_insert_after_spec l ls xs j v :
  list_rep l ls xs → (j <= length ls)%nat →
  ∃ l', list_insert_after l (prev_of ls j) v = Some l' ∧
        list_rep l' (ins j (l_fresh l) ls) (ins j v xs).
Proof.
  intros H Hj. pose proof (lr_heap _ _ _ H) as Hh. pose proof (fresh_not_in _ _ _ H) as Hf.
  set (n := l_fresh l) in *.
  pose proof (heap_rep_link _ _ _ j n v Hh Hj Hf) as Hl.
  assert (Hsome : ∀ i a (p q : ptr), ls !! i = Some a → is_Some (<[n := Node p q v]> (l_nodes l) !! a)).
  { intros i a p q Hi. destruct (hr_lookup _ _ _ _ _ Hh Hi) as (w & _ & Hm).
    rewrite lookup_insert_ne by (intros ->; by apply Hf, (list_elem_of_lookup_2 _ i)). eauto. }
  unfold list_insert_after. fold n. destruct j as [|j]; cbn [prev_of].
  - rewrite (lr_head _ _ _ H). destruct (ls !! 0%nat) as [h|] eqn:E.
    + rewrite set_prev_upd by eauto. cbn. eexists. split; [done|].
      eapply (list_rep_ins _ _ _ 0); [done|done|exact Hl|done|].
      rewrite decide_False; [done|]. apply lookup_lt_Some in E. lia.
    + assert (ls = []) as -> by (by destruct ls). eexists. split; [done|].
      by eapply (list_rep_ins _ _ _ 0).
  - destruct (lookup_lt_is_Some_2 ls j ltac:(lia)) as [a Ha]. rewrite Ha.
    destruct (hr_lookup _ _ _ _ _ Hh Ha) as (w & _ & ->). cbn [mbind option_bind n_next].
    cbn [prev_of] in Hl. rewrite Ha in Hl.
    destruct (ls !! S j) as [b|] eqn:Eb; unfold link in Hl; cbn [upd_prev] in Hl.
    + rewrite set_prev_upd by eauto. cbn [mbind option_bind]. rewrite set_next_upd; cycle 1.
      { cbn [upd_prev]. rewrite lookup_alter. case_decide; [|by eauto]. apply fmap_is_Some. eauto. }
      eexists. split; [done|]. eapply (list_rep_ins _ _ _ (S j)); [done|done|exact Hl| |].
      * done.
      * apply lookup_lt_Some in Eb. by rewrite decide_False by lia.
    + rewrite set_next_upd by eauto. eexists. split; [done|].
      eapply (list_rep_ins _ _ _ (S j)); [done|done|exact Hl|done|].
      apply lookup_ge_None in Eb. by rewrite decide_True by lia.
Qed.

(** *** Removal *)

Lemma list_rep_delete l ls xs j n m' hd tl :
  list_rep l ls xs → ls !! j = Some n →
  heap_rep m' (delete j ls) (delete j xs) →
  hd = (if decide (j = 0%nat) then ls !! 1%nat else l_head l) →
  tl = (if decide (S j = length ls) then prev_of ls j else l_tail l) →
  list_rep (CList m' hd tl (l_len l - 1) (l_fresh l)) (delete j ls) (delete j xs).
Proof.
  intros H Hj Hm -> ->. pose proof (hr_len _ _ _ (lr_heap _ _ _ H)) as Hlen.
  pose proof (lookup_lt_Some _ _ _ Hj) as Hlt.
  constructor; cbn [l_nodes l_head l_tail l_len l_fresh].
  - done.
  - rewrite lookup_delete_list, (lr_head _ _ _ H). repeat case_decide; try lia; done.
  - rewrite length_delete, prev_of_delete, (lr_tail _ _ _ H) by eauto.
    replace (S (length ls - 1)) with (length ls) by lia.
    repeat case_decide; try lia; [|done]. f_equal. lia.
  - rewrite (lr_len _ _ _ H), length_delete by (apply lookup_lt_is_Some_2; lia). lia.
  - intros a Ha. apply (lr_fresh _ _ _ H). by eapply list_elem_of_delete_inv.
Qed.

Lemma list_detach_spec l ls xs j a v :
  list_rep l ls xs → ls !! j = Some a → xs !! j = Some v →
  ∃ l', list_detach l (Some a) = Some (Some v, l') ∧ list_rep l' (delete j ls) (delete j xs).
Proof.
  intros H Ha Hv. pose proof (lr_heap _ _ _ H) as Hh. pose proof (lookup_lt_Some _ _ _ Ha) as Hlt.
  pose proof (heap_rep_unlink _ _ _ j a Hh Ha) as Hu.
  assert (Hs : ∀ i b, ls !! i = Some b → is_Some (l_nodes l !! b)).
  { intros i b Hi. destruct (hr_lookup _ _ _ _ _ Hh Hi) as (w & _ & ->). eauto. }
  assert (Hs' : ∀ i b p y, ls !! i = Some b → is_Some (upd_next p y (l_nodes l) !! b)).
  { intros i b p y Hi. rewrite lookup_upd_next. case_decide; [apply fmap_is_Some|]; eauto. }
  unfold list_detach. rewrite (hr_node _ _ _ Hh j a v Ha Hv). cbn [mbind option_bind n_prev n_next n_val].
  assert (Hstep1 : match prev_of ls j with
    | Some p => m ← set_next (l_nodes l) (Some p) (ls !! S j); Some (m, l_head l)
    | None => Some (l_nodes l, ls !! S j)
    end = Some (upd_next (prev_of ls j) (ls !! S j) (l_nodes l),
                if decide (j = 0%nat) then ls !! 1%nat else l_head l)).
  { destruct j as [|j]; cbn [prev_of]; [done|].
    destruct (lookup_lt_is_Some_2 ls j ltac:(lia)) as [p Hp]. rewrite Hp.
    rewrite set_next_upd by eauto. done. }
  rewrite Hstep1. cbn [mbind option_bind].
  assert (Hstep2 : ∀ p y, match ls !! S j with
    | Some q => m ← set_prev (upd_next p y (l_nodes l)) (Some q) (prev_of ls j); Some (m, l_tail l)
    | None => Some (upd_next p y (l_nodes l), prev_of ls j)
    end = Some (upd_prev (ls !! S j) (prev_of ls j) (upd_next p y (l_nodes l)),
                if decide (S j = length ls) then prev_of ls j else l_tail l)).
  { intros p y. destruct (ls !! S j) as [q|] eqn:Eq.
    - rewrite set_prev_upd by eauto. apply lookup_lt_Some in Eq. by rewrite decide_False by lia.
    - apply lookup_ge_None in Eq. by rewrite decide_True by lia. }
  rewrite Hstep2. cbn [mbind option_bind]. eexists. split; [done|].
  by eapply list_rep_delete.
Qed.

(** *** The operations on the represented sequence *)

Lemma is_list_create : is_list (list_create : clist A) [].
Proof.
  exists []. constructor; simpl; try done; [constructor; try done|by intros a Ha%elem_of_nil].
  apply NoDup_nil_2.
Qed.

Lemma is_list_len l xs : is_list l xs → list_len l = Z.of_nat (length xs).
Proof. intros [ls H]. apply H. Qed.

Lemma ins_0 {B} (x : B) s : ins 0 x s = x :: s.
Proof. done. Qed.

Lemma ins_end {B} (x : B) s : ins (length s) x s = s ++ [x].
Proof. unfold ins. by rewrite take_ge, drop_ge by lia. Qed.

Lemma list_push_head_spec l xs v :
  is_list l xs → ∃ l', list_push_head l v = Some l' ∧ is_list l' (v :: xs).
Proof.
  intros [ls H]. destruct (list_insert_after_spec l ls xs 0 v H ltac:(lia)) as (l' & Hl & Hr).
  exists l'. split; [exact Hl|]. by eexists.
Qed.

Lemma list_push_tail_spec l xs v :
  is_list l xs → ∃ l', list_push_tail l v = Some l' ∧ is_list l' (xs ++ [v]).
Proof.
  intros [ls H]. pose proof (hr_len _ _ _ (lr_heap _ _ _ H)) as Hlen.
  destruct (list_insert_after_spec l ls xs (length ls) v H ltac:(lia)) as (l' & Hl & Hr).
  exists l'. rewrite Hlen, ins_end in Hr. split; [|by eexists].
  rewrite <- Hl, <- (lr_tail _ _ _ H). unfold list_push_tail, list_insert_after.
  destruct (l_tail l) as [t|] eqn:Et; rewrite (lr_tail _ _ _ H) in Et.
  - destruct (length ls) as [|k] eqn:Ek; [done|]. cbn [prev_of] in Et.
    destruct (hr_lookup _ _ _ _ _ (lr_heap _ _ _ H) Et) as (w & _ & ->).
    cbn [mbind option_bind n_next]. by rewrite lookup_ge_None_2 by lia.
  - destruct ls as [|a ls]; cbn [length prev_of] in Et; [by rewrite (lr_head _ _ _ H)|].
    apply lookup_ge_None in Et. simpl in Et. lia.
Qed.

(** Popping is detaching the first, or the last, node. *)
Lemma list_pop_head_detach l ls xs : list_rep l ls xs → list_pop_head l = list_detach l (l_head l).
Proof.
  intros H. unfold list_pop_head, list_detach. rewrite (lr_head _ _ _ H).
  destruct (ls !! 0%nat) as [a|] eqn:E; [|done].
  destruct (hr_lookup _ _ _ _ _ (lr_heap _ _ _ H) E) as (w & _ & ->).
  cbn [mbind option_bind n_prev n_next n_val prev_of]. destruct (ls !! 1%nat); [|done].
  by destruct (set_prev _ _ _).
Qed.

Lemma list_pop_tail_detach l ls xs : list_rep l ls xs → list_pop_tail l = list_detach l (l_tail l).
Proof.
  intros H. unfold list_pop_tail, list_detach. rewrite (lr_tail _ _ _ H).
  destruct (prev_of ls (length ls)) as [a|] eqn:E; [|done].
  destruct (length ls) as [|k] eqn:Ek; [done|]. cbn [prev_of] in E.
  destruct (hr_lookup _ _ _ _ _ (lr_heap _ _ _ H) E) as (w & _ & ->).
  cbn [mbind option_bind n_prev n_next n_val]. rewrite (lookup_ge_None_2 ls (S k)) by lia.
  destruct (prev_of ls k) as [p|] eqn:Ep.
  - by destruct (set_next _ _ _).
  - destruct k; cbn [prev_of] in Ep; [|apply lookup_ge_None in Ep; lia].
    done.
Qed.

Lemma list_pop_head_spec l xs :
  is_list l xs →
  match xs with
  | [] => list_pop_head l = Some (None, l)
  | x :: xs => ∃ l', list_pop_head l = Some (Some x, l') ∧ is_list l' xs
  end.
Proof.
  intros [ls H]. rewrite (list_pop_head_detach l ls xs H), (lr_head _ _ _ H).
  pose proof (hr_len _ _ _ (lr_heap _ _ _ H)) as Hlen.
  destruct ls as [|a ls], xs as [|x xs]; try done.
  destruct (list_detach_spec l (a :: ls) (x :: xs) 0 a x H eq_refl eq_refl) as (l' & ? & ?).
  exists l'. split; [done|by eexists].
Qed.

Lemma delete_last {B} (s : list B) x : delete (length s) (s ++ [x]) = s.
Proof. rewrite delete_take_drop, take_app_length, drop_ge by (rewrite length_app; simpl; lia). apply app_nil_r. Qed.

Lemma list_pop_tail_spec l xs :
  is_list l xs →
  match last xs with
  | None => list_pop_tail l = Some (None, l)
  | Some x => ∃ l' xs', xs = xs' ++ [x] ∧ list_pop_tail l = Some (Some x, l') ∧ is_list l' xs'
  end.
Proof.
  intros [ls H]. rewrite (list_pop_tail_detach l ls xs H), (lr_tail _ _ _ H).
  pose proof (hr_len _ _ _ (lr_heap _ _ _ H)) as Hlen.
  destruct xs as [|x xs _] using rev_ind; [by destruct ls|].
  rewrite length_app in Hlen. simpl in Hlen. rewrite last_snoc.
  destruct (length ls) as [|k] eqn:Ek; [lia|]. cbn [prev_of].
  destruct (lookup_lt_is_Some_2 ls k ltac:(lia)) as [a Ha].
  assert (k = length xs) as -> by lia.
  destruct (list_detach_spec l ls (xs ++ [x]) (length xs) a x H Ha) as (l' & Hd & Hr).
  { by rewrite lookup_app_r, Nat.sub_diag by lia. }
  rewrite Ha. exists l', xs. split_and!; [done..|]. rewrite delete_last in Hr. by eexists.
Qed.

(** *** Indexed access and traversal *)

(** Position [index] of a list of length [n], counting from the end when
    negative; [None] out of range. *)
Definition position (n : nat) (index : Z) : option nat :=
  let i := if index <? 0 then index + Z.of_nat n else index in
  if (i <? 0) || (i >=? Z.of_nat n) then None else Some (Z.to_nat i).

Lemma position_lt n index i : position n index = Some i → (i < n)%nat.
Proof. unfold position. case_if; [done|]. bool_prop. intros [= <-]. lia. Qed.

Lemma walk_next_spec m ls xs k p :
  heap_rep m ls xs → (p + k < length ls)%nat → walk_next m k (ls !! p) = Some (ls !! (p + k)%nat).
Proof.
  intros H. revert p. induction k as [|k IH]; intros p Hp; cbn [walk_next].
  - by rewrite Nat.add_0_r.
  - destruct (lookup_lt_is_Some_2 ls p ltac:(lia)) as [a Ha]. rewrite Ha. unfold deref. cbn [mbind option_bind].
    destruct (hr_lookup _ _ _ _ _ H Ha) as (w & _ & ->). cbn [mbind option_bind n_next].
    rewrite IH by lia. do 2 f_equal. lia.
Qed.

Lemma walk_prev_spec m ls xs k p :
  heap_rep m ls xs → (p + k < length ls)%nat →
  walk_prev m k (ls !! (p + k)%nat) = Some (ls !! p).
Proof.
  intros H. revert p. induction k as [|k IH]; intros p Hp; cbn [walk_prev].
  - by rewrite Nat.add_0_r.
  - destruct (lookup_lt_is_Some_2 ls (p + S k) ltac:(lia)) as [a Ha]. rewrite Ha.
    unfold deref. cbn [mbind option_bind].
    destruct (hr_lookup _ _ _ _ _ H Ha) as (w & _ & ->). cbn [mbind option_bind n_prev].
    replace (prev_of ls (p + S k)) with (ls !! (p + k)%nat); [apply IH; lia|].
    by replace (p + S k)%nat with (S (p + k)) by lia.
Qed.

(** Both directions of the walk reach the node at the requested position. *)
Lemma list_node_at_spec l ls xs index :
  list_rep l ls xs →
  list_node_at l index = Some (i ← position (length xs) index; ls !! i).
Proof.
  intros H. pose proof (hr_len _ _ _ (lr_heap _ _ _ H)) as Hlen.
  unfold list_node_at, position. rewrite (lr_len _ _ _ H).
  set (i := if index <? 0 then _ else _). case_if; [done|]. bool_prop.
  cbn [mbind option_bind]. case_if; bool_prop.
  - rewrite (lr_head _ _ _ H). rewrite (walk_next_spec _ ls xs) by (apply H || lia). done.
  - rewrite (lr_tail _ _ _ H). destruct (length ls) as [|k] eqn:Ek; [lia|]. cbn [prev_of].
    replace k with (Z.to_nat i + Z.to_nat (Z.of_nat (length xs) - 1 - i))%nat by lia.
    apply (walk_prev_spec _ ls xs); [apply H|lia].
Qed.

Lemma list_values_loop_spec m ls xs p fuel :
  heap_rep m ls xs → (length ls - p <= fuel)%nat →
  list_values_loop fuel m (ls !! p) = Some (drop p xs).
Proof.
  intros H. revert p. induction fuel as [|fuel IH]; intros p Hp.
  - rewrite lookup_ge_None_2, drop_ge by (rewrite <- ?(hr_len _ _ _ H); lia). done.
  - destruct (ls !! p) as [a|] eqn:Ea; cbn [list_values_loop].
    + destruct (hr_lookup _ _ _ _ _ H Ea) as (w & Hw & ->). cbn [mbind option_bind n_next n_val].
      rewrite IH by lia. cbn [mbind option_bind]. by rewrite (drop_S xs w p Hw).
    + apply lookup_ge_None in Ea. rewrite drop_ge; [done|]. rewrite <- (hr_len _ _ _ H). lia.
Qed.

Lemma list_values_spec l xs : is_list l xs → list_values l = Some xs.
Proof.
  intros [ls H]. unfold list_values. rewrite (lr_head _ _ _ H), (lr_len _ _ _ H), Nat2Z.id.
  rewrite (list_values_loop_spec _ ls xs); [done|apply H|].
  rewrite (hr_len _ _ _ (lr_heap _ _ _ H)). lia.
Qed.

(** Assignment to the value field of the node at position [i]. *)
Lemma set_val_spec l ls xs i a v :
  list_rep l ls xs → ls !! i = Some a →
  ∃ m, set_val (l_nodes l) (Some a) v = Some m ∧
       list_rep (CList m (l_head l) (l_tail l) (l_len l) (l_fresh l)) ls (<[i := v]> xs).
Proof.
  intros H Ha. pose proof (lr_heap _ _ _ H) as Hh.
  destruct (hr_lookup _ _ _ _ _ Hh Ha) as (w & Hw & Hm).
  unfold set_val. cbn [mbind option_bind]. rewrite Hm. cbn [mbind option_bind n_prev n_next].
  eexists. split; [done|]. constructor; cbn [l_nodes l_head l_tail l_len l_fresh]; try apply H.
  - constructor; try apply Hh.
    + rewrite length_insert. apply Hh.
    + intros j b u Hj Hu. destruct (decide (i = j)) as [<-|Hne].
      * simplify_eq. rewrite list_lookup_insert_eq in Hu by (by eapply lookup_lt_Some).
        simplify_eq. by rewrite lookup_insert_eq.
      * rewrite list_lookup_insert_ne in Hu by done.
        rewrite lookup_insert_ne by (intros ->; by eapply Hne, hr_inj). by apply (hr_node _ _ _ Hh).
    + intros b Hb. rewrite lookup_insert_ne; [by apply (hr_dom _ _ _ Hh)|].
      intros ->. by apply Hb, (list_elem_of_lookup_2 _ i).
  - rewrite length_insert. apply H.
Qed.

Lemma list_peek_head_spec l xs : is_list l xs → list_peek_head l = Some (head xs).
Proof.
  intros [ls H]. unfold list_peek_head. rewrite (lr_head _ _ _ H), head_lookup.
  destruct (ls !! 0%nat) as [a|] eqn:E.
  - destruct (hr_lookup _ _ _ _ _ (lr_heap _ _ _ H) E) as (w & -> & ->). done.
  - apply lookup_ge_None in E. rewrite lookup_ge_None_2; [done|].
    rewrite <- (hr_len _ _ _ (lr_heap _ _ _ H)). lia.
Qed.

Lemma list_peek_tail_spec l xs : is_list l xs → list_peek_tail l = Some (last xs).
Proof.
  intros [ls H]. pose proof (hr_len _ _ _ (lr_heap _ _ _ H)) as Hlen.
  unfold list_peek_tail. rewrite (lr_tail _ _ _ H), last_lookup, <- Hlen.
  destruct (length ls) as [|k] eqn:Ek; cbn [prev_of Nat.pred].
  - by rewrite lookup_ge_None_2 by lia.
  - destruct (lookup_lt_is_Some_2 ls k ltac:(lia)) as [a Ha]. rewrite Ha.
    destruct (hr_lookup _ _ _ _ _ (lr_heap _ _ _ H) Ha) as (w & -> & ->). done.
Qed.

(** Freeing a represented list releases every node. *)
Lemma list_free_loop_spec fuel m ls xs :
  heap_rep m ls xs → (length ls <= fuel)%nat → list_free_loop fuel m (ls !! 0%nat) = Some ∅.
Proof.
  assert (Hgen : ∀ fuel m ls, NoDup ls → (length ls <= fuel)%nat →
    (∀ i a, ls !! i = Some a → ∃ p v, m !! a = Some (Node p (ls !! S i) v)) →
    (∀ a, a ∉ ls → m !! a = None) → list_free_loop fuel m (ls !! 0%nat) = Some ∅).
  { clear. induction fuel as [|fuel IH]; intros m [|a ls] Hnd Hf Hn Hd; simpl in Hf; try lia;
      cbn [lookup list_lookup list_free_loop].
    1,2: f_equal; apply map_empty; intros b; apply Hd, not_elem_of_nil.
    destruct (Hn 0%nat a eq_refl) as (p & v & Hm). rewrite Hm. cbn [mbind option_bind n_next].
    apply NoDup_cons in Hnd as [Ha Hnd]. apply IH; [done|lia| |].
    - intros i b Hi. destruct (Hn (S i) b Hi) as (q & w & Hb). exists q, w.
      rewrite lookup_delete_ne; [done|]. intros ->. by apply Ha, (list_elem_of_lookup_2 _ i).
    - intros b Hb. rewrite lookup_delete. case_decide; [done|].
      apply Hd. rewrite not_elem_of_cons. auto. }
  intros H Hf. apply Hgen; [apply H|done| |apply H].
  intros i a Hi. destruct (hr_lookup _ _ _ _ _ H Hi) as (w & _ & ->). eauto.
Qed.

Lemma list_free_spec l xs : is_list l xs → list_free l = Some ∅.
Proof.
  intros [ls H]. unfold list_free. rewrite (lr_head _ _ _ H), (lr_len _ _ _ H), Nat2Z.id.
  apply (list_free_loop_spec _ _ ls xs); [apply H|]. rewrite (hr_len _ _ _ (lr_heap _ _ _ H)). lia.
Qed.

End Representation.

(** ** Sequences of operations *)

Section Traces.
Context {A : Type}.

Inductive list_op :=
| LPushHead (v : A) | LPushTail (v : A) | LPopHead | LPopTail
| LInsertAfter (index : Z) (v : A)      (* after [list_node_at(index)] *)
| LDetach (index : Z)                   (* [list_detach] of [list_node_at(index)] *)
| LPeekHead | LPeekTail.

Definition list_step (l : clist A) (op : list_op) : option (option A * clist A) :=
  match op with
  | LPushHead v => l ← list_push_head l v; Some (None, l)
  | LPushTail v => l ← list_push_tail l v; Some (None, l)
  | LPopHead => list_pop_head l
  | LPopTail => list_pop_tail l
  | LInsertAfter i v => x ← list_node_at l i; l ← list_insert_after l x v; Some (None, l)
  | LDetach i => x ← list_node_at l i; list_detach l x
  | LPeekHead => v ← list_peek_head l; Some (v, l)
  | LPeekTail => v ← list_peek_tail l; Some (v, l)
  end.

(** The same operations on sequences. *)
Definition seq_step (xs : list A) (op : list_op) : option A * list A :=
  match op with
  | LPushHead v => (None, v :: xs)
  | LPushTail v => (None, xs ++ [v])
  | LPopHead => (head xs, tail xs)
  | LPopTail => (last xs, take (length xs - 1) xs)
  | LInsertAfter i v =>
      (None, match position (length xs) i with Some j => ins (S j) v xs | None => v :: xs end)
  | LDetach i =>
      match position (length xs) i with Some j => (xs !! j, delete j xs) | None => (None, xs) end
  | LPeekHead => (head xs, xs)
  | LPeekTail => (last xs, xs)
  end.

Fixpoint list_run (l : clist A) (ops : list list_op) : option (list (option A) * clist A) :=
  match ops with
  | [] => Some ([], l)
  | op :: ops => '(o, l) ← list_step l op; '(os, l) ← list_run l ops; Some (o :: os, l)
  end.

Fixpoint seq_run (xs : list A) (ops : list list_op) : list (option A) * list A :=
  match ops with
  | [] => ([], xs)
  | op :: ops =>
      let '(o, xs) := seq_step xs op in let '(os, xs) := seq_run xs ops in (o :: os, xs)
  end.

Lemma list_step_refines l xs op :
  is_list l xs →
  ∃ l', list_step l op = Some ((seq_step xs op).1, l') ∧ is_list l' (seq_step xs op).2.
Proof.
  intros Hl. destruct op as [v|v| | |i v|i| |]; cbn [list_step seq_step fst snd].
  - destruct (list_push_head_spec l xs v Hl) as (l' & -> & ?). eauto.
  - destruct (list_push_tail_spec l xs v Hl) as (l' & -> & ?). eauto.
  - pose proof (list_pop_head_spec l xs Hl) as Hp. destruct xs as [|x xs]; [eauto|].
    destruct Hp as (l' & -> & ?). eauto.
  - pose proof (list_pop_tail_spec l xs Hl) as Hp. destruct (last xs) as [x|] eqn:E.
    + destruct Hp as (l' & xs' & -> & -> & ?). eexists. split; [done|].
      rewrite length_app, take_app_le, take_ge by (simpl; lia). done.
    + apply last_None in E as ->. eauto.
  - destruct Hl as [ls H]. rewrite (list_node_at_spec l ls xs i H). cbn [mbind option_bind].
    pose proof (hr_len _ _ _ (lr_heap _ _ _ H)) as Hlen.
    destruct (position (length xs) i) as [j|] eqn:E; cbn [mbind option_bind].
    + apply position_lt in E.
      destruct (list_insert_after_spec l ls xs (S j) v H ltac:(lia)) as (l' & Hi & Hr).
      cbn [prev_of] in Hi. rewrite Hi. eexists. split; [done|by eexists].
    + destruct (list_insert_after_spec l ls xs 0 v H ltac:(lia)) as (l' & Hi & Hr).
      cbn [prev_of] in Hi. rewrite Hi. eexists. split; [done|by eexists].
  - destruct Hl as [ls H]. rewrite (list_node_at_spec l ls xs i H). cbn [mbind option_bind].
    pose proof (hr_len _ _ _ (lr_heap _ _ _ H)) as Hlen.
    destruct (position (length xs) i) as [j|] eqn:E; cbn [mbind option_bind fst snd].
    + apply position_lt in E.
      destruct (lookup_lt_is_Some_2 ls j ltac:(lia)) as [a Ha].
      destruct (lookup_lt_is_Some_2 xs j ltac:(lia)) as [v Hv].
      destruct (list_detach_spec l ls xs j a v H Ha Hv) as (l' & Hd & Hr).
      rewrite Ha, Hd, Hv. eexists. split; [done|by eexists].
    + eexists. split; [done|by eexists].
  - rewrite (list_peek_head_spec l xs Hl). eauto.
  - rewrite (list_peek_tail_spec l xs Hl). eauto.
Qed.

Lemma list_run_refines l xs ops :
  is_list l xs →
  ∃ l', list_run l ops = Some ((seq_run xs ops).1, l') ∧ is_list l' (seq_run xs ops).2.
Proof.
  revert l xs. induction ops as [|op ops IH]; intros l xs Hl; cbn [list_run seq_run]; [eauto|].
  destruct (list_step_refines l xs op Hl) as (l1 & -> & Hl1). cbn [mbind option_bind].
  destruct (seq_step xs op) as [o xs1]. simpl in Hl1 |- *.
  destruct (IH l1 xs1 Hl1) as (l2 & -> & Hl2). destruct (seq_run xs1 ops). simpl in *. eauto.
Qed.

End Traces.
Arguments list_op A : clear implicits.

(** ** Properties *)

(** C19: the doubly linked list implements sequences, and its pointers are safe.
    Any sequence of pushes, pops, peeks, insertions and detachments on a fresh
    list runs without touching NULL or freed memory, returns what the same
    operations return on a sequence, and leaves a structure that stores exactly
    the resulting sequence; freeing it releases every node. *)
Theorem clist_refines_sequence {A} (ops : list (list_op A)) :
  ∃ l, list_run list_create ops = Some ((seq_run [] ops).1, l) ∧
       list_values l = Some (seq_run [] ops).2 ∧
       list_len l = Z.of_nat (length (seq_run [] ops).2) ∧
       list_free l = Some ∅.
Proof.
  destruct (list_run_refines list_create [] ops is_list_create) as (l & Hr & Hl).
  exists l. split_and!; [done|by apply list_values_spec|by apply is_list_len|by eapply list_free_spec].
Qed.
