(* ===== verification/Zskiplist.v ===== *)
(** * Sorted sets: skiplist with spans, and member index ([src/zskiplist.c])

    Like the linked list, a skiplist owns its nodes: they live in a heap of its
    own, and a dereference of NULL or of freed memory, or an access beyond a
    node's level array, makes the operation undefined ([None]).  Scores are IEEE
    754 binary64 values in the representation of the standard library's
    [SpecFloat]; the height of a new node is an argument (the outcome of
    [zsl_random_level]). *)

From Stdlib Require Import Floats.SpecFloat.
From S2P Require Import Prelude Dict CList.

(** ** Doubles *)

Abbreviation double := spec_float.

Definition dltb (a b : double) : bool := SFltb a b.
Definition deqb (a b : double) : bool := SFeqb a b.
Definition dadd (a b : double) : double := SFadd 53 1024 a b.

Definition ZSKIPLIST_MAXLEVEL : nat := 32.

(** ** Data *)

Record zskiplist_level := ZLevel { lv_forward : ptr; lv_span : Z }.

Record zskiplist_node := ZNode {
  z_member : bytes;
  z_score : double;
  z_backward : ptr;
  z_levels : list zskiplist_level;
}.

Record zskiplist := ZSkiplist {
  zsl_nodes : gmap loc zskiplist_node;
  zsl_header : loc;
  zsl_tail : ptr;
  zsl_length : Z;
  zsl_level : nat;
  zsl_fresh : loc;
}.

Record zset := ZSet { zs_dict : dict loc; zs_zsl : zskiplist }.

(** ** Helpers *)

(** [memcmp], as a three-way comparison of unsigned bytes. *)
Fixpoint memcmp (a b : bytes) : Z :=
  match a, b with
  | x :: a, y :: b => if uchar x =? uchar y then memcmp a b else uchar x - uchar y
  | _, _ => 0
  end.

Definition member_cmp (a b : bytes) : Z :=
  let alen := Z.of_nat (length a) in
  let blen := Z.of_nat (length b) in
  let n := Z.to_nat (if alen <? blen then alen else blen) in
  let r := memcmp (take n a) (take n b) in
  if negb (r =? 0) then r
  else if alen <? blen then -1 else if alen >? blen then 1 else 0.

(** [zsl_random_level]: [r i] is the [i]-th value of [rand() & 0xFFFF]; the
    threshold is [(unsigned)(0.25 * 0xFFFF)].  The loop runs at most 31 times. *)
Definition ZSL_P_THRESHOLD : Z := 16383.

Fixpoint random_level_loop (fuel : nat) (level : nat) (r : nat → Z) (i : nat) : nat :=
  match fuel with
  | O => level
  | S fuel =>
      if (level <? ZSKIPLIST_MAXLEVEL)%nat && (Z.land (r i) 0xFFFF <? ZSL_P_THRESHOLD)
      then random_level_loop fuel (S level) r (S i)
      else level
  end.

Definition zsl_random_level (r : nat → Z) : nat := random_level_loop ZSKIPLIST_MAXLEVEL 1 r 0.

Definition empty_levels (n : nat) : list zskiplist_level := replicate n (ZLevel None 0).

Definition zsl_create_node (level : nat) (score : double) (member : bytes) : zskiplist_node :=
  ZNode member score None (empty_levels level).

Definition zsl_create : zskiplist :=
  ZSkiplist {[ 0%nat := ZNode [] (S754_zero false) None (empty_levels ZSKIPLIST_MAXLEVEL) ]}
            0 None 0 1 1.

Definition zsl_len (z : zskiplist) : Z := zsl_length z.

Section Heap.
Implicit Types (m : gmap loc zskiplist_node) (x : loc).

(** [x->level[i]] and its assignment. *)
Definition get_level m x (i : nat) : option zskiplist_level := n ← m !! x; z_levels n !! i.
Definition set_level m x (i : nat) (lv : zskiplist_level) : option (gmap loc zskiplist_node) :=
  n ← m !! x;
  _ ← z_levels n !! i;
  Some (<[x := ZNode (z_member n) (z_score n) (z_backward n) (<[i := lv]> (z_levels n))]> m).
Definition set_backward m x (b : ptr) : option (gmap loc zskiplist_node) :=
  n ← m !! x; Some (<[x := ZNode (z_member n) (z_score n) b (z_levels n)]> m).

(** The descent step at one level: advance while the next node exists and
    [before] holds of it, adding up spans. *)
Fixpoint walk_level (fuel : nat) m (before : zskiplist_node → bool) (i : nat) x (rank : Z) :
    option (loc * Z) :=
  match fuel with
  | O => None
  | S fuel =>
      lv ← get_level m x i;
      match lv_forward lv with
      | None => Some (x, rank)
      | Some f =>
          n ← m !! f;
          if before n then walk_level fuel m before i f (rank + lv_span lv) else Some (x, rank)
      end
  end.

(** The descent [for (i = level - 1; i >= 0; i--)]: the pair [(update[i], rank[i])]
    for every level, level 0 first. *)
Fixpoint descend (fuel : nat) m (before : zskiplist_node → bool) (levels : nat) x (rank : Z) :
    option (list (loc * Z)) :=
  match levels with
  | O => Some []
  | S i =>
      '(x, rank) ← walk_level fuel m before i x rank;
      rest ← descend fuel m before i x rank;
      Some (rest ++ [(x, rank)])
  end.

End Heap.

(** The node comes strictly before [(score, member)] in the order of the set. *)
Definition node_before (score : double) (member : bytes) (n : zskiplist_node) : bool :=
  dltb (z_score n) score ||
  (deqb (z_score n) score && (member_cmp (z_member n) member <? 0)).

(** The number of steps of a walk never exceeds the number of nodes. *)
Definition zsl_fuel (z : zskiplist) : nat := S (Z.to_nat (zsl_length z)).

(** ** Insertion *)

(** Levels the new node shares with the list: splice [x] after [update[i]] and
    split the span. *)
Fixpoint splice_levels (m : gmap loc zskiplist_node) (ups : list (loc * Z)) (rank0 : Z) (x : loc)
    (level i : nat) : option (gmap loc zskiplist_node) :=
  match level with
  | O => Some m
  | S level =>
      '(u, rank) ← ups !! i;
      lv ← get_level m u i;
      m ← set_level m x i (ZLevel (lv_forward lv) (lv_span lv - (rank0 - rank)));
      m ← set_level m u i (ZLevel (Some x) (rank0 - rank + 1));
      splice_levels m ups rank0 x level (S i)
  end.

(** Levels above the new node: one more node is covered. *)
Fixpoint bump_levels (m : gmap loc zskiplist_node) (ups : list (loc * Z)) (count i : nat) :
    option (gmap loc zskiplist_node) :=
  match count with
  | O => Some m
  | S count =>
      '(u, _) ← ups !! i;
      lv ← get_level m u i;
      m ← set_level m u i (ZLevel (lv_forward lv) (lv_span lv + 1));
      bump_levels m ups count (S i)
  end.

(** [update[i] = header; update[i]->level[i].span = length] for the new levels. *)
Fixpoint raise_levels (m : gmap loc zskiplist_node) (h : loc) (len : Z) (count i : nat) :
    option (gmap loc zskiplist_node) :=
  match count with
  | O => Some m
  | S count =>
      lv ← get_level m h i;
      m ← set_level m h i (ZLevel (lv_forward lv) len);
      raise_levels m h len count (S i)
  end.

Definition zsl_insert (z : zskiplist) (level : nat) (score : double) (member : bytes) :
    option (loc * zskiplist) :=
  let h := zsl_header z in
  ups ← descend (zsl_fuel z) (zsl_nodes z) (node_before score member) (zsl_level z) h 0;
  m ← raise_levels (zsl_nodes z) h (zsl_length z) (level - zsl_level z) (zsl_level z);
  let ups := ups ++ replicate (level - zsl_level z) (h, 0) in
  let zlevel := Nat.max level (zsl_level z) in
  let x := zsl_fresh z in
  let m := <[x := zsl_create_node level score member]> m in
  '(u0, rank0) ← ups !! 0%nat;
  m ← splice_levels m ups rank0 x level 0;
  m ← bump_levels m ups (zlevel - level) level;
  m ← set_backward m x (if decide (u0 = h) then None else Some u0);
  lv0 ← get_level m x 0;
  match lv_forward lv0 with
  | Some f =>
      m ← set_backward m f (Some x);
      Some (x, ZSkiplist m h (zsl_tail z) (zsl_length z + 1) zlevel (S x))
  | None => Some (x, ZSkiplist m h (Some x) (zsl_length z + 1) zlevel (S x))
  end.

(** ** Deletion *)

Fixpoint unsplice_levels (m : gmap loc zskiplist_node) (ups : list (loc * Z)) (x : loc)
    (count i : nat) : option (gmap loc zskiplist_node) :=
  match count with
  | O => Some m
  | S count =>
      '(u, _) ← ups !! i;
      lu ← get_level m u i;
      m ← (if decide (lv_forward lu = Some x) then
             lx ← get_level m x i;
             set_level m u i (ZLevel (lv_forward lx) (lv_span lu + (lv_span lx - 1)))
           else set_level m u i (ZLevel (lv_forward lu) (lv_span lu - 1)));
      unsplice_levels m ups x count (S i)
  end.

(** [while (level > 1 && header->level[level - 1].forward == NULL) level--]. *)
Fixpoint lower_level (m : gmap loc zskiplist_node) (h : loc) (level : nat) : option nat :=
  match level with
  | S (S l as l1) =>
      lv ← get_level m h l1;
      match lv_forward lv with None => lower_level m h l1 | Some _ => Some level end
  | _ => Some level
  end.

(** Unlink [x] and, in the same step, free it. *)
Definition zsl_delete_node (z : zskiplist) (x : loc) (ups : list (loc * Z)) : option zskiplist :=
  m ← unsplice_levels (zsl_nodes z) ups x (zsl_level z) 0;
  nx ← m !! x;
  lx0 ← z_levels nx !! 0%nat;
  '(m, tl) ← match lv_forward lx0 with
             | Some f => m ← set_backward m f (z_backward nx); Some (m, zsl_tail z)
             | None => Some (m, z_backward nx)
             end;
  level ← lower_level m (zsl_header z) (zsl_level z);
  Some (ZSkiplist (delete x m) (zsl_header z) tl (zsl_length z - 1) level (zsl_fresh z)).

(** The node is the one searched for. *)
Definition node_is (score : double) (member : bytes) (n : zskiplist_node) : bool :=
  deqb (z_score n) score && bool_decide (z_member n = member).

Definition zsl_delete (z : zskiplist) (score : double) (member : bytes) : option (bool * zskiplist) :=
  ups ← descend (zsl_fuel z) (zsl_nodes z) (node_before score member) (zsl_level z) (zsl_header z) 0;
  '(u0, _) ← ups !! 0%nat;
  lv ← get_level (zsl_nodes z) u0 0;
  match lv_forward lv with
  | None => Some (false, z)
  | Some x =>
      n ← zsl_nodes z !! x;
      if node_is score member n then z ← zsl_delete_node z x ups; Some (true, z)
      else Some (false, z)
  end.

(** ** Ranks and ranges *)

Definition zsl_get_rank (z : zskiplist) (score : double) (member : bytes) : option Z :=
  ups ← descend (zsl_fuel z) (zsl_nodes z) (node_before score member) (zsl_level z) (zsl_header z) 0;
  '(u0, rank) ← ups !! 0%nat;
  lv ← get_level (zsl_nodes z) u0 0;
  match lv_forward lv with
  | None => Some 0
  | Some x => n ← zsl_nodes z !! x; Some (if node_is score member n then rank + 1 else 0)
  end.

Fixpoint rank_walk (fuel : nat) (m : gmap loc zskiplist_node) (i : nat) (x : loc) (traversed rank : Z) :
    option (loc * Z) :=
  match fuel with
  | O => None
  | S fuel =>
      lv ← get_level m x i;
      match lv_forward lv with
      | Some f => if traversed + lv_span lv <=? rank
                  then rank_walk fuel m i f (traversed + lv_span lv) rank
                  else Some (x, traversed)
      | None => Some (x, traversed)
      end
  end.

Fixpoint rank_descend (fuel : nat) (m : gmap loc zskiplist_node) (levels : nat) (x : loc)
    (traversed rank : Z) : option ptr :=
  match levels with
  | O => Some None
  | S i =>
      '(x, traversed) ← rank_walk fuel m i x traversed rank;
      if traversed =? rank then Some (Some x) else rank_descend fuel m i x traversed rank
  end.

Definition zsl_get_element_by_rank (z : zskiplist) (rank : Z) : option ptr :=
  if rank =? 0 then Some None
  else rank_descend (zsl_fuel z) (zsl_nodes z) (zsl_level z) (zsl_header z) 0 rank.

Definition zsl_first_in_score_range (z : zskiplist) (min : double) (minex : bool) : option ptr :=
  ups ← descend (zsl_fuel z) (zsl_nodes z)
          (λ n, dltb (z_score n) min || (minex && deqb (z_score n) min))
          (zsl_level z) (zsl_header z) 0;
  '(u0, _) ← ups !! 0%nat;
  lv ← get_level (zsl_nodes z) u0 0;
  Some (lv_forward lv).

Definition zsl_last_in_score_range (z : zskiplist) (max : double) (maxex : bool) : option ptr :=
  ups ← descend (zsl_fuel z) (zsl_nodes z)
          (λ n, dltb (z_score n) max || (negb maxex && deqb (z_score n) max))
          (zsl_level z) (zsl_header z) 0;
  '(u0, _) ← ups !! 0%nat;
  Some (if decide (u0 = zsl_header z) then None else Some u0).

(** ** The set: dictionary of nodes plus skiplist *)

Definition zset_create (random16 : bytes) : zset := ZSet (dict_create random16) zsl_create.

Definition zset_len (zs : zset) : Z := zsl_len (zs_zsl zs).

(** [level] is the height a newly inserted node gets; the result is 1 for a new
    member, 2 for a changed score, 0 when nothing changes. *)
Definition zset_add (zs : zset) (level : nat) (score : double) (member : bytes) : option (Z * zset) :=
  match dict_get (zs_dict zs) member with
  | Some x =>
      n ← zsl_nodes (zs_zsl zs) !! x;
      if deqb (z_score n) score then Some (0, zs)
      else
        '(_, z) ← zsl_delete (zs_zsl zs) (z_score n) (z_member n);
        let d := (dict_delete (zs_dict zs) member).2 in
        '(x, z) ← zsl_insert z level score member;
        Some (2, ZSet (dict_set d member x).2 z)
  | None =>
      '(x, z) ← zsl_insert (zs_zsl zs) level score member;
      Some (1, ZSet (dict_set (zs_dict zs) member x).2 z)
  end.

Definition zset_remove (zs : zset) (member : bytes) : option (bool * zset) :=
  match dict_get (zs_dict zs) member with
  | None => Some (false, zs)
  | Some x =>
      n ← zsl_nodes (zs_zsl zs) !! x;
      '(_, z) ← zsl_delete (zs_zsl zs) (z_score n) (z_member n);
      Some (true, ZSet (dict_delete (zs_dict zs) member).2 z)
  end.

Definition zset_score (zs : zset) (member : bytes) : option (option double) :=
  match dict_get (zs_dict zs) member with
  | None => Some None
  | Some x => n ← zsl_nodes (zs_zsl zs) !! x; Some (Some (z_score n))
  end.
