(* ===== verification/Zorder.v ===== *)
(** * The order of sorted sets

    [src/zskiplist.c] orders its nodes by score and, for equal scores, by the bytes
    of the member.  On scores that are not NaN the comparisons of C doubles are a
    strict weak order; with [member_cmp] they make the order of (score, member)
    pairs total up to the equality of scores. *)

From Stdlib Require Import Floats.SpecFloat.
From S2P Require Import Prelude Dict CList Zskiplist.

(** ** Doubles *)

Definition not_nan (d : double) : bool := match d with S754_nan => false | _ => true end.

(** A double as a triple of integers that compares lexicographically. *)
Definition dkey (d : double) : Z * Z * Z :=
  match d with
  | S754_nan => (0, 0, 0)
  | S754_zero _ => (0, 0, 0)
  | S754_infinity s => (if s then -2 else 2, 0, 0)
  | S754_finite s m e => if s then (-1, - e, Zneg m) else (1, e, Zpos m)
  end.

Definition key_lt (a b : Z * Z * Z) : Prop :=
  let '(a1, a2, a3) := a in
  let '(b1, b2, b3) := b in
  a1 < b1 ∨ a1 = b1 ∧ (a2 < b2 ∨ a2 = b2 ∧ a3 < b3).

Lemma SFcompare_key a b :
  not_nan a = true → not_nan b = true →
  match SFcompare a b with
  | Some Lt => key_lt (dkey a) (dkey b)
  | Some Eq => dkey a = dkey b
  | Some Gt => key_lt (dkey b) (dkey a)
  | None => False
  end.
Proof.
  destruct a as [s|[]| |[] m e], b as [s'|[]| |[] m' e']; try done; intros _ _; cbn; try lia.
  all: destruct (Z.compare_spec e e'); cbn; try lia; change (Pos.compare_cont Eq m m') with (m ?= m')%positive;
    destruct (Pos.compare_spec m m'); cbn; subst; try done; try lia.
Qed.

Lemma dltb_key a b : not_nan a = true → not_nan b = true → dltb a b = true ↔ key_lt (dkey a) (dkey b).
Proof.
  intros Ha Hb. pose proof (SFcompare_key a b Ha Hb) as H. unfold dltb, SFltb.
  destruct (dkey a) as [[a1 a2] a3], (dkey b) as [[b1 b2] b3].
  destruct (SFcompare a b) as [[]|]; simplify_eq; split; try done; unfold key_lt in *; lia.
Qed.

Lemma deqb_key a b : not_nan a = true → not_nan b = true → deqb a b = true ↔ dkey a = dkey b.
Proof.
  intros Ha Hb. pose proof (SFcompare_key a b Ha Hb) as H. unfold deqb, SFeqb.
  destruct (dkey a) as [[a1 a2] a3], (dkey b) as [[b1 b2] b3].
  destruct (SFcompare a b) as [[]|]; simplify_eq; split; try done; unfold key_lt in *; intros; simplify_eq; lia.
Qed.

(** ** Members *)

(** The lexicographic order of byte strings. *)
Fixpoint bytes_lt (a b : bytes) : Prop :=
  match a, b with
  | _, [] => False
  | [], _ :: _ => True
  | x :: a, y :: b => uchar x < uchar y ∨ x = y ∧ bytes_lt a b
  end.

Lemma bytes_lt_irrefl a : ¬ bytes_lt a a.
Proof. induction a as [|x a IH]; cbn; [tauto|]. intros [?|[_ ?]]; [lia|done]. Qed.

Lemma bytes_lt_trans a b c : bytes_lt a b → bytes_lt b c → bytes_lt a c.
Proof.
  revert b c. induction a as [|x a IH]; intros [|y b] [|z c]; try done; cbn.
  intros [?|[-> ?]] [?|[-> ?]]; [left; lia|by left|by left|right; split; [done|by eapply IH]].
Qed.

Lemma bytes_lt_total a b : bytes_lt a b ∨ a = b ∨ bytes_lt b a.
Proof.
  revert b. induction a as [|x a IH]; intros [|y b]; cbn; auto.
  destruct (Z.lt_trichotomy (uchar x) (uchar y)) as [?|[E|?]]; auto.
  apply uchar_inj in E as ->. destruct (IH b) as [?|[->|?]]; auto.
Qed.

Lemma memcmp_refl a : memcmp a a = 0.
Proof. induction a as [|x a IH]; [done|]. cbn [memcmp]. by rewrite Z.eqb_refl. Qed.

Lemma member_cmp_cons x a y b :
  member_cmp (x :: a) (y :: b) = if uchar x =? uchar y then member_cmp a b else uchar x - uchar y.
Proof.
  unfold member_cmp. cbn [length].
  replace (Z.of_nat (S (length a)) <? Z.of_nat (S (length b))) with (Z.of_nat (length a) <? Z.of_nat (length b))
    by (destruct (Z.ltb_spec (Z.of_nat (length a)) (Z.of_nat (length b)));
        symmetry; [apply Z.ltb_lt|apply Z.ltb_ge]; lia).
  replace (Z.of_nat (S (length a)) >? Z.of_nat (S (length b))) with (Z.of_nat (length a) >? Z.of_nat (length b))
    by (rewrite !Z.gtb_ltb; destruct (Z.ltb_spec (Z.of_nat (length b)) (Z.of_nat (length a)));
        symmetry; [apply Z.ltb_lt|apply Z.ltb_ge]; lia).
  replace (Z.to_nat (if Z.of_nat (length a) <? Z.of_nat (length b) then Z.of_nat (S (length a)) else Z.of_nat (S (length b))))
    with (S (Z.to_nat (if Z.of_nat (length a) <? Z.of_nat (length b) then Z.of_nat (length a) else Z.of_nat (length b))))
    by (case_match; lia).
  rewrite !firstn_cons. cbn [memcmp]. destruct (Z.eqb_spec (uchar x) (uchar y)); [done|].
  rewrite (proj2 (Z.eqb_neq (uchar x - uchar y) 0)) by lia. done.
Qed.

Lemma member_cmp_lt a b : member_cmp a b < 0 ↔ bytes_lt a b.
Proof.
  revert b. induction a as [|x a IH]; intros [|y b]; cbn [bytes_lt].
  - done.
  - unfold member_cmp. cbn [length]. rewrite (proj2 (Z.ltb_lt _ _)) by lia.
    change (Z.to_nat (Z.of_nat 0)) with 0%nat. cbn. split; [done|lia].
  - unfold member_cmp. cbn [length]. rewrite (proj2 (Z.ltb_ge _ _)), Z.gtb_ltb, (proj2 (Z.ltb_lt _ _)) by lia.
    change (Z.to_nat (Z.of_nat 0)) with 0%nat. cbn. split; [lia|done].
  - rewrite member_cmp_cons. destruct (Z.eqb_spec (uchar x) (uchar y)) as [E|E].
    + apply uchar_inj in E as ->. rewrite IH. split; [by right|]. intros [?|[_ ?]]; [lia|done].
    + split; [intros; left; lia|]. intros [?|[-> _]]; [lia|done].
Qed.

(** ** Entries *)

(** An entry of a sorted set. *)
Abbreviation zentry := (double * bytes)%type.

Definition entry_ltb (a b : zentry) : bool :=
  dltb a.1 b.1 || (deqb a.1 b.1 && (member_cmp a.2 b.2 <? 0)).

Definition entry_lt (a b : zentry) : Prop :=
  key_lt (dkey a.1) (dkey b.1) ∨ dkey a.1 = dkey b.1 ∧ bytes_lt a.2 b.2.

Definition zvalid (a : zentry) : Prop := not_nan a.1 = true.

Lemma entry_ltb_lt a b : zvalid a → zvalid b → entry_ltb a b = true ↔ entry_lt a b.
Proof.
  intros Ha Hb. unfold entry_ltb, entry_lt.
  by rewrite orb_true_iff, andb_true_iff, Z.ltb_lt, member_cmp_lt, dltb_key, deqb_key.
Qed.

Lemma key_lt_trans a b c : key_lt a b → key_lt b c → key_lt a c.
Proof. destruct a as [[??]?], b as [[??]?], c as [[??]?]. unfold key_lt. lia. Qed.
Lemma key_lt_irrefl a : ¬ key_lt a a.
Proof. destruct a as [[??]?]. unfold key_lt. lia. Qed.
Lemma key_lt_total a b : key_lt a b ∨ a = b ∨ key_lt b a.
Proof.
  destruct a as [[a1 a2] a3], b as [[b1 b2] b3]. unfold key_lt.
  destruct (Z.lt_trichotomy a1 b1) as [?|[->|?]]; [lia| |lia].
  destruct (Z.lt_trichotomy a2 b2) as [?|[->|?]]; [lia| |lia].
  destruct (Z.lt_trichotomy a3 b3) as [?|[->|?]]; [lia|auto|lia].
Qed.

#[export] Instance entry_lt_trans : Transitive entry_lt.
Proof.
  intros a b c [?|[E ?]] [?|[E' ?]]; unfold entry_lt.
  - left. by eapply key_lt_trans.
  - left. by rewrite <- E'.
  - left. by rewrite E.
  - right. split; [congruence|by eapply bytes_lt_trans].
Qed.

Lemma entry_lt_irrefl a : ¬ entry_lt a a.
Proof. intros [?|[_ ?]]; [by eapply key_lt_irrefl|by eapply bytes_lt_irrefl]. Qed.

(** Entries the order does not tell apart: equal members, scores equal as numbers. *)
Definition entry_eq (a b : zentry) : Prop := dkey a.1 = dkey b.1 ∧ a.2 = b.2.

Lemma entry_lt_total a b : entry_lt a b ∨ entry_eq a b ∨ entry_lt b a.
Proof.
  unfold entry_lt, entry_eq. destruct (key_lt_total (dkey a.1) (dkey b.1)) as [?|[->|?]]; [auto| |auto].
  destruct (bytes_lt_total a.2 b.2) as [?|[->|?]]; auto.
Qed.
