(* ===== verification/Zlinks.v ===== *)
(** * The links of a skiplist, as a function of the node heights

    Position 0 is the header, position [p] the node of rank [p].  At level [i] the
    link of position [p] goes to the next position whose node is taller than [i],
    and its span is the distance; without such a node the link is NULL and its span
    the number of nodes that follow.  [link_at] says so; the lemmas describe how
    links change when a node is inserted, which is what [zsl_insert] and (read
    backwards) [zsl_delete] have to achieve. *)

From S2P Require Import Prelude Dict CList Zskiplist Zorder.

(** The offset of the first height above level [i]. *)
Fixpoint gap (i : nat) (hs : list nat) : option nat :=
  match hs with
  | [] => None
  | h :: hs => if (i <? h)%nat then Some 0%nat else S <$> gap i hs
  end.

Definition link_at (ps : list loc) (hs : list nat) (p i : nat) : zskiplist_level :=
  match gap i (drop (S p) hs) with
  | Some d => ZLevel (ps !! (S p + d)%nat) (Z.of_nat (S d))
  | None => ZLevel None (Z.of_nat (length (drop (S p) hs)))
  end.

(** [q] is the last position up to [B] whose node is taller than [i]. *)
Record is_last (hs : list nat) (i B q : nat) : Prop := {
  il_le : (q <= B)%nat;
  il_tall : ∃ h, hs !! q = Some h ∧ (i < h)%nat;
  il_low j h : (q < j <= B)%nat → hs !! j = Some h → (h <= i)%nat;
}.

Lemma is_last_unique hs i B q q' : is_last hs i B q → is_last hs i B q' → q = q'.
Proof.
  intros [H1 (h & Hh & Hi) H2] [H1' (h' & Hh' & Hi') H2'].
  destruct (Nat.lt_trichotomy q q') as [?|[?|?]]; [|done|].
  - pose proof (H2 q' h' ltac:(lia) Hh'). lia.
  - pose proof (H2' q h ltac:(lia) Hh). lia.
Qed.

(** ** Gaps *)

Lemma gap_low i l1 l2 : Forall (λ h, (h <= i)%nat) l1 → gap i (l1 ++ l2) = (λ d, (length l1 + d)%nat) <$> gap i l2.
Proof.
  induction 1 as [|h l1 Hh _ IH]; [symmetry; apply option_fmap_id|]. cbn [app gap length].
  rewrite (proj2 (Nat.ltb_ge _ _)) by done. rewrite IH. by destruct (gap i l2).
Qed.

Lemma gap_Some i hs d :
  gap i hs = Some d → (∃ h, hs !! d = Some h ∧ (i < h)%nat) ∧ ∀ j h, (j < d)%nat → hs !! j = Some h → (h <= i)%nat.
Proof.
  revert d. induction hs as [|h hs IH]; intros d; [done|]. cbn [gap].
  destruct (Nat.ltb_spec i h).
  - intros [= <-]. split; [by exists h|]. intros j ? Hj. lia.
  - destruct (gap i hs) as [d'|]; [|done]. intros [= <-]. destruct (IH d' eq_refl) as [Ht Hl].
    split; [exact Ht|]. intros [|j] h' Hj; [by intros [= <-]|]. apply Hl. lia.
Qed.

Lemma gap_None i hs : gap i hs = None → Forall (λ h, (h <= i)%nat) hs.
Proof.
  induction hs as [|h hs IH]; [done|]. cbn [gap]. destruct (Nat.ltb_spec i h); [done|].
  destruct (gap i hs); [done|]. intros _. apply Forall_cons_2; [lia|auto].
Qed.

Lemma gap_high i l1 l2 d : gap i l1 = Some d → gap i (l1 ++ l2) = Some d.
Proof.
  revert d. induction l1 as [|h l1 IH]; intros d; [done|]. cbn [app gap].
  destruct (i <? h)%nat; [done|]. destruct (gap i l1) as [d'|]; [|done]. intros [= <-].
  by rewrite (IH d').
Qed.

(** ** Splitting the heights after a position *)

Section Insert.
Context (ps : list loc) (hs : list nat) (B : nat) (x : loc) (level : nat).
Hypothesis (Hlen : length ps = length hs) (HB : (B < length hs)%nat).

Let ps' := ins (S B) x ps.
Let hs' := ins (S B) level hs.

(** The heights between [p] and [B]. *)
Definition between (p : nat) : list nat := take (B - p) (drop (S p) hs).

Lemma between_length p : (p <= B)%nat → length (between p) = (B - p)%nat.
Proof. intros. unfold between. rewrite length_take, length_drop. lia. Qed.

Lemma drop_split p : (p <= B)%nat → drop (S p) hs = between p ++ drop (S B) hs.
Proof.
  intros Hp. unfold between. rewrite <- (take_drop (B - p) (drop (S p) hs)) at 1. f_equal.
  rewrite drop_drop. f_equal. lia.
Qed.

Lemma drop_split_ins p : (p <= B)%nat → drop (S p) hs' = between p ++ level :: drop (S B) hs.
Proof.
  intros Hp. subst hs'. unfold ins, between.
  rewrite drop_app_le by (rewrite length_take; lia). f_equal.
  by rewrite skipn_firstn_comm.
Qed.

Lemma between_low i p : is_last hs i B p → Forall (λ h, (h <= i)%nat) (between p).
Proof.
  intros [Hp _ Hlow]. apply Forall_lookup. intros j h. unfold between. rewrite lookup_take_Some, lookup_drop.
  intros [Hj ?]. apply (Hlow (S p + j)%nat); [lia|done].
Qed.

Lemma between_high i p :
  (p <= B)%nat → (∃ h, hs !! p = Some h ∧ (i < h)%nat) → ¬ is_last hs i B p → is_Some (gap i (between p)).
Proof.
  intros Hp Ht Hnl. destruct (gap i (between p)) as [d|] eqn:E; [by eexists|]. exfalso. apply Hnl.
  split; [done..|]. intros j h Hj Hh. apply gap_None in E. rewrite Forall_lookup in E.
  apply (E (j - S p)%nat). unfold between. rewrite lookup_take_Some, lookup_drop. split; [|lia].
  by replace (S p + (j - S p))%nat with j by lia.
Qed.

(** Links that stop at or before [B] do not change. *)
Lemma link_before p i :
  (p <= B)%nat → (∃ h, hs !! p = Some h ∧ (i < h)%nat) → ¬ is_last hs i B p →
  link_at ps' hs' p i = link_at ps hs p i.
Proof.
  intros Hp Ht Hnl. destruct (between_high i p Hp Ht Hnl) as [d Hd]. unfold link_at.
  rewrite (drop_split p), drop_split_ins by done. rewrite !(gap_high _ _ _ _ Hd). f_equal.
  apply gap_Some in Hd as [(h & Hh & _) _]. apply lookup_lt_Some in Hh. rewrite between_length in Hh by done.
  subst ps'. rewrite lookup_ins by lia. by rewrite decide_True by lia.
Qed.

(** The last link up to [B] is cut by a node that is tall enough. *)
Lemma link_cut q i :
  is_last hs i B q → (i < level)%nat → link_at ps' hs' q i = ZLevel (Some x) (Z.of_nat B - Z.of_nat q + 1).
Proof.
  intros Hl Hi. pose proof (il_le _ _ _ _ Hl). unfold link_at. rewrite drop_split_ins by done.
  rewrite gap_low by by apply between_low. cbn [gap]. rewrite (proj2 (Nat.ltb_lt _ _)) by done. cbn [fmap option_fmap option_map].
  rewrite between_length by done. f_equal; [|lia]. subst ps'.
  rewrite lookup_ins by lia. by rewrite decide_False, decide_True by lia.
Qed.

(** It passes over a lower one, covering one more node. *)
Lemma link_over q i :
  is_last hs i B q → (level <= i)%nat →
  link_at ps' hs' q i = ZLevel (lv_forward (link_at ps hs q i)) (lv_span (link_at ps hs q i) + 1).
Proof.
  intros Hl Hi. pose proof (il_le _ _ _ _ Hl). unfold link_at. rewrite drop_split_ins, (drop_split q) by done.
  rewrite !gap_low by by apply between_low. cbn [gap]. rewrite (proj2 (Nat.ltb_ge _ _)) by done.
  rewrite !length_app, !between_length by done. cbn [length].
  destruct (gap i (drop (S B) hs)) as [d|]; cbn [fmap option_fmap option_map lv_forward lv_span]; f_equal; try lia.
  subst ps'. rewrite lookup_ins by lia. rewrite decide_False, decide_False by lia. f_equal. lia.
Qed.

(** The new node takes over the rest of the cut link. *)
Lemma link_new q i :
  is_last hs i B q →
  link_at ps' hs' (S B) i =
  ZLevel (lv_forward (link_at ps hs q i)) (lv_span (link_at ps hs q i) - (Z.of_nat B - Z.of_nat q)).
Proof.
  intros Hl. pose proof (il_le _ _ _ _ Hl). unfold link_at. rewrite (drop_split q) by done.
  rewrite !gap_low by by apply between_low. rewrite length_app, between_length by done.
  replace (drop (S (S B)) hs') with (drop (S B) hs).
  2:{ subst hs'. unfold ins. rewrite drop_app_ge by (rewrite length_take; lia).
      rewrite length_take, Nat.min_l by lia. by replace (S (S B) - S B)%nat with 1%nat by lia. }
  destruct (gap i (drop (S B) hs)) as [d|]; cbn [fmap option_fmap option_map lv_forward lv_span]; f_equal; try lia.
  subst ps'. rewrite lookup_ins by lia. rewrite decide_False, decide_False by lia. f_equal. lia.
Qed.

(** Links after [B] move with their nodes. *)
Lemma link_after p i : (B < p)%nat → link_at ps' hs' (S p) i = link_at ps hs p i.
Proof.
  intros Hp. unfold link_at.
  replace (drop (S (S p)) hs') with (drop (S p) hs).
  2:{ subst hs'. unfold ins. rewrite drop_app_ge by (rewrite length_take; lia).
      rewrite length_take, Nat.min_l by lia. replace (S (S p) - S B)%nat with (S (S p - S B)) by lia.
      cbn [drop]. rewrite drop_drop. f_equal. lia. }
  destruct (gap i (drop (S p) hs)) as [d|]; f_equal.
  subst ps'. rewrite lookup_ins by lia. by rewrite decide_False, decide_False by lia.
Qed.

(** The last tall position up to [B] is the same before and after. *)
Lemma is_last_ins i q : is_last hs' i B q ↔ is_last hs i B q.
Proof.
  assert (Hlk : ∀ j, (j <= B)%nat → hs' !! j = hs !! j).
  { intros j Hj. subst hs'. rewrite lookup_ins by lia. by rewrite decide_True by lia. }
  split; intros [Hq (h & Hh & Hi) Hlow]; (split; [done|exists h; split; [|done]|]).
  - by rewrite <- Hlk.
  - intros j h' Hj. rewrite <- Hlk by lia. by apply Hlow.
  - by rewrite Hlk.
  - intros j h' Hj. rewrite Hlk by lia. by apply Hlow.
Qed.

End Insert.

(** The target of a link is a later position. *)
Lemma link_forward ps hs p i f :
  lv_forward (link_at ps hs p i) = Some f →
  ∃ d, ps !! (S p + d)%nat = Some f ∧ lv_span (link_at ps hs p i) = Z.of_nat (S d) ∧
       (∃ h, hs !! (S p + d)%nat = Some h ∧ (i < h)%nat) ∧
       ∀ j h, (p < j < S p + d)%nat → hs !! j = Some h → (h <= i)%nat.
Proof.
  unfold link_at. destruct (gap i (drop (S p) hs)) as [d|] eqn:E; cbn [lv_forward lv_span]; [|done].
  intros Hf. exists d. split; [done|]. split; [done|]. apply gap_Some in E as [(h & Hh & Hi) Hl].
  rewrite lookup_drop in Hh. split; [by eauto|]. intros j h' Hj Hh'.
  apply (Hl (j - S p)%nat); [lia|]. rewrite lookup_drop. by replace (S p + (j - S p))%nat with j by lia.
Qed.

Lemma link_end ps hs p i :
  length ps = length hs → lv_forward (link_at ps hs p i) = None →
  ∀ j h, (p < j)%nat → hs !! j = Some h → (h <= i)%nat.
Proof.
  intros Hlen. unfold link_at. destruct (gap i (drop (S p) hs)) as [d|] eqn:E; cbn [lv_forward].
  - apply gap_Some in E as [(h & Hh & _) _]. rewrite lookup_drop in Hh. apply lookup_lt_Some in Hh.
    rewrite <- Hlen in Hh. apply lookup_lt_is_Some_2 in Hh as [? ->]. done.
  - intros _ j h Hj Hh. apply gap_None in E. rewrite Forall_lookup in E.
    apply (E (j - S p)%nat). rewrite lookup_drop. by replace (S p + (j - S p))%nat with j by lia.
Qed.
