(* ===== verification/Zrep.v ===== *)
(** * Representation of sorted sequences by skiplists

    When the heap of a skiplist represents a sequence of entries, and what the
    searches of [src/zskiplist.c] compute then: every descent stops, at each level,
    at the last tall node of the prefix it looks for, and the ranks it adds up are
    positions. *)

From Stdlib Require Import Floats.SpecFloat Sorting.Sorted.
From S2P Require Import Prelude Dict CList Zskiplist Zorder Zlinks.

(** ** The heap, field by field *)

Section HeapFields.
Implicit Types (m : gmap loc zskiplist_node) (x y : loc).

(** Everything of a node but its links. *)
Definition fields (n : zskiplist_node) : zentry * ptr * nat :=
  (z_score n, z_member n, z_backward n, length (z_levels n)).

Definition same_fields m m' : Prop := ∀ y, fields <$> m' !! y = fields <$> m !! y.

#[export] Instance same_fields_preorder : PreOrder same_fields.
Proof. split; [by intros ??|]. intros m1 m2 m3 H H' y. by rewrite H', H. Qed.

Lemma get_level_Some m x i lv :
  get_level m x i = Some lv ↔ ∃ n, m !! x = Some n ∧ z_levels n !! i = Some lv.
Proof. unfold get_level. destruct (m !! x) as [n|]; naive_solver. Qed.

Lemma get_level_is_Some m x i e b h :
  fields <$> m !! x = Some (e, b, h) → (i < h)%nat → is_Some (get_level m x i).
Proof.
  unfold get_level. destruct (m !! x) as [n|]; [|done]. intros [= <- <- <-] Hi.
  by apply lookup_lt_is_Some_2.
Qed.

Lemma set_level_spec m x i lv :
  is_Some (get_level m x i) →
  ∃ m', set_level m x i lv = Some m' ∧ same_fields m m' ∧
    ∀ y j, get_level m' y j = if decide (y = x ∧ j = i) then Some lv else get_level m y j.
Proof.
  intros [old Hold]. apply get_level_Some in Hold as (n & Hn & Hi). unfold set_level. rewrite Hn. cbn [mbind option_bind].
  rewrite Hi. cbn [mbind option_bind]. eexists. split; [done|]. split.
  - intros y. destruct (decide (y = x)) as [->|].
    + rewrite lookup_insert_eq, Hn. unfold fields. cbn. by rewrite length_insert.
    + by rewrite lookup_insert_ne.
  - intros y j. unfold get_level. destruct (decide (y = x)) as [->|Hy].
    + rewrite lookup_insert_eq, Hn. cbn. destruct (decide (j = i)) as [->|Hj].
      * rewrite decide_True by done. apply list_lookup_insert_eq. by eapply lookup_lt_Some.
      * rewrite decide_False by naive_solver. by apply list_lookup_insert_ne.
    + rewrite lookup_insert_ne, decide_False by naive_solver. done.
Qed.

Lemma set_backward_spec m x b e b0 h :
  fields <$> m !! x = Some (e, b0, h) →
  ∃ m', set_backward m x b = Some m' ∧
    (∀ y, fields <$> m' !! y = if decide (y = x) then Some (e, b, h) else fields <$> m !! y) ∧
    ∀ y j, get_level m' y j = get_level m y j.
Proof.
  unfold set_backward. destruct (m !! x) as [n|] eqn:Hn; [|done]. intros [= <- <- <-]. cbn [mbind option_bind].
  eexists. split; [done|]. split.
  - intros y. case_decide as Hy; [subst|]; [by rewrite lookup_insert_eq|by rewrite lookup_insert_ne].
  - intros y j. unfold get_level. destruct (decide (y = x)) as [->|]; [|by rewrite lookup_insert_ne].
    by rewrite lookup_insert_eq, Hn.
Qed.

End HeapFields.

(** ** Representation *)

(** What [zsl_create] stores in the header. *)
Definition header_entry : zentry := (S754_zero false, []).

(** The backward pointer of a position; the first node has none. *)
Definition back (ps : list loc) (p : nat) : ptr :=
  match p with S (S q) => ps !! S q | _ => None end.

Record zsl_rep (z : zskiplist) (ps : list loc) (hs : list nat) (es : list zentry) : Prop := {
  zr_hs : length hs = length ps;
  zr_es : length es = length ps;
  zr_header : ps !! 0%nat = Some (zsl_header z);
  zr_tall : hs !! 0%nat = Some ZSKIPLIST_MAXLEVEL;
  zr_entry0 : es !! 0%nat = Some header_entry;
  zr_nodup : NoDup ps;
  zr_level : (1 <= zsl_level z <= ZSKIPLIST_MAXLEVEL)%nat;
  zr_heights p h : hs !! p = Some h → (1 <= h <= ZSKIPLIST_MAXLEVEL)%nat;
  zr_below p h : (0 < p)%nat → hs !! p = Some h → (h <= zsl_level z)%nat;
  zr_fields p l h e : ps !! p = Some l → hs !! p = Some h → es !! p = Some e →
    fields <$> zsl_nodes z !! l = Some (e, back ps p, h);
  zr_links p l h i : ps !! p = Some l → hs !! p = Some h → (i < h)%nat →
    ∃ lv, get_level (zsl_nodes z) l i = Some lv ∧ lv_forward lv = lv_forward (link_at ps hs p i) ∧
          ((i < zsl_level z)%nat → lv = link_at ps hs p i);
  zr_dom l : l ∉ ps → zsl_nodes z !! l = None;
  zr_fresh l : l ∈ ps → (l < zsl_fresh z)%nat;
  zr_tail : zsl_tail z = back ps (length ps);
  zr_length : zsl_length z = Z.of_nat (length ps) - 1;
}.


Section Search.
Context {z ps hs es} (HR : zsl_rep z ps hs es).
#[local] Abbreviation m := (zsl_nodes z).

Lemma zr_pos p : (p < length ps)%nat → ∃ l h e, ps !! p = Some l ∧ hs !! p = Some h ∧ es !! p = Some e.
Proof.
  intros Hp. destruct (lookup_lt_is_Some_2 ps p) as [l ?]; [done|].
  destruct (lookup_lt_is_Some_2 hs p) as [h ?]; [by rewrite (zr_hs _ _ _ _ HR)|].
  destruct (lookup_lt_is_Some_2 es p) as [e ?]; [by rewrite (zr_es _ _ _ _ HR)|]. by eauto 10.
Qed.

Lemma zr_node p l e : ps !! p = Some l → es !! p = Some e → ∃ n, m !! l = Some n ∧ (z_score n, z_member n) = e.
Proof.
  intros Hl He. destruct (zr_pos p) as (l' & h & e' & ? & Hh & ?); [by eapply lookup_lt_Some|]. simplify_eq.
  pose proof (zr_fields _ _ _ _ HR p l h e Hl Hh He) as Hf. destruct (m !! l) as [n|]; [|done].
  exists n. split; [done|]. unfold fields in Hf. cbn in Hf. congruence.
Qed.

Lemma zr_link p l h i :
  ps !! p = Some l → hs !! p = Some h → (i < h)%nat → (i < zsl_level z)%nat →
  get_level m l i = Some (link_at ps hs p i).
Proof.
  intros Hl Hh Hi Hz. destruct (zr_links _ _ _ _ HR p l h i Hl Hh Hi) as (lv & -> & _ & Hlv).
  by rewrite Hlv.
Qed.

(** The nodes up to position [B] are those the search passes. *)
Context (before : zskiplist_node → bool) (B : nat).
Hypothesis (HB : (B < length ps)%nat).
Hypothesis (Hbefore : ∀ p l n, (0 < p)%nat → ps !! p = Some l → m !! l = Some n → before n = (p <=? B)%nat).

Lemma walk_level_spec fuel p l i h :
  ps !! p = Some l → hs !! p = Some h → (i < h)%nat → (i < zsl_level z)%nat → (p <= B)%nat →
  (B - p < fuel)%nat →
  ∃ q l', walk_level fuel m before i l (Z.of_nat p) = Some (l', Z.of_nat q) ∧ ps !! q = Some l' ∧
          is_last hs i B q.
Proof.
  revert p l h. induction fuel as [|fuel IH]; intros p l h Hl Hh Hi Hz Hp Hf; [lia|]. cbn [walk_level].
  rewrite (zr_link p l h i) by done. cbn [mbind option_bind].
  pose proof (zr_hs _ _ _ _ HR) as Hlen.
  destruct (lv_forward (link_at ps hs p i)) as [f|] eqn:Ef.
  - destruct (link_forward _ _ _ _ _ Ef) as (d & Hd & Hs & (h' & Hh' & Hi') & Hlow).
    destruct (zr_pos (S p + d)) as (f' & h'' & e & ? & ? & He); [by eapply lookup_lt_Some|]. simplify_eq.
    destruct (zr_node _ _ _ Hd He) as (n & Hn & _). rewrite Hn. cbn [mbind option_bind].
    rewrite (Hbefore (S p + d)%nat f n ltac:(lia) Hd Hn), Hs. destruct (Nat.leb_spec (S p + d) B).
    + replace (Z.of_nat p + Z.of_nat (S d)) with (Z.of_nat (S p + d)) by lia.
      eapply IH; try done. lia.
    + exists p, l. split; [done|]. split; [done|]. split; [done|by eauto|]. intros j hj Hj. apply Hlow. lia.
  - exists p, l. split; [done|]. split; [done|]. split; [done|by eauto|].
    intros j hj Hj. eapply link_end; [by symmetry|done|lia].
Qed.

Lemma descend_spec fuel levels p l h :
  ps !! p = Some l → hs !! p = Some h → (levels <= h)%nat → (levels <= zsl_level z)%nat → (p <= B)%nat →
  (B < fuel)%nat →
  ∃ ups, descend fuel m before levels l (Z.of_nat p) = Some ups ∧ length ups = levels ∧
    ∀ i, (i < levels)%nat → ∃ q l', ups !! i = Some (l', Z.of_nat q) ∧ ps !! q = Some l' ∧ is_last hs i B q.
Proof.
  revert p l h. induction levels as [|i IH]; intros p l h Hl Hh Hi Hz Hp Hf; cbn [descend].
  { exists []. split; [done|]. split; [done|]. lia. }
  destruct (walk_level_spec fuel p l i h) as (q & l' & -> & Hl' & Hq); try done; try lia. cbn [mbind option_bind].
  destruct (il_tall _ _ _ _ Hq) as (h' & Hh' & Hi'). pose proof (il_le _ _ _ _ Hq).
  destruct (IH q l' h') as (ups & -> & Hlen & Hups); try done; try lia. cbn [mbind option_bind].
  eexists. split; [done|]. rewrite length_app. cbn [length]. split; [lia|].
  intros j Hj. destruct (decide (j < i)%nat).
  - rewrite lookup_app_l by lia. by apply Hups.
  - exists q, l'. rewrite lookup_app_r by lia. replace (j - length ups)%nat with 0%nat by lia.
    replace j with i by lia. done.
Qed.

(** The search from the header with the fuel of the list. *)
Lemma search_spec :
  ∃ ups u0, descend (zsl_fuel z) m before (zsl_level z) (zsl_header z) 0 = Some ups ∧
    length ups = zsl_level z ∧ ups !! 0%nat = Some (u0, Z.of_nat B) ∧ ps !! B = Some u0 ∧
    ∀ i, (i < zsl_level z)%nat → ∃ q l', ups !! i = Some (l', Z.of_nat q) ∧ ps !! q = Some l' ∧ is_last hs i B q.
Proof.
  pose proof (zr_level _ _ _ _ HR). pose proof (zr_length _ _ _ _ HR) as Hlen.
  destruct (descend_spec (zsl_fuel z) (zsl_level z) 0 (zsl_header z) ZSKIPLIST_MAXLEVEL) as (ups & Hd & Hl & Hu).
  - apply HR.
  - apply HR.
  - lia.
  - lia.
  - lia.
  - unfold zsl_fuel. lia.
  - destruct (Hu 0%nat ltac:(lia)) as (q & u0 & Hq & Hu0 & Hil).
    assert (q = B) as ->.
    { eapply is_last_unique; [done|]. destruct (zr_pos B HB) as (? & h & ? & _ & Hh & _).
      pose proof (zr_heights _ _ _ _ HR _ _ Hh). split; [lia|exists h; split; [done|lia]|lia]. }
    by exists ups, u0.
Qed.

(** The node after position [B]. *)
Lemma next_after u0 : ps !! B = Some u0 → get_level m u0 0 = Some (link_at ps hs B 0) ∧
  lv_forward (link_at ps hs B 0) = ps !! S B.
Proof.
  intros Hu. destruct (zr_pos B HB) as (? & h & ? & ? & Hh & _). simplify_eq.
  pose proof (zr_heights _ _ _ _ HR _ _ Hh). pose proof (zr_level _ _ _ _ HR). split.
  { eapply zr_link; try done; lia. }
  unfold link_at. destruct (drop (S B) hs) as [|h1 hs1] eqn:E.
  - cbn. symmetry. apply lookup_ge_None. rewrite <- (zr_hs _ _ _ _ HR).
    apply (f_equal length) in E. rewrite length_drop in E. cbn in E. lia.
  - assert (hs !! S B = Some h1) as H1.
    { rewrite <- (Nat.add_0_r (S B)), <- lookup_drop, E. done. }
    pose proof (zr_heights _ _ _ _ HR _ _ H1). cbn [gap]. rewrite (proj2 (Nat.ltb_lt _ _)) by lia.
    cbn. by rewrite Nat.add_0_r.
Qed.

End Search.
