(* ===== verification/Zinsert.v ===== *)
(** * Insertion into skiplists

    [zsl_insert] puts an entry at its place in the represented sequence, whatever
    height the coin flips give the new node: the loops over the levels, link by
    link, and the representation of the longer sequence. *)

From Stdlib Require Import Floats.SpecFloat Sorting.Sorted.
From S2P Require Import Prelude Dict CList Zskiplist Zorder Zlinks Zrep.

(** ** The loops over levels, link by link *)

Section Loops.
Implicit Types (m : gmap loc zskiplist_node) (x y h : loc) (ups : list (loc * Z)).

Lemma raise_levels_spec m h len count i :
  (∀ j, (i <= j < i + count)%nat → is_Some (get_level m h j)) →
  ∃ m', raise_levels m h len count i = Some m' ∧ same_fields m m' ∧
    ∀ y j, get_level m' y j =
      if decide (y = h ∧ (i <= j < i + count)%nat)
      then (λ lv, ZLevel (lv_forward lv) len) <$> get_level m y j else get_level m y j.
Proof.
  revert m i. induction count as [|count IH]; intros m i Hh; cbn [raise_levels].
  { exists m. split; [done|]. split; [done|]. intros. rewrite decide_False by lia. done. }
  destruct (Hh i ltac:(lia)) as [lv Hlv]. rewrite Hlv. cbn [mbind option_bind].
  destruct (set_level_spec m h i (ZLevel (lv_forward lv) len) ltac:(eauto)) as (m1 & -> & Hf1 & Hg1).
  cbn [mbind option_bind]. destruct (IH m1 (S i)) as (m2 & -> & Hf2 & Hg2).
  { intros j Hj. rewrite Hg1, decide_False by lia. apply Hh. lia. }
  exists m2. split; [done|]. split; [by etrans|]. intros y j. rewrite Hg2, Hg1.
  destruct (decide (y = h)) as [->|]; [|by rewrite !decide_False by naive_solver].
  destruct (decide (j = i)) as [->|].
  - rewrite decide_False, decide_True, decide_True by lia. by rewrite Hlv.
  - rewrite (decide_False (P := h = h ∧ j = i)) by lia.
    destruct (decide (S i <= j < S i + count)%nat); [rewrite !decide_True by lia|rewrite !decide_False by lia]; done.
Qed.

Lemma splice_levels_spec m ups rank0 x count i :
  (∀ j, (i <= j < i + count)%nat → is_Some (get_level m x j) ∧
     ∃ u q, ups !! j = Some (u, q) ∧ u ≠ x ∧ is_Some (get_level m u j)) →
  ∃ m', splice_levels m ups rank0 x count i = Some m' ∧ same_fields m m' ∧
    (∀ y j, ¬ (i <= j < i + count)%nat → get_level m' y j = get_level m y j) ∧
    ∀ y j u q, (i <= j < i + count)%nat → ups !! j = Some (u, q) → get_level m' y j =
      if decide (y = x) then (λ lv, ZLevel (lv_forward lv) (lv_span lv - (rank0 - q))) <$> get_level m u j
      else if decide (y = u) then Some (ZLevel (Some x) (rank0 - q + 1))
      else get_level m y j.
Proof.
  revert m i. induction count as [|count IH]; intros m i Hh; cbn [splice_levels].
  { exists m. do 3 (split; [done|]). lia. }
  destruct (Hh i ltac:(lia)) as (Hx & u & q & Hu & Hne & [lv Hlv]). rewrite Hu. cbn [mbind option_bind].
  rewrite Hlv. cbn [mbind option_bind].
  destruct (set_level_spec m x i (ZLevel (lv_forward lv) (lv_span lv - (rank0 - q))) Hx) as (m1 & -> & Hf1 & Hg1).
  cbn [mbind option_bind].
  destruct (set_level_spec m1 u i (ZLevel (Some x) (rank0 - q + 1))) as (m2 & -> & Hf2 & Hg2).
  { rewrite Hg1. case_decide; eauto. }
  assert (Hg : ∀ y j, j ≠ i → get_level m2 y j = get_level m y j).
  { intros y j Hj. by rewrite Hg2, decide_False, Hg1, decide_False by tauto. }
  cbn [mbind option_bind]. destruct (IH m2 (S i)) as (m3 & -> & Hf3 & Ho3 & Hg3).
  { intros j Hj. destruct (Hh j ltac:(lia)) as (Hxj & u' & q' & Hu' & Hne' & Huj).
    rewrite Hg by lia. split; [done|]. exists u', q'. do 2 (split; [done|]). by rewrite Hg by lia. }
  exists m3. split; [done|]. split; [by do 2 (etrans; [done|])|]. split.
  { intros y j Hj. by rewrite Ho3, Hg by lia. }
  intros y j u' q' Hj Hu'. destruct (decide (j = i)) as [->|Hji].
  - rewrite Hu in Hu'. injection Hu' as <- <-. rewrite Ho3, Hg2, Hg1, Hlv by lia.
    destruct (decide (y = x)) as [->|].
    + rewrite (decide_False (P := x = u ∧ i = i)), decide_True by intuition congruence. done.
    + rewrite (decide_False (P := y = x ∧ i = i)) by tauto.
      destruct (decide (y = u)); [rewrite decide_True by done|rewrite decide_False by tauto]; done.
  - rewrite (Hg3 y j u' q' ltac:(lia) Hu'), !Hg by done. done.
Qed.

Lemma bump_levels_spec m ups count i :
  (∀ j, (i <= j < i + count)%nat → ∃ u q, ups !! j = Some (u, q) ∧ is_Some (get_level m u j)) →
  ∃ m', bump_levels m ups count i = Some m' ∧ same_fields m m' ∧
    (∀ y j, ¬ (i <= j < i + count)%nat → get_level m' y j = get_level m y j) ∧
    ∀ y j u q, (i <= j < i + count)%nat → ups !! j = Some (u, q) → get_level m' y j =
      if decide (y = u) then (λ lv, ZLevel (lv_forward lv) (lv_span lv + 1)) <$> get_level m y j
      else get_level m y j.
Proof.
  revert m i. induction count as [|count IH]; intros m i Hh; cbn [bump_levels].
  { exists m. do 3 (split; [done|]). lia. }
  destruct (Hh i ltac:(lia)) as (u & q & Hu & [lv Hlv]). rewrite Hu. cbn [mbind option_bind].
  rewrite Hlv. cbn [mbind option_bind].
  destruct (set_level_spec m u i (ZLevel (lv_forward lv) (lv_span lv + 1)) ltac:(eauto)) as (m1 & -> & Hf1 & Hg1).
  assert (Hg : ∀ y j, j ≠ i → get_level m1 y j = get_level m y j).
  { intros y j Hj. by rewrite Hg1, decide_False by tauto. }
  cbn [mbind option_bind]. destruct (IH m1 (S i)) as (m2 & -> & Hf2 & Ho2 & Hg2).
  { intros j Hj. destruct (Hh j ltac:(lia)) as (u' & q' & Hu' & Huj). exists u', q'. split; [done|].
    by rewrite Hg by lia. }
  exists m2. split; [done|]. split; [by etrans|]. split.
  { intros y j Hj. by rewrite Ho2, Hg by lia. }
  intros y j u' q' Hj Hu'. destruct (decide (j = i)) as [->|Hji].
  - rewrite Hu in Hu'. injection Hu' as <- <-. rewrite Ho2, Hg1 by lia.
    destruct (decide (y = u)) as [->|]; [rewrite decide_True by done|rewrite decide_False by tauto; done].
    by rewrite Hlv.
  - by rewrite (Hg2 y j u' q' ltac:(lia) Hu'), !Hg by done.
Qed.

End Loops.

(** ** Insertion *)

(** Raising the list to the level of a taller node. *)
Lemma raise_rep z ps hs es level :
  zsl_rep z ps hs es → (level <= ZSKIPLIST_MAXLEVEL)%nat →
  ∃ m, raise_levels (zsl_nodes z) (zsl_header z) (zsl_length z) (level - zsl_level z) (zsl_level z) = Some m ∧
    zsl_rep (ZSkiplist m (zsl_header z) (zsl_tail z) (zsl_length z) (Nat.max level (zsl_level z)) (zsl_fresh z)) ps hs es.
Proof.
  intros HR Hlv. pose proof (zr_level _ _ _ _ HR) as Hz.
  destruct (raise_levels_spec (zsl_nodes z) (zsl_header z) (zsl_length z) (level - zsl_level z) (zsl_level z))
    as (m & Hm & Hf & Hg).
  { intros j Hj. assert (j < ZSKIPLIST_MAXLEVEL)%nat as Hj' by lia.
    destruct (zr_links _ _ _ _ HR 0 _ _ j (zr_header _ _ _ _ HR) (zr_tall _ _ _ _ HR) Hj') as (lv & -> & _).
    by eexists. }
  exists m. split; [done|]. destruct HR as []. split; cbn [zsl_header zsl_nodes zsl_tail zsl_length zsl_level zsl_fresh];
    try done; try lia.
  - intros p h Hp Hh. pose proof (zr_below _ _ Hp Hh). lia.
  - intros p l h e Hl Hh He. rewrite (Hf l). by apply zr_fields.
  - intros p l h i Hl Hh Hi. destruct (zr_links p l h i Hl Hh Hi) as (lv & Hlvl & Hfw & Heq).
    rewrite Hg, Hlvl. destruct (decide (l = zsl_header z ∧ _)) as [[-> Hr]|Hn]; cbn.
    + assert (p = 0%nat) as -> by (eapply NoDup_lookup; done). eexists. split; [done|]. split; [done|]. intros _.
      rewrite Hfw. cbn. assert (Hnone : gap i (drop 1 hs) = None).
      { destruct (gap i (drop 1 hs)) as [d|] eqn:E; [|done]. apply gap_Some in E as [(h' & Hh' & Hi') _].
        rewrite lookup_drop in Hh'. pose proof (zr_below (1 + d)%nat h' ltac:(lia) Hh'). lia. }
      unfold link_at. rewrite Hnone. cbn. f_equal. rewrite length_drop.
      apply lookup_lt_Some in zr_header. lia.
    + exists lv. split; [done|]. split; [done|]. intros Hi'. apply Heq.
      destruct (decide (p = 0%nat)) as [->|Hp]; [|pose proof (zr_below p h ltac:(lia) Hh); lia].
      simplify_eq. apply not_and_r in Hn as [Hn|Hn]; [done|]. lia.
  - intros l Hl. specialize (Hf l). rewrite (zr_dom l Hl) in Hf. by destruct (m !! l).
Qed.

Section LinkIn.
Context {z ps hs es} (HR : zsl_rep z ps hs es).
Context (B level : nat) (score : double) (member : bytes) (ups : list (loc * Z)).
Hypothesis (HB : (B < length ps)%nat) (Hlevel : (1 <= level <= zsl_level z)%nat).
Hypothesis (Hups : ∀ i, (i < zsl_level z)%nat →
  ∃ q l, ups !! i = Some (l, Z.of_nat q) ∧ ps !! q = Some l ∧ is_last hs i B q).

Let x := zsl_fresh z.
Let m2 := <[x := zsl_create_node level score member]> (zsl_nodes z).

Lemma fresh_new l : l ∈ ps → l ≠ x.
Proof. intros Hl ->. pose proof (zr_fresh _ _ _ _ HR _ Hl). subst x. lia. Qed.

Lemma node_level p l i : ps !! p = Some l → get_level m2 l i = get_level (zsl_nodes z) l i.
Proof.
  intros Hl. unfold get_level, m2. rewrite lookup_insert_ne; [done|].
  apply not_eq_sym, fresh_new. by eapply list_elem_of_lookup_2.
Qed.

Lemma new_level i : (i < level)%nat → get_level m2 x i = Some (ZLevel None 0).
Proof.
  intros Hi. unfold get_level, m2. rewrite lookup_insert_eq. cbn. by apply lookup_replicate_2.
Qed.

(** The links after the two loops: the new node takes over the links it cuts, and
    the links that pass over it cover one more node. *)
Definition relinked (m4 : gmap loc zskiplist_node) : Prop :=
  (∀ y i, (zsl_level z <= i)%nat → get_level m4 y i = get_level m2 y i) ∧
  ∀ y i q u, (i < zsl_level z)%nat → ps !! q = Some u → is_last hs i B q →
    let lk := link_at ps hs q i in
    get_level m4 y i =
      if decide (y = x) then
        if decide (i < level)%nat
        then Some (ZLevel (lv_forward lk) (lv_span lk - (Z.of_nat B - Z.of_nat q)))
        else get_level m2 y i
      else if decide (y = u) then
        if decide (i < level)%nat then Some (ZLevel (Some x) (Z.of_nat B - Z.of_nat q + 1))
        else Some (ZLevel (lv_forward lk) (lv_span lk + 1))
      else get_level m2 y i.

Lemma spliced :
  ∃ m3 m4, splice_levels m2 ups (Z.of_nat B) x level 0 = Some m3 ∧
    bump_levels m3 ups (zsl_level z - level) level = Some m4 ∧ same_fields m2 m4 ∧
    relinked m4.
Proof.
  assert (Hlink : ∀ i q u, (i < zsl_level z)%nat → ps !! q = Some u → is_last hs i B q →
    u ≠ x ∧ get_level m2 u i = Some (link_at ps hs q i)).
  { intros i q u Hi Hu [_ (h & Hh & Hih) _]. split; [apply fresh_new; by eapply list_elem_of_lookup_2|].
    rewrite (node_level q u i Hu). by apply (zr_link HR q u h i). }
  destruct (splice_levels_spec m2 ups (Z.of_nat B) x level 0) as (m3 & Hm3 & Hf3 & Ho3 & Hg3).
  { intros j Hj. split; [rewrite new_level by lia; eauto|].
    destruct (Hups j ltac:(lia)) as (q & u & Hu & Hq & Hl). destruct (Hlink j q u ltac:(lia) Hq Hl) as [Hne Hlk].
    exists u, (Z.of_nat q). rewrite Hlk. eauto. }
  destruct (bump_levels_spec m3 ups (zsl_level z - level) level) as (m4 & Hm4 & Hf4 & Ho4 & Hg4).
  { intros j Hj. destruct (Hups j ltac:(lia)) as (q & u & Hu & Hq & Hl). exists u, (Z.of_nat q). split; [done|].
    rewrite Ho3 by lia. destruct (Hlink j q u ltac:(lia) Hq Hl) as [_ ->]. eauto. }
  exists m3, m4. split; [done|]. split; [done|]. split; [by etrans|]. split.
  { intros y i Hi. by rewrite Ho4, Ho3 by lia. }
  intros y i q u Hi Hu Hl lk. subst lk. destruct (Hups i Hi) as (q' & u' & Hui & Hu' & Hl').
  pose proof (is_last_unique _ _ _ _ _ Hl Hl') as <-. rewrite Hu in Hu'. injection Hu' as <-.
  destruct (Hlink i q u Hi Hu Hl) as [Hne Hlk]. destruct (decide (i < level)%nat) as [Hil|Hil].
  - rewrite Ho4, (Hg3 y i u _ ltac:(lia) Hui), Hlk by lia. by repeat case_decide.
  - rewrite (Hg4 y i u _ ltac:(lia) Hui), Ho3 by lia. destruct (decide (y = x)) as [->|].
    + by rewrite decide_False by congruence.
    + case_decide; subst; [by rewrite Hlk|done].
Qed.

Lemma links_in m4 :
  relinked m4 →
  ∀ p l h i, ins (S B) x ps !! p = Some l → ins (S B) level hs !! p = Some h → (i < h)%nat →
    ∃ lv, get_level m4 l i = Some lv ∧
      lv_forward lv = lv_forward (link_at (ins (S B) x ps) (ins (S B) level hs) p i) ∧
      ((i < zsl_level z)%nat → lv = link_at (ins (S B) x ps) (ins (S B) level hs) p i).
Proof.
  intros [Hhigh Hlow]. pose proof (zr_hs _ _ _ _ HR) as Hlen. set (ps' := ins (S B) x ps). set (hs' := ins (S B) level hs).
  (* the positions of the old nodes *)
  assert (Hold : ∀ p p' l h i, ps !! p = Some l → hs !! p = Some h → (i < h)%nat →
    p' = (if decide (p <= B)%nat then p else S p) →
    ∃ lv, get_level m4 l i = Some lv ∧ lv_forward lv = lv_forward (link_at ps' hs' p' i) ∧
      ((i < zsl_level z)%nat → lv = link_at ps' hs' p' i)).
  { intros p p' l h i Hl Hh Hi ->. pose proof (fresh_new l ltac:(by eapply list_elem_of_lookup_2)) as Hne.
    destruct (decide (i < zsl_level z)%nat) as [Hz|Hz].
    - destruct (Hups i Hz) as (q & u & _ & Hu & Hl').
      rewrite (Hlow l i q u Hz Hu Hl' : get_level m4 l i = _), (node_level p l i Hl), (zr_link HR p l h i Hl Hh Hi Hz), (decide_False (P := l = x)) by done.
      assert (l = u ↔ p = q) as Hpq.
      { split; [|congruence]. intros ->. by eapply NoDup_lookup; [apply (zr_nodup _ _ _ _ HR)|..]. }
      pose proof (il_le _ _ _ _ Hl'). destruct (decide (p <= B)%nat) as [HpB|HpB].
      + destruct (decide (l = u)) as [Hlu|Hlu]; [apply Hpq in Hlu as ->|].
        * destruct (decide (i < level)%nat) as [Hil|Hil]; eexists; (split; [done|]).
          -- unfold ps', hs'. rewrite link_cut by (done || lia). done.
          -- unfold ps', hs'. rewrite link_over by (done || lia). done.
        * eexists. split; [done|]. unfold ps', hs'. rewrite link_before; try (done || lia); [by eauto|].
          intros Hlp. apply Hlu, Hpq. by eapply is_last_unique.
      + rewrite decide_False by (intros ?%Hpq; lia). eexists. split; [done|].
        unfold ps', hs'. rewrite link_after by lia. done.
    - destruct (decide (p = 0%nat)) as [->|Hp]; [|pose proof (zr_below _ _ _ _ HR p h ltac:(lia) Hh); lia].
      rewrite Hhigh, (node_level 0 l i Hl), decide_True by lia.
      destruct (zr_links _ _ _ _ HR 0 l h i Hl Hh Hi) as (lv & -> & Hfw & _). exists lv. split; [done|].
      split; [|lia]. rewrite Hfw. unfold ps', hs'. rewrite link_over; [done|lia..| |lia].
      split; [lia|by eauto|]. intros j hj Hj Hhj. pose proof (zr_below _ _ _ _ HR j hj ltac:(lia) Hhj). lia. }
  intros p l h i. unfold ps', hs'. rewrite !lookup_ins by lia.
  destruct (decide (p < S B)%nat) as [Hp|Hp]; [|destruct (decide (p = S B)) as [->|Hp']].
  - intros Hl Hh Hi. apply (Hold p _ l h i); try done. by rewrite decide_True by lia.
  - intros [= <-] [= <-] Hi. destruct (Hups i ltac:(lia)) as (q & u & _ & Hu & Hl').
    rewrite (Hlow x i q u ltac:(lia) Hu Hl' : get_level m4 x i = _), !decide_True by done. eexists. split; [done|].
    rewrite (link_new ps hs B x level ltac:(lia) ltac:(lia) q i Hl'). done.
  - intros Hl Hh Hi. apply (Hold (p - 1)%nat _ l h i); try done. rewrite decide_False by lia. lia.
Qed.

(** The fields after the backward pointers are set. *)
Lemma back_ins p :
  back (ins (S B) x ps) p =
  if decide (p <= S B)%nat then back ps p else if decide (p = S (S B)) then Some x else back ps (p - 1).
Proof.
  unfold back. destruct p as [|[|p]]; [done..|]. rewrite lookup_ins by lia.
  destruct (decide (S p < S B)%nat); [by rewrite decide_True by lia|].
  rewrite (decide_False (P := (S (S p) <= S B)%nat)) by lia.
  destruct (decide (S p = S B)); [by rewrite decide_True by lia|]. rewrite decide_False by lia.
  destruct p as [|p]; [lia|]. cbn. done.
Qed.

Lemma rep_ins m4 m6 tl :
  relinked m4 → (∀ y j, get_level m6 y j = get_level m4 y j) →
  (∀ y, fields <$> m6 !! y =
     if decide (y = x) then Some ((score, member), back ps (S B), level)
     else if decide (ps !! S B = Some y) then (λ '(e, _, h), (e, Some x, h)) <$> (fields <$> zsl_nodes z !! y)
     else fields <$> zsl_nodes z !! y) →
  tl = back (ins (S B) x ps) (S (length ps)) →
  zsl_rep (ZSkiplist m6 (zsl_header z) tl (zsl_length z + 1) (zsl_level z) (S x))
    (ins (S B) x ps) (ins (S B) level hs) (ins (S B) (score, member) es).
Proof.
  intros Hrl Hg Hf Htl. pose proof (zr_hs _ _ _ _ HR) as Hhs. pose proof (zr_es _ _ _ _ HR) as Hes.
  pose proof (zr_level _ _ _ _ HR) as Hz.
  assert (Hxn : x ∉ ps) by (intros Hx; by eapply fresh_new).
  split; cbn [zsl_header zsl_nodes zsl_tail zsl_length zsl_level zsl_fresh].
  - rewrite !ins_length; lia.
  - rewrite !ins_length; lia.
  - rewrite lookup_ins, decide_True by lia. apply HR.
  - rewrite lookup_ins, decide_True by lia. apply HR.
  - rewrite lookup_ins, decide_True by lia. apply HR.
  - apply NoDup_ins. split; [done|apply HR].
  - done.
  - intros p h. rewrite lookup_ins by lia. repeat case_decide; [apply (zr_heights _ _ _ _ HR)|intros [= <-]; lia|apply (zr_heights _ _ _ _ HR)].
  - intros p h Hp. rewrite lookup_ins by lia.
    repeat case_decide; [by apply (zr_below _ _ _ _ HR)|intros [= <-]; lia|apply (zr_below _ _ _ _ HR); lia].
  - intros p l h e. rewrite !lookup_ins, back_ins by lia.
    assert (Hold : ∀ p l h e, ps !! p = Some l → hs !! p = Some h → es !! p = Some e →
      fields <$> m6 !! l = Some (e, if decide (p = S B) then Some x else back ps p, h)).
    { intros p0 l0 h0 e0 Hl Hh He. rewrite Hf, decide_False by (intros ->; by apply Hxn, list_elem_of_lookup; eauto).
      rewrite (zr_fields _ _ _ _ HR p0 l0 h0 e0) by done. destruct (decide (p0 = S B)) as [->|Hp0].
      - by rewrite decide_True.
      - rewrite decide_False; [done|]. intros Hl'. apply Hp0. eapply NoDup_lookup; [apply (zr_nodup _ _ _ _ HR)|done..]. }
    destruct (decide (p < S B)%nat) as [Hp|Hp]; [|destruct (decide (p = S B)) as [->|Hp']].
    + intros Hl Hh He. rewrite (Hold p l h e), decide_False, decide_True by (done || lia). done.
    + intros [= <-] [= <-] [= <-]. by rewrite Hf, !decide_True by lia.
    + intros Hl Hh He. rewrite (Hold _ l h e) by done. rewrite (decide_False (P := (p <= S B)%nat)) by lia.
      destruct (decide (p = S (S B))) as [->|]; [by rewrite decide_True by lia|by rewrite decide_False by lia].
  - intros p l h i Hl Hh Hi. rewrite Hg. by eapply links_in.
  - intros l. rewrite elem_of_ins. intros Hl. specialize (Hf l).
    rewrite decide_False, (zr_dom _ _ _ _ HR l) in Hf by tauto.
    destruct (m6 !! l); [|done]. by case_decide.
  - intros l. rewrite elem_of_ins. intros [->|Hl]; [lia|].
    pose proof (zr_fresh _ _ _ _ HR l Hl) as Hlt. change (zsl_fresh z) with x in Hlt. lia.
  - rewrite ins_length by lia. done.
  - rewrite ins_length by lia. rewrite (zr_length _ _ _ _ HR). lia.
Qed.

(** The whole insertion below the level search. *)
Lemma link_in u0 :
  length ups = zsl_level z → ups !! 0%nat = Some (u0, Z.of_nat B) → ps !! B = Some u0 →
  ∃ z', ('(u0, rank0) ← ups !! 0%nat;
    m ← splice_levels m2 ups rank0 x level 0;
    m ← bump_levels m ups (zsl_level z - level) level;
    m ← set_backward m x (if decide (u0 = zsl_header z) then None else Some u0);
    lv0 ← get_level m x 0;
    match lv_forward lv0 with
    | Some f =>
        m ← set_backward m f (Some x);
        Some (x, ZSkiplist m (zsl_header z) (zsl_tail z) (zsl_length z + 1) (zsl_level z) (S x))
    | None => Some (x, ZSkiplist m (zsl_header z) (Some x) (zsl_length z + 1) (zsl_level z) (S x))
    end) = Some (x, z') ∧
    zsl_rep z' (ins (S B) x ps) (ins (S B) level hs) (ins (S B) (score, member) es).
Proof.
  intros Hlen H0 Hu0. destruct spliced as (m3 & m4 & Hm3 & Hm4 & Hf4 & Hrl).
  pose proof (zr_level _ _ _ _ HR) as Hz. pose proof (zr_hs _ _ _ _ HR) as Hhs.
  rewrite H0. cbn [mbind option_bind]. rewrite Hm3. cbn [mbind option_bind]. rewrite Hm4. cbn [mbind option_bind].
  assert (Hfx : fields <$> m4 !! x = Some ((score, member), None, level)).
  { rewrite Hf4. unfold m2. rewrite lookup_insert_eq. unfold fields, zsl_create_node, empty_levels. cbn.
    by rewrite length_replicate. }
  assert (Hfo : ∀ y, y ≠ x → fields <$> m4 !! y = fields <$> zsl_nodes z !! y).
  { intros y Hy. rewrite Hf4. unfold m2. by rewrite lookup_insert_ne. }
  destruct (set_backward_spec m4 x (if decide (u0 = zsl_header z) then None else Some u0) _ _ _ Hfx)
    as (m5 & -> & Hf5 & Hg5). cbn [mbind option_bind].
  assert (Hback : (if decide (u0 = zsl_header z) then None else Some u0) = back ps (S B)).
  { pose proof (zr_header _ _ _ _ HR) as Hh. destruct B as [|B']; cbn [back].
    - rewrite decide_True by congruence. done.
    - rewrite decide_False; [done|]. intros ->.
      assert (0%nat = S B') by (eapply NoDup_lookup; [apply (zr_nodup _ _ _ _ HR)|done..]). lia. }
  rewrite Hback in Hf5.
  destruct (next_after HR B HB u0 Hu0) as [_ Hnext].
  destruct (Hups 0%nat ltac:(lia)) as (q & u & Hq & Hu & Hl). rewrite H0 in Hq. injection Hq as <- ?.
  assert (q = B) as -> by lia.
  rewrite Hg5, (proj2 Hrl x 0%nat B u0 ltac:(lia) Hu0 Hl : get_level m4 x 0 = _), !decide_True by lia.
  cbn [mbind option_bind lv_forward]. rewrite Hnext. destruct (ps !! S B) as [f|] eqn:Ef.
  - assert (f ≠ x) as Hfne by (apply fresh_new; by eapply list_elem_of_lookup_2).
    destruct (zr_pos HR (S B)) as (? & hf & ef & ? & Hhf & Hef); [by eapply lookup_lt_Some|]. simplify_eq.
    pose proof (zr_fields _ _ _ _ HR _ _ _ _ Ef Hhf Hef) as Hff.
    destruct (set_backward_spec m5 f (Some x) ef (back ps (S B)) hf) as (m6 & -> & Hf6 & Hg6).
    { by rewrite Hf5, decide_False, Hfo. }
    cbn [mbind option_bind]. eexists. split; [done|]. eapply (rep_ins m4); [done|..].
    + intros y j. by rewrite Hg6, Hg5.
    + intros y. rewrite Hf6, Hf5. destruct (decide (y = x)) as [->|Hy]; [by rewrite decide_False by congruence|].
      destruct (decide (y = f)) as [->|]; [by rewrite decide_True, Hff by done|].
      rewrite decide_False by congruence. by apply Hfo.
    + rewrite (zr_tail _ _ _ _ HR), back_ins. apply lookup_lt_Some in Ef.
      rewrite !decide_False by lia. f_equal. lia.
  - eexists. split; [done|]. eapply (rep_ins m4); [done|..].
    + intros y j. by rewrite Hg5.
    + intros y. rewrite Hf5, Ef. destruct (decide (y = x)); [done|]. rewrite decide_False by done. by apply Hfo.
    + apply lookup_ge_None in Ef. rewrite back_ins, decide_False, decide_True by lia. done.
Qed.

End LinkIn.

(** [zsl_insert] at the position the search finds. *)
Lemma zsl_insert_rep z ps hs es level score member B :
  zsl_rep z ps hs es → (1 <= level <= ZSKIPLIST_MAXLEVEL)%nat → (B < length ps)%nat →
  (∀ p l n, (0 < p)%nat → ps !! p = Some l → zsl_nodes z !! l = Some n →
     node_before score member n = (p <=? B)%nat) →
  ∃ z', zsl_insert z level score member = Some (zsl_fresh z, z') ∧
    zsl_rep z' (ins (S B) (zsl_fresh z) ps) (ins (S B) level hs) (ins (S B) (score, member) es).
Proof.
  intros HR Hlv HB Hb. destruct (search_spec HR _ B HB Hb) as (ups & u0 & Hd & Hlen & H0 & Hu0 & Hups).
  destruct (raise_rep _ _ _ _ level HR ltac:(lia)) as (m1 & Hm1 & HR1).
  pose proof (zr_level _ _ _ _ HR) as Hz.
  set (ups1 := ups ++ replicate (level - zsl_level z) (zsl_header z, 0)).
  destruct (link_in HR1 B level score member ups1) with (u0 := u0) as (z' & Hz' & HR').
  - done.
  - cbn. lia.
  - cbn [zsl_level]. intros i Hi. unfold ups1. destruct (decide (i < zsl_level z)%nat) as [Hi'|Hi'].
    + destruct (Hups i Hi') as (q & l & Hq & Hl & Hil). exists q, l. by rewrite lookup_app_l by lia.
    + exists 0%nat, (zsl_header z). rewrite lookup_app_r by lia. rewrite lookup_replicate_2 by lia.
      split; [done|]. split; [apply HR|]. pose proof (zr_tall _ _ _ _ HR) as Ht.
      split; [lia|exists ZSKIPLIST_MAXLEVEL; split; [done|lia]|]. intros j h Hj Hh.
      pose proof (zr_below _ _ _ _ HR j h ltac:(lia) Hh). lia.
  - cbn. unfold ups1. rewrite length_app, length_replicate. lia.
  - unfold ups1. rewrite lookup_app_l by lia. done.
  - done.
  - exists z'. split; [|exact HR']. unfold zsl_insert. rewrite Hd. cbn [mbind option_bind].
    rewrite Hm1. exact Hz'.
Qed.
