(* ===== verification/Zdelete.v ===== *)
(** * Deletion from skiplists

    [zsl_delete_node] unlinks a node at every level, repairs the spans, the
    backward pointers and the level of the list, and frees it: the representation
    of the shorter sequence. *)

From Stdlib Require Import Floats.SpecFloat Sorting.Sorted.
From S2P Require Import Prelude Dict CList Zskiplist Zorder Zlinks Zrep.

(** ** The loops *)

Lemma unsplice_levels_spec m ups x count i :
  (∀ j, (i <= j < i + count)%nat → ∃ u q lu, ups !! j = Some (u, q) ∧ u ≠ x ∧ get_level m u j = Some lu ∧
     (lv_forward lu = Some x → is_Some (get_level m x j))) →
  ∃ m', unsplice_levels m ups x count i = Some m' ∧ same_fields m m' ∧
    (∀ y j, ¬ (i <= j < i + count)%nat → get_level m' y j = get_level m y j) ∧
    ∀ y j u q lu, (i <= j < i + count)%nat → ups !! j = Some (u, q) → get_level m u j = Some lu →
      get_level m' y j =
        if decide (y = u) then
          if decide (lv_forward lu = Some x)
          then (λ lx, ZLevel (lv_forward lx) (lv_span lu + (lv_span lx - 1))) <$> get_level m x j
          else Some (ZLevel (lv_forward lu) (lv_span lu - 1))
        else get_level m y j.
Proof.
  revert m i. induction count as [|count IH]; intros m i Hh; cbn [unsplice_levels].
  { exists m. do 3 (split; [done|]). lia. }
  destruct (Hh i ltac:(lia)) as (u & q & lu & Hu & Hne & Hlu & Hx). rewrite Hu. cbn [mbind option_bind].
  rewrite Hlu. cbn [mbind option_bind].
  assert (∃ m1, (if decide (lv_forward lu = Some x)
      then lx ← get_level m x i; set_level m u i (ZLevel (lv_forward lx) (lv_span lu + (lv_span lx - 1)))
      else set_level m u i (ZLevel (lv_forward lu) (lv_span lu - 1))) = Some m1 ∧ same_fields m m1 ∧
    ∀ y j, get_level m1 y j = if decide (y = u ∧ j = i) then
        if decide (lv_forward lu = Some x)
        then (λ lx, ZLevel (lv_forward lx) (lv_span lu + (lv_span lx - 1))) <$> get_level m x i
        else Some (ZLevel (lv_forward lu) (lv_span lu - 1))
      else get_level m y j) as (m1 & -> & Hf1 & Hg1).
  { destruct (decide (lv_forward lu = Some x)) as [Hfw|Hfw].
    - destruct (Hx Hfw) as [lx ->]. cbn [mbind option_bind fmap option_fmap option_map]. apply set_level_spec. eauto.
    - apply set_level_spec. eauto. }
  assert (Hg : ∀ y j, j ≠ i → get_level m1 y j = get_level m y j).
  { intros y j Hj. by rewrite Hg1, decide_False by tauto. }
  cbn [mbind option_bind]. destruct (IH m1 (S i)) as (m2 & -> & Hf2 & Ho2 & Hg2).
  { intros j Hj. destruct (Hh j ltac:(lia)) as (u' & q' & lu' & Hu' & Hne' & Hlu' & Hx').
    exists u', q', lu'. by rewrite !Hg by lia. }
  exists m2. split; [done|]. split; [by etrans|]. split.
  { intros y j Hj. by rewrite Ho2, Hg by lia. }
  intros y j u' q' lu' Hj Hu' Hlu'. destruct (decide (j = i)) as [->|Hji].
  - rewrite Hu in Hu'. injection Hu' as <- <-. rewrite Hlu in Hlu'. injection Hlu' as <-. rewrite Ho2, Hg1 by lia.
    destruct (decide (y = u)); [by rewrite decide_True by done|by rewrite decide_False by tauto].
  - rewrite (Hg2 y j u' q' lu' ltac:(lia) Hu'), !Hg by (rewrite ?Hg by done; done). done.
Qed.

Lemma lower_level_spec m h level :
  (1 <= level)%nat → (∀ i, (i < level)%nat → is_Some (get_level m h i)) →
  ∃ level', lower_level m h level = Some level' ∧ (1 <= level' <= level)%nat ∧
    ∀ i lv, (level' <= i < level)%nat → get_level m h i = Some lv → lv_forward lv = None.
Proof.
  induction level as [|[|l] IH]; intros Hl Hh; [lia|exists 1%nat; do 2 (split; [done || lia|]); intros; lia|].
  change (lower_level m h (S (S l))) with
    (lv ← get_level m h (S l); match lv_forward lv with None => lower_level m h (S l) | Some _ => Some (S (S l)) end).
  destruct (Hh (S l) ltac:(lia)) as [lv Hlv]. rewrite Hlv. cbn [mbind option_bind].
  destruct (lv_forward lv) eqn:E; [exists (S (S l)); do 2 (split; [done || lia|]); intros; lia|].
  destruct IH as (level' & -> & Hb & Hn); [lia|intros; apply Hh; lia|]. exists level'. split; [done|]. split; [lia|].
  intros i lv' Hi. destruct (decide (i = S l)) as [->|]; [congruence|]. apply Hn. lia.
Qed.

Lemma ins_delete {A} (s : list A) j x : s !! j = Some x → ins j x (delete j s) = s.
Proof.
  intros Hj. pose proof (lookup_lt_Some _ _ _ Hj). apply list_eq. intros i.
  rewrite lookup_ins by (rewrite length_delete by eauto; lia). rewrite !lookup_delete_list.
  repeat case_decide; subst; try done; try lia. f_equal. lia.
Qed.

Section Unlink.
Context {z ps hs es} (HR : zsl_rep z ps hs es).
Context (B : nat) (x : loc) (hx : nat) (ups : list (loc * Z)).
Hypothesis (Hx : ps !! S B = Some x) (Hhx : hs !! S B = Some hx).
Hypothesis (Hups : ∀ i, (i < zsl_level z)%nat →
  ∃ q l, ups !! i = Some (l, Z.of_nat q) ∧ ps !! q = Some l ∧ is_last hs i B q).

Let ps0 := delete (S B) ps.
Let hs0 := delete (S B) hs.

Lemma ps0_ins : ps = ins (S B) x ps0.
Proof. symmetry. by apply ins_delete. Qed.
Lemma hs0_ins : hs = ins (S B) hx hs0.
Proof. symmetry. by apply ins_delete. Qed.
Lemma ps0_length : length ps = S (length ps0).
Proof. pose proof (lookup_lt_Some _ _ _ Hx). unfold ps0. rewrite length_delete by eauto. lia. Qed.
Lemma hs0_length : length hs0 = length ps0.
Proof.
  pose proof ps0_length. pose proof (lookup_lt_Some _ _ _ Hhx). pose proof (zr_hs _ _ _ _ HR).
  unfold hs0. rewrite length_delete by eauto. lia.
Qed.
Lemma x_not_in : x ∉ ps0.
Proof. pose proof (zr_nodup _ _ _ _ HR) as Hnd. rewrite ps0_ins in Hnd. by apply NoDup_ins in Hnd as [? _]. Qed.

(** Where a remaining node was. *)
Definition old_pos (p : nat) : nat := if decide (p <= B)%nat then p else S p.
Lemma ps0_lookup p : ps0 !! p = ps !! old_pos p.
Proof. unfold ps0, old_pos. rewrite lookup_delete_list. repeat case_decide; done || lia. Qed.
Lemma hs0_lookup p : hs0 !! p = hs !! old_pos p.
Proof. unfold hs0, old_pos. rewrite lookup_delete_list. repeat case_decide; done || lia. Qed.

(** The links of the shortened list, by level. *)
Lemma is_last0 i q : is_last hs i B q ↔ is_last hs0 i B q.
Proof.
  pose proof (lookup_lt_Some _ _ _ Hx). pose proof ps0_length. pose proof hs0_length.
  rewrite hs0_ins at 1. apply (is_last_ins ps0); lia.
Qed.

(** The link that reaches or passes the removed node. *)
Lemma unlinked_link q i :
  is_last hs i B q →
  let lu := link_at ps hs q i in
  let lx := link_at ps hs (S B) i in
  if decide (i < hx)%nat then
    lv_forward lu = Some x ∧ link_at ps0 hs0 q i = ZLevel (lv_forward lx) (lv_span lu + (lv_span lx - 1))
  else lv_forward lu ≠ Some x ∧ link_at ps0 hs0 q i = ZLevel (lv_forward lu) (lv_span lu - 1).
Proof.
  intros Hlast lu lx. subst lu lx. pose proof (lookup_lt_Some _ _ _ Hx) as HB. pose proof ps0_length as Hpl.
  pose proof hs0_length as Hhl. pose proof (proj1 (is_last0 i q) Hlast) as Hlast0.
  destruct (decide (i < hx)%nat) as [Hix|Hix].
  - rewrite ps0_ins, hs0_ins.
    rewrite (link_cut ps0 hs0 B x hx ltac:(lia) ltac:(lia) q i Hlast0 Hix).
    rewrite (link_new ps0 hs0 B x hx ltac:(lia) ltac:(lia) q i Hlast0). cbn [lv_forward lv_span].
    split; [done|]. destruct (link_at ps0 hs0 q i) as [fw sp]. cbn [lv_forward lv_span]. f_equal. lia.
  - assert (Hover : link_at ps hs q i =
      ZLevel (lv_forward (link_at ps0 hs0 q i)) (lv_span (link_at ps0 hs0 q i) + 1)).
    { rewrite ps0_ins at 1. rewrite hs0_ins at 1. apply link_over; done || lia. }
    rewrite Hover. cbn [lv_forward lv_span]. split.
    + intros Hf. destruct (link_forward _ _ _ _ _ Hf) as (d & Hd & _). by eapply x_not_in, list_elem_of_lookup_2.
    + destruct (link_at ps0 hs0 q i) as [fw sp]. cbn. f_equal. lia.
Qed.

(** The other links of the remaining nodes. *)
Lemma kept_link p h i :
  hs !! old_pos p = Some h → (i < h)%nat → ¬ is_last hs i B (old_pos p) →
  link_at ps hs (old_pos p) i = link_at ps0 hs0 p i.
Proof.
  pose proof (lookup_lt_Some _ _ _ Hx) as HB. pose proof ps0_length as Hpl. pose proof hs0_length as Hhl.
  intros Hh Hi Hnl. rewrite is_last0 in Hnl. rewrite <- hs0_lookup in Hh. rewrite ps0_ins at 1. rewrite hs0_ins at 1.
  unfold old_pos in *. destruct (decide (p <= B)%nat); [apply link_before; [lia..|by eauto|done]|apply link_after; lia].
Qed.

Definition unlinked (m' : gmap loc zskiplist_node) : Prop :=
  (∀ y j, (zsl_level z <= j)%nat → get_level m' y j = get_level (zsl_nodes z) y j) ∧
  ∀ y j u q lu, (j < zsl_level z)%nat → ups !! j = Some (u, q) → get_level (zsl_nodes z) u j = Some lu →
    get_level m' y j =
      if decide (y = u) then
        if decide (lv_forward lu = Some x)
        then (λ lx, ZLevel (lv_forward lx) (lv_span lu + (lv_span lx - 1))) <$> get_level (zsl_nodes z) x j
        else Some (ZLevel (lv_forward lu) (lv_span lu - 1))
      else get_level (zsl_nodes z) y j.

Lemma links_out m' p l h i :
  unlinked m' → ps0 !! p = Some l → hs0 !! p = Some h → (i < h)%nat →
  ∃ lv, get_level m' l i = Some lv ∧ lv_forward lv = lv_forward (link_at ps0 hs0 p i) ∧
    ((i < zsl_level z)%nat → lv = link_at ps0 hs0 p i).
Proof.
  intros [Hhigh Hlow] Hl Hh Hi. rewrite ps0_lookup in Hl. rewrite hs0_lookup in Hh.
  destruct (decide (i < zsl_level z)%nat) as [Hiz|Hiz].
  - destruct (Hups i Hiz) as (q & u & Hui & Hu & Hlast). destruct (il_tall _ _ _ _ Hlast) as (hq & Hhq & Hiq).
    pose proof (il_le _ _ _ _ Hlast).
    rewrite (Hlow l i u _ _ Hiz Hui (zr_link HR q u hq i Hu Hhq Hiq Hiz)), (zr_link HR _ l h i Hl Hh Hi Hiz).
    pose proof (unlinked_link q i Hlast) as Hul. destruct (decide (l = u)) as [->|Hlu].
    + assert (old_pos p = q) as E by (by eapply NoDup_lookup; [apply (zr_nodup _ _ _ _ HR)|..]).
      assert (p = q) as -> by (unfold old_pos in E; case_decide; lia). destruct (decide (i < hx)%nat) as [Hix|Hix].
      * destruct Hul as [Hfw ->]. rewrite (decide_True _ _ Hfw), (zr_link HR (S B) x hx i Hx Hhx Hix Hiz). eauto.
      * destruct Hul as [Hfw ->]. rewrite (decide_False _ _ Hfw). eauto.
    + rewrite (kept_link p h i Hh Hi); [by eauto|]. intros Hlp. apply Hlu.
      pose proof (is_last_unique _ _ _ _ _ Hlp Hlast). congruence.
  - destruct (decide (p = 0%nat)) as [->|Hp].
    2:{ pose proof (zr_below _ _ _ _ HR (old_pos p) h ltac:(unfold old_pos; case_decide; lia) Hh). lia. }
    rewrite Hhigh by lia. unfold old_pos in *. rewrite decide_True in Hl, Hh by lia.
    destruct (zr_links _ _ _ _ HR 0 l h i Hl Hh Hi) as (lv & -> & Hfw & _). exists lv. split; [done|]. split; [|lia].
    assert (Hlast : is_last hs i B 0).
    { split; [lia|by eauto|]. intros j hj Hj Hhj. pose proof (zr_below _ _ _ _ HR j hj ltac:(lia) Hhj). lia. }
    pose proof (unlinked_link 0 i Hlast) as Hul.
    pose proof (zr_below _ _ _ _ HR (S B) hx ltac:(lia) Hhx). rewrite decide_False in Hul by lia.
    destruct Hul as [_ ->]. done.
Qed.

(** The unlinking loop runs and leaves everything else as it was. *)
Lemma unspliced :
  ∃ m1, unsplice_levels (zsl_nodes z) ups x (zsl_level z) 0 = Some m1 ∧ same_fields (zsl_nodes z) m1 ∧
    unlinked m1 ∧ get_level m1 x 0 = Some (link_at ps hs (S B) 0).
Proof.
  pose proof (zr_level _ _ _ _ HR) as Hz. pose proof (zr_heights _ _ _ _ HR _ _ Hhx) as Hh1.
  assert (Hin : ∀ i, (i < zsl_level z)%nat → ∃ q u, ups !! i = Some (u, Z.of_nat q) ∧ u ≠ x ∧
    get_level (zsl_nodes z) u i = Some (link_at ps hs q i) ∧
    (lv_forward (link_at ps hs q i) = Some x → is_Some (get_level (zsl_nodes z) x i))).
  { intros i Hi. destruct (Hups i Hi) as (q & u & Hui & Hu & Hl). destruct (il_tall _ _ _ _ Hl) as (h & Hh & Hih).
    exists q, u. split; [done|]. split.
    { intros ->. assert (q = S B) by (eapply NoDup_lookup; [apply (zr_nodup _ _ _ _ HR)|done..]).
      pose proof (il_le _ _ _ _ Hl). lia. }
    split; [by apply (zr_link HR q u h i)|]. intros Hfw.
    pose proof (unlinked_link q i Hl) as Hul. destruct (decide (i < hx)%nat) as [Hix|]; [|by destruct Hul].
    rewrite (zr_link HR (S B) x hx i) by done. eauto. }
  destruct (unsplice_levels_spec (zsl_nodes z) ups x (zsl_level z) 0) as (m1 & Hm1 & Hf1 & Ho1 & Hg1).
  { intros j Hj. destruct (Hin j ltac:(lia)) as (q & u & ? & ? & ? & ?). by exists u, (Z.of_nat q), (link_at ps hs q j). }
  exists m1. split; [done|]. split; [done|]. split.
  { split; [intros y j Hj; apply Ho1; lia|]. intros y j u q lu Hj. apply Hg1. lia. }
  destruct (Hin 0%nat ltac:(lia)) as (q & u & Hu & Hne & Hlu & _).
  rewrite (Hg1 x 0%nat u _ _ ltac:(lia) Hu Hlu), decide_False by done. eapply (zr_link HR); try done; lia.
Qed.

End Unlink.

(** The list without the node at position [S B]. *)
Lemma rep_delete z ps hs es B x hx m6 tl level' :
  zsl_rep z ps hs es → ps !! S B = Some x → hs !! S B = Some hx →
  (1 <= level' <= zsl_level z)%nat →
  (∀ p h, (0 < p)%nat → delete (S B) hs !! p = Some h → (h <= level')%nat) →
  (∀ p l h i, delete (S B) ps !! p = Some l → delete (S B) hs !! p = Some h → (i < h)%nat →
     ∃ lv, get_level m6 l i = Some lv ∧ lv_forward lv = lv_forward (link_at (delete (S B) ps) (delete (S B) hs) p i) ∧
       ((i < level')%nat → lv = link_at (delete (S B) ps) (delete (S B) hs) p i)) →
  (∀ y, fields <$> m6 !! y =
     if decide (y = x) then None
     else if decide (ps !! S (S B) = Some y) then (λ '(e, _, h), (e, back ps (S B), h)) <$> (fields <$> zsl_nodes z !! y)
     else fields <$> zsl_nodes z !! y) →
  tl = back (delete (S B) ps) (length ps - 1) →
  zsl_rep (ZSkiplist m6 (zsl_header z) tl (zsl_length z - 1) level' (zsl_fresh z))
    (delete (S B) ps) (delete (S B) hs) (delete (S B) es).
Proof.
  intros HR Hx Hhx Hlv Hbelow Hlinks Hf Htl. pose proof (zr_hs _ _ _ _ HR) as Hhs. pose proof (zr_es _ _ _ _ HR) as Hes.
  pose proof (lookup_lt_Some _ _ _ Hx) as HB. pose proof (zr_level _ _ _ _ HR) as Hz.
  pose proof (zr_nodup _ _ _ _ HR) as Hnd.
  assert (Hsub : ∀ l, l ∈ delete (S B) ps ↔ l ∈ ps ∧ l ≠ x).
  { intros l. pose proof Hnd as Hnd'. rewrite <- (ins_delete ps (S B) x Hx) in Hnd' at 1. apply NoDup_ins in Hnd' as [Hxn _].
    rewrite <- (ins_delete ps (S B) x Hx) at 2. rewrite elem_of_ins. split; [|tauto]. intros Hl. split; [by right|].
    by intros ->. }
  split; cbn [zsl_header zsl_nodes zsl_tail zsl_length zsl_level zsl_fresh].
  - rewrite !length_delete by (apply lookup_lt_is_Some_2; lia). lia.
  - rewrite !length_delete by (apply lookup_lt_is_Some_2; lia). lia.
  - rewrite lookup_delete_list, decide_True by lia. apply HR.
  - rewrite lookup_delete_list, decide_True by lia. apply HR.
  - rewrite lookup_delete_list, decide_True by lia. apply HR.
  - rewrite <- (ins_delete ps (S B) x Hx) in Hnd at 1. by apply NoDup_ins in Hnd as [_ ?].
  - lia.
  - intros p h. rewrite lookup_delete_list. case_decide; apply (zr_heights _ _ _ _ HR).
  - done.
  - intros p l h e Hl Hh He. assert (l ≠ x) as Hlx by (by apply (Hsub l), list_elem_of_lookup; eauto).
    rewrite Hf, decide_False by done. rewrite lookup_delete_list in Hl, Hh. rewrite lookup_delete_list in He.
    assert (Hb : back (delete (S B) ps) p = if decide (p <= S B)%nat then back ps p else back ps (S p)).
    { destruct p as [|[|p]]; [done|by rewrite decide_True by lia|]. cbn [back]. rewrite lookup_delete_list.
      repeat case_decide; done || lia. }
    rewrite Hb. destruct (decide (p < S B)%nat) as [Hp|Hp].
    + rewrite (zr_fields _ _ _ _ HR p l h e Hl Hh He), decide_False, decide_True; [done|lia|].
      intros Hl'. assert (p = S (S B)) by (by eapply NoDup_lookup). lia.
    + rewrite (zr_fields _ _ _ _ HR (S p) l h e Hl Hh He). destruct (decide (p = S B)) as [->|Hp'].
      * rewrite !decide_True by done. done.
      * rewrite decide_False, decide_False; [done|lia|]. intros Hl'.
        assert (S p = S (S B)) by (by eapply NoDup_lookup). lia.
  - done.
  - intros l Hl. specialize (Hf l). destruct (decide (l = x)) as [->|Hlx]; [by destruct (m6 !! x)|].
    rewrite (zr_dom _ _ _ _ HR l) in Hf by (intros ?; apply Hl, Hsub; done).
    destruct (m6 !! l); [|done]. by case_decide.
  - intros l [Hl _]%Hsub. by apply (zr_fresh _ _ _ _ HR).
  - rewrite length_delete by eauto. done.
  - rewrite length_delete by eauto. rewrite (zr_length _ _ _ _ HR). lia.
Qed.

(** Lowering the level and freeing the node once it is unlinked. *)
Lemma delete_finish z ps hs es B x hx m1 m2 tl :
  zsl_rep z ps hs es → ps !! S B = Some x → hs !! S B = Some hx →
  (∀ p l h i, delete (S B) ps !! p = Some l → delete (S B) hs !! p = Some h → (i < h)%nat →
     ∃ lv, get_level m1 l i = Some lv ∧ lv_forward lv = lv_forward (link_at (delete (S B) ps) (delete (S B) hs) p i) ∧
       ((i < zsl_level z)%nat → lv = link_at (delete (S B) ps) (delete (S B) hs) p i)) →
  (∀ y j, get_level m2 y j = get_level m1 y j) →
  (∀ y, y ≠ x → fields <$> m2 !! y =
     if decide (ps !! S (S B) = Some y) then (λ '(e, _, h), (e, back ps (S B), h)) <$> (fields <$> zsl_nodes z !! y)
     else fields <$> zsl_nodes z !! y) →
  tl = back (delete (S B) ps) (length ps - 1) →
  ∃ level', lower_level m2 (zsl_header z) (zsl_level z) = Some level' ∧
    zsl_rep (ZSkiplist (delete x m2) (zsl_header z) tl (zsl_length z - 1) level' (zsl_fresh z))
      (delete (S B) ps) (delete (S B) hs) (delete (S B) es).
Proof.
  intros HR Hx Hhx Hlinks Hg Hf Htl. pose proof (zr_level _ _ _ _ HR) as Hz. pose proof (lookup_lt_Some _ _ _ Hx) as HB.
  pose proof (zr_hs _ _ _ _ HR) as Hhs.
  assert (Hh0 : delete (S B) ps !! 0%nat = Some (zsl_header z)).
  { rewrite lookup_delete_list, decide_True by lia. apply HR. }
  assert (Ht0 : delete (S B) hs !! 0%nat = Some ZSKIPLIST_MAXLEVEL).
  { rewrite lookup_delete_list, decide_True by lia. apply HR. }
  destruct (lower_level_spec m2 (zsl_header z) (zsl_level z)) as (level' & Hlow & Hlv & Hnone); [lia|..].
  { intros i Hi. rewrite Hg. destruct (Hlinks 0%nat _ _ i Hh0 Ht0 ltac:(lia)) as (lv & -> & _). eauto. }
  exists level'. split; [done|]. eapply (rep_delete z ps hs es B x hx); try done.
  - intros p h Hp Hh. destruct (decide (level' = zsl_level z)) as [->|Hne].
    { rewrite lookup_delete_list in Hh. case_decide;
      [by apply (zr_below _ _ _ _ HR p)|apply (zr_below _ _ _ _ HR (S p)); [lia|done]]. }
    destruct (Hlinks 0%nat _ _ level' Hh0 Ht0 ltac:(lia)) as (lv & Hlv0 & Hfw & _).
    rewrite (Hnone level' lv ltac:(lia)) in Hfw by (by rewrite Hg).
    eapply (link_end (delete (S B) ps)); [|by symmetry|exact Hp|exact Hh].
    rewrite !length_delete by (apply lookup_lt_is_Some_2; lia). lia.
  - intros p l h i Hl Hh Hi. destruct (Hlinks p l h i Hl Hh Hi) as (lv & Hlvl & Hfw & Heq).
    exists lv. split.
    { assert (l ≠ x) as Hne.
      { intros ->. pose proof (zr_nodup _ _ _ _ HR) as Hnd. rewrite <- (ins_delete ps (S B) x Hx) in Hnd.
        apply NoDup_ins in Hnd as [Hxn _]. by eapply Hxn, list_elem_of_lookup_2. }
      rewrite <- Hlvl, <- Hg. unfold get_level. by rewrite lookup_delete_ne. }
    split; [done|]. intros. apply Heq. lia.
  - intros y. destruct (decide (y = x)) as [->|Hne]; [by rewrite lookup_delete_eq|].
    rewrite lookup_delete_ne by done. by apply Hf.
Qed.

(** [zsl_delete_node] for the node at position [S B]. *)
Lemma zsl_delete_node_rep z ps hs es B x ups :
  zsl_rep z ps hs es → ps !! S B = Some x →
  (∀ i, (i < zsl_level z)%nat → ∃ q l, ups !! i = Some (l, Z.of_nat q) ∧ ps !! q = Some l ∧ is_last hs i B q) →
  ∃ z', zsl_delete_node z x ups = Some z' ∧
    zsl_rep z' (delete (S B) ps) (delete (S B) hs) (delete (S B) es) ∧ zsl_fresh z' = zsl_fresh z.
Proof.
  intros HR Hx Hups. pose proof (zr_hs _ _ _ _ HR) as Hhs. pose proof (zr_level _ _ _ _ HR) as Hz.
  pose proof (lookup_lt_Some _ _ _ Hx) as HB.
  destruct (zr_pos HR (S B) HB) as (? & hx & ex & ? & Hhx & Hex). simplify_eq.
  destruct (unspliced HR B x hx ups Hx Hhx Hups) as (m1 & Hm1 & Hf1 & Hul & Hlx0).
  unfold zsl_delete_node. rewrite Hm1. cbn [mbind option_bind].
  pose proof (zr_fields _ _ _ _ HR _ _ _ _ Hx Hhx Hex) as Hnx. rewrite <- Hf1 in Hnx.
  destruct (next_after HR (S B) HB x Hx) as [_ Hnext].
  destruct (m1 !! x) as [nx|] eqn:Enx; [|done]. injection Hnx as _ Hbk _.
  unfold get_level in Hlx0. rewrite Enx in Hlx0. cbn [mbind option_bind] in Hlx0 |- *. rewrite Hlx0.
  cbn [mbind option_bind]. rewrite Hnext, Hbk.
  change (match B with 0%nat => None | S q => ps !! S q end) with (back ps (S B)).
  assert (Hlinks := λ p l h i, links_out HR B x hx ups Hx Hhx Hups m1 p l h i Hul).
  destruct (ps !! S (S B)) as [f|] eqn:Ef.
  - destruct (zr_pos HR (S (S B))) as (? & hf & ef & ? & Hhf & Hef); [by eapply lookup_lt_Some|]. simplify_eq.
    pose proof (zr_fields _ _ _ _ HR _ _ _ _ Ef Hhf Hef) as Hff.
    destruct (set_backward_spec m1 f (back ps (S B)) ef (back ps (S (S B))) hf) as (m2 & -> & Hf2 & Hg2).
    { by rewrite Hf1. }
    cbn [mbind option_bind].
    destruct (delete_finish z ps hs es B x hx m1 m2 (zsl_tail z) HR Hx Hhx Hlinks Hg2) as (level' & -> & HR').
    + intros y Hy. rewrite Hf2, Ef. destruct (decide (y = f)) as [->|Hyf].
      * by rewrite decide_True, Hff.
      * rewrite decide_False by congruence. apply Hf1.
    + rewrite (zr_tail _ _ _ _ HR). apply lookup_lt_Some in Ef.
      destruct (length ps) as [|[|[|n]]] eqn:El; [lia..|]. cbn [back Nat.sub]. rewrite lookup_delete_list.
      rewrite decide_False by lia. done.
    + eexists. split; [done|]. by split.
  - cbn [mbind option_bind].
    destruct (delete_finish z ps hs es B x hx m1 m1 (back ps (S B)) HR Hx Hhx Hlinks ltac:(done)) as (level' & -> & HR').
    + intros y Hy. rewrite Ef, decide_False by done. apply Hf1.
    + apply lookup_ge_None in Ef. replace (length ps - 1)%nat with (S B) by lia. destruct B as [|B']; [done|].
      cbn [back]. by rewrite lookup_delete_list, decide_True by lia.
    + eexists. split; [done|]. by split.
Qed.
