(* ===== verification/Zset.v ===== *)
(** * Sorted sets refine sorted sequences

    The operations of [src/zskiplist.c] on a skiplist and on a whole sorted set
    (skiplist and member index), specified on the sequence of (score, member)
    entries in ascending order: add or change a score, remove, score of a member,
    rank, entry at a rank, first and last entry of a score range. *)

From Stdlib Require Import Floats.SpecFloat Sorting.Sorted.
From S2P Require Import Prelude Dict CList Zskiplist Zorder Zlinks Zrep Zinsert Zdelete.

(** ** Sorted sequences *)

(** The length of the longest prefix that satisfies [f]. *)
Fixpoint zpos (f : zentry → bool) (xs : list zentry) : nat :=
  match xs with
  | [] => 0%nat
  | x :: xs => if f x then S (zpos f xs) else 0%nat
  end.

Definition before (e : zentry) : zentry → bool := λ y, entry_ltb y e.
Definition zins (e : zentry) (xs : list zentry) : list zentry := ins (zpos (before e) xs) e xs.

(** [f] selects a prefix of every sorted sequence. *)
Definition downward (f : zentry → bool) : Prop :=
  ∀ a b, zvalid a → zvalid b → entry_lt a b → f b = true → f a = true.

Definition sorted (xs : list zentry) : Prop := StronglySorted entry_lt xs ∧ Forall zvalid xs.

Lemma zpos_le f xs : (zpos f xs <= length xs)%nat.
Proof. induction xs as [|x xs IH]; cbn; [lia|]. case_match; lia. Qed.

Lemma zpos_spec f xs p e : downward f → sorted xs → xs !! p = Some e → f e = (p <? zpos f xs)%nat.
Proof.
  intros Hf [Hs Hv]. revert p. induction xs as [|x xs IH]; intros p; [done|].
  inversion Hs as [|? ? Hs' Hlt]; subst. apply Forall_cons in Hv as [Hx Hv]. cbn [zpos].
  destruct p as [|p]; cbn [lookup list_lookup].
  - intros [= ->]. destruct (f e) eqn:E; [done|done].
  - intros Hp. destruct (f x) eqn:E; [by apply IH|]. rewrite Forall_forall in Hlt, Hv.
    assert (e ∈ xs) as He by (by eapply list_elem_of_lookup_2).
    destruct (f e) eqn:Ee; [|done]. by rewrite (Hf x e Hx (Hv e He) (Hlt e He) Ee) in E.
Qed.

Lemma downward_before e : zvalid e → downward (before e).
Proof.
  intros He a b Ha Hb Hab. unfold before. rewrite !entry_ltb_lt by done. intros. by etrans.
Qed.

Lemma sorted_delete xs j : sorted xs → sorted (delete j xs).
Proof.
  intros [Hs Hv]. split; [|by apply Forall_delete]. clear Hv. revert j. induction Hs as [|x xs Hs IH Hlt]; intros [|j]; cbn; auto.
  - constructor.
  - constructor.
  - constructor; [apply IH|]. by apply Forall_delete.
Qed.

Lemma sorted_index xs i j a b : sorted xs → xs !! i = Some a → xs !! j = Some b → (i < j)%nat → entry_lt a b.
Proof.
  intros [Hs _]. revert i j. induction Hs as [|x xs Hs IH Hlt]; intros i j; [done|].
  destruct i as [|i], j as [|j]; cbn; try lia; [|intros; eapply IH; [done..|lia]].
  intros [= ->] Hb _. rewrite Forall_forall in Hlt. by eapply Hlt, list_elem_of_lookup_2.
Qed.

Lemma sorted_ins e xs :
  sorted xs → zvalid e → (∀ y, y ∈ xs → ¬ entry_eq y e) → sorted (zins e xs).
Proof.
  intros Hs He Hne. pose proof (downward_before e He) as Hd. unfold zins, ins.
  revert Hne. induction xs as [|x xs IH]; intros Hne; cbn [zpos take drop app].
  { split; [repeat constructor|by repeat constructor]. }
  destruct Hs as [Hs Hv]. inversion Hs as [|? ? Hs' Hlt]; subst. apply Forall_cons in Hv as [Hx Hv].
  destruct (before e x) eqn:E; cbn [take drop app].
  - destruct (IH ltac:(by split)) as [IH1 IH2]; [intros; apply Hne; by right|]. split; [|by apply Forall_cons].
    constructor; [done|]. rewrite Forall_app in *. apply entry_ltb_lt in E; [|done..].
    rewrite <- (take_drop (zpos (before e) xs) xs) in Hlt. apply Forall_app in Hlt as [? ?].
    split; [done|]. by apply Forall_cons.
  - split; [|by repeat apply Forall_cons_2]. constructor; [by constructor|].
    assert (entry_lt e x) as Hex.
    { destruct (entry_lt_total x e) as [Hl|[Hq|Hl]]; [|by destruct (Hne x ltac:(by left))|done].
      apply entry_ltb_lt in Hl; [|done..]. unfold before in E. congruence. }
    apply Forall_cons_2; [done|]. eapply Forall_impl; [exact Hlt|]. intros y Hy. by etrans.
Qed.

(** ** Searches in a represented sequence *)

Section Represented.
Context {z ps hs xs} (HR : zsl_rep z ps hs (header_entry :: xs)) (Hs : sorted xs).
#[local] Abbreviation m := (zsl_nodes z).

Lemma ps_length : length ps = S (length xs).
Proof. by rewrite <- (zr_es _ _ _ _ HR). Qed.

(** A search condition on entries stops at [zpos]. *)
Lemma search_entries (f : zentry → bool) :
  downward f → ∀ p l n, (0 < p)%nat → ps !! p = Some l → m !! l = Some n →
  f (z_score n, z_member n) = (p <=? zpos f xs)%nat.
Proof.
  intros Hf p l n Hp Hl Hn. destruct (zr_pos HR p) as (? & h & e & ? & Hh & He); [by eapply lookup_lt_Some|].
  destruct (zr_node HR p l e Hl He) as (n' & Hn' & Hne). simplify_eq. destruct p as [|p]; [lia|]. cbn in He.
  by rewrite (zpos_spec f xs p _ Hf Hs He).
Qed.

Lemma zpos_bound f : (zpos f xs < length ps)%nat.
Proof. rewrite ps_length. pose proof (zpos_le f xs). lia. Qed.

(** The first node that does not satisfy the condition, after a search. *)
Lemma first_after (f : zentry → bool) : downward f →
  ∃ ups u0, descend (zsl_fuel z) m (λ n, f (z_score n, z_member n)) (zsl_level z) (zsl_header z) 0 = Some ups ∧
    ups !! 0%nat = Some (u0, Z.of_nat (zpos f xs)) ∧ ps !! zpos f xs = Some u0 ∧
    get_level m u0 0 = Some (link_at ps hs (zpos f xs) 0) ∧
    lv_forward (link_at ps hs (zpos f xs) 0) = ps !! S (zpos f xs) ∧
    ∀ i, (i < zsl_level z)%nat →
      ∃ q l', ups !! i = Some (l', Z.of_nat q) ∧ ps !! q = Some l' ∧ is_last hs i (zpos f xs) q.
Proof.
  intros Hf.
  destruct (search_spec HR (λ n, f (z_score n, z_member n)) (zpos f xs) (zpos_bound f) (search_entries f Hf))
    as (ups & u0 & Hd & _ & H0 & Hu0 & Hups).
  destruct (next_after HR (zpos f xs) (zpos_bound f) u0 Hu0) as [Hg Hn]. eauto 10.
Qed.

(** The entry at a position, through the heap. *)
Lemma entry_at p l : ps !! S p = Some l → ∃ e n, xs !! p = Some e ∧ m !! l = Some n ∧ (z_score n, z_member n) = e.
Proof.
  intros Hl. destruct (zr_pos HR (S p)) as (? & h & e & ? & Hh & He); [by eapply lookup_lt_Some|].
  destruct (zr_node HR (S p) l e Hl He) as (n & Hn & Hne). by exists e, n.
Qed.

Lemma no_entry p : ps !! S p = None → xs !! p = None.
Proof. rewrite !lookup_ge_None, ps_length. lia. Qed.

End Represented.

(** ** Rank of an entry *)

(** The entry searched for: the same member and an equal score. *)
Definition same (e y : zentry) : bool := deqb y.1 e.1 && bool_decide (y.2 = e.2).

(** The rank of an entry, counted from 1; 0 when it is absent. *)
Definition zrank (xs : list zentry) (e : zentry) : Z :=
  match list_find (λ y, same e y = true) xs with Some (p, _) => Z.of_nat p + 1 | None => 0 end.

Lemma same_eq e y : zvalid e → zvalid y → same e y = true ↔ entry_eq y e.
Proof.
  intros He Hy. unfold same, entry_eq. by rewrite andb_true_iff, bool_decide_eq_true, deqb_key.
Qed.

Lemma entry_eq_before e y : zvalid e → zvalid y → entry_eq y e → before e y = false.
Proof.
  intros He Hy [Hk Hm]. unfold before. destruct (entry_ltb y e) eqn:E; [|done].
  apply entry_ltb_lt in E; [|done..]. exfalso. destruct E as [E|[_ E]]; [rewrite Hk in E; by eapply key_lt_irrefl|].
  rewrite Hm in E. by eapply bytes_lt_irrefl.
Qed.

Lemma entry_lt_eq a y e : entry_lt a y → entry_eq y e → entry_lt a e.
Proof. unfold entry_lt, entry_eq. intros [?|[??]] [??]; [left|right]; intuition congruence. Qed.

Lemma sorted_valid xs p y : sorted xs → xs !! p = Some y → zvalid y.
Proof. intros [_ Hv] Hy. rewrite Forall_forall in Hv. by eapply Hv, list_elem_of_lookup_2. Qed.

(** An entry is where the search for it stops. *)
Lemma zpos_same xs e p y :
  sorted xs → zvalid e → xs !! p = Some y → same e y = true → p = zpos (before e) xs.
Proof.
  intros Hs He Hp Hy. pose proof (sorted_valid _ _ _ Hs Hp) as Hvy. apply same_eq in Hy; [|done..].
  pose proof (downward_before e He) as Hd.
  pose proof (zpos_spec _ xs p y Hd Hs Hp) as Hb. rewrite entry_eq_before in Hb by done.
  symmetry in Hb. apply Nat.ltb_ge in Hb. pose proof (lookup_lt_Some _ _ _ Hp).
  destruct (decide (p = zpos (before e) xs)) as [|Hne]; [done|].
  destruct (lookup_lt_is_Some_2 xs (zpos (before e) xs)) as [a Ha]; [lia|].
  pose proof (sorted_index xs _ p a y Hs Ha Hp ltac:(lia)) as Hlt.
  pose proof (zpos_spec _ xs _ a Hd Hs Ha) as Hb'. rewrite Nat.ltb_irrefl in Hb'.
  assert (before e a = true) as Hab; [|congruence].
  apply entry_ltb_lt; [by eapply sorted_valid|done|]. by eapply entry_lt_eq.
Qed.

Lemma zrank_search xs e :
  sorted xs → zvalid e →
  zrank xs e = match xs !! zpos (before e) xs with
               | Some y => if same e y then Z.of_nat (zpos (before e) xs) + 1 else 0
               | None => 0
               end.
Proof.
  intros Hs He. unfold zrank. destruct (list_find _ xs) as [[p y]|] eqn:E.
  - apply list_find_Some in E as (Hp & Hy & _). rewrite <- (zpos_same xs e p y) by done. by rewrite Hp, Hy.
  - apply list_find_None in E. destruct (xs !! _) as [y|] eqn:Ey; [|done].
    rewrite Forall_forall in E. specialize (E y ltac:(by eapply list_elem_of_lookup_2)). by destruct (same e y).
Qed.

Section Queries.
Context {z ps hs xs} (HR : zsl_rep z ps hs (header_entry :: xs)) (Hs : sorted xs).

Lemma zsl_get_rank_spec score member :
  zvalid (score, member) → zsl_get_rank z score member = Some (zrank xs (score, member)).
Proof.
  intros He. destruct (first_after HR Hs (before (score, member)) (downward_before _ He))
    as (ups & u0 & Hd & H0 & Hu0 & Hg & Hn & _).
  unfold zsl_get_rank. change (node_before score member) with (λ n, before (score, member) (z_score n, z_member n)).
  rewrite Hd. cbn [mbind option_bind]. rewrite H0. cbn [mbind option_bind]. rewrite Hg. cbn [mbind option_bind].
  rewrite Hn, zrank_search by done. destruct (ps !! S _) as [l|] eqn:El.
  - destruct (entry_at HR _ l El) as (e & n & He' & Hnode & Hne). rewrite He', Hnode. cbn [mbind option_bind].
    by rewrite <- Hne.
  - by rewrite (no_entry HR _ El).
Qed.

(** ** Entry at a rank *)

Lemma rank_walk_spec fuel p l i h rank :
  ps !! p = Some l → hs !! p = Some h → (i < h)%nat → (i < zsl_level z)%nat → 0 <= rank → Z.of_nat p <= rank →
  (length xs - p < fuel)%nat →
  ∃ q l', rank_walk fuel (zsl_nodes z) i l (Z.of_nat p) rank = Some (l', Z.of_nat q) ∧ ps !! q = Some l' ∧
          is_last hs i (Nat.min (Z.to_nat rank) (length xs)) q.
Proof.
  intros Hl Hh Hi Hz Hr Hp Hf. revert p l h Hl Hh Hi Hp Hf.
  induction fuel as [|fuel IH]; intros p l h Hl Hh Hi Hp Hf; [lia|]. cbn [rank_walk].
  rewrite (zr_link HR p l h i) by done. cbn [mbind option_bind].
  pose proof (zr_hs _ _ _ _ HR) as Hlen. pose proof (ps_length HR) as Hpl. pose proof (lookup_lt_Some _ _ _ Hl) as Hlp.
  destruct (lv_forward (link_at ps hs p i)) as [f|] eqn:Ef.
  - destruct (link_forward _ _ _ _ _ Ef) as (d & Hd & Hsp & (h' & Hh' & Hi') & Hlow). rewrite Hsp.
    pose proof (lookup_lt_Some _ _ _ Hd) as Hld.
    replace (Z.of_nat p + Z.of_nat (S d)) with (Z.of_nat (S p + d)) by lia.
    destruct (Z.leb_spec (Z.of_nat (S p + d)) rank).
    + eapply IH; try done; lia.
    + exists p, l. split; [done|]. split; [done|]. split; [lia|by eauto|]. intros j hj Hj. apply Hlow. lia.
  - exists p, l. split; [done|]. split; [done|]. split; [lia|by eauto|].
    intros j hj Hj. eapply link_end; [by symmetry|done|lia].
Qed.

Lemma rank_descend_spec fuel levels p l h rank :
  ps !! p = Some l → hs !! p = Some h → (levels <= h)%nat → (1 <= levels <= zsl_level z)%nat →
  0 <= rank → Z.of_nat p <= rank → (length xs < fuel)%nat →
  rank_descend fuel (zsl_nodes z) levels l (Z.of_nat p) rank = Some (ps !! Z.to_nat rank).
Proof.
  revert p l h. induction levels as [|i IH]; intros p l h Hl Hh Hi Hz Hr Hp Hf; [lia|]. cbn [rank_descend].
  destruct (rank_walk_spec fuel p l i h rank) as (q & l' & -> & Hl' & Hq); try done; try lia. cbn [mbind option_bind].
  pose proof (il_le _ _ _ _ Hq). destruct (Z.eqb_spec (Z.of_nat q) rank) as [<-|Hne]; [by rewrite Nat2Z.id, Hl'|].
  destruct (il_tall _ _ _ _ Hq) as (h' & Hh' & Hi').
  destruct i as [|i]; [|eapply (IH q l' h'); done || lia]. cbn [rank_descend].
  symmetry. f_equal. apply lookup_ge_None. rewrite (ps_length HR).
  destruct (decide (S (length xs) <= Z.to_nat rank)%nat) as [|Hle]; [done|]. exfalso.
  destruct (zr_pos HR (Z.to_nat rank)) as (? & h1 & ? & _ & Hh1 & _); [rewrite (ps_length HR); lia|].
  pose proof (zr_heights _ _ _ _ HR _ _ Hh1). pose proof (il_low _ _ _ _ Hq (Z.to_nat rank) h1 ltac:(lia) Hh1). lia.
Qed.

Lemma zsl_by_rank_spec rank :
  0 <= rank →
  zsl_get_element_by_rank z rank = Some (if rank =? 0 then None else ps !! Z.to_nat rank).
Proof.
  intros Hr. unfold zsl_get_element_by_rank. destruct (Z.eqb_spec rank 0); [done|].
  pose proof (zr_level _ _ _ _ HR) as Hz. pose proof (zr_length _ _ _ _ HR) as Hlen. pose proof (ps_length HR).
  apply (rank_descend_spec _ _ 0%nat _ ZSKIPLIST_MAXLEVEL); try (apply HR) || lia.
  unfold zsl_fuel. lia.
Qed.

(** ** Score ranges *)

Definition below_min (min : double) (minex : bool) : zentry → bool := λ e,
  dltb e.1 min || (minex && deqb e.1 min).
Definition within_max (max : double) (maxex : bool) : zentry → bool := λ e,
  dltb e.1 max || (negb maxex && deqb e.1 max).

Lemma downward_score d (b : bool) : not_nan d = true → downward (λ e, dltb e.1 d || (b && deqb e.1 d)).
Proof.
  intros Hd a c Ha Hc Hac. rewrite !orb_true_iff, !andb_true_iff, !dltb_key, !deqb_key by done.
  destruct Hac as [Hk|[-> _]]; [|done]. intros [?|[_ <-]]; left; [by eapply key_lt_trans|done].
Qed.

Lemma zsl_first_spec min minex :
  not_nan min = true → zsl_first_in_score_range z min minex = Some (ps !! S (zpos (below_min min minex) xs)).
Proof.
  intros Hm. destruct (first_after HR Hs (below_min min minex) (downward_score _ _ Hm))
    as (ups & u0 & Hd & H0 & Hu0 & Hg & Hn & _).
  unfold zsl_first_in_score_range.
  change (λ n, dltb (z_score n) min || (minex && deqb (z_score n) min))
    with (λ n, below_min min minex (z_score n, z_member n)).
  rewrite Hd. cbn [mbind option_bind]. rewrite H0. cbn [mbind option_bind]. rewrite Hg. cbn [mbind option_bind].
  by rewrite Hn.
Qed.

Lemma zsl_last_spec max maxex :
  not_nan max = true →
  zsl_last_in_score_range z max maxex =
  Some (match zpos (within_max max maxex) xs with O => None | S p => ps !! S p end).
Proof.
  intros Hm. destruct (first_after HR Hs (within_max max maxex) (downward_score _ _ Hm))
    as (ups & u0 & Hd & H0 & Hu0 & Hg & Hn & _).
  unfold zsl_last_in_score_range.
  change (λ n, dltb (z_score n) max || (negb maxex && deqb (z_score n) max))
    with (λ n, within_max max maxex (z_score n, z_member n)).
  rewrite Hd. cbn [mbind option_bind]. rewrite H0. cbn [mbind option_bind]. pose proof (zr_header _ _ _ _ HR) as Hh.
  destruct (zpos _ xs) as [|p].
  - by rewrite decide_True by congruence.
  - rewrite decide_False; [by rewrite <- Hu0|]. intros ->.
    assert (S p = 0%nat) by (eapply NoDup_lookup; [apply (zr_nodup _ _ _ _ HR)|done..]). lia.
Qed.

End Queries.

(** ** The member index *)

(** What the dictionary holds: the node of every member. *)
Definition index (ps : list loc) (xs : list zentry) : gmap bytes loc := list_to_map (zip xs.*2 (tail ps)).

Lemma ins_fmap {A B} (f : A → B) j x s : f <$> ins j x s = ins j (f x) (f <$> s).
Proof. unfold ins. by rewrite fmap_app, fmap_cons, fmap_take, fmap_drop. Qed.

Lemma zip_ins {A B} j (a : A) (b : B) (s : list A) (t : list B) :
  length s = length t → zip (ins j a s) (ins j b t) = ins j (a, b) (zip s t).
Proof.
  intros Hl. unfold ins. rewrite zip_with_app by (rewrite !length_take; lia).
  cbn [zip_with]. by rewrite zip_with_take, zip_with_drop.
Qed.

Lemma index_ins ps xs j x s mem :
  length ps = S (length xs) → mem ∉ xs.*2 → NoDup xs.*2 →
  index (ins (S j) x ps) (ins j (s, mem) xs) = <[mem := x]> (index ps xs).
Proof.
  intros Hl Hm Hn. unfold index. destruct ps as [|h ps]; [done|]. cbn [ins take drop app tail]. injection Hl as Hl.
  assert (length (xs.*2) = length ps) as Hl' by (by rewrite length_fmap).
  change (take j ps ++ x :: drop j ps) with (ins j x ps).
  rewrite ins_fmap, zip_ins by done. change (?s, ?mem).2 with mem.
  rewrite <- list_to_map_cons. apply list_to_map_proper.
  - rewrite ins_fmap, fst_zip by lia. by apply NoDup_ins.
  - unfold ins. by rewrite <- Permutation_middle, take_drop.
Qed.

Lemma index_lookup ps xs mem x :
  length ps = S (length xs) → index ps xs !! mem = Some x → ∃ p s, xs !! p = Some (s, mem) ∧ ps !! S p = Some x.
Proof.
  intros Hl Hi. apply elem_of_list_to_map_2, list_elem_of_lookup in Hi as [p Hp].
  apply lookup_zip_Some in Hp as [Hp Hx]. rewrite lookup_tail in Hx. apply list_lookup_fmap_Some in Hp as ([s ?] & Hp & ?).
  cbn in *. subst. by exists p, s.
Qed.

Lemma index_None ps xs mem : length ps = S (length xs) → index ps xs !! mem = None → mem ∉ xs.*2.
Proof.
  intros Hl Hi. apply not_elem_of_list_to_map in Hi. rewrite fst_zip in Hi; [done|].
  rewrite length_fmap. destruct ps; cbn in *; lia.
Qed.

(** ** Specification of a sorted set *)

Definition without (mem : bytes) (xs : list zentry) : list zentry := filter (λ y, y.2 ≠ mem) xs.

Definition zscore (xs : list zentry) (mem : bytes) : option double :=
  (λ r, r.2.1) <$> list_find (λ y, y.2 = mem) xs.

Definition zadd (xs : list zentry) (score : double) (mem : bytes) : Z * list zentry :=
  match zscore xs mem with
  | Some s => if deqb s score then (0, xs) else (2, zins (score, mem) (without mem xs))
  | None => (1, zins (score, mem) xs)
  end.

Definition zrem (xs : list zentry) (mem : bytes) : bool * list zentry :=
  match zscore xs mem with Some _ => (true, without mem xs) | None => (false, xs) end.

(** What a sorted set holds: entries in ascending order, every member once. *)
Definition zset_ok (xs : list zentry) : Prop := sorted xs ∧ NoDup xs.*2.

Lemma without_absent mem xs : mem ∉ xs.*2 → without mem xs = xs.
Proof.
  unfold without. induction xs as [|y xs IH]; [done|]. rewrite fmap_cons, not_elem_of_cons. intros [? ?].
  rewrite filter_cons_True by congruence. by rewrite IH.
Qed.

Lemma without_delete xs p s mem : NoDup xs.*2 → xs !! p = Some (s, mem) → without mem xs = delete p xs.
Proof.
  intros Hn Hp. rewrite <- (take_drop_middle xs p _ Hp) in Hn. rewrite delete_take_drop.
  rewrite <- (take_drop_middle xs p _ Hp) at 1.
  rewrite fmap_app, fmap_cons, <- Permutation_middle, NoDup_cons in Hn. destruct Hn as [Hn _]. cbn in Hn.
  rewrite elem_of_app in Hn. pose proof (λ l, without_absent mem l) as Hw. unfold without in *.
  rewrite filter_app, filter_cons_False by (cbn; tauto). by rewrite !Hw by tauto.
Qed.

Lemma zscore_at xs p s mem : NoDup xs.*2 → xs !! p = Some (s, mem) → zscore xs mem = Some s.
Proof.
  intros Hn Hp. unfold zscore. rewrite (proj2 (list_find_Some _ xs p (s, mem))); [done|].
  split; [done|]. split; [done|]. intros j [s' mem'] Hj Hlt Heq. cbn in Heq. subst mem'.
  assert (j = p); [|lia]. eapply (NoDup_lookup (xs.*2)); [done|..]; by rewrite list_lookup_fmap, ?Hj, ?Hp.
Qed.

Lemma zscore_None xs mem : mem ∉ xs.*2 → zscore xs mem = None.
Proof.
  intros Hm. unfold zscore. rewrite (proj2 (list_find_None _ xs)); [done|].
  rewrite Forall_forall. intros y Hy <-. by apply Hm, list_elem_of_fmap_2.
Qed.

Lemma zscore_elem xs mem : mem ∈ xs.*2 → is_Some (zscore xs mem).
Proof.
  intros [y [-> Hy]]%list_elem_of_fmap. unfold zscore.
  destruct (list_find_elem_of (λ z, z.2 = y.2) xs y Hy eq_refl) as [? ->]. eauto.
Qed.

Lemma zset_ok_ins xs score mem : zset_ok xs → not_nan score = true → mem ∉ xs.*2 → zset_ok (zins (score, mem) xs).
Proof.
  intros [Hs Hn] Hv Hm. split.
  - apply sorted_ins; [done..|]. intros y Hy [_ He]. cbn in He. subst mem. by apply Hm, list_elem_of_fmap_2.
  - unfold zins. rewrite ins_fmap. by apply NoDup_ins.
Qed.

Lemma without_spec xs mem : zset_ok xs → zset_ok (without mem xs) ∧ mem ∉ (without mem xs).*2.
Proof.
  intros [Hs Hn]. assert (mem ∉ (without mem xs).*2) as Hm.
  { intros (y & -> & Hy)%list_elem_of_fmap. by apply list_elem_of_filter in Hy as []. }
  split; [|done]. destruct (decide (mem ∈ xs.*2)) as [([s m] & -> & Hy)%list_elem_of_fmap|Hnm].
  - apply list_elem_of_lookup in Hy as [p Hp]. cbn [snd]. rewrite (without_delete xs p s m) by done.
    split; [by apply sorted_delete|]. rewrite list_fmap_delete. by eapply sublist_NoDup, sublist_delete.
  - by rewrite without_absent.
Qed.

(** ** Representation of a sorted set *)

Definition zset_rep (zs : zset) (xs : list zentry) : Prop :=
  zset_ok xs ∧ dict_wf (zs_dict zs) ∧
  ∃ ps hs, zsl_rep (zs_zsl zs) ps hs (header_entry :: xs) ∧ dict_abs (zs_dict zs) = index ps xs.

Lemma zsl_create_rep : zsl_rep zsl_create [0%nat] [ZSKIPLIST_MAXLEVEL] [header_entry].
Proof.
  split; try done.
  - apply NoDup_singleton.
  - cbn. unfold ZSKIPLIST_MAXLEVEL. lia.
  - intros [|p] h; [|done]. cbn. intros [= <-]. unfold ZSKIPLIST_MAXLEVEL. lia.
  - intros [|[|p]] h Hp; [lia|done..].
  - intros [|p] l h e; [|done]. cbn. by intros [= <-] [= <-] [= <-].
  - intros [|p] l h i; [|done]. cbn. intros [= <-] [= <-] Hi. exists (ZLevel None 0).
    split; [|done]. change (replicate ZSKIPLIST_MAXLEVEL (ZLevel None 0) !! i = Some (ZLevel None 0)).
    by apply lookup_replicate.
  - intros l. rewrite list_elem_of_singleton. intros Hl. by apply lookup_singleton_ne.
  - intros l ->%list_elem_of_singleton. cbn. lia.
Qed.

Lemma zset_create_rep r16 : zset_rep (zset_create r16) [].
Proof.
  destruct (dict_create_spec (V := loc) r16) as [Hw Ha]. split; [|split; [done|]].
  - split; [split; constructor|constructor].
  - exists [0%nat], [ZSKIPLIST_MAXLEVEL]. split; [apply zsl_create_rep|done].
Qed.

Section ZSet.
Context {z ps hs xs} (HR : zsl_rep z ps hs (header_entry :: xs)) (Hx : zset_ok xs).

(** [zsl_insert] puts an entry where the order wants it. *)
Lemma zsl_insert_spec level score mem :
  (1 <= level <= ZSKIPLIST_MAXLEVEL)%nat → not_nan score = true →
  ∃ z', zsl_insert z level score mem = Some (zsl_fresh z, z') ∧
    let B := zpos (before (score, mem)) xs in
    zsl_rep z' (ins (S B) (zsl_fresh z) ps) (ins (S B) level hs) (header_entry :: zins (score, mem) xs).
Proof.
  intros Hl Hv. destruct Hx as [Hs _].
  refine (zsl_insert_rep z ps hs (header_entry :: xs) level score mem _ HR Hl (zpos_bound HR _) _).
  intros p l n. apply (search_entries HR Hs (before (score, mem))), downward_before. done.
Qed.

(** [zsl_delete] finds a stored entry and unlinks its node. *)
Lemma zsl_delete_spec p s mem :
  xs !! p = Some (s, mem) →
  ∃ z', zsl_delete z s mem = Some (true, z') ∧
    zsl_rep z' (delete (S p) ps) (delete (S p) hs) (header_entry :: delete p xs).
Proof.
  intros Hp. destruct Hx as [Hs _]. pose proof (sorted_valid _ _ _ Hs Hp) as Hv.
  assert (same (s, mem) (s, mem) = true) as Hsame by (by apply same_eq).
  pose proof (zpos_same xs _ _ _ Hs Hv Hp Hsame) as HB.
  destruct (first_after HR Hs (before (s, mem)) (downward_before _ Hv))
    as (ups & u0 & Hd & H0 & Hu0 & Hg & Hn & Hups).
  rewrite <- HB in H0, Hu0, Hg, Hn, Hups. clear HB.
  destruct (lookup_lt_is_Some_2 ps (S p)) as [x Hxp]; [rewrite (ps_length HR); apply lookup_lt_Some in Hp; lia|].
  destruct (entry_at HR p x Hxp) as (e & n & He & Hnode & Hne).
  assert ((z_score n, z_member n) = (s, mem)) as Hsm by congruence.
  destruct (zsl_delete_node_rep z ps hs (header_entry :: xs) p x ups HR Hxp Hups) as (z' & Hz' & HR' & _).
  exists z'. split; [|done]. unfold zsl_delete.
  change (node_before s mem) with (λ n, before (s, mem) (z_score n, z_member n)).
  rewrite Hd. cbn [mbind option_bind]. rewrite H0. cbn [mbind option_bind]. rewrite Hg. cbn [mbind option_bind].
  rewrite Hn, Hxp, Hnode. cbn [mbind option_bind].
  change (node_is s mem n) with (same (s, mem) (z_score n, z_member n)).
  by rewrite Hsm, Hsame, Hz'.
Qed.

End ZSet.

(** What the index says of a member: its node stores its entry, or it is absent. *)
Lemma zset_find zs xs mem :
  zset_rep zs xs →
  match dict_get (zs_dict zs) mem with
  | Some x => ∃ n, zsl_nodes (zs_zsl zs) !! x = Some n ∧ z_member n = mem ∧ zscore xs mem = Some (z_score n)
  | None => zscore xs mem = None
  end.
Proof.
  intros ([Hs Hn] & Hw & ps & hs & HR & Hi). rewrite dict_get_correct, Hi by done. pose proof (ps_length HR) as Hl.
  destruct (index ps xs !! mem) as [x|] eqn:E.
  - destruct (index_lookup _ _ _ _ Hl E) as (p & s & Hp & Hx). destruct (entry_at HR p x Hx) as (e & n & He & Hnode & Hne).
    assert ((z_score n, z_member n) = (s, mem)) as [= <- <-] by congruence.
    exists n. split; [done|]. split; [done|]. by eapply zscore_at.
  - by apply zscore_None, index_None with ps.
Qed.

Lemma zset_score_spec zs xs mem : zset_rep zs xs → zset_score zs mem = Some (zscore xs mem).
Proof.
  intros H. pose proof (zset_find zs xs mem H) as Hf. unfold zset_score.
  destruct (dict_get _ mem) as [x|]; [|by rewrite Hf]. destruct Hf as (n & Hn & _ & ->). by rewrite Hn.
Qed.

(** Unlinking a stored member, in the skiplist and in the index. *)
Lemma zset_unlink zs xs mem x n :
  zset_rep zs xs → dict_get (zs_dict zs) mem = Some x → zsl_nodes (zs_zsl zs) !! x = Some n →
  ∃ z', zsl_delete (zs_zsl zs) (z_score n) (z_member n) = Some (true, z') ∧
        zset_rep (ZSet (dict_delete (zs_dict zs) mem).2 z') (without mem xs).
Proof.
  intros (Hok & Hw & ps & hs & HR & Hi) Hg Hn. pose proof Hok as [Hs Hnd]. rewrite dict_get_correct, Hi in Hg by done.
  pose proof (ps_length HR) as Hl. destruct (index_lookup _ _ _ _ Hl Hg) as (p & s & Hp & Hx).
  destruct (entry_at HR p x Hx) as (e & n' & He & Hn' & Hne).
  assert ((z_score n, z_member n) = (s, mem)) as [= <- <-] by congruence.
  destruct (zsl_delete_spec HR Hok p _ _ Hp) as (z' & Hz' & HR'). exists z'. split; [done|].
  destruct (dict_delete_correct (zs_dict zs) (z_member n) Hw) as (Hw' & Ha & _).
  destruct (without_spec xs (z_member n) Hok) as [Hok' Hnm]. split; [done|]. split; [done|].
  rewrite (without_delete xs p (z_score n)) in * by done. exists (delete (S p) ps), (delete (S p) hs). split; [done|].
  cbn [zs_dict]. rewrite Ha, Hi. rewrite <- (ins_delete ps (S p) x Hx) at 1. rewrite <- (ins_delete xs p _ Hp) at 1.
  rewrite index_ins; [|by rewrite (ps_length HR')|done|apply Hok'].
  rewrite delete_insert_id; [done|]. apply not_elem_of_list_to_map. intros (q & Hq)%list_elem_of_lookup.
  apply list_lookup_fmap_Some in Hq as ([m' l'] & ? & Hq). apply lookup_zip_Some in Hq as [Hq _]. cbn in *. subst.
  by eapply Hnm, list_elem_of_lookup_2.
Qed.

(** Linking a new member, in the skiplist and in the index. *)
Lemma zset_link zs xs level score mem :
  zset_rep zs xs → (1 <= level <= ZSKIPLIST_MAXLEVEL)%nat → not_nan score = true → mem ∉ xs.*2 →
  ∃ x z', zsl_insert (zs_zsl zs) level score mem = Some (x, z') ∧
          zset_rep (ZSet (dict_set (zs_dict zs) mem x).2 z') (zins (score, mem) xs).
Proof.
  intros (Hok & Hw & ps & hs & HR & Hi) Hl Hv Hm.
  destruct (zsl_insert_spec HR Hok level score mem Hl Hv) as (z' & Hz' & HR').
  exists (zsl_fresh (zs_zsl zs)), z'. split; [done|].
  destruct (dict_set_correct (zs_dict zs) mem (zsl_fresh (zs_zsl zs)) Hw) as (Hw' & Ha & _).
  split; [by apply zset_ok_ins|]. split; [done|]. eexists _, _. split; [done|]. cbn [zs_dict]. rewrite Ha, Hi. symmetry.
  apply index_ins; [by rewrite (ps_length HR)|done|apply Hok].
Qed.

Lemma zset_add_spec zs xs level score mem :
  zset_rep zs xs → (1 <= level <= ZSKIPLIST_MAXLEVEL)%nat → not_nan score = true →
  ∃ zs', zset_add zs level score mem = Some ((zadd xs score mem).1, zs') ∧ zset_rep zs' (zadd xs score mem).2.
Proof.
  intros H Hl Hv. pose proof (zset_find zs xs mem H) as Hf. unfold zset_add, zadd.
  destruct (dict_get (zs_dict zs) mem) as [x|] eqn:Eg.
  - destruct Hf as (n & Hn & Hm & ->). rewrite Hn. cbn [mbind option_bind]. destruct (deqb (z_score n) score); [by eauto|].
    destruct (zset_unlink zs xs mem x n H Eg Hn) as (z1 & Hz1 & H1). rewrite Hz1. cbn [mbind option_bind].
    destruct H as [Hok _]. destruct (without_spec xs mem Hok) as [_ Hnm].
    destruct (zset_link _ _ level score mem H1 Hl Hv Hnm) as (x2 & z2 & Hz2 & H2). cbn [zs_zsl zs_dict] in Hz2, H2.
    rewrite Hz2. cbn [mbind option_bind]. eauto.
  - rewrite Hf. assert (mem ∉ xs.*2) as Hm by (intros [? ?]%zscore_elem; congruence).
    destruct (zset_link _ _ level score mem H Hl Hv Hm) as (x2 & z2 & Hz2 & H2). rewrite Hz2. cbn [mbind option_bind]. eauto.
Qed.

Lemma zset_remove_spec zs xs mem :
  zset_rep zs xs → ∃ zs', zset_remove zs mem = Some ((zrem xs mem).1, zs') ∧ zset_rep zs' (zrem xs mem).2.
Proof.
  intros H. pose proof (zset_find zs xs mem H) as Hf. unfold zset_remove, zrem.
  destruct (dict_get (zs_dict zs) mem) as [x|] eqn:Eg; [|rewrite Hf; by eauto].
  destruct Hf as (n & Hn & Hm & ->). rewrite Hn. cbn [mbind option_bind].
  destruct (zset_unlink zs xs mem x n H Eg Hn) as (z1 & Hz1 & H1). rewrite Hz1. cbn [mbind option_bind]. eauto.
Qed.

Lemma zset_len_spec zs xs : zset_rep zs xs → zset_len zs = Z.of_nat (length xs).
Proof.
  intros (_ & _ & ps & hs & HR & _). unfold zset_len, zsl_len. rewrite (zr_length _ _ _ _ HR), (ps_length HR). lia.
Qed.

(** ** Operations in sequence *)

(** A search condition splits a sorted sequence. *)
Lemma filter_downward f xs :
  downward f → sorted xs →
  filter (λ e, f e = true) xs = take (zpos f xs) xs ∧ filter (λ e, f e = false) xs = drop (zpos f xs) xs.
Proof.
  intros Hf [Hs Hv]. induction Hs as [|x xs Hs IH Hlt]; [done|]. apply Forall_cons in Hv as [Hx Hv]. cbn [zpos].
  destruct (f x) eqn:E.
  - rewrite filter_cons_True, filter_cons_False by congruence. cbn [take drop]. destruct (IH Hv) as [-> ->]. done.
  - rewrite filter_cons_False, filter_cons_True by congruence. destruct (IH Hv) as [-> ->].
    assert (zpos f xs = 0%nat) as ->; [|done]. destruct xs as [|y xs]; [done|]. cbn [zpos].
    apply Forall_cons in Hlt as [Hxy _]. apply Forall_cons in Hv as [Hy _].
    destruct (f y) eqn:Ey; [|done]. by rewrite (Hf x y Hx Hy Hxy Ey) in E.
Qed.

Inductive zset_op :=
  | ZAdd (rolls : nat → Z) (score : double) (mem : bytes)  (** [rolls] is what [rand()] returns *)
  | ZRem (mem : bytes)
  | ZScore (mem : bytes)
  | ZLen
  | ZRank (score : double) (mem : bytes)
  | ZByRank (rank : Z)
  | ZFirst (min : double) (minex : bool)
  | ZLast (max : double) (maxex : bool).

Inductive zset_out := ZInt (r : Z) | ZDouble (d : option double) | ZEntry (e : option zentry).

(** The arguments the commands pass: scores are numbers, ranks are unsigned. *)
Definition zset_op_ok (op : zset_op) : Prop :=
  match op with
  | ZAdd _ d _ | ZRank d _ | ZFirst d _ | ZLast d _ => not_nan d = true
  | ZByRank rank => 0 <= rank
  | _ => True
  end.

(** The entry a returned node pointer stands for. *)
Definition read_node (zs : zset) (p : ptr) : option zset_out :=
  match p with
  | None => Some (ZEntry None)
  | Some x => n ← zsl_nodes (zs_zsl zs) !! x; Some (ZEntry (Some (z_score n, z_member n)))
  end.

Definition zset_run1 (op : zset_op) (zs : zset) : option (zset_out * zset) :=
  match op with
  | ZAdd rolls score mem => '(r, zs) ← zset_add zs (zsl_random_level rolls) score mem; Some (ZInt r, zs)
  | ZRem mem => '(b, zs) ← zset_remove zs mem; Some (ZInt (Z.b2z b), zs)
  | ZScore mem => d ← zset_score zs mem; Some (ZDouble d, zs)
  | ZLen => Some (ZInt (zset_len zs), zs)
  | ZRank score mem => r ← zsl_get_rank (zs_zsl zs) score mem; Some (ZInt r, zs)
  | ZByRank rank => p ← zsl_get_element_by_rank (zs_zsl zs) rank; o ← read_node zs p; Some (o, zs)
  | ZFirst min minex => p ← zsl_first_in_score_range (zs_zsl zs) min minex; o ← read_node zs p; Some (o, zs)
  | ZLast max maxex => p ← zsl_last_in_score_range (zs_zsl zs) max maxex; o ← read_node zs p; Some (o, zs)
  end.

Definition zset_spec1 (op : zset_op) (xs : list zentry) : zset_out * list zentry :=
  match op with
  | ZAdd _ score mem => let '(r, xs) := zadd xs score mem in (ZInt r, xs)
  | ZRem mem => let '(b, xs) := zrem xs mem in (ZInt (Z.b2z b), xs)
  | ZScore mem => (ZDouble (zscore xs mem), xs)
  | ZLen => (ZInt (Z.of_nat (length xs)), xs)
  | ZRank score mem => (ZInt (zrank xs (score, mem)), xs)
  | ZByRank rank => (ZEntry (if rank =? 0 then None else xs !! Z.to_nat (rank - 1)), xs)
  | ZFirst min minex => (ZEntry (head (filter (λ e, below_min min minex e = false) xs)), xs)
  | ZLast max maxex => (ZEntry (last (filter (λ e, within_max max maxex e = true) xs)), xs)
  end.

Fixpoint zset_run (ops : list zset_op) (zs : zset) : option (list zset_out * zset) :=
  match ops with
  | [] => Some ([], zs)
  | op :: ops => '(o, zs) ← zset_run1 op zs; '(os, zs) ← zset_run ops zs; Some (o :: os, zs)
  end.

Fixpoint zset_spec (ops : list zset_op) (xs : list zentry) : list zset_out * list zentry :=
  match ops with
  | [] => ([], xs)
  | op :: ops => let '(o, xs) := zset_spec1 op xs in let '(os, xs) := zset_spec ops xs in (o :: os, xs)
  end.

Lemma random_level_bounds r : (1 <= zsl_random_level r <= ZSKIPLIST_MAXLEVEL)%nat.
Proof.
  unfold zsl_random_level. assert (∀ fuel level i, (1 <= level <= ZSKIPLIST_MAXLEVEL)%nat →
    (1 <= random_level_loop fuel level r i <= ZSKIPLIST_MAXLEVEL)%nat) as H; [|apply H; unfold ZSKIPLIST_MAXLEVEL; lia].
  induction fuel as [|fuel IH]; intros level i Hl; [done|]. cbn [random_level_loop].
  destruct (Nat.ltb_spec level ZSKIPLIST_MAXLEVEL); [|done]. cbn [andb]. destruct (_ <? _); [apply IH; lia|lia].
Qed.

Lemma read_node_spec zs xs ps hs p :
  zsl_rep (zs_zsl zs) ps hs (header_entry :: xs) → read_node zs (ps !! S p) = Some (ZEntry (xs !! p)).
Proof.
  intros HR. unfold read_node. destruct (ps !! S p) as [x|] eqn:E; [|by rewrite (no_entry HR p E)].
  destruct (entry_at HR p x E) as (e & n & -> & -> & <-). done.
Qed.

Lemma zset_step zs xs op :
  zset_rep zs xs → zset_op_ok op →
  ∃ zs', zset_run1 op zs = Some ((zset_spec1 op xs).1, zs') ∧ zset_rep zs' (zset_spec1 op xs).2.
Proof.
  intros H Hop. pose proof H as ([Hs Hn] & Hw & ps & hs & HR & Hi).
  destruct op as [rolls score mem|mem|mem| |score mem|rank|min minex|max maxex]; cbn [zset_spec1 zset_op_ok] in *.
  - destruct (zset_add_spec zs xs _ score mem H (random_level_bounds rolls) Hop) as (zs' & Hz & H').
    exists zs'. cbn [zset_run1]. rewrite Hz. destruct (zadd xs score mem) as [r xs']. done.
  - destruct (zset_remove_spec zs xs mem H) as (zs' & Hz & H').
    exists zs'. cbn [zset_run1]. rewrite Hz. destruct (zrem xs mem) as [r xs']. done.
  - exists zs. cbn [zset_run1]. by rewrite (zset_score_spec zs xs mem H).
  - exists zs. cbn [zset_run1]. by rewrite (zset_len_spec zs xs H).
  - exists zs. cbn [zset_run1]. by rewrite (zsl_get_rank_spec HR Hs score mem Hop).
  - exists zs. split; [|done]. cbn [zset_run1 fst]. rewrite (zsl_by_rank_spec HR rank Hop). cbn [mbind option_bind].
    destruct (Z.eqb_spec rank 0); [done|]. replace (Z.to_nat rank) with (S (Z.to_nat (rank - 1))) by lia.
    by rewrite (read_node_spec zs xs ps hs _ HR).
  - exists zs. split; [|done]. cbn [zset_run1 fst]. rewrite (zsl_first_spec HR Hs min minex Hop). cbn [mbind option_bind].
    rewrite (read_node_spec zs xs ps hs _ HR). cbn [mbind option_bind].
    destruct (filter_downward (below_min min minex) xs (downward_score _ _ Hop) Hs) as [_ ->].
    by rewrite head_lookup, lookup_drop, Nat.add_0_r.
  - exists zs. split; [|done]. cbn [zset_run1 fst]. rewrite (zsl_last_spec HR Hs max maxex Hop). cbn [mbind option_bind].
    destruct (filter_downward (within_max max maxex) xs (downward_score _ _ Hop) Hs) as [-> _].
    pose proof (zpos_le (within_max max maxex) xs) as Hle. rewrite last_lookup, length_take_le by done.
    destruct (zpos (within_max max maxex) xs) as [|p]; [done|]. rewrite (read_node_spec zs xs ps hs _ HR). cbn [pred].
    by rewrite lookup_take_lt by lia.
Qed.

Lemma zset_simulates ops : Forall zset_op_ok ops → ∀ zs xs, zset_rep zs xs →
  ∃ zs', zset_run ops zs = Some ((zset_spec ops xs).1, zs') ∧ zset_rep zs' (zset_spec ops xs).2.
Proof.
  induction 1 as [|op ops Hop _ IH]; intros zs xs H; cbn [zset_run zset_spec]; [by eauto|].
  destruct (zset_step zs xs op H Hop) as (zs1 & -> & H1). cbn [mbind option_bind].
  destruct (zset_spec1 op xs) as [o xs1]. cbn [fst snd] in *. destruct (IH zs1 xs1 H1) as (zs2 & -> & H2).
  cbn [mbind option_bind]. destruct (zset_spec ops xs1) as [os xs2]. by exists zs2.
Qed.

(** C5: a sorted set, driven from empty by any sequence of insertions, removals
    and queries whose scores are numbers, behaves as a sequence of (score, member)
    entries in strictly ascending order with every member once: no operation fails
    to find a node, every answer (added or changed, removed, score, cardinality,
    rank, entry at a rank, first and last entry of a score range) is the one of
    the sequence, whatever heights [rand] gives the nodes, and the links, spans,
    backward pointers and member index represent the sequence at the end. *)
Theorem zset_refines_sorted_sequence (r16 : bytes) (ops : list zset_op) :
  Forall zset_op_ok ops →
  ∃ zs, zset_run ops (zset_create r16) = Some ((zset_spec ops []).1, zs) ∧
        zset_rep zs (zset_spec ops []).2 ∧ zset_ok (zset_spec ops []).2.
Proof.
  intros Hops. destruct (zset_simulates ops Hops _ _ (zset_create_rep r16)) as (zs & Hz & H).
  exists zs. split; [done|]. split; [done|]. apply H.
Qed.

Lemma zset_refines_sorted_sequence_witness :
  let ops := [ZAdd (λ i, if (i =? 0)%nat then 7 else 65535) (S754_finite false 1 0) [x61];
              ZAdd (λ _, 0) (S754_infinity true) [x62]; ZAdd (λ _, 65535) (S754_finite false 1 0) [];
              ZAdd (λ _, 65535) (S754_finite true 3 0) [x61]; ZRank (S754_finite true 3 0) [x61];
              ZByRank 3; ZFirst (S754_finite false 1 0) false; ZLast (S754_zero true) true; ZRem [x62]; ZLen] in
  zset_spec ops [] = ([ZInt 1; ZInt 1; ZInt 1; ZInt 2; ZInt 2; ZEntry (Some (S754_finite false 1 0, []));
                       ZEntry (Some (S754_finite false 1 0, [])); ZEntry (Some (S754_finite true 3 0, [x61])); ZInt 1; ZInt 2],
                      [(S754_finite true 3 0, [x61]); (S754_finite false 1 0, [])]) ∧
  ∃ zs, zset_run ops (zset_create []) = Some ((zset_spec ops []).1, zs) ∧
        zset_rep zs (zset_spec ops []).2 ∧ zset_ok (zset_spec ops []).2.
Proof.
  intros ops. split; [vm_compute; reflexivity|]. apply (zset_refines_sorted_sequence [] ops).
  repeat (apply Forall_cons_2; [done|]). apply Forall_nil_2.
Defined.
