(* ===== verification/Codec.v ===== *)
(** * Wire format of snapshots ([src/rdb.c], writer and reader primitives)

    Big-endian integers, length-prefixed bytes and the bit pattern of doubles; the
    bounds-checked reader; and the law a writer and a reader have to satisfy
    together: what was written is read back, and a strict prefix of it is
    refused. *)

From Stdlib Require Import Floats.SpecFloat.
From S2P Require Import Prelude Zskiplist Zorder.

(** ** Bit patterns of doubles *)

(** [memcpy] of a double to a [uint64_t] (binary64); every NaN is written as the
    default quiet NaN. *)
Definition bits_of_double (d : double) : Z :=
  let sign (s : bool) := if s then 2 ^ 63 else 0 in
  match d with
  | S754_zero s => sign s
  | S754_infinity s => sign s + 2047 * 2 ^ 52
  | S754_nan => 2047 * 2 ^ 52 + 2 ^ 51
  | S754_finite s m e => sign s + (if Zpos m <? 2 ^ 52 then Zpos m else (e + 1075) * 2 ^ 52 + (Zpos m - 2 ^ 52))
  end.

Definition double_of_bits (u : Z) : double :=
  let s := Z.testbit u 63 in
  let e := Z.land (Z.shiftr u 52) 2047 in
  let f := Z.land u (2 ^ 52 - 1) in
  if e =? 2047 then (if f =? 0 then S754_infinity s else S754_nan)
  else if e =? 0 then (if f =? 0 then S754_zero s else S754_finite s (Z.to_pos f) (-1074))
  else S754_finite s (Z.to_pos (f + 2 ^ 52)) (e - 1075).

(** ** Writer *)

Definition w_u8 (v : Z) : bytes := [byte_of_Z v].

Definition w_u32 (v : Z) : bytes :=
  let v := wrapu32 v in
  [byte_of_Z (Z.shiftr v 24); byte_of_Z (Z.shiftr v 16); byte_of_Z (Z.shiftr v 8); byte_of_Z v].

Definition w_u64 (v : Z) : bytes :=
  [byte_of_Z (Z.shiftr v 56); byte_of_Z (Z.shiftr v 48); byte_of_Z (Z.shiftr v 40); byte_of_Z (Z.shiftr v 32);
   byte_of_Z (Z.shiftr v 24); byte_of_Z (Z.shiftr v 16); byte_of_Z (Z.shiftr v 8); byte_of_Z v].

Definition w_s64 (v : Z) : bytes := w_u64 (wrapu64 v).

Definition w_bytes (s : bytes) : bytes := w_u32 (zlen s) ++ s.

Definition w_f64 (d : double) : bytes := w_u64 (bits_of_double d).

(** ** Reader *)

Record rdb_reader := Reader { r_p : bytes; r_pos : nat }.

(** [None] is the error return of every reading function. *)
Definition r_need (r : rdb_reader) (n : nat) : option rdb_reader :=
  if (length (r_p r) - r_pos r <? n)%nat then None else Some (Reader (r_p r) (r_pos r + n)).

(** Byte [i] of the last [n] bytes consumed. *)
Definition r_at (r : rdb_reader) (n i : nat) : Z := uchar (nth (r_pos r - n + i) (r_p r) x00).

Definition r_u8 (r : rdb_reader) : option (Z * rdb_reader) := r ← r_need r 1; Some (r_at r 1 0, r).

Definition r_u32 (r : rdb_reader) : option (Z * rdb_reader) :=
  r ← r_need r 4;
  let t := r_at r 4 in
  Some (Z.lor (Z.lor (Z.lor (Z.shiftl (t 0%nat) 24) (Z.shiftl (t 1%nat) 16)) (Z.shiftl (t 2%nat) 8)) (t 3%nat), r).

Definition r_s64 (r : rdb_reader) : option (Z * rdb_reader) :=
  r ← r_need r 8;
  let u := foldl (λ u i, Z.lor (wrapu64 (Z.shiftl u 8)) (r_at r 8 i)) 0 (seq 0 8) in
  Some (wraps64 u, r).

Definition r_bytes (r : rdb_reader) : option (bytes * rdb_reader) :=
  '(len, r) ← r_u32 r;
  let n := Z.to_nat len in
  r ← r_need r n;
  Some (take n (drop (r_pos r - n) (r_p r)), r).

Definition r_f64 (r : rdb_reader) : option (double * rdb_reader) :=
  '(raw, r) ← r_s64 r; Some (double_of_bits (wrapu64 raw), r).

(** [a(r) < 0 || b(r) < 0]: two reads in a row. *)
Definition r_pair {A B} (ra : rdb_reader → option (A * rdb_reader)) (rb : rdb_reader → option (B * rdb_reader))
    (r : rdb_reader) : option (A * B * rdb_reader) :=
  '(a, r) ← ra r; '(b, r) ← rb r; Some (a, b, r).

(** ** The law of a writer and a reader *)

(** What is left to read. *)
Definition rest_of (r : rdb_reader) (rest : bytes) : Prop :=
  (r_pos r <= length (r_p r))%nat ∧ drop (r_pos r) (r_p r) = rest.

Record codec (A : Type) := Codec {
  enc : A → bytes;
  dec : rdb_reader → option (A * rdb_reader);
  writable : A → Prop;
  dec_enc r x rest : writable x → rest_of r (enc x ++ rest) → ∃ r', dec r = Some (x, r') ∧ rest_of r' rest;
  dec_short r x p q : writable x → enc x = p ++ q → q ≠ [] → rest_of r p → dec r = None;
}.
Arguments Codec {_}.
Arguments enc {_}.
Arguments dec {_}.
Arguments writable {_}.
Arguments dec_enc {_}.
Arguments dec_short {_}.

Lemma r_need_rest r a rest :
  rest_of r (a ++ rest) →
  ∃ r', r_need r (length a) = Some r' ∧ rest_of r' rest ∧ (length a <= r_pos r')%nat ∧
        drop (r_pos r' - length a) (r_p r') = a ++ rest.
Proof.
  intros [Hp Hr]. pose proof (f_equal length Hr) as Hl. rewrite length_drop, length_app in Hl. unfold r_need.
  destruct (Nat.ltb_spec (length (r_p r) - r_pos r) (length a)); [lia|]. eexists. split; [done|].
  unfold rest_of. cbn [r_p r_pos]. split; [split; [lia|]|split; [lia|]].
  - rewrite <- drop_drop, Hr. apply drop_app_length.
  - by rewrite Nat.add_sub.
Qed.

Lemma r_need_short r n p : rest_of r p → (length p < n)%nat → r_need r n = None.
Proof.
  intros [Hp Hr] Hn. pose proof (f_equal length Hr) as Hl. rewrite length_drop in Hl. unfold r_need.
  by rewrite (proj2 (Nat.ltb_lt _ _)) by lia.
Qed.

Lemma r_at_rest r a rest i :
  (length a <= r_pos r)%nat → drop (r_pos r - length a) (r_p r) = a ++ rest → (i < length a)%nat →
  r_at r (length a) i = uchar (nth i a x00).
Proof.
  intros Hn Hd Hi. unfold r_at. rewrite <- nth_skipn, Hd. f_equal. by apply app_nth1.
Qed.

(** ** Integers *)

Lemma lor_low a b n : 0 <= n → 0 <= b < 2 ^ n → Z.lor (a * 2 ^ n) b = a * 2 ^ n + b.
Proof.
  intros Hn Hb. destruct (decide (b = 0)) as [->|]; [rewrite Z.lor_0_r; lia|].
  rewrite <- Z.lxor_lor, Z.add_nocarry_lxor; [done|..].
  all: rewrite <- Z.shiftl_mul_pow2 by done; apply Z.bits_inj'; intros i Hi; rewrite Z.land_spec, Z.bits_0.
  all: destruct (Z.ltb_spec i n); [by rewrite Z.shiftl_spec_low|].
  all: rewrite (Z.bits_above_log2 b i), andb_false_r; [done|lia|].
  all: apply Z.log2_lt_pow2; [lia|].
  all: eapply Z.lt_le_trans; [apply Hb|]; apply Z.pow_le_mono_r; lia.
Qed.

(** One byte of a value, most significant first. *)
Lemma next_byte v k : 0 <= k → (v / 2 ^ (k + 8)) * 256 + (v / 2 ^ k) mod 256 = v / 2 ^ k.
Proof.
  intros Hk. rewrite Z.pow_add_r, <- Z.div_div by lia. change (2 ^ 8) with 256.
  pose proof (Z.div_mod (v / 2 ^ k) 256). lia.
Qed.

(** A 32-bit value from its four bytes. *)
Lemma u32_bytes v :
  0 <= v < 2 ^ 32 →
  let b k := (v / 2 ^ k) mod 256 in
  Z.lor (Z.lor (Z.lor (Z.shiftl (b 24) 24) (Z.shiftl (b 16) 16)) (Z.shiftl (b 8) 8)) (b 0) = v.
Proof.
  intros Hv b. rewrite !Z.shiftl_mul_pow2 by lia.
  assert (∀ k, 0 <= b k < 256) as Hb by (intros k; apply Z.mod_pos_bound; lia).
  pose proof (Hb 24). pose proof (Hb 16). pose proof (Hb 8). pose proof (Hb 0).
  rewrite (lor_low (b 24) (b 16 * 2 ^ 16) 24) by lia.
  replace (b 24 * 2 ^ 24 + b 16 * 2 ^ 16) with ((b 24 * 256 + b 16) * 2 ^ 16) by lia. rewrite lor_low by lia.
  replace ((b 24 * 256 + b 16) * 2 ^ 16 + b 8 * 2 ^ 8) with (((b 24 * 256 + b 16) * 256 + b 8) * 2 ^ 8) by lia.
  rewrite lor_low by lia. change (2 ^ 8) with 256.
  assert (v / 2 ^ 32 = 0) as H32 by (by apply Z.div_small). unfold b.
  pose proof (next_byte v 24 ltac:(lia)) as N3. change (24 + 8) with 32 in N3.
  pose proof (next_byte v 16 ltac:(lia)) as N2. change (16 + 8) with 24 in N2.
  pose proof (next_byte v 8 ltac:(lia)) as N1. change (8 + 8) with 16 in N1.
  pose proof (next_byte v 0 ltac:(lia)) as N0. change (0 + 8) with 8 in N0.
  change (2 ^ 0) with 1 in *. rewrite !Z.div_1_r in *. lia.
Qed.

(** The loop of [r_s64] over the eight bytes of a 64-bit value. *)
Lemma u64_bytes v :
  0 <= v < 2 ^ 64 →
  foldl (λ u k, Z.lor (wrapu64 (Z.shiftl u 8)) ((v / 2 ^ k) mod 256)) 0 [56; 48; 40; 32; 24; 16; 8; 0] = v.
Proof.
  intros Hv. assert (∀ k, 0 <= k → Z.lor (wrapu64 (Z.shiftl (v / 2 ^ (k + 8)) 8)) ((v / 2 ^ k) mod 256) = v / 2 ^ k) as Hs.
  { intros k Hk. pose proof (Z.mod_pos_bound (v / 2 ^ k) 256). rewrite Z.shiftl_mul_pow2 by lia.
    unfold wrapu64. rewrite Z.mod_small; [rewrite lor_low by lia; by apply next_byte|].
    pose proof (next_byte v k Hk) as Hn. assert (v / 2 ^ k <= v) by (apply Z.div_le_upper_bound; nia).
    split; [apply Z.mul_nonneg_nonneg; [apply Z.div_pos; lia|lia]|lia]. }
  assert (v / 2 ^ (56 + 8) = 0) as H64 by (by apply Z.div_small). pose proof (Hs 56 ltac:(lia)) as H56. rewrite H64 in H56.
  cbn [foldl]. rewrite H56. pose proof (Hs 48 ltac:(lia)) as H48. change (48 + 8) with 56 in H48. rewrite H48.
  pose proof (Hs 40 ltac:(lia)) as H40. change (40 + 8) with 48 in H40. rewrite H40.
  pose proof (Hs 32 ltac:(lia)) as H32. change (32 + 8) with 40 in H32. rewrite H32.
  pose proof (Hs 24 ltac:(lia)) as H24. change (24 + 8) with 32 in H24. rewrite H24.
  pose proof (Hs 16 ltac:(lia)) as H16. change (16 + 8) with 24 in H16. rewrite H16.
  pose proof (Hs 8 ltac:(lia)) as H8. change (8 + 8) with 16 in H8. rewrite H8.
  pose proof (Hs 0 ltac:(lia)) as H0. change (0 + 8) with 8 in H0. rewrite H0. apply Z.div_1_r.
Qed.

(** ** Codecs *)

(** A prefix that is not the whole is shorter. *)
Lemma short_prefix {A} (a p q : list A) : a = p ++ q → q ≠ [] → (length p < length a)%nat.
Proof. intros -> Hq. rewrite length_app. destruct q; [done|]. cbn. lia. Qed.

Lemma r_u8_ok r v rest :
  0 <= v < 256 → rest_of r (w_u8 v ++ rest) → ∃ r', r_u8 r = Some (v, r') ∧ rest_of r' rest.
Proof.
  intros Hv Hr. destruct (r_need_rest r _ _ Hr) as (r' & Hn & Hr' & Hl & Hd). exists r'. split; [|done].
  unfold r_u8. change (r_need r 1) with (r_need r (length (w_u8 v))). rewrite Hn. cbn [mbind option_bind].
  change (r_at r' 1) with (r_at r' (length (w_u8 v))). rewrite (r_at_rest r' (w_u8 v) rest) by (cbn; done || lia).
  cbn [nth w_u8]. by rewrite uchar_byte_of_Z, Z.mod_small.
Qed.

Lemma r_u8_short r v p q : w_u8 v = p ++ q → q ≠ [] → rest_of r p → r_u8 r = None.
Proof.
  intros He Hq Hr. unfold r_u8. by rewrite (r_need_short r 1 p Hr (short_prefix _ _ _ He Hq)).
Qed.

Definition c_u8 : codec Z := Codec w_u8 r_u8 (λ v, 0 <= v < 256) r_u8_ok (λ r v p q _, r_u8_short r v p q).

Lemma r_u32_ok r v rest :
  0 <= v < 2 ^ 32 → rest_of r (w_u32 v ++ rest) → ∃ r', r_u32 r = Some (v, r') ∧ rest_of r' rest.
Proof.
  intros Hv Hr. destruct (r_need_rest r _ _ Hr) as (r' & Hn & Hr' & Hl & Hd). exists r'. split; [|done].
  unfold r_u32. change (r_need r 4) with (r_need r (length (w_u32 v))). rewrite Hn. cbn [mbind option_bind]. do 2 f_equal.
  change (r_at r' 4) with (r_at r' (length (w_u32 v))). rewrite !(r_at_rest r' (w_u32 v) rest) by (cbn; done || lia).
  cbn [nth w_u32]. unfold wrapu32. rewrite Z.mod_small by lia. rewrite !uchar_byte_of_Z, !Z.shiftr_div_pow2 by lia.
  rewrite <- (Z.div_1_r v) at 4. by apply u32_bytes.
Qed.

Lemma r_u32_short r v p q : w_u32 v = p ++ q → q ≠ [] → rest_of r p → r_u32 r = None.
Proof.
  intros He Hq Hr. unfold r_u32. by rewrite (r_need_short r 4 p Hr (short_prefix _ _ _ He Hq)).
Qed.

Definition c_u32 : codec Z := Codec w_u32 r_u32 (λ v, 0 <= v < 2 ^ 32) r_u32_ok (λ r v p q _, r_u32_short r v p q).

Lemma r_u64_ok r v rest :
  0 <= v < 2 ^ 64 → rest_of r (w_u64 v ++ rest) → ∃ r', r_s64 r = Some (wraps64 v, r') ∧ rest_of r' rest.
Proof.
  intros Hv Hr. destruct (r_need_rest r _ _ Hr) as (r' & Hn & Hr' & Hl & Hd). exists r'. split; [|done].
  unfold r_s64. change (r_need r 8) with (r_need r (length (w_u64 v))). rewrite Hn. cbn [mbind option_bind]. do 3 f_equal.
  change (r_at r' 8) with (r_at r' (length (w_u64 v))). cbn [seq foldl].
  rewrite !(r_at_rest r' (w_u64 v) rest) by (cbn; done || lia). cbn [nth w_u64].
  rewrite !uchar_byte_of_Z, !Z.shiftr_div_pow2 by lia. rewrite <- (u64_bytes v Hv) at 9. cbn [foldl].
  change (2 ^ 0) with 1. by rewrite Z.div_1_r.
Qed.

Lemma r_s64_short r v p q : w_u64 v = p ++ q → q ≠ [] → rest_of r p → r_s64 r = None.
Proof.
  intros He Hq Hr. unfold r_s64. by rewrite (r_need_short r 8 p Hr (short_prefix _ _ _ He Hq)).
Qed.

Lemma r_s64_ok r v rest :
  in_ll v → rest_of r (w_s64 v ++ rest) → ∃ r', r_s64 r = Some (v, r') ∧ rest_of r' rest.
Proof.
  intros Hv Hr. destruct (r_u64_ok r _ rest (wrapu64_range v) Hr) as (r' & -> & Hr').
  rewrite wraps64_wrapu64, wraps64_id by done. eauto.
Qed.

Definition c_s64 : codec Z := Codec w_s64 r_s64 in_ll r_s64_ok (λ r v p q _, r_s64_short r (wrapu64 v) p q).

(** A length that fits its field. *)
Definition len32 {A} (s : list A) : Prop := zlen s < 2 ^ 32.

Lemma len32_range {A} (s : list A) : len32 s → 0 <= zlen s < 2 ^ 32.
Proof. unfold len32, zlen. lia. Qed.

Lemma r_bytes_ok r s rest :
  len32 s → rest_of r (w_bytes s ++ rest) → ∃ r', r_bytes r = Some (s, r') ∧ rest_of r' rest.
Proof.
  intros Hs Hr. unfold w_bytes in Hr. rewrite <- app_assoc in Hr.
  destruct (r_u32_ok r (zlen s) _ (len32_range _ Hs) Hr) as (r1 & Hu & Hr1).
  destruct (r_need_rest r1 _ _ Hr1) as (r2 & Hn & Hr2 & Hl & Hd). exists r2. split; [|done].
  unfold r_bytes. rewrite Hu. cbn [mbind option_bind]. unfold zlen. rewrite Nat2Z.id, Hn. cbn [mbind option_bind].
  by rewrite Hd, take_app_length.
Qed.

Lemma r_bytes_short r s p q : len32 s → w_bytes s = p ++ q → q ≠ [] → rest_of r p → r_bytes r = None.
Proof.
  intros Hs He Hq Hr. unfold r_bytes. pose proof (short_prefix _ _ _ He Hq) as Hl. unfold w_bytes in He, Hl.
  destruct (decide (length p < 4)%nat) as [Hp|Hp].
  { unfold r_u32. by rewrite (r_need_short r 4 p Hr Hp). }
  apply app_eq_app in He as [l [[Hwu Hq']|[Hp' Hs']]].
  - pose proof (f_equal length Hwu) as Hlen. rewrite length_app in Hlen. change (length (w_u32 (zlen s))) with 4%nat in Hlen.
    assert (l = []) as -> by (destruct l; [done|cbn in Hlen; lia]). cbn in Hq'. rewrite app_nil_r in Hwu. subst p q.
    rewrite <- (app_nil_r (w_u32 (zlen s))) in Hr.
    destruct (r_u32_ok r (zlen s) _ (len32_range _ Hs) Hr) as (r1 & -> & Hr1). cbn [mbind option_bind].
    rewrite (r_need_short r1 _ [] Hr1); [done|]. unfold zlen. rewrite Nat2Z.id. destruct s; [done|cbn; lia].
  - subst p s. destruct (r_u32_ok r (zlen (l ++ q)) _ (len32_range _ Hs) Hr) as (r1 & -> & Hr1). cbn [mbind option_bind].
    rewrite (r_need_short r1 _ l Hr1); [done|]. unfold zlen. rewrite Nat2Z.id, length_app. destruct q; [done|cbn; lia].
Qed.

Definition c_bytes : codec bytes := Codec w_bytes r_bytes len32 r_bytes_ok r_bytes_short.

(** ** Pairs *)

Section Pair.
Context {A B} (a : codec A) (b : codec B).

Definition w_pair (x : A * B) : bytes := enc a x.1 ++ enc b x.2.
Definition pair_writable (x : A * B) : Prop := writable a x.1 ∧ writable b x.2.

Lemma r_pair_ok r x rest :
  pair_writable x → rest_of r (w_pair x ++ rest) → ∃ r', r_pair (dec a) (dec b) r = Some (x, r') ∧ rest_of r' rest.
Proof.
  intros [Hx Hy] Hr. unfold w_pair in Hr. rewrite <- app_assoc in Hr. unfold r_pair.
  destruct (dec_enc a r _ _ Hx Hr) as (r1 & -> & H1). cbn [mbind option_bind].
  destruct (dec_enc b r1 _ _ Hy H1) as (r2 & -> & H2). cbn [mbind option_bind]. rewrite <- surjective_pairing. eauto.
Qed.

(** A proper prefix of two encodings in a row stops in the first or in the second. *)
Lemma app_short (u v p q : bytes) :
  u ++ v = p ++ q → q ≠ [] → (∃ l, u = p ++ l ∧ l ≠ []) ∨ (∃ l, p = u ++ l ∧ v = l ++ q).
Proof.
  intros He Hq. apply app_eq_app in He as [l [[-> ->]|[-> ->]]]; [|right; by eauto].
  destruct l as [|c l]; [right; exists []; by rewrite !app_nil_r|left; by eexists].
Qed.

Lemma r_pair_short r x p q :
  pair_writable x → w_pair x = p ++ q → q ≠ [] → rest_of r p → r_pair (dec a) (dec b) r = None.
Proof.
  intros [Hx Hy] He Hq Hr. unfold r_pair. destruct (app_short _ _ _ _ He Hq) as [(l & Hl & Hne)|(l & -> & Hl)].
  - by rewrite (dec_short a r _ _ _ Hx Hl Hne Hr).
  - destruct (dec_enc a r _ _ Hx Hr) as (r1 & -> & H1). cbn [mbind option_bind].
    by rewrite (dec_short b r1 _ _ _ Hy Hl Hq H1).
Qed.

Definition c_pair : codec (A * B) := Codec w_pair (r_pair (dec a) (dec b)) pair_writable r_pair_ok r_pair_short.

End Pair.

(** ** Doubles *)

(** A number of the binary64 format. *)
Definition binary64 (d : double) : bool := not_nan d && valid_binary 53 1024 d.

Lemma digits_bound m n : 0 <= n → (Zpos (digits2_pos m) <= n ↔ Zpos m < 2 ^ n).
Proof.
  intros Hn. assert (∀ m, 2 ^ (Zpos (digits2_pos m) - 1) <= Zpos m < 2 ^ Zpos (digits2_pos m)) as Hd.
  { clear. induction m as [m IH|m IH|]; cbn [digits2_pos]; [..|cbn; lia].
    all: rewrite Pos2Z.inj_succ; replace (Z.succ (Zpos (digits2_pos m)) - 1) with (Z.succ (Zpos (digits2_pos m) - 1)) by lia;
      rewrite !Z.pow_succ_r by lia; lia. }
  destruct (Hd m) as [Hlo Hhi]. split; intros H.
  - eapply Z.lt_le_trans; [done|]. apply Z.pow_le_mono_r; lia.
  - destruct (decide (Zpos (digits2_pos m) <= n)); [done|]. exfalso.
    assert (2 ^ n <= 2 ^ (Zpos (digits2_pos m) - 1)) by (apply Z.pow_le_mono_r; lia). lia.
Qed.

(** The mantissas and exponents of the format. *)
Lemma valid_finite s m e :
  valid_binary 53 1024 (S754_finite s m e) = true →
  (Zpos m < 2 ^ 52 ∧ e = -1074) ∨ (2 ^ 52 <= Zpos m < 2 ^ 53 ∧ -1074 <= e <= 971).
Proof.
  cbn. unfold bounded, canonical_mantissa, fexp, emin. intros H.
  apply andb_true_iff in H as [H1 H2]. apply Z.eqb_eq in H1. apply Z.leb_le in H2.
  pose proof (digits_bound m 52 ltac:(lia)). pose proof (digits_bound m 53 ltac:(lia)). lia.
Qed.

Lemma bits_range d : binary64 d = true → 0 <= bits_of_double d < 2 ^ 64.
Proof.
  unfold binary64. destruct d as [s|s| |s m e]; try done; intros H; cbn [bits_of_double]; [destruct s; lia..|].
  apply andb_true_iff in H as [_ H]. apply valid_finite in H. destruct (Z.ltb_spec (Zpos m) (2 ^ 52)); destruct s; lia.
Qed.

(** Sign, exponent and fraction of a bit pattern. *)
Lemma fields_of_bits (s : bool) e f :
  0 <= e < 2048 → 0 <= f < 2 ^ 52 →
  let u := (if s then 2 ^ 63 else 0) + (e * 2 ^ 52 + f) in
  Z.testbit u 63 = s ∧ Z.land (Z.shiftr u 52) 2047 = e ∧ Z.land u (2 ^ 52 - 1) = f.
Proof.
  intros He Hf u. split; [|split].
  - rewrite Z.testbit_eqb by lia. assert (u / 2 ^ 63 = if s then 1 else 0) as ->; [|by destruct s].
    symmetry. apply (Z.div_unique_pos _ _ _ (e * 2 ^ 52 + f)); unfold u; destruct s; lia.
  - change 2047 with (Z.ones 11). rewrite Z.land_ones, Z.shiftr_div_pow2 by lia.
    assert (u / 2 ^ 52 = (if s then 2 ^ 11 else 0) + e) as ->.
    { symmetry. apply (Z.div_unique_pos _ _ _ f); unfold u; destruct s; lia. }
    symmetry. apply (Z.mod_unique_pos _ _ (if s then 1 else 0)); destruct s; lia.
  - change (2 ^ 52 - 1) with (Z.ones 52). rewrite Z.land_ones by lia.
    symmetry. apply (Z.mod_unique_pos _ _ ((if s then 2 ^ 11 else 0) + e)); unfold u; destruct s; lia.
Qed.

Lemma double_bits_roundtrip d : binary64 d = true → double_of_bits (bits_of_double d) = d.
Proof.
  unfold binary64. intros H. assert (∃ s e f, 0 <= e < 2048 ∧ 0 <= f < 2 ^ 52 ∧
    bits_of_double d = (if s : bool then 2 ^ 63 else 0) + (e * 2 ^ 52 + f) ∧
    (if e =? 2047 then (if f =? 0 then S754_infinity s else S754_nan)
     else if e =? 0 then (if f =? 0 then S754_zero s else S754_finite s (Z.to_pos f) (-1074))
     else S754_finite s (Z.to_pos (f + 2 ^ 52)) (e - 1075)) = d) as (s & e & f & He & Hf & -> & Hd).
  { destruct d as [s|s| |s m e]; try done.
    - exists s, 0, 0. destruct s; done.
    - exists s, 2047, 0. destruct s; done.
    - apply andb_true_iff in H as [_ H]. apply valid_finite in H. destruct (Z.ltb_spec (Zpos m) (2 ^ 52)) as [Hm|Hm].
      + exists s, 0, (Zpos m). cbn [bits_of_double]. rewrite (proj2 (Z.ltb_lt _ _)) by done.
        do 2 (split; [lia|]). split; [done|]. cbn. f_equal. lia.
      + exists s, (e + 1075), (Zpos m - 2 ^ 52). cbn [bits_of_double]. rewrite (proj2 (Z.ltb_ge _ _)) by lia.
        do 2 (split; [lia|]). split; [done|]. rewrite (proj2 (Z.eqb_neq _ _)), (proj2 (Z.eqb_neq _ 0)) by lia. f_equal; [|lia].
        rewrite Z.sub_add. done. }
  unfold double_of_bits. destruct (fields_of_bits s e f He Hf) as (-> & -> & ->). exact Hd.
Qed.

Lemma r_f64_ok r d rest :
  binary64 d = true → rest_of r (w_f64 d ++ rest) → ∃ r', r_f64 r = Some (d, r') ∧ rest_of r' rest.
Proof.
  intros Hd Hr. destruct (r_u64_ok r _ rest (bits_range d Hd) Hr) as (r' & Hs & Hr'). exists r'. split; [|done].
  unfold r_f64. rewrite Hs. cbn [mbind option_bind]. do 2 f_equal.
  assert (wrapu64 (wraps64 (bits_of_double d)) = bits_of_double d) as ->; [|by apply double_bits_roundtrip].
  pose proof (bits_range d Hd). unfold wrapu64, wraps64. rewrite Zminus_mod_idemp_l.
  rewrite Z.add_simpl_r. by apply Z.mod_small.
Qed.

Lemma r_f64_short r d p q : w_f64 d = p ++ q → q ≠ [] → rest_of r p → r_f64 r = None.
Proof. intros He Hq Hr. unfold r_f64. by rewrite (r_s64_short r _ _ _ He Hq Hr). Qed.

Definition c_f64 : codec double :=
  Codec w_f64 r_f64 (λ d, binary64 d = true) r_f64_ok (λ r d p q _, r_f64_short r d p q).
