(* ===== verification/Double.v ===== *)
(** * Text of doubles

    [strtod] and the ["%.17g"] conversion of the C library, in the "C" locale and
    rounding to nearest, as exact arithmetic on integers; and [parse_double],
    [parse_score_arg] and [reply_double] of [src/db.c]. *)

From Stdlib Require Import Floats.SpecFloat.
From S2P Require Import Prelude Util Zskiplist.
Import Num.

(** ** Positive rationals *)

(** [num / den * b ^ e] as a quotient of integers. *)
Definition scale (b num den e : Z) : Z * Z :=
  if 0 <=? e then (num * b ^ e, den) else (num, den * b ^ (- e)).

(** The quotient rounded to the nearest integer, ties to even. *)
Definition div_even (a b : Z) : Z :=
  let q := a / b in
  let r := a mod b in
  if 2 * r <? b then q else if b <? 2 * r then q + 1 else if Z.even q then q else q + 1.

(** ** ["%.17g"] *)

(** The decimal exponent: the greatest [x] from the start on with [10 ^ x <= num / den]. *)
Fixpoint dec_exponent (fuel : nat) (x num den : Z) : Z :=
  match fuel with
  | O => x
  | S fuel =>
      let '(n, d) := scale 10 num den (- (x + 1)) in
      if d <=? n then dec_exponent fuel (x + 1) num den else x
  end.

(** The decimal exponents of doubles lie between -324 and 308. *)
Definition MIN_EXP10 : Z := -324.
Definition EXP10_FUEL : nat := 640.

Fixpoint drop_zeros (s : bytes) : bytes :=
  match s with c :: s' => if decide (c = x30) then drop_zeros s' else s | [] => [] end.
Definition strip_zeros (s : bytes) : bytes := reverse (drop_zeros (reverse s)).

(** A decimal point and the digits after it, unless they are all zero. *)
Definition fraction (s : bytes) : bytes := match strip_zeros s with [] => [] | f => bs "." ++ f end.

(** 17 digits and the exponent of the first one. *)
Definition layout_g (digits : bytes) (x : Z) : bytes :=
  if (x <? -4) || (17 <=? x) then
    take 1 digits ++ fraction (drop 1 digits) ++ bs "e" ++ (if x <? 0 then bs "-" else bs "+") ++
    (if Z.abs x <? 10 then bs "0" else []) ++ dec_of (Z.abs x)
  else if 0 <=? x then
    take (Z.to_nat (x + 1)) digits ++ fraction (drop (Z.to_nat (x + 1)) digits)
  else bs "0" ++ fraction (replicate (Z.to_nat (- x - 1)) x30 ++ digits).

Definition fmt_g17 (d : double) : bytes :=
  let sign (s : bool) := if s then bs "-" else [] in
  match d with
  | S754_zero s => sign s ++ bs "0"
  | S754_infinity s => sign s ++ bs "inf"
  | S754_nan => bs "nan"
  | S754_finite s m e =>
      let '(num, den) := scale 2 (Zpos m) 1 e in
      let x := dec_exponent EXP10_FUEL MIN_EXP10 num den in
      let '(n, d) := scale 10 num den (16 - x) in
      let q := div_even n d in
      let '(q, x) := if q =? 10 ^ 17 then (10 ^ 16, x + 1) else (q, x) in
      sign s ++ layout_g (dec_of q) x
  end.

(** ** [strtod] *)

Definition isspace (c : byte) : bool := (uchar c =? 32) || ((9 <=? uchar c) && (uchar c <=? 13)).

Fixpoint skip_spaces (s : bytes) : bytes :=
  match s with c :: s' => if isspace c then skip_spaces s' else s | [] => [] end.

(** An optional sign. *)
Definition take_sign (s : bytes) : bool * bytes :=
  match s with
  | c :: s' => if decide (c = x2d) then (true, s') else if decide (c = x2b) then (false, s') else (false, s)
  | [] => (false, s)
  end.

(** The value of a digit in base 10 or 16. *)
Definition digit_value (base : Z) (c : byte) : option Z :=
  let c := uchar (tolower c) in
  if (48 <=? c) && (c <=? 57) then Some (c - 48)
  else if (base =? 16) && (97 <=? c) && (c <=? 102) then Some (c - 87)
  else None.

(** A run of digits: accumulated value, number of digits, rest. *)
Fixpoint take_digits (base acc : Z) (n : nat) (s : bytes) : Z * nat * bytes :=
  match s with
  | c :: s' =>
      match digit_value base c with
      | Some v => take_digits base (acc * base + v) (S n) s'
      | None => (acc, n, s)
      end
  | [] => (acc, n, [])
  end.

(** Digits with an optional point: mantissa, digits after the point, digits in
    all, rest. *)
Definition take_mantissa (base : Z) (s : bytes) : Z * nat * nat * bytes :=
  let '(m, n, s) := take_digits base 0 0 s in
  match s with
  | c :: s' =>
      if decide (c = x2e) then
        let '(m', k, s'') := take_digits base m 0 s' in
        if (n + k =? 0)%nat then (m, 0%nat, 0%nat, s) else (m', k, (n + k)%nat, s'')
      else (m, 0%nat, n, s)
  | [] => (m, 0%nat, n, s)
  end.

(** An optional exponent after the letter [e] or [p]; without digits it is not
    part of the number. *)
Definition take_exponent (letter : byte) (s : bytes) : Z * bytes :=
  match s with
  | c :: s' =>
      if decide (tolower c = letter) then
        let '(neg, s'') := take_sign s' in
        let '(e, n, rest) := take_digits 10 0 0 s'' in
        if (n =? 0)%nat then (0, s) else (if neg then - e else e, rest)
      else (0, s)
  | [] => (0, s)
  end.

(** The double nearest to [num / den], ties to even. *)
Definition round_quotient (s : bool) (num den : Z) : double :=
  let '(q, e, l) := SFdiv_core_binary 53 1024 num 0 den 0 in
  binary_round_aux 53 1024 s q e l.

(** [ERANGE]: the result is infinite, or it is inexact and the value, rounded to 53
    bits, is below the least normal number. *)
Definition out_of_range (num den : Z) (d : double) : bool :=
  match d with
  | S754_infinity _ | S754_nan => true
  | S754_zero _ => negb (num =? 0)
  | S754_finite _ m e =>
      let '(n, k) := scale 2 (Zpos m) 1 e in
      (num * 2 ^ 1076 <? den * (2 ^ 54 - 1)) && negb (n * den =? num * k)
  end.

(** The value [m * base ^ e]; a value beyond the range of doubles by its exponent
    alone is not computed. *)
Definition number_value (s : bool) (base m e : Z) : double * bool :=
  if m =? 0 then (S754_zero s, false)
  else if e >? 1100 then (S754_infinity s, true)
  else if Z.log2 m + e <? -1200 then (S754_zero s, true)
  else
    let '(num, den) := scale base m 1 e in
    let d := round_quotient s num den in
    (d, out_of_range num den d).

(** [s] starts with the lower-case word [w], ignoring case. *)
Definition starts_with (w s : bytes) : bool := bool_decide (tolower <$> take (length w) s = w).

(** The value, the rest of the string ([endptr]), and whether [errno] became
    [ERANGE]; [None] when no conversion could be performed.  The text after "nan"
    is never used: a NaN is refused by every caller. *)
Definition strtod (str : bytes) : option (double * bytes * bool) :=
  let '(neg, s) := take_sign (skip_spaces str) in
  if starts_with (bs "infinity") s then Some (S754_infinity neg, drop 8 s, false)
  else if starts_with (bs "inf") s then Some (S754_infinity neg, drop 3 s, false)
  else if starts_with (bs "nan") s then Some (S754_nan, drop 3 s, false)
  else
    let '(m, k, n, rest) := if starts_with (bs "0x") s then take_mantissa 16 (drop 2 s) else (0, 0%nat, 0%nat, s) in
    if (0 <? n)%nat then
      let '(e, rest) := take_exponent x70 rest in
      let '(d, erange) := number_value neg 2 m (e - 4 * Z.of_nat k) in
      Some (d, rest, erange)
    else
      let '(m, k, n, rest) := take_mantissa 10 s in
      if (n =? 0)%nat then None
      else
        let '(e, rest) := take_exponent x65 rest in
        let '(d, erange) := number_value neg 10 m (e - Z.of_nat k) in
        Some (d, rest, erange).

(** ** The functions of [src/db.c] *)

Definition parse_double (s : bytes) : option double :=
  match s with
  | [] => None
  | _ =>
      match strtod s with
      | None => None
      | Some (d, rest, erange) =>
          if (erange : bool) then None
          else match rest with
               | [] => match d with S754_nan => None | d => Some d end
               | _ => None
               end
      end
  end.

(** The bound and whether it is exclusive. *)
Definition parse_score_arg (arg : bytes) : option (double * bool) :=
  match arg with
  | c :: rest =>
      if decide (c = x28) then d ← parse_double rest; Some (d, true)
      else d ← parse_double arg; Some (d, false)
  | [] => d ← parse_double arg; Some (d, false)
  end.

Lemma parse_double_number s d : parse_double s = Some d → d ≠ S754_nan.
Proof.
  unfold parse_double. destruct s as [|c s]; [done|]. destruct (strtod (c :: s)) as [[[d' rest] []]|]; [done| |done].
  destruct rest; [|done]. by destruct d'; intros [= <-].
Qed.

Lemma parse_score_arg_number s d ex : parse_score_arg s = Some (d, ex) → d ≠ S754_nan.
Proof.
  unfold parse_score_arg. destruct s as [|c s]; [done|]. case_decide.
  - destruct (parse_double s) as [d'|] eqn:E; [|done]. intros [= <- <-]. by eapply parse_double_number.
  - destruct (parse_double (c :: s)) as [d'|] eqn:E; [|done]. intros [= <- <-]. by eapply parse_double_number.
Qed.

(** ** Samples *)

Example parse_double_samples :
  parse_double (bs "0.1") = Some (S754_finite false 7205759403792794 (-56)) ∧
  parse_double (bs "0x1.8p3") = Some (S754_finite false 6755399441055744 (-49)) ∧
  parse_double (bs "-Infinity") = Some (S754_infinity true) ∧
  parse_double (bs "1e400") = None ∧ parse_double (bs "5e-324") = None ∧ parse_double (bs "1.5 ") = None.
Proof. repeat split; vm_compute; reflexivity. Qed.

(** ** Printed doubles are C strings *)

Lemma nul_free_app s t : nul_free (s ++ t) ↔ nul_free s ∧ nul_free t.
Proof. unfold nul_free. set_solver. Qed.

Lemma nul_free_sub s t : (∀ c, c ∈ t → c ∈ s) → nul_free s → nul_free t.
Proof. unfold nul_free. auto. Qed.

Lemma nul_free_dec n : 0 <= n → nul_free (dec_of n).
Proof.
  intros Hn. destruct (dec_of_spec n Hn) as (_ & Hd & _). rewrite Forall_forall in Hd. intros Hin. apply Hd in Hin.
  unfold is_digit in Hin. change (uchar NUL) with 0 in Hin. lia.
Qed.

Lemma drop_zeros_sub s c : c ∈ drop_zeros s → c ∈ s.
Proof. induction s as [|b s IH]; [done|]. cbn. case_decide; set_solver. Qed.

Lemma nul_free_fraction s : nul_free s → nul_free (fraction s).
Proof.
  intros Hs. assert (nul_free (strip_zeros s)) as H.
  { eapply nul_free_sub; [|done]. intros c. unfold strip_zeros. rewrite elem_of_reverse.
    intros Hc%drop_zeros_sub. by rewrite elem_of_reverse in Hc. }
  unfold fraction. destruct (strip_zeros s); [done|]. apply nul_free_app. split; [|done]. by apply (bool_decide_unpack _).
Qed.

Lemma scale_pos b num den e :
  0 < b → 0 < num → 0 < den → 0 < (scale b num den e).1 ∧ 0 < (scale b num den e).2.
Proof.
  intros. unfold scale. destruct (Z.leb_spec 0 e); cbn; split; try done; apply Z.mul_pos_pos; try done;
    apply Z.pow_pos_nonneg; lia.
Qed.

Lemma div_even_nonneg a b : 0 < a → 0 < b → 0 <= div_even a b.
Proof. intros. unfold div_even. pose proof (Z.div_pos a b). repeat case_match; lia. Qed.

Lemma nul_free_layout s x : nul_free s → nul_free (layout_g s x).
Proof.
  intros Hs. assert (∀ n, nul_free (take n s) ∧ nul_free (drop n s)) as Hn.
  { intros n. rewrite <- nul_free_app. by rewrite take_drop. }
  pose proof (λ n, proj1 (Hn n)) as Ht. pose proof (λ n, proj2 (Hn n)) as Hd. clear Hn.
  unfold layout_g. repeat case_match; rewrite ?nul_free_app; repeat split;
    try apply nul_free_fraction; rewrite ?nul_free_app; repeat split; auto;
    try (apply (bool_decide_unpack _); reflexivity); try (apply nul_free_dec; lia).
  all: unfold nul_free; rewrite elem_of_replicate; intros [? _]; done.
Qed.

Lemma fmt_g17_nul_free d : nul_free (fmt_g17 d).
Proof.
  destruct d as [s|s| |s m e]; cbn [fmt_g17]; [by destruct s; apply (bool_decide_unpack _)..|by apply (bool_decide_unpack _)|].
  pose proof (scale_pos 2 (Zpos m) 1 e) as H1. destruct (scale 2 (Zpos m) 1 e) as [num den]. cbn [fst snd] in H1.
  set (x := dec_exponent _ _ _ _). pose proof (scale_pos 10 num den (16 - x)) as H2.
  destruct (scale 10 num den (16 - x)) as [n k]. cbn [fst snd] in H2.
  pose proof (div_even_nonneg n k) as H3. destruct (div_even n k =? 10 ^ 17); apply nul_free_app.
  all: split; [by destruct s; apply (bool_decide_unpack _)|]; apply nul_free_layout, nul_free_dec; lia.
Qed.

Lemma cstr_fmt_g17 d : cstr (fmt_g17 d) = fmt_g17 d.
Proof. apply cstr_id, fmt_g17_nul_free. Qed.
