(* ===== verification/Rounding.v ===== *)
(** * Rounding of quotients

    [round_quotient], the last step of [strtod], returns a double that is close enough
    to the quotient: a normal double [m * 2 ^ e] is the result for every quotient less
    than half a unit away from it (a quarter below a power of two).  Quotients are
    compared with [m * 2 ^ e] after both were multiplied by [2 ^ K]. *)

From Stdlib Require Import Floats.SpecFloat.
From S2P Require Import Prelude Util Zskiplist Double.

(** ** Shift records *)

(** The record stands for [a / b]: the integer part, and where the rest lies with
    respect to one half. *)
Definition represents (mrs : shr_record) (a b : Z) : Prop :=
  let m := shr_m mrs in
  0 <= m ∧
  match shr_r mrs, shr_s mrs with
  | false, false => a = m * b
  | false, true => m * b < a ∧ 2 * a < (2 * m + 1) * b
  | true, false => 2 * a = (2 * m + 1) * b
  | true, true => (2 * m + 1) * b < 2 * a ∧ a < (m + 1) * b
  end.

Lemma shr_1_represents mrs a b : 0 < b → represents mrs a b → represents (shr_1 mrs) a (2 * b).
Proof.
  destruct mrs as [m r s]. unfold represents. cbn [shr_m shr_r shr_s]. intros Hb [Hm H].
  destruct m as [|[p|p|]|p]; [..|lia]; destruct r, s; cbn [shr_1 shr_m shr_r shr_s orb] in *; lia.
Qed.

Lemma iter_represents p : ∀ mrs a b, 0 < b → represents mrs a b → represents (SpecFloat.iter_pos shr_1 p mrs) a (2 ^ Zpos p * b).
Proof.
  assert (∀ n b, 0 <= n → 0 < b → 0 < 2 ^ n * b) as Hpos by (intros; apply Z.mul_pos_pos; [by apply Z.pow_pos_nonneg|done]).
  induction p as [p IH|p IH|]; intros mrs a b Hb H; cbn [SpecFloat.iter_pos].
  - assert (2 ^ Zpos p~1 * b = 2 ^ Zpos p * (2 ^ Zpos p * (2 * b))) as ->.
    { replace (Zpos p~1) with (1 + Zpos p + Zpos p) by lia. rewrite !Z.pow_add_r by lia. ring. }
    apply IH; [apply Hpos; lia|apply IH; [lia|by apply shr_1_represents]].
  - assert (2 ^ Zpos p~0 * b = 2 ^ Zpos p * (2 ^ Zpos p * b)) as ->.
    { replace (Zpos p~0) with (Zpos p + Zpos p) by lia. rewrite !Z.pow_add_r by lia. ring. }
    apply IH; [by apply Hpos|by apply IH].
  - by apply shr_1_represents.
Qed.

Lemma shr_represents mrs e n a b :
  0 <= n → 0 < b → represents mrs a b → ∃ mrs', shr mrs e n = (mrs', e + n) ∧ represents mrs' a (2 ^ n * b).
Proof.
  intros Hn Hb H. destruct n as [|p|p]; [..|lia]; cbn [shr].
  - exists mrs. split; [f_equal; lia|]. by rewrite Z.mul_1_l.
  - eexists. split; [done|]. by apply iter_represents.
Qed.

(** Rounding a number that is less than a half away from an integer. *)
Lemma round_represents mrs a b n :
  0 < b → represents mrs a b → 2 * Z.abs (a - n * b) < b → round_nearest_even (shr_m mrs) (loc_of_shr_record mrs) = n.
Proof.
  destruct mrs as [m r s]. unfold represents. cbn [shr_m shr_r shr_s]. intros Hb [_ H] Hn.
  assert (- b < 2 * a - 2 * (n * b) < b) as Hn' by lia. clear Hn.
  destruct r, s; cbn [loc_of_shr_record round_nearest_even].
  - nia.
  - exfalso. assert (-1 < 2 * (m - n) + 1 < 1) by nia. lia.
  - nia.
  - nia.
Qed.

(** ** The quotient *)

Lemma new_location_represents q r b :
  0 < b → 0 <= q → 0 <= r < b → represents (shr_record_of_loc q (new_location b r)) (q * b + r) b.
Proof.
  intros Hb Hq Hr. unfold new_location, new_location_even, new_location_odd. pose proof (Z.div_mod b 2) as Hd.
  rewrite Zmod_even in Hd. destruct (Z.even b); destruct (Z.eqb_spec r 0) as [->|Hr0]; unfold represents;
    try (cbn [shr_record_of_loc shr_m shr_r shr_s]; lia).
  - destruct (Z.compare_spec (2 * r) b); cbn [shr_record_of_loc shr_m shr_r shr_s]; lia.
  - destruct (Z.compare_spec (2 * r + 1) b); cbn [shr_record_of_loc shr_m shr_r shr_s]; lia.
Qed.

Lemma Zdigits2_log2 n : 0 < n → Zdigits2 n = Z.log2 n + 1.
Proof.
  destruct n as [|p|p]; [lia| |lia]. intros _. assert (digits2_pos p = Pos.size p) as Hs by (induction p; cbn; congruence).
  cbn [Zdigits2]. rewrite Hs. destruct p; cbn; lia.
Qed.

(** What is left to do once the quotient was rounded to the integer [n] with the
    exponent [e]. *)
Definition finish (s : bool) (n e : Z) : double :=
  let '(mrs, e) := shr_fexp 53 1024 n e loc_Exact in
  match shr_m mrs with
  | Z0 => S754_zero s
  | Zpos m => if e <=? 971 then S754_finite s m e else S754_infinity s
  | Zneg _ => S754_nan
  end.

(** Greater than the exponent of any double. *)
Definition K : Z := 1100.

Lemma K_big : 1100 <= K.
Proof. done. Qed.

Lemma pow2_pos n : 0 <= n → 0 < 2 ^ n.
Proof. intros. by apply Z.pow_pos_nonneg. Qed.

Section Quotient.
Context (num den k : Z) (Hnum : 0 < num) (Hden : 0 < den) (Hk : -1074 <= k <= 1024).
Context (Hlow : den * 2 ^ (k + K) <= num * 2 ^ K) (Hhigh : num * 2 ^ K < den * 2 ^ (k + 1 + K)).

(** The integer logarithms of the operands give the exponent up to one. *)
Lemma quotient_log : k <= Z.log2 num - Z.log2 den <= k + 1.
Proof.
  pose proof (Z.log2_spec num Hnum) as [Hn1 Hn2]. pose proof (Z.log2_spec den Hden) as [Hd1 Hd2]. pose proof K_big.
  pose proof (Z.log2_nonneg num). pose proof (Z.log2_nonneg den). pose proof (pow2_pos K). pose proof (pow2_pos (k + K)).
  pose proof (pow2_pos (k + 1 + K)).
  assert (2 ^ (Z.log2 den + (k + K)) < 2 ^ (Z.succ (Z.log2 num) + K)) as Hl1.
  { rewrite (Z.pow_add_r 2 (Z.log2 den)), (Z.pow_add_r 2 (Z.succ _)) by lia.
    apply Z.le_lt_trans with (den * 2 ^ (k + K)); [apply Z.mul_le_mono_nonneg_r; lia|].
    apply Z.le_lt_trans with (num * 2 ^ K); [done|]. apply Z.mul_lt_mono_pos_r; lia. }
  assert (2 ^ (Z.log2 num + K) < 2 ^ (Z.succ (Z.log2 den) + (k + 1 + K))) as Hl2.
  { rewrite (Z.pow_add_r 2 (Z.log2 num)), (Z.pow_add_r 2 (Z.succ _)) by lia.
    apply Z.le_lt_trans with (num * 2 ^ K); [apply Z.mul_le_mono_nonneg_r; lia|].
    apply Z.lt_trans with (den * 2 ^ (k + 1 + K)); [done|]. apply Z.mul_lt_mono_pos_r; lia. }
  apply Z.pow_lt_mono_r_iff in Hl1, Hl2; lia.
Qed.

(** The integer part of the quotient of the mantissas has the right length. *)
Lemma quotient_digits e : -1074 <= e <= k → e <= 0 →
  let q := num * 2 ^ (- e) / den in 0 < q ∧ Zdigits2 q + e = k + 1.
Proof.
  intros He He0 q. pose proof K_big as HK. assert (den * 2 ^ (k - e) <= num * 2 ^ (- e) < den * 2 ^ Z.succ (k - e)) as Hb.
  { pose proof (pow2_pos (K + e)) as Hp. assert (∀ a, 0 <= a → 2 ^ (a + (K + e)) = 2 ^ a * 2 ^ (K + e)) as Ha by (intros; apply Z.pow_add_r; lia).
    replace (k + K) with (k - e + (K + e)) in Hlow by lia. replace (k + 1 + K) with (Z.succ (k - e) + (K + e)) in Hhigh by lia.
    rewrite Ha in Hlow, Hhigh by lia. replace (2 ^ K) with (2 ^ (- e) * 2 ^ (K + e)) in Hlow, Hhigh by (rewrite <- Ha by lia; f_equal; lia).
    rewrite !Z.mul_assoc in Hlow, Hhigh. specialize (Hp ltac:(lia)).
    split; [by apply (Z.mul_le_mono_pos_r _ _ (2 ^ (K + e)))|by apply (Z.mul_lt_mono_pos_r (2 ^ (K + e)))]. }
  assert (2 ^ (k - e) <= q < 2 ^ Z.succ (k - e)) as Hq by (split; [apply Z.div_le_lower_bound; lia|apply Z.div_lt_upper_bound; lia]).
  pose proof (pow2_pos (k - e)). assert (0 < q) as Hq0 by lia. split; [done|]. rewrite Zdigits2_log2 by done.
  rewrite (Z.log2_unique q (k - e)); lia.
Qed.

(** The quotient is rounded to the integer it is close to, at the exponent of its
    leading digit. *)
Lemma round_near s n :
  let e := Z.max (k - 52) (-1074) in
  2 * Z.abs (num * 2 ^ K - n * (2 ^ (e + K) * den)) < 2 ^ (e + K) * den → round_quotient s num den = finish s n e.
Proof.
  intros e Hn. pose proof K_big as HK. pose proof quotient_log as Hlog. unfold round_quotient, SFdiv_core_binary.
  rewrite !Zdigits2_log2 by done. set (e' := Z.min _ _). assert (e' = Z.min (Z.max (Z.log2 num - Z.log2 den - 53) (-1074)) 0) as He'.
  { subst e'. unfold fexp, emin. lia. }
  clearbody e'. replace (match 0 - 0 - e' with Z0 => num | Zpos _ => Z.shiftl num (0 - 0 - e') | Zneg _ => 0 end) with (num * 2 ^ (- e')).
  2: { replace (0 - 0 - e') with (- e') by lia. rewrite <- Z.shiftl_mul_pow2 by lia. destruct (- e') eqn:E; [by rewrite Z.shiftl_0_r|done|lia]. }
  destruct (quotient_digits e') as [Hq Hdig]; [lia..|]. pose proof (Z.mod_pos_bound (num * 2 ^ (- e')) den Hden) as Hr.
  pose proof (Z.div_mod (num * 2 ^ (- e')) den) as Hdm. unfold Z.div, Z.modulo in *. destruct (Z.div_eucl _ den) as [q r].
  unfold binary_round_aux, shr_fexp at 1. rewrite Hdig.
  pose proof (new_location_represents q r den Hden ltac:(lia) Hr) as Hrep.
  destruct (shr_represents _ e' (fexp 53 1024 (k + 1) - e') _ _ ltac:(unfold fexp, emin; lia) Hden Hrep) as (mrs & -> & Hm).
  replace (e' + (fexp 53 1024 (k + 1) - e')) with e by (unfold fexp, emin; lia). replace (fexp 53 1024 (k + 1) - e') with (e - e') in Hm by (unfold fexp, emin; lia).
  replace (q * den + r) with (num * 2 ^ (- e')) in Hm by lia.
  rewrite (round_represents mrs (num * 2 ^ (- e')) (2 ^ (e - e') * den) n); [done|apply Z.mul_pos_pos; [apply pow2_pos; lia|done]|exact Hm|].
  apply (Z.mul_lt_mono_pos_r (2 ^ (K + e'))); [apply pow2_pos; lia|].
  rewrite <- Z.mul_assoc, <- (Z.abs_eq (2 ^ (K + e'))) at 1 by (pose proof (pow2_pos (K + e')); lia).
  rewrite <- Z.abs_mul, Z.mul_sub_distr_r.
  replace (num * 2 ^ (- e') * 2 ^ (K + e')) with (num * 2 ^ K) by (rewrite <- Z.mul_assoc, <- Z.pow_add_r by lia; do 2 f_equal; lia).
  replace (2 ^ (e - e') * den * 2 ^ (K + e')) with (2 ^ (e + K) * den).
  2: { replace (e + K) with (e - e' + (K + e')) by lia. rewrite Z.pow_add_r by lia. ring. }
  replace (n * (2 ^ (e - e') * den) * 2 ^ (K + e')) with (n * (2 ^ (e + K) * den)); [done|].
  replace (e + K) with (e - e' + (K + e')) by lia. rewrite Z.pow_add_r by lia. ring.
Qed.
End Quotient.

(** ** Normal doubles *)

(** A mantissa of 53 bits with an exponent in the range. *)
Definition normal (m : positive) (e : Z) : Prop := 2 ^ 52 <= Zpos m < 2 ^ 53 ∧ -1074 <= e <= 971.

Lemma finish_normal s m e : normal m e → finish s (Zpos m) e = S754_finite s m e.
Proof.
  intros [Hm He]. unfold finish, shr_fexp. rewrite Zdigits2_log2, (Z.log2_unique (Zpos m) 52) by lia.
  replace (fexp 53 1024 (52 + 1 + e) - e) with 0 by (unfold fexp, emin; lia). cbn [shr shr_record_of_loc shr_m].
  by rewrite (proj2 (Z.leb_le e 971)) by lia.
Qed.

Lemma finish_carry s e : -1074 <= e < 971 → finish s (2 ^ 53) e = S754_finite s 4503599627370496 (e + 1).
Proof.
  intros He. unfold finish, shr_fexp. change (Zdigits2 (2 ^ 53)) with 54.
  replace (fexp 53 1024 (54 + e) - e) with 1 by (unfold fexp, emin; lia). cbn.
  by rewrite (proj2 (Z.leb_le (e + 1) 971)) by lia.
Qed.

(** The quotient is close to [m * 2 ^ e], a unit in the last place being [u]. *)
Record close (num den : Z) (m : positive) (e : Z) : Prop := {
  cl_half : 2 * Z.abs (num * 2 ^ K - Zpos m * (2 ^ (e + K) * den)) < 2 ^ (e + K) * den;
  cl_quarter : Zpos m = 2 ^ 52 → 4 * Z.abs (num * 2 ^ K - Zpos m * (2 ^ (e + K) * den)) < 2 ^ (e + K) * den;
}.

Lemma round_close s num den m e :
  0 < num → 0 < den → normal m e → close num den m e → round_quotient s num den = S754_finite s m e.
Proof.
  intros Hnum Hden Hn [Hh Hq]. pose proof Hn as [Hm He]. pose proof K_big as HK. set (u := 2 ^ (e + K) * den) in *.
  assert (∀ j, -1 <= j <= 53 → den * 2 ^ (e + j + K) = 2 ^ (j + 1) * (2 ^ (e - 1 + K) * den)) as Hu.
  { intros j Hj. replace (e + j + K) with (j + 1 + (e - 1 + K)) by lia. rewrite (Z.pow_add_r 2 (j + 1)) by lia. ring. }
  assert (u = 2 * (2 ^ (e - 1 + K) * den)) as Hu2.
  { subst u. replace (e + K) with (1 + (e - 1 + K)) by lia. rewrite (Z.pow_add_r 2 1) by lia. ring. }
  assert (0 < u) as Hu0 by (apply Z.mul_pos_pos; [apply pow2_pos; lia|done]).
  destruct (Z.le_gt_cases (2 ^ 52 * u) (num * 2 ^ K)) as [Hc|Hc].
  - rewrite (round_near num den (e + 52) Hnum Hden) with (n := Zpos m).
    + replace (Z.max (e + 52 - 52) (-1074)) with e by lia. by apply finish_normal.
    + lia.
    + rewrite Hu by lia. nia.
    + replace (e + 52 + 1 + K) with (e + 53 + K) by lia. rewrite Hu by lia. nia.
    + replace (Z.max (e + 52 - 52) (-1074)) with e by lia. exact Hh.
  - assert (Zpos m = 2 ^ 52) as Hm52 by nia. specialize (Hq Hm52). assert (2 ^ 51 * u <= num * 2 ^ K) as Hc' by nia.
    destruct (decide (e = -1074)) as [Ee|Ee].
    + rewrite (round_near num den (e + 51) Hnum Hden) with (n := Zpos m).
      * replace (Z.max (e + 51 - 52) (-1074)) with e by lia. by apply finish_normal.
      * lia.
      * rewrite Hu by lia. nia.
      * replace (e + 51 + 1 + K) with (e + 52 + K) by lia. rewrite Hu by lia. nia.
      * replace (Z.max (e + 51 - 52) (-1074)) with e by lia. exact Hh.
    + rewrite (round_near num den (e + 51) Hnum Hden) with (n := 2 ^ 53).
      * replace (Z.max (e + 51 - 52) (-1074)) with (e - 1) by lia. rewrite finish_carry by lia. f_equal; lia.
      * lia.
      * rewrite Hu by lia. nia.
      * replace (e + 51 + 1 + K) with (e + 52 + K) by lia. rewrite Hu by lia. nia.
      * replace (Z.max (e + 51 - 52) (-1074)) with (e - 1) by lia. rewrite Hm52 in Hq. lia.
Qed.

(** A number close to a normal double is no underflow. *)
Lemma close_in_range s num den m e :
  0 < num → 0 < den → normal m e → close num den m e → out_of_range num den (S754_finite s m e) = false.
Proof.
  intros Hnum Hden [Hm He] [Hh Hq]. unfold out_of_range. destruct (scale 2 (Zpos m) 1 e) as [n k]. apply andb_false_iff. left.
  apply Z.ltb_ge. pose proof K_big as HK. set (u := 2 ^ (e + K) * den) in *. set (w := 2 ^ (K - 1076) * den).
  assert (0 < w) as Hw by (apply Z.mul_pos_pos; [apply pow2_pos; lia|done]).
  assert (4 * w <= u) as Hu.
  { subst u w. replace (4 * (2 ^ (K - 1076) * den)) with (2 ^ (2 + (K - 1076)) * den) by (rewrite (Z.pow_add_r 2 2) by lia; ring).
    apply Z.mul_le_mono_nonneg_r; [lia|]. apply Z.pow_le_mono_r; lia. }
  assert (num * 2 ^ K = num * 2 ^ 1076 * 2 ^ (K - 1076)) as EK by (rewrite <- Z.mul_assoc, <- Z.pow_add_r by lia; do 2 f_equal; lia).
  apply (Z.mul_le_mono_pos_r _ _ (2 ^ (K - 1076))); [apply pow2_pos; lia|]. rewrite <- EK.
  replace (den * (2 ^ 54 - 1) * 2 ^ (K - 1076)) with ((2 ^ 54 - 1) * w) by (subst w; ring). clear EK. set (v := num * 2 ^ K) in *. clearbody u v w.
  destruct (decide (Zpos m = 2 ^ 52)) as [E|E]; [specialize (Hq E); rewrite E in Hq; clear Hh; lia|nia].
Qed.
