(* ===== verification/DoubleText.v ===== *)
(** * Printing and parsing doubles

    The text that [reply_double] and the rewritten log write for a double, read back by
    [parse_double], is the same double: 17 significant digits are enough.  (Zeros,
    infinities and normal numbers; [parse_double] refuses subnormal numbers because
    [strtod] reports them out of range.) *)

From Stdlib Require Import Floats.SpecFloat.
From S2P Require Import Prelude Util Zskiplist Double Rounding.
Import Num.

(** ** The digits printed *)

(** Greater than the decimal exponent of any double, with 17 digits to spare. *)
Definition P : Z := 400.

Lemma P_big : 400 <= P.
Proof. done. Qed.

Lemma pow10_pos n : 0 <= n → 0 < 10 ^ n.
Proof. intros. by apply Z.pow_pos_nonneg. Qed.

(** [scale] multiplies by a power. *)
Lemma scale_spec b num den e p :
  0 < b → 0 < den → 0 <= p → - p <= e →
  let '(n, d) := scale b num den e in 0 < d ∧ n * (den * b ^ p) = num * d * b ^ (e + p).
Proof.
  intros Hb Hd Hp He. unfold scale. destruct (Z.leb_spec 0 e) as [H|H].
  - split; [done|]. rewrite Z.pow_add_r by lia. ring.
  - split; [apply Z.mul_pos_pos; [done|apply Z.pow_pos_nonneg; lia]|].
    replace p with (- e + (e + p)) at 1 by lia. rewrite Z.pow_add_r by lia. ring.
Qed.

Lemma dec_exponent_spec num den p : 0 < num → 0 < den → ∀ fuel x, 0 <= p → - p <= x → x + Z.of_nat fuel < p →
  den * 10 ^ (x + p) <= num * 10 ^ p → num * 10 ^ p < den * 10 ^ (x + Z.of_nat fuel + p) →
  let y := dec_exponent fuel x num den in
  x <= y < x + Z.of_nat fuel ∧ den * 10 ^ (y + p) <= num * 10 ^ p < den * 10 ^ (y + 1 + p).
Proof.
  intros Hn Hd. induction fuel as [|fuel IH]; intros x Hp Hx Hf Hlow Hhigh; [rewrite Z.add_0_r in Hhigh; lia|].
  cbn [dec_exponent]. pose proof (scale_spec 10 num den (- (x + 1)) p ltac:(lia) Hd Hp ltac:(lia)) as Hs.
  destruct (scale 10 num den (- (x + 1))) as [n d]. destruct Hs as [Hd' Hs].
  assert (num * 10 ^ p < den * 10 ^ (x + 1 + p) ↔ n < d) as Hcmp.
  { pose proof (pow10_pos p Hp) as H10. pose proof (pow10_pos (x + 1 + p) ltac:(lia)) as H10'. pose proof (pow10_pos (- (x + 1) + p) ltac:(lia)) as H10''.
    assert (10 ^ (- (x + 1) + p) * 10 ^ (x + 1 + p) = 10 ^ p * 10 ^ p) as Hpp by (rewrite <- !Z.pow_add_r by lia; f_equal; lia).
    rewrite (Z.mul_lt_mono_pos_r (d * 10 ^ (- (x + 1) + p))) by (by apply Z.mul_pos_pos).
    replace (num * 10 ^ p * (d * 10 ^ (- (x + 1) + p))) with (n * (den * (10 ^ p * 10 ^ p))) by nia.
    replace (den * 10 ^ (x + 1 + p) * (d * 10 ^ (- (x + 1) + p))) with (d * (den * (10 ^ p * 10 ^ p))) by nia.
    symmetry. apply Z.mul_lt_mono_pos_r. by repeat apply Z.mul_pos_pos. }
  destruct (Z.leb_spec d n) as [Hc|Hc].
  - rewrite Nat2Z.inj_succ in *. destruct (IH (x + 1)) as [Hy Hb]; [lia|lia|lia|lia| |by split; [lia|]].
    by replace (x + 1 + Z.of_nat fuel + p) with (x + Z.succ (Z.of_nat fuel) + p) by lia.
  - split; [lia|]. split; [done|by apply Hcmp].
Qed.

Lemma div_even_near a b : 0 < b → 2 * Z.abs (div_even a b * b - a) <= b ∧ a / b <= div_even a b <= a / b + 1.
Proof.
  intros Hb. pose proof (Z.div_mod a b) as Hd. pose proof (Z.mod_pos_bound a b Hb) as Hm. unfold div_even.
  destruct (Z.ltb_spec (2 * (a mod b)) b); [lia|]. destruct (Z.ltb_spec b (2 * (a mod b))); [lia|]. destruct (Z.even _); lia.
Qed.

(** The number [v / 10 ^ P] is within half a unit of the 17th digit of [m * 2 ^ e],
    whose first digit has the exponent [y]. *)
Definition near (v : Z) (m : positive) (e : Z) : Prop :=
  ∃ y, -324 <= y ∧
    2 * Z.abs (v * 2 ^ K - Zpos m * 2 ^ (e + K) * 10 ^ P) <= 10 ^ (y - 16 + P) * 2 ^ K ∧
    10 ^ (y + P) * 2 ^ K <= Zpos m * 2 ^ (e + K) * 10 ^ P.

Lemma abs_cancel a b r c : 0 < c → 2 * Z.abs (a * c - b * c) <= r * c → 2 * Z.abs (a - b) <= r.
Proof.
  intros Hc. rewrite <- Z.mul_sub_distr_r, Z.abs_mul, (Z.abs_eq c) by lia. rewrite Z.mul_assoc. by apply Z.mul_le_mono_pos_r.
Qed.

(** Normal doubles lie between [10 ^ (-324)] and [10 ^ 316]. *)
Lemma normal_bounds m e : normal m e →
  10 ^ (MIN_EXP10 + P) * 2 ^ K <= Zpos m * 2 ^ (e + K) * 10 ^ P < 10 ^ (MIN_EXP10 + Z.of_nat EXP10_FUEL + P) * 2 ^ K.
Proof.
  intros [[Hm1 Hm2] He]. pose proof K_big as HK. pose proof (pow10_pos P ltac:(done)) as H10. pose proof (pow2_pos (e + K) ltac:(lia)) as H2.
  assert (2 ^ (-1074 + K) <= 2 ^ (e + K) <= 2 ^ (971 + K)) as [Hp1 Hp2] by (split; apply Z.pow_le_mono_r; lia).
  split.
  - apply Z.le_trans with (2 ^ 52 * 2 ^ (-1074 + K) * 10 ^ P); [vm_compute; congruence|].
    apply Z.mul_le_mono_nonneg_r; [lia|]. apply Z.mul_le_mono_nonneg; [done|done| |done]. by apply Z.lt_le_incl, pow2_pos.
  - apply Z.le_lt_trans with (2 ^ 53 * 2 ^ (971 + K) * 10 ^ P); [|vm_compute; reflexivity].
    apply Z.mul_le_mono_nonneg_r; [lia|]. apply Z.mul_le_mono_nonneg; lia.
Qed.

(** The bounds on the digits, all powers being abstract. *)
Lemma digits_arith (M num den n d q T X A B F G : Z) :
  0 < num → 0 < den → 0 < d → 0 < T → 0 < X → 0 < B → 0 < F →
  n * (den * T) = num * d * A → A * X = 10 ^ 16 * (T * T) → A * B = T * T → num * F = M * G * den →
  den * X <= num * T → num * T < den * (10 * X) → 2 * Z.abs (q * d - n) <= d → n / d <= q <= n / d + 1 →
  10 ^ 16 <= q <= 10 ^ 17 ∧ 2 * Z.abs (q * B * F - M * G * T) <= B * F ∧ X * F <= M * G * T.
Proof.
  intros Hn Hd Hd' HT HX HB HF Hs E1 E2 Hv Hlow Hhigh Hq1 Hq2.
  assert (n * (den * (T * X)) = num * T * (10 ^ 16 * (T * d))) as Hnx.
  { replace (n * (den * (T * X))) with (n * (den * T) * X) by ring. rewrite Hs.
    replace (num * d * A * X) with (num * d * (A * X)) by ring. rewrite E1. ring. }
  assert (0 < den * (T * X)) as Hpos by (by repeat apply Z.mul_pos_pos).
  assert (0 < 10 ^ 16 * (T * d)) as Hpos' by (by repeat apply Z.mul_pos_pos).
  assert (d * 10 ^ 16 <= n) as Hn16.
  { apply (Z.mul_le_mono_pos_r _ _ (den * (T * X)) Hpos). rewrite Hnx.
    replace (d * 10 ^ 16 * (den * (T * X))) with (den * X * (10 ^ 16 * (T * d))) by ring. by apply Z.mul_le_mono_pos_r. }
  assert (n < d * 10 ^ 17) as Hn17.
  { apply (Z.mul_lt_mono_pos_r (den * (T * X)) _ _ Hpos). rewrite Hnx.
    replace (d * 10 ^ 17 * (den * (T * X))) with (den * (10 * X) * (10 ^ 16 * (T * d))) by ring. by apply Z.mul_lt_mono_pos_r. }
  assert (10 ^ 16 <= n / d) by (by apply Z.div_le_lower_bound). assert (n / d < 10 ^ 17) by (by apply Z.div_lt_upper_bound).
  split; [lia|]. split.
  - assert (0 < d * den * T) as Hc by (by repeat apply Z.mul_pos_pos). apply (abs_cancel _ _ _ _ Hc).
    assert (0 < den * T * B * F) as Hc2 by (by repeat apply Z.mul_pos_pos).
    replace (q * B * F * (d * den * T)) with (q * d * (den * T * B * F)) by ring.
    replace (M * G * T * (d * den * T)) with (n * (den * T * B * F)).
    + rewrite <- Z.mul_sub_distr_r, Z.abs_mul, (Z.abs_eq (den * T * B * F)) by lia.
      replace (B * F * (d * den * T)) with (d * (den * T * B * F)) by ring. rewrite Z.mul_assoc. by apply Z.mul_le_mono_pos_r.
    + replace (n * (den * T * B * F)) with (n * (den * T) * (B * F)) by ring. rewrite Hs.
      replace (num * d * A * (B * F)) with (num * F * d * (A * B)) by ring. rewrite Hv, E2. ring.
  - apply (Z.mul_le_mono_pos_r _ _ den Hd). replace (M * G * T * den) with (M * G * den * T) by ring.
    rewrite <- Hv. replace (num * F * T) with (num * T * F) by ring. replace (X * F * den) with (den * X * F) by ring.
    by apply Z.mul_le_mono_pos_r.
Qed.

Section Digits.
Context (m : positive) (e num den : Z) (Hnorm : normal m e) (Hscale : scale 2 (Zpos m) 1 e = (num, den)).

Lemma value_spec : 0 < num ∧ 0 < den ∧ num * 2 ^ K = Zpos m * 2 ^ (e + K) * den.
Proof.
  destruct Hnorm as [_ He]. pose proof K_big as HK. pose proof (scale_spec 2 (Zpos m) 1 e K ltac:(lia) ltac:(lia) ltac:(lia) ltac:(lia)) as Hs.
  pose proof (scale_pos 2 (Zpos m) 1 e ltac:(lia) ltac:(lia) ltac:(lia)) as [H1 H2]. rewrite Hscale in *. cbn [fst snd] in *. lia.
Qed.

Lemma exponent_spec :
  let x := dec_exponent EXP10_FUEL MIN_EXP10 num den in
  -324 <= x < 316 ∧ den * 10 ^ (x + P) <= num * 10 ^ P < den * 10 ^ (x + 1 + P).
Proof.
  destruct value_spec as (Hn & Hd & Hv). destruct (normal_bounds m e Hnorm) as [Hb1 Hb2]. pose proof (pow2_pos K ltac:(done)) as H2.
  apply (dec_exponent_spec num den P Hn Hd); [done|done|done|..]; [|].
  - apply (Z.mul_le_mono_pos_r _ _ (2 ^ K)); [done|]. replace (num * 10 ^ P * 2 ^ K) with (num * 2 ^ K * 10 ^ P) by ring. rewrite Hv. nia.
  - apply (Z.mul_lt_mono_pos_r (2 ^ K)); [done|]. replace (num * 10 ^ P * 2 ^ K) with (num * 2 ^ K * 10 ^ P) by ring. rewrite Hv. nia.
Qed.

Lemma digits_spec n d :
  let x := dec_exponent EXP10_FUEL MIN_EXP10 num den in
  scale 10 num den (16 - x) = (n, d) →
  let q := div_even n d in 10 ^ 16 <= q <= 10 ^ 17 ∧ near (q * 10 ^ (x - 16 + P)) m e.
Proof.
  intros x Hs q. destruct value_spec as (Hn & Hd & Hv). destruct exponent_spec as [Hx [Hlow Hhigh]]. fold x in Hx, Hlow, Hhigh.
  pose proof P_big as HP. pose proof (scale_spec 10 num den (16 - x) P ltac:(lia) Hd ltac:(lia) ltac:(lia)) as Hs'. rewrite Hs in Hs'.
  destruct Hs' as [Hd' Hs']. destruct (div_even_near n d Hd') as [Hq1 Hq2]. fold q in Hq1, Hq2. clearbody x q.
  replace (10 ^ (x + 1 + P)) with (10 * 10 ^ (x + P)) in Hhigh by (rewrite <- (Z.pow_add_r 10 1) by lia; f_equal; lia).
  destruct (digits_arith (Zpos m) num den n d q (10 ^ P) (10 ^ (x + P)) (10 ^ (16 - x + P)) (10 ^ (x - 16 + P)) (2 ^ K) (2 ^ (e + K)))
    as (Hq & Ha & Hb); try done; try (apply pow10_pos; lia).
  - rewrite <- !Z.pow_add_r by lia. f_equal. lia.
  - rewrite <- !Z.pow_add_r by lia. f_equal. lia.
  - split; [done|]. exists x. split; [lia|]. by split.
Qed.
End Digits.

(** ** Reading the digits *)

Lemma close_arith (M v num den T F G L : Z) :
  2 ^ 52 <= M < 2 ^ 53 → 0 < den → 0 < T → 0 < G → 0 < F →
  2 * Z.abs (v * F - M * G * T) <= L * F → 10 ^ 16 * L * F <= M * G * T → num * T = v * den →
  2 * Z.abs (num * F - M * (G * den)) < G * den ∧ (M = 2 ^ 52 → 4 * Z.abs (num * F - M * (G * den)) < G * den).
Proof.
  intros HM Hd HT HG HF H1 H2 Hv. assert (0 < G * T) as HGT by (by apply Z.mul_pos_pos).
  assert (Z.abs (num * F - M * (G * den)) * T = Z.abs (v * F - M * G * T) * den) as E.
  { rewrite <- (Z.abs_eq T), <- (Z.abs_eq den) by lia. rewrite <- !Z.abs_mul. f_equal. rewrite (Z.abs_eq T), (Z.abs_eq den) by lia.
    replace ((num * F - M * (G * den)) * T) with (num * T * F - M * G * den * T) by ring. rewrite Hv. ring. }
  set (r := Z.abs (num * F - M * (G * den))) in *. set (r' := Z.abs (v * F - M * G * T)) in *.
  assert (∀ c, c * r' < G * T → c * r < G * den) as Hr.
  { intros c Hc. apply (Z.mul_lt_mono_pos_r T); [done|]. replace (c * r * T) with (c * (r * T)) by ring. rewrite E.
    replace (G * den * T) with (G * T * den) by ring. rewrite Z.mul_assoc. by apply Z.mul_lt_mono_pos_r. }
  replace (10 ^ 16 * L * F) with (10 ^ 16 * (L * F)) in H2 by ring. replace (M * G * T) with (M * (G * T)) in H2 by ring.
  split; [apply Hr; nia|]. intros ->. apply Hr. lia.
Qed.

Lemma near_close v m e num den :
  normal m e → near v m e → 0 < den → num * 10 ^ P = v * den → close num den m e.
Proof.
  intros [Hm He] (y & Hy & H1 & H2) Hd Hv. pose proof K_big as HK. pose proof P_big as HP.
  destruct (close_arith (Zpos m) v num den (10 ^ P) (2 ^ K) (2 ^ (e + K)) (10 ^ (y - 16 + P))) as [Hh Hq]; try done.
  - apply pow2_pos. lia.
  - rewrite <- Z.pow_add_r by lia. by replace (16 + (y - 16 + P)) with (y + P) by lia.
Qed.

(** The value of a decimal number that is near a normal double. *)
Lemma number_value_near s a x m e :
  normal m e → 0 < a → - P <= x <= 1100 → near (a * 10 ^ (x + P)) m e → number_value s 10 a x = (S754_finite s m e, false).
Proof.
  intros Hn Ha Hx Hv. pose proof P_big as HP. unfold number_value. rewrite (proj2 (Z.eqb_neq a 0)), gtb_le by lia.
  rewrite (proj2 (Z.ltb_ge (Z.log2 a + x) (-1200))) by (pose proof (Z.log2_nonneg a); unfold P in *; lia).
  pose proof (scale_spec 10 a 1 x P ltac:(lia) ltac:(lia) ltac:(lia) ltac:(lia)) as Hs.
  pose proof (scale_pos 10 a 1 x ltac:(lia) ltac:(lia) ltac:(lia)) as [H1 _].
  destruct (scale 10 a 1 x) as [num den]. cbn [fst] in H1. destruct Hs as [Hd Hs]. rewrite Z.mul_1_l in Hs.
  assert (close num den m e) as Hc by (eapply near_close; [done|exact Hv|done|]; rewrite Hs; ring).
  rewrite (round_close s num den m e) by done. by rewrite (close_in_range s num den m e).
Qed.

(** ** Runs of digits *)

Lemma dec_loop_length n : ∀ fuel q acc, 10 ^ Z.of_nat n <= q < 10 ^ Z.of_nat (S n) → q < 2 ^ Z.of_nat fuel →
  length (dec_loop fuel q acc) = (S n + length acc)%nat.
Proof.
  assert (∀ n q, 10 ^ Z.of_nat n <= q → ¬ q < 2 ^ Z.of_nat 0) as H0.
  { intros n' q Hq. change (2 ^ Z.of_nat 0) with 1. pose proof (pow10_pos (Z.of_nat n')). lia. }
  induction n as [|n IH]; intros [|fuel] q acc Hq Hf; try by (exfalso; eapply H0; [apply Hq|]).
  - change (10 ^ Z.of_nat 1) with 10 in Hq. cbn [dec_loop]. by rewrite (proj2 (Z.ltb_lt q 10)) by lia.
  - rewrite !Nat2Z.inj_succ, !Z.pow_succ_r in Hq by lia. pose proof (pow10_pos (Z.of_nat n) ltac:(lia)). cbn [dec_loop].
    rewrite (proj2 (Z.ltb_ge q 10)) by lia. rewrite IH; [cbn [length]; lia|..].
    + rewrite !Nat2Z.inj_succ, !Z.pow_succ_r by lia. split; [apply Z.div_le_lower_bound|apply Z.div_lt_upper_bound]; lia.
    + rewrite Nat2Z.inj_succ, Z.pow_succ_r in Hf by lia. apply Z.div_lt_upper_bound; lia.
Qed.

Lemma length_dec_of q : 10 ^ 16 <= q < 10 ^ 17 → length (dec_of q) = 17%nat.
Proof.
  intros Hq. unfold dec_of. rewrite (dec_loop_length 16); [done|done|]. rewrite Nat2Z.inj_succ, Z2Nat.id by apply Z.log2_nonneg.
  apply Z.log2_spec. lia.
Qed.

Lemma dec_value_acc v s : dec_value v s = v * 10 ^ zlen s + dec_value 0 s.
Proof.
  revert v. induction s as [|c s IH]; intros v; cbn [dec_value]; [change (zlen (@nil byte)) with 0; rewrite Z.pow_0_r; lia|].
  rewrite (IH (v * 10 + _)), (IH (0 * 10 + _)). replace (zlen (c :: s)) with (1 + zlen s) by (unfold zlen; cbn [length]; lia).
  rewrite (Z.pow_add_r 10 1) by (unfold zlen; lia). change (10 ^ 1) with 10. ring.
Qed.

Lemma dec_value_zeros v n : dec_value v (replicate n x30) = v * 10 ^ Z.of_nat n.
Proof. revert v. induction n as [|n IH]; intros v; cbn [replicate dec_value]; [change (10 ^ Z.of_nat 0) with 1; lia|]. rewrite IH, Nat2Z.inj_succ, Z.pow_succ_r by lia.
  change (uchar x30) with 48. ring. Qed.

Lemma strip_zeros_spec s : ∃ n, s = strip_zeros s ++ replicate n x30.
Proof.
  assert (∀ t, ∃ n, t = replicate n x30 ++ drop_zeros t) as Hd.
  { induction t as [|c t [n IH]]; [by exists 0%nat|]. cbn [drop_zeros]. case_decide as E; [|by exists 0%nat].
    exists (S n). subst c. cbn [replicate app]. by f_equal. }
  destruct (Hd (reverse s)) as [n Hn]. exists n. unfold strip_zeros. apply (f_equal reverse) in Hn.
  by rewrite reverse_involutive, reverse_app, reverse_replicate in Hn.
Qed.

Lemma digit_value_digit c : is_digit c → digit_value 10 c = Some (uchar c - 48).
Proof. unfold is_digit. destruct c; try reflexivity; intros [? ?]; cbv in *; congruence. Qed.

(** What follows a run of digits. *)
Definition stops (s : bytes) : Prop := match s with [] => True | c :: _ => digit_value 10 c = None end.

Lemma take_digits_run ds rest : ∀ acc n, Forall is_digit ds → stops rest →
  take_digits 10 acc n (ds ++ rest) = (dec_value acc ds, (n + length ds)%nat, rest).
Proof.
  induction ds as [|c ds IH]; intros acc n Hds Hr.
  - cbn [app dec_value length]. rewrite Nat.add_0_r. destruct rest as [|c rest]; [done|]. cbn [take_digits]. by rewrite Hr.
  - apply Forall_cons in Hds as [Hc Hds]. cbn [app take_digits]. rewrite digit_value_digit by done. rewrite IH by done.
    cbn [dec_value length]. f_equal. f_equal. lia.
Qed.

(** ** The text *)

(** Digits, a point and digits without the zeros at the end, and something else. *)
Lemma take_mantissa_text i f rest :
  i ≠ [] → Forall is_digit i → Forall is_digit f → stops rest → (∀ c rest', rest = c :: rest' → c ≠ x2e) →
  ∃ n, take_mantissa 10 (i ++ fraction f ++ rest) = (dec_value 0 (i ++ strip_zeros f), length (strip_zeros f), S n, rest).
Proof.
  intros Hi Hdi Hdf Hr Hp. destruct (strip_zeros_spec f) as [z Hz]. assert (Forall is_digit (strip_zeros f)) as Hds.
  { rewrite Hz in Hdf. by apply Forall_app in Hdf as [? _]. }
  assert (∃ n, length i = S n) as [n Hn] by (destruct i; [done|by eexists]).
  unfold take_mantissa, fraction. rewrite dec_value_app. destruct (strip_zeros f) as [|c0 f0] eqn:Es.
  - exists n. cbn [app]. rewrite take_digits_run by done. cbn [dec_value length]. rewrite Hn. cbv beta iota. destruct rest as [|c rest]; [done|].
    rewrite decide_False by (by eapply Hp). done.
  - exists (n + length (c0 :: f0))%nat. rewrite <- app_assoc. rewrite take_digits_run by done.
    change (bs "." ++ (c0 :: f0) ++ rest) with (x2e :: (c0 :: f0) ++ rest). cbv beta iota. rewrite decide_True by done.
    rewrite take_digits_run by done. cbv beta iota. rewrite Hn. cbn [plus Nat.eqb length]. done.
Qed.

(** The exponent part: none, or a letter, a sign and digits. *)
Definition exponent_text (x : Z) : bytes :=
  bs "e" ++ (if x <? 0 then bs "-" else bs "+") ++ (if Z.abs x <? 10 then bs "0" else []) ++ dec_of (Z.abs x).

Lemma take_exponent_text x : take_exponent x65 (exponent_text x) = (x, []).
Proof.
  destruct (dec_of_spec (Z.abs x) ltac:(lia)) as (Hne & Hd & Hv). unfold exponent_text.
  set (ds := (if Z.abs x <? 10 then bs "0" else []) ++ dec_of (Z.abs x)).
  assert (Forall is_digit ds ∧ dec_value 0 ds = Z.abs x ∧ ds ≠ []) as (Hds & Hvs & Hns).
  { subst ds. case_match; [|by split_and!]. split_and!; [|done|done]. apply Forall_app. split; [|done]. apply Forall_singleton.
    by unfold is_digit; cbv. }
  assert (take_digits 10 0 0 ds = (Z.abs x, length ds, [])) as Ht.
  { rewrite <- (app_nil_r ds), take_digits_run, app_nil_r by done. by rewrite Hvs. }
  assert ((length ds =? 0)%nat = false) as Hl by (by destruct ds).
  change (bs "e") with [x65]. change (bs "-") with [x2d]. change (bs "+") with [x2b].
  destruct (Z.ltb_spec x 0); cbn [app take_exponent]; rewrite decide_True by reflexivity; cbn [take_sign app].
  - rewrite decide_True by done. rewrite Ht, Hl. f_equal. lia.
  - rewrite decide_False, decide_True by done. rewrite Ht, Hl. f_equal. lia.
Qed.

(** The three layouts: digits, the digits after a point, and an exponent. *)
Lemma layout_text ds x :
  length ds = 17%nat → Forall is_digit ds →
  ∃ i f rest E, layout_g ds x = i ++ fraction f ++ rest ∧ i ≠ [] ∧ Forall is_digit i ∧ Forall is_digit f ∧
    dec_value 0 (i ++ f) = dec_value 0 ds ∧ E - zlen f = x - 16 ∧ (rest = [] ∧ E = 0 ∨ rest = exponent_text x ∧ E = x).
Proof.
  intros Hl Hd. assert (∀ n, Forall is_digit (take n ds) ∧ Forall is_digit (drop n ds)) as Hn.
  { intros n. rewrite <- Forall_app. by rewrite take_drop. }
  unfold layout_g. destruct ((x <? -4) || (17 <=? x)) eqn:Ex; [|destruct (Z.leb_spec 0 x)].
  - exists (take 1 ds), (drop 1 ds), (exponent_text x), x. destruct (Hn 1%nat). rewrite take_drop. unfold zlen. rewrite length_drop, Hl.
    split; [done|]. split; [by destruct ds|]. split_and!; [done|done|done|lia|by right].
  - bool_prop. exists (take (Z.to_nat (x + 1)) ds), (drop (Z.to_nat (x + 1)) ds), [], 0. destruct (Hn (Z.to_nat (x + 1))).
    rewrite take_drop, app_nil_r. unfold zlen. rewrite length_drop, Hl. split; [done|]. split; [|split_and!; [done|done|done|lia|by left]].
    destruct ds; [done|]. by replace (Z.to_nat (x + 1)) with (S (Z.to_nat x)) by lia.
  - bool_prop. exists (bs "0"), (replicate (Z.to_nat (- x - 1)) x30 ++ ds), [], 0. rewrite app_nil_r. split; [done|]. split; [done|].
    split; [by apply Forall_singleton; unfold is_digit; cbv|]. split.
    + apply Forall_app. split; [|done]. apply Forall_replicate. by unfold is_digit; cbv.
    + split; [|split; [|by left]].
      * rewrite !dec_value_app, dec_value_zeros. done.
      * unfold zlen. rewrite length_app, length_replicate, Hl. lia.
Qed.

(** The characters of a number, none of which is a letter of the special words. *)
Definition number_char (c : byte) : Prop := is_digit c ∨ c ∈ [x2e; x65; x2b; x2d].

Lemma number_char_plain c : number_char c → tolower c ∉ [x69; x6e; x78].
Proof.
  intros [H|H].
  - unfold is_digit in H. destruct c; try (apply (bool_decide_unpack _); reflexivity); destruct H; cbv in *; congruence.
  - rewrite !elem_of_cons in H. destruct H as [-> |[-> |[-> |[-> |H]]]]; [..|by apply elem_of_nil in H]; apply (bool_decide_unpack _); reflexivity.
Qed.

Lemma starts_with_false w c s : c ∈ w → c ∈ [x69; x6e; x78] → Forall number_char s → starts_with w s = false.
Proof.
  intros Hw Hc Hs. apply bool_decide_eq_false. intros E. rewrite <- E in Hw. apply list_elem_of_fmap in Hw as (c' & -> & Hin).
  rewrite Forall_forall in Hs. apply (number_char_plain c'); [|done]. apply Hs. rewrite <- (take_drop (length w) s). apply elem_of_app. by left.
Qed.

Lemma strtod_number (neg : bool) (s : bytes) : Forall number_char s → (∃ c s', s = c :: s' ∧ is_digit c) →
  strtod ((if neg then bs "-" else []) ++ s) =
    (let '(m, k, n, rest) := take_mantissa 10 s in
     if (n =? 0)%nat then None
     else
       let '(e, rest) := take_exponent x65 rest in
       let '(d, erange) := number_value neg 10 m (e - Z.of_nat k) in
       Some (d, rest, erange)).
Proof.
  intros Hs (c & s' & -> & Hc). unfold strtod.
  assert (take_sign (skip_spaces ((if neg then bs "-" else []) ++ c :: s')) = (neg, c :: s')) as ->.
  { unfold is_digit in Hc. destruct neg; [reflexivity|]. cbn [app skip_spaces]. unfold isspace.
    rewrite (proj2 (Z.eqb_neq _ _)), (proj2 (Z.leb_gt (uchar c) 13)), andb_false_r by lia. cbn [orb take_sign].
    rewrite !decide_False by (intros ->; destruct Hc as [Hc _]; by vm_compute in Hc). done. }
  rewrite (starts_with_false (bs "infinity") x69), (starts_with_false (bs "inf") x69), (starts_with_false (bs "nan") x6e),
    (starts_with_false (bs "0x") x78) by (done || by apply (bool_decide_unpack _)). done.
Qed.

Lemma text_chars i f rest x :
  Forall is_digit i → Forall is_digit f → rest = [] ∨ rest = exponent_text x → Forall number_char (i ++ fraction f ++ rest).
Proof.
  assert (∀ ds, Forall is_digit ds → Forall number_char ds) as Hd by (intros ds Hds; eapply Forall_impl; [exact Hds|by left]).
  assert (∀ w : string, bool_decide (Forall (λ c, c ∈ [x2e; x65; x2b; x2d]) (bs w)) = true → Forall number_char (bs w)) as Hw.
  { intros w Hw%bool_decide_eq_true. eapply Forall_impl; [exact Hw|by right]. }
  intros Hi Hf Hr. rewrite !Forall_app. split; [auto|]. split.
  - destruct (strip_zeros_spec f) as [z Hz]. unfold fraction. rewrite Hz in Hf. apply Forall_app in Hf as [Hf _].
    destruct (strip_zeros f); [done|]. apply Forall_app. split; [by apply Hw|auto].
  - destruct Hr as [-> | ->]; [done|]. destruct (dec_of_spec (Z.abs x) ltac:(lia)) as (_ & Hds & _). unfold exponent_text.
    rewrite !Forall_app. split; [by apply Hw|]. split; [case_match; by apply Hw|]. split; [|auto]. case_match; [|done].
    apply Hd, Forall_singleton. by unfold is_digit; cbv.
Qed.

(** Reading digits [q] whose first one has the exponent [x]. *)
Lemma strtod_layout (neg : bool) (q x : Z) (m : positive) (e : Z) :
  10 ^ 16 <= q < 10 ^ 17 → -324 <= x <= 316 → normal m e → near (q * 10 ^ (x - 16 + P)) m e →
  strtod ((if neg then bs "-" else []) ++ layout_g (dec_of q) x) = Some (S754_finite neg m e, [], false).
Proof.
  intros Hq Hx Hn Hv. pose proof P_big as HP. destruct (dec_of_spec q ltac:(lia)) as (_ & Hds & Hval).
  destruct (layout_text (dec_of q) x (length_dec_of q Hq) Hds) as (i & f & rest & E & -> & Hi & Hdi & Hdf & Hif & HE & Hr).
  assert (stops rest ∧ (∀ c rest', rest = c :: rest' → c ≠ x2e) ∧ take_exponent x65 rest = (E, [])) as (Hs & Hp & Ht).
  { destruct Hr as [[-> ->]|[-> ->]]; [done|]. split_and!; [done|by intros c r' [= <- _]|apply take_exponent_text]. }
  rewrite strtod_number.
  2: { eapply text_chars; [done|done|]. destruct Hr as [[-> _]|[-> _]]; [by left|by right]. }
  2: { destruct i as [|c i]; [done|]. apply Forall_cons in Hdi as [Hc _]. by exists c, (i ++ fraction f ++ rest). }
  destruct (take_mantissa_text i f rest Hi Hdi Hdf Hs Hp) as [n ->]. cbn [Nat.eqb]. rewrite Ht.
  destruct (strip_zeros_spec f) as [z Hz]. set (g := strip_zeros f) in *. assert (zlen f = zlen g + Z.of_nat z) as Hlen.
  { rewrite Hz at 1. rewrite zlen_app. unfold zlen. by rewrite length_replicate. }
  assert (q = dec_value 0 (i ++ g) * 10 ^ Z.of_nat z) as Eq.
  { rewrite <- dec_value_zeros, <- dec_value_app, <- app_assoc, <- Hz. by rewrite Hif. }
  pose proof (pow10_pos (Z.of_nat z)) as Hz0. change (Z.of_nat (length g)) with (zlen g).
  assert (0 <= zlen g) by (unfold zlen; lia).
  rewrite (number_value_near neg _ _ m e); [done|done|nia| |].
  - destruct Hr as [[_ ->]|[_ ->]]; lia.
  - replace (q * 10 ^ (x - 16 + P)) with (dec_value 0 (i ++ g) * 10 ^ (E - zlen g + P)) in Hv; [exact Hv|].
    rewrite Eq, <- Z.mul_assoc, <- Z.pow_add_r by lia. do 2 f_equal. lia.
Qed.

(** ** The round trip *)

(** Zeros, infinities and normal numbers. *)
Definition printable (d : double) : bool :=
  match d with
  | S754_zero _ | S754_infinity _ => true
  | S754_nan => false
  | S754_finite _ m e => (2 ^ 52 <=? Zpos m) && (Zpos m <? 2 ^ 53) && (-1074 <=? e) && (e <=? 971)
  end.

Lemma parse_fmt_g17 d : printable d = true → parse_double (fmt_g17 d) = Some d.
Proof.
  destruct d as [s|s| |s m e]; [by destruct s|by destruct s|done|]. intros Hd. assert (normal m e) as Hn.
  { unfold printable in Hd. bool_prop. split; lia. }
  assert (strtod (fmt_g17 (S754_finite s m e)) = Some (S754_finite s m e, [], false)) as Hs.
  { unfold fmt_g17. destruct (scale 2 (Zpos m) 1 e) as [num den] eqn:Esc. pose proof (exponent_spec m e num den Hn Esc) as [Hx _].
    pose proof (digits_spec m e num den Hn Esc) as Hq. set (x := dec_exponent _ _ _ _) in *. clearbody x.
    destruct (scale 10 num den (16 - x)) as [n k] eqn:Ek. specialize (Hq n k Ek). cbn zeta in Hq. destruct Hq as [Hq Hnear].
    destruct (Z.eqb_spec (div_even n k) (10 ^ 17)) as [E|E].
    - apply strtod_layout; [done|lia|done|]. rewrite E in Hnear. replace (10 ^ 17) with (10 ^ 16 * 10 ^ 1) in Hnear by done.
      pose proof P_big. rewrite <- Z.mul_assoc, <- Z.pow_add_r in Hnear by lia. by replace (x + 1 - 16 + P) with (1 + (x - 16 + P)) by lia.
    - apply strtod_layout; [lia|lia|done|done]. }
  unfold parse_double. destruct (fmt_g17 (S754_finite s m e)) as [|c b] eqn:E; [by vm_compute in Hs|]. by rewrite Hs.
Qed.

(** C9: doubles survive printing and parsing.  The text ["%.17g"] produces for a zero,
    an infinity or a normal number is read back by [parse_double] as the same double,
    bit for bit: scores sent in replies and written to the log are exact. *)
Theorem double_text_roundtrip d : printable d = true → parse_double (fmt_g17 d) = Some d.
Proof. apply parse_fmt_g17. Qed.

(** 0.1, whose text is 0.10000000000000001. *)
Lemma double_text_roundtrip_witness :
  fmt_g17 (S754_finite false 7205759403792794 (-56)) = bs "0.10000000000000001" ∧
  parse_double (fmt_g17 (S754_finite false 7205759403792794 (-56))) = Some (S754_finite false 7205759403792794 (-56)).
Proof.
  split; [vm_compute; reflexivity|]. apply (double_text_roundtrip (S754_finite false 7205759403792794 (-56))). reflexivity.
Defined.
