(* ===== verification/Object.v ===== *)
(** * Values ([src/object.c], [src/object.h])

    A value object is its type-specific storage and its expiry.  The objects
    stored inside lists and hashes are always strings created by
    [robj_new_string] and are represented by their bytes; set members carry the
    sentinel and no value. *)

From S2P Require Import Prelude Util Dict CList Zskiplist Zorder Zset.
Import Num.

Inductive obj_type := T_STRING | T_LIST | T_HASH | T_SET | T_ZSET.

Definition obj_type_eqb (a b : obj_type) : bool :=
  match a, b with
  | T_STRING, T_STRING | T_LIST, T_LIST | T_HASH, T_HASH | T_SET, T_SET | T_ZSET, T_ZSET => true
  | _, _ => false
  end.

Inductive storage :=
| OBJ_STRING (s : bytes)
| OBJ_LIST (l : clist bytes)
| OBJ_HASH (h : dict bytes)
| OBJ_SET (s : dict unit)
| OBJ_ZSET (z : zset).

Record robj := Robj { o_ptr : storage; o_expire_at : Z }.

Definition o_type (o : robj) : obj_type :=
  match o_ptr o with
  | OBJ_STRING _ => T_STRING
  | OBJ_LIST _ => T_LIST
  | OBJ_HASH _ => T_HASH
  | OBJ_SET _ => T_SET
  | OBJ_ZSET _ => T_ZSET
  end.

Definition robj_new_string (s : bytes) : robj := Robj (OBJ_STRING s) (-1).
Definition robj_new_string_ll (v : Z) : robj := robj_new_string (ll_to_string v).
Definition robj_new_list : robj := Robj (OBJ_LIST list_create) (-1).
Definition robj_new_hash (random16 : bytes) : robj := Robj (OBJ_HASH (dict_create random16)) (-1).
Definition robj_new_set (random16 : bytes) : robj := Robj (OBJ_SET (dict_create random16)) (-1).
Definition robj_new_zset (random16 : bytes) : robj := Robj (OBJ_ZSET (zset_create random16)) (-1).

(** [o->expire_at = t] and [o->ptr = p] in place. *)
Definition with_expire (o : robj) (t : Z) : robj := Robj (o_ptr o) t.
Definition with_ptr (o : robj) (p : storage) : robj := Robj p (o_expire_at o).

(** ** What an object stands for *)

Inductive value :=
| VString (s : bytes)
| VList (xs : list bytes)
| VHash (m : gmap bytes bytes)
| VSet (m : gmap bytes unit)
| VZset (xs : list zentry).

Inductive storage_rep : storage → value → Prop :=
| rep_string s : storage_rep (OBJ_STRING s) (VString s)
| rep_list l xs : is_list l xs → storage_rep (OBJ_LIST l) (VList xs)
| rep_hash h : dict_wf h → storage_rep (OBJ_HASH h) (VHash (dict_abs h))
| rep_set s : dict_wf s → storage_rep (OBJ_SET s) (VSet (dict_abs s))
| rep_zset z xs : zset_rep z xs → storage_rep (OBJ_ZSET z) (VZset xs).

(** An abstract object: a value and its expiry. *)
Record aobj := Aobj { a_value : value; a_expire : Z }.

Definition obj_rep (o : robj) (a : aobj) : Prop :=
  storage_rep (o_ptr o) (a_value a) ∧ o_expire_at o = a_expire a ∧ in_ll (a_expire a).

Definition value_type (v : value) : obj_type :=
  match v with
  | VString _ => T_STRING | VList _ => T_LIST | VHash _ => T_HASH
  | VSet _ => T_SET | VZset _ => T_ZSET
  end.

Lemma obj_rep_type o a : obj_rep o a → o_type o = value_type (a_value a).
Proof. intros [H _]. unfold o_type. by destruct H. Qed.

(** A container with no elements (what [maybe_delete_key] removes). *)
Definition value_is_empty (v : value) : bool :=
  match v with
  | VString _ => false
  | VList xs => (length xs =? 0)%nat
  | VHash m => (base.size m =? 0)%nat
  | VSet m => (base.size m =? 0)%nat
  | VZset xs => (length xs =? 0)%nat
  end.

Lemma obj_rep_new p v : storage_rep p v → obj_rep (Robj p (-1)) (Aobj v (-1)).
Proof. intros. split; [done|]. split; [done|]. unfold in_ll, INT64_MIN, INT64_MAX. simpl. lia. Qed.

Lemma obj_rep_new_list : obj_rep robj_new_list (Aobj (VList []) (-1)).
Proof. apply obj_rep_new. constructor. apply is_list_create. Qed.

Lemma obj_rep_new_hash r : obj_rep (robj_new_hash r) (Aobj (VHash ∅) (-1)).
Proof.
  destruct (dict_create_spec (V:=bytes) r) as [Hw Ha].
  apply obj_rep_new. rewrite <- Ha. by constructor.
Qed.

Lemma obj_rep_new_set r : obj_rep (robj_new_set r) (Aobj (VSet ∅) (-1)).
Proof.
  destruct (dict_create_spec (V:=unit) r) as [Hw Ha].
  apply obj_rep_new. rewrite <- Ha. by constructor.
Qed.

Lemma obj_rep_new_string s : obj_rep (robj_new_string s) (Aobj (VString s) (-1)).
Proof. apply obj_rep_new. constructor. Qed.

Lemma obj_rep_new_zset r : obj_rep (robj_new_zset r) (Aobj (VZset []) (-1)).
Proof. apply obj_rep_new. constructor. apply zset_create_rep. Qed.

#[export] Hint Resolve obj_rep_new obj_rep_new_string rep_string rep_list is_list_create rep_hash rep_set rep_zset
  obj_rep_new_list obj_rep_new_hash obj_rep_new_set obj_rep_new_zset : miniredis.

Lemma rep_hash_set h f v :
  dict_wf h → storage_rep (OBJ_HASH (dict_set h f v).2) (VHash (<[f := v]> (dict_abs h))).
Proof. intros Hwf. destruct (dict_set_correct h f v Hwf) as (? & <- & _). by constructor. Qed.

Lemma rep_set_set h f u :
  dict_wf h → storage_rep (OBJ_SET (dict_set h f u).2) (VSet (<[f := u]> (dict_abs h))).
Proof. intros Hwf. destruct (dict_set_correct h f u Hwf) as (? & <- & _). by constructor. Qed.

Lemma rep_set_delete h f :
  dict_wf h → storage_rep (OBJ_SET (dict_delete h f).2) (VSet (delete f (dict_abs h))).
Proof. intros Hwf. destruct (dict_delete_correct h f Hwf) as (? & <- & _). by constructor. Qed.

#[export] Hint Resolve rep_hash_set rep_set_set rep_set_delete | 0 : miniredis.
