(* ===== verification/Machine.v ===== *)
(** * The machine the commands run on

    State, effects and specifications shared by the command handlers of
    [src/db.c]: the keyspace, the calling client with its reply builders
    ([src/server.c]), and the outside world (wall clock, [rand], [/dev/urandom])
    as streams of values consumed one by one.

    A handler is a computation in [M], a state monad in which undefined behaviour
    (a bad pointer, an argument index out of range) has no result.  [wp] is its
    weakest precondition; proving [wp] includes proving the absence of undefined
    behaviour. *)

From S2P Require Import Prelude Disk Util Dict CList Zskiplist Zorder Zset Object.
Import Num.

(** ** State *)

Record db := Db { db_d : dict robj; db_cursor : nat }.

Record client := Client {
  c_fd : Z;
  c_in : bytes;        (* unparsed input *)
  c_out : bytes;       (* pending output, as the content of the buffer *)
  c_out_sent : Z;
  c_closing : bool;
  c_events : Z;
  c_subscribed : Z;
}.

Definition client_init (fd : Z) (garbage : Z) : client := Client fd [] [] 0 false 0 garbage.

(** A child process: the file it will replace, and the program it runs. *)
Record child := Child { ch_target : bytes; ch_prog : D Z }.

(** The operating system as the persistence code sees it: named files, the calls of
    the successive programs that replace one ([rdb_save], [aof_rewrite]), the
    descriptors successive [open]s of the log return ([None] for an error), whether
    successive [fork]s succeed, and the children that have not ended. *)
Record system := System {
  y_files : gmap bytes bytes;
  y_fate : nat → fate;
  y_runs : nat;
  y_open : nat → option nat;
  y_opens : nat;
  y_fork : nat → bool;
  y_forks : nat;
  y_children : list child;
}.

(** Values the outside world will deliver, and how many were consumed. *)
Record world := World {
  w_clock : nat → Z;      (* successive results of [now_ms] *)
  w_ticks : nat;
  w_rand : nat → Z;       (* successive results of [rand] *)
  w_rands : nat;
  w_seed : nat → bytes;   (* successive 16-byte results of [util_random_bytes] *)
  w_seeds : nat;
  w_write : nat → option nat;
    (* successive results of [write]: an error, or [S n] bytes accepted at most;
       calls interrupted by a signal are retried at once and not counted *)
  w_writes : nat;
  w_sys : system;
}.

(** The globals of [src/server.c] and [src/aof.c].  [g_aof_file] is the content of the
    file open as [g_aof_fd]; [g_aof_linked] says that this file is (still) the one
    named [g_aof_path], which is no longer so once another file was renamed over it. *)
Record globals := Globals {
  g_server_start_ms : Z;
  g_aof_fd : Z;
  g_aof_replaying : bool;
  g_aof_rewriting : bool;
  g_aof_file : bytes;
  g_rewrite_buf : bytes;
  g_aof_last_fsync_ms : Z;
  g_aof_path : option bytes;
  g_rdb_path : option bytes;
  g_aof_linked : bool;
}.

Definition set_aof_log (g : globals) (fd : Z) (file : bytes) (linked : bool) : globals :=
  Globals (g_server_start_ms g) fd (g_aof_replaying g) (g_aof_rewriting g) file (g_rewrite_buf g)
    (g_aof_last_fsync_ms g) (g_aof_path g) (g_rdb_path g) linked.

Definition set_aof_file (g : globals) (file : bytes) : globals :=
  set_aof_log g (g_aof_fd g) file (g_aof_linked g).

Definition set_rewrite_buf (g : globals) (buf : bytes) : globals :=
  Globals (g_server_start_ms g) (g_aof_fd g) (g_aof_replaying g) (g_aof_rewriting g) (g_aof_file g) buf
    (g_aof_last_fsync_ms g) (g_aof_path g) (g_rdb_path g) (g_aof_linked g).

Definition set_aof_replaying (g : globals) (b : bool) : globals :=
  Globals (g_server_start_ms g) (g_aof_fd g) b (g_aof_rewriting g) (g_aof_file g) (g_rewrite_buf g)
    (g_aof_last_fsync_ms g) (g_aof_path g) (g_rdb_path g) (g_aof_linked g).

Definition set_aof_rewriting (g : globals) (b : bool) : globals :=
  Globals (g_server_start_ms g) (g_aof_fd g) (g_aof_replaying g) b (g_aof_file g) (g_rewrite_buf g)
    (g_aof_last_fsync_ms g) (g_aof_path g) (g_rdb_path g) (g_aof_linked g).

Definition set_last_fsync (g : globals) (t : Z) : globals :=
  Globals (g_server_start_ms g) (g_aof_fd g) (g_aof_replaying g) (g_aof_rewriting g) (g_aof_file g) (g_rewrite_buf g)
    t (g_aof_path g) (g_rdb_path g) (g_aof_linked g).

(** No files, and no call that succeeds. *)
Definition idle_system : system :=
  System ∅ (λ _, Fate false (λ _, None) false false false) 0 (λ _, None) 0 (λ _, false) 0 [].

(** No persistence. *)
Definition no_aof : globals := Globals 0 (-1) false false [] [] 0 None None false.

Record state := State { st_db : db; st_client : client; st_world : world; st_globals : globals }.

Definition set_db (s : state) (d : db) : state := State d (st_client s) (st_world s) (st_globals s).
Definition set_client (s : state) (c : client) : state := State (st_db s) c (st_world s) (st_globals s).
Definition set_world (s : state) (w : world) : state := State (st_db s) (st_client s) w (st_globals s).
Definition set_sys (s : state) (y : system) : state :=
  let w := st_world s in
  set_world s (World (w_clock w) (w_ticks w) (w_rand w) (w_rands w) (w_seed w) (w_seeds w) (w_write w) (w_writes w) y).
Definition set_globals (s : state) (g : globals) : state := State (st_db s) (st_client s) (st_world s) g.

(** ** The monad *)

Definition M (A : Type) : Type := state → option (A * state).

#[export] Instance M_ret : MRet M := λ A a s, Some (a, s).
#[export] Instance M_bind : MBind M := λ A B f m s,
  match m s with Some (a, s') => f a s' | None => None end.

(** Undefined behaviour, and a possibly undefined pure computation. *)
Definition ub {A} : M A := λ s, None.
Definition lift {A} (o : option A) : M A := λ s, match o with Some a => Some (a, s) | None => None end.

Definition gets {A} (f : state → A) : M A := λ s, Some (f s, s).
Definition modify (f : state → state) : M unit := λ s, Some (tt, f s).

(** [for] over a list, threading a loop variable. *)
Fixpoint foldM {A B} (f : B → A → M B) (b : B) (xs : list A) : M B :=
  match xs with
  | [] => mret b
  | x :: xs => b ← f b x; foldM f b xs
  end.

Definition forM {A} (xs : list A) (f : A → M unit) : M unit := foldM (λ _ x, f x) tt xs.

(** ** The outside world *)

Definition now_ms : M Z := λ s,
  let w := st_world s in
  Some (w_clock w (w_ticks w),
        set_world s (World (w_clock w) (S (w_ticks w)) (w_rand w) (w_rands w)
                           (w_seed w) (w_seeds w) (w_write w) (w_writes w) (w_sys w))).

(** Consume [n] values of [rand]: the stream from the current position. *)
Definition rands (n : nat) : M (nat → Z) := λ s,
  let w := st_world s in
  Some (λ i, w_rand w (w_rands w + i),
        set_world s (World (w_clock w) (w_ticks w) (w_rand w) (w_rands w + n)
                           (w_seed w) (w_seeds w) (w_write w) (w_writes w) (w_sys w))).

Definition random_seed : M bytes := λ s,
  let w := st_world s in
  Some (w_seed w (w_seeds w),
        set_world s (World (w_clock w) (w_ticks w) (w_rand w) (w_rands w)
                           (w_seed w) (S (w_seeds w)) (w_write w) (w_writes w) (w_sys w))).

(** [zsl_random_level] on the stream of [rand]: one value for every level it
    tries. *)
Definition random_level : M nat :=
  r ← rands 0;
  let level := zsl_random_level r in
  _ ← rands (Nat.min level (ZSKIPLIST_MAXLEVEL - 1));
  mret level.

(** [zset_add]; a level is drawn when a node is inserted. *)
Definition zset_insert (z : zset) (score : double) (member : bytes) : M (Z * zset) :=
  same ← lift (match dict_get (zs_dict z) member with
               | Some x => n ← zsl_nodes (zs_zsl z) !! x; Some (deqb (z_score n) score)
               | None => Some false
               end);
  if (same : bool) then lift (zset_add z 1 score member)
  else level ← random_level; lift (zset_add z level score member).

(** One [write] to the append-only file: the number of bytes it took, [None] for
    an error. *)
Definition write_aof (buf : bytes) : M (option nat) := λ s,
  let w := st_world s in
  let w' := World (w_clock w) (w_ticks w) (w_rand w) (w_rands w)
                  (w_seed w) (w_seeds w) (w_write w) (S (w_writes w)) (w_sys w) in
  match w_write w (w_writes w) with
  | None => Some (None, set_world s w')
  | Some n =>
      let n := Nat.min (S n) (length buf) in
      let g := st_globals s in
      Some (Some n, set_globals (set_world s w')
        (set_aof_file g (g_aof_file g ++ take n buf)))
  end.

(** ** Command arguments *)

Abbreviation command := (list bytes).

Definition argc (cmd : command) : nat := length cmd.

(** [cmd->argv[i]] read as a C string. *)
Definition arg (cmd : command) (i : nat) : M bytes := lift (cstr <$> cmd !! i).

(** ** Replies *)

Definition reply (b : bytes) : M unit :=
  modify (λ s, let c := st_client s in
    set_client s (Client (c_fd c) (c_in c) (c_out c ++ b) (c_out_sent c) (c_closing c)
                         (c_events c) (c_subscribed c))).

Definition set_closing : M unit :=
  modify (λ s, let c := st_client s in
    set_client s (Client (c_fd c) (c_in c) (c_out c) (c_out_sent c) true
                         (c_events c) (c_subscribed c))).

Definition fmt_simple (s : bytes) : bytes := bs "+" ++ cstr s ++ crlf.
(** The text goes through a 256-byte buffer: at most 255 bytes of it are sent. *)
Definition fmt_error (s : bytes) : bytes := bs "-ERR " ++ cstr (take 255 s) ++ crlf.
Definition fmt_integer (n : Z) : bytes := bs ":" ++ ll_to_string n ++ crlf.
Definition fmt_bulk (s : bytes) : bytes :=
  bs "$" ++ dec_of (Z.of_nat (length s)) ++ crlf ++ s ++ crlf.
Definition fmt_null : bytes := bs "$-1" ++ crlf.
Definition fmt_array (n : Z) : bytes := bs "*" ++ dec_of n ++ crlf.

Definition reply_simple (s : bytes) : M unit := reply (fmt_simple s).
Definition reply_error (s : bytes) : M unit := reply (fmt_error s).
Definition reply_integer (n : Z) : M unit := reply (fmt_integer n).
Definition reply_bulk (s : bytes) : M unit := reply (fmt_bulk s).
Definition reply_bulk_cstr (s : bytes) : M unit := reply (fmt_bulk (cstr s)).
Definition reply_null : M unit := reply fmt_null.
Definition reply_array_header (n : Z) : M unit := reply (fmt_array n).

(** ** The keyspace dictionary *)

Definition store_get (key : bytes) : M (option robj) :=
  gets (λ s, dict_get (db_d (st_db s)) key).

Definition with_dict (s : state) (d : dict robj) : state := set_db s (Db d (db_cursor (st_db s))).

Definition store_set (key : bytes) (o : robj) : M (option robj) := λ s,
  let '(old, d) := dict_set (db_d (st_db s)) key o in Some (old, with_dict s d).

Definition store_delete (key : bytes) : M (option robj) := λ s,
  let '(old, d) := dict_delete (db_d (st_db s)) key in Some (old, with_dict s d).

(** Assignment through the pointer of the object stored under [key]. *)
Definition store_poke (key : bytes) (o : robj) : M unit := λ s,
  Some (tt, with_dict s (dict_poke (db_d (st_db s)) key o)).

(** ** Weakest preconditions *)

Definition wp {A} (m : M A) (Q : A → state → Prop) (s : state) : Prop :=
  match m s with Some (a, s') => Q a s' | None => False end.

Lemma wp_ret {A} (a : A) Q s : Q a s → wp (mret a) Q s.
Proof. done. Qed.

Lemma wp_bind {A B} (m : M A) (f : A → M B) Q s :
  wp m (λ a s', wp (f a) Q s') s → wp (m ≫= f) Q s.
Proof. unfold wp, mbind, M_bind. destruct (m s) as [[a s']|]; done. Qed.

Lemma wp_mono {A} (m : M A) (Q Q' : A → state → Prop) s :
  wp m Q s → (∀ a s', Q a s' → Q' a s') → wp m Q' s.
Proof. unfold wp. destruct (m s) as [[a s']|]; auto. Qed.

Lemma wp_run {A} (m : M A) Q s : wp m Q s → ∃ a s', m s = Some (a, s') ∧ Q a s'.
Proof. unfold wp. destruct (m s) as [[a s']|]; [eauto|done]. Qed.

Lemma wp_lift {A} (o : option A) Q s a : o = Some a → Q a s → wp (lift o) Q s.
Proof. by intros ->. Qed.

Lemma wp_foldM {A B} (I : list A → B → state → Prop) (f : B → A → M B) b xs Q s :
  I xs b s →
  (∀ x xs b s, I (x :: xs) b s → wp (f b x) (λ b' s', I xs b' s') s) →
  (∀ b s, I [] b s → Q b s) →
  wp (foldM f b xs) Q s.
Proof.
  intros HI Hstep HQ. revert b s HI. induction xs as [|x xs IH]; intros b s HI; cbn [foldM].
  - apply wp_ret. auto.
  - apply wp_bind. eapply wp_mono; [by apply Hstep|]. intros b' s' HI'. by apply IH.
Qed.

(** Nothing but pseudo-random values and seeds was consumed. *)
Definition drew (s s' : state) : Prop :=
  st_db s' = st_db s ∧ st_client s' = st_client s ∧ st_globals s' = st_globals s ∧
  w_clock (st_world s') = w_clock (st_world s) ∧ w_ticks (st_world s') = w_ticks (st_world s) ∧
  w_write (st_world s') = w_write (st_world s) ∧ w_writes (st_world s') = w_writes (st_world s) ∧
  w_sys (st_world s') = w_sys (st_world s).

#[export] Instance drew_refl : Reflexive drew.
Proof. done. Qed.
#[export] Instance drew_trans : Transitive drew.
Proof. unfold drew. intros s1 s2 s3. intuition congruence. Qed.

Lemma wp_draw_rands n (Q : (nat → Z) → state → Prop) s :
  (∀ r s', drew s s' → Q r s') → wp (rands n) Q s.
Proof. intros HQ. unfold wp, rands. by apply HQ. Qed.

Lemma wp_draw_seed (Q : bytes → state → Prop) s :
  (∀ r s', drew s s' → Q r s') → wp random_seed Q s.
Proof. intros HQ. unfold wp, random_seed. by apply HQ. Qed.

Lemma wp_random_level (Q : nat → state → Prop) s :
  (∀ level s', (1 <= level <= ZSKIPLIST_MAXLEVEL)%nat → drew s s' → Q level s') → wp random_level Q s.
Proof.
  intros HQ. unfold random_level. apply wp_bind, wp_draw_rands. intros r s1 H1. apply wp_bind, wp_draw_rands.
  intros _ s2 H2. apply wp_ret, HQ; [apply random_level_bounds|by etrans].
Qed.

Lemma wp_zset_insert z xs score member s :
  zset_rep z xs → not_nan score = true →
  wp (zset_insert z score member) (λ r s', ∃ z', r = ((zadd xs score member).1, z') ∧
    zset_rep z' (zadd xs score member).2 ∧ drew s s') s.
Proof.
  intros Hz Hv. pose proof (zset_find z xs member Hz) as Hf. unfold zset_insert. apply wp_bind.
  assert (∀ level s', (1 <= level <= ZSKIPLIST_MAXLEVEL)%nat → drew s s' →
    wp (lift (zset_add z level score member)) (λ r s', ∃ z', r = ((zadd xs score member).1, z') ∧
      zset_rep z' (zadd xs score member).2 ∧ drew s s') s') as Hadd.
  { intros level s' Hl Hs. destruct (zset_add_spec z xs level score member Hz Hl Hv) as (z' & Ha & Hz').
    eapply wp_lift; [done|]. eauto. }
  assert (∀ s', drew s s' → wp (level ← random_level; lift (zset_add z level score member))
    (λ r s', ∃ z', r = ((zadd xs score member).1, z') ∧ zset_rep z' (zadd xs score member).2 ∧ drew s s') s') as Hdraw.
  { intros s' Hs. apply wp_bind, wp_random_level. intros level s2 Hl H2. apply Hadd; [done|by etrans]. }
  destruct (dict_get (zs_dict z) member) as [x|].
  - destruct Hf as (n & -> & _). eapply wp_lift; [done|].
    destruct (deqb (z_score n) score); [|by apply Hdraw]. apply Hadd; [unfold ZSKIPLIST_MAXLEVEL; lia|done].
  - eapply wp_lift; [done|]. by apply Hdraw.
Qed.
