(* ===== verification/DbCore.v ===== *)
(** * The keyspace and its helpers ([src/db.c], first part)

    Lazy expiration, the periodic expire cycle and the helpers shared by the
    command handlers, together with the abstraction the handlers are specified
    against: the _visible_ keyspace at a time [t], a finite map from keys to
    values in which the keys whose expiry has passed do not exist. *)

From S2P Require Import Prelude Util Dict CList Zskiplist Zorder Zset Object Machine.

(** ** Operations *)

Definition db_create (random16 : bytes) : db := Db (dict_create random16) 0.

Definition db_size (s : db) : nat := dict_size (db_d s).

(** The clock is read only for a key that has an expiry. *)
Definition key_expired (o : robj) : M bool :=
  if o_expire_at o >=? 0 then t ← now_ms; mret (o_expire_at o <=? t) else mret false.

Definition lookup_key (key : bytes) : M (option robj) :=
  o ← store_get key;
  match o with
  | None => mret None
  | Some o =>
      e ← key_expired o;
      if (e : bool) then _ ← store_delete key; mret None else mret (Some o)
  end.

(** [o && o->type != ty] *)
Definition type_differs (o : option robj) (ty : obj_type) : bool :=
  match o with Some o => negb (obj_type_eqb (o_type o) ty) | None => false end.

Definition EXPIRE_CYCLE_MAX_KEYS : nat := 200.

Definition set_cursor (n : nat) : M unit := modify (λ s, set_db s (Db (db_d (st_db s)) n)).

(** The inner loop: the chain is walked through the [next] pointers saved before
    each deletion, so it is the chain as it was when the bucket was entered. *)
Definition expire_bucket (examined : nat) (c : list (entry robj)) : M nat :=
  foldM (λ (n : nat) (e : entry robj),
    x ← key_expired (e_val e);
    if (x : bool) then _ ← store_delete (e_key e); mret (S n) else mret (S n)) examined c.

(** The outer loop; the cursor moves up at every turn and the table does not
    change size, so [size] turns are enough fuel. *)
Fixpoint expire_loop (fuel : nat) (examined : nat) : M unit :=
  match fuel with
  | O => mret tt
  | S fuel =>
      cur ← gets (λ s, db_cursor (st_db s));
      sz ← gets (λ s, size (db_d (st_db s)));
      if (examined <? EXPIRE_CYCLE_MAX_KEYS)%nat && (cur <? sz)%nat then
        _ ← set_cursor (S cur);
        c ← gets (λ s, bucket (table (db_d (st_db s))) cur);
        n ← expire_bucket examined c;
        expire_loop fuel n
      else mret tt
  end.

Definition db_expire_cycle : M unit :=
  sz ← gets (λ s, size (db_d (st_db s)));
  if (sz =? 0)%nat then set_cursor 0 else
  cur ← gets (λ s, db_cursor (st_db s));
  _ ← (if (sz <=? cur)%nat then set_cursor 0 else mret tt);
  _ ← expire_loop sz 0;
  cur ← gets (λ s, db_cursor (st_db s));
  if (sz <=? cur)%nat then set_cursor 0 else mret tt.

Definition fmt_wrongtype : bytes :=
  bs "-WRONGTYPE Operation against a key holding the wrong kind of value" ++ crlf.
Definition reply_wrongtype : M unit := reply fmt_wrongtype.

Definition storage_is_empty (p : storage) : bool :=
  match p with
  | OBJ_STRING _ => false
  | OBJ_LIST l => list_len l =? 0
  | OBJ_HASH h => (dict_size h =? 0)%nat
  | OBJ_SET s => (dict_size s =? 0)%nat
  | OBJ_ZSET z => zset_len z =? 0
  end.

Definition maybe_delete_key (key : bytes) (o : robj) : M unit :=
  if storage_is_empty (o_ptr o) then _ ← store_delete key; mret tt else mret tt.

Definition type_name (t : obj_type) : bytes :=
  match t with
  | T_STRING => bs "string"
  | T_LIST => bs "list"
  | T_HASH => bs "hash"
  | T_SET => bs "set"
  | T_ZSET => bs "zset"
  end.

(** The normalised bounds, or [None] when the range is void. *)
Definition range_normalize (len start stop : Z) : option (Z * Z) :=
  let start := if start <? 0 then len + start else start in
  let stop := if stop <? 0 then len + stop else stop in
  let start := if start <? 0 then 0 else start in
  if (start >? stop) || (start >=? len) then None
  else Some (start, if stop >=? len then len - 1 else stop).

(** The arguments from index [i] on, one by one and two by two ([for] loops over
    [cmd->argv]). *)
Definition args_from (cmd : command) (i : nat) : list bytes := cstr <$> drop i cmd.

Fixpoint pair_up (l : list bytes) : list (bytes * bytes) :=
  match l with
  | a :: b :: l => (a, b) :: pair_up l
  | _ => []
  end.

Definition pairs_from (cmd : command) (i : nat) : list (bytes * bytes) := pair_up (args_from cmd i).

Definition wrong_args (name : bytes) : bytes :=
  bs "wrong number of arguments for '" ++ name ++ bs "' command".
Definition not_integer : bytes := bs "value is not an integer or out of range".

(** ** The visible keyspace *)

Abbreviation keyspace := (gmap bytes aobj).

Definition expired (t e : Z) : bool := (0 <=? e) && (e <=? t).

Definition live (t : Z) (a : aobj) : Prop := expired t (a_expire a) = false.
#[global] Instance live_dec t a : Decision (live t a).
Proof. unfold live. apply _. Defined.

(** All the objects of the dictionary, expired or not. *)
Definition db_rep (d : dict robj) (ks : keyspace) : Prop :=
  dict_wf d ∧ map_Forall2 (λ _, obj_rep) (dict_abs d) ks.

Definition visible (t : Z) (ks : keyspace) : keyspace := filter (λ kv, live t kv.2) ks.

(** Storing an object makes it visible unless it is already past its expiry. *)
Definition put (t : Z) (k : bytes) (a : aobj) (m : keyspace) : keyspace :=
  if decide (live t a) then <[k := a]> m else delete k m.

(** Storing a container that may have become empty: an empty one disappears. *)
Definition settle (m : keyspace) (k : bytes) (v : value) (e : Z) : keyspace :=
  if value_is_empty v then delete k m else <[k := Aobj v e]> m.

(** At time [t] (the clock does not move during the command), the visible
    keyspace is [m] and the calling client is [c]. *)
Definition Rep (t : Z) (m : keyspace) (c : client) (s : state) : Prop :=
  ((∀ n, w_clock (st_world s) n = t) ∧ 0 <= t <= INT64_MAX) ∧ st_client s = c ∧
  ∃ ks, db_rep (db_d (st_db s)) ks ∧ visible t ks = m.

Definition push (c : client) (b : bytes) : client :=
  Client (c_fd c) (c_in c) (c_out c ++ b) (c_out_sent c) (c_closing c) (c_events c) (c_subscribed c).

Lemma push_push c b b' : push (push c b) b' = push c (b ++ b').
Proof. unfold push. simpl. by rewrite <- app_assoc. Qed.

(** *** Keyspace lemmas *)

Lemma visible_lookup t ks k a : visible t ks !! k = Some a ↔ ks !! k = Some a ∧ live t a.
Proof. unfold visible. rewrite map_lookup_filter_Some. done. Qed.

Lemma visible_None t ks k : visible t ks !! k = None ↔ ∀ a, ks !! k = Some a → ¬ live t a.
Proof. unfold visible. rewrite map_lookup_filter_None. naive_solver. Qed.

Lemma visible_insert t ks k a : visible t (<[k := a]> ks) = put t k a (visible t ks).
Proof.
  unfold put, visible. case_decide as Hl.
  - by rewrite map_filter_insert_True.
  - rewrite map_filter_insert_False by done. by rewrite map_filter_delete.
Qed.

Lemma visible_delete t ks k : visible t (delete k ks) = delete k (visible t ks).
Proof. unfold visible. by rewrite map_filter_delete. Qed.

Lemma put_live t k a m : live t a → put t k a m = <[k := a]> m.
Proof. intros. unfold put. by rewrite decide_True. Qed.

Lemma live_expire t a : live t a → a_expire a < 0 ∨ t < a_expire a.
Proof. unfold live, expired. intros H. bool_prop. destruct H; bool_prop; lia. Qed.

Lemma put_forever t k v m : put t k (Aobj v (-1)) m = <[k := Aobj v (-1)]> m.
Proof. by apply put_live. Qed.

Lemma visible_delete_expired t ks k :
  visible t ks !! k = None → visible t (delete k ks) = visible t ks.
Proof. intros. rewrite visible_delete. by apply delete_id. Qed.

Lemma db_rep_lookup d ks k :
  db_rep d ks → option_Forall2 obj_rep (dict_get d k) (ks !! k).
Proof. intros [Hwf Hm]. rewrite dict_get_correct by done. apply Hm. Qed.

Lemma db_rep_set d ks k o a :
  db_rep d ks → obj_rep o a → db_rep (dict_set d k o).2 (<[k := a]> ks).
Proof.
  intros [Hwf Hm] Ho. destruct (dict_set_correct d k o Hwf) as (Hwf' & Ha & _).
  split; [done|]. rewrite Ha. by apply map_Forall2_insert_2.
Qed.

Lemma db_rep_set_old d ks k o :
  db_rep d ks → option_Forall2 obj_rep (dict_set d k o).1 (ks !! k).
Proof.
  intros [Hwf Hm]. destruct (dict_set_correct d k o Hwf) as (_ & _ & ->). apply Hm.
Qed.

Lemma db_rep_delete d ks k : db_rep d ks → db_rep (dict_delete d k).2 (delete k ks).
Proof.
  intros [Hwf Hm]. destruct (dict_delete_correct d k Hwf) as (Hwf' & Ha & _).
  split; [done|]. rewrite Ha. by apply map_Forall2_delete.
Qed.

Lemma db_rep_delete_old d ks k :
  db_rep d ks → option_Forall2 obj_rep (dict_delete d k).1 (ks !! k).
Proof.
  intros [Hwf Hm]. destruct (dict_delete_correct d k Hwf) as (_ & _ & ->). apply Hm.
Qed.

Lemma db_rep_poke d ks k o a :
  db_rep d ks → is_Some (ks !! k) → obj_rep o a → db_rep (dict_poke d k o) (<[k := a]> ks).
Proof.
  intros [Hwf Hm] [a' Hk] Ho.
  assert (Hs : is_Some (dict_abs d !! k)).
  { pose proof (Hm k) as H. rewrite Hk in H. inversion H; eauto. }
  destruct (dict_poke_correct d k o Hwf Hs) as [Hwf' Ha].
  split; [done|]. rewrite Ha. by apply map_Forall2_insert_2.
Qed.

Lemma db_rep_create r : db_rep (dict_create r) ∅.
Proof.
  destruct (dict_create_spec (V:=robj) r) as [Hw Ha]. split; [done|]. rewrite Ha.
  apply map_Forall2_empty.
Qed.

Lemma db_rep_size d ks : db_rep d ks → dict_size d = base.size ks.
Proof.
  intros [Hwf Hm]. rewrite dict_size_correct by done. rewrite <- !size_dom.
  f_equal. apply set_eq. intros k. rewrite !elem_of_dom. pose proof (Hm k) as H.
  destruct H; split; intros []; eauto; done.
Qed.

Lemma storage_is_empty_spec p v : storage_rep p v → storage_is_empty p = value_is_empty v.
Proof.
  intros H. destruct H as [|l xs Hl|h Hh|h Hh|z xs Hz]; simpl; [done| | | |].
  - rewrite (is_list_len _ _ Hl). by destruct xs.
  - by rewrite dict_size_correct.
  - by rewrite dict_size_correct.
  - rewrite (zset_len_spec _ _ Hz). by destruct xs.
Qed.

(** ** Rules of the keyspace operations *)

Section Rules.
Context (t : Z) (m : keyspace) (c : client) (s : state) (HR : Rep t m c s).

Lemma Rep_live k a : m !! k = Some a → live t a.
Proof. destruct HR as (_ & _ & ks & _ & <-). by intros [_ ?]%visible_lookup. Qed.

Lemma wp_now_ms (Q : Z → state → Prop) :
  (∀ s', Rep t m c s' → Q t s') → wp now_ms Q s.
Proof.
  destruct HR as (Hc & Hcl & Hks). intros HQ. unfold wp, now_ms. simpl. rewrite (proj1 Hc). apply HQ. done.
Qed.

Lemma wp_random_seed (Q : bytes → state → Prop) :
  (∀ r s', Rep t m c s' → Q r s') → wp random_seed Q s.
Proof. destruct HR as (Hc & Hcl & Hks). intros HQ. unfold wp, random_seed. simpl. by apply HQ. Qed.

Lemma wp_rands n (Q : (nat → Z) → state → Prop) :
  (∀ r s', Rep t m c s' → Q r s') → wp (rands n) Q s.
Proof. destruct HR as (Hc & Hcl & Hks). intros HQ. unfold wp, rands. simpl. by apply HQ. Qed.

Lemma Rep_drew s' : drew s s' → Rep t m c s'.
Proof.
  destruct HR as (Hc & Hcl & Hks). intros (Hd & Hc' & _ & Hk & _). unfold Rep. by rewrite Hd, Hc', Hk.
Qed.

Lemma wp_reply b (Q : unit → state → Prop) :
  (∀ s', Rep t m (push c b) s' → Q tt s') → wp (reply b) Q s.
Proof.
  destruct HR as (Hc & Hcl & Hks). intros HQ. unfold wp, reply, modify. apply HQ.
  split; [done|]. split; [|done]. simpl. by rewrite Hcl.
Qed.

Lemma wp_key_expired o (Q : bool → state → Prop) :
  (∀ s', Rep t m c s' → st_db s' = st_db s → Q (expired t (o_expire_at o)) s') → wp (key_expired o) Q s.
Proof.
  destruct HR as (Hc & Hcl & Hks). intros HQ. unfold wp, key_expired, expired in *.
  rewrite Z.geb_leb in *. destruct (0 <=? o_expire_at o); [|by apply HQ].
  unfold mbind, M_bind, mret, M_ret, now_ms. simpl. rewrite (proj1 Hc). by apply HQ.
Qed.

(** Looking a key up returns what is visible under it; collecting an expired key
    on the way cannot be observed. *)
Lemma wp_lookup_key k (Q : option robj → state → Prop) :
  (m !! k = None → ∀ s', Rep t m c s' → dict_get (db_d (st_db s')) k = None → Q None s') →
  (∀ o a, m !! k = Some a → obj_rep o a → ∀ s', Rep t m c s' → Q (Some o) s') →
  wp (lookup_key k) Q s.
Proof.
  intros HN HS. unfold lookup_key. apply wp_bind. unfold store_get, gets, wp at 1.
  pose proof HR as (Hc & Hcl & ks & Hks & Hv). pose proof (db_rep_lookup _ _ k Hks) as Hl.
  inversion Hl as [o a Ho Eo Ea|Eo Ea].
  - apply wp_bind, wp_key_expired. intros s' HR' Hdb. rewrite (proj1 (proj2 Ho)).
    destruct (expired t (a_expire a)) eqn:E.
    + assert (Hm : m !! k = None).
      { rewrite <- Hv. apply visible_None. intros a' Ha'. unfold live. congruence. }
      unfold wp, mbind, M_bind, store_delete. destruct (dict_delete _ _) as [old d'] eqn:Ed.
      assert (Hd : db_rep d' (delete k ks)).
      { replace d' with (dict_delete (db_d (st_db s)) k).2 by (by rewrite <- Hdb, Ed).
        by apply db_rep_delete. }
      apply HN; [done| |].
      * destruct HR' as (Hc' & Hcl' & _). split; [done|]. split; [done|].
        exists (delete k ks). split; [done|rewrite <- Hv in *; by apply visible_delete_expired].
      * pose proof (db_rep_lookup _ _ k Hd) as H. rewrite lookup_delete_eq in H. by inversion H.
    + apply (HS o a); [|done|done]. rewrite <- Hv. by apply visible_lookup.
  - apply HN; [|done|done]. rewrite <- Hv. apply visible_None. congruence.
Qed.

(** What is known of the object a store or a deletion displaced: nothing when the
    key is physically absent, the visible object when there is one. *)
Definition displaced (k : bytes) (old : option robj) : Prop :=
  (dict_get (db_d (st_db s)) k = None → old = None) ∧
  (∀ a0, m !! k = Some a0 → ∃ o, old = Some o ∧ obj_rep o a0).

Lemma displaced_abs ks k :
  db_rep (db_d (st_db s)) ks → visible t ks = m → displaced k (dict_abs (db_d (st_db s)) !! k).
Proof.
  intros [Hwf Hm] Hv. split.
  - by rewrite dict_get_correct.
  - intros a0 Ha0. rewrite <- Hv in Ha0. apply visible_lookup in Ha0 as [Hk _].
    pose proof (Hm k) as H. rewrite Hk in H. inversion H; subst; eauto.
Qed.

Lemma wp_store_set k o a (Q : option robj → state → Prop) :
  obj_rep o a →
  (∀ old s', displaced k old → Rep t (put t k a m) c s' → Q old s') →
  wp (store_set k o) Q s.
Proof.
  destruct HR as (Hc & Hcl & ks & Hks & Hv). intros Ho HQ. unfold wp, store_set.
  pose proof (db_rep_set _ _ k o a Hks Ho) as Hd.
  pose proof (dict_set_correct _ k o (proj1 Hks)) as (_ & _ & Hold).
  pose proof (displaced_abs _ k Hks Hv) as Hdis.
  destruct (dict_set _ _ _) as [old d']. simpl in Hold. rewrite <- Hold in Hdis.
  apply HQ; [done|]. split; [done|]. split; [done|]. exists (<[k:=a]> ks).
  split; [done|]. by rewrite visible_insert, Hv.
Qed.

Lemma wp_store_delete k (Q : option robj → state → Prop) :
  (∀ old s', displaced k old → Rep t (delete k m) c s' → Q old s') → wp (store_delete k) Q s.
Proof.
  destruct HR as (Hc & Hcl & ks & Hks & Hv). intros HQ. unfold wp, store_delete.
  pose proof (db_rep_delete _ _ k Hks) as Hd.
  pose proof (dict_delete_correct _ k (proj1 Hks)) as (_ & _ & Hold).
  pose proof (displaced_abs _ k Hks Hv) as Hdis.
  destruct (dict_delete _ _) as [old d']. simpl in Hold. rewrite <- Hold in Hdis.
  apply HQ; [done|]. split; [done|]. split; [done|]. exists (delete k ks).
  split; [done|]. by rewrite visible_delete, Hv.
Qed.

Lemma wp_store_poke k o a a0 (Q : unit → state → Prop) :
  m !! k = Some a0 → obj_rep o a →
  (∀ s', Rep t (put t k a m) c s' → Q tt s') →
  wp (store_poke k o) Q s.
Proof.
  destruct HR as (Hc & Hcl & ks & Hks & Hv). intros Hk Ho HQ. unfold wp, store_poke.
  rewrite <- Hv in Hk. apply visible_lookup in Hk as [Hk _]. apply HQ.
  split; [done|]. split; [done|]. exists (<[k:=a]> ks). split; [|by rewrite visible_insert, Hv].
  simpl. apply db_rep_poke; eauto.
Qed.

(** A change of the value that keeps the expiry. *)
Lemma wp_store_poke_value k o p v a0 (Q : unit → state → Prop) :
  m !! k = Some a0 → obj_rep o a0 → storage_rep p v →
  (∀ s', Rep t (<[k := Aobj v (a_expire a0)]> m) c s' → Q tt s') →
  wp (store_poke k (with_ptr o p)) Q s.
Proof.
  intros Hk (_ & He & Hll) Hp HQ.
  apply (wp_store_poke k _ (Aobj v (a_expire a0)) a0); [done|done|].
  intros s'. rewrite put_live; [apply HQ|]. apply (Rep_live _ _ Hk).
Qed.

(** The same on an object stored a moment ago. *)
Lemma wp_store_poke_new k o p v m0 a (Q : unit → state → Prop) :
  m = <[k := a]> m0 → obj_rep o a → storage_rep p v →
  (∀ s', Rep t (<[k := Aobj v (a_expire a)]> m0) c s' → Q tt s') →
  wp (store_poke k (with_ptr o p)) Q s.
Proof.
  intros Hm Ho Hp HQ. eapply wp_store_poke_value; [|done|done|].
  - rewrite Hm. apply lookup_insert_eq.
  - intros s'. rewrite Hm, insert_insert_eq. apply HQ.
Qed.

Lemma wp_maybe_delete_key k o v e m0 (Q : unit → state → Prop) :
  m = <[k := Aobj v e]> m0 → storage_rep (o_ptr o) v →
  (∀ s', Rep t (settle m0 k v e) c s' → Q tt s') →
  wp (maybe_delete_key k o) Q s.
Proof.
  intros Hm Hp HQ. unfold maybe_delete_key, settle in *. rewrite (storage_is_empty_spec _ _ Hp).
  destruct (value_is_empty v); [|by apply wp_ret, HQ; rewrite <- Hm].
  apply wp_bind, wp_store_delete. intros old s' _ HR'. apply wp_ret, HQ.
  by rewrite Hm, delete_insert_eq in HR'.
Qed.

Lemma wp_set_new k o v (Q : option robj → state → Prop) :
  obj_rep o (Aobj v (-1)) →
  (∀ old s', displaced k old → Rep t (<[k := Aobj v (-1)]> m) c s' → Q old s') →
  wp (store_set k o) Q s.
Proof.
  intros Ho HQ. apply (wp_store_set k _ _ _ Ho). intros old s' ?. rewrite put_forever. by apply HQ.
Qed.

Lemma wp_set_string k v (Q : option robj → state → Prop) :
  (∀ old s', displaced k old → Rep t (<[k := Aobj (VString v) (-1)]> m) c s' → Q old s') →
  wp (store_set k (robj_new_string v)) Q s.
Proof. apply wp_set_new, obj_rep_new_string. Qed.

Lemma wp_set_string_expire k v e (Q : option robj → state → Prop) :
  in_ll e →
  (∀ old s', displaced k old → Rep t (put t k (Aobj (VString v) e) m) c s' → Q old s') →
  wp (store_set k (with_expire (robj_new_string v) e)) Q s.
Proof.
  intros He HQ. apply (wp_store_set k _ (Aobj (VString v) e)); [|done].
  split; [constructor|done].
Qed.

Lemma Rep_time : 0 <= t <= INT64_MAX.
Proof. apply HR. Qed.

End Rules.

Lemma Rep_live_expire (t : Z) (m : keyspace) c s (k : bytes) v v' (e : Z) :
  Rep t m c s → m !! k = Some (Aobj v e) → live t (Aobj v' e).
Proof. intros HR Hk. apply (Rep_live _ _ _ _ HR _ _ Hk). Qed.

(** [range_normalize] computes the bounds of the slice. *)
Lemma range_normalize_slice {A} (xs : list A) start stop :
  match range_normalize (Z.of_nat (length xs)) start stop with
  | None => slice xs start stop = []
  | Some (lo, hi) =>
      0 <= lo <= hi ∧ hi < Z.of_nat (length xs) ∧
      slice xs start stop = take (Z.to_nat (hi - lo + 1)) (drop (Z.to_nat lo) xs)
  end.
Proof.
  unfold range_normalize. rewrite <- slice_clamped. cbv zeta. set (len := Z.of_nat (length xs)).
  set (p := if start <? 0 then _ else _). set (q := if stop <? 0 then _ else _).
  assert (0 <= if p <? 0 then 0 else p) by (case_if; bool_prop; lia).
  set (lo := if p <? 0 then 0 else p) in *. clearbody p q lo.
  assert (Heq : (lo >? (if q >=? len then len - 1 else q)) || (lo >=? len)
              = (lo >? q) || (lo >=? len)).
  { apply eq_true_iff_eq. rewrite !orb_true_iff, !Z.gtb_lt, !Z.geb_le. case_if; bool_prop; lia. }
  rewrite Heq. destruct ((lo >? q) || (lo >=? len)) eqn:E; bool_prop; [done|].
  split; [|split]; [| |done]; case_if; bool_prop; lia.
Qed.

(** ** The abstract replies *)

Inductive rv :=
| RSimple (s : bytes)
| RError (s : bytes)
| RWrongType
| RInt (n : Z)
| RBulk (s : bytes)
| RNull
| RArray (l : list rv)
| RHeaded (n : Z) (l : list rv)   (* the elements of [l] behind a header that announces [n] *)
| RClose (r : rv).    (* the reply [r], after which the connection is closed *)

Fixpoint rv_bytes (r : rv) : bytes :=
  match r with
  | RSimple s => fmt_simple s
  | RError s => fmt_error s
  | RWrongType => fmt_wrongtype
  | RInt n => fmt_integer n
  | RBulk s => fmt_bulk s
  | RNull => fmt_null
  | RArray l => fmt_array (Z.of_nat (length l)) ++ concat (map rv_bytes l)
  | RHeaded n l => fmt_array n ++ concat (map rv_bytes l)
  | RClose r => rv_bytes r
  end.

Definition closing (c : client) : client :=
  Client (c_fd c) (c_in c) (c_out c) (c_out_sent c) true (c_events c) (c_subscribed c).

(** The client once the reply has been delivered to it. *)
Definition deliver (c : client) (r : rv) : client :=
  match r with
  | RClose r => closing (push c (rv_bytes r))
  | r => push c (rv_bytes r)
  end.

(** ** Refinement of an abstract command

    An abstract command relates the time, the visible keyspace and the arguments
    (as C strings) to the new keyspace and the reply; most are functions. *)
Definition spec := Z → keyspace → list bytes → keyspace → rv → Prop.

Definition det (f : Z → keyspace → list bytes → keyspace * rv) : spec :=
  λ t m args m' r, f t m args = (m', r).

Definition refines (f : command → M unit) (sp : spec) : Prop :=
  ∀ t m c cmd s, cmd ≠ [] → Rep t m c s →
    wp (f cmd) (λ _ s', ∃ m' r, sp t m (cstr <$> cmd) m' r ∧ Rep t m' (deliver c r) s') s.

Lemma refines_det f sp :
  (∀ t m c cmd s, cmd ≠ [] → Rep t m c s →
    wp (f cmd) (λ _ s',
      Rep t (sp t m (cstr <$> cmd)).1 (deliver c (sp t m (cstr <$> cmd)).2) s') s) →
  refines f (det sp).
Proof.
  intros H t m c cmd s Hc HR. eapply wp_mono; [by apply (H t m c)|].
  intros u s' HR'. unfold det. destruct (sp t m (cstr <$> cmd)) as [m' r]. eauto.
Qed.

Lemma refines_wrong (t : Z) (m : keyspace) (c : client) (name : bytes) (s : state) (f : keyspace → rv → Prop) :
  Rep t m c s → f m (RError (wrong_args name)) →
  wp (reply_error (wrong_args name)) (λ _ s', ∃ m' r, f m' r ∧ Rep t m' (deliver c r) s') s.
Proof.
  intros HR Hf. apply (wp_reply _ _ _ _ HR). intros s' HR'. eauto.
Qed.

(** One step of symbolic execution of a handler in a goal [wp _ _ s], where the
    context has [Rep t m c s]. *)
Ltac wp_step :=
  lazymatch goal with
  | |- wp (mbind _ _) _ _ => apply wp_bind
  | |- wp (mret _) _ _ => apply wp_ret
  | |- wp (lift _) _ _ => eapply wp_lift; [reflexivity|]
  | |- wp (arg _ _) _ _ => eapply wp_lift; [reflexivity|]
  | H : Rep _ _ _ ?s |- wp (lookup_key _) _ ?s =>
      eapply (wp_lookup_key _ _ _ _ H);
      [let Hk := fresh "Hk" in intros Hk ? ? ?
      |let Hk := fresh "Hk" in let Ho := fresh "Ho" in intros ? ? Hk Ho ? ?]
  | H : Rep _ _ _ ?s |- wp now_ms _ ?s => eapply (wp_now_ms _ _ _ _ H); intros ? ?
  | H : Rep _ _ _ ?s |- wp random_seed _ ?s => eapply (wp_random_seed _ _ _ _ H); intros ? ? ?
  | H : Rep _ _ _ ?s |- wp (store_delete _) _ ?s =>
      eapply (wp_store_delete _ _ _ _ H); intros ? ? ? ?
  | |- context [robj_new_string_ll _] => unfold robj_new_string_ll
  | H : Rep _ _ _ ?s |- wp (store_set _ (robj_new_string _)) _ ?s =>
      eapply (wp_set_string _ _ _ _ H); intros ? ? ? ?
  | H : Rep _ _ _ ?s |- wp (store_set _ robj_new_list) _ ?s =>
      eapply (wp_set_new _ _ _ _ H); [apply obj_rep_new_list|]; intros ? ? ? ?
  | H : Rep _ _ _ ?s |- wp (store_set _ (robj_new_hash _)) _ ?s =>
      eapply (wp_set_new _ _ _ _ H); [apply obj_rep_new_hash|]; intros ? ? ? ?
  | H : Rep _ _ _ ?s |- wp (store_set _ (robj_new_set _)) _ ?s =>
      eapply (wp_set_new _ _ _ _ H); [apply obj_rep_new_set|]; intros ? ? ? ?
  | H : Rep _ _ _ ?s |- wp (store_set _ (robj_new_zset _)) _ ?s =>
      eapply (wp_set_new _ _ _ _ H); [apply obj_rep_new_zset|]; intros ? ? ? ?
  | H : Rep _ _ _ ?s |- wp (store_set _ (with_expire (robj_new_string _) _)) _ ?s =>
      eapply (wp_set_string_expire _ _ _ _ H); [auto with miniredis|];
      intros ? ? ? ?
  | H : Rep _ ?m _ ?s, Hk : ?m !! ?k = Some _, Ho : obj_rep ?o _
      |- wp (store_poke ?k (with_ptr ?o _)) _ ?s =>
      eapply (wp_store_poke_value _ _ _ _ H _ _ _ _ _ _ Hk Ho); [solve [eauto with miniredis]|];
      intros ? ?
  | H : Rep _ (<[?k := _]> _) _ ?s |- wp (store_poke ?k (with_ptr _ _)) _ ?s =>
      eapply (wp_store_poke_new _ _ _ _ H); [reflexivity|solve [eauto with miniredis]..|];
      intros ? ?
  | H : Rep _ (<[?k := _]> _) _ ?s |- wp (maybe_delete_key ?k _) _ ?s =>
      eapply (wp_maybe_delete_key _ _ _ _ H);
      [reflexivity|cbn [o_ptr with_ptr]; solve [eauto with miniredis]|];
      intros ? ?
  | H : Rep _ _ _ ?s |- wp (reply _) _ ?s => eapply (wp_reply _ _ _ _ H); intros ? ?
  | |- wp (reply_simple _) _ _ => unfold reply_simple
  | |- wp (reply_error _) _ _ => unfold reply_error
  | |- wp (reply_integer _) _ _ => unfold reply_integer
  | |- wp (reply_bulk _) _ _ => unfold reply_bulk
  | |- wp (reply_bulk_cstr _) _ _ => unfold reply_bulk_cstr; rewrite ?cstr_idemp
  | |- wp reply_null _ _ => unfold reply_null
  | |- wp reply_wrongtype _ _ => unfold reply_wrongtype
  | |- wp (reply_array_header _) _ _ => unfold reply_array_header
  end.

Ltac wp_reduce :=
  cbn beta iota delta [type_differs obj_type_eqb o_type o_ptr o_expire_at negb andb orb].
(** Resolve the object a store or a deletion returned. *)
Ltac old_cases :=
  match goal with
  | Hd : displaced _ _ ?k ?old, Hk : _ !! ?k = Some _ |- _ =>
      destruct (proj2 Hd _ Hk) as (? & -> & ?); clear Hd
  | Hd : displaced _ _ ?k ?old, Hg : dict_get _ ?k = None |- _ =>
      rewrite (proj1 Hd Hg); clear Hd
  end; wp_reduce.

Ltac wp_steps := wp_reduce; repeat (wp_step; wp_reduce).

Lemma Rep_eq t m m' c c' s : Rep t m c s → m = m' → c = c' → Rep t m' c' s.
Proof. by intros ? -> ->. Qed.

(** The answer to a command with the wrong number of arguments. *)
Definition s_wrong (name : bytes) (m : keyspace) : keyspace * rv := (m, RError (wrong_args name)).

Ltac cmd_simpl :=
  unfold s_wrong;
  cbn [argc length Nat.eqb Nat.ltb Nat.leb negb andb orb fmap list_fmap args_from pairs_from drop
       pair_up fst snd deliver rv_bytes].

(** Start the refinement proof of a handler that is a function of the keyspace,
    by cases on the number of arguments. *)
Ltac cmd_arity cmd := destruct cmd as [|? [|? [|? [|? [|? cmd]]]]]; [done|..].

Ltac cmd_start f sp :=
  apply refines_det; let cmd := fresh "cmd" in let Hne := fresh "Hne" in
  intros ? ? ? cmd ? Hne ?; unfold f, sp; cmd_arity cmd; cmd_simpl; clear Hne.

(** Case analysis on the object found under a key, in the handler and in its
    specification at once. *)
Ltac obj_cases :=
  match goal with
  | Ho : obj_rep ?o ?a |- _ =>
      let Hs := fresh "Hs" in
      is_var o; destruct o as [? ?]; try (is_var a; destruct a as [? ?]); pose proof Ho as (Hs & ? & ?);
      cbn [o_ptr o_expire_at a_value a_expire] in *; subst; inversion Hs; subst;
      cbn [o_ptr o_expire_at a_value a_expire o_type value_type type_differs] in *
  end.

(** The last goal of a branch: the state reached is the specified one, up to
    equations on the keyspace and on the reply. *)
Ltac wp_done :=
  try match goal with Hk : _ !! _ = _ |- _ => rewrite !Hk end;
  cmd_simpl; rewrite ?push_push;
  first [ eassumption
        | match goal with H : Rep _ _ _ ?s |- Rep _ _ _ ?s =>
            eapply Rep_eq; [exact H|try done|try done] end ].

Ltac wp_finish := wp_steps; try (obj_cases; wp_steps); try wp_done.

(** Loops that only reply, only count, or only update the keyspace. *)
Section Loops.
Context {A : Type} (t : Z) (c : client).

Lemma wp_forM_reply (f : A → M unit) (g : A → bytes) xs m s (Q : unit → state → Prop) :
  Rep t m c s →
  (∀ x c s, x ∈ xs → Rep t m c s → wp (f x) (λ _ s', Rep t m (push c (g x)) s') s) →
  (∀ s', Rep t m (push c (concat (map g xs))) s' → Q tt s') →
  wp (forM xs f) Q s.
Proof.
  intros HR Hf HQ. unfold forM.
  apply (wp_foldM (λ ys _ s, ∃ zs, xs = zs ++ ys ∧ Rep t m (push c (concat (map g zs))) s)).
  - exists []. split; [done|]. eapply Rep_eq; [done..|]. destruct c. unfold push. simpl.
    by rewrite app_nil_r.
  - intros x ys _ s' (zs & Hxs & HR'). eapply wp_mono; [apply Hf; [set_solver|done]|].
    intros [] s'' HR''. exists (zs ++ [x]). rewrite <- app_assoc. split; [done|].
    rewrite push_push in HR''. rewrite map_app, concat_app. simpl. by rewrite app_nil_r.
  - intros [] s' (zs & -> & HR'). apply HQ. by rewrite app_nil_r.
Qed.

Lemma wp_foldM_pure {B} (f : B → A → M B) (g : B → A → B) xs m b s (Q : B → state → Prop) :
  Rep t m c s →
  (∀ b x s, x ∈ xs → Rep t m c s → wp (f b x) (λ b' s', b' = g b x ∧ Rep t m c s') s) →
  (∀ s', Rep t m c s' → Q (foldl g b xs) s') →
  wp (foldM f b xs) Q s.
Proof.
  intros HR Hf HQ.
  apply (wp_foldM (λ ys b' s, ∃ zs, xs = zs ++ ys ∧ b' = foldl g b zs ∧ Rep t m c s)).
  - by exists [].
  - intros x ys b' s' (zs & Hxs & -> & HR'). eapply wp_mono; [apply Hf; [set_solver|done]|].
    intros b'' s'' [-> HR'']. exists (zs ++ [x]). rewrite <- app_assoc, foldl_app. done.
  - intros b' s' (zs & -> & -> & HR'). rewrite app_nil_r in HQ. by apply HQ.
Qed.

Lemma wp_foldM_update {B} (f : B → A → M B) (g : B → keyspace → A → B * keyspace) xs m b s
    (Q : B → state → Prop) :
  Rep t m c s →
  (∀ m b x s, Rep t m c s → wp (f b x) (λ b' s', b' = (g b m x).1 ∧ Rep t (g b m x).2 c s') s) →
  (∀ s', let r := foldl (λ bm x, g bm.1 bm.2 x) (b, m) xs in Rep t r.2 c s' → Q r.1 s') →
  wp (foldM f b xs) Q s.
Proof.
  intros HR Hf HQ. revert b m s HR HQ.
  induction xs as [|x xs IH]; intros b m s HR HQ; cbn [foldM].
  - apply wp_ret. by apply HQ.
  - apply wp_bind. eapply wp_mono; [by apply Hf|]. intros b' s' [-> HR'].
    eapply IH; [done|]. rewrite <- surjective_pairing. apply HQ.
Qed.
Lemma wp_forM_update (f : A → M unit) (g : keyspace → A → keyspace) xs m s
    (Q : unit → state → Prop) :
  Rep t m c s →
  (∀ m x s, Rep t m c s → wp (f x) (λ _ s', Rep t (g m x) c s') s) →
  (∀ s', Rep t (foldl g m xs) c s' → Q tt s') →
  wp (forM xs f) Q s.
Proof.
  intros HR Hf HQ. unfold forM. revert m s HR HQ.
  induction xs as [|x xs IH]; intros m s HR HQ; cbn [foldM].
  - apply wp_ret. by apply HQ.
  - apply wp_bind. eapply wp_mono; [by apply Hf|]. intros [] s' HR'. by eapply IH.
Qed.
End Loops.
