(* ===== verification/DbString.v ===== *)
(** * String, generic and connection commands ([src/db.c])

    The handlers from [cmd_ping] to [cmd_quit], each followed by the abstract
    command it refines.  Arguments are read as C strings; 64-bit additions are
    two's complement. *)

From S2P Require Import Prelude Util Dict CList Zskiplist Object Machine DbCore.
Import Num Glob.

(** ** Handlers *)

Definition cmd_ping (cmd : command) : M unit :=
  if (2 <? argc cmd)%nat then reply_error (wrong_args (bs "ping")) else
  if (argc cmd =? 2)%nat then a ← arg cmd 1; reply_bulk_cstr a
  else reply_simple (bs "PONG").

Definition cmd_echo (cmd : command) : M unit :=
  if negb (argc cmd =? 2)%nat then reply_error (wrong_args (bs "echo")) else
  a ← arg cmd 1; reply_bulk_cstr a.

(** The option loop of SET: an error message, or the flags and the relative
    expiry. *)
Definition bad_set_expire : bytes := bs "invalid expire time in 'set' command".

Fixpoint set_options (l : list bytes) (nx xx : bool) (expire_ms : Z) :
    M (bytes + bool * bool * Z) :=
  match l with
  | [] => mret (inr (nx, xx, expire_ms))
  | a :: l =>
      if strcaseeq a (bs "EX") || strcaseeq a (bs "PX") ||
         strcaseeq a (bs "EXAT") || strcaseeq a (bs "PXAT") then
        match l with
        | [] => mret (inl (bs "syntax error"))
        | b :: l =>
            match string_to_ll b with
            | None => mret (inl bad_set_expire)
            | Some v =>
                if v <=? 0 then mret (inl bad_set_expire)
                else if strcaseeq a (bs "EX") then
                  if v >? INT64_MAX / 1000 then mret (inl bad_set_expire)
                  else set_options l nx xx (v * 1000)
                else if strcaseeq a (bs "PX") then set_options l nx xx v
                else if strcaseeq a (bs "EXAT") then
                  if v >? INT64_MAX / 1000 then mret (inl bad_set_expire)
                  else t ← now_ms; set_options l nx xx (wraps64 (v * 1000 - t))
                else t ← now_ms; set_options l nx xx (wraps64 (v - t))
            end
        end
      else if strcaseeq a (bs "NX") then set_options l true xx expire_ms
      else if strcaseeq a (bs "XX") then set_options l nx true expire_ms
      else mret (inl (bs "syntax error"))
  end.

Definition cmd_set (cmd : command) : M unit :=
  if (argc cmd <? 3)%nat then reply_error (wrong_args (bs "set")) else
  opts ← set_options (args_from cmd 3) false false (-1);
  match opts with
  | inl e => reply_error e
  | inr (nx, xx, expire_ms) =>
      if nx && xx then reply_error (bs "syntax error") else
      k ← arg cmd 1;
      existing ← lookup_key k;
      if nx && is_some existing then reply_null else
      if xx && negb (is_some existing) then reply_null else
      v ← arg cmd 2;
      expire_at ← (if expire_ms <? 0 then mret (-1)
                   else t ← now_ms; mret (wraps64 (t + expire_ms)));
      _ ← store_set k (with_expire (robj_new_string v) expire_at);
      reply_simple (bs "OK")
  end.

Definition cmd_get (cmd : command) : M unit :=
  if negb (argc cmd =? 2)%nat then reply_error (wrong_args (bs "get")) else
  k ← arg cmd 1;
  o ← lookup_key k;
  match o with
  | None => reply_null
  | Some o => match o_ptr o with OBJ_STRING s => reply_bulk s | _ => reply_wrongtype end
  end.

Definition cmd_mget (cmd : command) : M unit :=
  if (argc cmd <? 2)%nat then reply_error (wrong_args (bs "mget")) else
  _ ← reply_array_header (Z.of_nat (argc cmd) - 1);
  forM (args_from cmd 1) (λ k,
    o ← lookup_key k;
    match o with
    | Some (Robj (OBJ_STRING s) _) => reply_bulk s
    | _ => reply_null
    end).

Definition cmd_mset (cmd : command) : M unit :=
  if (argc cmd <? 3)%nat || Nat.odd (argc cmd - 1) then reply_error (wrong_args (bs "mset")) else
  _ ← forM (pairs_from cmd 1) (λ '(k, v), _ ← store_set k (robj_new_string v); mret tt);
  reply_simple (bs "OK").

Definition cmd_append (cmd : command) : M unit :=
  if negb (argc cmd =? 3)%nat then reply_error (wrong_args (bs "append")) else
  k ← arg cmd 1;
  o ← lookup_key k;
  v ← arg cmd 2;
  match o with
  | None =>
      _ ← store_set k (robj_new_string v);
      reply_integer (Z.of_nat (length v))
  | Some o =>
      match o_ptr o with
      | OBJ_STRING s =>
          _ ← store_poke k (with_ptr o (OBJ_STRING (s ++ v)));
          reply_integer (Z.of_nat (length (s ++ v)))
      | _ => reply_wrongtype
      end
  end.

Definition cmd_strlen (cmd : command) : M unit :=
  if negb (argc cmd =? 2)%nat then reply_error (wrong_args (bs "strlen")) else
  k ← arg cmd 1;
  o ← lookup_key k;
  match o with
  | None => reply_integer 0
  | Some o =>
      match o_ptr o with
      | OBJ_STRING s => reply_integer (Z.of_nat (length s))
      | _ => reply_wrongtype
      end
  end.

Definition cmd_getrange (cmd : command) : M unit :=
  if negb (argc cmd =? 4)%nat then reply_error (wrong_args (bs "getrange")) else
  a2 ← arg cmd 2;
  a3 ← arg cmd 3;
  match string_to_ll a2, string_to_ll a3 with
  | Some start, Some stop =>
      k ← arg cmd 1;
      o ← lookup_key k;
      match o with
      | None => reply_bulk_cstr []
      | Some o =>
          match o_ptr o with
          | OBJ_STRING s =>
              let len := Z.of_nat (length s) in
              let start := if start <? 0 then len + start else start in
              let stop := if stop <? 0 then len + stop else stop in
              let start := if start <? 0 then 0 else start in
              let stop := if stop >=? len then len - 1 else stop in
              if (start >? stop) || (start >=? len) then reply_bulk_cstr []
              else reply_bulk (take (Z.to_nat (stop - start + 1)) (drop (Z.to_nat start) s))
          | _ => reply_wrongtype
          end
      end
  | _, _ => reply_error not_integer
  end.

(** [memcpy(p + off, v, vlen)] inside a buffer that is large enough. *)
Definition memcpy_at (off : nat) (v buf : bytes) : bytes :=
  take off buf ++ v ++ drop (off + length v) buf.

(** The in-place part of SETRANGE: grow with zero bytes, then copy. *)
Definition setrange_bytes (s : bytes) (offset : nat) (v : bytes) : bytes :=
  let need := (offset + length v)%nat in
  let buf := if (length s <? need)%nat then s ++ replicate (need - length s) NUL else s in
  memcpy_at offset v buf.

Definition cmd_setrange (cmd : command) : M unit :=
  if negb (argc cmd =? 4)%nat then reply_error (wrong_args (bs "setrange")) else
  a2 ← arg cmd 2;
  match string_to_ll a2 with
  | None => reply_error (bs "offset is out of range")
  | Some offset =>
      if offset <? 0 then reply_error (bs "offset is out of range") else
      v ← arg cmd 3;
      k ← arg cmd 1;
      o ← lookup_key k;
      match o with
      | None =>
          let o := robj_new_string [] in
          _ ← store_set k o;
          let s' := setrange_bytes [] (Z.to_nat offset) v in
          _ ← store_poke k (with_ptr o (OBJ_STRING s'));
          reply_integer (Z.of_nat (length s'))
      | Some o =>
          match o_ptr o with
          | OBJ_STRING s =>
              let s' := setrange_bytes s (Z.to_nat offset) v in
              _ ← store_poke k (with_ptr o (OBJ_STRING s'));
              reply_integer (Z.of_nat (length s'))
          | _ => reply_wrongtype
          end
      end
  end.

Definition cmd_rename (cmd : command) : M unit :=
  if negb (argc cmd =? 3)%nat then reply_error (wrong_args (bs "rename")) else
  src ← arg cmd 1;
  dst ← arg cmd 2;
  if bool_decide (src = dst) then reply_error (bs "source and destination objects are the same") else
  o ← lookup_key src;
  match o with
  | None => reply_error (bs "no such key")
  | Some _ =>
      moved ← store_delete src;
      moved ← lift moved;     (* a null [moved] would be stored as the value *)
      _ ← store_set dst moved;
      reply_simple (bs "OK")
  end.

Definition cmd_setnx (cmd : command) : M unit :=
  if negb (argc cmd =? 3)%nat then reply_error (wrong_args (bs "setnx")) else
  k ← arg cmd 1;
  o ← lookup_key k;
  match o with
  | Some _ => reply_integer 0
  | None =>
      v ← arg cmd 2;
      _ ← store_set k (robj_new_string v);
      reply_integer 1
  end.

Definition bad_setex : bytes := bs "invalid expire time in 'setex' command".

Definition cmd_setex (cmd : command) : M unit :=
  if negb (argc cmd =? 4)%nat then reply_error (wrong_args (bs "setex")) else
  a2 ← arg cmd 2;
  match string_to_ll a2 with
  | None => reply_error bad_setex
  | Some secs =>
      if (secs <=? 0) || (secs >? INT64_MAX / 1000) then reply_error bad_setex else
      v ← arg cmd 3;
      t ← now_ms;
      k ← arg cmd 1;
      _ ← store_set k (with_expire (robj_new_string v) (wraps64 (t + secs * 1000)));
      reply_simple (bs "OK")
  end.

Definition cmd_getset (cmd : command) : M unit :=
  if negb (argc cmd =? 3)%nat then reply_error (wrong_args (bs "getset")) else
  k ← arg cmd 1;
  o ← lookup_key k;
  if type_differs o T_STRING then reply_wrongtype else
  v ← arg cmd 2;
  old ← store_set k (robj_new_string v);
  match old with
  | Some old => s ← lift (match o_ptr old with OBJ_STRING s => Some s | _ => None end); reply_bulk s
  | None => reply_null
  end.

Definition cmd_del (cmd : command) : M unit :=
  if (argc cmd <? 2)%nat then reply_error (wrong_args (bs "del")) else
  n ← foldM (λ n k, dead ← store_delete k;
               mret (match dead with Some _ => n + 1 | None => n end)) 0 (args_from cmd 1);
  reply_integer n.

Definition cmd_exists (cmd : command) : M unit :=
  if (argc cmd <? 2)%nat then reply_error (wrong_args (bs "exists")) else
  n ← foldM (λ n k, o ← lookup_key k;
               mret (match o with Some _ => n + 1 | None => n end)) 0 (args_from cmd 1);
  reply_integer n.

Definition incr_decr (cmd : command) (delta : Z) : M unit :=
  a0 ← arg cmd 0;
  if negb (argc cmd =? 2)%nat then reply_error (wrong_args a0) else
  k ← arg cmd 1;
  o ← lookup_key k;
  if type_differs o T_STRING then reply_wrongtype else
  p ← lift (match o with
            | None => Some (Some 0)
            | Some o => match o_ptr o with OBJ_STRING s => Some (string_to_ll_n s) | _ => None end
            end);
  match p with
  | None => reply_error not_integer
  | Some v =>
      let nv := wraps64 (v + delta) in
      if ((delta >? 0) && (nv <? v)) || ((delta <? 0) && (nv >? v)) then
        reply_error (bs "increment or decrement would overflow")
      else
        let e := match o with Some o => o_expire_at o | None => -1 end in
        _ ← store_set k (with_expire (robj_new_string_ll nv) e);
        reply_integer nv
  end.

Definition cmd_incr (cmd : command) : M unit := incr_decr cmd 1.
Definition cmd_decr (cmd : command) : M unit := incr_decr cmd (-1).

Definition bad_expire (name : bytes) : bytes :=
  bs "invalid expire time in '" ++ name ++ bs "' command".

Definition cmd_expire_generic (is_ms : bool) (cmd : command) : M unit :=
  a0 ← arg cmd 0;
  if negb (argc cmd =? 3)%nat then reply_error (wrong_args a0) else
  a2 ← arg cmd 2;
  match string_to_ll a2 with
  | None => reply_error (bad_expire a0)
  | Some v =>
      if v <? 0 then reply_error (bad_expire a0) else
      k ← arg cmd 1;
      o ← lookup_key k;
      match o with
      | None => reply_integer 0
      | Some o =>
          if negb is_ms && (v >? INT64_MAX / 1000) then reply_error (bad_expire a0) else
          let ms := if is_ms then v else v * 1000 in
          t ← now_ms;
          _ ← store_poke k (with_expire o (wraps64 (t + ms)));
          reply_integer 1
      end
  end.

Definition cmd_expire : command → M unit := cmd_expire_generic false.
Definition cmd_pexpire : command → M unit := cmd_expire_generic true.

Definition cmd_expireat_generic (is_ms : bool) (cmd : command) : M unit :=
  a0 ← arg cmd 0;
  if negb (argc cmd =? 3)%nat then reply_error (wrong_args a0) else
  a2 ← arg cmd 2;
  match string_to_ll a2 with
  | None => reply_error (bad_expire a0)
  | Some ts =>
      if ts <? 0 then reply_error (bad_expire a0) else
      if negb is_ms && (ts >? INT64_MAX / 1000) then reply_error (bad_expire a0) else
      k ← arg cmd 1;
      o ← lookup_key k;
      match o with
      | None => reply_integer 0
      | Some o =>
          _ ← store_poke k (with_expire o (if is_ms then ts else ts * 1000));
          reply_integer 1
      end
  end.

Definition cmd_expireat : command → M unit := cmd_expireat_generic false.
Definition cmd_pexpireat : command → M unit := cmd_expireat_generic true.

Definition cmd_ttl_generic (is_ms : bool) (cmd : command) : M unit :=
  a0 ← arg cmd 0;
  if negb (argc cmd =? 2)%nat then reply_error (wrong_args a0) else
  k ← arg cmd 1;
  o ← lookup_key k;
  match o with
  | None => reply_integer (-2)
  | Some o =>
      if o_expire_at o <? 0 then reply_integer (-1) else
      t ← now_ms;
      let rem := wraps64 (o_expire_at o - t) in
      let rem := if rem <? 0 then 0 else rem in
      reply_integer (if is_ms then rem else Z.quot (wraps64 (rem + 500)) 1000)
  end.

Definition cmd_ttl : command → M unit := cmd_ttl_generic false.
Definition cmd_pttl : command → M unit := cmd_ttl_generic true.

Definition cmd_type (cmd : command) : M unit :=
  if negb (argc cmd =? 2)%nat then reply_error (wrong_args (bs "type")) else
  k ← arg cmd 1;
  o ← lookup_key k;
  reply_simple (match o with Some o => type_name (o_type o) | None => bs "none" end).

(** The test both passes of KEYS apply to an entry. *)
Definition keys_match (pat : bytes) (e : entry robj) : M bool :=
  x ← key_expired (e_val e);
  mret (negb x && util_glob_match pat (e_key e)).

Definition cmd_keys (cmd : command) : M unit :=
  if negb (argc cmd =? 2)%nat then reply_error (wrong_args (bs "keys")) else
  pat ← arg cmd 1;
  es ← gets (λ s, dict_entries (db_d (st_db s)));
  count ← foldM (λ n e, x ← keys_match pat e; mret (if (x : bool) then n + 1 else n)) 0 es;
  _ ← reply_array_header count;
  forM es (λ e, x ← keys_match pat e; if (x : bool) then reply_bulk (e_key e) else mret tt).

Definition cmd_flushall (cmd : command) : M unit :=
  if negb (argc cmd =? 1)%nat then reply_error (wrong_args (bs "flushall")) else
  r ← random_seed;
  _ ← modify (λ s, with_dict s (dict_create r));
  reply_simple (bs "OK").

Definition cmd_dbsize (cmd : command) : M unit :=
  if negb (argc cmd =? 1)%nat then reply_error (wrong_args (bs "dbsize")) else
  n ← gets (λ s, db_size (st_db s));
  reply_integer (Z.of_nat n).

Definition info_text (uptime : Z) (keys : nat) : bytes :=
  bs "# Server" ++ crlf ++ bs "redis_version:6.2.0-miniredis" ++ crlf ++
  bs "uptime_in_seconds:" ++ ll_to_string uptime ++ crlf ++ crlf ++
  bs "# Keyspace" ++ crlf ++
  bs "db0:keys=" ++ dec_of (Z.of_nat keys) ++ bs ",expires=0,avg_ttl=0" ++ crlf.

Definition cmd_info (cmd : command) : M unit :=
  t ← now_ms;
  start ← gets (λ s, g_server_start_ms (st_globals s));
  n ← gets (λ s, db_size (st_db s));
  reply_bulk (info_text (Z.quot (wraps64 (t - start)) 1000) n).

Definition cmd_command (cmd : command) : M unit := reply_array_header 0.

Definition cmd_select (cmd : command) : M unit :=
  if negb (argc cmd =? 2)%nat then reply_error (wrong_args (bs "select")) else
  a ← arg cmd 1;
  match string_to_ll a with
  | Some idx => if idx <? 0 then reply_error (bs "invalid DB index") else reply_simple (bs "OK")
  | None => reply_error (bs "invalid DB index")
  end.

Definition cmd_quit (cmd : command) : M unit :=
  _ ← reply_simple (bs "OK");
  set_closing.

(** ** Abstract commands *)

Definition s_ping (t : Z) (m : keyspace) (args : list bytes) : keyspace * rv :=
  match args with
  | [_] => (m, RSimple (bs "PONG"))
  | [_; a] => (m, RBulk a)
  | _ => s_wrong (bs "ping") m
  end.

Definition s_echo (t : Z) (m : keyspace) (args : list bytes) : keyspace * rv :=
  match args with
  | [_; a] => (m, RBulk a)
  | _ => s_wrong (bs "echo") m
  end.

(** SET's options: the flags and the absolute expiry ([-1] for none); a deadline
    that has passed counts as no expiry at all. *)
Fixpoint s_set_options (t : Z) (l : list bytes) (nx xx : bool) (deadline : Z) :
    bytes + bool * bool * Z :=
  let relative v l := s_set_options t l nx xx (wraps64 (t + v)) in
  let absolute v l := s_set_options t l nx xx (if v <? t then -1 else v) in
  match l with
  | [] => inr (nx, xx, deadline)
  | a :: l =>
      let timed unit k :=
        match l with
        | [] => inl (bs "syntax error")
        | b :: l =>
            match string_to_ll b with
            | None => inl bad_set_expire
            | Some v => if (v <=? 0) || (v >? INT64_MAX / unit) then inl bad_set_expire
                        else k (v * unit) l
            end
        end in
      if strcaseeq a (bs "EX") then timed 1000 relative
      else if strcaseeq a (bs "PX") then timed 1 relative
      else if strcaseeq a (bs "EXAT") then timed 1000 absolute
      else if strcaseeq a (bs "PXAT") then timed 1 absolute
      else if strcaseeq a (bs "NX") then s_set_options t l true xx deadline
      else if strcaseeq a (bs "XX") then s_set_options t l nx true deadline
      else inl (bs "syntax error")
  end.

Definition s_set (t : Z) (m : keyspace) (args : list bytes) : keyspace * rv :=
  match args with
  | _ :: k :: v :: opts =>
      match s_set_options t opts false false (-1) with
      | inl e => (m, RError e)
      | inr (nx, xx, deadline) =>
          if nx && xx then (m, RError (bs "syntax error"))
          else if (nx && is_some (m !! k)) || (xx && negb (is_some (m !! k)))
          then (m, RNull)
          else (put t k (Aobj (VString v) deadline) m, RSimple (bs "OK"))
      end
  | _ => s_wrong (bs "set") m
  end.

(** The three cases of a string command: no such key, a string, another type. *)
Definition on_string (m : keyspace) (k : bytes) (absent : keyspace * rv)
    (present : bytes → Z → keyspace * rv) : keyspace * rv :=
  match m !! k with
  | None => absent
  | Some (Aobj (VString s) e) => present s e
  | Some _ => (m, RWrongType)
  end.

Definition s_get (t : Z) (m : keyspace) (args : list bytes) : keyspace * rv :=
  match args with
  | [_; k] => on_string m k (m, RNull) (λ s _, (m, RBulk s))
  | _ => s_wrong (bs "get") m
  end.

Definition string_or_null (m : keyspace) (k : bytes) : rv :=
  match m !! k with Some (Aobj (VString s) _) => RBulk s | _ => RNull end.

Definition s_mget (t : Z) (m : keyspace) (args : list bytes) : keyspace * rv :=
  match args with
  | _ :: (_ :: _) as ks => (m, RArray (map (string_or_null m) ks))
  | _ => s_wrong (bs "mget") m
  end.

Definition s_mset (t : Z) (m : keyspace) (args : list bytes) : keyspace * rv :=
  match args with
  | _ :: (_ :: _ :: _) as kvs =>
      if Nat.odd (length kvs) then s_wrong (bs "mset") m
      else (foldl (λ m '(k, v), <[k := Aobj (VString v) (-1)]> m) m (pair_up kvs), RSimple (bs "OK"))
  | _ => s_wrong (bs "mset") m
  end.

Definition s_append (t : Z) (m : keyspace) (args : list bytes) : keyspace * rv :=
  match args with
  | [_; k; v] =>
      on_string m k (<[k := Aobj (VString v) (-1)]> m, RInt (zlen v))
        (λ s e, (<[k := Aobj (VString (s ++ v)) e]> m, RInt (zlen s + zlen v)))
  | _ => s_wrong (bs "append") m
  end.

Definition s_strlen (t : Z) (m : keyspace) (args : list bytes) : keyspace * rv :=
  match args with
  | [_; k] => on_string m k (m, RInt 0) (λ s _, (m, RInt (zlen s)))
  | _ => s_wrong (bs "strlen") m
  end.

Definition s_getrange (t : Z) (m : keyspace) (args : list bytes) : keyspace * rv :=
  match args with
  | [_; k; a; b] =>
      match string_to_ll a, string_to_ll b with
      | Some start, Some stop =>
          on_string m k (m, RBulk []) (λ s _, (m, RBulk (slice s start stop)))
      | _, _ => (m, RError not_integer)
      end
  | _ => s_wrong (bs "getrange") m
  end.

(** [v] written over [s] at [off], the gap, if any, being zero bytes. *)
Definition overlay (s : bytes) (off : nat) (v : bytes) : bytes :=
  take off s ++ replicate (off - length s) NUL ++ v ++ drop (off + length v) s.

Definition s_setrange (t : Z) (m : keyspace) (args : list bytes) : keyspace * rv :=
  match args with
  | [_; k; a; v] =>
      match string_to_ll a with
      | Some off =>
          if off <? 0 then (m, RError (bs "offset is out of range")) else
          let write s e := let s' := overlay s (Z.to_nat off) v in
                           (<[k := Aobj (VString s') e]> m, RInt (zlen s')) in
          on_string m k (write [] (-1)) write
      | None => (m, RError (bs "offset is out of range"))
      end
  | _ => s_wrong (bs "setrange") m
  end.

Definition s_rename (t : Z) (m : keyspace) (args : list bytes) : keyspace * rv :=
  match args with
  | [_; src; dst] =>
      if bool_decide (src = dst) then (m, RError (bs "source and destination objects are the same"))
      else match m !! src with
           | None => (m, RError (bs "no such key"))
           | Some a => (<[dst := a]> (delete src m), RSimple (bs "OK"))
           end
  | _ => s_wrong (bs "rename") m
  end.

Definition s_setnx (t : Z) (m : keyspace) (args : list bytes) : keyspace * rv :=
  match args with
  | [_; k; v] =>
      match m !! k with
      | Some _ => (m, RInt 0)
      | None => (<[k := Aobj (VString v) (-1)]> m, RInt 1)
      end
  | _ => s_wrong (bs "setnx") m
  end.

Definition s_setex (t : Z) (m : keyspace) (args : list bytes) : keyspace * rv :=
  match args with
  | [_; k; a; v] =>
      match string_to_ll a with
      | Some secs =>
          if (secs <=? 0) || (secs >? INT64_MAX / 1000) then (m, RError bad_setex)
          else (put t k (Aobj (VString v) (wraps64 (t + secs * 1000))) m, RSimple (bs "OK"))
      | None => (m, RError bad_setex)
      end
  | _ => s_wrong (bs "setex") m
  end.

Definition s_getset (t : Z) (m : keyspace) (args : list bytes) : keyspace * rv :=
  match args with
  | [_; k; v] =>
      let m' := <[k := Aobj (VString v) (-1)]> m in
      on_string m k (m', RNull) (λ s _, (m', RBulk s))
  | _ => s_wrong (bs "getset") m
  end.

(** DEL also counts the keys that have expired and are not collected yet: its reply
    is that of a keyspace [ks] which [m] is the visible part of. *)
Definition s_del (t : Z) (m : keyspace) (args : list bytes) (m' : keyspace) (r : rv) : Prop :=
  match args with
  | _ :: (_ :: _) as ks =>
      m' = filter (λ kv, kv.1 ∉ ks) m ∧
      ∃ all, visible t all = m ∧ r = RInt (Z.of_nat (base.size (filter (λ kv, kv.1 ∈ ks) all)))
  | _ => (m', r) = s_wrong (bs "del") m
  end.

Definition s_exists (t : Z) (m : keyspace) (args : list bytes) : keyspace * rv :=
  match args with
  | _ :: (_ :: _) as ks => (m, RInt (zlen (filter (λ k, is_Some (m !! k)) ks)))
  | _ => s_wrong (bs "exists") m
  end.

Definition s_incr_decr (delta : Z) (t : Z) (m : keyspace) (args : list bytes) : keyspace * rv :=
  match args with
  | [_; k] =>
      let add v e :=
        if decide (in_ll (v + delta)) then
          (<[k := Aobj (VString (ll_to_string (v + delta))) e]> m, RInt (v + delta))
        else (m, RError (bs "increment or decrement would overflow")) in
      on_string m k (add 0 (-1))
        (λ s e, match string_to_ll_n s with Some v => add v e | None => (m, RError not_integer) end)
  | a0 :: _ => s_wrong a0 m
  | [] => (m, RNull)
  end.

(** Changing the expiry of a visible key. *)
Definition s_set_expiry (t : Z) (m : keyspace) (k : bytes) (e : Z) : keyspace * rv :=
  match m !! k with
  | None => (m, RInt 0)
  | Some a => (put t k (Aobj (a_value a) e) m, RInt 1)
  end.

Definition s_expire (is_ms : bool) (t : Z) (m : keyspace) (args : list bytes) : keyspace * rv :=
  let unit := if is_ms then 1 else 1000 in
  match args with
  | [a0; k; a] =>
      match string_to_ll a with
      | Some v =>
          if (v <? 0) || (is_some (m !! k) && (v >? INT64_MAX / unit))
          then (m, RError (bad_expire a0))
          else s_set_expiry t m k (wraps64 (t + v * unit))
      | None => (m, RError (bad_expire a0))
      end
  | a0 :: _ => s_wrong a0 m
  | [] => (m, RNull)
  end.

Definition s_expireat (is_ms : bool) (t : Z) (m : keyspace) (args : list bytes) : keyspace * rv :=
  let unit := if is_ms then 1 else 1000 in
  match args with
  | [a0; k; a] =>
      match string_to_ll a with
      | Some v =>
          if (v <? 0) || (v >? INT64_MAX / unit) then (m, RError (bad_expire a0))
          else s_set_expiry t m k (v * unit)
      | None => (m, RError (bad_expire a0))
      end
  | a0 :: _ => s_wrong a0 m
  | [] => (m, RNull)
  end.

(** Time to live: [-2] without a key, [-1] without an expiry; in seconds it is
    rounded to the nearest. *)
Definition s_ttl (is_ms : bool) (t : Z) (m : keyspace) (args : list bytes) : keyspace * rv :=
  match args with
  | [_; k] =>
      (m, match m !! k with
          | None => RInt (-2)
          | Some a =>
              if a_expire a <? 0 then RInt (-1)
              else if is_ms then RInt (a_expire a - t)
              else RInt (Z.quot (wraps64 (a_expire a - t + 500)) 1000)
          end)
  | a0 :: _ => s_wrong a0 m
  | [] => (m, RNull)
  end.

Definition s_type (t : Z) (m : keyspace) (args : list bytes) : keyspace * rv :=
  match args with
  | [_; k] => (m, RSimple (match m !! k with
                           | Some a => type_name (value_type (a_value a))
                           | None => bs "none" end))
  | _ => s_wrong (bs "type") m
  end.

(** KEYS lists the visible keys the pattern matches, in some order, each once. *)
Definition s_keys (t : Z) (m : keyspace) (args : list bytes) (m' : keyspace) (r : rv) : Prop :=
  match args with
  | [_; pat] =>
      m' = m ∧ ∃ l, r = RArray (map RBulk l) ∧
        l ≡ₚ filter (λ k, util_glob_match pat k = true) (elements (dom m))
  | _ => (m', r) = s_wrong (bs "keys") m
  end.

Definition s_flushall (t : Z) (m : keyspace) (args : list bytes) : keyspace * rv :=
  match args with
  | [_] => (∅, RSimple (bs "OK"))
  | _ => s_wrong (bs "flushall") m
  end.

(** DBSIZE and INFO count the expired keys not collected yet as well. *)
Definition s_dbsize (t : Z) (m : keyspace) (args : list bytes) (m' : keyspace) (r : rv) : Prop :=
  match args with
  | [_] => m' = m ∧ ∃ all, visible t all = m ∧ r = RInt (Z.of_nat (base.size all))
  | _ => (m', r) = s_wrong (bs "dbsize") m
  end.

Definition s_info (t : Z) (m : keyspace) (args : list bytes) (m' : keyspace) (r : rv) : Prop :=
  m' = m ∧ ∃ uptime all, visible t all = m ∧ r = RBulk (info_text uptime (base.size all)).

Definition s_command (t : Z) (m : keyspace) (args : list bytes) : keyspace * rv := (m, RArray []).

Definition s_select (t : Z) (m : keyspace) (args : list bytes) : keyspace * rv :=
  match args with
  | [_; a] =>
      (m, match string_to_ll a with
          | Some idx => if idx <? 0 then RError (bs "invalid DB index") else RSimple (bs "OK")
          | None => RError (bs "invalid DB index")
          end)
  | _ => s_wrong (bs "select") m
  end.

Definition s_quit (t : Z) (m : keyspace) (args : list bytes) : keyspace * rv :=
  (m, RClose (RSimple (bs "OK"))).

(** ** The handlers refine the abstract commands *)

Lemma ping_ok : refines cmd_ping (det s_ping).
Proof. cmd_start cmd_ping s_ping; wp_finish. Qed.

Lemma echo_ok : refines cmd_echo (det s_echo).
Proof. cmd_start cmd_echo s_echo; wp_finish. Qed.

Lemma get_ok : refines cmd_get (det s_get).
Proof. cmd_start cmd_get s_get; unfold on_string; wp_finish. Qed.

Lemma strlen_ok : refines cmd_strlen (det s_strlen).
Proof. cmd_start cmd_strlen s_strlen; unfold on_string; wp_finish. Qed.

Lemma type_ok : refines cmd_type (det s_type).
Proof. cmd_start cmd_type s_type; wp_finish. Qed.

Lemma select_ok : refines cmd_select (det s_select).
Proof. cmd_start cmd_select s_select; wp_finish. destruct (string_to_ll _); [case_if|]; wp_finish. Qed.

Lemma command_ok : refines cmd_command (det s_command).
Proof. cmd_start cmd_command s_command; wp_finish. Qed.

Lemma setnx_ok : refines cmd_setnx (det s_setnx).
Proof. cmd_start cmd_setnx s_setnx; wp_finish. Qed.

Lemma append_ok : refines cmd_append (det s_append).
Proof. cmd_start cmd_append s_append; unfold on_string; wp_finish. by rewrite <- zlen_app. Qed.

Lemma setex_ok : refines cmd_setex (det s_setex).
Proof. cmd_start cmd_setex s_setex; wp_finish. destruct (string_to_ll _); [case_if|]; wp_finish. Qed.

Lemma rename_ok : refines cmd_rename (det s_rename).
Proof. cmd_start cmd_rename s_rename; wp_steps; try wp_done.
  case_if; wp_steps; try wp_done. old_cases. wp_steps.
  eapply wp_store_set; [done..|]. intros ? ? ? ?. wp_steps. wp_done.
  apply put_live. by eapply (Rep_live t m).
Qed.

Lemma getset_ok : refines cmd_getset (det s_getset).
Proof. cmd_start cmd_getset s_getset; unfold on_string; wp_steps; try wp_done.
  - old_cases. wp_finish.
  - obj_cases; wp_steps; try wp_done.
    old_cases. wp_finish.
Qed.

Lemma setrange_overlay s off v : setrange_bytes s off v = overlay s off v.
Proof.
  unfold setrange_bytes, overlay, memcpy_at. case_if.
  - apply Nat.ltb_lt in Heqb. rewrite take_app, take_replicate, <- app_assoc.
    rewrite (drop_ge s), drop_ge by (rewrite ?length_app, ?length_replicate; lia).
    do 2 f_equal. f_equal. lia.
  - apply Nat.ltb_ge in Heqb. replace (off - length s)%nat with 0%nat by lia. done.
Qed.

Lemma setrange_ok : refines cmd_setrange (det s_setrange).
Proof.
  cmd_start cmd_setrange s_setrange; unfold on_string; wp_finish.
  destruct (string_to_ll _); [case_if|]; wp_finish;
    by rewrite setrange_overlay.
Qed.

Lemma getrange_ok : refines cmd_getrange (det s_getrange).
Proof.
  cmd_start cmd_getrange s_getrange; unfold on_string; wp_finish.
  destruct (string_to_ll (cstr l1)) as [a|], (string_to_ll (cstr l2)) as [b|]; wp_steps; try wp_done.
  obj_cases; wp_steps; try wp_done.
  pose proof (slice_clamped s0 a b) as Hc. revert Hc. cbv zeta. case_if; intros Hc; wp_steps; wp_done;
    by rewrite <- Hc.
Qed.

Lemma wp_incr (t : Z) (m : keyspace) (c : client) (s : state) (k : bytes) (v d e : Z) (Q : keyspace * rv) :
  Rep t m c s → in_ll v → in_ll d → in_ll e → (∀ v, live t (Aobj v e)) →
  Q = (if decide (in_ll (v + d)) then
          (<[k := Aobj (VString (ll_to_string (v + d))) e]> m, RInt (v + d))
        else (m, RError (bs "increment or decrement would overflow"))) →
  wp (if ((d >? 0) && (wraps64 (v + d) <? v)) || ((d <? 0) && (wraps64 (v + d) >? v)) then
        reply_error (bs "increment or decrement would overflow")
      else
        _ ← store_set k (with_expire (robj_new_string_ll (wraps64 (v + d))) e);
        reply_integer (wraps64 (v + d)))
     (λ _ s', Rep t Q.1 (deliver c Q.2) s') s.
Proof.
  intros HR Hv Hd He Hl ->. rewrite wraps64_overflow by done.
  case_bool_decide as Hin; case_decide; try done; [|wp_finish].
  rewrite wraps64_id by done. wp_finish. by apply put_live.
Qed.

Lemma incr_ok d : in_ll d → refines (flip incr_decr d) (det (s_incr_decr d)).
Proof.
  intros Hd. unfold flip.
  cmd_start incr_decr s_incr_decr; unfold on_string; wp_steps; try wp_done.
  - eapply wp_incr; [done|..]; eauto with miniredis; [done|by rewrite Hk].
  - obj_cases; wp_finish. destruct (string_to_ll_n s0) eqn:E; wp_finish; [|by rewrite E..].
    eapply wp_incr; try done; eauto with miniredis.
    + apply string_to_ll_n_bounds in E. unfold in_ll, LLONG_MAX, INT64_MIN, INT64_MAX in *. lia.
    + intros. by eapply (Rep_live_expire t m).
    + by rewrite Hk, E.
Qed.

Lemma mget_ok : refines cmd_mget (det s_mget).
Proof.
  apply refines_det. intros t m c cmd s Hne HR. unfold cmd_mget, s_mget.
  destruct cmd as [|a0 [|a1 cmd]]; cmd_simpl; [done|wp_finish|]. wp_steps.
  eapply (wp_forM_reply _ _ _ (λ k, rv_bytes (string_or_null m k))); [done| |].
  - intros k c' s'' _ HR''. unfold string_or_null. wp_finish.
  - intros s'' HR''. cmd_simpl. rewrite push_push in HR''. eapply Rep_eq; [done..|].
    unfold push; f_equal; f_equal; f_equal. 
    + f_equal. cbn [map length]. rewrite length_map. rewrite length_fmap. lia.
    + by rewrite map_map.
Qed.

Lemma mset_ok : refines cmd_mset (det s_mset).
Proof.
  apply refines_det. intros t m c cmd s Hne HR. unfold cmd_mset, s_mset.
  destruct cmd as [|a0 [|a1 [|a2 cmd]]]; cmd_simpl; [done|wp_finish..|].
  rewrite <- (length_fmap cstr cmd). cbn [argc length Nat.sub]. case_if; [wp_finish|].
  wp_steps. eapply (wp_forM_update _ _ _ (λ m '(k, v), <[k := Aobj (VString v) (-1)]> m)); [done| |].
  - intros m' [k v] s' HR'. by wp_steps.
  - intros s' HR'. wp_finish. 
Qed.

Lemma exists_ok : refines cmd_exists (det s_exists).
Proof.
  apply refines_det. intros t m c cmd s Hne HR. unfold cmd_exists, s_exists.
  destruct cmd as [|a0 [|a1 cmd]]; cmd_simpl; [done|wp_finish..|].
  wp_steps. eapply (wp_foldM_pure _ _ _ (λ n k, if decide (is_Some (m !! k)) then n + 1 else n)); [done| |].
  - intros n k s' _ HR'. wp_steps; split; try done; rewrite Hk.
    + by rewrite decide_False by (intros []%is_Some_None).
    + by rewrite decide_True by eauto.
  - intros s' HR'. rewrite (foldl_count (λ k, is_Some (m !! k))) by done. wp_finish.
Qed.

Lemma flushall_ok : refines cmd_flushall (det s_flushall).
Proof.
  cmd_start cmd_flushall s_flushall; wp_finish.
  unfold wp at 1, modify.
  assert (HR : Rep t ∅ c (with_dict s' (dict_create r))).
  { destruct H0 as (Hc & Hcl & _). split; [done|]. split; [done|]. exists ∅.
    split; [apply db_rep_create|]. apply map_filter_empty. }
  wp_finish.
Qed.

Lemma quit_ok : refines cmd_quit (det s_quit).
Proof.
  apply refines_det. intros t m c cmd s Hne HR. unfold cmd_quit, s_quit. wp_steps.
  unfold wp, set_closing, modify. destruct H as (Hc & Hcl & Hd). split; [done|]. split; [|done]. 
  simpl. rewrite Hcl. done.
Qed.

Lemma ttl_ok b : refines (cmd_ttl_generic b) (det (s_ttl b)).
Proof.
  cmd_start cmd_ttl_generic s_ttl; wp_steps; try wp_done. destruct Ho as (_ & -> & Hll).
  pose proof (live_expire _ _ (Rep_live t m c s H _ _ Hk)). pose proof (Rep_time _ _ _ _ H).
  rewrite Hk. case_if; [wp_finish|]. wp_steps. bool_prop. unfold in_ll, INT64_MIN, INT64_MAX in *.
  rewrite wraps64_id in * by (unfold in_ll, INT64_MIN, INT64_MAX; lia).
  rewrite (proj2 (Z.ltb_ge _ _)) in * by lia.
  destruct b; wp_done.
Qed.

Lemma wp_set_expiry t m c s o a k e :
  Rep t m c s → m !! k = Some a → obj_rep o a → in_ll e →
  wp (_ ← store_poke k (with_expire o e); reply_integer 1)
     (λ _ s', Rep t (s_set_expiry t m k e).1 (deliver c (s_set_expiry t m k e).2) s') s.
Proof.
  intros HR Hk Ho He. apply wp_bind. unfold s_set_expiry. rewrite Hk.
  apply (wp_store_poke t m c s HR k _ (Aobj (a_value a) e) a); [done| |].
  - split; [apply Ho|done].
  - intros s' HR'. wp_finish.
Qed.

(** Only seconds can be out of range: milliseconds fit as they are. *)
Lemma seconds_guard s v (is_ms : bool) :
  string_to_ll s = Some v →
  negb is_ms && (v >? INT64_MAX / 1000) = (v >? INT64_MAX / (if is_ms then 1 else 1000)).
Proof.
  intros E. destruct is_ms; [|done]. rewrite Z.div_1_r. apply string_to_ll_n_bounds in E.
  symmetry. rewrite Z.gtb_ltb. apply Z.ltb_ge. apply E.
Qed.

Lemma expire_ok b : refines (cmd_expire_generic b) (det (s_expire b)).
Proof.
  cmd_start cmd_expire_generic s_expire; wp_steps; try wp_done.
  destruct (string_to_ll _) as [v|] eqn:E; [|wp_finish]. 
  destruct (v <? 0) eqn:?; wp_steps; try wp_done.
  1,2: unfold s_set_expiry; by rewrite Hk.
  rewrite Hk in *. cbn [is_some]. rewrite (seconds_guard _ _ b E).
  cbn [orb andb]. case_if; wp_steps; [wp_done|].
  replace (v * (if b then 1 else 1000)) with (if b then v else v * 1000) by (destruct b; lia).
  eapply wp_set_expiry; eauto with miniredis.
Qed.

Lemma expireat_ok b : refines (cmd_expireat_generic b) (det (s_expireat b)).
Proof.
  cmd_start cmd_expireat_generic s_expireat; wp_steps; try wp_done.
  destruct (string_to_ll _) as [v|] eqn:E; [|wp_finish].
  destruct (v <? 0) eqn:?; [wp_finish|].
  rewrite (seconds_guard _ _ b E). apply string_to_ll_n_bounds in E.
  cbn [orb andb]. destruct (v >? _) eqn:Hv; wp_steps; [wp_done|..].
  - unfold s_set_expiry. rewrite Hk. wp_finish.
  - replace (v * (if b then 1 else 1000)) with (if b then v else v * 1000) by (destruct b; lia).
    eapply wp_set_expiry; [done..|]. bool_prop. unfold in_ll, LLONG_MAX, INT64_MIN, INT64_MAX in *.
    destruct b; [lia|]. pose proof (Z.mul_div_le (2 ^ 63 - 1) 1000). lia.
Qed.

(** A relative expiry of SET as the deadline that is stored. *)
Definition deadline_of (t expire_ms : Z) : Z := if expire_ms <? 0 then -1 else wraps64 (t + expire_ms).

Definition options_agree (t : Z) (r : bytes + bool * bool * Z) (r' : bytes + bool * bool * Z) : Prop :=
  match r with
  | inl e => r' = inl e
  | inr (nx, xx, ms) => r' = inr (nx, xx, deadline_of t ms)
  end.

Lemma deadline_relative t v : 0 < v → deadline_of t v = wraps64 (t + v).
Proof. intros. unfold deadline_of. case_if; bool_prop; [lia|done]. Qed.

Lemma deadline_absolute t v :
  0 <= t <= INT64_MAX → 0 < v <= INT64_MAX →
  deadline_of t (wraps64 (v - t)) = if v <? t then -1 else v.
Proof.
  unfold INT64_MAX. intros. unfold deadline_of.
  rewrite (wraps64_id (v - t)) by (unfold in_ll, INT64_MIN, INT64_MAX; lia).
  repeat case_if; bool_prop; try lia. rewrite wraps64_id; unfold in_ll, INT64_MIN, INT64_MAX; lia.
Qed.

Lemma thousand_bound v : v <= INT64_MAX / 1000 → v * 1000 <= INT64_MAX.
Proof. intros. pose proof (Z.mul_div_le INT64_MAX 1000). lia. Qed.

Lemma set_options_ok t m c l nx xx ms s (Q : _ → state → Prop) :
  Rep t m c s →
  (∀ r s', Rep t m c s' → options_agree t r (s_set_options t l nx xx (deadline_of t ms)) → Q r s') →
  wp (set_options l nx xx ms) Q s.
Proof.
  revert nx xx ms s Q. induction l as [l IH] using list_len_ind. intros nx xx ms s Q HR HQ.
  destruct l as [|a l]; cbn [set_options s_set_options] in *; [wp_steps; by apply HQ|].
  destruct (strcaseeq a (bs "EX")) eqn:Eex; [|destruct (strcaseeq a (bs "PX")) eqn:Epx;
    [|destruct (strcaseeq a (bs "EXAT")) eqn:Eexat; [|destruct (strcaseeq a (bs "PXAT")) eqn:Epxat]]];
    cbn [orb] in *.
  1-4: destruct l as [|b l]; [wp_steps; by apply HQ|];
    destruct (string_to_ll b) as [v|] eqn:Ev; [|wp_steps; by apply HQ];
    destruct (v <=? 0) eqn:Ev0; [wp_steps; by apply HQ|];
    apply string_to_ll_n_bounds in Ev; bool_prop; cbn [orb] in *.
  1,3: destruct (v >? INT64_MAX / 1000) eqn:Evm; [wp_steps; by apply HQ|]; bool_prop; 
    pose proof (thousand_bound _ Evm).
  3,4: rewrite Z.div_1_r, Z.mul_1_r, gtb_le in HQ by apply Ev.
  1-4: wp_steps; eapply IH; [simpl; lia|done|]; intros r sx HRx Hr; apply HQ; [done|].
  5: case_if; [|case_if]; cbn [orb] in *; [eapply IH; [simpl; lia|done|done]..|wp_steps; by apply HQ].
  all: pose proof (Rep_time _ _ _ _ HR); unfold LLONG_MAX in *;
    first [by rewrite deadline_relative in Hr by lia
          |by rewrite deadline_absolute in Hr by lia].
Qed.

Lemma in_ll_deadline t v : in_ll (deadline_of t v).
Proof. unfold deadline_of. case_if; auto with miniredis. Qed.

#[local] Hint Resolve in_ll_deadline : miniredis.
Lemma set_ok : refines cmd_set (det s_set).
Proof.
  apply refines_det. intros t m c cmd s Hne HR. unfold cmd_set, s_set.
  destruct cmd as [|a0 [|a1 [|a2 cmd]]]; cmd_simpl; [done|wp_finish..|].
  apply wp_bind. eapply set_options_ok; [done|]. intros r s' HR' Hr.
  rewrite drop_0 in Hr. change (deadline_of t (-1)) with (-1) in Hr.
  destruct r as [e|[[nx xx] ms]]; cbn [options_agree] in Hr; rewrite Hr; [wp_finish|].
  destruct (nx && xx) eqn:?; [wp_finish|].
  wp_steps; rewrite Hk; cbn [is_some]; destruct nx, xx; wp_steps; try done; try wp_done.
  all: unfold deadline_of in *; destruct (ms <? 0) eqn:Ems; wp_finish.
Qed.

Lemma dbsize_ok : refines cmd_dbsize s_dbsize.
Proof.
  intros t m c cmd s Hne HR. unfold cmd_dbsize.
  destruct cmd as [|a0 [|a1 cmd]]; cmd_simpl; [done| |by eapply refines_wrong].
  wp_steps. unfold wp at 1, gets. pose proof HR as (_ & _ & ks & Hks & Hv).
  unfold db_size. rewrite (db_rep_size _ _ Hks). wp_steps. eexists _, (RInt _). split; [|done]. split; eauto.
Qed.

Lemma info_ok : refines cmd_info s_info.
Proof.
  intros t m c cmd s Hne HR. unfold cmd_info. wp_steps. unfold wp at 1, gets. wp_steps.
  unfold wp at 1. pose proof H as (_ & _ & ks & Hks & Hv).
  unfold db_size. rewrite (db_rep_size _ _ Hks). wp_steps. eexists _, (RBulk _). 
  split; [|done]. split; [done|]. eauto.
Qed.

Section Del.
Context (ks : keyspace).
Definition keep (zs : list bytes) : keyspace := filter (λ kv, kv.1 ∉ zs) ks.
Definition gone (zs : list bytes) : keyspace := filter (λ kv, kv.1 ∈ zs) ks.

Lemma keep_snoc zs k : keep (zs ++ [k]) = delete k (keep zs).
Proof.
  unfold keep. apply map_eq. intros i. apply option_eq. intros a.
  rewrite lookup_delete_Some, !map_lookup_filter_Some. set_solver.
Qed.

Lemma gone_snoc zs k :
  Z.of_nat (base.size (gone (zs ++ [k]))) =
  Z.of_nat (base.size (gone zs)) + match keep zs !! k with Some _ => 1 | None => 0 end.
Proof.
  unfold keep, gone.
  destruct (filter (λ kv, kv.1 ∉ zs) ks !! k) as [a|] eqn:Hk.
  - apply map_lookup_filter_Some in Hk as [Hk Hz]. simpl in Hz.
    replace (filter (λ kv, kv.1 ∈ zs ++ [k]) ks) with (<[k := a]> (filter (λ kv, kv.1 ∈ zs) ks)).
    + rewrite map_size_insert_None; [lia|]. apply map_lookup_filter_None. right. by intros.
    + apply map_eq. intros i. apply option_eq. intros b.
      rewrite lookup_insert_Some, !map_lookup_filter_Some. simpl.
      destruct (decide (k = i)) as [->|]; set_solver.
  - replace (filter (λ kv, kv.1 ∈ zs ++ [k]) ks) with (filter (λ kv, kv.1 ∈ zs) ks); [lia|].
    rewrite map_lookup_filter_None in Hk.
    apply map_filter_ext. intros i a Hi. simpl. rewrite elem_of_app, list_elem_of_singleton.
    split; [by left|]. intros [?| ->]; [done|]. destruct Hk as [Hk|Hk]; [congruence|].
    specialize (Hk _ Hi). simpl in Hk. by destruct (decide (k ∈ zs)).
Qed.
End Del.

Lemma visible_keep t ks zs : visible t (keep ks zs) = keep (visible t ks) zs.
Proof. unfold visible, keep. apply map_filter_comm. Qed.

Lemma wp_del_loop t ks c xs s (Q : Z → state → Prop) :
  ((∀ n, w_clock (st_world s) n = t) ∧ 0 <= t <= INT64_MAX) → st_client s = c →
  db_rep (db_d (st_db s)) ks →
  (∀ s', Rep t (keep (visible t ks) xs) c s' → Q (Z.of_nat (base.size (gone ks xs))) s') →
  wp (foldM (λ n k, dead ← store_delete k;
         mret (match dead with Some _ => n + 1 | None => n end)) 0 xs) Q s.
Proof.
  intros Ht Hc Hks HQ.
  apply (wp_foldM (λ ys n s, ∃ zs, xs = zs ++ ys ∧ n = Z.of_nat (base.size (gone ks zs)) ∧
    ((∀ n, w_clock (st_world s) n = t) ∧ 0 <= t <= INT64_MAX) ∧ st_client s = c ∧
    db_rep (db_d (st_db s)) (keep ks zs))).
  - exists []. split; [done|]. split; [|split; [done|split; [done|]]].
    + unfold gone. rewrite (proj2 (map_empty_filter _ _)); [done|]. intros i a _. set_solver.
    + unfold keep. rewrite map_filter_id; [done|]. intros. set_solver.
  - intros k ys n s' (zs & Hxs & -> & Ht' & Hc' & Hks'). apply wp_bind.
    unfold wp, store_delete. pose proof (db_rep_delete _ _ k Hks') as Hd.
    pose proof (db_rep_delete_old _ _ k Hks') as Ho.
    destruct (dict_delete _ _) as [old d']. simpl in *. exists (zs ++ [k]).
    split; [by rewrite <- app_assoc|]. rewrite keep_snoc, gone_snoc.
    split; [|done]. inversion Ho; lia.
  - intros n s' (zs & Hxs & -> & Ht' & Hc' & Hks'). rewrite app_nil_r in Hxs. subst zs.
    apply HQ. split; [done|]. split; [done|]. exists (keep ks xs). split; [done|]. apply visible_keep.
Qed.

Lemma del_ok : refines cmd_del s_del.
Proof.
  intros t m c cmd s Hne HR. unfold cmd_del.
  destruct cmd as [|a0 [|a1 cmd]]; cmd_simpl; [done|by eapply refines_wrong|].
  wp_steps. pose proof HR as (Ht & Hc & ks & Hks & Hv). eapply wp_del_loop; [done..|].
  intros s' HR'. wp_steps. eexists _, (RInt _). split; [|done]. 
  unfold s_del. cbn [fmap list_fmap]. unfold keep, gone. rewrite Hv. eauto.
Qed.

(** The entries KEYS reports, and why they are the visible keys that match. *)
Definition reported (t : Z) (pat : bytes) (e : entry robj) : Prop :=
  expired t (o_expire_at (e_val e)) = false ∧ util_glob_match pat (e_key e) = true.

Lemma wp_keys_match t m c pat e s (Q : bool → state → Prop) :
  Rep t m c s →
  (∀ s', Rep t m c s' → Q (bool_decide (reported t pat e)) s') → wp (keys_match pat e) Q s.
Proof.
  intros HR HQ. unfold keys_match. apply wp_bind. eapply wp_key_expired; [done|].
  intros s' HR' Hd. wp_steps. specialize (HQ s' HR'). unfold reported in HQ.
  destruct (expired _ _), (util_glob_match _ _); simpl in *; done.
Qed.

Lemma reported_keys t ks d pat :
  db_rep d ks →
  e_key <$> filter (reported t pat) (dict_entries d) ≡ₚ
  filter (λ k, util_glob_match pat k = true) (elements (dom (visible t ks))).
Proof.
  intros Hks. pose proof Hks as [Hwf Hm]. apply NoDup_Permutation.
  - apply NoDup_fmap_filter, (dict_entries_nodup _ Hwf).
  - apply NoDup_filter, NoDup_elements.
  - intros k. rewrite list_elem_of_fmap, list_elem_of_filter, elem_of_elements, elem_of_dom.
    pose proof (Hm k) as Hk. split.
    + intros (e & -> & [[He Hg] Hin]%list_elem_of_filter). split; [done|].
      apply elem_of_dict_entries in Hin; [|done]. rewrite Hin in Hk.
      inversion Hk as [o a Ho Eo Ea|]; subst. exists a. apply visible_lookup. split; [done|].
      unfold live. by destruct Ho as (_ & <- & _).
    + intros [Hg [a [Ha Hl]%visible_lookup]]. rewrite Ha in Hk.
      inversion Hk as [o a' Ho Eo Ea|]; subst. symmetry in Eo.
      apply dict_abs_entries in Eo as (e & Hin & <- & <-). exists e. split; [done|].
      apply list_elem_of_filter. split; [|done]. split; [|done].
      destruct Ho as (_ & -> & _). done.
Qed.

Lemma keys_ok : refines cmd_keys s_keys.
Proof.
  intros t m c cmd s Hne HR. unfold cmd_keys.
  destruct cmd as [|a0 [|pat [|a2 cmd]]]; cmd_simpl; [done|by eapply refines_wrong| |by eapply refines_wrong].
  wp_steps. unfold wp at 1, gets. pose proof HR as (_ & _ & ks & Hks & Hv).
  pose proof (reported_keys t ks _ (cstr pat) Hks) as Hp. rewrite Hv in Hp.
  set (es := dict_entries _) in *. clearbody es.
  wp_steps. eapply (wp_foldM_pure _ _ _ (λ n e, if decide (reported t (cstr pat) e) then n + 1 else n)); [done| |].
  { intros n e s' _ HR'. wp_steps. eapply wp_keys_match; [done|]. intros s'' HR''. wp_steps.
    rewrite bool_decide_decide. split; [by case_decide|done]. }
  intros s1 HR1. rewrite (foldl_count (reported t (cstr pat))) by done. wp_steps.
  eapply (wp_forM_reply _ _ _ (λ e, if decide (reported t (cstr pat) e) then fmt_bulk (e_key e) else [])); [done| |].
  { intros e c' s2 _ HR2. wp_steps. eapply wp_keys_match; [done|]. intros s'' HR''.
    rewrite bool_decide_decide. case_decide; wp_finish. destruct c'; unfold push; simpl. by rewrite app_nil_r. }
  intros s2 HR2. exists m, (RArray (map RBulk (e_key <$> filter (reported t (cstr pat)) es))).
  split; [split; [done|eauto]|]. rewrite push_push in HR2. eapply Rep_eq; [done..|].
  unfold deliver. f_equal. cbn [rv_bytes]. f_equal.
  - f_equal. rewrite length_map, length_fmap. unfold zlen. lia.
  - clear. induction es as [|e es IH]; [done|]. cbn [map concat]. rewrite filter_cons.
    case_decide; cbn [fmap list_fmap map concat rv_bytes]; by rewrite IH.
Qed.
