(* ===== verification/DbList.v ===== *)
(** * List commands ([src/db.c])

    LPUSH to LINSERT on the pointer-level lists of [CList], and the sequence
    operations they refine.  The loops over nodes are functions on the list heap
    that are undefined on a NULL or freed node, and where they take fuel, on
    running out of it; the refinement proofs exclude both. *)

From S2P Require Import Prelude Util Dict CList Zskiplist Object Machine DbCore.
Import Num.

(** ** Loops over the list *)

(** [o->ptr] used as a list. *)
Definition as_list (o : robj) : option (clist bytes) :=
  match o_ptr o with OBJ_LIST l => Some l | _ => None end.

Fixpoint push_all (head : bool) (l : clist bytes) (vs : list bytes) : option (clist bytes) :=
  match vs with
  | [] => Some l
  | v :: vs =>
      l ← (if head then list_push_head l v else list_push_tail l v);
      push_all head l vs
  end.

Definition list_pop_end (head : bool) (l : clist bytes) : option (option bytes * clist bytes) :=
  if head then list_pop_head l else list_pop_tail l.

Fixpoint pop_many (head : bool) (n : nat) (l : clist bytes) : option (list bytes * clist bytes) :=
  match n with
  | O => Some ([], l)
  | S n =>
      '(v, l) ← list_pop_end head l;
      match v with
      | None => Some ([], l)
      | Some v => '(vs, l) ← pop_many head n l; Some (v :: vs, l)
      end
  end.

(** The values of [n] nodes from [x] on. *)
Fixpoint read_run (m : gmap loc (list_node bytes)) (n : nat) (x : ptr) : option (list bytes) :=
  match n with
  | O => Some []
  | S n => nd ← deref m x; vs ← read_run m n (n_next nd); Some (n_val nd :: vs)
  end.

(** [while (x && i < start)] of LTRIM, with [k] turns to go. *)
Fixpoint trim_head (k : nat) (l : clist bytes) (x : ptr) : option (clist bytes) :=
  match k, x with
  | O, _ | _, None => Some l
  | S k, Some a =>
      nd ← l_nodes l !! a;
      '(_, l) ← list_detach l x;
      trim_head k l (n_next nd)
  end.

(** [while (list_len(l) > target)] of LTRIM. *)
Fixpoint trim_tail (fuel : nat) (l : clist bytes) (target : Z) : option (clist bytes) :=
  if list_len l >? target then
    match fuel with
    | O => None
    | S fuel => '(_, l) ← list_pop_tail l; trim_tail fuel l target
    end
  else Some l.

(** The two loops of LREM, which differ in direction and in the limit. *)
Fixpoint lrem_loop (fuel : nat) (fwd : bool) (more : Z → bool) (target : bytes)
    (l : clist bytes) (x : ptr) (removed : Z) : option (clist bytes * Z) :=
  match x with
  | None => Some (l, removed)
  | Some a =>
      if more removed then
        match fuel with
        | O => None
        | S fuel =>
            nd ← l_nodes l !! a;
            let next := if fwd then n_next nd else n_prev nd in
            if bool_decide (n_val nd = target) then
              '(_, l) ← list_detach l x;
              lrem_loop fuel fwd more target l next (removed + 1)
            else lrem_loop fuel fwd more target l next removed
        end
      else Some (l, removed)
  end.

(** The first node that holds [pivot], NULL if none does. *)
Fixpoint find_node {A} `{EqDecision A} (fuel : nat) (m : gmap loc (list_node A)) (pivot : A) (x : ptr) : option ptr :=
  match x with
  | None => Some None
  | Some a =>
      match fuel with
      | O => None
      | S fuel =>
          nd ← m !! a;
          if bool_decide (n_val nd = pivot) then Some (Some a)
          else find_node fuel m pivot (n_next nd)
      end
  end.

(** ** Handlers *)

Definition list_push (head xx : bool) (cmd : command) : M unit :=
  a0 ← arg cmd 0;
  if (argc cmd <? 3)%nat then reply_error (wrong_args a0) else
  k ← arg cmd 1;
  o ← lookup_key k;
  if type_differs o T_LIST then reply_wrongtype else
  match o with
  | None =>
      if xx then reply_integer 0 else
      let o := robj_new_list in
      _ ← store_set k o;
      l ← lift (as_list o);
      l ← lift (push_all head l (args_from cmd 2));
      _ ← store_poke k (with_ptr o (OBJ_LIST l));
      reply_integer (list_len l)
  | Some o =>
      l ← lift (as_list o);
      l ← lift (push_all head l (args_from cmd 2));
      _ ← store_poke k (with_ptr o (OBJ_LIST l));
      reply_integer (list_len l)
  end.

Definition cmd_lpush : command → M unit := list_push true false.
Definition cmd_rpush : command → M unit := list_push false false.
Definition cmd_lpushx : command → M unit := list_push true true.
Definition cmd_rpushx : command → M unit := list_push false true.

Definition bad_count : bytes := bs "value is out of range, must be positive".

(** The part of LPOP and RPOP after the arguments have been parsed. *)
Definition list_pop_count (head : bool) (k : bytes) (count : Z) : M unit :=
  o ← lookup_key k;
  if type_differs o T_LIST then reply_wrongtype else
  match o with
  | None => reply_null
  | Some o =>
      l ← lift (as_list o);
      if count =? 1 then
        '(v, l) ← lift (list_pop_end head l);
        let o := with_ptr o (OBJ_LIST l) in
        _ ← store_poke k o;
        match v with
        | None => _ ← maybe_delete_key k o; reply_null
        | Some v => _ ← reply_bulk v; maybe_delete_key k o
        end
      else
        let max := if count <? list_len l then count else list_len l in
        '(vs, l) ← lift (pop_many head (Z.to_nat max) l);
        let o := with_ptr o (OBJ_LIST l) in
        _ ← store_poke k o;
        _ ← reply_array_header (Z.of_nat (length vs));
        _ ← forM vs reply_bulk;
        maybe_delete_key k o
  end.

Definition list_pop (head : bool) (cmd : command) : M unit :=
  a0 ← arg cmd 0;
  if (argc cmd <? 2)%nat || (3 <? argc cmd)%nat then reply_error (wrong_args a0) else
  k ← arg cmd 1;
  if (argc cmd =? 3)%nat then
    a2 ← arg cmd 2;
    match string_to_ll a2 with
    | None => reply_error bad_count
    | Some count => if count <? 0 then reply_error bad_count else list_pop_count head k count
    end
  else list_pop_count head k 1.

Definition cmd_lpop : command → M unit := list_pop true.
Definition cmd_rpop : command → M unit := list_pop false.

Definition cmd_llen (cmd : command) : M unit :=
  if negb (argc cmd =? 2)%nat then reply_error (wrong_args (bs "llen")) else
  k ← arg cmd 1;
  o ← lookup_key k;
  if type_differs o T_LIST then reply_wrongtype else
  match o with
  | None => reply_integer 0
  | Some o => l ← lift (as_list o); reply_integer (list_len l)
  end.

Definition cmd_lrange (cmd : command) : M unit :=
  if negb (argc cmd =? 4)%nat then reply_error (wrong_args (bs "lrange")) else
  a2 ← arg cmd 2;
  a3 ← arg cmd 3;
  match string_to_ll a2, string_to_ll a3 with
  | Some start, Some stop =>
      k ← arg cmd 1;
      o ← lookup_key k;
      if type_differs o T_LIST then reply_wrongtype else
      match o with
      | None => reply_array_header 0
      | Some o =>
          l ← lift (as_list o);
          match range_normalize (list_len l) start stop with
          | None => reply_array_header 0
          | Some (start, stop) =>
              let n := stop - start + 1 in
              _ ← reply_array_header n;
              x ← lift (list_node_at l start);
              vs ← lift (read_run (l_nodes l) (Z.to_nat n) x);
              forM vs reply_bulk
          end
      end
  | _, _ => reply_error not_integer
  end.

Definition cmd_lindex (cmd : command) : M unit :=
  if negb (argc cmd =? 3)%nat then reply_error (wrong_args (bs "lindex")) else
  a2 ← arg cmd 2;
  match string_to_ll a2 with
  | None => reply_error not_integer
  | Some index =>
      k ← arg cmd 1;
      o ← lookup_key k;
      if type_differs o T_LIST then reply_wrongtype else
      match o with
      | None => reply_null
      | Some o =>
          l ← lift (as_list o);
          x ← lift (list_node_at l index);
          match x with
          | None => reply_null
          | Some a => nd ← lift (l_nodes l !! a); reply_bulk (n_val nd)
          end
      end
  end.

Definition cmd_lset (cmd : command) : M unit :=
  if negb (argc cmd =? 4)%nat then reply_error (wrong_args (bs "lset")) else
  a2 ← arg cmd 2;
  match string_to_ll a2 with
  | None => reply_error not_integer
  | Some index =>
      k ← arg cmd 1;
      o ← lookup_key k;
      match o with
      | None => reply_error (bs "no such key")
      | Some o =>
          if type_differs (Some o) T_LIST then reply_wrongtype else
          l ← lift (as_list o);
          x ← lift (list_node_at l index);
          match x with
          | None => reply_error (bs "index out of range")
          | Some a =>
              v ← arg cmd 3;
              m ← lift (set_val (l_nodes l) (Some a) v);
              let l := CList m (l_head l) (l_tail l) (l_len l) (l_fresh l) in
              _ ← store_poke k (with_ptr o (OBJ_LIST l));
              reply_simple (bs "OK")
          end
      end
  end.

Definition cmd_ltrim (cmd : command) : M unit :=
  if negb (argc cmd =? 4)%nat then reply_error (wrong_args (bs "ltrim")) else
  a2 ← arg cmd 2;
  a3 ← arg cmd 3;
  match string_to_ll a2, string_to_ll a3 with
  | Some start, Some stop =>
      k ← arg cmd 1;
      o ← lookup_key k;
      if type_differs o T_LIST then reply_wrongtype else
      match o with
      | None => reply_simple (bs "OK")
      | Some o =>
          l ← lift (as_list o);
          match range_normalize (list_len l) start stop with
          | None => _ ← store_delete k; reply_simple (bs "OK")
          | Some (start, stop) =>
              l ← lift (trim_head (Z.to_nat start) l (list_first l));
              l ← lift (trim_tail (Z.to_nat (list_len l)) l (stop - start + 1));
              _ ← store_poke k (with_ptr o (OBJ_LIST l));
              reply_simple (bs "OK")
          end
      end
  | _, _ => reply_error not_integer
  end.

Definition cmd_lrem (cmd : command) : M unit :=
  if negb (argc cmd =? 4)%nat then reply_error (wrong_args (bs "lrem")) else
  a2 ← arg cmd 2;
  match string_to_ll a2 with
  | None => reply_error not_integer
  | Some count =>
      k ← arg cmd 1;
      o ← lookup_key k;
      if type_differs o T_LIST then reply_wrongtype else
      match o with
      | None => reply_integer 0
      | Some o =>
          l ← lift (as_list o);
          target ← arg cmd 3;
          let fuel := Z.to_nat (list_len l) in
          '(l, removed) ← lift
            (if count >=? 0 then
               lrem_loop fuel true (λ r, (count =? 0) || (r <? count)) target l (list_first l) 0
             else lrem_loop fuel false (λ r, r <? - count) target l (list_last l) 0);
          let o := with_ptr o (OBJ_LIST l) in
          _ ← store_poke k o;
          _ ← reply_integer removed;
          maybe_delete_key k o
      end
  end.

Definition cmd_linsert (cmd : command) : M unit :=
  if negb (argc cmd =? 5)%nat then reply_error (wrong_args (bs "linsert")) else
  a2 ← arg cmd 2;
  let before := strcaseeq a2 (bs "BEFORE") in
  if negb (before || strcaseeq a2 (bs "AFTER")) then reply_error (bs "syntax error") else
  k ← arg cmd 1;
  o ← lookup_key k;
  if type_differs o T_LIST then reply_wrongtype else
  match o with
  | None => reply_integer 0
  | Some o =>
      l ← lift (as_list o);
      pivot ← arg cmd 3;
      x ← lift (find_node (Z.to_nat (list_len l)) (l_nodes l) pivot (list_first l));
      match x with
      | None => reply_integer (-1)
      | Some a =>
          v ← arg cmd 4;
          nd ← lift (l_nodes l !! a);
          l ← lift (list_insert_after l (if before then n_prev nd else Some a) v);
          _ ← store_poke k (with_ptr o (OBJ_LIST l));
          reply_integer (list_len l)
      end
  end.

(** ** Abstract commands *)

Definition on_list (m : keyspace) (k : bytes) (absent : keyspace * rv)
    (present : list bytes → Z → keyspace * rv) : keyspace * rv :=
  match m !! k with
  | None => absent
  | Some (Aobj (VList xs) e) => present xs e
  | Some _ => (m, RWrongType)
  end.

Definition pushed (head : bool) (xs vs : list bytes) : list bytes :=
  if head then rev vs ++ xs else xs ++ vs.

Definition s_push (head xx : bool) (t : Z) (m : keyspace) (args : list bytes) : keyspace * rv :=
  match args with
  | _ :: k :: (_ :: _) as vs =>
      let push xs e := (<[k := Aobj (VList (pushed head xs vs)) e]> m, RInt (zlen xs + zlen vs)) in
      on_list m k (if xx then (m, RInt 0) else push [] (-1)) push
  | a0 :: _ => s_wrong a0 m
  | [] => (m, RNull)
  end.

(** The [n] values taken from an end, in the order they are taken, and the rest. *)
Definition popped (head : bool) (n : nat) (xs : list bytes) : list bytes * list bytes :=
  if head then (take n xs, drop n xs) else (take n (rev xs), take (length xs - n) xs).

Definition s_pop_count (head : bool) (count : Z) (m : keyspace) (k : bytes) : keyspace * rv :=
  on_list m k (m, RNull) (λ xs e,
    let '(vs, rest) := popped head (Z.to_nat (Z.min count (zlen xs))) xs in
    (settle m k (VList rest) e,
     if count =? 1 then match vs with v :: _ => RBulk v | [] => RNull end
     else RArray (map RBulk vs))).

Definition s_pop (head : bool) (t : Z) (m : keyspace) (args : list bytes) : keyspace * rv :=
  match args with
  | [_; k] => s_pop_count head 1 m k
  | [_; k; a] =>
      match string_to_ll a with
      | Some count => if count <? 0 then (m, RError bad_count) else s_pop_count head count m k
      | None => (m, RError bad_count)
      end
  | a0 :: _ => s_wrong a0 m
  | [] => (m, RNull)
  end.

Definition s_llen (t : Z) (m : keyspace) (args : list bytes) : keyspace * rv :=
  match args with
  | [_; k] => on_list m k (m, RInt 0) (λ xs _, (m, RInt (zlen xs)))
  | _ => s_wrong (bs "llen") m
  end.

Definition s_lrange (t : Z) (m : keyspace) (args : list bytes) : keyspace * rv :=
  match args with
  | [_; k; a; b] =>
      match string_to_ll a, string_to_ll b with
      | Some start, Some stop =>
          on_list m k (m, RArray []) (λ xs _, (m, RArray (map RBulk (slice xs start stop))))
      | _, _ => (m, RError not_integer)
      end
  | _ => s_wrong (bs "lrange") m
  end.

Definition s_lindex (t : Z) (m : keyspace) (args : list bytes) : keyspace * rv :=
  match args with
  | [_; k; a] =>
      match string_to_ll a with
      | Some index =>
          on_list m k (m, RNull) (λ xs _,
            (m, match i ← position (length xs) index; xs !! i with
                | Some v => RBulk v
                | None => RNull
                end))
      | None => (m, RError not_integer)
      end
  | _ => s_wrong (bs "lindex") m
  end.

Definition s_lset (t : Z) (m : keyspace) (args : list bytes) : keyspace * rv :=
  match args with
  | [_; k; a; v] =>
      match string_to_ll a with
      | Some index =>
          on_list m k (m, RError (bs "no such key")) (λ xs e,
            match position (length xs) index with
            | Some i => (<[k := Aobj (VList (<[i := v]> xs)) e]> m, RSimple (bs "OK"))
            | None => (m, RError (bs "index out of range"))
            end)
      | None => (m, RError not_integer)
      end
  | _ => s_wrong (bs "lset") m
  end.

Definition s_ltrim (t : Z) (m : keyspace) (args : list bytes) : keyspace * rv :=
  match args with
  | [_; k; a; b] =>
      match string_to_ll a, string_to_ll b with
      | Some start, Some stop =>
          on_list m k (m, RSimple (bs "OK"))
            (λ xs e, (settle m k (VList (slice xs start stop)) e, RSimple (bs "OK")))
      | _, _ => (m, RError not_integer)
      end
  | _ => s_wrong (bs "ltrim") m
  end.

(** [xs] without the first [n] occurrences of [x]. *)
Fixpoint remove_n (n : nat) (x : bytes) (xs : list bytes) : list bytes :=
  match xs with
  | [] => []
  | y :: ys =>
      if decide (y = x) then match n with O => xs | S n => remove_n n x ys end
      else y :: remove_n n x ys
  end.

(** All occurrences for 0, from the front for a positive count, from the back for
    a negative one. *)
Definition lremoved (count : Z) (x : bytes) (xs : list bytes) : list bytes :=
  if count =? 0 then remove_n (length xs) x xs
  else if count >? 0 then remove_n (Z.to_nat count) x xs
  else rev (remove_n (Z.to_nat (- count)) x (rev xs)).

Definition s_lrem (t : Z) (m : keyspace) (args : list bytes) : keyspace * rv :=
  match args with
  | [_; k; a; x] =>
      match string_to_ll a with
      | Some count =>
          on_list m k (m, RInt 0) (λ xs e,
            let ys := lremoved count x xs in
            (settle m k (VList ys) e, RInt (zlen xs - zlen ys)))
      | None => (m, RError not_integer)
      end
  | _ => s_wrong (bs "lrem") m
  end.

Definition s_linsert (t : Z) (m : keyspace) (args : list bytes) : keyspace * rv :=
  match args with
  | [_; k; a; pivot; v] =>
      let before := strcaseeq a (bs "BEFORE") in
      if negb (before || strcaseeq a (bs "AFTER")) then (m, RError (bs "syntax error")) else
      on_list m k (m, RInt 0) (λ xs e,
        match list_find (λ x, x = pivot) xs with
        | Some (i, _) =>
            (<[k := Aobj (VList (ins (if before then i else S i) v xs)) e]> m, RInt (zlen xs + 1))
        | None => (m, RInt (-1))
        end)
  | _ => s_wrong (bs "linsert") m
  end.

(** ** The loops compute the sequence operations *)

Lemma push_all_spec head l xs vs :
  is_list l xs → ∃ l', push_all head l vs = Some l' ∧ is_list l' (pushed head xs vs).
Proof.
  unfold pushed. revert l xs. induction vs as [|v vs IH]; intros l xs Hl; cbn [push_all].
  - exists l. rewrite app_nil_r. by destruct head.
  - destruct head.
    + destruct (list_push_head_spec l xs v Hl) as (l1 & -> & Hl1).
      destruct (IH _ _ Hl1) as (l' & ? & Hl'). exists l'. split; [done|].
      simpl. by rewrite <- app_assoc.
    + destruct (list_push_tail_spec l xs v Hl) as (l1 & -> & Hl1).
      destruct (IH _ _ Hl1) as (l' & ? & Hl'). exists l'. split; [done|]. by rewrite <- app_assoc in Hl'.
Qed.

Lemma pop_many_head l xs n :
  is_list l xs → (n <= length xs)%nat →
  ∃ l', pop_many true n l = Some (take n xs, l') ∧ is_list l' (drop n xs).
Proof.
  revert l xs. induction n as [|n IH]; intros l xs Hl Hn; cbn [pop_many list_pop_end].
  - exists l. by rewrite take_0.
  - pose proof (list_pop_head_spec l xs Hl) as Hp. destruct xs as [|x xs]; [simpl in Hn; lia|].
    destruct Hp as (l1 & -> & Hl1). cbn [mbind option_bind].
    destruct (IH l1 xs Hl1) as (l' & -> & Hl'); [simpl in Hn; lia|]. by exists l'.
Qed.

Lemma pop_many_tail l xs n :
  is_list l xs → (n <= length xs)%nat →
  ∃ l', pop_many false n l = Some (take n (rev xs), l') ∧ is_list l' (take (length xs - n) xs).
Proof.
  revert l xs. induction n as [|n IH]; intros l xs Hl Hn; cbn [pop_many list_pop_end].
  - exists l. rewrite take_0, Nat.sub_0_r, firstn_all. done.
  - pose proof (list_pop_tail_spec l xs Hl) as Hp.
    destruct xs as [|x xs _] using rev_ind; [simpl in Hn; lia|].
    rewrite last_snoc in Hp. destruct Hp as (l1 & xs' & [<- _]%app_inj_tail & -> & Hl1).
    rewrite length_app in Hn. simpl in Hn. cbn [mbind option_bind].
    destruct (IH l1 xs Hl1) as (l' & -> & Hl'); [lia|]. exists l'. cbn [mbind option_bind].
    rewrite rev_unit. split; [done|]. rewrite length_app, take_app_le by (simpl; lia).
    by replace (length xs + length [x] - S n)%nat with (length xs - n)%nat by (simpl; lia).
Qed.

Lemma pop_many_spec head l xs n :
  is_list l xs → (n <= length xs)%nat →
  ∃ l', pop_many head n l = Some ((popped head n xs).1, l') ∧ is_list l' (popped head n xs).2.
Proof. destruct head; [apply pop_many_head|apply pop_many_tail]. Qed.

Lemma read_run_spec m ls xs n p :
  heap_rep m ls xs → (p + n <= length xs)%nat →
  read_run m n (ls !! p) = Some (take n (drop p xs)).
Proof.
  intros H. revert p. induction n as [|n IH]; intros p Hp; cbn [read_run]; [by rewrite take_0|].
  destruct (lookup_lt_is_Some_2 ls p) as [a Ha]; [rewrite (hr_len _ _ _ H); lia|].
  destruct (hr_lookup _ _ _ _ _ H Ha) as (w & Hw & Hm). rewrite Ha. unfold deref.
  cbn [mbind option_bind]. rewrite Hm. cbn [mbind option_bind n_next n_val].
  rewrite IH by lia. cbn [mbind option_bind]. by rewrite (drop_S xs w p Hw).
Qed.

Lemma trim_head_spec k l ls xs :
  list_rep l ls xs → (k <= length xs)%nat →
  ∃ l', trim_head k l (ls !! 0%nat) = Some l' ∧ is_list l' (drop k xs).
Proof.
  revert l ls xs. induction k as [|k IH]; intros l ls xs H Hk; cbn [trim_head].
  - exists l. split; [done|]. by exists ls.
  - pose proof (hr_len _ _ _ (lr_heap _ _ _ H)) as Hlen.
    destruct ls as [|a ls], xs as [|x xs]; simpl in Hlen, Hk; try lia.
    change ((a :: ls) !! 0%nat) with (Some a). cbn [trim_head].
    destruct (hr_lookup _ _ _ 0 a (lr_heap _ _ _ H) eq_refl) as (w & Hw & ->). cbn [mbind option_bind].
    destruct (list_detach_spec l (a :: ls) (x :: xs) 0 a x H eq_refl eq_refl) as (l1 & -> & Hl1).
    cbn [mbind option_bind n_next]. apply (IH l1 ls xs Hl1). lia.
Qed.

Lemma trim_tail_spec fuel l xs target :
  is_list l xs → 0 <= target → (length xs <= fuel)%nat →
  ∃ l', trim_tail fuel l target = Some l' ∧ is_list l' (take (Z.to_nat target) xs).
Proof.
  revert l xs. induction fuel as [|fuel IH]; intros l xs Hl Ht Hf; cbn [trim_tail];
    rewrite (is_list_len l xs Hl); case_if; bool_prop.
  - lia.
  - exists l. rewrite take_ge by lia. done.
  - pose proof (list_pop_tail_spec l xs Hl) as Hp.
    destruct xs as [|x xs _] using rev_ind; [simpl in *; lia|].
    rewrite last_snoc in Hp. destruct Hp as (l1 & xs' & [<- _]%app_inj_tail & -> & Hl1).
    rewrite length_app in *. simpl in *. destruct (IH l1 xs Hl1) as (l' & ? & ?); [lia..|].
    exists l'. rewrite take_app_le by lia. done.
  - exists l. rewrite take_ge by lia. done.
Qed.

Lemma remove_n_0 x xs : remove_n 0 x xs = xs.
Proof. induction xs as [|y ys IH]; simpl; [done|]. case_decide; [done|]. by rewrite IH. Qed.

Lemma remove_n_length n x xs : (length (remove_n n x xs) <= length xs)%nat.
Proof.
  revert n. induction xs as [|y ys IH]; intros n; simpl; [lia|].
  case_decide; [destruct n as [|n]; simpl; [lia|]; specialize (IH n); lia|]. simpl. specialize (IH n). lia.
Qed.

(** [rem] more removals are allowed, [n] nodes are left to visit. *)
Definition allows (more : Z → bool) (removed : Z) (rem n : nat) : Prop :=
  (∀ j, 0 <= j < Z.of_nat rem → more (removed + j) = true) ∧
  (more (removed + Z.of_nat rem) = false ∨ (n <= rem)%nat).

Lemma allows_skip more r rem n : allows more r rem (S n) → allows more r rem n.
Proof. intros [H1 H2]. split; [done|]. destruct H2; [by left|right; lia]. Qed.

Lemma allows_take more r rem n : allows more r (S rem) (S n) → allows more (r + 1) rem n.
Proof.
  intros [H1 H2]. split.
  - intros j Hj. replace (r + 1 + j) with (r + (j + 1)) by lia. apply H1. lia.
  - replace (r + 1 + Z.of_nat rem) with (r + Z.of_nat (S rem)) by lia. destruct H2; [by left|right; lia].
Qed.

Lemma allows_cases more r rem n :
  allows more r rem (S n) → (more r = true ∧ ∃ rem', rem = S rem') ∨ (more r = false ∧ rem = 0%nat).
Proof.
  intros [H1 H2]. destruct rem as [|rem].
  - right. destruct H2 as [H2|]; [|lia]. by rewrite Z.add_0_r in H2.
  - left. split; [|eauto]. rewrite <- (Z.add_0_r r). apply H1. lia.
Qed.

Lemma take_delete {A} (xs : list A) p q : (q <= p)%nat → take q (delete p xs) = take q xs.
Proof.
  intros Hq. apply list_eq. intros i. destruct (decide (i < q)%nat).
  - rewrite !lookup_take_lt by done. apply list_lookup_delete_lt. lia.
  - by rewrite !lookup_take_ge by lia.
Qed.

Lemma drop_delete {A} (xs : list A) p : drop p (delete p xs) = drop (S p) xs.
Proof.
  apply list_eq. intros i. rewrite !lookup_drop. by rewrite list_lookup_delete_ge by lia.
Qed.

Lemma lrem_forward fuel more target l ls xs p r rem :
  list_rep l ls xs → (length ls - p <= fuel)%nat → allows more r rem (length xs - p) →
  ∃ l', lrem_loop fuel true more target l (ls !! p) r
        = Some (l', r + zlen (drop p xs) - zlen (remove_n rem target (drop p xs))) ∧
      is_list l' (take p xs ++ remove_n rem target (drop p xs)).
Proof.
  revert l ls xs p r rem. induction fuel as [|fuel IH]; intros l ls xs p r rem H Hf Hm;
    pose proof (hr_len _ _ _ (lr_heap _ _ _ H)) as Hlen.
  all: destruct (ls !! p) as [a|] eqn:Ha; cbn [lrem_loop];
    [pose proof (lookup_lt_Some _ _ _ Ha) as Hlt
    |apply lookup_ge_None in Ha; rewrite (drop_ge xs), (take_ge xs) by lia; simpl;
     rewrite app_nil_r; eexists; split; [f_equal; f_equal; unfold zlen; simpl; lia|by exists ls]].
  { lia. }
  replace (length xs - p)%nat with (S (length xs - S p)) in Hm by lia.
  destruct (hr_lookup _ _ _ _ _ (lr_heap _ _ _ H) Ha) as (w & Hw & Hn).
  rewrite (drop_S xs w p Hw). cbn [remove_n].
  destruct (allows_cases _ _ _ _ Hm) as [[-> [rem' ->]]|[-> ->]].
  2:{ rewrite remove_n_0. exists l. split; [case_decide; do 2 f_equal; lia|].
      case_decide; rewrite take_drop_middle by done; by exists ls. }
  rewrite Hn. cbn [mbind option_bind n_val n_next].
  case_bool_decide as Et; [rewrite decide_True by done|rewrite decide_False by done].
  - destruct (list_detach_spec l ls xs p a w H Ha Hw) as (l1 & -> & Hl1). cbn [mbind option_bind].
    pose proof (length_delete ls p ltac:(eauto)) as Hl2.
    replace (ls !! S p) with (delete p ls !! p)
      by (rewrite lookup_delete_list; by rewrite decide_False by lia).
    destruct (IH l1 _ _ p (r + 1) rem' Hl1) as (l' & -> & Hl'); [lia| |].
    + rewrite length_delete by eauto.
      replace (length xs - 1 - p)%nat with (length xs - S p)%nat by lia. by apply allows_take.
    + rewrite drop_delete, take_delete in * by lia. exists l'. split; [|done].
      do 2 f_equal. unfold zlen. simpl. lia.
  - destruct (IH l ls xs (S p) r (S rem') H) as (l' & -> & Hl'); [lia|by apply allows_skip|].
    exists l'. split; [do 2 f_equal; unfold zlen; simpl; lia|].
    rewrite (take_S_r xs p w Hw), <- app_assoc in Hl'. done.
Qed.

Lemma lrem_backward fuel more target l ls xs p r rem :
  list_rep l ls xs → (p <= length ls)%nat → (p <= fuel)%nat → allows more r rem p →
  ∃ l', lrem_loop fuel false more target l (prev_of ls p) r
        = Some (l', r + Z.of_nat p - zlen (remove_n rem target (rev (take p xs)))) ∧
      is_list l' (rev (remove_n rem target (rev (take p xs))) ++ drop p xs).
Proof.
  revert l ls xs p r rem. induction fuel as [|fuel IH]; intros l ls xs p r rem H Hp Hf Hm;
    pose proof (hr_len _ _ _ (lr_heap _ _ _ H)) as Hlen.
  all: destruct p as [|p];
    [cbn [prev_of lrem_loop]; eexists; split; [f_equal; f_equal; unfold zlen; simpl; lia|by exists ls]|].
  { lia. }
  cbn [prev_of]. destruct (lookup_lt_is_Some_2 ls p) as [a Ha]; [lia|]. rewrite Ha. cbn [lrem_loop].
  destruct (hr_lookup _ _ _ _ _ (lr_heap _ _ _ H) Ha) as (w & Hw & Hn).
  rewrite (take_S_r xs p w Hw), rev_unit. cbn [remove_n].
  destruct (allows_cases _ _ _ _ Hm) as [[-> [rem' ->]]|[-> ->]].
  2:{ rewrite remove_n_0. exists l.
      assert (Hx : rev (w :: rev (take p xs)) ++ drop (S p) xs = xs).
      { simpl. rewrite rev_involutive, <- app_assoc. simpl. by apply take_drop_middle. }
      split; [case_decide; do 2 f_equal; unfold zlen; simpl; rewrite length_rev, length_take; lia|].
      case_decide; rewrite Hx; by exists ls. }
  rewrite Hn. cbn [mbind option_bind n_val n_prev].
  case_bool_decide as Et; [rewrite decide_True by done|rewrite decide_False by done].
  - destruct (list_detach_spec l ls xs p a w H Ha Hw) as (l1 & -> & Hl1). cbn [mbind option_bind].
    replace (prev_of ls p) with (prev_of (delete p ls) p)
      by (rewrite prev_of_delete; by rewrite decide_True by lia).
    pose proof (length_delete ls p ltac:(eauto)) as Hl2.
    destruct (IH l1 _ _ p (r + 1) rem' Hl1) as (l' & -> & Hl'); [lia..|by apply allows_take|].
    rewrite drop_delete, take_delete in * by lia. exists l'. split; [|done]. do 2 f_equal. lia.
  - destruct (IH l ls xs p r (S rem') H) as (l' & -> & Hl'); [lia..|by apply allows_skip|].
    exists l'. split; [do 2 f_equal; unfold zlen; simpl; lia|].
    simpl. rewrite <- app_assoc. simpl. by rewrite <- (drop_S xs w p Hw).
Qed.

Lemma find_node_spec {A} `{EqDecision A} fuel m ls (xs : list A) pivot p :
  heap_rep m ls xs → (length ls - p <= fuel)%nat →
  find_node fuel m pivot (ls !! p)
  = Some ('(i, _) ← list_find (λ x, x = pivot) (drop p xs); ls !! (p + i)%nat).
Proof.
  intros H. revert p. induction fuel as [|fuel IH]; intros p Hf;
    pose proof (hr_len _ _ _ H) as Hlen.
  all: destruct (ls !! p) as [a|] eqn:Ha; cbn [find_node];
    [pose proof (lookup_lt_Some _ _ _ Ha) as Hlt
    |apply lookup_ge_None in Ha; by rewrite (drop_ge xs) by lia].
  { lia. }
  destruct (hr_lookup _ _ _ _ _ H Ha) as (w & Hw & ->). cbn [mbind option_bind n_val n_next].
  rewrite (drop_S xs w p Hw). cbn [list_find]. case_bool_decide as Et.
  - rewrite decide_True by done. cbn [mbind option_bind]. by rewrite Nat.add_0_r, Ha.
  - rewrite decide_False, IH by (done || lia).
    destruct (list_find _ _) as [[i y]|]; cbn; [|done]. by rewrite Nat.add_succ_r.
Qed.

(** ** The handlers refine the abstract commands *)

Ltac list_hyp Hl := match goal with H : is_list _ _ |- _ => rename H into Hl end.

Lemma llen_ok : refines cmd_llen (det s_llen).
Proof.
  cmd_start cmd_llen s_llen; unfold on_list; wp_finish.
  list_hyp Hl. by rewrite (is_list_len _ _ Hl).
Qed.

Lemma zlen_pushed head xs vs : zlen (pushed head xs vs) = zlen xs + zlen vs.
Proof. unfold pushed. destruct head; rewrite zlen_app; unfold zlen; rewrite ?length_rev; lia. Qed.

Lemma push_ok head xx : refines (list_push head xx) (det (s_push head xx)).
Proof.
  apply refines_det. intros t m c cmd s Hne HR. unfold list_push, s_push, on_list.
  destruct cmd as [|a0 [|k [|v vs]]]; cmd_simpl; [done|wp_finish..|].
  wp_steps.
  - destruct xx; [wp_finish|]. wp_steps.
    destruct (push_all_spec head _ _ (cstr v :: (cstr <$> vs)) is_list_create) as (l' & -> & Hl').
    wp_finish. by rewrite (is_list_len _ _ Hl'), <- (zlen_pushed head).
  - obj_cases; wp_finish. list_hyp Hl.
    destruct (push_all_spec head _ _ (cstr v :: (cstr <$> vs)) Hl) as (l' & -> & Hl').
    wp_finish. by rewrite (is_list_len _ _ Hl'), <- (zlen_pushed head).
Qed.

Lemma pop_end_spec head l xs :
  is_list l xs →
  match (popped head 1 xs).1 with
  | v :: _ => ∃ l', list_pop_end head l = Some (Some v, l') ∧ is_list l' (popped head 1 xs).2
  | [] => list_pop_end head l = Some (None, l) ∧ xs = []
  end.
Proof.
  intros Hl. destruct head; cbn [popped fst snd list_pop_end].
  - pose proof (list_pop_head_spec l xs Hl) as Hp. by destruct xs.
  - pose proof (list_pop_tail_spec l xs Hl) as Hp.
    destruct xs as [|x xs _] using rev_ind; [done|]. rewrite last_snoc in Hp. rewrite rev_unit.
    destruct Hp as (l1 & xs' & [<- _]%app_inj_tail & -> & Hl1). exists l1. split; [done|].
    rewrite length_app, take_app_le by (simpl; lia). rewrite Nat.add_sub, firstn_all. done.
Qed.

Lemma wp_reply_all t m c vs s (Q : unit → state → Prop) :
  Rep t m c s →
  (∀ s', Rep t m (push c (concat (map rv_bytes (map RBulk vs)))) s' → Q tt s') →
  wp (forM vs reply_bulk) Q s.
Proof.
  intros HR HQ. apply (wp_forM_reply t c _ fmt_bulk _ m); [done| |].
  - intros v c' s' _ HR'. wp_finish.
  - intros s' HR'. apply HQ. by rewrite map_map.
Qed.

Lemma wp_pop_count t m c k head count s :
  Rep t m c s → 0 <= count →
  wp (list_pop_count head k count)
     (λ _ s', Rep t (s_pop_count head count m k).1 (deliver c (s_pop_count head count m k).2) s') s.
Proof.
  intros HR Hc. unfold list_pop_count, s_pop_count, on_list. wp_finish.
  list_hyp Hl. rewrite Hk. destruct (count =? 1) eqn:Ec; bool_prop.
  - subst count. pose proof (pop_end_spec head l xs Hl) as Hp.
    replace (popped head (Z.to_nat (Z.min 1 (zlen xs))) xs) with (popped head 1 xs).
    2:{ unfold popped, zlen. destruct xs as [|x xs]; [by destruct head|].
        by replace (Z.to_nat (Z.min 1 _)) with 1%nat by (simpl; lia). }
    destruct (popped head 1 xs) as [[|v vs] rest] eqn:Epop; cbn [fst snd] in Hp.
    + destruct Hp as [-> ->]. assert (rest = []) as -> by (destruct head; by injection Epop).
      wp_finish.
    + destruct Hp as (l' & -> & Hl'). wp_finish.
  - rewrite (is_list_len _ _ Hl). fold (zlen xs).
    replace (if count <? zlen xs then count else zlen xs) with (Z.min count (zlen xs))
      by (case_if; bool_prop; lia).
    destruct (pop_many_spec head l xs (Z.to_nat (Z.min count (zlen xs))) Hl) as (l' & -> & Hl');
      [unfold zlen; lia|].
    destruct (popped _ _ _) as [vs rest]. wp_steps.
    eapply wp_reply_all; [done|]. intros s'' HR''. rewrite push_push in HR''.
    wp_steps. wp_done. by rewrite length_map.
Qed.

Lemma pop_ok head : refines (list_pop head) (det (s_pop head)).
Proof.
  cmd_start list_pop s_pop; wp_finish.
  - by apply wp_pop_count.
  - destruct (string_to_ll _) as [n|]; [case_if|]; wp_finish. apply wp_pop_count; [done|].
    bool_prop. lia.
Qed.

Lemma node_at_spec (l : clist bytes) xs ls index :
  list_rep l ls xs →
  match position (length xs) index with
  | None => list_node_at l index = Some None
  | Some i => ∃ (a : loc) (v : bytes) (nd : list_node bytes), list_node_at l index = Some (Some a) ∧ ls !! i = Some a ∧ xs !! i = Some v ∧
                      l_nodes l !! a = Some nd ∧ n_val nd = v
  end.
Proof.
  intros H. rewrite (list_node_at_spec l ls xs index H).
  destruct (position (length xs) index) as [i|] eqn:E; cbn [mbind option_bind]; [|done].
  apply position_lt in E. rewrite <- (hr_len _ _ _ (lr_heap _ _ _ H)) in E.
  destruct (lookup_lt_is_Some_2 ls i E) as [a Ha]. rewrite Ha.
  destruct (hr_lookup _ _ _ _ _ (lr_heap _ _ _ H) Ha) as (w & Hw & Hn). eauto 10.
Qed.

Lemma lindex_ok : refines cmd_lindex (det s_lindex).
Proof.
  cmd_start cmd_lindex s_lindex; unfold on_list; wp_finish.
  destruct (string_to_ll _) as [i|]; [|wp_finish]. wp_finish. list_hyp Hl. destruct Hl as [ls Hl].
  pose proof (node_at_spec _ xs ls i Hl) as Hn. rewrite Hk.
  destruct (position (length xs) i) as [j|].
  - destruct Hn as (a & v & nd & -> & Ha & Hv & Hnd & Hval). wp_steps. rewrite Hnd. wp_steps.
    cbn [mbind option_bind]. rewrite Hv. wp_finish. by rewrite Hval.
  - rewrite Hn. wp_finish.
Qed.

Lemma lset_ok : refines cmd_lset (det s_lset).
Proof.
  cmd_start cmd_lset s_lset; unfold on_list; wp_finish.
  destruct (string_to_ll _) as [i|]; [|wp_finish]. wp_finish. list_hyp Hl. destruct Hl as [ls Hl].
  pose proof (node_at_spec _ xs ls i Hl) as Hn. rewrite Hk.
  destruct (position (length xs) i) as [j|].
  - destruct Hn as (a & v & nd & -> & Ha & Hv & Hnd & Hval). wp_steps.
    destruct (set_val_spec _ ls xs j a (cstr l2) Hl Ha) as (h & Hset & Hrep).
    rewrite Hset. wp_steps. eapply wp_store_poke_value; [done..| |].
    { apply rep_list. exists ls. exact Hrep. }
    intros. wp_finish.
  - rewrite Hn. wp_finish.
Qed.

Lemma lrange_ok : refines cmd_lrange (det s_lrange).
Proof.
  cmd_start cmd_lrange s_lrange; unfold on_list; wp_finish.
  destruct (string_to_ll (cstr l1)) as [a|], (string_to_ll (cstr l2)) as [b|]; wp_finish.
  list_hyp Hl. destruct Hl as [ls Hl]. rewrite Hk.
  assert (Hlen : list_len l3 = Z.of_nat (length xs)) by apply Hl. rewrite Hlen.
  pose proof (range_normalize_slice xs a b) as Hr.
  destruct (range_normalize _ _ _) as [[lo hi]|]; [|rewrite Hr; wp_finish].
  destruct Hr as (Hlo & Hhi & ->). wp_steps.
  rewrite (list_node_at_spec _ ls xs lo Hl). unfold position.
  rewrite (proj2 (Z.ltb_ge lo 0)) by lia. rewrite (proj2 (Z.ltb_ge lo 0)), Z.geb_leb by lia.
  rewrite (proj2 (Z.leb_gt _ _)) by lia. cbn [orb mbind option_bind]. wp_steps.
  rewrite (read_run_spec _ ls xs) by (apply Hl || lia). wp_steps.
  eapply wp_reply_all; [done|]. intros s'' HR''. rewrite push_push in HR''. wp_done.
  f_equal. unfold fmt_array. rewrite length_map, length_take, length_drop.
  replace (hi - lo + 1) with (Z.of_nat (Z.to_nat (hi - lo + 1) `min` (length xs - Z.to_nat lo)))
    at 1 by lia. done.
Qed.

Lemma ltrim_ok : refines cmd_ltrim (det s_ltrim).
Proof.
  cmd_start cmd_ltrim s_ltrim; unfold on_list; wp_finish.
  destruct (string_to_ll (cstr l1)) as [a|], (string_to_ll (cstr l2)) as [b|]; wp_finish.
  list_hyp Hl. destruct Hl as [ls Hl]. rewrite Hk.
  assert (Hlen : list_len l3 = Z.of_nat (length xs)) by apply Hl. rewrite Hlen.
  pose proof (range_normalize_slice xs a b) as Hr.
  destruct (range_normalize _ _ _) as [[lo hi]|]; [|rewrite Hr; wp_finish].
  destruct Hr as (Hlo & Hhi & ->). unfold list_first. rewrite (lr_head _ _ _ Hl).
  destruct (trim_head_spec (Z.to_nat lo) l3 ls xs Hl ltac:(lia)) as (l4 & -> & Hl4). wp_steps.
  rewrite (is_list_len _ _ Hl4), Nat2Z.id.
  destruct (trim_tail_spec (length (drop (Z.to_nat lo) xs)) _ _ (hi - lo + 1) Hl4)
    as (l5 & -> & Hl5); [lia..|].
  wp_finish. unfold settle. cbn [value_is_empty].
  rewrite (proj2 (Nat.eqb_neq _ 0)) by (rewrite length_take, length_drop; lia). done.
Qed.

Lemma lremoved_length count x xs : (length (lremoved count x xs) <= length xs)%nat.
Proof.
  unfold lremoved. repeat case_if; rewrite ?length_rev; try apply remove_n_length.
  rewrite <- (length_rev xs). apply remove_n_length.
Qed.

Lemma lrem_spec count target l xs :
  is_list l xs →
  ∃ l', (if count >=? 0 then
           lrem_loop (Z.to_nat (list_len l)) true (λ r, (count =? 0) || (r <? count)) target l (list_first l) 0
         else lrem_loop (Z.to_nat (list_len l)) false (λ r, r <? - count) target l (list_last l) 0)
        = Some (l', zlen xs - zlen (lremoved count target xs)) ∧
      is_list l' (lremoved count target xs).
Proof.
  intros [ls Hl]. pose proof (hr_len _ _ _ (lr_heap _ _ _ Hl)) as Hlen.
  unfold list_len, list_first, list_last. rewrite (lr_len _ _ _ Hl), (lr_head _ _ _ Hl), (lr_tail _ _ _ Hl).
  rewrite Nat2Z.id. unfold lremoved. case_if; bool_prop.
  - set (rem := if count =? 0 then length xs else Z.to_nat count).
    destruct (lrem_forward (length xs) (λ r, (count =? 0) || (r <? count)) target l ls xs 0 0 rem Hl)
      as (l' & Hrun & Hl'); [lia| |].
    + subst rem. destruct (count =? 0) eqn:E; bool_prop; split.
      * intros j Hj. done.
      * right. lia.
      * intros j Hj. simpl. apply Z.ltb_lt. lia.
      * left. simpl. apply Z.ltb_ge. lia.
    + exists l'. rewrite Hrun. rewrite drop_0 in *. rewrite take_0 in Hl'. subst rem.
      destruct (count =? 0) eqn:E; [split; [do 2 f_equal; lia|done]|]. bool_prop.
      rewrite Z.gtb_ltb, (proj2 (Z.ltb_lt _ _)) by lia. split; [do 2 f_equal; lia|done].
  - destruct (lrem_backward (length xs) (λ r, r <? - count) target l ls xs (length ls) 0 (Z.to_nat (- count)) Hl)
      as (l' & Hrun & Hl'); [lia..| |].
    + split; [intros j Hj; simpl; apply Z.ltb_lt; lia|left; simpl; apply Z.ltb_ge; lia].
    + exists l'. rewrite Hrun. rewrite Hlen, firstn_all, drop_all, app_nil_r in *.
      rewrite (proj2 (Z.eqb_neq _ _)), gtb_le by lia. split; [|done].
      unfold zlen. rewrite length_rev. do 2 f_equal.
Qed.

Lemma lrem_ok : refines cmd_lrem (det s_lrem).
Proof.
  cmd_start cmd_lrem s_lrem; unfold on_list; wp_finish.
  destruct (string_to_ll _) as [n|]; [|wp_finish]. wp_finish. list_hyp Hl. rewrite Hk.
  destruct (lrem_spec n (cstr l2) l3 xs Hl) as (l4 & Hrun & Hl4). cbv zeta. rewrite Hrun. wp_finish.
Qed.

Lemma linsert_ok : refines cmd_linsert (det s_linsert).
Proof.
  cmd_start cmd_linsert s_linsert; unfold on_list; wp_finish.
  destruct cmd as [|]; cmd_simpl; [|wp_finish]. wp_steps.
  destruct (strcaseeq (cstr l1) (bs "BEFORE") || _); wp_finish.
  list_hyp Hl. destruct Hl as [ls Hl]. pose proof (lr_heap _ _ _ Hl) as Hh. rewrite Hk.
  rewrite (is_list_len _ xs) by (by exists ls). unfold list_first.
  rewrite (lr_head _ _ _ Hl), (find_node_spec _ _ ls xs) by (done || rewrite (hr_len _ _ _ Hh); lia).
  rewrite drop_0. wp_steps. destruct (list_find _ xs) as [[i y]|] eqn:Ef; cbn [mbind option_bind]; [|wp_finish].
  apply list_find_Some in Ef as (Hi & -> & _). cbn [Nat.add].
  destruct (lookup_lt_is_Some_2 ls i) as [a Ha]; [rewrite (hr_len _ _ _ Hh); by eapply lookup_lt_Some|].
  destruct (hr_lookup _ _ _ _ _ Hh Ha) as (w & _ & Hn). rewrite Ha. wp_steps. rewrite Hn. wp_steps.
  cbn [n_prev]. pose proof (lookup_lt_Some _ _ _ Ha) as Hlt.
  set (j := if strcaseeq (cstr l1) (bs "BEFORE") then i else S i).
  replace (if strcaseeq (cstr l1) (bs "BEFORE") then prev_of ls i else Some a) with (prev_of ls j)
    by (subst j; by case_if).
  destruct (list_insert_after_spec _ ls xs j (cstr l3) Hl) as (l' & -> & Hl'); [subst j; case_if; lia|].
  assert (is_list l' (ins j (cstr l3) xs)) as Hi' by (by eexists).
  wp_finish. rewrite (is_list_len _ _ Hi'), ins_length by (rewrite <- (hr_len _ _ _ Hh); subst j; case_if; lia).
  do 2 f_equal. unfold zlen. lia.
Qed.
