(* ===== verification/DbHash.v ===== *)
(** * Hash commands ([src/db.c])

    HSET to HINCRBYFLOAT on the dictionary of fields, and the finite-map operations
    they refine. *)

From Stdlib Require Import Floats.SpecFloat.
From S2P Require Import Prelude Util Dict CList Zskiplist Double Object Machine DbCore.
Import Num.

(** ** Handlers *)

(** [o->ptr] used as the dictionary of a hash. *)
Definition as_hash (o : robj) : option (dict bytes) :=
  match o_ptr o with OBJ_HASH h => Some h | _ => None end.

(** [if (!o) { o = robj_new_hash(); dict_set(store->d, key, o); }] *)
Definition hash_or_new (k : bytes) (o : option robj) : M robj :=
  match o with
  | Some o => mret o
  | None =>
      r ← random_seed;
      _ ← store_set k (robj_new_hash r);
      mret (robj_new_hash r)
  end.

(** The assignments of HSET, and how many fields they created. *)
Fixpoint hset_loop (h : dict bytes) (added : Z) (fvs : list (bytes * bytes)) : dict bytes * Z :=
  match fvs with
  | [] => (h, added)
  | (f, v) :: fvs =>
      let added := if is_some (dict_get h f) then added else added + 1 in
      hset_loop (dict_set h f v).2 added fvs
  end.

Definition hash_set_many (reply_ok : bool) (cmd : command) : M unit :=
  a0 ← arg cmd 0;
  if (argc cmd <? 4)%nat || Nat.odd (argc cmd - 2) then reply_error (wrong_args a0) else
  k ← arg cmd 1;
  o ← lookup_key k;
  if type_differs o T_HASH then reply_wrongtype else
  o ← hash_or_new k o;
  h ← lift (as_hash o);
  let '(h, added) := hset_loop h 0 (pairs_from cmd 2) in
  _ ← store_poke k (with_ptr o (OBJ_HASH h));
  if reply_ok then reply_simple (bs "OK") else reply_integer added.

Definition cmd_hset : command → M unit := hash_set_many false.
Definition cmd_hmset : command → M unit := hash_set_many true.

Definition cmd_hget (cmd : command) : M unit :=
  if negb (argc cmd =? 3)%nat then reply_error (wrong_args (bs "hget")) else
  k ← arg cmd 1;
  o ← lookup_key k;
  if type_differs o T_HASH then reply_wrongtype else
  match o with
  | None => reply_null
  | Some o =>
      h ← lift (as_hash o);
      f ← arg cmd 2;
      match dict_get h f with Some v => reply_bulk v | None => reply_null end
  end.

(** [o ? o->ptr : NULL] *)
Definition hash_or_null (o : option robj) : option (option (dict bytes)) :=
  match o with None => Some None | Some o => h ← as_hash o; Some (Some h) end.

Definition cmd_hmget (cmd : command) : M unit :=
  if (argc cmd <? 3)%nat then reply_error (wrong_args (bs "hmget")) else
  k ← arg cmd 1;
  o ← lookup_key k;
  if type_differs o T_HASH then reply_wrongtype else
  h ← lift (hash_or_null o);
  _ ← reply_array_header (Z.of_nat (argc cmd) - 2);
  forM (args_from cmd 2) (λ f,
    match (match h with Some h => dict_get h f | None => None end) with
    | Some v => reply_bulk v
    | None => reply_null
    end).

(** The number of entries of a possibly NULL hash, and the entries in iteration
    order. *)
Definition hash_size (h : option (dict bytes)) : Z :=
  match h with Some h => Z.of_nat (dict_size h) | None => 0 end.
Definition hash_entries (h : option (dict bytes)) : list (entry bytes) :=
  match h with Some h => dict_entries h | None => [] end.

Definition cmd_hgetall (cmd : command) : M unit :=
  if negb (argc cmd =? 2)%nat then reply_error (wrong_args (bs "hgetall")) else
  k ← arg cmd 1;
  o ← lookup_key k;
  if type_differs o T_HASH then reply_wrongtype else
  h ← lift (hash_or_null o);
  _ ← reply_array_header (hash_size h * 2);
  forM (hash_entries h) (λ e, _ ← reply_bulk (e_key e); reply_bulk (e_val e)).

Definition hash_keys_or_vals (vals : bool) (cmd : command) : M unit :=
  a0 ← arg cmd 0;
  if negb (argc cmd =? 2)%nat then reply_error (wrong_args a0) else
  k ← arg cmd 1;
  o ← lookup_key k;
  if type_differs o T_HASH then reply_wrongtype else
  h ← lift (hash_or_null o);
  _ ← reply_array_header (hash_size h);
  forM (hash_entries h) (λ e, if vals then reply_bulk (e_val e) else reply_bulk (e_key e)).

Definition cmd_hkeys : command → M unit := hash_keys_or_vals false.
Definition cmd_hvals : command → M unit := hash_keys_or_vals true.

Definition cmd_hlen (cmd : command) : M unit :=
  if negb (argc cmd =? 2)%nat then reply_error (wrong_args (bs "hlen")) else
  k ← arg cmd 1;
  o ← lookup_key k;
  if type_differs o T_HASH then reply_wrongtype else
  h ← lift (hash_or_null o);
  reply_integer (hash_size h).

Definition cmd_hexists (cmd : command) : M unit :=
  if negb (argc cmd =? 3)%nat then reply_error (wrong_args (bs "hexists")) else
  k ← arg cmd 1;
  o ← lookup_key k;
  if type_differs o T_HASH then reply_wrongtype else
  match o with
  | None => reply_integer 0
  | Some o =>
      h ← lift (as_hash o);
      f ← arg cmd 2;
      reply_integer (if is_some (dict_get h f) then 1 else 0)
  end.

(** The deletions of HDEL, and how many fields they removed. *)
Fixpoint hdel_loop {V} (h : dict V) (removed : Z) (fs : list bytes) : dict V * Z :=
  match fs with
  | [] => (h, removed)
  | f :: fs =>
      let '(old, h) := dict_delete h f in
      hdel_loop h (match old with Some _ => removed + 1 | None => removed end) fs
  end.

Definition cmd_hdel (cmd : command) : M unit :=
  if (argc cmd <? 3)%nat then reply_error (wrong_args (bs "hdel")) else
  k ← arg cmd 1;
  o ← lookup_key k;
  if type_differs o T_HASH then reply_wrongtype else
  match o with
  | None => reply_integer 0
  | Some o =>
      h ← lift (as_hash o);
      let '(h, removed) := hdel_loop h 0 (args_from cmd 2) in
      let o := with_ptr o (OBJ_HASH h) in
      _ ← store_poke k o;
      _ ← reply_integer removed;
      maybe_delete_key k o
  end.

Definition cmd_hsetnx (cmd : command) : M unit :=
  if negb (argc cmd =? 4)%nat then reply_error (wrong_args (bs "hsetnx")) else
  k ← arg cmd 1;
  o ← lookup_key k;
  if type_differs o T_HASH then reply_wrongtype else
  o ← hash_or_new k o;
  h ← lift (as_hash o);
  f ← arg cmd 2;
  if is_some (dict_get h f) then reply_integer 0 else
  v ← arg cmd 3;
  _ ← store_poke k (with_ptr o (OBJ_HASH (dict_set h f v).2));
  reply_integer 1.

Definition cmd_hincrby (cmd : command) : M unit :=
  if negb (argc cmd =? 4)%nat then reply_error (wrong_args (bs "hincrby")) else
  a3 ← arg cmd 3;
  match string_to_ll a3 with
  | None => reply_error not_integer
  | Some delta =>
      k ← arg cmd 1;
      o ← lookup_key k;
      if type_differs o T_HASH then reply_wrongtype else
      o ← hash_or_new k o;
      h ← lift (as_hash o);
      f ← arg cmd 2;
      match (match dict_get h f with None => Some 0 | Some v => string_to_ll_n v end) with
      | None => reply_error (bs "hash value is not an integer")
      | Some cur =>
          let nv := wraps64 (cur + delta) in
          if ((delta >? 0) && (nv <? cur)) || ((delta <? 0) && (nv >? cur)) then
            reply_error (bs "increment or decrement would overflow")
          else
            _ ← store_poke k (with_ptr o (OBJ_HASH (dict_set h f (ll_to_string nv)).2));
            reply_integer nv
      end
  end.

(** [nv != nv || nv == INFINITY || nv == -INFINITY] *)
Definition not_finite (d : double) : bool :=
  match d with S754_nan | S754_infinity _ => true | _ => false end.

Definition bad_delta : bytes := bs "value is not a valid float".
Definition bad_field : bytes := bs "hash value is not a float".
Definition bad_result : bytes := bs "increment would produce NaN or Infinity".

Definition cmd_hincrbyfloat (cmd : command) : M unit :=
  if negb (argc cmd =? 4)%nat then reply_error (wrong_args (bs "hincrbyfloat")) else
  a3 ← arg cmd 3;
  match parse_double a3 with
  | None => reply_error bad_delta
  | Some delta =>
      k ← arg cmd 1;
      o ← lookup_key k;
      if type_differs o T_HASH then reply_wrongtype else
      o ← hash_or_new k o;
      h ← lift (as_hash o);
      f ← arg cmd 2;
      match (match dict_get h f with None => Some (S754_zero false) | Some v => parse_double (cstr v) end) with
      | None => reply_error bad_field
      | Some cur =>
          let nv := dadd cur delta in
          if not_finite nv then reply_error bad_result
          else
            _ ← store_poke k (with_ptr o (OBJ_HASH (dict_set h f (cstr (fmt_g17 nv))).2));
            reply_bulk_cstr (fmt_g17 nv)
      end
  end.

(** ** Abstract commands *)

Definition on_hash (m : keyspace) (k : bytes) (absent : keyspace * rv)
    (present : gmap bytes bytes → Z → keyspace * rv) : keyspace * rv :=
  match m !! k with
  | None => absent
  | Some (Aobj (VHash h) e) => present h e
  | Some _ => (m, RWrongType)
  end.

(** The commands that create the hash when there is none. *)
Definition on_hash_new (m : keyspace) (k : bytes)
    (f : gmap bytes bytes → Z → keyspace * rv) : keyspace * rv :=
  on_hash m k (f ∅ (-1)) f.

Definition insert_all (h : gmap bytes bytes) (fvs : list (bytes * bytes)) : gmap bytes bytes :=
  foldl (λ h '(f, v), <[f := v]> h) h fvs.

Definition s_hset (reply_ok : bool) (t : Z) (m : keyspace) (args : list bytes) : keyspace * rv :=
  match args with
  | _ :: k :: (_ :: _ :: _) as fvs =>
      if Nat.odd (length fvs) then s_wrong (hd [] args) m else
      let set h e :=
        let h' := insert_all h (pair_up fvs) in
        (<[k := Aobj (VHash h') e]> m,
         if reply_ok then RSimple (bs "OK") else RInt (Z.of_nat (base.size h') - Z.of_nat (base.size h))) in
      on_hash_new m k set
  | a0 :: _ => s_wrong a0 m
  | [] => (m, RNull)
  end.

Definition bulk_or_null (v : option bytes) : rv :=
  match v with Some v => RBulk v | None => RNull end.

Definition s_hget (t : Z) (m : keyspace) (args : list bytes) : keyspace * rv :=
  match args with
  | [_; k; f] => on_hash m k (m, RNull) (λ h _, (m, bulk_or_null (h !! f)))
  | _ => s_wrong (bs "hget") m
  end.

Definition s_hmget (t : Z) (m : keyspace) (args : list bytes) : keyspace * rv :=
  match args with
  | _ :: k :: (_ :: _) as fs =>
      let get (h : gmap bytes bytes) e := (m, RArray (map (λ f, bulk_or_null (h !! f)) fs)) in
      on_hash_new m k get
  | _ => s_wrong (bs "hmget") m
  end.

(** The fields and values in some order. *)
Definition s_listing (name : bytes) (item : bytes * bytes → list rv)
    (t : Z) (m : keyspace) (args : list bytes) (m' : keyspace) (r : rv) : Prop :=
  match args with
  | [_; k] =>
      m' = m ∧
      match m !! k with
      | None => r = RArray []
      | Some (Aobj (VHash h) _) =>
          ∃ l, l ≡ₚ map_to_list h ∧ r = RArray (concat (map item l))
      | Some _ => r = RWrongType
      end
  | _ => (m', r) = s_wrong name m
  end.

Definition s_hgetall : spec := s_listing (bs "hgetall") (λ '(f, v), [RBulk f; RBulk v]).
Definition s_hkeys_or_vals (vals : bool) : spec := λ t m args,
  s_listing (hd [] args) (λ '(f, v), if vals then [RBulk v] else [RBulk f]) t m args.

Definition s_hlen (t : Z) (m : keyspace) (args : list bytes) : keyspace * rv :=
  match args with
  | [_; k] => on_hash m k (m, RInt 0) (λ h _, (m, RInt (Z.of_nat (base.size h))))
  | _ => s_wrong (bs "hlen") m
  end.

Definition s_hexists (t : Z) (m : keyspace) (args : list bytes) : keyspace * rv :=
  match args with
  | [_; k; f] => on_hash m k (m, RInt 0) (λ h _, (m, RInt (if is_some (h !! f) then 1 else 0)))
  | _ => s_wrong (bs "hexists") m
  end.

Definition delete_all {V} (h : gmap bytes V) (fs : list bytes) : gmap bytes V :=
  foldl (λ h f, delete f h) h fs.

Definition s_hdel (t : Z) (m : keyspace) (args : list bytes) : keyspace * rv :=
  match args with
  | _ :: k :: (_ :: _) as fs =>
      on_hash m k (m, RInt 0) (λ h e,
        let h' := delete_all h fs in
        (settle m k (VHash h') e, RInt (Z.of_nat (base.size h) - Z.of_nat (base.size h'))))
  | _ => s_wrong (bs "hdel") m
  end.

Definition s_hsetnx (t : Z) (m : keyspace) (args : list bytes) : keyspace * rv :=
  match args with
  | [_; k; f; v] =>
      let set (h : gmap bytes bytes) e :=
        match h !! f with
        | Some _ => (m, RInt 0)
        | None => (<[k := Aobj (VHash (<[f := v]> h)) e]> m, RInt 1)
        end in
      on_hash_new m k set
  | _ => s_wrong (bs "hsetnx") m
  end.

Definition s_hincrby (t : Z) (m : keyspace) (args : list bytes) : keyspace * rv :=
  match args with
  | [_; k; f; a] =>
      match string_to_ll a with
      | None => (m, RError not_integer)
      | Some delta =>
          let add (h : gmap bytes bytes) e :=
            match (match h !! f with None => Some 0 | Some v => string_to_ll_n v end) with
            | None => (m, RError (bs "hash value is not an integer"))
            | Some cur =>
                if decide (in_ll (cur + delta)) then
                  (<[k := Aobj (VHash (<[f := ll_to_string (cur + delta)]> h)) e]> m, RInt (cur + delta))
                else (m, RError (bs "increment or decrement would overflow"))
            end in
          on_hash_new m k add
      end
  | _ => s_wrong (bs "hincrby") m
  end.

(** The hash stays behind when the result is refused, even one that was created for
    the command. *)
Definition s_hincrbyfloat (t : Z) (m : keyspace) (args : list bytes) : keyspace * rv :=
  match args with
  | [_; k; f; a] =>
      match parse_double a with
      | None => (m, RError bad_delta)
      | Some delta =>
          on_hash_new m k (λ h e,
            match (match h !! f with None => Some (S754_zero false) | Some v => parse_double (cstr v) end) with
            | None => (m, RError bad_field)
            | Some cur =>
                let nv := dadd cur delta in
                if not_finite nv then (<[k := Aobj (VHash h) e]> m, RError bad_result)
                else (<[k := Aobj (VHash (<[f := fmt_g17 nv]> h)) e]> m, RBulk (fmt_g17 nv))
            end)
      end
  | _ => s_wrong (bs "hincrbyfloat") m
  end.

(** ** The loops compute the finite-map operations *)

Lemma hset_loop_spec h n fvs :
  dict_wf h →
  ∃ h', hset_loop h n fvs = (h', n + (Z.of_nat (base.size (dict_abs h')) - Z.of_nat (base.size (dict_abs h)))) ∧
        dict_wf h' ∧ dict_abs h' = insert_all (dict_abs h) fvs.
Proof.
  revert h n. induction fvs as [|[f v] fvs IH]; intros h n Hwf; cbn [hset_loop].
  - exists h. split; [f_equal; lia|done].
  - destruct (dict_set_correct h f v Hwf) as (Hwf1 & Ha1 & _).
    destruct (IH (dict_set h f v).2 (if is_some (dict_get h f) then n else n + 1) Hwf1)
      as (h' & -> & Hwf' & Ha').
    exists h'. split; [|split; [done|by rewrite Ha', Ha1]]. f_equal.
    rewrite Ha1, map_size_insert, dict_get_correct by done.
    destruct (dict_abs h !! f); simpl; lia.
Qed.

Lemma hdel_loop_spec {V} (h : dict V) n fs :
  dict_wf h →
  ∃ h', hdel_loop h n fs = (h', n + (Z.of_nat (base.size (dict_abs h)) - Z.of_nat (base.size (dict_abs h')))) ∧
        dict_wf h' ∧ dict_abs h' = delete_all (dict_abs h) fs.
Proof.
  revert h n. induction fs as [|f fs IH]; intros h n Hwf; cbn [hdel_loop].
  - exists h. split; [f_equal; lia|done].
  - destruct (dict_delete_correct h f Hwf) as (Hwf1 & Ha1 & Hold).
    destruct (dict_delete h f) as [old h1]. simpl in *.
    destruct (IH h1 (match old with Some _ => n + 1 | None => n end) Hwf1) as (h' & -> & Hwf' & Ha').
    exists h'. split; [|split; [done|by rewrite Ha', Ha1]]. f_equal.
    rewrite Ha1, map_size_delete, Hold. destruct (dict_abs h !! f) eqn:E; simpl; [|lia].
    assert (base.size (dict_abs h) ≠ 0%nat) by (apply map_size_ne_0_lookup; eauto). lia.
Qed.

(** ** The handlers refine the abstract commands *)

(** After [hash_or_new] the key holds a hash: the visible one, or a fresh one. *)
Definition hash_at (m : keyspace) (k : bytes) (h : dict bytes) (e : Z) : Prop :=
  m !! k = None ∧ dict_abs h = ∅ ∧ e = -1 ∨ m !! k = Some (Aobj (VHash (dict_abs h)) e).

Lemma on_hash_at (m : keyspace) (k : bytes) (h : dict bytes) (e : Z) (f : gmap bytes bytes → Z → keyspace * rv) :
  hash_at m k h e → on_hash_new m k f = f (dict_abs h) e.
Proof. unfold on_hash_new, on_hash. intros [(-> & -> & ->)| ->]; done. Qed.

(** A field was found, so the hash is the visible one and nothing has changed. *)
Lemma hash_at_found (m : keyspace) (k : bytes) (h : dict bytes) (e : Z) f v :
  hash_at m k h e → dict_abs h !! f = Some v → m = <[k := Aobj (VHash (dict_abs h)) e]> m.
Proof.
  intros [(_ & Hh & _)|?] Hf; [|by rewrite insert_id]. by rewrite Hh, lookup_empty in Hf.
Qed.

Lemma wp_hash_or_new t m c s k o (Q : robj → state → Prop) :
  Rep t m c s →
  match o with
  | None => m !! k = None
  | Some o => ∃ h e, o = Robj (OBJ_HASH h) e ∧ m !! k = Some (Aobj (VHash (dict_abs h)) e) ∧ dict_wf h ∧ in_ll e
  end →
  (∀ h e s', dict_wf h → hash_at m k h e →
     obj_rep (Robj (OBJ_HASH h) e) (Aobj (VHash (dict_abs h)) e) →
     Rep t (<[k := Aobj (VHash (dict_abs h)) e]> m) c s' → Q (Robj (OBJ_HASH h) e) s') →
  wp (hash_or_new k o) Q s.
Proof.
  intros HR Ho HQ. unfold hash_or_new. destruct o as [o|].
  - destruct Ho as (h & e & -> & Hk & Hwf & He). wp_steps.
    apply HQ; [done|by right|split; [by constructor|done]|]. by rewrite insert_id.
  - wp_steps. destruct (dict_create_spec (V:=bytes) r) as [Hwf Ha]. unfold robj_new_hash. apply HQ.
    + done.
    + left. by rewrite Ha.
    + rewrite Ha. apply obj_rep_new_hash.
    + rewrite Ha. done.
Qed.

Ltac hash_create h e :=
  eapply wp_hash_or_new; [eassumption|first [eassumption|solve [eauto 10]]|];
  let Hwf := fresh "Hwf" in let Hat := fresh "Hat" in let Hob := fresh "Hob" in
  intros h e ? Hwf Hat Hob ?; rewrite !(on_hash_at _ _ _ _ _ Hat).

Ltac hash_done := unfold on_hash_new, on_hash; wp_done.

Lemma hset_ok reply_ok : refines (hash_set_many reply_ok) (det (s_hset reply_ok)).
Proof.
  apply refines_det. intros t m c cmd s Hne HR. unfold hash_set_many, s_hset.
  destruct cmd as [|a0 [|k [|f [|v fvs]]]]; cmd_simpl; [done|wp_finish..|].
  wp_steps. rewrite <- (length_fmap cstr fvs). cbn [Nat.sub]. case_if; [wp_finish|].
  wp_steps; [|obj_cases; wp_steps; try hash_done].
  all: hash_create hh ee; wp_steps;
    destruct (hset_loop_spec hh 0 (pair_up (cstr f :: cstr v :: (cstr <$> fvs))) Hwf)
      as (h' & Hrun & Hwf' & Ha'); cbn [pair_up] in *; rewrite Hrun; wp_steps; rewrite <- Ha'.
  all: destruct reply_ok; wp_finish.
Qed.

Lemma hget_ok : refines cmd_hget (det s_hget).
Proof.
  cmd_start cmd_hget s_hget; unfold on_hash; wp_finish.
  rewrite Hk. rewrite dict_get_correct by done. destruct (dict_abs h !! _); wp_finish.
Qed.

Lemma hlen_ok : refines cmd_hlen (det s_hlen).
Proof.
  cmd_start cmd_hlen s_hlen; unfold on_hash; wp_finish. by rewrite <- dict_size_correct.
Qed.

Lemma hexists_ok : refines cmd_hexists (det s_hexists).
Proof.
  cmd_start cmd_hexists s_hexists; unfold on_hash; wp_finish. by rewrite dict_get_correct.
Qed.

Lemma array_reply c n (l : list bytes) (g : bytes → rv) :
  n = zlen l →
  push c (fmt_array n ++ concat (map (λ x, rv_bytes (g x)) l)) = push c (rv_bytes (RArray (map g l))).
Proof. intros ->. cbn [rv_bytes]. unfold zlen. by rewrite length_map, map_map. Qed.

Lemma hmget_ok : refines cmd_hmget (det s_hmget).
Proof.
  apply refines_det. intros t m c cmd s Hne HR. unfold cmd_hmget, s_hmget, on_hash_new, on_hash.
  destruct cmd as [|a0 [|k [|f fs]]]; cmd_simpl; [done|wp_finish..|].
  wp_steps; [|obj_cases; wp_steps; try wp_done]; rewrite Hk.
  - eapply (wp_forM_reply _ _ _ (λ f, rv_bytes (bulk_or_null ((∅ : gmap bytes bytes) !! f)))); [done| |].
    + intros f' c' s2 _ HR2. rewrite lookup_empty. wp_finish.
    + intros s2 HR2. rewrite push_push in HR2. eapply Rep_eq; [exact HR2|done|].
      cbn [deliver snd]. apply array_reply. unfold zlen. cbn [length]. rewrite length_fmap. lia.
  - eapply (wp_forM_reply _ _ _ (λ f, rv_bytes (bulk_or_null (dict_abs h !! f)))); [done| |].
    + intros f' c' s2 _ HR2. rewrite dict_get_correct by done. destruct (dict_abs h !! f'); wp_finish.
    + intros s2 HR2. rewrite push_push in HR2. eapply Rep_eq; [exact HR2|done|].
      cbn [deliver snd]. apply array_reply. unfold zlen. cbn [length]. rewrite length_fmap. lia.
Qed.

(** HGETALL, HKEYS and HVALS iterate over the entries. *)
Lemma wp_listing t m c s h (item : bytes * bytes → list rv) (f : entry bytes → M unit) n :
  Rep t m (push c (fmt_array (Z.of_nat (dict_size h) * Z.of_nat n))) s → dict_wf h →
  (∀ kv, length (item kv) = n) →
  (∀ e c s, Rep t m c s →
     wp (f e) (λ _ s', Rep t m (push c (concat (map rv_bytes (item (pair_of e))))) s') s) →
  wp (forM (dict_entries h) f)
     (λ _ s', ∃ l, l ≡ₚ map_to_list (dict_abs h) ∧
        Rep t m (push c (rv_bytes (RArray (concat (map item l))))) s') s.
Proof.
  intros HR Hwf Hn Hf.
  eapply (wp_forM_reply _ _ f (λ e, concat (map rv_bytes (item (pair_of e))))); [done|auto|].
  intros s2 HR2. exists (pair_of <$> dict_entries h). split; [by apply dict_entries_to_list|].
  rewrite push_push in HR2. eapply Rep_eq; [done..|]. f_equal. cbn [rv_bytes]. f_equal.
  - f_equal. unfold dict_size. rewrite <- (dict_entries_length _ Hwf). clear -Hn.
    induction (dict_entries h) as [|e es IH]; [done|]. cbn [fmap list_fmap map concat length].
    rewrite length_app, Hn. lia.
  - clear. induction (dict_entries h) as [|e es IH]; [done|]. cbn [fmap list_fmap map concat].
    by rewrite map_app, concat_app, IH.
Qed.

Lemma listing_ok t m c s k (item : bytes * bytes → list rv) (f : entry bytes → M unit) n
    (count : option (dict bytes) → Z) :
  Rep t m c s →
  (∀ h, count h = hash_size h * Z.of_nat n) →
  (∀ kv, length (item kv) = n) →
  (∀ e c s, Rep t m c s →
     wp (f e) (λ _ s', Rep t m (push c (concat (map rv_bytes (item (pair_of e))))) s') s) →
  wp (o ← lookup_key k;
      if type_differs o T_HASH then reply_wrongtype else
      h ← lift (hash_or_null o);
      _ ← reply_array_header (count h);
      forM (hash_entries h) f)
     (λ _ s', ∃ m' r, (m' = m ∧
        match m !! k with
        | None => r = RArray []
        | Some (Aobj (VHash h) _) => ∃ l, l ≡ₚ map_to_list h ∧ r = RArray (concat (map item l))
        | Some _ => r = RWrongType
        end) ∧ Rep t m' (deliver c r) s') s.
Proof.
  intros HR Hc Hn Hf. wp_steps; [|obj_cases; wp_steps]; rewrite Hk.
  - unfold forM. cbn [hash_entries foldM]. wp_steps. exists m, (RArray []). split; [done|].
    rewrite Hc in *. cbn [hash_size] in *. wp_done.
  - exists m, RWrongType. done.
  - exists m, RWrongType. done.
  - rewrite Hc in *. cbn [hash_entries hash_size] in *.
    eapply wp_mono; [by eapply (wp_listing t m c _ h item f n)|].
    intros [] s2 (l & Hl & HR2). exists m, (RArray (concat (map item l))). eauto.
  - exists m, RWrongType. done.
  - exists m, RWrongType. done.
Qed.

Lemma hgetall_ok : refines cmd_hgetall s_hgetall.
Proof.
  intros t m c cmd s Hne HR. unfold cmd_hgetall, s_hgetall, s_listing.
  destruct cmd as [|a0 [|k [|a2 cmd]]]; cmd_simpl; [done|by eapply refines_wrong| |by eapply refines_wrong].
  apply wp_bind. eapply wp_lift; [done|]. eapply (listing_ok _ _ _ _ _ _ _ 2); [done..|by intros []|].
  intros e c' s' HR'. wp_finish. rewrite push_push. cbn [pair_of map concat rv_bytes].
  by rewrite app_nil_r.
Qed.

Lemma hkeys_or_vals_ok vals : refines (hash_keys_or_vals vals) (s_hkeys_or_vals vals).
Proof.
  intros t m c cmd s Hne HR. unfold hash_keys_or_vals, s_hkeys_or_vals, s_listing.
  destruct cmd as [|a0 [|k [|a2 cmd]]]; cmd_simpl; [done|..]; apply wp_bind; (eapply wp_lift; [done|]);
    cbn [hd]; [by eapply refines_wrong| |by eapply refines_wrong].
  apply wp_bind. eapply wp_lift; [done|]. eapply (listing_ok _ _ _ _ _ _ _ 1); [done|lia| |].
  - intros []. by destruct vals.
  - intros e c' s' HR'. destruct vals; wp_finish; cbn [pair_of map concat rv_bytes]; by rewrite app_nil_r.
Qed.

Lemma hdel_ok : refines cmd_hdel (det s_hdel).
Proof.
  apply refines_det. intros t m c cmd s Hne HR. unfold cmd_hdel, s_hdel, on_hash.
  destruct cmd as [|a0 [|k [|f fs]]]; cmd_simpl; [done|wp_finish..|].
  wp_finish. destruct (hdel_loop_spec h 0 (cstr f :: (cstr <$> fs))) as (h' & -> & Hwf' & Ha'); [done|].
  rewrite Hk, <- Ha'. wp_finish.
Qed.

Lemma hsetnx_ok : refines cmd_hsetnx (det s_hsetnx).
Proof.
  cmd_start cmd_hsetnx s_hsetnx; wp_steps; try hash_done; [|obj_cases; wp_steps; try hash_done].
  all: hash_create hh ee; wp_steps; rewrite dict_get_correct by done.
  all: destruct (dict_abs hh !! cstr l1) eqn:Ef; cbn [is_some]; wp_steps; wp_done.
  all: symmetry; by eapply hash_at_found.
Qed.

Lemma hincrby_ok : refines cmd_hincrby (det s_hincrby).
Proof.
  cmd_start cmd_hincrby s_hincrby; wp_steps; try wp_done.
  destruct (string_to_ll (cstr l2)) as [d|] eqn:Ed; [|wp_finish]. apply string_to_ll_n_bounds in Ed.
  assert (Hd : in_ll d) by (unfold in_ll, LLONG_MAX, INT64_MIN, INT64_MAX in *; lia).
  wp_steps; try hash_done; [|obj_cases; wp_steps; try hash_done].
  all: hash_create hh ee; wp_steps; rewrite dict_get_correct by done.
  all: destruct (dict_abs hh !! cstr l1) as [v|] eqn:Ef;
    [destruct (string_to_ll_n v) as [cur|] eqn:Ec; [apply string_to_ll_n_bounds in Ec|]|].
  all: try (wp_steps; wp_done; symmetry; by eapply hash_at_found).
  all: rewrite wraps64_overflow by (done || (unfold in_ll, LLONG_MAX, INT64_MIN, INT64_MAX in *; lia)).
  all: case_bool_decide as Hin; case_decide; try done.
  all: try (wp_steps; wp_done; symmetry; by eapply hash_at_found).
  all: rewrite wraps64_id by done; wp_finish.
Qed.

Lemma hincrbyfloat_ok : refines cmd_hincrbyfloat (det s_hincrbyfloat).
Proof.
  cmd_start cmd_hincrbyfloat s_hincrbyfloat; wp_steps; try wp_done.
  destruct (parse_double (cstr l2)) as [d|]; [|wp_finish].
  wp_steps; try hash_done; [|obj_cases; wp_steps; try hash_done].
  all: hash_create hh ee; wp_steps; rewrite dict_get_correct by done.
  all: destruct (dict_abs hh !! cstr l1) as [v|] eqn:Ef; [destruct (parse_double (cstr v)) as [cur|]|].
  all: try (wp_steps; wp_done; symmetry; by eapply hash_at_found).
  all: match goal with |- context [not_finite ?x] => destruct (not_finite x) end; [wp_finish|].
  all: wp_steps; match goal with HR : Rep _ _ (push _ _) _ |- _ => rewrite !cstr_fmt_g17 in HR end; wp_done.
Qed.
