(* ===== verification/DbSet.v ===== *)
(** * Set commands ([src/db.c])

    SADD to SDIFF.  SINTER and SDIFF keep pointers to the sets of several keys
    while they look other keys up, and a lookup may free an expired key; a set
    pointer is therefore modelled by the key that owns it and dereferenced through
    the keyspace, where a freed set is undefined behaviour. *)

From S2P Require Import Prelude Util Dict CList Zskiplist Object Machine DbCore DbHash.
Import Num.

(** ** Handlers *)

(** [o->ptr] used as the dictionary of a set. *)
Definition as_set (o : robj) : option (dict unit) :=
  match o_ptr o with OBJ_SET s => Some s | _ => None end.

(** [if (!o) { o = robj_new_set(); dict_set(store->d, key, o); }] *)
Definition set_or_new (k : bytes) (o : option robj) : M robj :=
  match o with
  | Some o => mret o
  | None =>
      r ← random_seed;
      _ ← store_set k (robj_new_set r);
      mret (robj_new_set r)
  end.

(** The insertions of SADD, and how many members they created. *)
Fixpoint sadd_loop (s : dict unit) (added : Z) (xs : list bytes) : dict unit * Z :=
  match xs with
  | [] => (s, added)
  | x :: xs =>
      if is_some (dict_get s x) then sadd_loop s added xs
      else sadd_loop (dict_set s x tt).2 (added + 1) xs
  end.

Definition cmd_sadd (cmd : command) : M unit :=
  if (argc cmd <? 3)%nat then reply_error (wrong_args (bs "sadd")) else
  k ← arg cmd 1;
  o ← lookup_key k;
  if type_differs o T_SET then reply_wrongtype else
  o ← set_or_new k o;
  s ← lift (as_set o);
  let '(s, added) := sadd_loop s 0 (args_from cmd 2) in
  _ ← store_poke k (with_ptr o (OBJ_SET s));
  reply_integer added.

Definition cmd_srem (cmd : command) : M unit :=
  if (argc cmd <? 3)%nat then reply_error (wrong_args (bs "srem")) else
  k ← arg cmd 1;
  o ← lookup_key k;
  if type_differs o T_SET then reply_wrongtype else
  match o with
  | None => reply_integer 0
  | Some o =>
      s ← lift (as_set o);
      let '(s, removed) := hdel_loop s 0 (args_from cmd 2) in
      let o := with_ptr o (OBJ_SET s) in
      _ ← store_poke k o;
      _ ← reply_integer removed;
      maybe_delete_key k o
  end.

Definition cmd_sismember (cmd : command) : M unit :=
  if negb (argc cmd =? 3)%nat then reply_error (wrong_args (bs "sismember")) else
  k ← arg cmd 1;
  o ← lookup_key k;
  if type_differs o T_SET then reply_wrongtype else
  match o with
  | None => reply_integer 0
  | Some o =>
      s ← lift (as_set o);
      x ← arg cmd 2;
      reply_integer (if is_some (dict_get s x) then 1 else 0)
  end.

Definition cmd_scard (cmd : command) : M unit :=
  if negb (argc cmd =? 2)%nat then reply_error (wrong_args (bs "scard")) else
  k ← arg cmd 1;
  o ← lookup_key k;
  if type_differs o T_SET then reply_wrongtype else
  match o with
  | None => reply_integer 0
  | Some o => s ← lift (as_set o); reply_integer (Z.of_nat (dict_size s))
  end.

Definition cmd_smembers (cmd : command) : M unit :=
  if negb (argc cmd =? 2)%nat then reply_error (wrong_args (bs "smembers")) else
  k ← arg cmd 1;
  o ← lookup_key k;
  if type_differs o T_SET then reply_wrongtype else
  match o with
  | None => reply_array_header 0
  | Some o =>
      s ← lift (as_set o);
      _ ← reply_array_header (Z.of_nat (dict_size s));
      forM (dict_entries s) (λ e, reply_bulk (e_key e))
  end.

Definition bad_spop : bytes := bs "value is out of range, must be positive".

(** [n] rounds of: pick a random entry, reply with it, delete it. *)
Fixpoint spop_loop (n : nat) (s : dict unit) : M (dict unit) :=
  match n with
  | O => mret s
  | S n =>
      r ← rands (dict_size s);
      match dict_random_entry s r with
      | None => mret s
      | Some e =>
          _ ← reply_bulk (e_key e);
          spop_loop n (dict_delete s (e_key e)).2
      end
  end.

(** The part of SPOP after the arguments have been parsed. *)
Definition spop_count (k : bytes) (count : Z) : M unit :=
  o ← lookup_key k;
  if type_differs o T_SET then reply_wrongtype else
  match o with
  | None => if count =? 1 then reply_null else reply_array_header 0
  | Some o =>
      s ← lift (as_set o);
      if count =? 1 then
        r ← rands (dict_size s);
        match dict_random_entry s r with
        | None => reply_null
        | Some e =>
            _ ← reply_bulk (e_key e);
            let o := with_ptr o (OBJ_SET (dict_delete s (e_key e)).2) in
            _ ← store_poke k o;
            maybe_delete_key k o
        end
      else
        let max := if count <? Z.of_nat (dict_size s) then count else Z.of_nat (dict_size s) in
        _ ← reply_array_header max;
        s ← spop_loop (Z.to_nat max) s;
        let o := with_ptr o (OBJ_SET s) in
        _ ← store_poke k o;
        maybe_delete_key k o
  end.

Definition cmd_spop (cmd : command) : M unit :=
  if (argc cmd <? 2)%nat || (3 <? argc cmd)%nat then reply_error (wrong_args (bs "spop")) else
  k ← arg cmd 1;
  if (argc cmd =? 3)%nat then
    a2 ← arg cmd 2;
    match string_to_ll a2 with
    | None => reply_error bad_spop
    | Some count => if count <? 0 then reply_error bad_spop else spop_count k count
    end
  else spop_count k 1.

(** [None] once a WRONGTYPE error is queued; otherwise the set pointer, NULL when
    the key is missing. *)
Definition set_arg_get (k : bytes) : M (option (option bytes)) :=
  o ← lookup_key k;
  if type_differs o T_SET then _ ← reply_wrongtype; mret None
  else mret (Some (match o with Some _ => Some k | None => None end)).

(** The array [sets], or [None] after an early return. *)
Fixpoint set_args (ks : list bytes) : M (option (list (option bytes))) :=
  match ks with
  | [] => mret (Some [])
  | k :: ks =>
      h ← set_arg_get k;
      match h with
      | None => mret None
      | Some h => hs ← set_args ks; mret (match hs with Some hs => Some (h :: hs) | None => None end)
      end
  end.

(** The dictionary a set pointer points to. *)
Definition deref_set (h : bytes) : M (dict unit) :=
  o ← store_get h;
  lift (o ← o; as_set o).

Fixpoint smallest_set (best : bytes) (hs : list bytes) : M bytes :=
  match hs with
  | [] => mret best
  | h :: hs =>
      d ← deref_set h;
      b ← deref_set best;
      smallest_set (if (dict_size d <? dict_size b)%nat then h else best) hs
  end.

(** The inner loop of SINTER. *)
Fixpoint in_all (smallest f : bytes) (hs : list bytes) : M bool :=
  match hs with
  | [] => mret true
  | h :: hs =>
      if bool_decide (h = smallest) then in_all smallest f hs else
      d ← deref_set h;
      if is_some (dict_get d f) then in_all smallest f hs else mret false
  end.

(** Both passes over the entries of a set: count, announce, reply.  Neither pass
    changes the keyspace. *)
Definition reply_filtered (h : bytes) (test : bytes → M bool) : M unit :=
  d ← deref_set h;
  count ← foldM (λ n (e : entry unit), b ← test (e_key e); mret (if (b : bool) then n + 1 else n))
            0 (dict_entries d);
  _ ← reply_array_header count;
  forM (dict_entries d) (λ e, b ← test (e_key e); if (b : bool) then reply_bulk (e_key e) else mret tt).

(** All the pointers, when none of them is NULL. *)
Fixpoint all_present (hs : list (option bytes)) : option (list bytes) :=
  match hs with
  | [] => Some []
  | None :: _ => None
  | Some h :: hs => hs ← all_present hs; Some (h :: hs)
  end.

Definition cmd_sinter (cmd : command) : M unit :=
  if (argc cmd <? 2)%nat then reply_error (wrong_args (bs "sinter")) else
  hs ← set_args (args_from cmd 1);
  match hs with
  | None => mret tt
  | Some hs =>
      match all_present hs with
      | None => reply_array_header 0
      | Some hs =>
          h0 ← lift (hs !! 0%nat);
          smallest ← smallest_set h0 (drop 1 hs);
          reply_filtered smallest (λ f, in_all smallest f hs)
      end
  end.

(** Insertion of every member of a set into [u]. *)
Definition add_members (u : dict unit) (es : list (entry unit)) : dict unit :=
  foldl (λ u e, (dict_set u (e_key e) tt).2) u es.

Fixpoint sunion_loop (ks : list bytes) (u : dict unit) : M (option (dict unit)) :=
  match ks with
  | [] => mret (Some u)
  | k :: ks =>
      h ← set_arg_get k;
      match h with
      | None => mret None
      | Some None => sunion_loop ks u
      | Some (Some h) => d ← deref_set h; sunion_loop ks (add_members u (dict_entries d))
      end
  end.

Definition cmd_sunion (cmd : command) : M unit :=
  if (argc cmd <? 2)%nat then reply_error (wrong_args (bs "sunion")) else
  r ← random_seed;
  u ← sunion_loop (args_from cmd 1) (dict_create r);
  match u with
  | None => mret tt
  | Some u =>
      _ ← reply_array_header (Z.of_nat (dict_size u));
      forM (dict_entries u) (λ e, reply_bulk (e_key e))
  end.

(** The inner loop of SDIFF, negated. *)
Fixpoint in_no_other (f : bytes) (hs : list (option bytes)) : M bool :=
  match hs with
  | [] => mret true
  | None :: hs => in_no_other f hs
  | Some h :: hs =>
      d ← deref_set h;
      if is_some (dict_get d f) then mret false else in_no_other f hs
  end.

Definition cmd_sdiff (cmd : command) : M unit :=
  if (argc cmd <? 2)%nat then reply_error (wrong_args (bs "sdiff")) else
  hs ← set_args (args_from cmd 1);
  match hs with
  | None => mret tt
  | Some hs =>
      h0 ← lift (hs !! 0%nat);
      match h0 with
      | None => reply_array_header 0
      | Some h0 => reply_filtered h0 (λ f, in_no_other f (drop 1 hs))
      end
  end.

(** ** Abstract commands *)

Definition on_set (m : keyspace) (k : bytes) (absent : keyspace * rv)
    (present : gmap bytes unit → Z → keyspace * rv) : keyspace * rv :=
  match m !! k with
  | None => absent
  | Some (Aobj (VSet s) e) => present s e
  | Some _ => (m, RWrongType)
  end.

Definition add_all (s : gmap bytes unit) (xs : list bytes) : gmap bytes unit :=
  foldl (λ s x, <[x := tt]> s) s xs.

Definition s_sadd (t : Z) (m : keyspace) (args : list bytes) : keyspace * rv :=
  match args with
  | _ :: k :: (_ :: _) as xs =>
      let add s e :=
        let s' := add_all s xs in
        (<[k := Aobj (VSet s') e]> m, RInt (Z.of_nat (base.size s') - Z.of_nat (base.size s))) in
      on_set m k (add ∅ (-1)) add
  | _ => s_wrong (bs "sadd") m
  end.

Definition s_srem (t : Z) (m : keyspace) (args : list bytes) : keyspace * rv :=
  match args with
  | _ :: k :: (_ :: _) as xs =>
      on_set m k (m, RInt 0) (λ s e,
        let s' := delete_all s xs in
        (settle m k (VSet s') e, RInt (Z.of_nat (base.size s) - Z.of_nat (base.size s'))))
  | _ => s_wrong (bs "srem") m
  end.

Definition s_sismember (t : Z) (m : keyspace) (args : list bytes) : keyspace * rv :=
  match args with
  | [_; k; x] => on_set m k (m, RInt 0) (λ s _, (m, RInt (if is_some (s !! x) then 1 else 0)))
  | _ => s_wrong (bs "sismember") m
  end.

Definition s_scard (t : Z) (m : keyspace) (args : list bytes) : keyspace * rv :=
  match args with
  | [_; k] => on_set m k (m, RInt 0) (λ s _, (m, RInt (Z.of_nat (base.size s))))
  | _ => s_wrong (bs "scard") m
  end.

(** The members of the set under a key, none if there is no such key. *)
Definition members (m : keyspace) (k : bytes) : gset bytes :=
  match m !! k with Some (Aobj (VSet s) _) => dom s | _ => ∅ end.

(** A key that holds something else than a set. *)
Definition wrong_type (m : keyspace) (k : bytes) : Prop :=
  match m !! k with None | Some (Aobj (VSet _) _) => False | _ => True end.

(** The reply lists exactly the elements that satisfy [P], in some order. *)
Definition lists_exactly (P : bytes → Prop) (r : rv) : Prop :=
  ∃ l, r = RArray (map RBulk l) ∧ NoDup l ∧ ∀ x, x ∈ l ↔ P x.

Definition s_select_members (name : bytes) (P : keyspace → list bytes → bytes → Prop)
    (m : keyspace) (args : list bytes) (m' : keyspace) (r : rv) : Prop :=
  match args with
  | _ :: (_ :: _) as ks =>
      m' = m ∧
      (Exists (wrong_type m) ks ∧ r = RWrongType ∨
       Forall (λ k, ¬ wrong_type m k) ks ∧ lists_exactly (P m ks) r)
  | _ => (m', r) = s_wrong name m
  end.

Definition s_smembers (t : Z) (m : keyspace) (args : list bytes) : keyspace → rv → Prop :=
  match args with
  | [_; _] => s_select_members (bs "smembers") (λ m ks x, Forall (λ k, x ∈ members m k) ks) m args
  | _ => λ m' r, (m', r) = s_wrong (bs "smembers") m
  end.

Definition s_sinter (t : Z) : keyspace → list bytes → keyspace → rv → Prop :=
  s_select_members (bs "sinter") (λ m ks x, Forall (λ k, x ∈ members m k) ks).

Definition s_sunion (t : Z) : keyspace → list bytes → keyspace → rv → Prop :=
  s_select_members (bs "sunion") (λ m ks x, Exists (λ k, x ∈ members m k) ks).

Definition s_sdiff (t : Z) : keyspace → list bytes → keyspace → rv → Prop :=
  s_select_members (bs "sdiff") (λ m ks x,
    x ∈ members m (hd [] ks) ∧ Forall (λ k, x ∉ members m k) (tl ks)).

(** SPOP removes arbitrary members and replies with them. *)
Definition s_spop_count (m : keyspace) (k : bytes) (count : Z) (m' : keyspace) (r : rv) : Prop :=
  match m !! k with
  | None => m' = m ∧ r = if count =? 1 then RNull else RArray []
  | Some (Aobj (VSet s) e) =>
      ∃ l, NoDup l ∧ (∀ x, x ∈ l → is_Some (s !! x)) ∧
        zlen l = Z.min count (Z.of_nat (base.size s)) ∧
        if count =? 1 then
          match l with
          | [x] => m' = settle m k (VSet (delete x s)) e ∧ r = RBulk x
          | _ => m' = m ∧ r = RNull
          end
        else m' = settle m k (VSet (delete_all s l)) e ∧ r = RArray (map RBulk l)
  | Some _ => m' = m ∧ r = RWrongType
  end.

Definition s_spop (t : Z) (m : keyspace) (args : list bytes) (m' : keyspace) (r : rv) : Prop :=
  match args with
  | [_; k] => s_spop_count m k 1 m' r
  | [_; k; a] =>
      match string_to_ll a with
      | Some count =>
          if count <? 0 then m' = m ∧ r = RError bad_spop else s_spop_count m k count m' r
      | None => m' = m ∧ r = RError bad_spop
      end
  | _ => (m', r) = s_wrong (bs "spop") m
  end.

(** ** The handlers refine the abstract commands *)

Lemma sadd_loop_spec s n xs :
  dict_wf s →
  ∃ s', sadd_loop s n xs = (s', n + (Z.of_nat (base.size (dict_abs s')) - Z.of_nat (base.size (dict_abs s)))) ∧
        dict_wf s' ∧ dict_abs s' = add_all (dict_abs s) xs.
Proof.
  revert s n. induction xs as [|x xs IH]; intros s n Hwf; cbn [sadd_loop].
  - exists s. split; [f_equal; lia|done].
  - rewrite dict_get_correct by done. destruct (dict_abs s !! x) as [[]|] eqn:Ex; cbn [is_some].
    + destruct (IH s n Hwf) as (s' & -> & Hwf' & Ha'). exists s'. split; [done|]. split; [done|].
      rewrite Ha'. unfold add_all. cbn [foldl]. by rewrite insert_id.
    + destruct (dict_set_correct s x tt Hwf) as (Hwf1 & Ha1 & _).
      destruct (IH (dict_set s x tt).2 (n + 1) Hwf1) as (s' & -> & Hwf' & Ha').
      exists s'. split; [|split; [done|by rewrite Ha', Ha1]]. f_equal.
      rewrite Ha1, map_size_insert_None by done. lia.
Qed.

Lemma sadd_ok : refines cmd_sadd (det s_sadd).
Proof.
  apply refines_det. intros t m c cmd s Hne HR. unfold cmd_sadd, s_sadd, on_set.
  destruct cmd as [|a0 [|k [|x xs]]]; cmd_simpl; [done|wp_finish..|].
  wp_steps; [|obj_cases; wp_steps; try wp_done]; rewrite Hk; unfold set_or_new; wp_steps.
  - destruct (dict_create_spec (V:=unit) r) as [Hwf Ha].
    destruct (sadd_loop_spec (dict_create r) 0 (cstr x :: (cstr <$> xs)) Hwf) as (s2 & Hrun & Hwf2 & Ha2).
    unfold robj_new_set at 1. cbn [as_set o_ptr]. wp_steps. rewrite Hrun. rewrite Ha in *. wp_steps.
    rewrite <- Ha2. wp_finish.
  - match goal with H : dict_wf ?d |- _ =>
      destruct (sadd_loop_spec d 0 (cstr x :: (cstr <$> xs)) H) as (s2 & -> & Hwf2 & Ha2) end.
    rewrite <- Ha2. wp_finish.
Qed.

Lemma srem_ok : refines cmd_srem (det s_srem).
Proof.
  apply refines_det. intros t m c cmd s Hne HR. unfold cmd_srem, s_srem, on_set.
  destruct cmd as [|a0 [|k [|x xs]]]; cmd_simpl; [done|wp_finish..|].
  wp_finish. match goal with H : dict_wf ?d |- _ =>
    destruct (hdel_loop_spec d 0 (cstr x :: (cstr <$> xs)) H) as (s2 & -> & Hwf2 & Ha2) end.
  rewrite Hk, <- Ha2. wp_finish.
Qed.

Lemma sismember_ok : refines cmd_sismember (det s_sismember).
Proof.
  cmd_start cmd_sismember s_sismember; unfold on_set; wp_finish. by rewrite dict_get_correct.
Qed.

Lemma scard_ok : refines cmd_scard (det s_scard).
Proof. cmd_start cmd_scard s_scard; unfold on_set; wp_finish. by rewrite <- dict_size_correct. Qed.

(** Replying with the keys of a dictionary lists its domain. *)
Lemma wp_reply_keys t m c s (d : dict unit) (P : bytes → Prop) :
  Rep t m (push c (fmt_array (Z.of_nat (dict_size d)))) s → dict_wf d →
  (∀ x, P x ↔ is_Some (dict_abs d !! x)) →
  wp (forM (dict_entries d) (λ e, reply_bulk (e_key e)))
     (λ _ s', ∃ r, lists_exactly P r ∧ Rep t m (deliver c r) s') s.
Proof.
  intros HR Hwf HP.
  eapply (wp_forM_reply _ _ _ (λ e, fmt_bulk (e_key e))); [done|intros; wp_finish|].
  intros s2 HR2. exists (RArray (map RBulk (e_key <$> dict_entries d))). split.
  - eexists. split; [done|]. split; [by apply dict_entries_nodup|]. intros x. rewrite HP.
    rewrite list_elem_of_fmap. split.
    + intros (e & -> & He). apply elem_of_dict_entries in He; eauto.
    + intros [v Hv]. destruct (dict_abs_entries d x v Hv) as (e & He & <- & _). eauto.
  - rewrite push_push in HR2. eapply Rep_eq; [done..|]. cbn [deliver rv_bytes]. do 2 f_equal.
    + f_equal. rewrite length_map, length_fmap, (dict_entries_length _ Hwf). done.
    + clear. by induction (dict_entries d) as [|e es IH]; cbn [map concat fmap list_fmap rv_bytes]; [|rewrite IH].
Qed.

Lemma wrong_singleton m k :
  match m !! k with None | Some (Aobj (VSet _) _) => False | _ => True end → Exists (wrong_type m) [k].
Proof. intros H. constructor. exact H. Qed.

Lemma smembers_ok : refines cmd_smembers s_smembers.
Proof.
  intros t m c cmd s Hne HR. unfold cmd_smembers, s_smembers.
  destruct cmd as [|a0 [|k [|a2 cmd]]]; cmd_simpl; [done|by eapply refines_wrong| |by eapply refines_wrong].
  unfold s_select_members. wp_steps; [|obj_cases; wp_steps].
  - exists m, (RArray []). split; [|wp_done]. split; [done|]. right.
    split; [rewrite Forall_singleton; unfold wrong_type; rewrite Hk; tauto|].
    exists []. split; [done|]. split; [constructor|]. intros x. rewrite Forall_singleton. unfold members.
    rewrite Hk. set_solver.
  - exists m, RWrongType. split; [|done]. split; [done|]. left. by split; [apply wrong_singleton; rewrite Hk|].
  - exists m, RWrongType. split; [|done]. split; [done|]. left. by split; [apply wrong_singleton; rewrite Hk|].
  - exists m, RWrongType. split; [|done]. split; [done|]. left. by split; [apply wrong_singleton; rewrite Hk|].
  - eapply wp_mono.
    + eapply (wp_reply_keys _ _ _ _ _ (λ x, Forall (λ k, x ∈ members m k) [cstr k])); [done..|].
      intros x. rewrite Forall_singleton. unfold members. rewrite Hk. apply elem_of_dom.
    + intros [] s2 (r & Hr & HR2). exists m, r. split; [|done]. split; [done|]. right.
      split; [|done]. rewrite Forall_singleton. unfold wrong_type. rewrite Hk. tauto.
  - exists m, RWrongType. split; [|done]. split; [done|]. left. by split; [apply wrong_singleton; rewrite Hk|].
Qed.

(** *** SINTER, SUNION and SDIFF *)

(** The set pointer the arguments loop computes for a key. *)
Definition handle (m : keyspace) (k : bytes) : option bytes :=
  if is_some (m !! k) then Some k else None.

Lemma wp_set_arg_get t m c s k (Q : option (option bytes) → state → Prop) :
  Rep t m c s →
  (wrong_type m k → ∀ s', Rep t m (push c fmt_wrongtype) s' → Q None s') →
  (¬ wrong_type m k → ∀ s', Rep t m c s' → Q (Some (handle m k)) s') →
  wp (set_arg_get k) Q s.
Proof.
  intros HR Hw Hok. unfold set_arg_get, handle, wrong_type in *.
  wp_steps; [|obj_cases; wp_steps]; rewrite Hk in *; auto.
Qed.

Lemma wp_set_args t m c ks s (Q : option (list (option bytes)) → state → Prop) :
  Rep t m c s →
  (Exists (wrong_type m) ks → ∀ s', Rep t m (push c fmt_wrongtype) s' → Q None s') →
  (Forall (λ k, ¬ wrong_type m k) ks → ∀ s', Rep t m c s' → Q (Some (handle m <$> ks)) s') →
  wp (set_args ks) Q s.
Proof.
  revert s Q. induction ks as [|k ks IH]; intros s Q HR Hw Hok; cbn [set_args].
  - wp_steps. by apply Hok.
  - apply wp_bind. eapply wp_set_arg_get; [done|..].
    + intros Hk s' HR'. wp_steps. apply Hw; [by left|done].
    + intros Hk s' HR'. apply wp_bind. eapply IH; [done|..].
      * intros Hks s2 HR2. wp_steps. apply Hw; [by right|done].
      * intros Hks s2 HR2. wp_steps. apply Hok; [by constructor|done].
Qed.

(** A key that holds a set. *)
Definition holds_set (m : keyspace) (k : bytes) : Prop := is_Some (m !! k) ∧ ¬ wrong_type m k.

Lemma wp_deref_set t m c s k (Q : dict unit → state → Prop) :
  Rep t m c s → holds_set m k →
  (∀ d, dict_wf d → (∀ x, x ∈ members m k ↔ is_Some (dict_abs d !! x)) → Q d s) →
  wp (deref_set k) Q s.
Proof.
  intros HR [[a Ha] Hw] HQ. unfold deref_set. apply wp_bind. unfold wp at 1, store_get, gets.
  pose proof HR as (_ & _ & ks & Hks & Hv). pose proof (db_rep_lookup _ _ k Hks) as Hl.
  assert (ks !! k = Some a) as Hka by (rewrite <- Hv in Ha; by apply visible_lookup in Ha as [? _]).
  rewrite Hka in Hl. inversion Hl as [o a' Ho Eo Ea|]; subst a'. clear Hl.
  unfold wrong_type in Hw. unfold members in HQ. rewrite Ha in *. obj_cases; try done.
  eapply wp_lift; [done|]. apply HQ; [done|]. intros x. apply elem_of_dom.
Qed.

Lemma wp_smallest_set t m c s best hs (Q : bytes → state → Prop) :
  Rep t m c s → holds_set m best → Forall (holds_set m) hs →
  (∀ h, h = best ∨ h ∈ hs → Q h s) →
  wp (smallest_set best hs) Q s.
Proof.
  intros HR Hb Hhs. revert best Hb Q. induction Hhs as [|h hs Hh Hhs IH]; intros best Hb Q HQ;
    cbn [smallest_set].
  - wp_steps. apply HQ. by left.
  - apply wp_bind. eapply wp_deref_set; [done..|]. intros d _ _. apply wp_bind.
    eapply wp_deref_set; [done..|]. intros b _ _. apply IH; [by case_if|].
    intros h' Hh'. apply HQ. rewrite elem_of_cons. destruct Hh' as [->|]; [case_if; auto|auto].
Qed.

(** Membership tests over several sets. *)
Definition inter_test (m : keyspace) (smallest : bytes) (hs : list bytes) (f : bytes) : bool :=
  forallb (λ h, bool_decide (h = smallest) || bool_decide (f ∈ members m h)) hs.

Lemma bool_decide_found (d : dict unit) f (P : Prop) `{Decision P} :
  dict_wf d → (P ↔ is_Some (dict_abs d !! f)) → is_some (dict_get d f) = bool_decide P.
Proof.
  intros Hwf HP. rewrite dict_get_correct by done.
  destruct (dict_abs d !! f); simpl; symmetry.
  - apply bool_decide_eq_true, HP. eauto.
  - apply bool_decide_eq_false. rewrite HP. apply is_Some_None.
Qed.

Lemma wp_in_all t m c s smallest f hs (Q : bool → state → Prop) :
  Rep t m c s → Forall (holds_set m) hs →
  Q (inter_test m smallest hs f) s →
  wp (in_all smallest f hs) Q s.
Proof.
  intros HR Hhs. induction Hhs as [|h hs Hh Hhs IH]; intros HQ; cbn [in_all inter_test forallb] in *.
  - by wp_steps.
  - case_bool_decide; [by apply IH|]. apply wp_bind. eapply wp_deref_set; [done..|].
    intros d Hwf Hd. rewrite (bool_decide_found d f (f ∈ members m h)) by done.
    cbn [orb] in HQ. destruct (bool_decide (f ∈ members m h)); [by apply IH|by wp_steps].
Qed.

Definition diff_test (m : keyspace) (ks : list bytes) (f : bytes) : bool :=
  forallb (λ k, negb (bool_decide (f ∈ members m k))) ks.

Lemma wp_in_no_other t m c s f ks (Q : bool → state → Prop) :
  Rep t m c s → Forall (λ k, ¬ wrong_type m k) ks →
  Q (diff_test m ks f) s →
  wp (in_no_other f (handle m <$> ks)) Q s.
Proof.
  intros HR Hks. induction Hks as [|k ks Hk Hks IH]; intros HQ; cbn [diff_test forallb] in *.
  - by wp_steps.
  - cbn [fmap list_fmap]. unfold handle at 1. destruct (m !! k) as [a|] eqn:Ek; cbn [is_some in_no_other].
    + apply wp_bind. eapply wp_deref_set; [done|by split; [rewrite Ek|]|].
      intros d Hwf Hd. rewrite (bool_decide_found d f (f ∈ members m k)) by done.
      destruct (bool_decide (f ∈ members m k)); [by wp_steps|by apply IH].
    + apply IH. rewrite bool_decide_eq_false_2 in HQ; [done|]. unfold members. rewrite Ek. set_solver.
Qed.

Lemma wp_reply_filtered t m c s h (test : bytes → M bool) (p : bytes → bool) (P : bytes → Prop) :
  Rep t m c s → holds_set m h →
  (∀ f c s (Q : bool → state → Prop), Rep t m c s → Q (p f) s → wp (test f) Q s) →
  (∀ x, P x ↔ x ∈ members m h ∧ p x = true) →
  wp (reply_filtered h test) (λ _ s', ∃ r, lists_exactly P r ∧ Rep t m (deliver c r) s') s.
Proof.
  intros HR Hh Ht HP. unfold reply_filtered. apply wp_bind. eapply wp_deref_set; [done..|].
  intros d Hwf Hd. apply wp_bind.
  eapply (wp_foldM_pure _ _ _ (λ n (e : entry unit), if decide (p (e_key e) = true) then n + 1 else n));
    [done| |].
  { intros n e s' _ HR'. wp_steps. eapply Ht; [done|]. wp_steps. by destruct (p (e_key e)). }
  intros s1 HR1. rewrite (foldl_count (λ e : entry unit, p (e_key e) = true)) by done. wp_steps.
  eapply (wp_forM_reply _ _ _ (λ e, if p (e_key e) then fmt_bulk (e_key e) else [])); [done| |].
  { intros e c' s2 _ HR2. wp_steps. eapply Ht; [done|]. destruct (p (e_key e)); wp_finish.
    destruct c'; unfold push; simpl. by rewrite app_nil_r. }
  intros s2 HR2.
  exists (RArray (map RBulk (e_key <$> filter (λ e : entry unit, p (e_key e) = true) (dict_entries d)))).
  split.
  - eexists. split; [done|]. split; [by apply NoDup_fmap_filter, dict_entries_nodup|].
    intros x. rewrite HP, Hd, list_elem_of_fmap. split.
    + intros (e & -> & [Hp He]%list_elem_of_filter). apply elem_of_dict_entries in He; eauto.
    + intros [[v Hv] Hp]. destruct (dict_abs_entries d x v Hv) as (e & He & <- & _).
      exists e. split; [done|]. by apply list_elem_of_filter.
  - rewrite push_push in HR2. eapply Rep_eq; [done..|]. cbn [deliver rv_bytes]. do 2 f_equal.
    + f_equal. rewrite length_map, length_fmap. unfold zlen. lia.
    + clear. induction (dict_entries d) as [|e es IH]; [done|]. cbn [map concat]. rewrite filter_cons, IH.
      destruct (p (e_key e)); cbn [fmap list_fmap map concat rv_bytes]; done.
Qed.

Lemma all_present_spec m ks :
  Forall (λ k, ¬ wrong_type m k) ks →
  match all_present (handle m <$> ks) with
  | Some hs => hs = ks ∧ Forall (holds_set m) ks
  | None => ∃ k, k ∈ ks ∧ m !! k = None
  end.
Proof.
  induction 1 as [|k ks Hk Hks IH]; cbn [fmap list_fmap all_present]; [done|].
  unfold handle at 1. destruct (m !! k) as [a|] eqn:Ek; cbn [is_some all_present].
  - destruct (all_present _) as [hs|]; cbn [mbind option_bind].
    + destruct IH as [-> ?]. split; [done|]. constructor; [|done]. split; [rewrite Ek|]; eauto.
    + destruct IH as (k' & ? & ?). exists k'. split; [by right|done].
  - exists k. split; [by left|done].
Qed.

Lemma wp_select_wrong t m c s ks (P : bytes → Prop) :
  Exists (wrong_type m) ks → Rep t m (push c fmt_wrongtype) s →
  ∃ m' r, (m' = m ∧ (Exists (wrong_type m) ks ∧ r = RWrongType ∨
       Forall (λ k, ¬ wrong_type m k) ks ∧ lists_exactly P r)) ∧ Rep t m' (deliver c r) s.
Proof. intros. exists m, RWrongType. eauto. Qed.

Lemma wp_select_right t m c s ks (P : bytes → Prop) (f : M unit) :
  Forall (λ k, ¬ wrong_type m k) ks →
  wp f (λ _ s', ∃ r, lists_exactly P r ∧ Rep t m (deliver c r) s') s →
  wp f (λ _ s', ∃ m' r, (m' = m ∧ (Exists (wrong_type m) ks ∧ r = RWrongType ∨
       Forall (λ k, ¬ wrong_type m k) ks ∧ lists_exactly P r)) ∧ Rep t m' (deliver c r) s') s.
Proof. intros Hks Hf. eapply wp_mono; [exact Hf|]. intros [] s' (r & ? & ?). exists m, r. eauto. Qed.

Lemma wp_reply_none t m c s (P : bytes → Prop) :
  Rep t m c s → (∀ x, ¬ P x) →
  wp (reply_array_header 0) (λ _ s', ∃ r, lists_exactly P r ∧ Rep t m (deliver c r) s') s.
Proof.
  intros HR HP. wp_steps. exists (RArray []). split; [|wp_done]. exists [].
  split; [done|]. split; [constructor|]. intros x. pose proof (HP x). set_solver.
Qed.

Lemma sinter_ok : refines cmd_sinter s_sinter.
Proof.
  intros t m c cmd s Hne HR. unfold cmd_sinter, s_sinter, s_select_members.
  destruct cmd as [|a0 [|k0 ks]]; cmd_simpl; [done|by eapply refines_wrong|].
  change (cstr k0 :: (cstr <$> ks)) with (cstr <$> k0 :: ks). set (all := cstr <$> k0 :: ks).
  apply wp_bind. eapply wp_set_args; [done|..]; intros Hks s1 HR1; [wp_steps; by apply wp_select_wrong|].
  apply wp_select_right; [done|]. pose proof (all_present_spec m all Hks) as Hp.
  destruct (all_present _) as [hs|].
  - destruct Hp as [-> Hh]. subst all. cbn [fmap list_fmap] in *. wp_steps. inversion Hh; subst.
    eapply wp_smallest_set; [done..|]. intros h Hin.
    assert (Hin' : h ∈ cstr k0 :: (cstr <$> ks)) by (rewrite elem_of_cons; tauto).
    eapply (wp_reply_filtered _ _ _ _ _ _ (inter_test m h (cstr k0 :: (cstr <$> ks)))); [done|..].
    + rewrite Forall_forall in Hh. by apply Hh.
    + intros f c' s' Q HR' HQ. by eapply wp_in_all.
    + intros x. unfold inter_test. rewrite <- Is_true_true, forallb_True, !Forall_forall.
      setoid_rewrite orb_True. setoid_rewrite bool_decide_spec. split.
      * intros Hx. split; [by apply Hx|]. intros k Hk. right. by apply Hx.
      * intros [Hx Hall] k Hk. by destruct (Hall k Hk) as [->|].
  - destruct Hp as (k & Hk & Hn). apply wp_reply_none; [done|]. intros x. rewrite Forall_forall.
    intros Hall. specialize (Hall k Hk). unfold members in Hall. rewrite Hn in Hall. set_solver.
Qed.

Lemma sdiff_ok : refines cmd_sdiff s_sdiff.
Proof.
  intros t m c cmd s Hne HR. unfold cmd_sdiff, s_sdiff, s_select_members.
  destruct cmd as [|a0 [|k0 ks]]; cmd_simpl; [done|by eapply refines_wrong|].
  apply wp_bind. eapply wp_set_args; [done|..]; intros Hks s1 HR1; [wp_steps; by apply wp_select_wrong|].
  apply wp_select_right; [done|]. cbn [fmap list_fmap hd tl drop]. wp_steps.
  apply Forall_cons in Hks as [Hk0 Hks]. unfold handle at 1.
  destruct (m !! cstr k0) as [a|] eqn:E0; cbn [is_some].
  - eapply (wp_reply_filtered _ _ _ _ _ _ (diff_test m (cstr <$> ks))); [done|..].
    + split; [rewrite E0|]; eauto.
    + intros f c' s' Q HR' HQ. by eapply wp_in_no_other.
    + intros x. unfold diff_test. rewrite <- Is_true_true, forallb_True, !Forall_forall.
      setoid_rewrite negb_True. setoid_rewrite bool_decide_spec. done.
  - apply wp_reply_none; [done|]. intros x [Hx _]. unfold members in Hx. rewrite E0 in Hx. set_solver.
Qed.

Lemma add_members_spec es u :
  dict_wf u →
  dict_wf (add_members u es) ∧
  ∀ x, is_Some (dict_abs (add_members u es) !! x) ↔ is_Some (dict_abs u !! x) ∨ x ∈ e_key <$> es.
Proof.
  revert u. induction es as [|e es IH]; intros u Hwf.
  - split; [done|]. intros x. set_solver.
  - destruct (dict_set_correct u (e_key e) tt Hwf) as (Hwf1 & Ha1 & _).
    destruct (IH _ Hwf1) as [Hwf2 Hm]. split; [done|]. intros x.
    change (add_members u (e :: es)) with (add_members (dict_set u (e_key e) tt).2 es).
    rewrite Hm, Ha1, lookup_insert_is_Some, fmap_cons, elem_of_cons. destruct (decide (e_key e = x)); naive_solver.
Qed.

Lemma wp_sunion_loop t m c ks u s (Q : option (dict unit) → state → Prop) :
  Rep t m c s → dict_wf u →
  (Exists (wrong_type m) ks → ∀ s', Rep t m (push c fmt_wrongtype) s' → Q None s') →
  (Forall (λ k, ¬ wrong_type m k) ks → ∀ u' s', Rep t m c s' → dict_wf u' →
     (∀ x, is_Some (dict_abs u' !! x) ↔ is_Some (dict_abs u !! x) ∨ Exists (λ k, x ∈ members m k) ks) →
     Q (Some u') s') →
  wp (sunion_loop ks u) Q s.
Proof.
  revert u s Q. induction ks as [|k ks IH]; intros u s Q HR Hwf Hw Hok; cbn [sunion_loop].
  - wp_steps. apply Hok; [constructor|done..|]. intros x. rewrite Exists_nil. tauto.
  - apply wp_bind. eapply wp_set_arg_get; [done|..].
    + intros Hk s1 HR1. wp_steps. apply Hw; [by left|done].
    + intros Hk s1 HR1. unfold handle. destruct (m !! k) as [a|] eqn:Ek; cbn [is_some].
      * apply wp_bind. eapply wp_deref_set; [done|by split; [rewrite Ek|]|]. intros d Hd Hdm.
        destruct (add_members_spec (dict_entries d) u Hwf) as [Hwf1 Hm1].
        eapply IH; [done..|intros; apply Hw; [by right|done]|].
        intros Hks u' s2 HR2 Hwf2 Hu'. apply Hok; [by constructor|done..|]. intros x.
        rewrite Hu', Hm1, Exists_cons, Hdm.
        enough (x ∈ e_key <$> dict_entries d ↔ is_Some (dict_abs d !! x)) by tauto.
        rewrite list_elem_of_fmap. split.
        -- intros (e & -> & He). apply elem_of_dict_entries in He; eauto.
        -- intros [v Hv]. destruct (dict_abs_entries d x v Hv) as (e & He & <- & _). eauto.
      * eapply IH; [done..|intros; apply Hw; [by right|done]|].
        intros Hks u' s2 HR2 Hwf2 Hu'. apply Hok; [by constructor|done..|]. intros x.
        rewrite Hu', Exists_cons. unfold members at 2. rewrite Ek. set_solver.
Qed.

Lemma sunion_ok : refines cmd_sunion s_sunion.
Proof.
  intros t m c cmd s Hne HR. unfold cmd_sunion, s_sunion, s_select_members.
  destruct cmd as [|a0 [|k0 ks]]; cmd_simpl; [done|by eapply refines_wrong|].
  wp_steps. destruct (dict_create_spec (V:=unit) r) as [Hwf Ha].
  eapply wp_sunion_loop; [done..| |]; intros Hks; [intros s1 HR1; wp_steps; by apply wp_select_wrong|].
  intros u s1 HR1 Hu Hm. apply wp_select_right; [done|]. wp_steps. eapply wp_reply_keys; [done..|].
  intros x. rewrite Hm, Ha, lookup_empty, is_Some_alt. tauto.
Qed.

(** *** SPOP *)

Lemma random_entry_spec (s : dict unit) r :
  dict_wf s →
  match dict_random_entry s r with
  | Some e => is_Some (dict_abs s !! e_key e)
  | None => dict_abs s = ∅
  end.
Proof.
  intros Hwf. destruct (decide (used s = 0%nat)) as [E|E].
  - pose proof (dict_size_correct s Hwf) as Hs. unfold dict_size in Hs. rewrite E in Hs.
    unfold dict_random_entry. rewrite E. by apply map_size_empty_inv.
  - destruct (dict_random_entry_spec s r Hwf E) as (e & -> & He).
    apply elem_of_dict_entries in He; eauto.
Qed.

Lemma wp_spop_loop t m n s c st (Q : dict unit → state → Prop) :
  Rep t m c st → dict_wf s → (n <= base.size (dict_abs s))%nat →
  (∀ s' l st', dict_wf s' → NoDup l → (∀ x, x ∈ l → is_Some (dict_abs s !! x)) →
     length l = n → dict_abs s' = delete_all (dict_abs s) l →
     Rep t m (push c (concat (map rv_bytes (map RBulk l)))) st' → Q s' st') →
  wp (spop_loop n s) Q st.
Proof.
  revert s c st Q. induction n as [|n IH]; intros s c st Q HR Hwf Hn HQ; cbn [spop_loop].
  - wp_steps. apply (HQ s []); [done|constructor|set_solver|done|done|]. eapply Rep_eq; [done..|].
    destruct c. unfold push. simpl. by rewrite app_nil_r.
  - apply wp_bind. eapply wp_rands; [done|]. intros r s1 HR1.
    pose proof (random_entry_spec s r Hwf) as Hr. destruct (dict_random_entry s r) as [e|].
    2:{ rewrite Hr, map_size_empty in Hn. lia. }
    wp_steps. destruct (dict_delete_correct s (e_key e) Hwf) as (Hwf1 & Ha1 & _).
    destruct Hr as [v Hv].
    eapply IH; [done..| |].
    { rewrite Ha1, map_size_delete, Hv. simpl. lia. }
    intros sx l s2 Hwf2 Hnd Hin Hlen Ha2 HR2. rewrite Ha1 in *.
    apply (HQ sx (e_key e :: l)); [done| |..].
    + constructor; [|done]. intros Hl. apply Hin in Hl. rewrite lookup_delete_eq in Hl.
      by apply is_Some_None in Hl.
    + intros x [->|Hx]%elem_of_cons; [eauto|]. apply Hin, lookup_delete_is_Some in Hx as [_ Hx]. done.
    + simpl. by rewrite Hlen.
    + done.
    + rewrite push_push in HR2. done.
Qed.

Lemma wp_spop_count t m c s k count :
  Rep t m c s → 0 <= count →
  wp (spop_count k count) (λ _ s', ∃ m' r, s_spop_count m k count m' r ∧ Rep t m' (deliver c r) s') s.
Proof.
  intros HR Hc. unfold spop_count, s_spop_count. wp_steps; [|obj_cases; wp_steps]; rewrite Hk.
  1: case_if; wp_steps; eexists m, _; (split; [done|]); wp_done.
  1-3,5: exists m, RWrongType; done.
  match goal with H : dict_wf ?d |- _ => rename d into ss; rename H into Hwf end.
  destruct (count =? 1) eqn:E; bool_prop.
  - subst count. apply wp_bind. eapply wp_rands; [done|]. intros r s1 HR1.
    pose proof (random_entry_spec ss r Hwf) as Hr. destruct (dict_random_entry ss r) as [e|].
    + destruct Hr as [v Hv]. wp_steps. eexists _, (RBulk (e_key e)). split; [|wp_done].
      exists [e_key e]. split; [apply NoDup_singleton|]. split; [set_solver|]. split; [|done].
      assert (base.size (dict_abs ss) ≠ 0%nat) by (apply map_size_ne_0_lookup; eauto).
      unfold zlen. simpl. lia.
    + wp_steps. exists m, RNull. split; [|wp_done]. exists []. rewrite Hr, map_size_empty.
      split; [constructor|]. split; [set_solver|]. done.
  - set (n := if count <? _ then _ else _).
    assert (n = Z.min count (Z.of_nat (base.size (dict_abs ss)))) as Hn.
    { subst n. rewrite dict_size_correct by done. case_if; bool_prop; lia. }
    wp_steps. eapply wp_spop_loop; [done..|lia|].
    intros sx l s2 Hwf' Hnd Hin Hlen Ha HR2. wp_steps. eexists _, (RArray (map RBulk l)). split.
    { exists l. split; [done|]. split; [done|]. split; [unfold zlen; lia|done]. }
    rewrite push_push in *. wp_done; [by rewrite <- Ha|]. cbn [deliver rv_bytes].
    rewrite length_map, Hlen, Z2Nat.id by lia. done.
Qed.

Lemma spop_ok : refines cmd_spop s_spop.
Proof.
  intros t m c cmd s Hne HR. unfold cmd_spop.
  destruct cmd as [|a0 [|k [|a [|a3 cmd]]]]; cmd_simpl; [done|by eapply refines_wrong|..|by eapply refines_wrong].
  - wp_steps. by apply wp_spop_count.
  - wp_steps. unfold s_spop. cbn [fmap list_fmap]. destruct (string_to_ll _) as [n|]; [case_if|].
    + wp_steps. eexists m, _. eauto.
    + apply wp_spop_count; [done|]. bool_prop. lia.
    + wp_steps. eexists m, _. eauto.
Qed.
