(* ===== verification/DbZset.v ===== *)
(** * Sorted-set commands ([src/db.c])

    ZADD to ZCOUNT on the skiplist and its member index, and the operations on
    ascending sequences of entries they refine. *)

From Stdlib Require Import Floats.SpecFloat.
From S2P Require Import Prelude Util Dict CList Zskiplist Zorder Zlinks Zrep Zset Double Object Machine DbCore.
Import Num.

(** ** Handlers *)

Definition reply_double (d : double) : M unit := reply_bulk_cstr (fmt_g17 d).

(** [s != s] *)
Definition is_nan (d : double) : bool := match d with S754_nan => true | _ => false end.

(** [o->ptr] used as a sorted set. *)
Definition as_zset (o : robj) : option zset := match o_ptr o with OBJ_ZSET z => Some z | _ => None end.

(** [if (!o) { o = robj_new_zset(); dict_set(store->d, key, o); }] *)
Definition zset_or_new (k : bytes) (o : option robj) : M robj :=
  match o with
  | Some o => mret o
  | None =>
      r ← random_seed;
      _ ← store_set k (robj_new_zset r);
      mret (robj_new_zset r)
  end.

Definition bad_float : bytes := bs "value is not a valid float".
Definition bad_sum : bytes := bs "resulting score is not a number (NaN)".
Definition syntax_error : bytes := bs "syntax error".

Record zadd_flags := ZaddFlags { f_nx : bool; f_xx : bool; f_ch : bool; f_incr : bool }.

(** The leading options of ZADD, and the arguments after them. *)
Fixpoint zadd_options (f : zadd_flags) (args : list bytes) : zadd_flags * list bytes :=
  match args with
  | [] => (f, [])
  | a :: rest =>
      if strcaseeq a (bs "NX") then zadd_options (ZaddFlags true (f_xx f) (f_ch f) (f_incr f)) rest
      else if strcaseeq a (bs "XX") then zadd_options (ZaddFlags (f_nx f) true (f_ch f) (f_incr f)) rest
      else if strcaseeq a (bs "CH") then zadd_options (ZaddFlags (f_nx f) (f_xx f) true (f_incr f)) rest
      else if strcaseeq a (bs "INCR") then zadd_options (ZaddFlags (f_nx f) (f_xx f) (f_ch f) true) rest
      else (f, args)
  end.

(** [existing ? existing->score + score : score] *)
Definition bumped (existing : option double) (score : double) : double :=
  match existing with Some e => dadd e score | None => score end.

(** How the loop over score-member pairs ends: one of its early returns, or the
    counts of added and changed members. *)
Inductive zadd_end :=
| ZBadFloat
| ZSkipped
| ZBadSum
| ZScoreIs (s : double)
| ZCounts (added changed : Z).

Fixpoint zadd_loop (f : zadd_flags) (z : zset) (added changed : Z) (ps : list (bytes * bytes)) : M (zset * zadd_end) :=
  match ps with
  | [] => mret (z, ZCounts added changed)
  | (a, member) :: ps =>
      match parse_double a with
      | None => mret (z, ZBadFloat)
      | Some score =>
          existing ← lift (zset_score z member);
          if f_incr f then
            if (f_nx f && is_some existing) || (f_xx f && negb (is_some existing)) then mret (z, ZSkipped)
            else
              let s := bumped existing score in
              if is_nan s then mret (z, ZBadSum)
              else '(_, z) ← zset_insert z s member; mret (z, ZScoreIs s)
          else if f_nx f && is_some existing then zadd_loop f z added changed ps
          else if f_xx f && negb (is_some existing) then zadd_loop f z added changed ps
          else
            '(res, z) ← zset_insert z score member;
            zadd_loop f z (if res =? 1 then added + 1 else added) (if res =? 2 then changed + 1 else changed) ps
      end
  end.

Definition cmd_zadd (cmd : command) : M unit :=
  if (argc cmd <? 4)%nat then reply_error (wrong_args (bs "zadd")) else
  let '(f, rest) := zadd_options (ZaddFlags false false false false) (args_from cmd 2) in
  if f_nx f && f_xx f then reply_error syntax_error else
  if (length rest =? 0)%nat || Nat.odd (length rest) then reply_error syntax_error else
  if f_incr f && negb (length rest =? 2)%nat
  then reply_error (bs "INCR option supports a single increment-element pair") else
  k ← arg cmd 1;
  o ← lookup_key k;
  if type_differs o T_ZSET then reply_wrongtype else
  if negb (is_some o) && f_xx f then reply_integer 0 else
  o ← zset_or_new k o;
  z ← lift (as_zset o);
  '(z, res) ← zadd_loop f z 0 0 (pair_up rest);
  _ ← store_poke k (with_ptr o (OBJ_ZSET z));
  match res with
  | ZBadFloat => reply_error bad_float
  | ZSkipped => reply_null
  | ZBadSum => reply_error bad_sum
  | ZScoreIs s => reply_double s
  | ZCounts added changed => reply_integer (if f_ch f then added + changed else added)
  end.

Definition cmd_zcard (cmd : command) : M unit :=
  if negb (argc cmd =? 2)%nat then reply_error (wrong_args (bs "zcard")) else
  k ← arg cmd 1;
  o ← lookup_key k;
  if type_differs o T_ZSET then reply_wrongtype else
  match o with
  | None => reply_integer 0
  | Some o => z ← lift (as_zset o); reply_integer (zset_len z)
  end.

Definition cmd_zscore (cmd : command) : M unit :=
  if negb (argc cmd =? 3)%nat then reply_error (wrong_args (bs "zscore")) else
  k ← arg cmd 1;
  o ← lookup_key k;
  if type_differs o T_ZSET then reply_wrongtype else
  match o with
  | None => reply_null
  | Some o =>
      z ← lift (as_zset o);
      member ← arg cmd 2;
      d ← lift (zset_score z member);
      match d with None => reply_null | Some d => reply_double d end
  end.

(** The removals of ZREM, and how many members there were. *)
Fixpoint zrem_loop (z : zset) (removed : Z) (ms : list bytes) : option (zset * Z) :=
  match ms with
  | [] => Some (z, removed)
  | m :: ms => '(b, z) ← zset_remove z m; zrem_loop z (if (b : bool) then removed + 1 else removed) ms
  end.

Definition cmd_zrem (cmd : command) : M unit :=
  if (argc cmd <? 3)%nat then reply_error (wrong_args (bs "zrem")) else
  k ← arg cmd 1;
  o ← lookup_key k;
  if type_differs o T_ZSET then reply_wrongtype else
  match o with
  | None => reply_integer 0
  | Some o =>
      z ← lift (as_zset o);
      '(z, removed) ← lift (zrem_loop z 0 (args_from cmd 2));
      _ ← store_poke k (with_ptr o (OBJ_ZSET z));
      _ ← reply_integer removed;
      maybe_delete_key k (with_ptr o (OBJ_ZSET z))
  end.

(** The node a pointer points to, and its successor in the direction of travel. *)
Definition node_at (z : zset) (x : ptr) : option zskiplist_node := l ← x; zsl_nodes (zs_zsl z) !! l.
Definition next_node (reverse : bool) (n : zskiplist_node) : option ptr :=
  if reverse then Some (z_backward n) else lv_forward <$> z_levels n !! 0%nat.

Definition reply_node (withscores : bool) (n : zskiplist_node) : M unit :=
  _ ← reply_bulk (z_member n);
  if withscores then reply_double (z_score n) else mret tt.

(** [n] nodes from [x] on. *)
Fixpoint reply_run (n : nat) (reverse withscores : bool) (z : zset) (x : ptr) : M unit :=
  match n with
  | O => mret tt
  | S n =>
      nd ← lift (node_at z x);
      _ ← reply_node withscores nd;
      y ← lift (next_node reverse nd);
      reply_run n reverse withscores z y
  end.

Definition zrange_common (reverse : bool) (cmd : command) : M unit :=
  a0 ← arg cmd 0;
  if negb (argc cmd =? 4)%nat && negb (argc cmd =? 5)%nat then reply_error (wrong_args a0) else
  bad ← (if (argc cmd =? 5)%nat then a ← arg cmd 4; mret (negb (strcaseeq a (bs "WITHSCORES"))) else mret false);
  if (bad : bool) then reply_error syntax_error else
  let withscores := (argc cmd =? 5)%nat in
  a2 ← arg cmd 2;
  a3 ← arg cmd 3;
  match string_to_ll a2, string_to_ll a3 with
  | Some start, Some stop =>
      k ← arg cmd 1;
      o ← lookup_key k;
      if type_differs o T_ZSET then reply_wrongtype else
      match o with
      | None => reply_array_header 0
      | Some o =>
          z ← lift (as_zset o);
          let length := zset_len z in
          match range_normalize length start stop with
          | None => reply_array_header 0
          | Some (start, stop) =>
              let n := stop - start + 1 in
              _ ← reply_array_header (if withscores then n * 2 else n);
              x ← lift (zsl_get_element_by_rank (zs_zsl z) (if reverse then length - start else start + 1));
              reply_run (Z.to_nat n) reverse withscores z x
          end
      end
  | _, _ => reply_error not_integer
  end.

Definition cmd_zrange : command → M unit := zrange_common false.
Definition cmd_zrevrange : command → M unit := zrange_common true.

(** [WITHSCORES] and [LIMIT offset count] after the bounds: the options, or the
    error text. *)
Definition zrange_options (args : list bytes) : bytes + (bool * Z * Z) :=
  let '(withscores, args) :=
    match args with
    | a :: rest => if strcaseeq a (bs "WITHSCORES") then (true, rest) else (false, args)
    | [] => (false, [])
    end in
  match args with
  | [] => inr (withscores, 0, -1)
  | a :: rest =>
      if strcaseeq a (bs "LIMIT") then
        match rest with
        | a1 :: a2 :: rest =>
            match string_to_ll a1, string_to_ll a2 with
            | Some offset, Some limit =>
                if (offset <? 0) || (limit <? 0)
                then inl (bs "LIMIT offset and count must be non-negative integers")
                else match rest with [] => inr (withscores, offset, limit) | _ => inl syntax_error end
            | _, _ => inl (bs "LIMIT offset and count must be non-negative integers")
            end
        | _ => inl syntax_error
        end
      else inl syntax_error
  end.

(** The first and last node of a score range with their ranks; [None] when the
    range is empty. *)
Definition range_nodes (z : zset) (min max : double) (minex maxex : bool) : option (option (ptr * ptr * Z * Z)) :=
  first ← zsl_first_in_score_range (zs_zsl z) min minex;
  last ← zsl_last_in_score_range (zs_zsl z) max maxex;
  match first, last with
  | Some _, Some _ =>
      nf ← node_at z first;
      nl ← node_at z last;
      rfirst ← zsl_get_rank (zs_zsl z) (z_score nf) (z_member nf);
      rlast ← zsl_get_rank (zs_zsl z) (z_score nl) (z_member nl);
      Some (if (rfirst =? 0) || (rlast =? 0) || (rfirst >? rlast) then None else Some (first, last, rfirst, rlast))
  | _, _ => Some None
  end.

(** [while (skip > 0)]; the walk stops at [last], so the number of nodes is enough
    fuel. *)
Fixpoint skip_nodes (fuel : nat) (z : zset) (x last : ptr) (skip : Z) : option ptr :=
  if skip >? 0 then
    match fuel with
    | O => None
    | S fuel =>
        if decide (x = last) then Some None
        else n ← node_at z x; y ← next_node false n; skip_nodes fuel z y last (skip - 1)
    end
  else Some x.

(** [for (j = 0; j < emit && x; j++)], stopping after [last]. *)
Fixpoint emit_nodes (fuel : nat) (withscores : bool) (z : zset) (x last : ptr) (emit : Z) : M unit :=
  if emit >? 0 then
    match x with
    | None => mret tt
    | Some _ =>
        match fuel with
        | O => ub
        | S fuel =>
            n ← lift (node_at z x);
            _ ← reply_node withscores n;
            if decide (x = last) then mret tt
            else y ← lift (next_node false n); emit_nodes fuel withscores z y last (emit - 1)
        end
    end
  else mret tt.

Definition node_fuel (z : zset) : nat := S (Z.to_nat (zset_len z)).

Definition bad_bounds : bytes := bs "min or max is not a float".

Definition cmd_zrangebyscore (cmd : command) : M unit :=
  if (argc cmd <? 4)%nat then reply_error (wrong_args (bs "zrangebyscore")) else
  a2 ← arg cmd 2;
  a3 ← arg cmd 3;
  match parse_score_arg a2, parse_score_arg a3 with
  | Some (min, minex), Some (max, maxex) =>
      match zrange_options (args_from cmd 4) with
      | inl e => reply_error e
      | inr (withscores, offset, limit) =>
          k ← arg cmd 1;
          o ← lookup_key k;
          if type_differs o T_ZSET then reply_wrongtype else
          match o with
          | None => reply_array_header 0
          | Some o =>
              z ← lift (as_zset o);
              r ← lift (range_nodes z min max minex maxex);
              match r with
              | None => reply_array_header 0
              | Some (first, last, rfirst, rlast) =>
                  let total := rlast - rfirst + 1 in
                  x ← lift (skip_nodes (node_fuel z) z first last offset);
                  let emit := if limit <? 0 then total - offset else limit in
                  let emit := if emit <? 0 then 0 else emit in
                  let emit := if emit >? total - offset then total - offset else emit in
                  _ ← reply_array_header (wrapu64 (if withscores then emit * 2 else emit));
                  emit_nodes (node_fuel z) withscores z x last emit
              end
          end
      end
  | _, _ => reply_error bad_bounds
  end.

(** ZRANK and ZREVRANK; [index] turns the rank of the node into the answer. *)
Definition rank_command (name : bytes) (index : zset → Z → Z) (cmd : command) : M unit :=
  if negb (argc cmd =? 3)%nat then reply_error (wrong_args name) else
  k ← arg cmd 1;
  o ← lookup_key k;
  if type_differs o T_ZSET then reply_wrongtype else
  match o with
  | None => reply_null
  | Some o =>
      z ← lift (as_zset o);
      member ← arg cmd 2;
      match dict_get (zs_dict z) member with
      | None => reply_null
      | Some x =>
          n ← lift (zsl_nodes (zs_zsl z) !! x);
          rank ← lift (zsl_get_rank (zs_zsl z) (z_score n) (z_member n));
          reply_integer (index z rank)
      end
  end.

Definition cmd_zrank : command → M unit := rank_command (bs "zrank") (λ _ rank, rank - 1).
Definition cmd_zrevrank : command → M unit := rank_command (bs "zrevrank") (λ z rank, zset_len z - rank).

Definition cmd_zincrby (cmd : command) : M unit :=
  if negb (argc cmd =? 4)%nat then reply_error (wrong_args (bs "zincrby")) else
  a2 ← arg cmd 2;
  match parse_double a2 with
  | None => reply_error bad_float
  | Some inc =>
      k ← arg cmd 1;
      o ← lookup_key k;
      if type_differs o T_ZSET then reply_wrongtype else
      o ← zset_or_new k o;
      z ← lift (as_zset o);
      member ← arg cmd 3;
      existing ← lift (zset_score z member);
      let s := bumped existing inc in
      if is_nan s then reply_error bad_sum
      else
        '(_, z) ← zset_insert z s member;
        _ ← store_poke k (with_ptr o (OBJ_ZSET z));
        reply_double s
  end.

Definition cmd_zcount (cmd : command) : M unit :=
  if negb (argc cmd =? 4)%nat then reply_error (wrong_args (bs "zcount")) else
  a2 ← arg cmd 2;
  a3 ← arg cmd 3;
  match parse_score_arg a2, parse_score_arg a3 with
  | Some (min, minex), Some (max, maxex) =>
      k ← arg cmd 1;
      o ← lookup_key k;
      if type_differs o T_ZSET then reply_wrongtype else
      match o with
      | None => reply_integer 0
      | Some o =>
          z ← lift (as_zset o);
          r ← lift (range_nodes z min max minex maxex);
          match r with
          | None => reply_integer 0
          | Some (_, _, rfirst, rlast) => reply_integer (rlast - rfirst + 1)
          end
      end
  | _, _ => reply_error bad_bounds
  end.

(** ** Abstract commands *)

Definition on_zset (m : keyspace) (k : bytes) (absent : keyspace * rv)
    (present : list zentry → Z → keyspace * rv) : keyspace * rv :=
  match m !! k with
  | None => absent
  | Some (Aobj (VZset xs) e) => present xs e
  | Some _ => (m, RWrongType)
  end.

Definition on_zset_new (m : keyspace) (k : bytes) (f : list zentry → Z → keyspace * rv) : keyspace * rv :=
  on_zset m k (f [] (-1)) f.

(** The pairs of ZADD, one after the other: an early answer, or the counts. *)
Fixpoint zadd_all (f : zadd_flags) (xs : list zentry) (added changed : Z) (ps : list (bytes * bytes)) :
    list zentry * zadd_end :=
  match ps with
  | [] => (xs, ZCounts added changed)
  | (a, member) :: ps =>
      match parse_double a with
      | None => (xs, ZBadFloat)
      | Some score =>
          let existing := zscore xs member in
          if f_incr f then
            if (f_nx f && is_some existing) || (f_xx f && negb (is_some existing)) then (xs, ZSkipped)
            else if is_nan (bumped existing score) then (xs, ZBadSum)
            else ((zadd xs (bumped existing score) member).2, ZScoreIs (bumped existing score))
          else if (f_nx f && is_some existing) || (f_xx f && negb (is_some existing)) then zadd_all f xs added changed ps
          else
            let '(res, xs) := zadd xs score member in
            zadd_all f xs (if res =? 1 then added + 1 else added) (if res =? 2 then changed + 1 else changed) ps
      end
  end.

Definition zadd_pairs (m : keyspace) (k : bytes) (f : zadd_flags) (rest : list bytes) (xs : list zentry) (e : Z) :
    keyspace * rv :=
  let '(xs, res) := zadd_all f xs 0 0 (pair_up rest) in
  (<[k := Aobj (VZset xs) e]> m,
   match res with
   | ZBadFloat => RError bad_float
   | ZSkipped => RNull
   | ZBadSum => RError bad_sum
   | ZScoreIs s => RBulk (fmt_g17 s)
   | ZCounts added changed => RInt (if f_ch f then added + changed else added)
   end).

Definition s_zadd (t : Z) (m : keyspace) (args : list bytes) : keyspace * rv :=
  match args with
  | _ :: k :: ((_ :: _ :: _) as opts) =>
      let '(f, rest) := zadd_options (ZaddFlags false false false false) opts in
      if f_nx f && f_xx f then (m, RError syntax_error) else
      if (length rest =? 0)%nat || Nat.odd (length rest) then (m, RError syntax_error) else
      if f_incr f && negb (length rest =? 2)%nat
      then (m, RError (bs "INCR option supports a single increment-element pair")) else
      on_zset m k (if f_xx f then (m, RInt 0) else zadd_pairs m k f rest [] (-1)) (zadd_pairs m k f rest)
  | _ => s_wrong (bs "zadd") m
  end.

Definition s_zcard (t : Z) (m : keyspace) (args : list bytes) : keyspace * rv :=
  match args with
  | [_; k] => on_zset m k (m, RInt 0) (λ xs _, (m, RInt (zlen xs)))
  | _ => s_wrong (bs "zcard") m
  end.

Definition s_zscore (t : Z) (m : keyspace) (args : list bytes) : keyspace * rv :=
  match args with
  | [_; k; member] =>
      on_zset m k (m, RNull) (λ xs _, (m, match zscore xs member with Some d => RBulk (fmt_g17 d) | None => RNull end))
  | _ => s_wrong (bs "zscore") m
  end.

Definition s_zrem (t : Z) (m : keyspace) (args : list bytes) : keyspace * rv :=
  match args with
  | _ :: k :: (_ :: _) as ms =>
      on_zset m k (m, RInt 0) (λ xs e,
        let xs' := foldl (λ xs mem, without mem xs) xs ms in
        (settle m k (VZset xs') e, RInt (zlen xs - zlen xs')))
  | _ => s_wrong (bs "zrem") m
  end.

(** What a range command sends for an entry. *)
Definition zitem (withscores : bool) (e : zentry) : list rv :=
  RBulk e.2 :: if withscores then [RBulk (fmt_g17 e.1)] else [].
Definition zitems (withscores : bool) (xs : list zentry) : list rv := concat (map (zitem withscores) xs).

Definition s_zrange (rev : bool) (t : Z) (m : keyspace) (args : list bytes) : keyspace * rv :=
  let go k start stop withscores :=
    match string_to_ll start, string_to_ll stop with
    | Some start, Some stop =>
        on_zset m k (m, RArray []) (λ xs _,
          (m, RArray (zitems withscores (slice (if rev then reverse xs else xs) start stop))))
    | _, _ => (m, RError not_integer)
    end in
  match args with
  | [_; k; start; stop] => go k start stop false
  | [_; k; start; stop; opt] => if strcaseeq opt (bs "WITHSCORES") then go k start stop true else (m, RError syntax_error)
  | a0 :: _ => s_wrong a0 m
  | [] => (m, RNull)
  end.

(** The entries of a score range. *)
Definition score_range (xs : list zentry) (min max : double) (minex maxex : bool) : list zentry :=
  filter (λ e, below_min min minex e = false) (filter (λ e, within_max max maxex e = true) xs).

(** What the range sends from an offset on, at most [limit] entries (all of them when
    it is negative).  The length announced for an offset beyond the range wraps. *)
Definition limited (withscores : bool) (offset limit : Z) (es : list zentry) : rv :=
  if zlen es =? 0 then RArray []
  else
    let emit := Z.min (if limit <? 0 then zlen es - offset else limit) (zlen es - offset) in
    RHeaded (wrapu64 (if withscores then emit * 2 else emit))
            (zitems withscores (take (Z.to_nat emit) (drop (Z.to_nat offset) es))).

Definition s_zrangebyscore (t : Z) (m : keyspace) (args : list bytes) : keyspace * rv :=
  match args with
  | _ :: k :: a2 :: a3 :: opts =>
      match parse_score_arg a2, parse_score_arg a3 with
      | Some (min, minex), Some (max, maxex) =>
          match zrange_options opts with
          | inl e => (m, RError e)
          | inr (withscores, offset, limit) =>
              on_zset m k (m, RArray []) (λ xs _, (m, limited withscores offset limit (score_range xs min max minex maxex)))
          end
      | _, _ => (m, RError bad_bounds)
      end
  | _ => s_wrong (bs "zrangebyscore") m
  end.

(** The position of a member in the sequence. *)
Definition position_of (xs : list zentry) (member : bytes) : option Z :=
  (λ r, Z.of_nat r.1) <$> list_find (λ y, y.2 = member) xs.

Definition s_zrank (name : bytes) (rev : bool) (t : Z) (m : keyspace) (args : list bytes) : keyspace * rv :=
  match args with
  | [_; k; member] =>
      on_zset m k (m, RNull) (λ xs _,
        (m, match position_of xs member with
            | Some p => RInt (if rev then zlen xs - 1 - p else p)
            | None => RNull
            end))
  | _ => s_wrong name m
  end.

Definition s_zincrby (t : Z) (m : keyspace) (args : list bytes) : keyspace * rv :=
  match args with
  | [_; k; a; member] =>
      match parse_double a with
      | None => (m, RError bad_float)
      | Some inc =>
          on_zset_new m k (λ xs e,
            let s := bumped (zscore xs member) inc in
            if is_nan s then (m, RError bad_sum)
            else (<[k := Aobj (VZset (zadd xs s member).2) e]> m, RBulk (fmt_g17 s)))
      end
  | _ => s_wrong (bs "zincrby") m
  end.

Definition s_zcount (t : Z) (m : keyspace) (args : list bytes) : keyspace * rv :=
  match args with
  | [_; k; a2; a3] =>
      match parse_score_arg a2, parse_score_arg a3 with
      | Some (min, minex), Some (max, maxex) =>
          on_zset m k (m, RInt 0) (λ xs _, (m, RInt (zlen (score_range xs min max minex maxex))))
      | _, _ => (m, RError bad_bounds)
      end
  | _ => s_wrong (bs "zcount") m
  end.

(** ** Walks over the nodes *)

(** From [x], the nodes in the direction of travel store the entries [es]. *)
Fixpoint run_of (rev : bool) (z : zset) (x : ptr) (es : list zentry) : Prop :=
  match es with
  | [] => True
  | e :: es =>
      ∃ n y, node_at z x = Some n ∧ (z_score n, z_member n) = e ∧ next_node rev n = Some y ∧ run_of rev z y es
  end.

Section Walks.
Context {z : zset} {ps hs xs} (HR : zsl_rep (zs_zsl z) ps hs (header_entry :: xs)).

Lemma node_at_pos p : (p < length xs)%nat →
  ∃ n, node_at z (ps !! S p) = Some n ∧ xs !! p = Some (z_score n, z_member n) ∧
    next_node false n = Some (ps !! S (S p)) ∧ z_backward n = back ps (S p).
Proof.
  intros Hp. destruct (lookup_lt_is_Some_2 ps (S p)) as [x Hx]; [rewrite (ps_length HR); lia|].
  destruct (entry_at HR p x Hx) as (e & n & He & Hn & Hne). exists n.
  destruct (next_after HR (S p) (lookup_lt_Some _ _ _ Hx) x Hx) as [Hg Hnext].
  destruct (zr_pos HR (S p) (lookup_lt_Some _ _ _ Hx)) as (? & h & e' & ? & Hh & He').
  pose proof (zr_fields _ _ _ _ HR _ _ _ _ Hx Hh He') as Hf. rewrite Hn in Hf. injection Hf as _ Hb _.
  unfold node_at. rewrite Hx. cbn [mbind option_bind]. split; [done|]. split; [congruence|]. split; [|done].
  unfold get_level in Hg. rewrite Hn in Hg. cbn [mbind option_bind] in Hg. unfold next_node. by rewrite Hg, <- Hnext.
Qed.

Lemma run_forward n p : (p + n <= length xs)%nat → run_of false z (ps !! S p) (take n (drop p xs)).
Proof.
  revert p. induction n as [|n IH]; intros p Hp; [done|].
  destruct (node_at_pos p) as (nd & Hn & He & Hnext & _); [lia|]. rewrite (drop_S xs _ p He). cbn [take run_of].
  exists nd, (ps !! S (S p)). do 3 (split; [done|]). apply IH. lia.
Qed.

Lemma run_backward n p : (p < length xs)%nat → (n <= S p)%nat →
  run_of true z (ps !! S p) (take n (drop (length xs - S p) (reverse xs))).
Proof.
  revert p. induction n as [|n IH]; intros p Hp Hn; [done|].
  destruct (node_at_pos p) as (nd & Hnode & He & _ & Hb); [lia|].
  assert (reverse xs !! (length xs - S p)%nat = Some (z_score nd, z_member nd)) as He'.
  { rewrite reverse_lookup by lia. by replace (length xs - S (length xs - S p))%nat with p by lia. }
  rewrite (drop_S _ _ _ He'). cbn [take run_of]. exists nd, (z_backward nd). do 3 (split; [done|]). rewrite Hb.
  destruct p as [|p]; [by replace n with 0%nat by lia|].
  replace (S (length xs - S (S p))) with (length xs - S p)%nat by lia. apply IH; lia.
Qed.

End Walks.

Lemma wp_reply_double t m c s d (Q : unit → state → Prop) :
  Rep t m c s → (∀ s', Rep t m (push c (fmt_bulk (fmt_g17 d))) s' → Q tt s') → wp (reply_double d) Q s.
Proof. intros HR HQ. unfold reply_double, reply_bulk_cstr. rewrite cstr_fmt_g17. by apply (wp_reply _ _ _ _ HR). Qed.

Lemma wp_reply_node t m c s withscores n (Q : unit → state → Prop) :
  Rep t m c s →
  (∀ s', Rep t m (push c (concat (map rv_bytes (zitem withscores (z_score n, z_member n))))) s' → Q tt s') →
  wp (reply_node withscores n) Q s.
Proof.
  intros HR HQ. unfold reply_node. apply wp_bind. unfold reply_bulk. apply (wp_reply _ _ _ _ HR). intros s1 H1.
  destruct withscores; [eapply wp_reply_double; [done|]; intros s2 H2; rewrite push_push in H2|apply wp_ret]; apply HQ.
  all: cbn; by rewrite app_nil_r.
Qed.

Lemma zitems_bytes withscores e es :
  concat (map rv_bytes (zitem withscores e)) ++ concat (map rv_bytes (zitems withscores es))
  = concat (map rv_bytes (zitems withscores (e :: es))).
Proof. unfold zitems. cbn [map concat]. by rewrite map_app, concat_app. Qed.

Lemma push_nil c : push c [] = c.
Proof. destruct c. unfold push. cbn. by rewrite app_nil_r. Qed.

Lemma wp_reply_run rev withscores z t m es c s x (Q : unit → state → Prop) :
  run_of rev z x es → Rep t m c s →
  (∀ s', Rep t m (push c (concat (map rv_bytes (zitems withscores es)))) s' → Q tt s') →
  wp (reply_run (length es) rev withscores z x) Q s.
Proof.
  revert x c s. induction es as [|e es IH]; intros x c s Hrun HR HQ; cbn [length reply_run].
  { apply wp_ret, HQ. cbn. by rewrite push_nil. }
  destruct Hrun as (n & y & Hn & Hne & Hy & Hrun). apply wp_bind. eapply wp_lift; [done|]. apply wp_bind.
  eapply wp_reply_node; [done|]. intros s1 H1. apply wp_bind. eapply wp_lift; [done|]. eapply IH; [done..|].
  intros s2 H2. apply HQ. rewrite push_push, Hne, zitems_bytes in H2. done.
Qed.

(** ** The handlers refine the abstract commands *)

Ltac zset_hyp Hz := match goal with H : zset_rep _ _ |- _ => rename H into Hz end.

Lemma zcard_ok : refines cmd_zcard (det s_zcard).
Proof.
  cmd_start cmd_zcard s_zcard; unfold on_zset; wp_finish. zset_hyp Hz. by rewrite (zset_len_spec _ _ Hz).
Qed.

Lemma zscore_ok : refines cmd_zscore (det s_zscore).
Proof.
  cmd_start cmd_zscore s_zscore; unfold on_zset; wp_finish. zset_hyp Hz.
  eapply wp_lift; [by apply zset_score_spec|]. rewrite Hk. destruct (zscore xs _) as [d|]; [|wp_finish].
  eapply wp_reply_double; [done|]. by intros.
Qed.

Lemma zrem_spec xs mem : zset_ok xs →
  (zrem xs mem).2 = without mem xs ∧ (if (zrem xs mem).1 then 1 else 0) = zlen xs - zlen (without mem xs).
Proof.
  intros [Hs Hn]. unfold zrem. destruct (zscore xs mem) as [d|] eqn:E; cbn [fst snd].
  - split; [done|]. unfold zscore in E. destruct (list_find _ xs) as [[p [d' mem']]|] eqn:Ef; [|done].
    apply list_find_Some in Ef as (Hp & Hm & _). cbn in Hm. subst mem'. rewrite (without_delete xs p d') by done.
    unfold zlen. rewrite length_delete by eauto. apply lookup_lt_Some in Hp. lia.
  - rewrite without_absent; [split; [done|lia]|]. intros [? ?]%zscore_elem. congruence.
Qed.

Lemma zrem_loop_spec z xs n ms :
  zset_rep z xs →
  let xs' := foldl (λ xs mem, without mem xs) xs ms in
  ∃ z', zrem_loop z n ms = Some (z', n + (zlen xs - zlen xs')) ∧ zset_rep z' xs'.
Proof.
  revert z xs n. induction ms as [|mem ms IH]; intros z xs n Hz; cbn [foldl zrem_loop].
  { exists z. split; [do 2 f_equal; lia|done]. }
  destruct (zset_remove_spec z xs mem Hz) as (z1 & -> & H1). cbn [mbind option_bind].
  destruct (zrem_spec xs mem) as [E1 E2]; [apply Hz|]. rewrite E1 in H1.
  destruct (IH z1 _ (if (zrem xs mem).1 then n + 1 else n) H1) as (z' & -> & Hz'). exists z'. split; [|done].
  do 2 f_equal. destruct (zrem xs mem).1; lia.
Qed.

Lemma zrem_ok : refines cmd_zrem (det s_zrem).
Proof.
  apply refines_det. intros t m c cmd s Hne HR. unfold cmd_zrem, s_zrem, on_zset.
  destruct cmd as [|a0 [|k [|f fs]]]; cmd_simpl; [done|wp_finish..|]. wp_finish. zset_hyp Hz.
  destruct (zrem_loop_spec z xs 0 (cstr f :: (cstr <$> fs)) Hz) as (z' & Hrun & Hz').
  eapply wp_lift; [exact Hrun|]. rewrite Hk. cbn [fst snd]. wp_finish.
Qed.

Lemma zitems_length withscores es : length (zitems withscores es) = (length es * if withscores then 2 else 1)%nat.
Proof.
  unfold zitems. induction es as [|e es IH]; [done|]. cbn [map concat]. rewrite length_app, IH. destruct withscores; cbn; lia.
Qed.

(** A walk behind its header is an array of the entries. *)
Lemma wp_headed_run (rev withscores : bool) z t m es c s x n (h : Z) (Q : unit → state → Prop) :
  run_of rev z x es → Rep t m (push c (fmt_array h)) s → n = length es → h = (if withscores then zlen es * 2 else zlen es) →
  (∀ s', Rep t m (push c (rv_bytes (RArray (zitems withscores es)))) s' → Q tt s') →
  wp (reply_run n rev withscores z x) Q s.
Proof.
  intros Hrun HR -> -> HQ. eapply wp_reply_run; [done..|]. intros s' HR'. apply HQ. rewrite push_push in HR'.
  cbn [rv_bytes]. rewrite zitems_length. replace (Z.of_nat _) with (if withscores then zlen es * 2 else zlen es); [done|].
  unfold zlen. destruct withscores; lia.
Qed.

Lemma zrange_core (rev withscores : bool) t m c s k (a b : Z) :
  Rep t m c s →
  wp (o ← lookup_key k;
      if type_differs o T_ZSET then reply_wrongtype else
      match o with
      | None => reply_array_header 0
      | Some o =>
          z ← lift (as_zset o);
          let length := zset_len z in
          match range_normalize length a b with
          | None => reply_array_header 0
          | Some (start, stop) =>
              let n := stop - start + 1 in
              _ ← reply_array_header (if withscores then n * 2 else n);
              x ← lift (zsl_get_element_by_rank (zs_zsl z) (if (rev : bool) then length - start else start + 1));
              reply_run (Z.to_nat n) rev withscores z x
          end
      end)
     (λ _ s', let r := on_zset m k (m, RArray []) (λ xs _,
          (m, RArray (zitems withscores (slice (if rev then reverse xs else xs) a b)))) in
        Rep t r.1 (deliver c r.2) s') s.
Proof.
  intros HR. unfold on_zset. wp_finish. zset_hyp Hz. rewrite (zset_len_spec _ _ Hz), Hk. cbn [fst snd deliver].
  pose proof Hz as (_ & _ & ps & hs & HRz & _).
  pose proof (range_normalize_slice (if rev then reverse xs else xs) a b) as Hr.
  replace (length (if rev then reverse xs else xs)) with (length xs) in Hr by (destruct rev; by rewrite ?length_reverse).
  destruct (range_normalize _ _ _) as [[lo hi]|]; [|rewrite Hr; wp_finish]. destruct Hr as (Hlo & Hhi & ->).
  wp_steps. rewrite (zsl_by_rank_spec HRz) by (destruct rev; lia).
  rewrite (proj2 (Z.eqb_neq _ _)) by (destruct rev; lia). eapply wp_lift; [done|].
  set (es := take _ _). assert (length es = Z.to_nat (hi - lo + 1)) as Hl.
  { unfold es. rewrite length_take, length_drop. destruct rev; rewrite ?length_reverse; lia. }
  eapply (wp_headed_run rev withscores _ t m es); [|done|done|unfold zlen; destruct withscores; lia|by intros].
  unfold es. destruct rev.
  - replace (Z.to_nat (Z.of_nat (length xs) - lo)) with (S (length xs - 1 - Z.to_nat lo)) by lia.
    replace (Z.to_nat lo) with (length xs - S (length xs - 1 - Z.to_nat lo))%nat at 2 by lia. apply (run_backward HRz); lia.
  - replace (Z.to_nat (lo + 1)) with (S (Z.to_nat lo)) by lia. apply (run_forward HRz). lia.
Qed.

Lemma zrange_ok rev : refines (zrange_common rev) (det (s_zrange rev)).
Proof.
  cmd_start zrange_common s_zrange; wp_finish.
  2: destruct cmd as [|a0 cmd]; cmd_simpl; [|wp_finish]; wp_steps.
  2: destruct (strcaseeq (cstr l3) (bs "WITHSCORES")); wp_finish.
  all: destruct (string_to_ll (cstr l1)) as [a|], (string_to_ll (cstr l2)) as [b|]; [|wp_finish..].
  all: apply wp_bind; (eapply wp_lift; [done|]).
  - by apply (zrange_core rev false).
  - by apply (zrange_core rev true).
Qed.

Lemma position_of_search xs s mem p :
  zset_ok xs → xs !! p = Some (s, mem) → position_of xs mem = Some (Z.of_nat p) ∧ zrank xs (s, mem) = Z.of_nat p + 1.
Proof.
  intros [Hs Hn] Hp. pose proof (sorted_valid _ _ _ Hs Hp) as Hv. split.
  - unfold position_of. rewrite (proj2 (list_find_Some _ xs p (s, mem))); [done|]. split; [done|]. split; [done|].
    intros j [s' mem'] Hj Hlt He. cbn in He. subst mem'. assert (j = p); [|lia].
    eapply (NoDup_lookup (xs.*2)); [done|..]; by rewrite list_lookup_fmap, ?Hj, ?Hp.
  - assert (same (s, mem) (s, mem) = true) as Hsame by (by apply same_eq). rewrite zrank_search by done.
    rewrite <- (zpos_same xs _ _ _ Hs Hv Hp Hsame), Hp. by rewrite Hsame.
Qed.

(** The index leads to the node of a member. *)
Lemma zset_node z xs mem :
  zset_rep z xs →
  match dict_get (zs_dict z) mem with
  | Some x => ∃ n p, zsl_nodes (zs_zsl z) !! x = Some n ∧ z_member n = mem ∧ xs !! p = Some (z_score n, mem)
  | None => mem ∉ xs.*2
  end.
Proof.
  intros (_ & Hw & ps & hs & HR & Hi). rewrite dict_get_correct, Hi by done. pose proof (ps_length HR) as Hl.
  destruct (index ps xs !! mem) as [x|] eqn:E; [|by eapply index_None].
  destruct (index_lookup _ _ _ _ Hl E) as (p & s & Hp & Hx). destruct (entry_at HR p x Hx) as (e & n & He & Hn & Hne).
  exists n, p. split; [done|]. assert ((z_score n, z_member n) = (s, mem)) as [= -> ->] by congruence. done.
Qed.

Lemma rank_ok name (rev : bool) (index : zset → Z → Z) :
  (∀ z xs (p : Z), zset_rep z xs → index z (p + 1) = if rev then zlen xs - 1 - p else p) →
  refines (rank_command name index) (det (s_zrank name rev)).
Proof.
  intros Hidx. cmd_start rank_command s_zrank; unfold on_zset; wp_finish. zset_hyp Hz. rewrite Hk.
  pose proof Hz as (Hok & _ & ps & hs & HRz & _).
  pose proof (zset_node z xs (cstr l1) Hz) as Hn. destruct (dict_get (zs_dict z) (cstr l1)) as [x|].
  - destruct Hn as (n & p & Hn & Hm & Hp). destruct (position_of_search _ _ _ _ Hok Hp) as [Hpos Hr].
    wp_steps. eapply wp_lift; [done|]. wp_steps. eapply wp_lift.
    { rewrite Hm. apply (zsl_get_rank_spec HRz (proj1 Hok)). exact (sorted_valid _ _ _ (proj1 Hok) Hp). }
    rewrite Hr, Hpos, (Hidx _ _ _ Hz). wp_finish.
  - unfold position_of. rewrite (proj2 (list_find_None _ xs)); [wp_finish|].
    rewrite Forall_forall. intros y Hy He. apply Hn. rewrite <- He. by apply list_elem_of_fmap_2.
Qed.

Lemma zrank_ok : refines cmd_zrank (det (s_zrank (bs "zrank") false)).
Proof. apply rank_ok. intros. lia. Qed.
Lemma zrevrank_ok : refines cmd_zrevrank (det (s_zrank (bs "zrevrank") true)).
Proof. apply rank_ok. intros z xs p Hz. rewrite (zset_len_spec z xs Hz). unfold zlen. lia. Qed.

(** After [zset_or_new] the key holds a sorted set: the visible one, or a fresh
    one. *)
Definition zset_at (m : keyspace) (k : bytes) (xs : list zentry) (e : Z) : Prop :=
  m !! k = None ∧ xs = [] ∧ e = -1 ∨ m !! k = Some (Aobj (VZset xs) e).

Lemma on_zset_at m k xs e f : zset_at m k xs e → on_zset_new m k f = f xs e.
Proof. unfold on_zset_new, on_zset. intros [(-> & -> & ->)| ->]; done. Qed.

Lemma wp_zset_or_new t m c s k o (Q : robj → state → Prop) :
  Rep t m c s →
  match o with
  | None => m !! k = None
  | Some o => ∃ z xs e, o = Robj (OBJ_ZSET z) e ∧ m !! k = Some (Aobj (VZset xs) e) ∧ zset_rep z xs ∧ in_ll e
  end →
  (∀ z xs e s', zset_rep z xs → zset_at m k xs e → obj_rep (Robj (OBJ_ZSET z) e) (Aobj (VZset xs) e) →
     Rep t (<[k := Aobj (VZset xs) e]> m) c s' → Q (Robj (OBJ_ZSET z) e) s') →
  wp (zset_or_new k o) Q s.
Proof.
  intros HR Ho HQ. unfold zset_or_new. destruct o as [o|].
  - destruct Ho as (z & xs & e & -> & Hk & Hz & He). wp_steps.
    apply (HQ z xs e); [done|by right|split; [by constructor|done]|]. by rewrite insert_id.
  - wp_steps. unfold robj_new_zset. apply (HQ _ [] (-1)); [apply zset_create_rep|by left|apply obj_rep_new_zset|done].
Qed.

Lemma is_nan_false d : d ≠ S754_nan → not_nan d = true.
Proof. by destruct d. Qed.

Lemma is_nan_not d : is_nan d = negb (not_nan d).
Proof. by destruct d. Qed.

Lemma wp_insert_rep t m c s z xs score mem (Q : Z * zset → state → Prop) :
  Rep t m c s → zset_rep z xs → not_nan score = true →
  (∀ z' s', zset_rep z' (zadd xs score mem).2 → Rep t m c s' → Q ((zadd xs score mem).1, z') s') →
  wp (zset_insert z score mem) Q s.
Proof.
  intros HR Hz Hv HQ. eapply wp_mono; [by apply wp_zset_insert|]. intros r s' (z' & -> & Hz' & Hd).
  apply HQ; [done|]. by eapply Rep_drew.
Qed.

Lemma zincrby_ok : refines cmd_zincrby (det s_zincrby).
Proof.
  cmd_start cmd_zincrby s_zincrby; wp_steps; try wp_done.
  destruct (parse_double (cstr l1)) as [inc|] eqn:Ep; [|wp_finish].
  wp_steps; [|obj_cases; wp_steps; try (unfold on_zset_new, on_zset; wp_done)].
  all: eapply wp_zset_or_new; [eassumption|first [eassumption|solve [eauto 10]]|]; intros zz ys ee s3 Hz Hat Hob HR3;
    rewrite !(on_zset_at _ _ _ _ _ Hat); wp_steps.
  all: eapply wp_lift; [by apply zset_score_spec|]; rewrite is_nan_not;
    destruct (not_nan (bumped (zscore ys (cstr l2)) inc)) eqn:Ev; cbn [negb fst snd].
  all: try (apply wp_bind; eapply wp_insert_rep; [done..|]; intros z' s4 Hz' HR4; wp_steps;
    eapply wp_reply_double; [done|]; intros; wp_done).
  all: wp_steps; wp_done; destruct Hat as [(_ & -> & _)|Hat]; [|by rewrite insert_id].
  all: apply parse_double_number, is_nan_false in Ep; cbn in Ev; congruence.
Qed.

(** ** ZADD *)

Lemma wp_zadd_loop f t m c z xs added changed ps s :
  Rep t m c s → zset_rep z xs →
  wp (zadd_loop f z added changed ps) (λ r s', ∃ z', r = (z', (zadd_all f xs added changed ps).2) ∧ Rep t m c s' ∧
    zset_rep z' (zadd_all f xs added changed ps).1) s.
Proof.
  revert z xs added changed s. induction ps as [|[a mem] ps IH]; intros z xs added changed s HR Hz; cbn [zadd_loop zadd_all].
  { apply wp_ret. by exists z. }
  destruct (parse_double a) as [score|] eqn:Ep; [|apply wp_ret; by exists z].
  apply parse_double_number, is_nan_false in Ep. apply wp_bind. eapply wp_lift; [by apply zset_score_spec|].
  destruct (f_incr f).
  - destruct (_ || _); [apply wp_ret; by exists z|]. rewrite is_nan_not.
    destruct (not_nan (bumped _ _)) eqn:Ev; cbn [negb]; [|apply wp_ret; by exists z].
    apply wp_bind. eapply wp_insert_rep; [done..|]. intros z' s' Hz' HR'. apply wp_ret. by exists z'.
  - destruct (f_nx f && is_some (zscore xs mem)); cbn [orb]; [by apply IH|].
    destruct (f_xx f && negb (is_some (zscore xs mem))); [by apply IH|].
    apply wp_bind. eapply wp_insert_rep; [done..|]. intros z' s' Hz' HR'.
    destruct (zadd xs score mem) as [res ys]. by apply IH.
Qed.

Lemma zadd_core t m c s k f rest o :
  Rep t m c s →
  match o with
  | None => m !! k = None
  | Some o => ∃ z xs e, o = Robj (OBJ_ZSET z) e ∧ m !! k = Some (Aobj (VZset xs) e) ∧ zset_rep z xs ∧ in_ll e
  end →
  wp (o ← zset_or_new k o;
      z ← lift (as_zset o);
      '(z, res) ← zadd_loop f z 0 0 (pair_up rest);
      _ ← store_poke k (with_ptr o (OBJ_ZSET z));
      match res with
      | ZBadFloat => reply_error bad_float
      | ZSkipped => reply_null
      | ZBadSum => reply_error bad_sum
      | ZScoreIs s => reply_double s
      | ZCounts added changed => reply_integer (if f_ch f then added + changed else added)
      end)
     (λ _ s', let r := on_zset_new m k (zadd_pairs m k f rest) in Rep t r.1 (deliver c r.2) s') s.
Proof.
  intros HR Ho. apply wp_bind. eapply wp_zset_or_new; [done..|]. intros z xs e s1 Hz Hat Hob HR1.
  rewrite (on_zset_at _ _ _ _ _ Hat). wp_steps. eapply wp_mono; [by apply wp_zadd_loop|].
  intros r s2 (z' & -> & HR2 & Hz'). unfold zadd_pairs. destruct (zadd_all f xs 0 0 (pair_up rest)) as [xs' res].
  cbn [fst snd] in *. wp_steps. destruct res; try (wp_finish; done). by eapply wp_reply_double.
Qed.

Lemma zadd_ok : refines cmd_zadd (det s_zadd).
Proof.
  apply refines_det. intros t m c cmd s Hne HR. unfold cmd_zadd, s_zadd.
  destruct cmd as [|a0 [|k [|a1 [|a2 rest]]]]; cmd_simpl; [done|wp_finish..|]. clear Hne.
  destruct (zadd_options _ _) as [f ps]. destruct (f_nx f && f_xx f); [wp_finish|].
  destruct (_ || _); [wp_finish|]. destruct (f_incr f && _); [wp_finish|].
  wp_step. wp_step. wp_step. wp_step.
  - wp_reduce. cbn [is_some negb andb]. unfold on_zset. rewrite Hk. destruct (f_xx f); [wp_finish|].
    eapply wp_mono; [by apply zadd_core|]. intros u s2. unfold on_zset_new, on_zset. by rewrite Hk.
  - unfold on_zset. rewrite Hk. obj_cases; wp_reduce; try (wp_steps; wp_done). cbn [is_some negb andb].
    eapply wp_mono; [apply zadd_core; [done|by eauto 10]|]. intros u s2. unfold on_zset_new, on_zset. by rewrite Hk.
Qed.

(** ** Score ranges *)

Lemma zpos_take f n xs : zpos f (take n xs) = Nat.min n (zpos f xs).
Proof.
  revert n. induction xs as [|x xs IH]; intros [|n]; cbn [take zpos]; try lia. rewrite IH. destruct (f x); lia.
Qed.

Lemma score_range_slice xs min max minex maxex :
  sorted xs → not_nan min = true → not_nan max = true →
  score_range xs min max minex maxex =
  drop (zpos (below_min min minex) xs) (take (zpos (within_max max maxex) xs) xs).
Proof.
  intros Hs Hmin Hmax. unfold score_range.
  destruct (filter_downward (within_max max maxex) xs (downward_score _ _ Hmax) Hs) as [-> _].
  assert (sorted (take (zpos (within_max max maxex) xs) xs)) as Hs'.
  { destruct Hs as [Hs Hv]. split; [|by apply Forall_take]. clear -Hs. revert Hs. generalize (zpos (within_max max maxex) xs).
    intros n. revert n. induction xs as [|x xs IH]; intros [|n] Hs; cbn; try constructor; inversion Hs; subst; [by apply IH|].
    by apply Forall_take. }
  destruct (filter_downward (below_min min minex) _ (downward_score _ _ Hmin) Hs') as [_ ->]. rewrite zpos_take.
  destruct (decide (zpos (below_min min minex) xs <= zpos (within_max max maxex) xs)%nat) as [Hle|Hle].
  - by rewrite Nat.min_r by done.
  - rewrite !drop_ge; [done|rewrite length_take; lia..].
Qed.

Section Range.
Context {z : zset} {xs ps hs} (HR : zsl_rep (zs_zsl z) ps hs (header_entry :: xs)) (Hok : zset_ok xs).

Lemma pos_inj p q : (p < length xs)%nat → (q < length xs)%nat → ps !! S p = ps !! S q → p = q.
Proof.
  intros Hp Hq He. destruct (lookup_lt_is_Some_2 ps (S p)) as [x Hx]; [rewrite (ps_length HR); lia|].
  rewrite Hx in He. symmetry in He. pose proof (NoDup_lookup _ _ _ _ (zr_nodup _ _ _ _ HR) Hx He). lia.
Qed.

Lemma pos_rank p n :
  xs !! p = Some (z_score n, z_member n) →
  zsl_get_rank (zs_zsl z) (z_score n) (z_member n) = Some (Z.of_nat p + 1).
Proof.
  intros Hp. rewrite (zsl_get_rank_spec HR (proj1 Hok)) by exact (sorted_valid _ _ _ (proj1 Hok) Hp).
  by destruct (position_of_search _ _ _ _ Hok Hp) as [_ ->].
Qed.

Lemma range_nodes_spec min max minex maxex :
  not_nan min = true → not_nan max = true →
  let p := zpos (below_min min minex) xs in
  let q := zpos (within_max max maxex) xs in
  range_nodes z min max minex maxex =
  Some (if (p <? q)%nat then Some (ps !! S p, ps !! q, Z.of_nat p + 1, Z.of_nat q) else None).
Proof.
  intros Hmin Hmax p q. unfold range_nodes. rewrite (zsl_first_spec HR (proj1 Hok)) by done.
  cbn [mbind option_bind]. rewrite (zsl_last_spec HR (proj1 Hok)) by done. cbn [mbind option_bind]. fold p q.
  pose proof (zpos_le (below_min min minex) xs) as Hp. pose proof (zpos_le (within_max max maxex) xs) as Hq.
  fold p in Hp. fold q in Hq. clearbody p q. destruct (decide (p < length xs)%nat) as [Hpl|Hpl].
  2: { rewrite (lookup_ge_None_2 ps (S p)) by (rewrite (ps_length HR); lia).
       rewrite (proj2 (Nat.ltb_ge _ _)) by lia. done. }
  destruct (node_at_pos HR p Hpl) as (nf & Hnf & Hef & _ & _). destruct (ps !! S p) as [x|] eqn:Ex; [|done]. rewrite <- Ex in *.
  destruct q as [|q]; [done|]. destruct (node_at_pos HR q) as (nl & Hnl & Hel & _ & _); [lia|].
  destruct (ps !! S q) as [y|] eqn:Ey; [|done]. rewrite <- Ey in *.
  rewrite Hnf. cbn [mbind option_bind]. rewrite Hnl. cbn [mbind option_bind]. rewrite (pos_rank p nf Hef). cbn [mbind option_bind].
  rewrite (pos_rank q nl Hel). cbn [mbind option_bind]. replace (Z.of_nat q + 1) with (Z.of_nat (S q)) by lia.
  rewrite (proj2 (Z.eqb_neq _ 0)), (proj2 (Z.eqb_neq (Z.of_nat (S q)) 0)) by lia. cbn [orb]. rewrite Z.gtb_ltb.
  destruct (Nat.ltb_spec p (S q)); [rewrite (proj2 (Z.ltb_ge _ _)) by lia; done|by rewrite (proj2 (Z.ltb_lt _ _)) by lia].
Qed.

Lemma skip_nodes_spec fuel p q k :
  (p <= q)%nat → (q < length xs)%nat → (q - p < fuel)%nat → 0 <= k →
  skip_nodes fuel z (ps !! S p) (ps !! S q) k =
  Some (if (Z.to_nat k <=? q - p)%nat then ps !! S (p + Z.to_nat k) else None).
Proof.
  revert p k. induction fuel as [|fuel IH]; intros p k Hp Hq Hf Hk; [lia|]. cbn [skip_nodes].
  destruct (Z.gtb_spec k 0) as [Hpos|Hzero].
  2: { replace k with 0 by lia. cbn. by rewrite Nat.add_0_r. }
  destruct (decide (ps !! S p = ps !! S q)) as [He|He].
  - apply pos_inj in He; [|lia..]. subst p. by rewrite (proj2 (Nat.leb_gt _ _)) by lia.
  - assert (p ≠ q) by (by intros ->). destruct (node_at_pos HR p) as (n & Hn & _ & Hnext & _); [lia|].
    rewrite Hn. cbn [mbind option_bind]. rewrite Hnext. cbn [mbind option_bind]. rewrite IH by lia.
    replace (S p + Z.to_nat (k - 1))%nat with (p + Z.to_nat k)%nat by lia.
    replace (Z.to_nat (k - 1) <=? q - S p)%nat with (Z.to_nat k <=? q - p)%nat; [done|].
    apply eq_true_iff_eq. rewrite !Nat.leb_le. lia.
Qed.

Lemma wp_emit_nodes withscores t m fuel p q k c s (Q : unit → state → Prop) :
  (p <= q)%nat → (q < length xs)%nat → (q - p < fuel)%nat → k <= Z.of_nat (q - p) + 1 → Rep t m c s →
  (∀ s', Rep t m (push c (concat (map rv_bytes (zitems withscores (take (Z.to_nat k) (drop p xs)))))) s' → Q tt s') →
  wp (emit_nodes fuel withscores z (ps !! S p) (ps !! S q) k) Q s.
Proof.
  revert p k c s. induction fuel as [|fuel IH]; intros p k c s Hp Hq Hf Hk HRep HQ; [lia|]. cbn [emit_nodes].
  destruct (Z.gtb_spec k 0) as [Hpos|Hzero].
  2: { apply wp_ret, HQ. replace (Z.to_nat k) with 0%nat by lia. cbn. by rewrite push_nil. }
  destruct (node_at_pos HR p) as (n & Hn & He & Hnext & _); [lia|]. destruct (ps !! S p) as [x|] eqn:Ex; [|done]. rewrite <- Ex.
  rewrite <- Ex in Hn. apply wp_bind. eapply wp_lift; [exact Hn|]. apply wp_bind. eapply wp_reply_node; [done|]. intros s1 H1.
  replace (Z.to_nat k) with (S (Z.to_nat (k - 1))) in HQ by lia. rewrite (drop_S xs _ p He) in HQ. cbn [take] in HQ.
  destruct (decide (ps !! S p = ps !! S q)) as [Heq|Heq].
  - apply pos_inj in Heq; [|lia..]. subst p. apply wp_ret, HQ. replace (Z.to_nat (k - 1)) with 0%nat by lia.
    rewrite <- zitems_bytes. cbn. by rewrite app_nil_r.
  - assert (p ≠ q) by (by intros ->). apply wp_bind. eapply wp_lift; [exact Hnext|]. eapply IH; [lia..|done|].
    intros s2 H2. apply HQ. by rewrite push_push, zitems_bytes in H2.
Qed.

End Range.

Lemma parsed_number s d ex : parse_score_arg s = Some (d, ex) → not_nan d = true.
Proof. intros H. by eapply is_nan_false, parse_score_arg_number. Qed.

Lemma score_range_length xs min max minex maxex :
  sorted xs → not_nan min = true → not_nan max = true →
  zlen (score_range xs min max minex maxex) =
  Z.of_nat (zpos (within_max max maxex) xs - zpos (below_min min minex) xs).
Proof.
  intros Hs Hmin Hmax. rewrite score_range_slice by done. unfold zlen. rewrite length_drop, length_take.
  pose proof (zpos_le (within_max max maxex) xs). lia.
Qed.

Lemma zcount_ok : refines cmd_zcount (det s_zcount).
Proof.
  cmd_start cmd_zcount s_zcount; wp_finish.
  destruct (parse_score_arg (cstr l1)) as [[min minex]|] eqn:E1; [|wp_finish]. apply parsed_number in E1.
  destruct (parse_score_arg (cstr l2)) as [[max maxex]|] eqn:E2; [|wp_finish]. apply parsed_number in E2.
  unfold on_zset. wp_finish. zset_hyp Hz. pose proof Hz as (Hok & _ & ps & hs & HRz & _). rewrite Hk.
  eapply wp_lift; [by apply (range_nodes_spec HRz Hok)|]. rewrite (score_range_length _ _ _ _ _ (proj1 Hok)) by done.
  destruct (Nat.ltb_spec (zpos (below_min min minex) xs) (zpos (within_max max maxex) xs)); wp_steps; wp_done; cbn [rv_bytes].
  all: do 2 f_equal; lia.
Qed.

Lemma zrangebyscore_core withscores offset limit min max minex maxex t m c s z xs :
  zset_rep z xs → not_nan min = true → not_nan max = true → 0 <= offset → Rep t m c s →
  wp (r ← lift (range_nodes z min max minex maxex);
      match r with
      | None => reply_array_header 0
      | Some (first, last, rfirst, rlast) =>
          let total := rlast - rfirst + 1 in
          x ← lift (skip_nodes (node_fuel z) z first last offset);
          let emit := if limit <? 0 then total - offset else limit in
          let emit := if emit <? 0 then 0 else emit in
          let emit := if emit >? total - offset then total - offset else emit in
          _ ← reply_array_header (wrapu64 (if withscores then emit * 2 else emit));
          emit_nodes (node_fuel z) withscores z x last emit
      end)
     (λ _ s', Rep t m (deliver c (limited withscores offset limit (score_range xs min max minex maxex))) s') s.
Proof.
  intros Hz Hmin Hmax Hoff HR. pose proof Hz as (Hok & _ & ps & hs & HRz & _). apply wp_bind.
  eapply wp_lift; [by apply (range_nodes_spec HRz Hok)|]. unfold limited.
  rewrite (score_range_length _ _ _ _ _ (proj1 Hok)), (score_range_slice _ _ _ _ _ (proj1 Hok)) by done.
  pose proof (zpos_le (within_max max maxex) xs) as Hq. set (p := zpos (below_min _ _) xs). set (q := zpos (within_max _ _) xs) in *.
  clearbody p q. destruct (Nat.ltb_spec p q) as [Hpq|Hpq].
  2: { rewrite (proj2 (Z.eqb_eq _ _)) by lia. wp_finish. }
  rewrite (proj2 (Z.eqb_neq _ _)) by lia. destruct q as [|q]; [lia|].
  replace (Z.of_nat (S q) - (Z.of_nat p + 1) + 1) with (Z.of_nat (S q - p)) by lia. set (total := Z.of_nat (S q - p)).
  assert (node_fuel z = S (length xs)) as Hfuel by (unfold node_fuel; rewrite (zset_len_spec z xs Hz); lia).
  apply wp_bind. eapply wp_lift; [apply (skip_nodes_spec HRz); lia|].
  set (emit0 := if limit <? 0 then total - offset else limit). cbv zeta.
  assert ((if (if emit0 <? 0 then 0 else emit0) >? total - offset then total - offset else (if emit0 <? 0 then 0 else emit0))
    = Z.min emit0 (total - offset)) as ->.
  { unfold emit0. rewrite !Z.gtb_ltb. destruct (Z.ltb_spec limit 0) as [Hl|Hl].
    - destruct (Z.ltb_spec (total - offset) 0); [destruct (Z.ltb_spec (total - offset) 0)|rewrite Z.ltb_irrefl]; lia.
    - rewrite (proj2 (Z.ltb_ge limit 0)) by lia. destruct (Z.ltb_spec (total - offset) limit); lia. }
  set (emit := Z.min emit0 (total - offset)). wp_steps. cbn [deliver rv_bytes].
  destruct (Nat.leb_spec (Z.to_nat offset) (q - p)) as [Hle|Hgt].
  - eapply (wp_emit_nodes HRz); [lia..|unfold emit, total in *; lia|done|]. intros s2 HR2. rewrite push_push in HR2.
    eapply Rep_eq; [exact HR2|done|]. do 5 f_equal. rewrite drop_drop, skipn_firstn_comm, take_take. f_equal. unfold emit, total. lia.
  - unfold node_fuel. assert (emit <= 0) as Hz0 by (unfold emit, total; lia).
    assert (emit_nodes (S (Z.to_nat (zset_len z))) withscores z None (ps !! S q) emit = mret tt) as ->.
    { cbn [emit_nodes]. rewrite Z.gtb_ltb, (proj2 (Z.ltb_ge _ _)) by lia. done. }
    wp_steps. wp_done. replace (Z.to_nat emit) with 0%nat by lia. cbn. by rewrite app_nil_r.
Qed.

Lemma zrange_options_offset args withscores offset limit :
  zrange_options args = inr (withscores, offset, limit) → 0 <= offset.
Proof.
  unfold zrange_options. intros H. repeat (case_match; simplify_eq); bool_prop; lia.
Qed.

Lemma zrangebyscore_ok : refines cmd_zrangebyscore (det s_zrangebyscore).
Proof.
  apply refines_det. intros t m c cmd s Hne HR. unfold cmd_zrangebyscore, s_zrangebyscore.
  destruct cmd as [|a0 [|k [|a1 [|a2 rest]]]]; cmd_simpl; [done|wp_finish..|]. clear Hne. wp_steps.
  destruct (parse_score_arg (cstr a1)) as [[min minex]|] eqn:E1; [|wp_finish]. apply parsed_number in E1.
  destruct (parse_score_arg (cstr a2)) as [[max maxex]|] eqn:E2; [|wp_finish]. apply parsed_number in E2.
  destruct (zrange_options (cstr <$> rest)) as [e|[[withscores offset] limit]] eqn:Eo; rewrite drop_0, Eo; [wp_finish|].
  apply zrange_options_offset in Eo. unfold on_zset. wp_step. wp_step. wp_step. wp_step; rewrite Hk; [wp_finish|].
  obj_cases; wp_reduce; try (wp_steps; wp_done). apply wp_bind. eapply wp_lift; [done|].
  by apply zrangebyscore_core.
Qed.
