(* ===== verification/Aof.v ===== *)
(** * The append-only log ([src/aof.c], logging part)

    Writing a command to the log: its serialisation, the loop over short writes
    and the copy kept while a background rewrite runs. *)

From S2P Require Import Prelude Util Dict CList Zskiplist Object Machine DbCore Resp.
Import Num.

(** Every argument is measured with [strlen]. *)
Definition command_to_resp (cmd : command) : bytes :=
  bs "*" ++ dec_of (Z.of_nat (argc cmd)) ++ crlf ++
  concat (map (λ a, let a := cstr a in
                    bs "$" ++ dec_of (Z.of_nat (length a)) ++ crlf ++ a ++ crlf) cmd).

(** [while (off < n)]; every turn that does not fail takes at least one byte, so
    the length of the buffer is enough fuel.  [true] stands for 0, [false] for -1. *)
Fixpoint write_full_loop (fuel : nat) (buf : bytes) : M bool :=
  match buf with
  | [] => mret true
  | _ =>
      match fuel with
      | O => ub
      | S fuel =>
          w ← write_aof buf;
          match w with
          | None => mret false
          | Some n => write_full_loop fuel (drop n buf)
          end
      end
  end.

Definition write_full (buf : bytes) : M bool := write_full_loop (length buf) buf.

Definition append_rewrite_buf (b : bytes) : M unit := modify (λ s,
  let g := st_globals s in
  set_globals s (set_rewrite_buf g (g_rewrite_buf g ++ b))).

Definition aof_append_command (fd : Z) (cmd : command) : M bool :=
  if fd <? 0 then mret false else
  let b := command_to_resp cmd in
  rc ← write_full b;
  rewriting ← gets (λ s, g_aof_rewriting (st_globals s));
  _ ← (if rc && rewriting then append_rewrite_buf b else mret tt);
  mret rc.

(** ** What is logged *)

(** What the log holds for a command is its RESP encoding, up to the truncation of
    every argument at its first NUL. *)
Lemma command_to_resp_encode cmd : command_to_resp cmd = resp_encode (cstr <$> cmd).
Proof.
  unfold command_to_resp, resp_encode, argc. rewrite length_fmap. do 4 f_equal.
  induction cmd as [|a cmd IH]; [done|]. cbn [map fmap list_fmap concat]. by rewrite IH.
Qed.

(** The part of the state the log consists of. *)
Definition with_log (s s' : state) (file buf : bytes) : Prop :=
  st_db s' = st_db s ∧ st_client s' = st_client s ∧
  w_clock (st_world s') = w_clock (st_world s) ∧ w_write (st_world s') = w_write (st_world s) ∧
  w_sys (st_world s') = w_sys (st_world s) ∧
  st_globals s' = set_rewrite_buf (set_aof_file (st_globals s) file) buf.

Lemma with_log_nil s s' :
  st_db s' = st_db s → st_client s' = st_client s →
  w_clock (st_world s') = w_clock (st_world s) → w_write (st_world s') = w_write (st_world s) →
  w_sys (st_world s') = w_sys (st_world s) → st_globals s' = st_globals s →
  with_log s s' (g_aof_file (st_globals s) ++ []) (g_rewrite_buf (st_globals s)).
Proof. intros. rewrite app_nil_r. repeat split; try done. by destruct s as [? ? ? []]. Qed.

Lemma wp_write_full fuel buf s :
  (length buf <= fuel)%nat →
  wp (write_full_loop fuel buf) (λ rc s',
    ∃ p q, buf = p ++ q ∧ (rc = true → q = []) ∧ (rc = false → ∃ i, w_write (st_world s) i = None) ∧
      with_log s s' (g_aof_file (st_globals s) ++ p) (g_rewrite_buf (st_globals s))) s.
Proof.
  revert buf s. induction fuel as [|fuel IH]; intros buf s Hf.
  - destruct buf; [|simpl in Hf; lia]. apply wp_ret. exists [], [].
    do 3 (split; [done|]). by apply with_log_nil.
  - destruct buf as [|b buf]; cbn [write_full_loop].
    { apply wp_ret. exists [], []. do 3 (split; [done|]). by apply with_log_nil. }
    apply wp_bind. unfold wp at 1, write_aof. destruct (w_write _ _) as [n|] eqn:E.
    + set (k := Nat.min _ _). eapply wp_mono; [apply IH; rewrite length_drop; subst k; simpl in *; lia|].
      intros rc s' (p & q & Hpq & Hrc & Herr & Hlog). exists (take k (b :: buf) ++ p), q.
      rewrite <- app_assoc, <- Hpq, take_drop. do 3 (split; [done|]).
      rewrite app_assoc. exact Hlog.
    + apply wp_ret. exists [], (b :: buf). do 2 (split; [done|]). split; [by eauto|].
      by apply with_log_nil.
Qed.

(** Appending a command puts its encoding, or after an error a prefix of it, at the
    end of the file, and on success mirrors it while a rewrite runs. *)
Lemma wp_aof_append fd cmd s :
  0 <= fd →
  wp (aof_append_command fd cmd) (λ rc s',
    let g := st_globals s in
    ∃ p q, resp_encode (cstr <$> cmd) = p ++ q ∧ (rc = true → q = []) ∧
      (rc = false → ∃ i, w_write (st_world s) i = None) ∧
      with_log s s' (g_aof_file g ++ p)
        (g_rewrite_buf g ++ if rc && g_aof_rewriting g then p else [])) s.
Proof.
  intros Hfd. unfold aof_append_command. rewrite (proj2 (Z.ltb_ge _ _)) by done.
  apply wp_bind. unfold write_full. eapply wp_mono; [by apply wp_write_full|].
  intros rc s1 (p & q & Hpq & Hrc & Herr & Hdb & Hc & Hck & Hw & Hy & Hg).
  rewrite <- command_to_resp_encode. apply wp_bind. unfold wp at 1, gets. rewrite Hg.
  cbn [g_aof_rewriting set_rewrite_buf set_aof_file set_aof_log]. apply wp_bind.
  destruct (rc && g_aof_rewriting (st_globals s)) eqn:E.
  - apply andb_true_iff in E as [-> Hrw]. rewrite (Hrc eq_refl), app_nil_r in Hpq.
    unfold wp at 1, append_rewrite_buf, modify. apply wp_ret. exists p, []. rewrite app_nil_r.
    do 3 (split; [done|]). unfold with_log.
    cbn [st_db st_client st_world st_globals set_globals]. rewrite Hpq, Hg. cbn [andb]. rewrite Hrw. done.
  - apply wp_ret, wp_ret. exists p, q. do 3 (split; [done|]). rewrite E, app_nil_r. done.
Qed.
