(* ===== verification/Dispatch.v ===== *)
(** * Command dispatch ([src/db.c])

    The command table, the dispatcher with its logging, and the abstract machine
    the server refines: a keyspace whose expired keys do not exist, and one reply
    per command. *)

From S2P Require Import Prelude Util Dict CList Zskiplist Object Machine DbCore.
From S2P Require Import DbString DbList DbHash DbSet DbZset Resp Aof.
Import Num.

(** ** The table *)

Record cmd_entry := CmdEntry { ce_name : bytes; ce_write : bool; ce_fn : command → M unit }.

Section Dispatch.

(** The four persistence commands (SAVE, BGSAVE, REWRITEAOF, BGREWRITEAOF), which act
    on files and processes, by name. *)
Context (other : string → command → M unit).

Definition entry_of (name : string) (is_write : bool) (fn : command → M unit) : cmd_entry :=
  CmdEntry (bs name) is_write fn.
Definition other_entry (name : string) (is_write : bool) : cmd_entry :=
  CmdEntry (bs name) is_write (other name).

Definition commands : list cmd_entry := [
  entry_of "ping" false cmd_ping;
  entry_of "echo" false cmd_echo;
  entry_of "select" false cmd_select;
  entry_of "quit" false cmd_quit;
  entry_of "set" true cmd_set;
  entry_of "get" false cmd_get;
  entry_of "del" true cmd_del;
  entry_of "exists" false cmd_exists;
  entry_of "incr" true cmd_incr;
  entry_of "decr" true cmd_decr;
  entry_of "mget" false cmd_mget;
  entry_of "mset" true cmd_mset;
  entry_of "append" true cmd_append;
  entry_of "strlen" false cmd_strlen;
  entry_of "getrange" false cmd_getrange;
  entry_of "setrange" true cmd_setrange;
  entry_of "rename" true cmd_rename;
  entry_of "setnx" true cmd_setnx;
  entry_of "setex" true cmd_setex;
  entry_of "getset" true cmd_getset;
  entry_of "expire" true cmd_expire;
  entry_of "pexpire" true cmd_pexpire;
  entry_of "expireat" true cmd_expireat;
  entry_of "pexpireat" true cmd_pexpireat;
  entry_of "ttl" false cmd_ttl;
  entry_of "pttl" false cmd_pttl;
  entry_of "type" false cmd_type;
  entry_of "lpush" true cmd_lpush;
  entry_of "rpush" true cmd_rpush;
  entry_of "lpushx" true cmd_lpushx;
  entry_of "rpushx" true cmd_rpushx;
  entry_of "lpop" true cmd_lpop;
  entry_of "rpop" true cmd_rpop;
  entry_of "llen" false cmd_llen;
  entry_of "lrange" false cmd_lrange;
  entry_of "lindex" false cmd_lindex;
  entry_of "lset" true cmd_lset;
  entry_of "ltrim" true cmd_ltrim;
  entry_of "lrem" true cmd_lrem;
  entry_of "linsert" true cmd_linsert;
  entry_of "hset" true cmd_hset;
  entry_of "hmset" true cmd_hmset;
  entry_of "hget" false cmd_hget;
  entry_of "hmget" false cmd_hmget;
  entry_of "hgetall" false cmd_hgetall;
  entry_of "hkeys" false cmd_hkeys;
  entry_of "hvals" false cmd_hvals;
  entry_of "hlen" false cmd_hlen;
  entry_of "hexists" false cmd_hexists;
  entry_of "hdel" true cmd_hdel;
  entry_of "hsetnx" true cmd_hsetnx;
  entry_of "hincrby" true cmd_hincrby;
  entry_of "hincrbyfloat" true cmd_hincrbyfloat;
  entry_of "sadd" true cmd_sadd;
  entry_of "srem" true cmd_srem;
  entry_of "sismember" false cmd_sismember;
  entry_of "scard" false cmd_scard;
  entry_of "smembers" false cmd_smembers;
  entry_of "spop" true cmd_spop;
  entry_of "sinter" false cmd_sinter;
  entry_of "sunion" false cmd_sunion;
  entry_of "sdiff" false cmd_sdiff;
  entry_of "zadd" true cmd_zadd;
  entry_of "zcard" false cmd_zcard;
  entry_of "zscore" false cmd_zscore;
  entry_of "zrem" true cmd_zrem;
  entry_of "zrange" false cmd_zrange;
  entry_of "zrevrange" false cmd_zrevrange;
  entry_of "zrangebyscore" false cmd_zrangebyscore;
  entry_of "zrank" false cmd_zrank;
  entry_of "zrevrank" false cmd_zrevrank;
  entry_of "zincrby" true cmd_zincrby;
  entry_of "zcount" false cmd_zcount;
  entry_of "keys" false cmd_keys;
  entry_of "flushall" true cmd_flushall;
  entry_of "dbsize" false cmd_dbsize;
  entry_of "info" false cmd_info;
  entry_of "command" false cmd_command;
  other_entry "save" false;
  other_entry "bgsave" false;
  other_entry "rewriteaof" false;
  other_entry "bgrewriteaof" false
].

Definition find_command (name : bytes) : option cmd_entry :=
  find (λ e, strcaseeq (ce_name e) name) commands.

Definition unknown_command (name : bytes) : bytes := bs "unknown command '" ++ name ++ bs "'".

Definition dispatch_command (cmd : command) : M unit :=
  if (argc cmd =? 0)%nat then mret tt else
  name ← arg cmd 0;
  match find_command name with
  | Some e =>
      g ← gets st_globals;
      _ ← (if ce_write e && (g_aof_fd g >=? 0) && negb (g_aof_replaying g)
           then _ ← aof_append_command (g_aof_fd g) cmd; mret tt
           else mret tt);
      ce_fn e cmd
  | None => reply_error (unknown_command name)
  end.

(** ** The abstract machine *)

Definition specs : list (string * spec) := [
  ("ping", det s_ping); ("echo", det s_echo); ("select", det s_select); ("quit", det s_quit);
  ("set", det s_set); ("get", det s_get); ("del", s_del); ("exists", det s_exists);
  ("incr", det (s_incr_decr 1)); ("decr", det (s_incr_decr (-1)));
  ("mget", det s_mget); ("mset", det s_mset); ("append", det s_append); ("strlen", det s_strlen);
  ("getrange", det s_getrange); ("setrange", det s_setrange); ("rename", det s_rename);
  ("setnx", det s_setnx); ("setex", det s_setex); ("getset", det s_getset);
  ("expire", det (s_expire false)); ("pexpire", det (s_expire true));
  ("expireat", det (s_expireat false)); ("pexpireat", det (s_expireat true));
  ("ttl", det (s_ttl false)); ("pttl", det (s_ttl true)); ("type", det s_type);
  ("lpush", det (s_push true false)); ("rpush", det (s_push false false));
  ("lpushx", det (s_push true true)); ("rpushx", det (s_push false true));
  ("lpop", det (s_pop true)); ("rpop", det (s_pop false)); ("llen", det s_llen);
  ("lrange", det s_lrange); ("lindex", det s_lindex); ("lset", det s_lset);
  ("ltrim", det s_ltrim); ("lrem", det s_lrem); ("linsert", det s_linsert);
  ("hset", det (s_hset false)); ("hmset", det (s_hset true)); ("hget", det s_hget);
  ("hmget", det s_hmget); ("hgetall", s_hgetall);
  ("hkeys", s_hkeys_or_vals false); ("hvals", s_hkeys_or_vals true);
  ("hlen", det s_hlen); ("hexists", det s_hexists); ("hdel", det s_hdel);
  ("hsetnx", det s_hsetnx); ("hincrby", det s_hincrby); ("hincrbyfloat", det s_hincrbyfloat);
  ("sadd", det s_sadd); ("srem", det s_srem); ("sismember", det s_sismember);
  ("scard", det s_scard); ("smembers", s_smembers); ("spop", s_spop);
  ("sinter", s_sinter); ("sunion", s_sunion); ("sdiff", s_sdiff);
  ("zadd", det s_zadd); ("zcard", det s_zcard); ("zscore", det s_zscore); ("zrem", det s_zrem);
  ("zrange", det (s_zrange false)); ("zrevrange", det (s_zrange true));
  ("zrangebyscore", det s_zrangebyscore); ("zrank", det (s_zrank (bs "zrank") false));
  ("zrevrank", det (s_zrank (bs "zrevrank") true)); ("zincrby", det s_zincrby); ("zcount", det s_zcount);
  ("keys", s_keys); ("flushall", det s_flushall); ("dbsize", s_dbsize);
  ("info", s_info); ("command", det s_command)
]%string.

Definition find_spec (name : bytes) : option spec :=
  snd <$> find (λ p, strcaseeq (bs p.1) name) specs.

(** One command of the abstract machine; names are compared without case. *)
Definition exec : spec := λ t m args m' r,
  match args with
  | [] => False
  | name :: _ =>
      match find_spec name with
      | Some sp => sp t m args m' r
      | None => m' = m ∧ r = RError (unknown_command name)
      end
  end.

(** Commands the abstract machine speaks about: the modelled ones, and names that
    are no command at all. *)
Definition supported (cmd : command) : Prop :=
  match cmd with
  | [] => False
  | name :: _ => is_some (find_spec (cstr name)) = true ∨ find_command (cstr name) = None
  end.

End Dispatch.

(** ** Dispatching refines the abstract machine *)

Lemma strcaseeq_sym_lower n name name' :
  strcaseeq n name = true → strcaseeq n name' = true ↔ strcaseeq name name' = true.
Proof. unfold strcaseeq. rewrite !bool_decide_eq_true. intros ->. done. Qed.

Lemma strcaseeq_table n name : strcaseeq n name = true → ∀ x, strcaseeq x name = strcaseeq x n.
Proof. unfold strcaseeq. rewrite bool_decide_eq_true. intros Hn x. by rewrite Hn. Qed.

Lemma find_command_case other n name :
  strcaseeq n name = true → find_command other name = find_command other n.
Proof.
  intros Hn. unfold find_command. induction (commands other) as [|e es IH]; [done|].
  cbn [find]. by rewrite (strcaseeq_table n name Hn), IH.
Qed.

(** Every specified name is in the table, with a handler that refines the
    specification. *)
Definition implemented other (p : string * spec) : Prop :=
  ∃ e, find_command other (bs p.1) = Some e ∧ refines (ce_fn e) p.2.

Create HintDb refinements.
#[local] Hint Resolve ping_ok echo_ok select_ok quit_ok set_ok get_ok del_ok exists_ok mget_ok mset_ok
  append_ok strlen_ok getrange_ok setrange_ok rename_ok setnx_ok setex_ok getset_ok
  expire_ok expireat_ok ttl_ok type_ok push_ok pop_ok llen_ok lrange_ok lindex_ok lset_ok ltrim_ok
  lrem_ok linsert_ok hset_ok hget_ok hmget_ok hgetall_ok hkeys_or_vals_ok hlen_ok hexists_ok hdel_ok
  hsetnx_ok hincrby_ok hincrbyfloat_ok zadd_ok zcard_ok zscore_ok zrem_ok zrange_ok zrangebyscore_ok zrank_ok zrevrank_ok
  zincrby_ok zcount_ok sadd_ok srem_ok sismember_ok scard_ok smembers_ok spop_ok sinter_ok sunion_ok
  sdiff_ok keys_ok flushall_ok dbsize_ok info_ok command_ok : refinements.

Lemma incr_command_ok : refines cmd_incr (det (s_incr_decr 1)).
Proof. apply (incr_ok 1). unfold in_ll, INT64_MIN, INT64_MAX. lia. Qed.
Lemma decr_command_ok : refines cmd_decr (det (s_incr_decr (-1))).
Proof. apply (incr_ok (-1)), in_ll_m1. Qed.
#[local] Hint Resolve incr_command_ok decr_command_ok : refinements.

Lemma all_implemented other : Forall (implemented other) specs.
Proof.
  unfold specs.
  repeat (apply Forall_cons_2;
    [eexists; split; [reflexivity|];
     cbn [ce_fn entry_of snd];
     unfold cmd_expire, cmd_pexpire, cmd_expireat, cmd_pexpireat, cmd_ttl, cmd_pttl, cmd_lpush,
       cmd_rpush, cmd_lpushx, cmd_rpushx, cmd_lpop, cmd_rpop, cmd_hset, cmd_hmset, cmd_hkeys, cmd_hvals, cmd_zrange, cmd_zrevrange;
     eauto with refinements|]).
  apply Forall_nil_2.
Qed.

Lemma find_spec_implemented other name sp :
  find_spec name = Some sp → ∃ e, find_command other name = Some e ∧ refines (ce_fn e) sp.
Proof.
  unfold find_spec. destruct (find _ specs) as [[n sp']|] eqn:E; [|done]. intros [= <-].
  apply find_some in E as [Hin Hn]. cbn [fst snd] in *.
  pose proof (proj1 (Forall_forall _ _) (all_implemented other) _ (proj2 (list_elem_of_In _ _) Hin)) as (e & He & Hr).
  exists e. split; [|done]. rewrite (find_command_case _ _ _ Hn). done.
Qed.

Lemma Rep_with_log t m c s s' file buf : Rep t m c s → with_log s s' file buf → Rep t m c s'.
Proof.
  intros (Hc & Hcl & Hks) (Hdb & Hcl' & Hck & _). unfold Rep. by rewrite Hdb, Hcl', Hck.
Qed.

(** Logging does not disturb the keyspace or the client. *)
Lemma wp_log t m c s b cmd (Q : unit → state → Prop) :
  Rep t m c s → (∀ s', Rep t m c s' → Q tt s') →
  wp (if b && (g_aof_fd (st_globals s) >=? 0) && negb (g_aof_replaying (st_globals s))
      then _ ← aof_append_command (g_aof_fd (st_globals s)) cmd; mret tt else mret tt) Q s.
Proof.
  intros HR HQ. case_if; [|by apply wp_ret, HQ]. bool_prop.
  apply wp_bind. eapply wp_mono; [by apply wp_aof_append|].
  intros rc s' (p & q & _ & _ & _ & Hlog). apply wp_ret, HQ. by eapply Rep_with_log.
Qed.

Lemma dispatch_exec other t m c cmd s :
  supported other cmd → Rep t m c s →
  wp (dispatch_command other cmd)
     (λ _ s', ∃ m' r, exec t m (cstr <$> cmd) m' r ∧ Rep t m' (deliver c r) s') s.
Proof.
  intros Hs HR. destruct cmd as [|name args]; [done|]. unfold dispatch_command, exec. cmd_simpl.
  wp_steps. destruct (find_spec (cstr name)) as [sp|] eqn:Esp.
  - destruct (find_spec_implemented other _ _ Esp) as (e & -> & Hr).
    wp_steps. unfold wp at 1, gets. apply wp_bind. eapply wp_log; [done|]. intros s' HR'.
    exact (Hr t m c (name :: args) s' ltac:(done) HR').
  - destruct Hs as [Hs|Hs]; [by rewrite Esp in Hs|]. rewrite Hs. wp_steps. eauto.
Qed.
