(* ===== verification/Session.v ===== *)
(** * Sessions: sequences of commands over time

    A client sends commands one after the other; each is executed at one instant
    and time passes between them.  The server refines the abstract machine over
    whole sessions, and the properties a user of the server relies on (what is set
    can be read back, an expiry hides a key exactly from its deadline on, lists and
    hashes return what was stored) follow on the concrete dispatcher. *)

From S2P Require Import Prelude Util Dict CList Zskiplist Object Machine DbCore.
From S2P Require Import DbString DbList DbHash DbSet Resp Aof Dispatch.
Import Num.

(** The state at a later time. *)
Definition at_time (t : Z) (s : state) : state :=
  let w := st_world s in
  set_world s (World (λ _, t) (w_ticks w) (w_rand w) (w_rands w) (w_seed w) (w_seeds w)
                     (w_write w) (w_writes w) (w_sys w)).

Fixpoint run_session (other : string → command → M unit) (l : list (Z * command)) : M unit :=
  match l with
  | [] => mret tt
  | (t, cmd) :: l =>
      _ ← modify (at_time t);
      _ ← dispatch_command other cmd;
      run_session other l
  end.

(** The abstract session: keys disappear when their expiry is reached. *)
Inductive session : keyspace → list (Z * command) → keyspace → list rv → Prop :=
| session_nil m : session m [] m []
| session_cons m t cmd m1 r l m2 rs :
    exec t (visible t m) (cstr <$> cmd) m1 r → session m1 l m2 rs →
    session m ((t, cmd) :: l) m2 (r :: rs).

(** Times do not decrease and are milliseconds of the epoch. *)
Fixpoint times_from (t0 : Z) (l : list (Z * command)) : Prop :=
  match l with
  | [] => True
  | (t, _) :: l => t0 <= t <= INT64_MAX ∧ times_from t l
  end.

(** A server that has just started: an empty keyspace and a new client. *)
Definition fresh (seed : bytes) (fd : Z) (w : world) (g : globals) : state :=
  State (db_create seed) (client_init fd 0) w g.

(** ** Time passes *)

Lemma live_later t t' a : t <= t' → live t' a → live t a.
Proof.
  unfold live, expired. rewrite !andb_false_iff, !Z.leb_gt. intros Ht [?|?]; [by left|right; lia].
Qed.

Lemma visible_visible t t' ks : t <= t' → visible t' (visible t ks) = visible t' ks.
Proof.
  intros Ht. apply map_eq. intros k. apply option_eq. intros a. rewrite !visible_lookup.
  pose proof (live_later t t' a Ht). naive_solver.
Qed.

Lemma Rep_at_time t m c s t' :
  Rep t m c s → t <= t' <= INT64_MAX → Rep t' (visible t' m) c (at_time t' s).
Proof.
  intros ((_ & Ht) & Hc & ks & Hks & <-) Ht'. split; [split; [done|lia]|]. split; [done|].
  exists ks. split; [done|]. symmetry. apply visible_visible. lia.
Qed.

Lemma Rep_fresh t seed fd w g :
  0 <= t <= INT64_MAX → Rep t ∅ (client_init fd 0) (at_time t (fresh seed fd w g)).
Proof.
  intros Ht. split; [done|]. split; [done|]. exists ∅. split; [apply db_rep_create|].
  apply map_filter_empty.
Qed.

Lemma deliver_out c r : c_out (deliver c r) = c_out c ++ rv_bytes r.
Proof. by destruct r. Qed.

Lemma wp_session_step other t0 m c s t cmd l (Q : unit → state → Prop) :
  Rep t0 m c s → t0 <= t <= INT64_MAX → supported other cmd →
  (∀ m' r s', exec t (visible t m) (cstr <$> cmd) m' r → Rep t m' (deliver c r) s' →
     wp (run_session other l) Q s') →
  wp (run_session other ((t, cmd) :: l)) Q s.
Proof.
  intros HR Ht Hs HQ. cbn [run_session]. apply wp_bind. unfold wp at 1, modify.
  apply wp_bind. eapply wp_mono; [apply dispatch_exec; [done|by apply (Rep_at_time _ _ _ _ t HR)]|].
  intros [] s' (m' & r & He & HR'). by eapply HQ.
Qed.

Lemma session_runs other l t m c s :
  Rep t m c s → times_from t l → Forall (λ x, supported other x.2) l →
  wp (run_session other l) (λ _ s', ∃ m' rs t' c',
    session m l m' rs ∧ Rep t' m' c' s' ∧ c_out c' = c_out c ++ concat (map rv_bytes rs)) s.
Proof.
  revert t m c s. induction l as [|[t' cmd] l IH]; intros t m c s HR Ht Hs.
  - apply wp_ret. exists m, [], t, c. split; [constructor|]. split; [done|]. simpl.
    by rewrite app_nil_r.
  - destruct Ht as [Ht Hl]. apply Forall_cons in Hs as [Hcmd Hs].
    eapply wp_session_step; [done..|]. intros m' r s' He HR'.
    eapply wp_mono; [by eapply IH|]. intros [] s'' (m'' & rs & t'' & c'' & Hrs & HR'' & Hout).
    exists m'', (r :: rs), t'', c''. split; [by econstructor|]. split; [done|].
    rewrite Hout, deliver_out. simpl. by rewrite <- app_assoc.
Qed.

Lemma Rep_out t m c s : Rep t m c s → c_out (st_client s) = c_out c.
Proof. by intros (_ & -> & _). Qed.

(** A session of a server that has just started. *)
Lemma session_from_fresh other seed fd w g t0 l :
  0 <= t0 <= INT64_MAX → times_from t0 l → Forall (λ x, supported other x.2) l →
  wp (run_session other l) (λ _ s', ∃ m' rs t' c',
    session ∅ l m' rs ∧ Rep t' m' c' s' ∧ c_out c' = concat (map rv_bytes rs))
    (at_time t0 (fresh seed fd w g)).
Proof. intros. by apply (session_runs other l t0 ∅ (client_init fd 0) _ (Rep_fresh _ _ _ _ _ ltac:(done))). Qed.


(** Use the specification of a command whose name is known. *)
Ltac exec_as sp H :=
  unfold exec in H; cbn [fmap list_fmap] in H;
  match type of H with context [find_spec ?n] =>
    change (find_spec n) with (Some sp) in H; cbv beta iota in H
  end.

Ltac step_session := eapply wp_session_step; [eassumption|lia|by left|].

Lemma visible_self t m c s : Rep t m c s → visible t m = m.
Proof. intros (_ & _ & ks & _ & <-). by apply visible_visible. Qed.



Lemma slice_all {A} (xs : list A) : slice xs 0 (-1) = xs.
Proof.
  unfold slice. simpl. rewrite drop_0. apply take_ge. unfold zlen. lia.
Qed.

Lemma incr_from other t k n v m c s e :
  Rep t m c s → m !! cstr k = Some (Aobj (VString (ll_to_string v)) e) →
  0 <= v → v + Z.of_nat n <= INT64_MAX →
  wp (run_session other (replicate n (t, [bs "INCR"; k])))
     (λ _ s', c_out (st_client s') =
        c_out c ++ concat (map (λ i, fmt_integer (Z.of_nat i)) (seq (S (Z.to_nat v)) n))) s.
Proof.
  revert v m c s. induction n as [|n IH]; intros v m c s HR Hk Hv Hn.
  - apply wp_ret. simpl. by rewrite app_nil_r, (Rep_out _ _ _ _ HR).
  - pose proof (Rep_time _ _ _ _ HR) as Ht.
    assert (in_ll v ∧ in_ll (v + 1)) as [Hv0 Hv1] by (unfold in_ll, INT64_MIN, INT64_MAX in *; lia).
    cbn [replicate]. step_session. intros m1 r1 s1 He1 HR1. exec_as (det (s_incr_decr 1)) He1.
    rewrite (visible_self _ _ _ _ HR) in He1. unfold det, s_incr_decr, on_string in He1.
    rewrite Hk, ll_parse_print, decide_True in He1 by (done || (unfold INT64_MIN; lia)).
    injection He1 as <- <-. eapply wp_mono.
    + eapply (IH (v + 1)); [done|apply lookup_insert_eq|lia..].
    + intros [] s2 ->. rewrite deliver_out, <- app_assoc. cbn [seq map concat rv_bytes].
      replace (Z.of_nat (S (Z.to_nat v))) with (v + 1) by lia.
      by replace (Z.to_nat (v + 1)) with (S (Z.to_nat v)) by lia.
Qed.

(** ** A concrete server, for examples *)

Definition no_other : string → command → M unit := λ _ _, ub.
Definition still_world (clock : nat → Z) : world :=
  World clock 0 (λ _, 0) 0 (λ _, replicate 16 NUL) 0 (λ _, None) 0 idle_system.

(** A fresh server at time 1000. *)
Definition start : state := at_time 1000 (fresh (replicate 16 NUL) 3 (still_world (λ _, 0)) no_aof).

Lemma start_Rep : Rep 1000 ∅ (client_init 3 0) start.
Proof. apply Rep_fresh. vm_compute. split; congruence. Qed.

(** The output of a run of the dispatcher, [None] for undefined behaviour. *)
Definition output (l : list (Z * command)) : option bytes :=
  (λ '(_, s), c_out (st_client s)) <$> run_session no_other l start.



(** ** What a user relies on *)

(** What SET stores, GET returns, at any later time. *)
Theorem set_then_get other t m c s t' k v :
  Rep t m c s → t <= t' <= INT64_MAX →
  wp (run_session other [(t, [bs "SET"; k; v]); (t', [bs "GET"; k])])
     (λ _ s', c_out (st_client s') = c_out c ++ fmt_simple (bs "OK") ++ fmt_bulk (cstr v)) s.
Proof.
  intros HR Ht. pose proof (Rep_time _ _ _ _ HR).
  step_session. intros m1 r1 s1 He1 HR1. exec_as (det s_set) He1.
  injection He1 as <- <-. rewrite put_forever in HR1.
  step_session. intros m2 r2 s2 He2 HR2. exec_as (det s_get) He2.
  unfold det, s_get, on_string in He2.
  rewrite (proj2 (visible_lookup _ _ _ (Aobj (VString (cstr v)) (-1)))) in He2
    by (split; [apply lookup_insert_eq|done]).
  injection He2 as <- <-. apply wp_ret. rewrite (Rep_out _ _ _ _ HR2), !deliver_out, <- app_assoc. done.
Qed.

Lemma set_then_get_witness :
  wp (run_session no_other [(1000, [bs "SET"; bs "k"; bs "v"]); (1005, [bs "GET"; bs "k"])])
     (λ _ s', c_out (st_client s') = fmt_simple (bs "OK") ++ fmt_bulk (bs "v")) start.
Proof.
  apply (set_then_get no_other 1000 ∅ (client_init 3 0) start 1005 (bs "k") (bs "v") start_Rep).
  vm_compute. split; congruence.
Defined.

(** A key set with an expiry of [n] milliseconds is returned until the deadline
    and is gone from the deadline on. *)
Theorem set_px_expires other t m c s t' k v n :
  Rep t m c s → t <= t' <= INT64_MAX → 0 < n → t + n <= INT64_MAX →
  wp (run_session other [(t, [bs "SET"; k; v; bs "PX"; ll_to_string n]); (t', [bs "GET"; k])])
     (λ _ s', c_out (st_client s') = c_out c ++ fmt_simple (bs "OK") ++
        if t' <? t + n then fmt_bulk (cstr v) else fmt_null) s.
Proof.
  intros HR Ht Hn Hd. pose proof (Rep_time _ _ _ _ HR).
  step_session. intros m1 r1 s1 He1 HR1. exec_as (det s_set) He1.
  assert (Hopt : s_set_options t [cstr (bs "PX"); cstr (ll_to_string n)] false false (-1)
                 = inr (false, false, t + n)).
  { cbn [s_set_options]. change (strcaseeq (cstr (bs "PX")) (bs "EX")) with false.
    change (strcaseeq (cstr (bs "PX")) (bs "PX")) with true.
    cbv beta iota zeta.
    rewrite string_to_ll_print by (unfold in_ll, INT64_MIN, INT64_MAX in *; lia).
    rewrite Z.div_1_r, Z.mul_1_r, (proj2 (Z.leb_gt _ _)), gtb_le by lia. cbn [orb].
    by rewrite wraps64_id by (unfold in_ll, INT64_MIN in *; lia). }
  unfold det, s_set in He1. rewrite Hopt in He1. cbn [andb orb] in He1. injection He1 as <- <-.
  rewrite put_live in HR1
    by (unfold live, expired; apply andb_false_iff; right; apply Z.leb_gt; simpl; lia).
  step_session. intros m2 r2 s2 He2 HR2. exec_as (det s_get) He2.
  unfold det, s_get, on_string in He2. case_if; bool_prop.
  - rewrite (proj2 (visible_lookup _ _ _ (Aobj (VString (cstr v)) (t + n)))) in He2.
    2:{ split; [apply lookup_insert_eq|].
        unfold live, expired. apply andb_false_iff. right. apply Z.leb_gt. simpl. lia. }
    injection He2 as <- <-. apply wp_ret. by rewrite (Rep_out _ _ _ _ HR2), !deliver_out, <- app_assoc.
  - rewrite (proj2 (visible_None _ _ _)) in He2.
    2:{ intros a. rewrite lookup_insert_eq. intros [= <-]. unfold live, expired. simpl.
        rewrite andb_false_iff, !Z.leb_gt. lia. }
    injection He2 as <- <-. apply wp_ret. by rewrite (Rep_out _ _ _ _ HR2), !deliver_out, <- app_assoc.
Qed.

Lemma set_px_expires_witness :
  wp (run_session no_other [(1000, [bs "SET"; bs "k"; bs "v"; bs "PX"; bs "10"]); (1010, [bs "GET"; bs "k"])])
     (λ _ s', c_out (st_client s') = fmt_simple (bs "OK") ++ fmt_null) start.
Proof.
  apply (set_px_expires no_other 1000 ∅ (client_init 3 0) start 1010 (bs "k") (bs "v") 10 start_Rep);
    vm_compute; try split; congruence.
Defined.

(** SET with an absolute deadline that has already passed stores a key without
    any expiry: PTTL answers -1 ever after. *)
Theorem set_pxat_past_never_expires other t m c s t' k v d :
  Rep t m c s → t <= t' <= INT64_MAX → 0 < d < t →
  wp (run_session other [(t, [bs "SET"; k; v; bs "PXAT"; ll_to_string d]); (t', [bs "PTTL"; k])])
     (λ _ s', c_out (st_client s') = c_out c ++ fmt_simple (bs "OK") ++ fmt_integer (-1)) s.
Proof.
  intros HR Ht Hd. pose proof (Rep_time _ _ _ _ HR).
  step_session. intros m1 r1 s1 He1 HR1. exec_as (det s_set) He1.
  assert (Hopt : s_set_options t [cstr (bs "PXAT"); cstr (ll_to_string d)] false false (-1)
                 = inr (false, false, -1)).
  { cbn [s_set_options].
    change (strcaseeq (cstr (bs "PXAT")) (bs "EX")) with false.
    change (strcaseeq (cstr (bs "PXAT")) (bs "PX")) with false.
    change (strcaseeq (cstr (bs "PXAT")) (bs "EXAT")) with false.
    change (strcaseeq (cstr (bs "PXAT")) (bs "PXAT")) with true.
    cbv beta iota zeta.
    rewrite string_to_ll_print by (unfold in_ll, INT64_MIN, INT64_MAX in *; lia).
    rewrite Z.div_1_r, Z.mul_1_r, (proj2 (Z.leb_gt _ _)), gtb_le by lia. cbn [orb].
    by rewrite (proj2 (Z.ltb_lt _ _)) by lia. }
  unfold det, s_set in He1. rewrite Hopt in He1. cbn [andb orb] in He1. injection He1 as <- <-.
  rewrite put_forever in HR1.
  step_session. intros m2 r2 s2 He2 HR2. exec_as (det (s_ttl true)) He2.
  unfold det, s_ttl in He2.
  rewrite (proj2 (visible_lookup _ _ _ (Aobj (VString (cstr v)) (-1)))) in He2
    by (split; [apply lookup_insert_eq|done]).
  injection He2 as <- <-. apply wp_ret. by rewrite (Rep_out _ _ _ _ HR2), !deliver_out, <- app_assoc.
Qed.

Lemma set_pxat_past_never_expires_witness :
  wp (run_session no_other
        [(1000, [bs "SET"; bs "k"; bs "v"; bs "PXAT"; bs "999"]); (5000, [bs "PTTL"; bs "k"])])
     (λ _ s', c_out (st_client s') = fmt_simple (bs "OK") ++ fmt_integer (-1)) start.
Proof.
  apply (set_pxat_past_never_expires no_other 1000 ∅ (client_init 3 0) start 5000 (bs "k") (bs "v") 999
    start_Rep); vm_compute; split; congruence.
Defined.

(** RPUSH of values to a key that does not exist, then LRANGE over everything,
    returns them in order. *)
Theorem rpush_then_lrange other t m c s k vs :
  Rep t m c s → m !! cstr k = None → vs ≠ [] →
  wp (run_session other [(t, bs "RPUSH" :: k :: vs); (t, [bs "LRANGE"; k; bs "0"; bs "-1"])])
     (λ _ s', c_out (st_client s') =
        c_out c ++ fmt_integer (zlen vs) ++ rv_bytes (RArray (map (λ v, RBulk (cstr v)) vs))) s.
Proof.
  intros HR Hk Hvs. pose proof (Rep_time _ _ _ _ HR).
  step_session. intros m1 r1 s1 He1 HR1. exec_as (det (s_push false false)) He1.
  rewrite (visible_self _ _ _ _ HR) in He1. destruct vs as [|v vs]; [done|].
  unfold det, s_push, on_list in He1. cbn [fmap list_fmap] in He1. rewrite Hk in He1.
  cbn [pushed app] in He1. injection He1 as <- <-.
  step_session. intros m2 r2 s2 He2 HR2. exec_as (det s_lrange) He2.
  rewrite (visible_self _ _ _ _ HR1) in He2. unfold det, s_lrange, on_list in He2.
  change (string_to_ll (cstr (bs "0"))) with (Some 0) in He2.
  change (string_to_ll (cstr (bs "-1"))) with (Some (-1)) in He2. cbv iota in He2.
  rewrite lookup_insert_eq in He2. injection He2 as <- <-. apply wp_ret.
  rewrite (Rep_out _ _ _ _ HR2), !deliver_out, <- app_assoc. f_equal. f_equal.
  - cbn [rv_bytes]. f_equal. unfold zlen. simpl. rewrite length_fmap. lia.
  - f_equal. f_equal. rewrite slice_all. cbn [map]. f_equal. clear.
    induction vs as [|v vs IH]; [done|]. cbn [fmap list_fmap map]. by rewrite IH.
Qed.

Lemma rpush_then_lrange_witness :
  wp (run_session no_other
        [(1000, [bs "RPUSH"; bs "l"; bs "a"; bs "b"]); (1000, [bs "LRANGE"; bs "l"; bs "0"; bs "-1"])])
     (λ _ s', c_out (st_client s') = fmt_integer 2 ++ rv_bytes (RArray [RBulk (bs "a"); RBulk (bs "b")])) start.
Proof.
  by apply (rpush_then_lrange no_other 1000 ∅ (client_init 3 0) start (bs "l") [bs "a"; bs "b"] start_Rep).
Defined.

(** After HSET of a field, HGET returns its value, whatever the hash held. *)
Theorem hset_then_hget other t m c s k f v :
  Rep t m c s →
  match m !! cstr k with None | Some (Aobj (VHash _) _) => True | _ => False end →
  wp (run_session other [(t, [bs "HMSET"; k; f; v]); (t, [bs "HGET"; k; f])])
     (λ _ s', c_out (st_client s') = c_out c ++ fmt_simple (bs "OK") ++ fmt_bulk (cstr v)) s.
Proof.
  intros HR Hk. pose proof (Rep_time _ _ _ _ HR).
  step_session. intros m1 r1 s1 He1 HR1. exec_as (det (s_hset true)) He1.
  rewrite (visible_self _ _ _ _ HR) in He1. unfold det, s_hset, on_hash_new, on_hash in He1.
  cbn [length Nat.odd Nat.even negb pair_up insert_all foldl] in He1.
  step_session. intros m2 r2 s2 He2 HR2. exec_as (det s_hget) He2.
  rewrite (visible_self _ _ _ _ HR1) in He2. unfold det, s_hget, on_hash in He2.
  destruct (m !! cstr k) as [[[]]|]; try done; injection He1 as <- <-;
    rewrite lookup_insert_eq in He2; cbn in He2; rewrite lookup_insert_eq in He2; injection He2 as <- <-;
    apply wp_ret; by rewrite (Rep_out _ _ _ _ HR2), !deliver_out, <- app_assoc.
Qed.

Lemma hset_then_hget_witness :
  wp (run_session no_other
        [(1000, [bs "HMSET"; bs "h"; bs "f"; bs "v"]); (1000, [bs "HGET"; bs "h"; bs "f"])])
     (λ _ s', c_out (st_client s') = fmt_simple (bs "OK") ++ fmt_bulk (bs "v")) start.
Proof.
  by apply (hset_then_hget no_other 1000 ∅ (client_init 3 0) start (bs "h") (bs "f") (bs "v") start_Rep).
Defined.

(** [n] INCRs of a key that does not exist answer 1, 2, ..., [n]. *)
Theorem incr_counts other t m c s k n :
  Rep t m c s → m !! cstr k = None → Z.of_nat n <= INT64_MAX →
  wp (run_session other (replicate n (t, [bs "INCR"; k])))
     (λ _ s', c_out (st_client s') = c_out c ++ concat (map (λ i, fmt_integer (Z.of_nat i)) (seq 1 n))) s.
Proof.
  intros HR Hk Hn. pose proof (Rep_time _ _ _ _ HR) as Ht.
  destruct n as [|n].
  { apply wp_ret. simpl. by rewrite app_nil_r, (Rep_out _ _ _ _ HR). }
  cbn [replicate]. step_session. intros m1 r1 s1 He1 HR1. exec_as (det (s_incr_decr 1)) He1.
  rewrite (visible_self _ _ _ _ HR) in He1. unfold det, s_incr_decr, on_string in He1.
  rewrite Hk, decide_True in He1 by (unfold in_ll, INT64_MIN, INT64_MAX; lia).
  injection He1 as <- <-. eapply wp_mono.
  - eapply (incr_from other t k n 1); [done|apply lookup_insert_eq|lia..].
  - intros [] s2 ->. rewrite deliver_out, <- app_assoc. done.
Qed.

Lemma incr_counts_witness :
  wp (run_session no_other (replicate 3 (1000, [bs "INCR"; bs "n"])))
     (λ _ s', c_out (st_client s') = fmt_integer 1 ++ fmt_integer 2 ++ fmt_integer 3) start.
Proof.
  apply (incr_counts no_other 1000 ∅ (client_init 3 0) start (bs "n") 3 start_Rep);
    [done|vm_compute; congruence].
Defined.

(** ** Corner cases, by execution *)

Example del_counts_expired_keys :
  output [(1000, [bs "SET"; bs "k"; bs "v"; bs "PX"; bs "1"]); (2000, [bs "DEL"; bs "k"])]
  = Some (fmt_simple (bs "OK") ++ fmt_integer 1).
Proof. vm_compute. reflexivity. Qed.

(** A clock that moves while a command runs: it shows [a] for the first [n] readings
    and [b] afterwards. *)
Definition moving (n : nat) (a b : Z) : nat → Z := λ i, if (i <? n)%nat then a else b.

Definition run_moving (clock : nat → Z) (l : list command) : option bytes :=
  (λ '(_, s), c_out (st_client s)) <$>
  forM l (dispatch_command no_other) (fresh (replicate 16 NUL) 3 (still_world clock) no_aof).

Example keys_header_races_with_expiry :
  run_moving (moving 2 1000 2000) [[bs "SET"; bs "k"; bs "v"; bs "PX"; bs "5"]; [bs "KEYS"; bs "*"]]
  = Some (fmt_simple (bs "OK") ++ fmt_array 1).
Proof. vm_compute. reflexivity. Qed.

Example sdiff_uses_freed_set :
  run_moving (moving 2 1000 2000)
    [[bs "SADD"; bs "k"; bs "x"]; [bs "PEXPIRE"; bs "k"; bs "5"]; [bs "SDIFF"; bs "k"; bs "k"]] = None.
Proof. vm_compute. reflexivity. Qed.
