(* ===== verification/SessionZset.v ===== *)
(** * Sorted sets, as a user sees them

    Consequences of the refinement of sessions for the sorted-set commands, on the
    concrete dispatcher. *)

From Stdlib Require Import Floats.SpecFloat.
From S2P Require Import Prelude Util Dict CList Zskiplist Zorder Zset Double Object Machine DbCore.
From S2P Require Import DbString DbList DbHash DbSet DbZset Resp Aof Dispatch Session.
Import Num.

Lemma Rep_zset t m c s k xs e : Rep t m c s → m !! k = Some (Aobj (VZset xs) e) → zset_ok xs.
Proof.
  intros (_ & _ & ks & [_ Hd] & <-) Hk. apply visible_lookup in Hk as [Hk _]. specialize (Hd k). rewrite Hk in Hd.
  inversion Hd as [o a Ho|]; subst. destruct Ho as (Hs & _). cbn in Hs. inversion Hs as [| | | |z ys Hz]; subst. apply Hz.
Qed.

(** C30: ZRANGE 0 -1 sends the members of a sorted set in strictly ascending order of
    score and, among equal scores, of their bytes, each once; ZREVRANGE 0 -1 sends
    them in the opposite order. *)
Theorem zrange_is_sorted other t m c s k xs e :
  Rep t m c s → m !! cstr k = Some (Aobj (VZset xs) e) →
  zset_ok xs ∧
  wp (run_session other [(t, [bs "ZRANGE"; k; bs "0"; bs "-1"]); (t, [bs "ZREVRANGE"; k; bs "0"; bs "-1"])])
     (λ _ s', c_out (st_client s') = c_out c ++ rv_bytes (RArray (map (λ x, RBulk x.2) xs)) ++
                                     rv_bytes (RArray (map (λ x, RBulk x.2) (reverse xs)))) s.
Proof.
  intros HR Hk. split; [by eapply Rep_zset|]. pose proof (Rep_time _ _ _ _ HR).
  assert (∀ l : list zentry, zitems false l = map (λ x, RBulk x.2) l) as Hi.
  { unfold zitems. induction l as [|x l IH]; [done|]. cbn [map concat]. by rewrite IH. }
  step_session. intros m1 r1 s1 He1 HR1. exec_as (det (s_zrange false)) He1.
  rewrite (visible_self _ _ _ _ HR) in He1. unfold det, s_zrange, on_zset in He1.
  change (string_to_ll (cstr (bs "0"))) with (Some 0) in He1.
  change (string_to_ll (cstr (bs "-1"))) with (Some (-1)) in He1. cbv iota in He1.
  rewrite Hk, slice_all, Hi in He1. injection He1 as <- <-.
  step_session. intros m2 r2 s2 He2 HR2. exec_as (det (s_zrange true)) He2.
  rewrite (visible_self _ _ _ _ HR1) in He2. unfold det, s_zrange, on_zset in He2.
  change (string_to_ll (cstr (bs "0"))) with (Some 0) in He2.
  change (string_to_ll (cstr (bs "-1"))) with (Some (-1)) in He2. cbv iota in He2.
  rewrite Hk, slice_all, Hi in He2. injection He2 as <- <-.
  apply wp_ret. by rewrite (Rep_out _ _ _ _ HR2), !deliver_out, <- app_assoc.
Qed.

(** ZRANGEBYSCORE with a LIMIT offset beyond the end of the range announces an
    array of 2^64 + (entries in the range) - offset elements and sends none. *)
Theorem zrangebyscore_limit_wraps other t m c s k xs e a b min max minex maxex off cnt :
  Rep t m c s → m !! cstr k = Some (Aobj (VZset xs) e) →
  parse_score_arg (cstr a) = Some (min, minex) → parse_score_arg (cstr b) = Some (max, maxex) →
  0 < zlen (score_range xs min max minex maxex) < off → off <= INT64_MAX → 0 <= cnt <= INT64_MAX →
  wp (run_session other [(t, [bs "ZRANGEBYSCORE"; k; a; b; bs "LIMIT"; ll_to_string off; ll_to_string cnt])])
     (λ _ s', c_out (st_client s') =
        c_out c ++ fmt_array (2 ^ 64 + zlen (score_range xs min max minex maxex) - off)) s.
Proof.
  intros HR Hk Ha Hb Hlen Hoff Hcnt. pose proof (Rep_time _ _ _ _ HR).
  step_session. intros m1 r1 s1 He1 HR1. exec_as (det s_zrangebyscore) He1.
  rewrite (visible_self _ _ _ _ HR) in He1. unfold det, s_zrangebyscore, on_zset in He1. rewrite Ha, Hb in He1.
  assert (zrange_options [cstr (bs "LIMIT"); cstr (ll_to_string off); cstr (ll_to_string cnt)] = inr (false, off, cnt)) as Ho.
  { unfold zrange_options. change (strcaseeq (cstr (bs "LIMIT")) (bs "WITHSCORES")) with false.
    change (strcaseeq (cstr (bs "LIMIT")) (bs "LIMIT")) with true. cbv iota.
    rewrite !string_to_ll_print by (unfold in_ll, INT64_MIN, INT64_MAX in *; lia).
    rewrite !(proj2 (Z.ltb_ge _ 0)) by lia. done. }
  rewrite Ho, Hk in He1. injection He1 as <- <-. apply wp_ret. rewrite (Rep_out _ _ _ _ HR1), deliver_out. f_equal.
  unfold limited. set (n := zlen _) in *. rewrite (proj2 (Z.eqb_neq n 0)) by lia.
  rewrite (proj2 (Z.ltb_ge cnt 0)), Z.min_r by lia. replace (Z.to_nat (n - off)) with 0%nat by lia. cbn [rv_bytes take zitems map concat].
  rewrite app_nil_r. f_equal. unfold wrapu64. unfold INT64_MAX in *.
  rewrite <- (Z.mod_unique (n - off) (2 ^ 64) (-1) (2 ^ 64 + n - off)) by lia. done.
Qed.

(** ** A concrete sorted set *)

Definition one : double := S754_finite false 4503599627370496 (-52).

Definition small_zset : zset :=
  match zset_add (zset_create []) 1 one (bs "a") with Some (_, z) => z | None => zset_create [] end.

Lemma small_zset_rep : zset_rep small_zset [(one, bs "a")].
Proof.
  destruct (zset_add_spec (zset_create []) [] 1 one (bs "a") (zset_create_rep [])) as (z & Hz & H); [split; vm_compute; lia|done|].
  unfold small_zset. rewrite Hz. exact H.
Qed.

Definition zset_server : state := with_dict start (dict_set (dict_create []) (bs "z") (Robj (OBJ_ZSET small_zset) (-1))).2.

Lemma zset_server_Rep : Rep 1000 {[ bs "z" := Aobj (VZset [(one, bs "a")]) (-1) ]} (client_init 3 0) zset_server.
Proof.
  destruct start_Rep as (Ht & Hc & _). split; [done|]. split; [done|].
  exists {[ bs "z" := Aobj (VZset [(one, bs "a")]) (-1) ]}. split.
  - rewrite <- insert_empty. apply db_rep_set; [apply db_rep_create|]. apply obj_rep_new. constructor. apply small_zset_rep.
  - unfold visible. by rewrite map_filter_singleton_True.
Qed.

Lemma zrange_is_sorted_witness :
  wp (run_session no_other [(1000, [bs "ZRANGE"; bs "z"; bs "0"; bs "-1"]); (1000, [bs "ZREVRANGE"; bs "z"; bs "0"; bs "-1"])])
     (λ _ s', c_out (st_client s') = rv_bytes (RArray [RBulk (bs "a")]) ++ rv_bytes (RArray [RBulk (bs "a")])) zset_server.
Proof.
  exact (proj2 (zrange_is_sorted no_other 1000 _ (client_init 3 0) zset_server (bs "z") [(one, bs "a")] (-1)
    zset_server_Rep (lookup_singleton_eq _ _))).
Defined.

Lemma zrangebyscore_limit_wraps_witness :
  wp (run_session no_other [(1000, [bs "ZRANGEBYSCORE"; bs "z"; bs "-inf"; bs "(2"; bs "LIMIT"; bs "3"; bs "5"])])
     (λ _ s', c_out (st_client s') = bs "*18446744073709551614" ++ crlf) zset_server.
Proof.
  apply (zrangebyscore_limit_wraps no_other 1000 _ (client_init 3 0) zset_server (bs "z") [(one, bs "a")] (-1)
    (bs "-inf") (bs "(2") (S754_infinity true) (S754_finite false 4503599627370496 (-51)) false true 3 5
    zset_server_Rep (lookup_singleton_eq _ _)).
  - vm_compute. reflexivity.
  - vm_compute. reflexivity.
  - vm_compute. split; reflexivity.
  - vm_compute. congruence.
  - vm_compute. split; congruence.
Defined.
