(* ===== verification/ExpireCycle.v ===== *)
(** * The periodic expire cycle ([src/db.c], [db_expire_cycle])

    The cycle never removes a visible key, and a cycle that is not cut short by its
    bound leaves no expired key behind. *)

From S2P Require Import Prelude Util Dict CList Zskiplist Object Machine DbCore Session.

(** ** Deleting keys only shortens the buckets *)

Section Buckets.
Context {V : Type}.
Implicit Types d : dict V.

Definition shrinks d d' : Prop :=
  size d' = size d ∧ length (table d') = length (table d) ∧
  ∀ i, bucket (table d') i `sublist_of` bucket (table d) i.

Lemma shrinks_refl d : shrinks d d.
Proof. done. Qed.

Lemma shrinks_trans d1 d2 d3 : shrinks d1 d2 → shrinks d2 d3 → shrinks d1 d3.
Proof.
  intros (? & ? & H1) (? & ? & H2). split; [congruence|]. split; [congruence|].
  intros i. by transitivity (bucket (table d2) i).
Qed.

Lemma chain_remove_sublist (c c' : list (entry V)) k h v :
  chain_remove c k h = Some (v, c') → c' `sublist_of` c.
Proof.
  revert c'. induction c as [|x c IH]; intros c' H; simpl in H; [done|].
  destruct (key_equal x k h); [injection H as <- <-; by apply sublist_cons|].
  destruct (chain_remove c k h) as [[v' c'']|]; [|done]. injection H as <- <-.
  by apply sublist_skip, IH.
Qed.

Lemma dict_delete_shrinks d k : shrinks d (dict_delete d k).2.
Proof.
  unfold dict_delete. destruct (size d =? 0)%nat; [apply shrinks_refl|].
  destruct (chain_remove _ _ _) as [[v c']|] eqn:E; [|apply shrinks_refl].
  apply chain_remove_sublist in E. set (j := bucket_of _ _) in *. split; [done|]. simpl.
  split; [apply length_insert|]. intros i. unfold bucket in *. rewrite !nth_lookup in *.
  destruct (decide (j < length (table d))%nat); [|by rewrite list_insert_ge by lia].
  destruct (decide (j = i)) as [->|]; [by rewrite list_lookup_insert_eq|by rewrite list_lookup_insert_ne].
Qed.

Lemma bucket_entry d i e :
  dict_wf d → e ∈ bucket (table d) i → dict_abs d !! e_key e = Some (e_val e).
Proof.
  intros Hwf He. apply elem_of_dict_entries; [done|]. rewrite dict_entries_concat.
  apply elem_of_concat. unfold bucket in He. rewrite nth_lookup in He.
  destruct (table d !! i) as [c|] eqn:E; [eauto|by apply elem_of_nil in He].
Qed.

Lemma bucket_nodup d i : dict_wf d → NoDup (e_key <$> bucket (table d) i).
Proof.
  intros Hwf. unfold bucket. rewrite nth_lookup. destruct (table d !! i) as [c|] eqn:E; [|constructor].
  pose proof (wf_nodup_bucket d i c Hwf E) as H. rewrite fmap_app in H. by apply NoDup_app in H as [H _].
Qed.

Lemma bucket_lengths d n :
  (length (concat (take n (table d))) <= length (concat (table d)))%nat.
Proof. rewrite <- (take_drop n (table d)) at 2. rewrite concat_app, length_app. lia. Qed.
End Buckets.

(** No entry of bucket [i] is past its expiry. *)
Definition swept (t : Z) (d : dict robj) (i : nat) : Prop :=
  ∀ e, e ∈ bucket (table d) i → expired t (o_expire_at (e_val e)) = false.

Lemma swept_shrinks t d d' i : shrinks d d' → swept t d i → swept t d' i.
Proof.
  intros (_ & _ & Hs) Hsw e He. apply Hsw. by eapply elem_of_submseteq, sublist_submseteq.
Qed.

(** ** One bucket *)

(** The state during and after the visit of the entries [zs] of a bucket. *)
Definition visited (t : Z) (m : keyspace) (c : client) (s0 : state) (zs : list (entry robj)) (s : state) : Prop :=
  Rep t m c s ∧ db_cursor (st_db s) = db_cursor (st_db s0) ∧
  shrinks (db_d (st_db s0)) (db_d (st_db s)) ∧
  ∀ e, e ∈ zs → expired t (o_expire_at (e_val e)) = true → dict_abs (db_d (st_db s)) !! e_key e = None.

(** Deleting an expired key that is still stored cannot be observed. *)
Lemma wp_delete_expired t m c s e (Q : option robj → state → Prop) :
  Rep t m c s → dict_abs (db_d (st_db s)) !! e_key e = Some (e_val e) →
  expired t (o_expire_at (e_val e)) = true →
  (∀ old d', d' = (dict_delete (db_d (st_db s)) (e_key e)).2 →
     Rep t m c (with_dict s d') → Q old (with_dict s d')) →
  wp (store_delete (e_key e)) Q s.
Proof.
  intros (Hc & Hcl & ks & Hks & Hv) He Hex HQ. unfold wp, store_delete.
  pose proof (db_rep_delete _ _ (e_key e) Hks) as Hd. destruct (dict_delete _ _) as [old d'] eqn:Ed.
  apply HQ; [done|]. split; [done|]. split; [done|]. exists (delete (e_key e) ks). split; [done|].
  rewrite <- Hv. apply visible_delete_expired, visible_None. intros a Ha Hl.
  destruct Hks as [_ Hm]. specialize (Hm (e_key e)). rewrite He, Ha in Hm.
  inversion Hm as [? ? (_ & Ho & _)|]; subst. unfold live in Hl. congruence.
Qed.

(** One more entry is visited: it was kept, or it has been deleted. *)
Lemma visited_keep t m c s0 zs e s s' :
  visited t m c s0 zs s → Rep t m c s' → st_db s' = st_db s →
  expired t (o_expire_at (e_val e)) = false → visited t m c s0 (zs ++ [e]) s'.
Proof.
  intros (_ & Hcur & Hsh & Hz) HR Hdb Ex. unfold visited. rewrite Hdb. split; [done|]. split; [done|].
  split; [done|]. intros x [Hx|Hx]%elem_of_app Hxe; [by apply Hz|].
  apply list_elem_of_singleton in Hx as ->. congruence.
Qed.

Lemma visited_delete t m c s0 zs e s s' d' :
  visited t m c s0 zs s → st_db s' = st_db s → dict_wf (db_d (st_db s)) →
  d' = (dict_delete (db_d (st_db s')) (e_key e)).2 →
  Rep t m c (with_dict s' d') → visited t m c s0 (zs ++ [e]) (with_dict s' d').
Proof.
  intros (_ & Hcur & Hsh & Hz) Hdb Hwf Hd' HR. split; [done|]. simpl. rewrite Hdb in *. split; [done|].
  destruct (dict_delete_correct _ (e_key e) Hwf) as (_ & Ha & _). rewrite <- Hd' in Ha. split.
  - eapply shrinks_trans; [exact Hsh|]. rewrite Hd'. apply dict_delete_shrinks.
  - intros x Hx Hxe. rewrite Ha. apply lookup_delete_None. apply elem_of_app in Hx as [Hx|Hx].
    + right. by apply Hz.
    + left. by apply list_elem_of_singleton in Hx as ->.
Qed.

Lemma Rep_wf t m c s : Rep t m c s → dict_wf (db_d (st_db s)).
Proof. by intros (_ & _ & ks & [? _] & _). Qed.

Lemma wp_expire_bucket t m c s i n :
  Rep t m c s →
  wp (expire_bucket n (bucket (table (db_d (st_db s))) i)) (λ n' s',
    n' = (n + length (bucket (table (db_d (st_db s))) i))%nat ∧
    visited t m c s (bucket (table (db_d (st_db s))) i) s') s.
Proof.
  intros HR. pose proof (Rep_wf _ _ _ _ HR) as Hwf0. set (ch := bucket _ i).
  assert (Hnd : NoDup (e_key <$> ch)) by (by apply bucket_nodup).
  apply (wp_foldM (λ ys n' s', ∃ zs, ch = zs ++ ys ∧ n' = (n + length zs)%nat ∧ visited t m c s zs s' ∧
    ∀ e, e ∈ ys → dict_abs (db_d (st_db s')) !! e_key e = Some (e_val e))).
  - exists []. split; [done|]. split; [simpl; lia|]. split; [|intros e; by apply bucket_entry].
    split; [done|]. split; [done|]. split; [apply shrinks_refl|]. intros e He. by apply elem_of_nil in He.
  - intros e ys n' s1 (zs & Hch & -> & Hvis & Hy). pose proof (proj1 Hvis) as HR1.
    rewrite Hch, fmap_app, fmap_cons in Hnd. apply NoDup_app in Hnd as (_ & _ & Hnd).
    apply NoDup_cons in Hnd as [Hey _]. apply wp_bind. eapply wp_key_expired; [done|]. intros s2 HR2 Hdb.
    assert (He : dict_abs (db_d (st_db s2)) !! e_key e = Some (e_val e))
      by (rewrite Hdb; apply Hy; by left).
    assert (Hlen : S (n + length zs) = (n + length (zs ++ [e]))%nat) by (rewrite length_app; simpl; lia).
    destruct (expired t (o_expire_at (e_val e))) eqn:Ex.
    + apply wp_bind. eapply wp_delete_expired; [done..|]. intros old d' Hd' HR3. apply wp_ret.
      exists (zs ++ [e]). rewrite <- app_assoc. split; [done|]. split; [done|].
      split; [by eapply visited_delete; [..|apply (Rep_wf _ _ _ _ HR1)| |]|].
      intros x Hx. simpl. rewrite Hd', (proj1 (proj2 (dict_delete_correct _ _ (Rep_wf _ _ _ _ HR2)))).
      rewrite lookup_delete_ne, Hdb; [apply Hy; by right|].
      intros Heq. apply Hey. rewrite Heq. by apply list_elem_of_fmap_2.
    + apply wp_ret. exists (zs ++ [e]). rewrite <- app_assoc. split; [done|]. split; [done|].
      split; [by eapply visited_keep|]. intros x Hx. rewrite Hdb. apply Hy. by right.
  - intros n' s' (zs & Hch & -> & Hv & _). rewrite app_nil_r in Hch. by subst zs.
Qed.

Lemma visited_swept t m c s i s' :
  visited t m c s (bucket (table (db_d (st_db s))) i) s' → swept t (db_d (st_db s')) i.
Proof.
  intros (HR & _ & (_ & _ & Hs) & Hz) e He. destruct (expired _ _) eqn:E; [|done].
  assert (dict_wf (db_d (st_db s'))) as Hwf by (by destruct HR as (_ & _ & ks & [? _] & _)).
  assert (e ∈ bucket (table (db_d (st_db s))) i) as Hin
    by (by eapply elem_of_submseteq, sublist_submseteq).
  specialize (Hz e Hin E). by rewrite (bucket_entry _ _ _ Hwf He) in Hz.
Qed.

(** ** The whole cycle *)

(** Having started at bucket [lo] of the table of [s0]: what has been visited is
    swept, and [examined] counts no more entries than there were. *)
Record progress (t : Z) (m : keyspace) (c : client) (s0 : state) (lo : nat) (examined : nat) (s : state) :
    Prop := {
  pr_rep : Rep t m c s;
  pr_shrinks : shrinks (db_d (st_db s0)) (db_d (st_db s));
  pr_cursor : (lo <= db_cursor (st_db s) <= size (db_d (st_db s)))%nat;
  pr_swept : ∀ i, (lo <= i < db_cursor (st_db s))%nat → swept t (db_d (st_db s)) i;
  pr_examined : (examined <= length (concat (take (db_cursor (st_db s)) (table (db_d (st_db s0))))))%nat;
}.

Lemma wp_set_cursor n (Q : unit → state → Prop) s :
  Q tt (set_db s (Db (db_d (st_db s)) n)) → wp (set_cursor n) Q s.
Proof. done. Qed.

Lemma Rep_cursor t m c s n : Rep t m c s → Rep t m c (set_db s (Db (db_d (st_db s)) n)).
Proof. done. Qed.

Lemma concat_take_S {A} (l : list (list A)) n :
  (n < length l)%nat → length (concat (take (S n) l)) = (length (concat (take n l)) + length (nth n l []))%nat.
Proof.
  intros Hn. destruct (lookup_lt_is_Some_2 l n Hn) as [x Hx].
  rewrite (take_S_r l n x Hx), concat_app, length_app. simpl. rewrite app_nil_r, nth_lookup, Hx. done.
Qed.

(** One turn of the outer loop. *)
Lemma wp_expire_turn t m c s0 lo examined s (k : nat → M unit) (Q : unit → state → Prop) :
  progress t m c s0 lo examined s →
  (db_cursor (st_db s) < size (db_d (st_db s)))%nat →
  (∀ n s', progress t m c s0 lo n s' → db_cursor (st_db s') = S (db_cursor (st_db s)) → wp (k n) Q s') →
  wp (_ ← set_cursor (S (db_cursor (st_db s)));
      ch ← gets (λ s', bucket (table (db_d (st_db s'))) (db_cursor (st_db s)));
      n ← expire_bucket examined ch; k n) Q s.
Proof.
  intros Hp Hlt HQ. apply wp_bind, wp_set_cursor. set (s1 := set_db _ _).
  apply wp_bind. unfold wp at 1, gets. change (db_d (st_db s1)) with (db_d (st_db s)).
  apply wp_bind. eapply wp_mono; [apply (wp_expire_bucket t m c s1); apply Rep_cursor, Hp|].
  intros n s2 [-> Hv]. pose proof (visited_swept _ _ _ _ _ _ Hv) as Hsw.
  destruct Hv as (HR2 & Hcur & Hsh & _). change (db_d (st_db s1)) with (db_d (st_db s)) in *.
  change (db_cursor (st_db s1)) with (S (db_cursor (st_db s))) in Hcur.
  apply HQ; [|done]. destruct Hp as [HR Hsh0 Hc Hswept Hex]. constructor; rewrite ?Hcur.
  - done.
  - by eapply shrinks_trans.
  - rewrite (proj1 Hsh). lia.
  - intros i Hi. destruct (decide (i = db_cursor (st_db s))) as [->|]; [done|].
    eapply swept_shrinks; [done|]. apply Hswept. lia.
  - pose proof (wf_table _ (Rep_wf _ _ _ _ HR)) as Hl. destruct Hsh0 as (_ & Hlen & Hsub).
    rewrite concat_take_S by lia. specialize (Hsub (db_cursor (st_db s))).
    apply sublist_length in Hsub. unfold bucket in *. lia.
Qed.

Lemma wp_expire_loop t m c s0 lo fuel examined s :
  progress t m c s0 lo examined s →
  (size (db_d (st_db s)) - db_cursor (st_db s) <= fuel)%nat →
  wp (expire_loop fuel examined) (λ _ s', ∃ n, progress t m c s0 lo n s' ∧
    (db_cursor (st_db s') = size (db_d (st_db s')) ∨ (EXPIRE_CYCLE_MAX_KEYS <= n)%nat)) s.
Proof.
  revert examined s. induction fuel as [|fuel IH]; intros examined s Hp Hf; cbn [expire_loop].
  - apply wp_ret. exists examined. split; [done|]. left. pose proof (pr_cursor _ _ _ _ _ _ _ Hp). lia.
  - apply wp_bind. unfold wp at 1, gets. apply wp_bind. unfold wp at 1.
    destruct (_ && _) eqn:E.
    + apply andb_true_iff in E as [_ Hlt%Nat.ltb_lt].
      eapply wp_expire_turn; [done..|]. intros n s' Hp' Hcur. apply IH; [done|].
      pose proof (proj1 (pr_shrinks _ _ _ _ _ _ _ Hp')) as Hs1.
      pose proof (proj1 (pr_shrinks _ _ _ _ _ _ _ Hp)) as Hs2. lia.
    + apply wp_ret. exists examined. split; [done|]. apply andb_false_iff in E as [E|E].
      * right. by apply Nat.ltb_ge in E.
      * left. apply Nat.ltb_ge in E. pose proof (pr_cursor _ _ _ _ _ _ _ Hp). lia.
Qed.

(** The cycle on a table that is not empty: progress from bucket [lo], where it
    resumes, until the end of the table or the bound on examined keys; the cursor
    wraps at the end. *)
Lemma wp_cycle t m c s :
  Rep t m c s → size (db_d (st_db s)) ≠ 0%nat →
  wp db_expire_cycle (λ _ s', ∃ n lo s1,
    lo = (if (size (db_d (st_db s)) <=? db_cursor (st_db s))%nat then 0 else db_cursor (st_db s))%nat ∧
    progress t m c s lo n s1 ∧
    (db_cursor (st_db s1) = size (db_d (st_db s1)) ∨ (EXPIRE_CYCLE_MAX_KEYS <= n)%nat) ∧
    s' = set_db s1 (Db (db_d (st_db s1))
           (if (size (db_d (st_db s1)) <=? db_cursor (st_db s1))%nat then 0 else db_cursor (st_db s1))%nat)) s.
Proof.
  intros HR Hs. unfold db_expire_cycle. set (sz := size (db_d (st_db s))) in *.
  set (lo := (if (sz <=? db_cursor (st_db s))%nat then 0 else db_cursor (st_db s))%nat). apply wp_bind. unfold wp at 1, gets. fold sz.
  rewrite (proj2 (Nat.eqb_neq _ _)) by done. apply wp_bind. unfold wp at 1. apply wp_bind.
  assert (Hgo : wp (_ ← expire_loop sz 0; cur ← gets (λ s, db_cursor (st_db s));
    if (sz <=? cur)%nat then set_cursor 0 else mret tt) (λ _ s', ∃ n lo0 s1,
    lo0 = lo ∧ progress t m c s lo0 n s1 ∧
    (db_cursor (st_db s1) = size (db_d (st_db s1)) ∨ (EXPIRE_CYCLE_MAX_KEYS <= n)%nat) ∧
    s' = set_db s1 (Db (db_d (st_db s1))
      (if (size (db_d (st_db s1)) <=? db_cursor (st_db s1))%nat then 0 else db_cursor (st_db s1))%nat))
    (set_db s (Db (db_d (st_db s)) lo))).
  { apply wp_bind. eapply wp_mono; [apply (wp_expire_loop t m c s lo)|].
    - constructor; simpl; fold sz.
      + by apply Rep_cursor.
      + apply shrinks_refl.
      + subst lo. case_if; [lia|]. apply Nat.leb_gt in Heqb. lia.
      + intros i Hi. lia.
      + lia.
    - simpl. fold sz. lia.
    - intros [] s1 (n & Hp & Hend). apply wp_bind. unfold wp at 1, gets.
      replace sz with (size (db_d (st_db s1))) by apply (pr_shrinks _ _ _ _ _ _ _ Hp).
      case_if; apply wp_ret || apply wp_set_cursor; exists n, lo, s1; rewrite Heqb;
        (split; [done|]); (split; [done|]); (split; [done|]); by destruct s1 as [[] ? ? ?]. }
  destruct (sz <=? db_cursor (st_db s))%nat; [by apply wp_set_cursor|].
  apply wp_ret. by destruct s as [[] ? ? ?].
Qed.

Lemma wp_expire_cycle t m c s :
  Rep t m c s →
  wp db_expire_cycle (λ _ s', Rep t m c s' ∧
    (db_cursor (st_db s') = 0%nat ∨ (db_cursor (st_db s') < size (db_d (st_db s')))%nat)) s.
Proof.
  intros HR. destruct (decide (size (db_d (st_db s)) = 0%nat)) as [E|E].
  - unfold db_expire_cycle. apply wp_bind. unfold wp at 1, gets. rewrite E. apply wp_set_cursor.
    split; [by apply Rep_cursor|by left].
  - eapply wp_mono; [by apply wp_cycle|]. intros [] s' (n & lo & s1 & _ & Hp & _ & ->).
    split; [apply Rep_cursor, Hp|]. simpl. case_if; [by left|right]. by apply Nat.leb_gt in Heqb.
Qed.

(** C28: The expire cycle cannot be observed: it removes no visible key and leaves
    the client alone, and its cursor stays inside the table. *)
Theorem expire_cycle_unobservable t m c s :
  Rep t m c s →
  wp db_expire_cycle (λ _ s', Rep t m c s' ∧
    (db_cursor (st_db s') = 0%nat ∨ (db_cursor (st_db s') < size (db_d (st_db s')))%nat)) s.
Proof. apply wp_expire_cycle. Qed.

Lemma expire_cycle_unobservable_witness :
  wp db_expire_cycle (λ _ s', Rep 1000 ∅ (client_init 3 0) s' ∧
    (db_cursor (st_db s') = 0%nat ∨ (db_cursor (st_db s') < size (db_d (st_db s')))%nat)) start.
Proof. apply (expire_cycle_unobservable 1000 ∅ (client_init 3 0) start start_Rep). Defined.

Lemma all_swept_visible t d ks :
  db_rep d ks → (∀ i, (i < size d)%nat → swept t d i) → visible t ks = ks.
Proof.
  intros Hks Hsw. pose proof Hks as [Hwf Hm]. apply map_filter_id. intros k a Hk. simpl.
  specialize (Hm k). rewrite Hk in Hm. inversion Hm as [o a' (_ & He & _) Eo|]; subst.
  symmetry in Eo. apply dict_abs_entries in Eo as (e & Hin & <- & <-).
  rewrite dict_entries_concat in Hin. apply elem_of_concat in Hin as (i & ch & Hi & Hin).
  pose proof (lookup_lt_Some _ _ _ Hi) as Hlt. rewrite (wf_table _ Hwf) in Hlt.
  unfold live. rewrite <- He. apply (Hsw i Hlt). unfold bucket. by rewrite nth_lookup, Hi.
Qed.


