(* ===== verification/Frame.v ===== *)
(** * What the commands leave alone, and what they log

    A handler changes the keyspace, the calling client and the streams it consumes
    (clock, random numbers), but none of the persistence globals and not the log.
    Together with the dispatcher's logging this gives the exact content of the
    append-only file after a session: the RESP encodings of the write commands, in
    the order of execution. *)

From S2P Require Import Prelude Util Dict CList Zskiplist Object Machine DbCore.
From S2P Require Import DbString DbList DbHash DbSet DbZset Resp Aof Dispatch Session.
Import Num.

Record frame (s s' : state) : Prop := Frame {
  fr_globals : st_globals s' = st_globals s;
  fr_write : w_write (st_world s') = w_write (st_world s);
  fr_writes : w_writes (st_world s') = w_writes (st_world s);
  fr_sys : w_sys (st_world s') = w_sys (st_world s);
}.

#[export] Instance frame_preorder : PreOrder frame.
Proof. split; [by split|]. intros ??? [] []. split; congruence. Qed.

Definition keeps {A} (m : M A) : Prop := ∀ s a s', m s = Some (a, s') → frame s s'.

Create HintDb keeps.

Lemma keeps_ret {A} (a : A) : keeps (mret a).
Proof. by intros s b s' [= <- <-]. Qed.
Lemma keeps_ub {A} : keeps (ub : M A).
Proof. done. Qed.
Lemma keeps_lift {A} (o : option A) : keeps (lift o).
Proof. intros s b s'. unfold lift. by destruct o; intros [= <- <-]. Qed.
Lemma keeps_gets {A} (f : state → A) : keeps (gets f).
Proof. by intros s b s' [= <- <-]. Qed.
Lemma keeps_bind {A B} (m : M A) (f : A → M B) : keeps m → (∀ a, keeps (f a)) → keeps (m ≫= f).
Proof.
  intros Hm Hf s b s'. unfold mbind, M_bind. destruct (m s) as [[a s1]|] eqn:E; [|done].
  intros E'. etrans; [by eapply Hm|by eapply Hf].
Qed.
Lemma keeps_modify f : (∀ s, frame s (f s)) → keeps (modify f).
Proof. intros Hf s b s' [= <- <-]. apply Hf. Qed.
Lemma keeps_foldM {A B} (f : B → A → M B) b xs : (∀ b x, keeps (f b x)) → keeps (foldM f b xs).
Proof.
  intros Hf. revert b. induction xs as [|x xs IH]; intros b; [apply keeps_ret|]. by apply keeps_bind.
Qed.
Lemma keeps_forM {A} (f : A → M unit) xs : (∀ x, keeps (f x)) → keeps (forM xs f).
Proof. intros Hf. by apply keeps_foldM. Qed.
Lemma keeps_now_ms : keeps now_ms.
Proof. by intros s b s' [= <- <-]. Qed.
Lemma keeps_rands n : keeps (rands n).
Proof. by intros s b s' [= <- <-]. Qed.
Lemma keeps_random_seed : keeps random_seed.
Proof. by intros s b s' [= <- <-]. Qed.
Lemma keeps_reply b : keeps (reply b).
Proof. by apply keeps_modify. Qed.
Lemma keeps_set_closing : keeps set_closing.
Proof. by apply keeps_modify. Qed.
Lemma keeps_store_set k o : keeps (store_set k o).
Proof. intros s b s'. unfold store_set. destruct (dict_set _ _ _). by intros [= <- <-]. Qed.
Lemma keeps_store_delete k : keeps (store_delete k).
Proof. intros s b s'. unfold store_delete. destruct (dict_delete _ _). by intros [= <- <-]. Qed.
Lemma keeps_store_poke k o : keeps (store_poke k o).
Proof. by intros s b s' [= <- <-]. Qed.
#[export] Hint Resolve keeps_ret keeps_ub keeps_lift keeps_gets keeps_now_ms keeps_rands keeps_random_seed
  keeps_reply keeps_set_closing keeps_store_set keeps_store_delete keeps_store_poke : keeps.

Ltac keeps_step :=
  first [ apply keeps_bind; [|intros ?] | apply keeps_modify; intros ?; by split | apply keeps_forM; intros ? | apply keeps_foldM; intros ? ?
        | solve [eauto with keeps]
        | match goal with |- keeps (match ?x with _ => _ end) => destruct x end ].
Ltac keeps := repeat keeps_step.

Lemma keeps_arg cmd i : keeps (arg cmd i).
Proof. apply keeps_lift. Qed.
Lemma keeps_store_get k : keeps (store_get k).
Proof. apply keeps_gets. Qed.
#[export] Hint Resolve keeps_arg keeps_store_get : keeps.
#[export] Hint Unfold reply_simple reply_error reply_integer reply_bulk reply_bulk_cstr reply_null
  reply_array_header reply_wrongtype : keeps.
Lemma keeps_key_expired o : keeps (key_expired o).
Proof. unfold key_expired. keeps. Qed.
#[export] Hint Resolve keeps_key_expired : keeps.
Lemma keeps_lookup_key k : keeps (lookup_key k).
Proof. unfold lookup_key. keeps. Qed.
Lemma keeps_maybe_delete_key k o : keeps (maybe_delete_key k o).
Proof. unfold maybe_delete_key. keeps. Qed.
#[export] Hint Resolve keeps_lookup_key keeps_maybe_delete_key : keeps.


(** ** Loops of the handlers *)

Lemma keeps_set_options n l nx xx e : (length l <= n)%nat → keeps (set_options l nx xx e).
Proof.
  revert l nx xx e. induction n as [|n IH]; intros [|a l] nx xx e Hl; cbn [length] in Hl; try lia;
    cbn [set_options]; keeps; apply IH; cbn [length] in *; lia.
Qed.
Lemma keeps_options cmd nx xx e : keeps (set_options cmd nx xx e).
Proof. by eapply keeps_set_options. Qed.
#[export] Hint Resolve keeps_options : keeps.

Lemma keeps_keys_match pat e : keeps (keys_match pat e).
Proof. unfold keys_match. keeps. Qed.
Lemma keeps_list_pop_count head k n : keeps (list_pop_count head k n).
Proof. unfold list_pop_count. keeps. Qed.
Lemma keeps_hash_or_new k o : keeps (hash_or_new k o).
Proof. unfold hash_or_new. keeps. Qed.
Lemma keeps_set_or_new k o : keeps (set_or_new k o).
Proof. unfold set_or_new. keeps. Qed.
Lemma keeps_spop_loop n s : keeps (spop_loop n s).
Proof. revert s. induction n as [|n IH]; intros s; cbn [spop_loop]; keeps. Qed.
#[export] Hint Resolve keeps_keys_match keeps_list_pop_count keeps_hash_or_new keeps_set_or_new
  keeps_spop_loop : keeps.
Lemma keeps_spop_count k n : keeps (spop_count k n).
Proof. unfold spop_count. keeps. Qed.
Lemma keeps_set_arg_get k : keeps (set_arg_get k).
Proof. unfold set_arg_get. keeps. Qed.
Lemma keeps_deref_set h : keeps (deref_set h).
Proof. unfold deref_set. keeps. Qed.
#[export] Hint Resolve keeps_spop_count keeps_set_arg_get keeps_deref_set : keeps.
Lemma keeps_set_args ks : keeps (set_args ks).
Proof. induction ks; cbn [set_args]; keeps. Qed.
Lemma keeps_smallest_set b hs : keeps (smallest_set b hs).
Proof. revert b. induction hs; intros b; cbn [smallest_set]; keeps. Qed.
Lemma keeps_in_all b f hs : keeps (in_all b f hs).
Proof. induction hs; cbn [in_all]; keeps. Qed.
Lemma keeps_in_no_other f hs : keeps (in_no_other f hs).
Proof. induction hs; cbn [in_no_other]; keeps. Qed.
Lemma keeps_sunion_loop ks u : keeps (sunion_loop ks u).
Proof. revert u. induction ks; intros u; cbn [sunion_loop]; keeps. Qed.
Lemma keeps_reply_filtered h test : (∀ f, keeps (test f)) → keeps (reply_filtered h test).
Proof. intros Ht. unfold reply_filtered. keeps. Qed.
#[export] Hint Resolve keeps_set_args keeps_smallest_set keeps_in_all keeps_in_no_other keeps_sunion_loop
  keeps_reply_filtered : keeps.

Lemma keeps_zset_insert z score member : keeps (zset_insert z score member).
Proof. unfold zset_insert, random_level. keeps. Qed.
Lemma keeps_zset_or_new k o : keeps (zset_or_new k o).
Proof. unfold zset_or_new. keeps. Qed.
Lemma keeps_reply_double d : keeps (reply_double d).
Proof. unfold reply_double. keeps. Qed.
#[export] Hint Resolve keeps_zset_insert keeps_zset_or_new keeps_reply_double : keeps.
Lemma keeps_reply_node b n : keeps (reply_node b n).
Proof. unfold reply_node. keeps. Qed.
#[export] Hint Resolve keeps_reply_node : keeps.
Lemma keeps_reply_run n b b' z x : keeps (reply_run n b b' z x).
Proof. revert x. induction n as [|n IH]; intros x; cbn [reply_run]; keeps. Qed.
Lemma keeps_emit_nodes n b z x y k : keeps (emit_nodes n b z x y k).
Proof. revert x k. induction n as [|n IH]; intros x k; cbn [emit_nodes]; keeps. Qed.
Lemma keeps_zadd_loop f z a c ps : keeps (zadd_loop f z a c ps).
Proof. revert z a c. induction ps as [|[x mem] ps IH]; intros z a c; cbn [zadd_loop]; keeps. Qed.
#[export] Hint Resolve keeps_reply_run keeps_emit_nodes keeps_zadd_loop : keeps.

(** ** Handlers *)

Definition quiet other (p : string * spec) : Prop :=
  ∃ e, find_command other (bs p.1) = Some e ∧ ∀ cmd, keeps (ce_fn e cmd).

Lemma all_quiet other : Forall (quiet other) specs.
Proof.
  unfold specs.
  repeat (apply Forall_cons_2;
    [eexists; split; [reflexivity|]; intros cmd;
     cbn [ce_fn entry_of snd];
     unfold cmd_ping, cmd_echo, cmd_select, cmd_quit, cmd_set, cmd_get, cmd_del, cmd_exists, cmd_incr,
       cmd_decr, incr_decr, cmd_mget, cmd_mset, cmd_append, cmd_strlen, cmd_getrange, cmd_setrange,
       cmd_rename, cmd_setnx, cmd_setex, cmd_getset, cmd_type, cmd_keys, cmd_flushall, cmd_dbsize,
       cmd_info, cmd_command,
       cmd_expire, cmd_pexpire, cmd_expireat, cmd_pexpireat, cmd_ttl, cmd_pttl, cmd_expire_generic,
       cmd_expireat_generic, cmd_ttl_generic, cmd_lpush,
       cmd_rpush, cmd_lpushx, cmd_rpushx, cmd_lpop, cmd_rpop, list_push, list_pop, cmd_llen, cmd_lrange,
       cmd_lindex, cmd_lset, cmd_ltrim, cmd_lrem, cmd_linsert,
       cmd_hset, cmd_hmset, hash_set_many, cmd_hget, cmd_hmget, cmd_hgetall, cmd_hkeys, cmd_hvals,
       hash_keys_or_vals, cmd_hlen, cmd_hexists, cmd_hdel, cmd_hsetnx, cmd_hincrby,
       cmd_hincrbyfloat, cmd_zadd, cmd_zcard, cmd_zscore, cmd_zrem, cmd_zrange, cmd_zrevrange, zrange_common,
       cmd_zrangebyscore, cmd_zrank, cmd_zrevrank, rank_command, cmd_zincrby, cmd_zcount,
       cmd_sadd, cmd_srem, cmd_sismember, cmd_scard, cmd_smembers, cmd_spop, cmd_sinter, cmd_sunion, cmd_sdiff;
     keeps|]).
  apply Forall_nil_2.
Qed.

Lemma find_spec_quiet other name sp e cmd :
  find_spec name = Some sp → find_command other name = Some e → keeps (ce_fn e cmd).
Proof.
  unfold find_spec. destruct (find _ specs) as [[n sp']|] eqn:E; [|done]. intros _ He.
  apply find_some in E as [Hin Hn]. cbn [fst snd] in *.
  pose proof (proj1 (Forall_forall _ _) (all_quiet other) _ (proj2 (list_elem_of_In _ _) Hin))
    as (e' & He' & Hq).
  cbn [fst] in He'. rewrite (find_command_case _ _ _ Hn), He' in He. by injection He as <-.
Qed.

(** ** The log *)

(** Whether the dispatcher logs a command. *)
Definition logged other (cmd : command) : bool :=
  match cmd with
  | [] => false
  | name :: _ => match find_command other (cstr name) with Some e => ce_write e | None => false end
  end.

(** What a command adds to the log. *)
Definition log_entry other (cmd : command) : bytes :=
  if logged other cmd then resp_encode (cstr <$> cmd) else [].

(** An open log whose writes do not fail, with its content and its mirror. *)
Record logging (file buf : bytes) (rewriting : bool) (s : state) : Prop := {
  lg_fd : 0 <= g_aof_fd (st_globals s);
  lg_replaying : g_aof_replaying (st_globals s) = false;
  lg_rewriting : g_aof_rewriting (st_globals s) = rewriting;
  lg_file : g_aof_file (st_globals s) = file;
  lg_buf : g_rewrite_buf (st_globals s) = buf;
  lg_write : ∀ i, is_Some (w_write (st_world s) i);
}.

Lemma logging_frame file buf rw s s' : logging file buf rw s → frame s s' → logging file buf rw s'.
Proof. intros [] [Hg Hw _ _]. split; rewrite ?Hg, ?Hw; done. Qed.

Lemma wp_keeps {A} (m : M A) Q s : keeps m → wp m Q s → wp m (λ a s', Q a s' ∧ frame s s') s.
Proof.
  intros Hk. unfold wp. destruct (m s) as [[a s']|] eqn:E; [|done]. intros HQ. split; [done|].
  by eapply Hk.
Qed.

Lemma wp_append_logging file buf rw cmd s :
  logging file buf rw s →
  wp (aof_append_command (g_aof_fd (st_globals s)) cmd) (λ _ s',
    let b := resp_encode (cstr <$> cmd) in
    with_log s s' (file ++ b) (buf ++ if rw then b else []) ∧
    logging (file ++ b) (buf ++ if rw then b else []) rw s') s.
Proof.
  intros [Hfd Hre Hrw Hf Hb Hw]. eapply wp_mono; [by apply wp_aof_append|].
  intros rc s' (p & q & Hpq & Hrc & Herr & Hlog). destruct rc.
  - rewrite (Hrc eq_refl), app_nil_r in Hpq. cbn [andb] in Hlog. rewrite Hrw, Hf, Hb in Hlog. subst p.
    split; [done|]. destruct Hlog as (_ & _ & _ & Hw' & _ & Hg).
    split; rewrite ?Hg, ?Hw'; cbn; try done; by rewrite Hrw.
  - destruct (Herr eq_refl) as [i Hi]. destruct (Hw i) as [? Hi']. congruence.
Qed.

Lemma dispatch_logs other t m c cmd s file buf rw :
  supported other cmd → Rep t m c s → logging file buf rw s →
  wp (dispatch_command other cmd) (λ _ s',
    (∃ m' r, exec t m (cstr <$> cmd) m' r ∧ Rep t m' (deliver c r) s') ∧
    logging (file ++ log_entry other cmd) (buf ++ if rw then log_entry other cmd else []) rw s') s.
Proof.
  intros Hs HR Hl. destruct cmd as [|name args]; [done|].
  unfold log_entry, logged, dispatch_command, exec. cmd_simpl.
  wp_steps. destruct (find_spec (cstr name)) as [sp|] eqn:Esp.
  - destruct (find_spec_implemented other _ _ Esp) as (e & He & Hr). rewrite He.
    pose proof (find_spec_quiet other _ _ e (name :: args) Esp He) as Hq.
    assert (Hrun : ∀ file buf s, Rep t m c s → logging file buf rw s →
      wp (ce_fn e (name :: args)) (λ _ s',
        (∃ m' r, sp t m (cstr name :: (cstr <$> args)) m' r ∧ Rep t m' (deliver c r) s') ∧
        logging file buf rw s') s).
    { intros file' buf' s1 HR1 Hl1.
      eapply wp_mono; [exact (wp_keeps _ _ _ Hq (Hr t m c (name :: args) s1 ltac:(done) HR1))|].
      intros [] s2 [He2 Hf]. split; [exact He2|]. by eapply logging_frame. }
    wp_steps. unfold wp at 1, gets. apply wp_bind.
    rewrite (lg_replaying _ _ _ _ Hl), (proj2 (Z.geb_le _ _) (lg_fd _ _ _ _ Hl)).
    destruct (ce_write e); cbn [andb negb].
    + apply wp_bind. eapply wp_mono; [by apply wp_append_logging|].
      intros rc s1 [Hw Hl1]. apply wp_ret. apply Hrun; [by eapply Rep_with_log|done].
    + apply wp_ret. destruct rw; rewrite !app_nil_r; by apply Hrun.
  - destruct Hs as [Hs|Hs]; [by rewrite Esp in Hs|]. rewrite Hs.
    assert (Hq : keeps (reply_error (unknown_command (cstr name)))) by eauto with keeps.
    destruct rw; rewrite !app_nil_r.
    all: eapply wp_mono; [apply (wp_keeps _ (λ _ s', ∃ m' r, (m' = m ∧ r = RError (unknown_command (cstr name)))
           ∧ Rep t m' (deliver c r) s') _ Hq); wp_steps; by eauto|].
    all: intros [] s' [He Hf]; split; [exact He|by eapply logging_frame].
Qed.

Lemma logging_at_time file buf rw t s : logging file buf rw s → logging file buf rw (at_time t s).
Proof. by intros []; split. Qed.

(** What a session adds to the log. *)
Definition session_log other (l : list (Z * command)) : bytes :=
  concat (map (λ x, log_entry other x.2) l).

(** The time of the last command. *)
Fixpoint end_time (t : Z) (l : list (Z * command)) : Z := match l with [] => t | (t', _) :: l => end_time t' l end.

Lemma times_from_app t l1 l2 : times_from t (l1 ++ l2) ↔ times_from t l1 ∧ times_from (end_time t l1) l2.
Proof. revert t. induction l1 as [|[t' cmd] l1 IH]; intros t; cbn; [naive_solver|]. rewrite IH. naive_solver. Qed.

Lemma session_logs other l t m c s file buf rw :
  Rep t m c s → times_from t l → Forall (λ x, supported other x.2) l → logging file buf rw s →
  wp (run_session other l) (λ _ s', ∃ m' rs c', session m l m' rs ∧ Rep (end_time t l) m' c' s' ∧
    let b := session_log other l in
    logging (file ++ b) (buf ++ if rw then b else []) rw s') s.
Proof.
  revert t m c s file buf. induction l as [|[t' cmd] l IH]; intros t m c s file buf HR Ht Hs Hl.
  - apply wp_ret. exists m, [], c. split; [constructor|]. split; [done|].
    cbn. by destruct rw; rewrite !app_nil_r.
  - destruct Ht as [Ht Hts]. apply Forall_cons in Hs as [Hcmd Hs]. cbn [run_session].
    apply wp_bind. unfold wp at 1, modify. apply wp_bind.
    eapply wp_mono.
    { eapply dispatch_logs; [done|by apply (Rep_at_time _ _ _ _ t' HR)|by apply logging_at_time]. }
    intros [] s1 [(m1 & r & He & HR1) Hl1].
    eapply wp_mono; [by eapply IH|]. intros [] s2 (m2 & rs & c2 & Hse & HR2 & Hl2).
    exists m2, (r :: rs), c2. split; [by econstructor|]. split; [done|].
    unfold session_log in *. cbn [map concat snd] in *. cbn in Hl2. destruct rw; rewrite <- ?app_assoc in Hl2; done.
Qed.

(** C23: With an open append-only file whose writes do not fail, a session of a
    server that has just started appends to the file exactly the RESP encodings of
    the write commands (arguments cut at their first NUL), in the order they were
    executed, and mirrors them while a background rewrite runs; reads and unknown
    commands add nothing. *)
Theorem aof_log_exact other seed fd w g t0 l :
  0 <= t0 <= INT64_MAX → times_from t0 l → Forall (λ x, supported other x.2) l →
  0 <= g_aof_fd g → g_aof_replaying g = false → (∀ i, is_Some (w_write w i)) →
  let b := concat (map resp_encode (map (fmap cstr) (filter (λ cmd, logged other cmd = true) (map snd l)))) in
  ∃ s', run_session other l (at_time t0 (fresh seed fd w g)) = Some (tt, s') ∧
    g_aof_file (st_globals s') = g_aof_file g ++ b ∧
    g_rewrite_buf (st_globals s') = g_rewrite_buf g ++ if g_aof_rewriting g then b else [].
Proof.
  intros H0 Ht Hs Hfd Hre Hw b.
  destruct (wp_run _ _ _ (session_logs other l t0 ∅ (client_init fd 0) (at_time t0 (fresh seed fd w g))
    (g_aof_file g) (g_rewrite_buf g) (g_aof_rewriting g) (Rep_fresh _ _ _ _ _ H0) Ht Hs ltac:(by split)))
    as ([] & s' & Hrun & m' & rs & c' & _ & _ & [_ _ _ Hf Hb _]).
  assert (session_log other l = b) as E.
  { subst b. clear. unfold session_log, log_entry. induction l as [|[t cmd] l IH]; [done|].
    cbn [map concat snd]. rewrite filter_cons, IH. destruct (logged other cmd) eqn:E.
    - by rewrite decide_True.
    - by rewrite decide_False by congruence. }
  exists s'. by rewrite Hf, Hb, E.
Qed.

(** A world whose [write] takes three bytes at a time, and an open log. *)
Definition slow_disk : world :=
  World (λ _, 0) 0 (λ _, 0) 0 (λ _, replicate 16 NUL) 0 (λ _, Some 2%nat) 0 idle_system.
Definition open_log : globals := Globals 0 5 false true [] [] 0 None None false.

Lemma aof_log_exact_witness :
  let l := [(1000, [bs "SET"; bs "k"; bs "v"]); (2000, [bs "get"; bs "k"]); (3000, [bs "incr"; bs "n"])] in
  let b := resp_encode [bs "SET"; bs "k"; bs "v"] ++ resp_encode [bs "incr"; bs "n"] in
  ∃ s', run_session no_other l (at_time 0 (fresh (replicate 16 NUL) 3 slow_disk open_log)) = Some (tt, s') ∧
    g_aof_file (st_globals s') = b ∧ g_rewrite_buf (st_globals s') = b.
Proof.
  apply (aof_log_exact no_other (replicate 16 NUL) 3 slow_disk open_log 0
    [(1000, [bs "SET"; bs "k"; bs "v"]); (2000, [bs "get"; bs "k"]); (3000, [bs "incr"; bs "n"])]).
  - vm_compute. split; congruence.
  - vm_compute. repeat split; congruence.
  - repeat (apply Forall_cons_2; [by left|]). apply Forall_nil_2.
  - vm_compute. congruence.
  - reflexivity.
  - intros i. by exists 2%nat.
Defined.
