(* ===== verification/Replay.v ===== *)
(** * Recovery from the append-only log ([aof_replay] of [src/aof.c])

    Replaying a log executes the recorded commands through the dispatcher with a
    client whose replies are thrown away.  The theorems say what state comes back:
    after any crash, also one that cut the last entry short, the keyspace of the
    write commands executed at replay time, and, when the commands do not involve
    expiration or random choice, exactly the keyspace that was lost. *)

From S2P Require Import Prelude Util Dict CList Zskiplist Object Machine DbCore.
From S2P Require Import DbString DbList DbHash DbSet DbZset Resp Aof Dispatch Session Frame.
Import Num.

Section Replay.

Context (other : string → command → M unit).

Definition set_replaying (b : bool) : M unit := modify (λ s,
  let g := st_globals s in
  set_globals s (set_aof_replaying g b)).

Definition put_client (c : client) : M unit := modify (λ s, set_client s c).

(** [if (fake->closing) fake->closing = 0; dynbuf_clear(&fake->out);] *)
Definition reset_fake : M unit := modify (λ s, let c := st_client s in
  set_client s (Client (c_fd c) (c_in c) [] (c_out_sent c) false (c_events c) (c_subscribed c))).

(** [while (pos < b.len)], on the bytes from [pos] on; every turn that goes on
    consumes at least one byte.  [true] stands for 0, [false] for -1. *)
Fixpoint replay_loop (fuel : nat) (b : bytes) : M bool :=
  match b with
  | [] => mret true
  | _ =>
      match fuel with
      | O => ub
      | S fuel =>
          let '(consumed, argv) := resp_parse_command b in
          if consumed >? 0 then
            _ ← dispatch_command other argv;
            _ ← reset_fake;
            replay_loop fuel (drop (Z.to_nat consumed) b)
          else if consumed <? 0 then mret false
          else mret true
      end
  end.

(** [file] is what reading the log delivers, [None] for an error; [garbage] the
    field [client_init] leaves unset. *)
Definition aof_replay (file : option bytes) (garbage : Z) : M bool :=
  match file with
  | None => mret false
  | Some [] => mret true
  | Some b =>
      c ← gets st_client;
      _ ← put_client (client_init (-1) garbage);
      _ ← set_replaying true;
      rc ← replay_loop (length b) b;
      _ ← set_replaying false;
      _ ← put_client c;
      mret rc
  end.

(** ** Replaying whole entries *)

(** A command the log can hold and the parser gives back. *)
Definition loggable (cmd : command) : Prop :=
  supported other cmd ∧ encodable cmd ∧ Z.of_nat (length (resp_encode cmd)) < 2 ^ 31.

Lemma parse_frame cmd rest :
  encodable cmd → Z.of_nat (length (resp_encode cmd)) < 2 ^ 31 →
  resp_parse_command (resp_encode cmd ++ rest) = (Z.of_nat (length (resp_encode cmd)), cmd).
Proof.
  intros He Hlen. unfold resp_parse_command. rewrite resp_parse_encoded by done.
  rewrite length_app. unfold wraps32. rewrite Z.mod_small by lia. f_equal. lia.
Qed.

Lemma resp_encode_pos cmd : (0 < length (resp_encode cmd))%nat.
Proof. unfold resp_encode. rewrite length_app. simpl. lia. Qed.

Lemma Rep_reset t m c s :
  Rep t m c s → wp reset_fake (λ _ s', ∃ c', Rep t m c' s') s.
Proof. intros (Hw & Hc & Hks). unfold wp, reset_fake, modify. eexists. split; [exact Hw|]. done. Qed.

(** What is left of an entry when the write was cut short. *)
Definition torn (tail : bytes) : Prop :=
  ∃ cmd x, encodable cmd ∧ resp_encode cmd = tail ++ x ∧ x ≠ [].

Lemma replay_torn fuel tail : torn tail → (length tail <= fuel)%nat → replay_loop fuel tail = mret true.
Proof.
  intros (cmd & x & He & Heq & Hx) Hf. destruct tail as [|b tail], fuel as [|fuel]; simpl in Hf; try lia; try done.
  cbn [replay_loop]. unfold resp_parse_command.
  pose proof (resp_parse_prefix cmd (b :: tail) x He Heq Hx) as Hp.
  destruct (resp_parse (b :: tail)) as [[| |] ?]; cbn in Hp; done.
Qed.

Lemma replay_entries cmds tail t m c s fuel :
  Rep t m c s → Forall loggable cmds → torn tail →
  (length (concat (map resp_encode cmds) ++ tail) <= fuel)%nat →
  wp (replay_loop fuel (concat (map resp_encode cmds) ++ tail)) (λ rc s', rc = true ∧
    ∃ m' rs c', session m (map (pair t) cmds) m' rs ∧ Rep t m' c' s') s.
Proof.
  revert m c s fuel. induction cmds as [|cmd cmds IH]; intros m c s fuel HR Hl Ht Hf.
  - cbn [map concat app]. rewrite replay_torn by done. apply wp_ret. split; [done|].
    exists m, [], c. split; [constructor|done].
  - apply Forall_cons in Hl as [(Hs & He & Hlen) Hl]. cbn [map concat] in *. rewrite <- app_assoc in *.
    set (rest := concat (map resp_encode cmds) ++ tail) in *.
    pose proof (resp_encode_pos cmd) as Hpos. rewrite length_app in Hf.
    destruct fuel as [|fuel]; [lia|].
    assert (Hstep : replay_loop (S fuel) (resp_encode cmd ++ rest) =
      (_ ← dispatch_command other cmd; _ ← reset_fake; replay_loop fuel rest)).
    { destruct (resp_encode cmd ++ rest) as [|b0 l] eqn:E.
      { apply (f_equal length) in E. rewrite length_app in E. simpl in E. lia. }
      cbn [replay_loop]. rewrite <- E, parse_frame by done.
      rewrite Z.gtb_ltb, (proj2 (Z.ltb_lt _ _)) by lia. by rewrite Nat2Z.id, drop_app_length. }
    rewrite Hstep. apply wp_bind. eapply wp_mono; [by apply dispatch_exec|].
    intros [] s1 (m1 & r & Hex & HR1). apply wp_bind. eapply wp_mono; [by eapply Rep_reset|].
    intros [] s2 (c2 & HR2). eapply wp_mono; [eapply IH; [done..|lia]|].
    intros rc s3 (-> & m3 & rs & c3 & Hse & HR3). split; [done|]. exists m3, (r :: rs), c3.
    split; [|done]. cbn [map]. econstructor; [|done]. by rewrite (visible_self _ _ _ _ HR).
Qed.

Lemma wp_replay cmds tail garbage t m c s :
  Rep t m c s → Forall loggable cmds → torn tail →
  wp (aof_replay (Some (concat (map resp_encode cmds) ++ tail)) garbage) (λ rc s', rc = true ∧
    ∃ m' rs, session m (map (pair t) cmds) m' rs ∧ Rep t m' c s') s.
Proof.
  intros HR Hl Ht. unfold aof_replay.
  destruct (concat (map resp_encode cmds) ++ tail) as [|b0 b] eqn:E.
  { apply wp_ret. split; [done|]. destruct cmds as [|cmd cmds].
    - exists m, []. split; [constructor|done].
    - exfalso. apply (f_equal length) in E. cbn [map concat] in E. rewrite !length_app in E.
      pose proof (resp_encode_pos cmd). simpl in E. lia. }
  rewrite <- E. apply wp_bind. unfold wp at 1, gets. apply wp_bind. unfold wp at 1, put_client, modify.
  apply wp_bind. unfold wp at 1, set_replaying, modify. apply wp_bind.
  eapply wp_mono; [eapply (replay_entries _ _ t m (client_init (-1) garbage)); [|done..]|].
  { destruct HR as (Hw & _ & Hks). by split. }
  intros rc s1 (-> & m1 & rs & c1 & Hse & HR1). do 2 apply wp_bind. apply wp_ret. split; [done|].
  exists m1, rs. split; [done|]. destruct HR as (_ & Hc & _).
  destruct HR1 as (Hw & _ & Hks). split; [exact Hw|]. split; [exact Hc|exact Hks].
Qed.

End Replay.

(** ** Recovery *)


(** C24: Replaying a log that consists of complete entries followed by the beginning
    of another one (a write cut short by a crash) succeeds: it executes the complete
    entries in order, at the time of the replay, ignores the rest, and leaves the
    calling client alone. *)
Theorem aof_replay_recovers other cmds tail garbage t m c s :
  Rep t m c s → Forall (loggable other) cmds → torn tail →
  ∃ s' m' rs,
    aof_replay other (Some (concat (map resp_encode cmds) ++ tail)) garbage s = Some (true, s') ∧
    session m (map (pair t) cmds) m' rs ∧ Rep t m' c s'.
Proof.
  intros HR Hl Ht. destruct (wp_run _ _ _ (wp_replay other cmds tail garbage t m c s HR Hl Ht))
    as (rc & s' & Hrun & -> & m' & rs & Hse & HR').
  by exists s', m', rs.
Qed.

Lemma aof_replay_recovers_witness :
  ∃ s' m' rs,
    aof_replay no_other (Some (concat (map resp_encode [[bs "SET"; bs "k"; bs "v"]]) ++ bs "*2" ++ crlf ++ bs "$4")) 0 start
      = Some (true, s') ∧
    session ∅ (map (pair 1000) [[bs "SET"; bs "k"; bs "v"]]) m' rs ∧ Rep 1000 m' (client_init 3 0) s'.
Proof.
  apply (aof_replay_recovers no_other [[bs "SET"; bs "k"; bs "v"]] _ 0 _ _ _ _ start_Rep).
  - apply Forall_cons_2; [|apply Forall_nil_2]. split; [by left|]. split; [|vm_compute; reflexivity].
    apply (bool_decide_unpack _). vm_compute. exact I.
  - exists [bs "INCR"; bs "n"], (crlf ++ bs "INCR" ++ crlf ++ encode_arg (bs "n")). split; [|split].
    + apply (bool_decide_unpack _). vm_compute. exact I.
    + vm_compute. reflexivity.
    + vm_compute. congruence.
Defined.

(** ** Exact recovery *)

(** No key of the keyspace has an expiry. *)
Definition timeless (m : keyspace) : Prop := map_Forall (λ _ a, a_expire a = -1) m.

Lemma timeless_empty : timeless ∅.
Proof. apply map_Forall_empty. Qed.
Lemma timeless_insert m k a : timeless m → a_expire a = -1 → timeless (<[k := a]> m).
Proof. intros. by apply map_Forall_insert_2. Qed.
Lemma timeless_delete m k : timeless m → timeless (delete k m).
Proof. apply map_Forall_delete. Qed.
Lemma timeless_filter (P : bytes * aobj → Prop) `{!∀ x, Decision (P x)} m :
  timeless m → timeless (filter P m).
Proof. intros Hm k a. rewrite map_lookup_filter_Some. intros [Hk _]. by apply (Hm k). Qed.
Lemma timeless_lookup m k v e : timeless m → m !! k = Some (Aobj v e) → e = -1.
Proof. intros Hm Hk. exact (Hm k _ Hk). Qed.
Lemma timeless_settle m k v e : timeless m → e = -1 → timeless (settle m k v e).
Proof.
  intros Hm ->. unfold settle. case_match; [by apply timeless_delete|by apply timeless_insert].
Qed.
Lemma timeless_mset kvs m :
  timeless m → timeless (foldl (λ m '(k, v), <[k := Aobj (VString v) (-1)]> m) m kvs).
Proof. revert m. induction kvs as [|[k v] kvs IH]; intros m Hm; [done|]. by apply IH, timeless_insert. Qed.
Lemma timeless_visible t m : timeless m → visible t m = m.
Proof. intros Hm. apply map_filter_id. intros k a Hk. unfold live. cbn. by rewrite (Hm k a Hk : a_expire a = -1). Qed.

Create HintDb timeless.
#[local] Hint Resolve timeless_empty timeless_insert timeless_delete timeless_filter timeless_lookup
  timeless_settle timeless_mset : timeless.

(** The effect of a command on keys without expiry does not depend on the time and
    leaves them without. *)
Definition steady (sp : spec) : Prop := ∀ t t' m args m1 r1 m2 r2,
  timeless m → sp t m args m1 r1 → sp t' m args m2 r2 → m2 = m1 ∧ timeless m1.

Lemma steady_det f :
  (∀ t t' m args, timeless m → (f t' m args).1 = (f t m args).1 ∧ timeless (f t m args).1) →
  steady (det f).
Proof.
  intros Hf t t' m args m1 r1 m2 r2 Hm. unfold det. intros E1 E2.
  destruct (Hf t t' m args Hm) as [Ht Htl]. rewrite E1, E2 in Ht. rewrite E1 in Htl. done.
Qed.

(** A command that does not change the keyspace. *)
Definition reading (sp : spec) : Prop := ∀ t m args m' r, sp t m args m' r → m' = m.

Lemma reading_steady sp : reading sp → steady sp.
Proof. intros Hr t t' m args m1 r1 m2 r2 Hm H1 H2. by rewrite (Hr _ _ _ _ _ H1), (Hr _ _ _ _ _ H2). Qed.

Lemma reading_det f : (∀ t m args, (f t m args).1 = m) → reading (det f).
Proof. intros Hf t m args m' r E. unfold det in E. specialize (Hf t m args). by rewrite E in Hf. Qed.

Ltac unfold_specs :=
  unfold s_ping, s_echo, s_select, s_quit, s_get, s_exists, s_incr_decr, s_mget, s_mset, s_append, s_strlen,
    s_getrange, s_setrange, s_rename, s_setnx, s_getset, s_ttl, s_type, s_push, s_pop, s_pop_count, s_llen,
    s_lrange, s_lindex, s_lset, s_ltrim, s_lrem, s_linsert, s_hset, s_hget, s_hmget, s_hlen, s_hexists, s_hdel,
    s_hsetnx, s_hincrby, s_hincrbyfloat, s_zadd, zadd_pairs, s_zcard, s_zscore, s_zrem, s_zrange, s_zrangebyscore,
    s_zrank, s_zincrby, s_zcount, on_zset_new, on_zset, s_sadd, s_srem, s_sismember, s_scard, s_flushall, s_command, on_string, on_list,
    on_hash_new, on_hash, on_set, s_del, s_keys, s_dbsize, s_info, s_hgetall, s_hkeys_or_vals,
    s_listing, s_smembers, s_sinter, s_sunion, s_sdiff, s_select_members, s_wrong.

Ltac reading := first
  [ apply reading_det; intros t m args; unfold_specs; solve [repeat case_match; done]
  | intros t m args m' r; unfold_specs; intros H;
    solve [repeat case_match; destruct_and?; simplify_eq; done] ].

Ltac steady := first
  [ apply steady_det; intros t t' m args Hm; split; [reflexivity|];
    unfold_specs; solve [repeat case_match; simplify_eq; cbn [fst]; eauto 6 with timeless]
  | apply reading_steady; reading ].

Lemma del_steady : steady s_del.
Proof.
  intros t t' m args m1 r1 m2 r2 Hm. unfold s_del, s_wrong.
  destruct args as [|a0 [|k ks]]; [naive_solver..|].
  intros (-> & _) (-> & _). split; [done|]. by apply timeless_filter.
Qed.

Definition timed_names : list string :=
  ["setex"; "expire"; "pexpire"; "expireat"; "pexpireat"; "spop"]%string.

Lemma specs_steady : Forall (λ p, p.1 ∈ timed_names ∨ p.1 = "set"%string ∨ steady p.2) specs.
Proof.
  unfold specs.
  repeat (apply Forall_cons_2;
    [first [by right; left | left; set_solver | right; right; cbn [snd]; first [apply del_steady|steady]]|]).
  apply Forall_nil_2.
Qed.

(** Every command the table does not mark as a write is a read. *)
Lemma specs_reading other :
  Forall (λ p, ∃ e, find_command other (bs p.1) = Some e ∧ (ce_write e = true ∨ reading p.2)) specs.
Proof.
  unfold specs.
  repeat (apply Forall_cons_2;
    [eexists; split; [reflexivity|]; first [by left | right; cbn [snd]; reading]|]).
  apply Forall_nil_2.
Qed.

(** Commands whose effect can be replayed at any time: no expiry is set and nothing
    is chosen at random. *)
Definition durable (cmd : command) : bool :=
  match cstr <$> cmd with
  | [] => true
  | name :: args =>
      negb (existsb (λ n, strcaseeq (bs n) name) timed_names) &&
      (negb (strcaseeq (bs "set") name) ||
       forallb (λ a, strcaseeq a (bs "NX") || strcaseeq a (bs "XX")) (drop 2 args))
  end.

Lemma strcaseeq_option a n x : strcaseeq a n = true → strcaseeq a x = strcaseeq n x.
Proof. unfold strcaseeq. rewrite bool_decide_eq_true. by intros ->. Qed.

Lemma set_options_durable t t' opts nx xx :
  forallb (λ a, strcaseeq a (bs "NX") || strcaseeq a (bs "XX")) opts = true →
  ∃ nx' xx', s_set_options t opts nx xx (-1) = inr (nx', xx', -1) ∧
             s_set_options t' opts nx xx (-1) = inr (nx', xx', -1).
Proof.
  revert nx xx. induction opts as [|a opts IH]; intros nx xx; [by eauto|].
  cbn [forallb]. rewrite andb_true_iff, orb_true_iff. intros [[Ha|Ha] Ho]; cbn [s_set_options];
    rewrite !(strcaseeq_option a _ _ Ha); by apply IH.
Qed.

Lemma set_steady t t' m args m1 r1 m2 r2 :
  timeless m → forallb (λ a, strcaseeq a (bs "NX") || strcaseeq a (bs "XX")) (drop 3 args) = true →
  det s_set t m args m1 r1 → det s_set t' m args m2 r2 → m2 = m1 ∧ timeless m1.
Proof.
  intros Hm Ho. unfold det, s_set, s_wrong.
  destruct args as [|a0 [|k [|v opts]]]; [intros; by simplify_eq..|].
  cbn [drop] in Ho.
  destruct (set_options_durable t t' opts false false Ho) as (nx & xx & -> & ->).
  rewrite !put_forever. repeat case_match; intros; simplify_eq; eauto with timeless.
Qed.

Lemma find_spec_case n name : strcaseeq n name = true → find_spec name = find_spec n.
Proof.
  intros Hn. unfold find_spec. f_equal. induction specs as [|p ps IH]; [done|].
  cbn [find]. by rewrite (strcaseeq_table n name Hn), IH.
Qed.

Lemma find_spec_in name sp :
  find_spec name = Some sp → ∃ n, (n, sp) ∈ specs ∧ strcaseeq (bs n) name = true.
Proof.
  unfold find_spec. destruct (find _ specs) as [[n sp']|] eqn:E; [|done]. intros [= <-].
  apply find_some in E as [Hin Hn]. exists n. split; [by apply list_elem_of_In|done].
Qed.

Lemma exec_durable t t' m cmd m1 r1 m2 r2 :
  durable cmd = true → timeless m →
  exec t m (cstr <$> cmd) m1 r1 → exec t' m (cstr <$> cmd) m2 r2 → m2 = m1 ∧ timeless m1.
Proof.
  unfold durable, exec. destruct (cstr <$> cmd) as [|name args]; [done|].
  rewrite andb_true_iff, negb_true_iff. intros [Hn Hset] Hm.
  destruct (find_spec name) as [sp|] eqn:Esp; [|intros [-> ->] [-> ->]; done].
  destruct (find_spec_in _ _ Esp) as (n & Hin & Hname).
  pose proof (proj1 (Forall_forall _ _) specs_steady _ Hin) as [Ht|[Hset'|Hs]]; cbn [fst snd] in *.
  - exfalso. assert (existsb (λ n, strcaseeq (bs n) name) timed_names = true) as Hx; [|congruence].
    apply existsb_exists. exists n. split; [by apply list_elem_of_In|done].
  - subst n. rewrite (find_spec_case _ _ Hname) in Esp. injection Esp as <-.
    rewrite Hname in Hset. by apply set_steady.
  - by apply Hs.
Qed.

Lemma exec_read other t m cmd m1 r1 :
  logged other cmd = false → exec t m (cstr <$> cmd) m1 r1 → m1 = m.
Proof.
  unfold logged, exec. destruct cmd as [|name args]; [done|]. cbn [fmap list_fmap].
  destruct (find_spec (cstr name)) as [sp|] eqn:Esp; [|by intros _ [-> _]].
  destruct (find_spec_in _ _ Esp) as (n & Hin & Hname).
  pose proof (proj1 (Forall_forall _ _) (specs_reading other) _ Hin) as (e & He & Hr). cbn [fst snd] in He, Hr.
  rewrite (find_command_case _ _ _ Hname), He. intros Hw. destruct Hr as [Hr|Hr]; [congruence|].
  apply Hr.
Qed.

(** The entries a session leaves in the log, as commands. *)
Definition log_commands other (l : list (Z * command)) : list command :=
  map (fmap cstr) (filter (λ cmd, logged other cmd = true) (map snd l)).

Lemma log_commands_cons other t cmd l :
  log_commands other ((t, cmd) :: l) =
  if logged other cmd then (cstr <$> cmd) :: log_commands other l else log_commands other l.
Proof.
  unfold log_commands. cbn [map snd]. rewrite filter_cons. destruct (logged other cmd).
  - by rewrite decide_True.
  - by rewrite decide_False.
Qed.

Lemma session_log_commands other l : session_log other l = concat (map resp_encode (log_commands other l)).
Proof.
  unfold session_log, log_entry. induction l as [|[t cmd] l IH]; [done|].
  rewrite log_commands_cons. cbn [map concat snd]. rewrite IH. by destruct (logged other cmd).
Qed.

Lemma session_inv m t cmd l m2 rs :
  session m ((t, cmd) :: l) m2 rs →
  ∃ m1 r rs', exec t (visible t m) (cstr <$> cmd) m1 r ∧ session m1 l m2 rs'.
Proof. inversion 1; eauto. Qed.

Lemma cstr_fmap_idemp (cmd : command) : cstr <$> (cstr <$> cmd) = cstr <$> cmd.
Proof. rewrite <- list_fmap_compose. apply list_fmap_ext. intros i a _. apply cstr_idemp. Qed.

(** Replaying the log of a session of durable commands leads to its keyspace. *)
Lemma session_replayed other t l m m1 rs1 m2 rs2 :
  timeless m → Forall (λ x, durable x.2 = true) l →
  session m l m1 rs1 → session m (map (pair t) (log_commands other l)) m2 rs2 → m2 = m1.
Proof.
  revert m rs1 rs2. induction l as [|[t1 cmd] l IH]; intros m rs1 rs2 Hm Hd H1 H2.
  { inversion H1; inversion H2; by subst. }
  apply Forall_cons in Hd as [Hc Hd]. cbn [snd] in Hc.
  apply session_inv in H1 as (n1 & r1 & rs1' & He1 & Hs1). rewrite timeless_visible in He1 by done.
  rewrite log_commands_cons in H2. destruct (logged other cmd) eqn:E.
  - apply session_inv in H2 as (n2 & r2 & rs2' & He2 & Hs2).
    rewrite timeless_visible, cstr_fmap_idemp in He2 by done.
    destruct (exec_durable _ _ _ _ _ _ _ _ Hc Hm He1 He2) as [-> Hm1]. by eapply IH.
  - rewrite (exec_read other _ _ _ _ _ E He1) in Hs1. by eapply IH.
Qed.

(** A log with no torn entry. *)
Lemma torn_nil : torn [].
Proof.
  exists [], (resp_encode []). split; [|by split].
  split; [vm_compute; congruence|apply Forall_nil_2].
Qed.

Lemma supported_cstr other cmd : supported other cmd → supported other (cstr <$> cmd).
Proof. destruct cmd as [|name args]; [done|]. cbn. by rewrite cstr_idemp. Qed.

(** Every logged command survives the limits of the parser. *)
Definition fits (cmd : command) : Prop :=
  encodable (cstr <$> cmd) ∧ Z.of_nat (length (resp_encode (cstr <$> cmd))) < 2 ^ 31.

Lemma log_commands_loggable other l :
  Forall (λ x, supported other x.2) l → Forall (λ x, fits x.2) l →
  Forall (loggable other) (log_commands other l).
Proof.
  intros Hs Hf. apply Forall_forall. intros cmd Hin. unfold log_commands in Hin.
  apply list_elem_of_In, in_map_iff in Hin as (c0 & <- & Hin).
  apply list_elem_of_In, list_elem_of_filter in Hin as [_ Hin].
  apply list_elem_of_In, in_map_iff in Hin as (x & <- & Hin). apply list_elem_of_In in Hin.
  split; [by apply supported_cstr, (proj1 (Forall_forall _ _) Hs)|].
  exact (proj1 (Forall_forall _ _) Hf _ Hin).
Qed.

(** Crash recovery is exact for commands that set no expiry and choose nothing at
    random: after any session of such commands with the log enabled (an empty file
    at the start, writes that do not fail), a new server that replays the file, at
    any later or earlier time and with other hash seeds, holds exactly the keyspace
    of the server that crashed. *)
Theorem crash_recovery_exact other seed fd w g t0 l seed' fd' w' g' t garbage :
  0 <= t0 <= INT64_MAX → times_from t0 l → 0 <= t <= INT64_MAX →
  Forall (λ x, supported other x.2) l → Forall (λ x, durable x.2 = true) l → Forall (λ x, fits x.2) l →
  0 <= g_aof_fd g → g_aof_replaying g = false → g_aof_file g = [] → (∀ i, is_Some (w_write w i)) →
  ∃ s1 s2 m t1 c1,
    run_session other l (at_time t0 (fresh seed fd w g)) = Some (tt, s1) ∧ Rep t1 m c1 s1 ∧
    aof_replay other (Some (g_aof_file (st_globals s1))) garbage (at_time t (fresh seed' fd' w' g'))
      = Some (true, s2) ∧ Rep t m (client_init fd' 0) s2.
Proof.
  intros H0 Ht0 Ht Hs Hd Hf Hfd Hre Hfile Hw.
  destruct (wp_run _ _ _ (session_logs other l t0 ∅ (client_init fd 0) (at_time t0 (fresh seed fd w g))
    (g_aof_file g) (g_rewrite_buf g) (g_aof_rewriting g) (Rep_fresh _ _ _ _ _ H0) Ht0 Hs ltac:(by split)))
    as ([] & s1 & Hrun & m & rs & c1 & Hse & HR & [_ _ _ Hlog _ _]).
  destruct (wp_run _ _ _ (wp_replay other (log_commands other l) [] garbage t ∅ (client_init fd' 0)
    (at_time t (fresh seed' fd' w' g')) (Rep_fresh _ _ _ _ _ Ht) (log_commands_loggable _ _ Hs Hf) torn_nil))
    as (rc & s2 & Hrun2 & -> & m2 & rs2 & Hse2 & HR2).
  exists s1, s2, m, (end_time t0 l), c1. split; [done|]. split; [done|].
  rewrite Hlog, Hfile, session_log_commands. cbn [app]. rewrite app_nil_r in Hrun2. split; [done|].
  by rewrite <- (session_replayed other t l ∅ m rs m2 rs2 timeless_empty Hd Hse Hse2).
Qed.

Lemma crash_recovery_exact_witness :
  let l := [(1000, [bs "SET"; bs "k"; bs "v"; bs "nx"]); (2000, [bs "GET"; bs "k"]);
            (3000, [bs "RPUSH"; bs "l"; bs "a"; bs "b"])] in
  ∃ s1 s2 m t1 c1,
    run_session no_other l (at_time 0 (fresh (replicate 16 NUL) 3 slow_disk open_log)) = Some (tt, s1) ∧
    Rep t1 m c1 s1 ∧
    aof_replay no_other (Some (g_aof_file (st_globals s1))) 0
      (at_time 9000 (fresh (replicate 16 x01) 4 slow_disk no_aof)) = Some (true, s2) ∧
    Rep 9000 m (client_init 4 0) s2.
Proof.
  apply (crash_recovery_exact no_other (replicate 16 NUL) 3 slow_disk open_log 0
    [(1000, [bs "SET"; bs "k"; bs "v"; bs "nx"]); (2000, [bs "GET"; bs "k"]);
     (3000, [bs "RPUSH"; bs "l"; bs "a"; bs "b"])]).
  - vm_compute. split; congruence.
  - vm_compute. repeat split; congruence.
  - vm_compute. split; congruence.
  - repeat (apply Forall_cons_2; [by left|]). apply Forall_nil_2.
  - repeat (apply Forall_cons_2; [reflexivity|]). apply Forall_nil_2.
  - repeat (apply Forall_cons_2; [split; [apply (bool_decide_unpack _); vm_compute; exact I|vm_compute; reflexivity]|]).
    apply Forall_nil_2.
  - vm_compute. congruence.
  - reflexivity.
  - reflexivity.
  - intros i. by exists 2%nat.
Defined.
