(* ===== verification/Rdb.v ===== *)
(** * Snapshots ([src/rdb.c])

    Serialisation of the keyspace and loading.  The theorems: a snapshot loads back
    to the same keyspace, and a snapshot cut short loads the keys that are
    complete. *)

From Stdlib Require Import Floats.SpecFloat.
From S2P Require Import Prelude Util Dict CList Zskiplist Zorder Zlinks Zrep Zset Codec Object Machine DbCore.
Import Num.

(** ** Writing *)

Definition type_code (t : obj_type) : Z :=
  match t with T_STRING => 0 | T_LIST => 1 | T_HASH => 2 | T_SET => 3 | T_ZSET => 4 end.

(** The walk [n = n->level[0].forward] over the nodes of a skiplist. *)
Fixpoint zsl_values_loop (fuel : nat) (m : gmap loc zskiplist_node) (x : ptr) : option (list (bytes * double)) :=
  match x with
  | None => Some []
  | Some x =>
      match fuel with
      | O => None
      | S fuel =>
          n ← m !! x;
          lv ← z_levels n !! 0%nat;
          rest ← zsl_values_loop fuel m (lv_forward lv);
          Some ((z_member n, z_score n) :: rest)
      end
  end.

Definition zsl_values (z : zskiplist) : option (list (bytes * double)) :=
  lv ← get_level (zsl_nodes z) (zsl_header z) 0;
  zsl_values_loop (zsl_fuel z) (zsl_nodes z) (lv_forward lv).

Definition rdb_write_obj (p : storage) : option bytes :=
  match p with
  | OBJ_STRING s => Some (w_bytes s)
  | OBJ_LIST l =>
      xs ← list_values l;
      Some (w_u32 (list_len l) ++ concat (w_bytes <$> xs))
  | OBJ_HASH h =>
      Some (w_u32 (Z.of_nat (dict_size h)) ++
            concat ((λ e, w_bytes (e_key e) ++ w_bytes (e_val e)) <$> dict_entries h))
  | OBJ_SET s =>
      Some (w_u32 (Z.of_nat (dict_size s)) ++ concat ((λ e, w_bytes (e_key e)) <$> dict_entries s))
  | OBJ_ZSET z =>
      xs ← zsl_values (zs_zsl z);
      Some (w_u32 (zset_len z) ++ concat ((λ x, w_bytes x.1 ++ w_f64 x.2) <$> xs))
  end.

Definition RDB_MAGIC : bytes := bs "MINIREDIS".
Definition RDB_VERSION : Z := 1.

Definition rdb_write_entry (e : entry robj) : option bytes :=
  b ← rdb_write_obj (o_ptr (e_val e));
  Some (w_u32 (zlen (e_key e)) ++ e_key e ++ w_s64 (o_expire_at (e_val e)) ++
        w_u8 (type_code (o_type (e_val e))) ++ b).

(** The buffer [rdb_save] writes. *)
Definition rdb_snapshot (d : dict robj) : option bytes :=
  bss ← mapM rdb_write_entry (dict_entries d);
  Some (RDB_MAGIC ++ w_u32 RDB_VERSION ++ w_u32 (Z.of_nat (dict_size d)) ++ concat bss).

(** ** Reading *)

(** [for (i = 0; i < cnt; i++)]: read an item, stop at the first one that cannot be
    read, else add it. *)
Fixpoint read_items {A B} (rd : rdb_reader → option (A * rdb_reader)) (add : B → A → M B)
    (cnt : nat) (r : rdb_reader) (b : B) : M (option (B * rdb_reader)) :=
  match cnt with
  | O => mret (Some (b, r))
  | S cnt =>
      match rd r with
      | None => mret None
      | Some (x, r) => b ← add b x; read_items rd add cnt r b
      end
  end.

(** A count, then that many items into a container; the object is built from the
    container when all of them could be read. *)
Definition read_container {A B} (rd : rdb_reader → option (A * rdb_reader)) (add : B → A → M B)
    (create : M B) (make : B → storage) (r : rdb_reader) : M (option (robj * rdb_reader)) :=
  match r_u32 r with
  | None => mret None
  | Some (cnt, r) =>
      b ← create;
      res ← read_items rd add (Z.to_nat cnt) r b;
      match res with
      | None => mret None
      | Some (b, r) => mret (Some (Robj (make b) (-1), r))
      end
  end.

Definition rdb_read_obj (t : Z) (r : rdb_reader) : M (option (robj * rdb_reader)) :=
  if t =? 0 then
    mret ('(s, r) ← r_bytes r; Some (robj_new_string s, r))
  else if t =? 1 then
    read_container r_bytes (λ (l : clist bytes) s, lift (list_push_tail l s))
      (mret list_create) OBJ_LIST r
  else if t =? 2 then
    read_container (r_pair r_bytes r_bytes) (λ (h : dict bytes) x, mret (dict_set h x.1 x.2).2)
      (seed ← random_seed; mret (dict_create seed)) OBJ_HASH r
  else if t =? 3 then
    read_container r_bytes (λ (h : dict unit) x, mret (dict_set h x tt).2)
      (seed ← random_seed; mret (dict_create seed)) OBJ_SET r
  else if t =? 4 then
    read_container (r_pair r_bytes r_f64) (λ z x, '(_, z) ← zset_insert z x.2 x.1; mret z)
      (seed ← random_seed; mret (zset_create seed)) OBJ_ZSET r
  else mret None.

(** The loop over the keys; the result is the number of keys loaded. *)
Fixpoint load_keys (cnt : nat) (r : rdb_reader) : M Z :=
  match cnt with
  | O => mret 0
  | S cnt =>
      match r_pair (r_pair r_bytes r_s64) r_u8 r with
      | None => mret 0
      | Some (key, expire, type, r) =>
          res ← rdb_read_obj type r;
          match res with
          | None => mret 0
          | Some (o, r) =>
              _ ← store_set key (with_expire o expire);
              n ← load_keys cnt r;
              mret (n + 1)
          end
      end
  end.

(** What reading the file gave: [fopen] failed, [fread] failed, or its bytes. *)
Inductive file_read := CannotOpen | ReadFailed | Contents (b : bytes).

Definition rdb_load (f : file_read) : M Z :=
  match f with
  | CannotOpen | ReadFailed => mret (-1)
  | Contents b =>
      if (length b <? 9 + 4 + 4)%nat || negb (bool_decide (take 9 b = RDB_MAGIC)) then mret (-1)
      else
        match r_u32 (Reader b 9) with
        | None => mret (-1)
        | Some (version, r) =>
            if negb (version =? RDB_VERSION) then mret (-1)
            else
              match r_u32 r with
              | None => mret (-1)
              | Some (count, r) => _ ← load_keys (Z.to_nat count) r; mret 0
              end
        end
  end.

(** ** Loops over items *)

Section Items.
Context {A B : Type} (c : codec A) (add : B → A → M B).

Lemma read_items_ok xs r rest :
  Forall (writable c) xs → rest_of r (concat (enc c <$> xs) ++ rest) →
  ∃ r', rest_of r' rest ∧ ∀ b s,
    read_items (dec c) add (length xs) r b s = (b' ← foldM add b xs; mret (Some (b', r'))) s.
Proof.
  intros Hw. revert r. induction Hw as [|x xs Hx Hw IH]; intros r Hr.
  { exists r. by split. }
  rewrite fmap_cons in Hr. cbn [concat] in Hr. rewrite <- app_assoc in Hr.
  destruct (dec_enc c r x _ Hx Hr) as (r1 & Hd & Hr1). destruct (IH r1 Hr1) as (r' & Hr' & Heq).
  exists r'. split; [done|]. intros b s. cbn [length read_items foldM]. rewrite Hd. unfold mbind, M_bind in *.
  destruct (add b x s) as [[b' s']|]; [|done]. apply Heq.
Qed.

Lemma read_items_short xs r p q :
  Forall (writable c) xs → concat (enc c <$> xs) = p ++ q → q ≠ [] → rest_of r p →
  ∃ k, (k < length xs)%nat ∧ ∀ b s,
    read_items (dec c) add (length xs) r b s = (_ ← foldM add b (take k xs); mret None) s.
Proof.
  intros Hw. revert r p. induction Hw as [|x xs Hx Hw IH]; intros r p He Hq Hr.
  { cbn in He. symmetry in He. by apply app_nil in He as [_ ?]. }
  rewrite fmap_cons in He. cbn [concat] in He. destruct (app_short _ _ _ _ He Hq) as [(l & Hl & Hne)|(l & -> & Hl)].
  - exists 0%nat. split; [cbn; lia|]. intros b s. cbn [length read_items].
    by rewrite (dec_short c r x _ _ Hx Hl Hne Hr).
  - destruct (dec_enc c r x _ Hx Hr) as (r1 & Hd & Hr1). destruct (IH r1 l Hl Hq Hr1) as (k & Hk & Heq).
    exists (S k). split; [cbn; lia|]. intros b s. cbn [length read_items take foldM]. rewrite Hd. unfold mbind, M_bind in *.
    destruct (add b x s) as [[b' s']|]; [|done]. apply Heq.
Qed.

(** What the container holds after some items. *)
Context (R : B → list A → Prop) (create : M B) (make : B → storage).
Hypothesis Hcreate : ∀ s, wp create (λ b s', R b [] ∧ drew s s') s.
Hypothesis Hadd : ∀ b ys x s, writable c x → R b ys → wp (add b x) (λ b' s', R b' (ys ++ [x]) ∧ drew s s') s.

Lemma wp_add_items xs b s :
  Forall (writable c) xs → R b [] → wp (foldM add b xs) (λ b' s', R b' xs ∧ drew s s') s.
Proof.
  intros Hw Hb. apply (wp_foldM (λ zs b' s', Forall (writable c) zs ∧ ∃ ys, xs = ys ++ zs ∧ R b' ys ∧ drew s s')).
  - split; [done|]. by exists [].
  - intros x zs b' s' (Hz & ys & -> & HR & Hs). apply Forall_cons in Hz as [Hx Hz].
    eapply wp_mono; [by apply Hadd|]. intros b2 s2 [HR2 Hs2]. split; [done|]. exists (ys ++ [x]).
    rewrite <- app_assoc. split; [done|]. split; [done|by etrans].
  - intros b' s' (_ & ys & -> & HR & Hs). by rewrite app_nil_r.
Qed.

Lemma read_container_ok xs r rest s :
  len32 xs → Forall (writable c) xs → rest_of r ((w_u32 (zlen xs) ++ concat (enc c <$> xs)) ++ rest) →
  wp (read_container (dec c) add create make r) (λ res s', ∃ b r',
    res = Some (Robj (make b) (-1), r') ∧ R b xs ∧ rest_of r' rest ∧ drew s s') s.
Proof.
  intros Hl Hw Hr. rewrite <- app_assoc in Hr. destruct (r_u32_ok r _ _ (len32_range _ Hl) Hr) as (r1 & Hu & Hr1).
  destruct (read_items_ok xs r1 rest Hw Hr1) as (r2 & Hr2 & Heq). unfold read_container. rewrite Hu.
  unfold zlen. rewrite Nat2Z.id. apply wp_bind. eapply wp_mono; [apply Hcreate|]. intros b s1 [Hb H1].
  apply wp_bind. unfold wp at 1. rewrite Heq. fold (wp (b' ← foldM add b xs; mret (Some (b', r2)))
    (λ res s', wp (match res with None => mret None | Some (b, r) => mret (Some (Robj (make b) (-1), r)) end)
      (λ res s', ∃ b r', res = Some (Robj (make b) (-1), r') ∧ R b xs ∧ rest_of r' rest ∧ drew s s') s') s1).
  apply wp_bind. eapply wp_mono; [by apply wp_add_items|]. intros b' s2 [Hb' H2]. apply wp_ret, wp_ret.
  exists b', r2. do 3 (split; [done|]). by etrans.
Qed.

Lemma read_container_short xs r p q s :
  len32 xs → Forall (writable c) xs → w_u32 (zlen xs) ++ concat (enc c <$> xs) = p ++ q → q ≠ [] → rest_of r p →
  wp (read_container (dec c) add create make r) (λ res s', res = None ∧ drew s s') s.
Proof.
  intros Hl Hw He Hq Hr. unfold read_container. destruct (app_short _ _ _ _ He Hq) as [(l & Hl' & Hne)|(l & -> & Hl')].
  { rewrite (r_u32_short r _ _ _ Hl' Hne Hr). by apply wp_ret. }
  destruct (r_u32_ok r _ _ (len32_range _ Hl) Hr) as (r1 & Hu & Hr1).
  destruct (read_items_short xs r1 l q Hw Hl' Hq Hr1) as (k & _ & Heq). rewrite Hu.
  unfold zlen. rewrite Nat2Z.id. apply wp_bind. eapply wp_mono; [apply Hcreate|]. intros b s1 [Hb H1].
  apply wp_bind. unfold wp at 1. rewrite Heq. fold (wp (_ ← foldM add b (take k xs); mret (@None (B * rdb_reader)))
    (λ res s', wp (match res with None => mret None | Some (b, r) => mret (Some (Robj (make b) (-1), r)) end)
      (λ res s', res = None ∧ drew s s') s') s1).
  apply wp_bind. eapply wp_mono; [apply wp_add_items; [by apply Forall_take|done]|]. intros b' s2 [Hb' H2].
  apply wp_ret, wp_ret. split; [done|by etrans].
Qed.

End Items.

(** ** Objects *)

Lemma zsl_values_loop_spec z ps hs xs (HR : zsl_rep z ps hs (header_entry :: xs)) fuel p :
  (length xs - p <= fuel)%nat →
  zsl_values_loop fuel (zsl_nodes z) (ps !! S p) = Some ((λ e, (e.2, e.1)) <$> drop p xs).
Proof.
  revert p. induction fuel as [|fuel IH]; intros p Hf; destruct (ps !! S p) as [x|] eqn:E; cbn [zsl_values_loop].
  2, 4: pose proof (no_entry HR p E) as Hn; apply lookup_ge_None in Hn; by rewrite drop_ge.
  all: destruct (entry_at HR p x E) as (e & n & He & Hn & Hne); pose proof (lookup_lt_Some _ _ _ He).
  { lia. }
  destruct (next_after HR (S p) (lookup_lt_Some _ _ _ E) x E) as [Hg Hnext]. unfold get_level in Hg. rewrite Hn in Hg.
  rewrite Hn. cbn [mbind option_bind] in *. rewrite Hg. cbn [mbind option_bind]. rewrite Hnext, (IH (S p)) by lia.
  cbn [mbind option_bind]. by rewrite (drop_S xs e p He), fmap_cons, <- Hne.
Qed.

Lemma zsl_values_spec z xs : zset_rep z xs → zsl_values (zs_zsl z) = Some ((λ e, (e.2, e.1)) <$> xs).
Proof.
  intros (_ & _ & ps & hs & HR & _). unfold zsl_values.
  destruct (next_after HR 0 (lookup_lt_Some _ _ _ (zr_header _ _ _ _ HR)) _ (zr_header _ _ _ _ HR)) as [-> Hn].
  cbn [mbind option_bind]. rewrite Hn. rewrite (zsl_values_loop_spec _ _ _ _ HR); [done|].
  unfold zsl_fuel. rewrite (zr_length _ _ _ _ HR), (ps_length HR). lia.
Qed.

(** A value the format can represent: lengths of 32 bits, numbers as scores. *)
Definition rdb_value (v : value) : Prop :=
  match v with
  | VString s => len32 s
  | VList xs => len32 xs ∧ Forall len32 xs
  | VHash m => Z.of_nat (base.size m) < 2 ^ 32 ∧ map_Forall (λ k x, len32 k ∧ len32 x) m
  | VSet m => Z.of_nat (base.size m) < 2 ^ 32 ∧ map_Forall (λ k _, len32 k) m
  | VZset xs => len32 xs ∧ Forall (λ e, len32 e.2 ∧ binary64 e.1 = true) xs
  end.

(** The encoding [b] of a value reads back, and its strict prefixes are refused. *)
Definition value_codec (v : value) (b : bytes) : Prop :=
  (∀ r rest s, rest_of r (b ++ rest) → wp (rdb_read_obj (type_code (value_type v)) r) (λ res s', ∃ o r',
     res = Some (o, r') ∧ storage_rep (o_ptr o) v ∧ rest_of r' rest ∧ drew s s') s) ∧
  (∀ r p q s, b = p ++ q → q ≠ [] → rest_of r p →
     wp (rdb_read_obj (type_code (value_type v)) r) (λ res s', res = None ∧ drew s s') s).

Lemma container_codec {A B} (c : codec A) (add : B → A → M B) (R : B → list A → Prop) create make v xs b0 :
  rdb_read_obj (type_code (value_type v)) = read_container (dec c) add create make →
  (∀ s, wp create (λ b s', R b [] ∧ drew s s') s) →
  (∀ b ys x s, writable c x → R b ys → wp (add b x) (λ b' s', R b' (ys ++ [x]) ∧ drew s s') s) →
  (∀ b, R b xs → storage_rep (make b) v) →
  len32 xs → Forall (writable c) xs → b0 = w_u32 (zlen xs) ++ concat (enc c <$> xs) →
  value_codec v b0.
Proof.
  intros Hread Hc Ha Hv Hl Hw ->. split.
  - intros r rest s Hr. rewrite Hread. eapply wp_mono; [by eapply read_container_ok|].
    intros res s' (b & r' & -> & HR & Hr' & Hs). exists (Robj (make b) (-1)), r'. split; [done|]. split; [by apply Hv|done].
  - intros r p q s He Hq Hr. rewrite Hread. by eapply read_container_short.
Qed.

(** Items put one by one into an empty map. *)
Lemma foldl_insert_map {V} (l : list (bytes * V)) (m : gmap bytes V) :
  NoDup l.*1 → l ≡ₚ map_to_list m → foldl (λ m x, <[x.1 := x.2]> m) ∅ l = m.
Proof.
  intros Hn Hp. assert (foldl (λ (m : gmap bytes V) x, <[x.1 := x.2]> m) ∅ l = list_to_map (reverse l)) as ->.
  { clear. induction l as [|[k v] l IH] using rev_ind; [done|]. by rewrite foldl_app, IH, reverse_snoc. }
  rewrite <- (list_to_map_to_list m). apply list_to_map_proper.
  - by rewrite reverse_Permutation.
  - by rewrite reverse_Permutation.
Qed.

Lemma dict_items {V} (h : dict V) : dict_wf h → foldl (λ m x, <[x.1 := x.2]> m) ∅ (pair_of <$> dict_entries h) = dict_abs h.
Proof.
  intros Hh. apply foldl_insert_map; [|by apply dict_entries_to_list].
  rewrite <- list_fmap_compose. by apply dict_entries_nodup.
Qed.

Lemma dict_items_forall {V} (h : dict V) (P : bytes → V → Prop) :
  dict_wf h → map_Forall P (dict_abs h) → Forall (λ x, P x.1 x.2) (pair_of <$> dict_entries h).
Proof.
  intros Hh Hm. rewrite (dict_entries_to_list h Hh). rewrite Forall_forall. intros [k v] Hx.
  apply elem_of_map_to_list in Hx. by apply Hm.
Qed.

Lemma dict_items_length {V} (h : dict V) : dict_wf h → zlen (pair_of <$> dict_entries h) = Z.of_nat (dict_size h).
Proof. intros Hh. unfold zlen. rewrite length_fmap, dict_entries_length by done. done. Qed.

Lemma string_codec s : len32 s → value_codec (VString s) (w_bytes s).
Proof.
  intros Hs. split.
  - intros r rest s0 Hr. destruct (r_bytes_ok r s rest Hs Hr) as (r' & Hd & Hr'). cbn [value_type type_code].
    unfold rdb_read_obj. cbn [Z.eqb]. rewrite Hd. apply wp_ret. exists (robj_new_string s), r'. do 2 (split; [done || constructor|]). done.
  - intros r p q s0 He Hq Hr. cbn [value_type type_code]. unfold rdb_read_obj. cbn [Z.eqb].
    rewrite (r_bytes_short r s p q Hs He Hq Hr). by apply wp_ret.
Qed.

Lemma list_codec l xs :
  is_list l xs → len32 xs → Forall len32 xs → value_codec (VList xs) (w_u32 (list_len l) ++ concat (w_bytes <$> xs)).
Proof.
  intros Hl Hn Hx. eapply (container_codec c_bytes _ is_list); [reflexivity|..|done|done|by rewrite (is_list_len _ _ Hl)].
  - intros s. apply wp_ret. split; [apply is_list_create|done].
  - intros b ys x s _ Hb. destruct (list_push_tail_spec b ys x Hb) as (l' & Hp & Hl'). eapply wp_lift; [done|]. done.
  - intros b Hb. by constructor.
Qed.

(** A dictionary that received some items, starting from a fresh one. *)
Definition holds {A V} (f : A → bytes * V) (h : dict V) (ys : list A) : Prop :=
  dict_wf h ∧ dict_abs h = foldl (λ m x, <[x.1 := x.2]> m) ∅ (f <$> ys).

Lemma holds_create {A V} (f : A → bytes * V) s :
  wp (seed ← random_seed; mret (dict_create seed)) (λ h s', holds f h [] ∧ drew s s') s.
Proof.
  apply wp_bind, wp_draw_seed. intros seed s' Hs. apply wp_ret. split; [|done]. apply dict_create_spec.
Qed.

Lemma holds_add {A V} (f : A → bytes * V) h ys x :
  holds f h ys → holds f (dict_set h (f x).1 (f x).2).2 (ys ++ [x]).
Proof.
  intros [Hw Ha]. destruct (dict_set_correct h (f x).1 (f x).2 Hw) as (Hw' & Ha' & _). split; [done|].
  by rewrite Ha', Ha, fmap_app, foldl_app.
Qed.

Lemma hash_codec h :
  dict_wf h → rdb_value (VHash (dict_abs h)) →
  value_codec (VHash (dict_abs h)) (w_u32 (Z.of_nat (dict_size h)) ++
    concat ((λ e, w_bytes (e_key e) ++ w_bytes (e_val e)) <$> dict_entries h)).
Proof.
  intros Hh [Hn Hf]. pose proof (dict_items_length h Hh) as Hl.
  eapply (container_codec (c_pair c_bytes c_bytes) _ (holds id) _ _ _ (pair_of <$> dict_entries h)); [reflexivity|..].
  - apply holds_create.
  - intros b ys x s _ Hb. apply wp_ret. split; [by apply (holds_add id)|done].
  - intros b [Hw Ha]. rewrite list_fmap_id, (dict_items h Hh) in Ha. rewrite <- Ha. by constructor.
  - unfold len32. by rewrite Hl, dict_size_correct.
  - exact (dict_items_forall h _ Hh Hf).
  - rewrite Hl. f_equal. by rewrite <- list_fmap_compose.
Qed.

Lemma set_codec h :
  dict_wf h → rdb_value (VSet (dict_abs h)) →
  value_codec (VSet (dict_abs h))
    (w_u32 (Z.of_nat (dict_size h)) ++ concat ((λ e, w_bytes (e_key e)) <$> dict_entries h)).
Proof.
  intros Hh [Hn Hf].
  assert (zlen (e_key <$> dict_entries h) = Z.of_nat (dict_size h)) as Hl.
  { unfold zlen. by rewrite length_fmap, dict_entries_length. }
  assert ((λ k : bytes, (k, tt)) <$> (e_key <$> dict_entries h) = pair_of <$> dict_entries h) as Hp.
  { rewrite <- list_fmap_compose. apply list_fmap_ext. intros i [k [] hh] _. done. }
  eapply (container_codec c_bytes _ (holds (λ k, (k, tt))) _ _ _ (e_key <$> dict_entries h)); [reflexivity|..].
  - apply holds_create.
  - intros b ys x s _ Hb. apply wp_ret. split; [by apply (holds_add (λ k, (k, tt)))|done].
  - intros b [Hw Ha]. rewrite Hp, (dict_items h Hh) in Ha. rewrite <- Ha. by constructor.
  - unfold len32. by rewrite Hl, dict_size_correct.
  - pose proof (dict_items_forall h _ Hh Hf) as H. rewrite !Forall_fmap in *. done.
  - rewrite Hl. f_equal. by rewrite <- list_fmap_compose.
Qed.

(** Entries inserted in ascending order go to the end. *)
Lemma zins_last xs e : sorted (xs ++ [e]) → zins e xs = xs ++ [e].
Proof.
  intros Hs. unfold zins. assert (zpos (before e) xs = length xs) as ->; [|unfold ins; by rewrite firstn_all, drop_all].
  destruct Hs as [Hs Hv]. apply Forall_app in Hv as [Hv He]. apply Forall_cons in He as [He _].
  induction xs as [|x xs IH]; [done|]. apply Forall_cons in Hv as [Hx Hv]. cbn in Hs. inversion Hs as [|? ? Hs' Hlt]; subst.
  cbn [zpos length]. change (before e x) with (entry_ltb x e). rewrite (proj2 (entry_ltb_lt x e Hx He)); [by rewrite IH|].
  rewrite Forall_forall in Hlt. apply Hlt. rewrite elem_of_app, list_elem_of_singleton. by right.
Qed.

Lemma sorted_prefix xs ys : sorted (xs ++ ys) → sorted xs.
Proof.
  intros [Hs Hv]. split; [|by apply Forall_app in Hv as [? _]]. clear Hv. induction xs as [|x xs IH]; [constructor|].
  cbn in Hs. inversion Hs as [|? ? Hs' Hlt]; subst. constructor; [auto|]. by apply Forall_app in Hlt as [? _].
Qed.

Lemma zadd_sorted xs : zset_ok xs → foldl (λ ys e, (zadd ys e.1 e.2).2) [] xs = xs.
Proof.
  induction xs as [|[d mem] xs IH] using rev_ind; [done|]. intros [Hs Hn]. rewrite foldl_app. cbn [foldl fst snd].
  rewrite fmap_app, NoDup_app in Hn. destruct Hn as (Hn & Hd & _).
  rewrite IH by (split; [by eapply sorted_prefix|done]). unfold zadd.
  rewrite zscore_None; [by apply zins_last|]. intros Hm. by apply (Hd mem Hm), list_elem_of_singleton.
Qed.

Lemma zset_codec z xs :
  zset_rep z xs → rdb_value (VZset xs) →
  value_codec (VZset xs) (w_u32 (zset_len z) ++
    concat ((λ x, w_bytes x.1 ++ w_f64 x.2) <$> ((λ e : zentry, (e.2, e.1)) <$> xs))).
Proof.
  intros Hz [Hn Hf].
  eapply (container_codec (c_pair c_bytes c_f64) _
    (λ z' ys, zset_rep z' (foldl (λ ys e, (zadd ys e.2 e.1).2) [] ys)) _ _ _ ((λ e : zentry, (e.2, e.1)) <$> xs)); [reflexivity|..].
  - intros s. apply wp_bind, wp_draw_seed. intros seed s' Hs. apply wp_ret. split; [apply zset_create_rep|done].
  - intros b ys x s [_ Hx] Hb. apply wp_bind. eapply wp_mono; [apply wp_zset_insert; [done|]|].
    { by apply andb_true_iff in Hx as [? _]. }
    intros r s' (z' & -> & Hz' & Hs). apply wp_ret. split; [|done]. by rewrite foldl_app.
  - intros b Hb. constructor. rewrite foldl_fmap in Hb. cbn [fst snd] in Hb. rewrite zadd_sorted in Hb; [done|by apply Hz].
  - unfold len32, zlen in *. by rewrite length_fmap.
  - rewrite Forall_fmap. done.
  - unfold zlen. rewrite length_fmap. by rewrite (zset_len_spec z xs Hz).
Qed.

Lemma rdb_write_obj_spec p v :
  storage_rep p v → rdb_value v → ∃ b, rdb_write_obj p = Some b ∧ value_codec v b.
Proof.
  intros Hp Hv. destruct Hp as [s|l xs Hl|h Hh|h Hh|z xs Hz]; cbn [rdb_write_obj].
  - eexists. split; [done|]. by apply string_codec.
  - rewrite (list_values_spec _ _ Hl). cbn [mbind option_bind]. eexists. split; [done|].
    apply list_codec; [done|apply Hv|apply Hv].
  - eexists. split; [done|]. by apply hash_codec.
  - eexists. split; [done|]. by apply set_codec.
  - rewrite (zsl_values_spec z xs Hz). cbn [mbind option_bind]. eexists. split; [done|]. by apply zset_codec.
Qed.

(** ** Keys *)

(** A keyspace the format can represent. *)
Definition rdb_keyspace (ks : keyspace) : Prop :=
  Z.of_nat (base.size ks) < 2 ^ 32 ∧ map_Forall (λ k a, len32 k ∧ rdb_value (a_value a)) ks.

(** The objects of a store in the order of its iterator. *)
Definition listed (d : dict robj) (kas : list (bytes * aobj)) : Prop :=
  Forall2 (λ e ka, e_key e = ka.1 ∧ obj_rep (e_val e) ka.2) (dict_entries d) kas.

Lemma db_rep_listed d ks : db_rep d ks → ∃ kas, listed d kas ∧ kas ≡ₚ map_to_list ks.
Proof.
  intros [Hw Hm]. set (f := λ e : entry robj, (e_key e, default (Aobj (VString []) 0) (ks !! e_key e))).
  assert (∀ e, e ∈ dict_entries d → ∃ a, ks !! e_key e = Some a ∧ obj_rep (e_val e) a) as He.
  { intros e He. pose proof (Hm (e_key e)) as H. rewrite (elem_of_dict_entries d e Hw He) in H.
    inversion H; subst; eauto. }
  exists (f <$> dict_entries d). split.
  - apply Forall2_fmap_r, Forall_Forall2_diag, Forall_forall. intros e Hin. destruct (He e Hin) as (a & Ha & Ho).
    split; [done|]. cbn. by rewrite Ha.
  - apply NoDup_Permutation; [|apply NoDup_map_to_list|].
    + apply (NoDup_fmap_1 fst). rewrite <- list_fmap_compose. by apply dict_entries_nodup.
    + intros [k a]. rewrite elem_of_map_to_list, list_elem_of_fmap. split.
      * intros (e & [= -> ->] & Hin). destruct (He e Hin) as (a & Ha & _). by rewrite Ha.
      * intros Ha. pose proof (Hm k) as H. rewrite Ha in H. inversion H as [o a' Ho Hd|]; subst.
        symmetry in Hd. apply (dict_abs_entries d k o) in Hd as (e & Hin & <- & <-). exists e. split; [|done].
        unfold f. by rewrite Ha.
Qed.

(** The header of a key: key, expiry and type. *)
Definition c_header : codec (bytes * Z * Z) := c_pair (c_pair c_bytes c_s64) c_u8.

Definition header_of (ka : bytes * aobj) : bytes * Z * Z :=
  (ka.1, a_expire ka.2, type_code (value_type (a_value ka.2))).

(** The encoding [b] of a key and its object. *)
Definition key_codec (ka : bytes * aobj) (b : bytes) : Prop :=
  ∃ bo, b = enc c_header (header_of ka) ++ bo ∧ writable c_header (header_of ka) ∧ value_codec (a_value ka.2) bo.

Lemma rdb_write_entry_spec e ka :
  e_key e = ka.1 → obj_rep (e_val e) ka.2 → len32 ka.1 → rdb_value (a_value ka.2) →
  ∃ b, rdb_write_entry e = Some b ∧ key_codec ka b.
Proof.
  intros Hk Ho Hl Hv. pose proof (obj_rep_type _ _ Ho) as Ht. destruct Ho as (Hs & He & Hi).
  destruct (rdb_write_obj_spec _ _ Hs Hv) as (bo & Hw & Hc). unfold rdb_write_entry. rewrite Hw. cbn [mbind option_bind].
  eexists. split; [done|]. exists bo. split; [|split; [|done]].
  - unfold c_header, header_of. cbn. unfold w_pair. cbn. rewrite Hk, He, Ht. unfold w_bytes. by rewrite <- !app_assoc.
  - split; [split|]; cbn; [done|done|]. destruct (a_value ka.2); cbn; lia.
Qed.

Lemma rdb_write_entries_spec es kas :
  Forall2 (λ e ka, e_key e = ka.1 ∧ obj_rep (e_val e) ka.2) es kas →
  Forall (λ ka, len32 ka.1 ∧ rdb_value (a_value ka.2)) kas →
  ∃ bss, mapM rdb_write_entry es = Some bss ∧ Forall2 key_codec kas bss.
Proof.
  induction 1 as [|e ka es kas [Hk Ho] _ IH]; [by exists []|]. intros [[Hl Hv] Hf]%Forall_cons.
  destruct (rdb_write_entry_spec e ka Hk Ho Hl Hv) as (b & Hb & Hc). destruct (IH Hf) as (bss & Hbs & Hcs).
  exists (b :: bss). split; [|by constructor]. cbn [mapM]. by rewrite Hb, Hbs.
Qed.

(** What loading leaves alone. *)
Definition loads (s s' : state) : Prop :=
  st_client s' = st_client s ∧ st_globals s' = st_globals s ∧ db_cursor (st_db s') = db_cursor (st_db s) ∧
  w_clock (st_world s') = w_clock (st_world s) ∧ w_write (st_world s') = w_write (st_world s) ∧
  w_sys (st_world s') = w_sys (st_world s).

Lemma drew_loads s1 s2 s3 : drew s1 s2 → loads s2 s3 → loads s1 s3.
Proof. unfold drew, loads. intros (Hd & ?). rewrite Hd. intuition congruence. Qed.

(** Storing objects one after the other. *)
Definition store_all (ks : keyspace) (kas : list (bytes * aobj)) : keyspace := foldl (λ m ka, <[ka.1 := ka.2]> m) ks kas.

Lemma wp_load_object k o a s ks (Q : option robj → state → Prop) :
  db_rep (db_d (st_db s)) ks → obj_rep o a →
  (∀ old s', db_rep (db_d (st_db s')) (<[k := a]> ks) → loads s s' → Q old s') → wp (store_set k o) Q s.
Proof.
  intros Hd Ho HQ. unfold wp, store_set. destruct (dict_set (db_d (st_db s)) k o) as [old d'] eqn:E. apply HQ; [|done].
  cbn. pose proof (db_rep_set _ _ k o a Hd Ho) as H. by rewrite E in H.
Qed.

Lemma load_keys_spec kas bss :
  Forall2 key_codec kas bss → ∀ p q r s ks, concat bss = p ++ q → rest_of r p → db_rep (db_d (st_db s)) ks →
  wp (load_keys (length kas) r) (λ n s', ∃ k, n = Z.of_nat k ∧ (k <= length kas)%nat ∧ (k = length kas ↔ q = []) ∧
    db_rep (db_d (st_db s')) (store_all ks (take k kas)) ∧ loads s s') s.
Proof.
  induction 1 as [|ka b kas bss (bo & -> & Hw & Hok & Hshort) _ IH]; intros p q r s ks He Hr Hd; cbn [length load_keys].
  { apply wp_ret. exists 0%nat. cbn in He. symmetry in He. by apply app_nil in He as [_ ->]. }
  cbn [concat] in He. rewrite <- app_assoc in He.
  assert (∀ s', q ≠ [] → drew s s' → ∃ k, 0 = Z.of_nat k ∧ (k <= S (length kas))%nat ∧ (k = S (length kas) ↔ q = []) ∧
    db_rep (db_d (st_db s')) (store_all ks (take k (ka :: kas))) ∧ loads s s') as Hstop.
  { intros s' Hq Hs. exists 0%nat. split; [done|]. split; [lia|]. split; [split; [lia|done]|].
    split; [by rewrite (proj1 Hs)|]. by eapply drew_loads; [done|]. }
  assert ((q ≠ [] ∧ ∃ l, enc c_header (header_of ka) = p ++ l ∧ l ≠ []) ∨
          (∃ l, p = enc c_header (header_of ka) ++ l ∧ bo ++ concat bss = l ++ q)) as [(Hq & l & Hl & Hne)|(l & -> & Hl)].
  { destruct (decide (q = [])) as [->|Hq]; [right|destruct (app_short _ _ _ _ He Hq); auto].
    rewrite app_nil_r in He. exists (bo ++ concat bss). by rewrite app_nil_r. }
  { pose proof (dec_short c_header r _ _ _ Hw Hl Hne Hr) as Hdec. cbn [dec c_header c_pair c_bytes c_s64 c_u8] in Hdec.
    rewrite Hdec. apply wp_ret. by apply Hstop. }
  destruct (dec_enc c_header r _ _ Hw Hr) as (r1 & Hdec & Hr1). cbn [dec c_header c_pair c_bytes c_s64 c_u8] in Hdec.
  rewrite Hdec. cbn [header_of].
  assert ((q ≠ [] ∧ ∃ l', bo = l ++ l' ∧ l' ≠ []) ∨ (∃ l', l = bo ++ l' ∧ concat bss = l' ++ q)) as [(Hq & l' & Hl' & Hne)|(l' & -> & Hl')].
  { destruct (decide (q = [])) as [->|Hq]; [right|destruct (app_short _ _ _ _ Hl Hq); auto].
    rewrite app_nil_r in Hl. exists (concat bss). by rewrite app_nil_r. }
  { apply wp_bind. eapply wp_mono; [by eapply Hshort|]. intros res s' [-> Hs]. apply wp_ret. by apply Hstop. }
  apply wp_bind. eapply wp_mono; [by apply Hok|]. intros res s1 (o & r2 & -> & Ho & Hr2 & Hs1).
  apply wp_bind. eapply (wp_load_object _ _ (Aobj (a_value ka.2) (a_expire ka.2))).
  { destruct Hs1 as (-> & _). exact Hd. }
  { split; [done|]. split; [done|]. apply Hw. }
  intros old s2 Hd2 Hs2. apply wp_bind. eapply wp_mono; [by eapply IH|].
  intros n s3 (k & -> & Hk & Hq & Hd3 & Hs3). apply wp_ret. exists (S k). split; [lia|]. split; [lia|].
  split; [rewrite <- Hq; lia|]. split.
  - unfold store_all in *. cbn [take foldl]. by destruct ka as [? []].
  - eapply drew_loads; [done|]. unfold loads in *. intuition congruence.
Qed.

(** ** Whole snapshots *)

Definition rdb_header (count : Z) : bytes := RDB_MAGIC ++ w_u32 RDB_VERSION ++ w_u32 count.

Lemma rdb_load_body count body s :
  0 <= count < 2 ^ 32 →
  ∃ r, rest_of r body ∧
    rdb_load (Contents (rdb_header count ++ body)) s = (_ ← load_keys (Z.to_nat count) r; mret 0) s.
Proof.
  intros Hc. unfold rdb_header. rewrite <- !app_assoc. set (b := RDB_MAGIC ++ _).
  assert (rest_of (Reader b 9) (w_u32 RDB_VERSION ++ w_u32 count ++ body)) as H0 by (split; [cbn; lia|done]).
  destruct (r_u32_ok _ RDB_VERSION _ ltac:(unfold RDB_VERSION; lia) H0) as (r1 & E1 & H1).
  destruct (r_u32_ok _ count _ Hc H1) as (r2 & E2 & H2). exists r2. split; [done|].
  unfold rdb_load. rewrite (proj2 (Nat.ltb_ge _ _)) by (cbn; lia). cbn [orb].
  rewrite bool_decide_true by done. cbn [negb]. by rewrite E1, E2.
Qed.

Lemma rdb_snapshot_spec d ks :
  db_rep d ks → rdb_keyspace ks →
  ∃ kas bss, listed d kas ∧ kas ≡ₚ map_to_list ks ∧ zlen kas < 2 ^ 32 ∧ Forall2 key_codec kas bss ∧
    rdb_snapshot d = Some (rdb_header (zlen kas) ++ concat bss).
Proof.
  intros Hd [Hn Hf]. destruct (db_rep_listed d ks Hd) as (kas & Hl & Hp).
  assert (zlen kas = Z.of_nat (base.size ks)) as Hlen.
  { unfold zlen. rewrite (Permutation_length Hp), length_map_to_list. done. }
  destruct (rdb_write_entries_spec _ kas Hl) as (bss & Hb & Hc).
  { rewrite Hp, Forall_forall. intros [k a] Hk. apply elem_of_map_to_list in Hk. by apply (Hf k a). }
  exists kas, bss. do 4 (split; [done || lia|]). unfold rdb_snapshot. rewrite Hb. cbn [mbind option_bind].
  rewrite Hlen, (db_rep_size d ks Hd). unfold rdb_header. by rewrite <- !app_assoc.
Qed.

Lemma store_all_union (kas : list (bytes * aobj)) ks ks0 :
  kas ≡ₚ map_to_list ks → store_all ks0 kas = ks ∪ ks0.
Proof.
  intros Hp. assert (NoDup kas.*1) as Hn by (rewrite Hp; apply NoDup_fst_map_to_list).
  assert (∀ l, store_all ks0 l = store_all ∅ l ∪ ks0) as H.
  { unfold store_all. induction l as [|x l IH] using rev_ind; [cbn; by rewrite (left_id_L ∅ (∪))|].
    rewrite !foldl_app, IH. cbn. apply insert_union_l. }
  rewrite H. f_equal. by apply foldl_insert_map.
Qed.

Lemma rdb_write_obj_defined p v : storage_rep p v → is_Some (rdb_write_obj p).
Proof.
  destruct 1 as [x|l xs Hx|h Hh|h Hh|z xs Hz]; cbn [rdb_write_obj]; [by eexists| |by eexists..|].
  - rewrite (list_values_spec _ _ Hx). by eexists.
  - rewrite (zsl_values_spec _ _ Hz). by eexists.
Qed.

(** Every well-formed store can be serialised. *)
Lemma rdb_snapshot_defined d ks : db_rep d ks → is_Some (rdb_snapshot d).
Proof.
  intros Hd. destruct (db_rep_listed d ks Hd) as (kas & Hl & _). unfold rdb_snapshot.
  assert (is_Some (mapM rdb_write_entry (dict_entries d))) as [bss ->]; [|by eexists].
  apply mapM_is_Some_2. induction Hl as [|e ka es kas [_ (Hs & _)] _ IH]; constructor; [|done]. cbn.
  unfold rdb_write_entry. destruct (rdb_write_obj_defined _ _ Hs) as [b ->]. by eexists.
Qed.

Lemma snapshot_loads (d : dict robj) (ks ks0 : keyspace) (s : state) :
  db_rep d ks → rdb_keyspace ks → db_rep (db_d (st_db s)) ks0 →
  ∃ b s', rdb_snapshot d = Some b ∧ rdb_load (Contents b) s = Some (0, s') ∧
    db_rep (db_d (st_db s')) (ks ∪ ks0) ∧ loads s s'.
Proof.
  intros Hd Hk H0. destruct (rdb_snapshot_spec d ks Hd Hk) as (kas & bss & _ & Hp & Hn & Hc & Hs).
  destruct (rdb_load_body (zlen kas) (concat bss) s (len32_range _ Hn)) as (r & Hr & Hload).
  pose proof (load_keys_spec kas bss Hc (concat bss) [] r s ks0 ltac:(by rewrite app_nil_r) Hr H0) as Hw.
  apply wp_run in Hw as (n & s' & Hrun & k & _ & _ & [_ Hk'] & Hd' & Hl). rewrite (Hk' eq_refl), firstn_all in Hd'.
  eexists _, s'. split; [exact Hs|]. split; [|split; [by rewrite <- (store_all_union kas ks)|done]].
  rewrite Hload. unfold zlen. rewrite Nat2Z.id. unfold mbind, M_bind. by rewrite Hrun.
Qed.

(** C17: a snapshot of a store, loaded into any other store, is read without error and
    puts every key of the first store, with its value, its type and its expiry, over
    the keys of the second: strings, lists in order, hashes, sets and sorted sets in
    order.  Lengths and counts have to fit the 32-bit fields of the format, and
    scores have to be binary64 numbers. *)
Theorem rdb_roundtrip (d : dict robj) (ks ks0 : keyspace) (s : state) :
  db_rep d ks → rdb_keyspace ks → db_rep (db_d (st_db s)) ks0 →
  ∃ b s', rdb_snapshot d = Some b ∧ rdb_load (Contents b) s = Some (0, s') ∧
    db_rep (db_d (st_db s')) (ks ∪ ks0) ∧ loads s s'.
Proof. apply snapshot_loads. Qed.

(** C22: what becomes of a snapshot file cut short at any point.  A file without a
    complete header is refused with -1 and changes nothing.  Any other strict prefix
    of a snapshot is loaded up to the last key it holds completely, the rest is
    dropped, and the load reports success. *)
Theorem rdb_truncated_load (d : dict robj) (ks ks0 : keyspace) (s : state) (b p q : bytes) :
  db_rep d ks → rdb_keyspace ks → db_rep (db_d (st_db s)) ks0 →
  rdb_snapshot d = Some b → b = p ++ q → q ≠ [] →
  if (length p <? 17)%nat then rdb_load (Contents p) s = Some (-1, s)
  else ∃ kas k s', kas ≡ₚ map_to_list ks ∧ (k < length kas)%nat ∧ rdb_load (Contents p) s = Some (0, s') ∧
         db_rep (db_d (st_db s')) (store_all ks0 (take k kas)) ∧ loads s s'.
Proof.
  intros Hd Hk H0 Hs He Hq. destruct (Nat.ltb_spec (length p) 17) as [Hp|Hp].
  { unfold rdb_load. change (9 + 4 + 4)%nat with 17%nat. by rewrite (proj2 (Nat.ltb_lt _ _) Hp). }
  destruct (rdb_snapshot_spec d ks Hd Hk) as (kas & bss & _ & Hpm & Hn & Hc & Hs'). assert (b = rdb_header (zlen kas) ++ concat bss) as Hb by congruence. rewrite Hb in He. clear Hb Hs.
  destruct (app_short _ _ _ _ He Hq) as [(l & Hl & Hne)|(l & -> & Hl)].
  { apply (f_equal length) in Hl. rewrite length_app in Hl. change (length (rdb_header _)) with 17%nat in Hl.
    destruct l; [done|]. cbn in Hl. lia. }
  destruct (rdb_load_body (zlen kas) l s (len32_range _ Hn)) as (r & Hr & Hload).
  pose proof (load_keys_spec kas bss Hc l q r s ks0 Hl Hr H0) as Hw.
  apply wp_run in Hw as (n & s' & Hrun & k & _ & Hle & Hkq & Hd' & Hld). exists kas, k, s'. split; [done|].
  split; [assert (k ≠ length kas) by (by rewrite Hkq); lia|]. split; [|done].
  rewrite Hload. unfold zlen. rewrite Nat2Z.id. unfold mbind, M_bind. by rewrite Hrun.
Qed.

(** ** A concrete store *)

Definition small_obj : robj := with_expire (robj_new_string (bs "value")) 5000.
Definition small_dict : dict robj := (dict_set (dict_create []) (bs "key") small_obj).2.
Definition small_keyspace : keyspace := {[ bs "key" := Aobj (VString (bs "value")) 5000 ]}.

Lemma small_dict_rep : db_rep small_dict small_keyspace ∧ rdb_keyspace small_keyspace.
Proof.
  split.
  - unfold small_dict, small_keyspace. rewrite <- insert_empty. apply db_rep_set; [apply db_rep_create|].
    split; [constructor|]. split; [done|]. unfold in_ll, INT64_MIN, INT64_MAX. cbn. lia.
  - split; [unfold small_keyspace; by rewrite map_size_singleton|].
    apply map_Forall_singleton. split; [done|]. by cbn.
Qed.

Definition idle : state :=
  State (Db (dict_create []) 0) (client_init 3 0) (World (λ _, 0) 0 (λ _, 0) 0 (λ _, []) 0 (λ _, None) 0 idle_system)
        no_aof.

Lemma idle_rep : db_rep (db_d (st_db idle)) ∅.
Proof. apply db_rep_create. Qed.

Lemma rdb_roundtrip_witness :
  ∃ b s', rdb_snapshot small_dict = Some b ∧ rdb_load (Contents b) idle = Some (0, s') ∧
    db_rep (db_d (st_db s')) (small_keyspace ∪ ∅) ∧ loads idle s'.
Proof.
  exact (rdb_roundtrip small_dict small_keyspace ∅ idle (proj1 small_dict_rep) (proj2 small_dict_rep) idle_rep).
Defined.

Lemma rdb_truncated_load_witness :
  let b := default [] (rdb_snapshot small_dict) in
  length b = 42%nat ∧
  ∃ kas k s', kas ≡ₚ map_to_list small_keyspace ∧ (k < length kas)%nat ∧
    rdb_load (Contents (take 40 b)) idle = Some (0, s') ∧
    db_rep (db_d (st_db s')) (store_all ∅ (take k kas)) ∧ loads idle s'.
Proof.
  intros b. split; [vm_compute; reflexivity|].
  pose proof (rdb_truncated_load small_dict small_keyspace ∅ idle b (take 40 b) (drop 40 b)
    (proj1 small_dict_rep) (proj2 small_dict_rep) idle_rep) as H.
  assert (rdb_snapshot small_dict = Some b) as Hb by (vm_compute; reflexivity).
  assert (drop 40 b ≠ []) as Hd by (vm_compute; discriminate).
  assert ((length (take 40 b) <? 17)%nat = false) as Hl by (vm_compute; reflexivity).
  specialize (H Hb (eq_sym (take_drop 40 b)) Hd). rewrite Hl in H. exact H.
Defined.
