(* ===== verification/RdbLoad.v ===== *)
(** * Loading an arbitrary file as a snapshot ([src/rdb.c], [rdb_load])

    Whatever bytes the file holds, loading it ends, reads nothing outside the buffer
    and leaves a well-formed store; unless it holds a NaN as a score, which the code
    puts into a sorted set without complaint. *)

From Stdlib Require Import Floats.SpecFloat.
From S2P Require Import Prelude Util Dict CList Zskiplist Zorder Zset Codec Object Machine DbCore Rdb.
Import Num.

(** ** The scores in a file *)

(** The same reads as those of the loop over the items of a container: whether every
    item read satisfies [P], and the reader after them. *)
Fixpoint scan_items {A} (rd : rdb_reader → option (A * rdb_reader)) (P : A → bool) (cnt : nat) (r : rdb_reader) :
    bool * option rdb_reader :=
  match cnt with
  | O => (true, Some r)
  | S cnt =>
      match rd r with
      | None => (true, None)
      | Some (x, r) => let '(ok, res) := scan_items rd P cnt r in (P x && ok, res)
      end
  end.

Definition scan_container {A} (rd : rdb_reader → option (A * rdb_reader)) (P : A → bool) (r : rdb_reader) :
    bool * option rdb_reader :=
  match r_u32 r with
  | None => (true, None)
  | Some (cnt, r) => scan_items rd P (Z.to_nat cnt) r
  end.

Definition scan_obj (t : Z) (r : rdb_reader) : bool * option rdb_reader :=
  if t =? 0 then (true, snd <$> r_bytes r)
  else if t =? 1 then scan_container r_bytes (λ _, true) r
  else if t =? 2 then scan_container (r_pair r_bytes r_bytes) (λ _, true) r
  else if t =? 3 then scan_container r_bytes (λ _, true) r
  else if t =? 4 then scan_container (r_pair r_bytes r_f64) (λ x, not_nan x.2) r
  else (true, None).

Fixpoint scan_keys (cnt : nat) (r : rdb_reader) : bool :=
  match cnt with
  | O => true
  | S cnt =>
      match r_pair (r_pair r_bytes r_s64) r_u8 r with
      | None => true
      | Some (_, _, type, r) =>
          let '(ok, res) := scan_obj type r in
          ok && match res with Some r => scan_keys cnt r | None => true end
      end
  end.

(** No score that loading the file reads is a NaN. *)
Definition no_nan (b : bytes) : bool :=
  match r_u32 (Reader b 9) with
  | Some (_, r) => match r_u32 r with Some (count, r) => scan_keys (Z.to_nat count) r | None => true end
  | None => true
  end.

(** ** Containers *)

Section Container.
Context {A B : Type} (rd : rdb_reader → option (A * rdb_reader)) (P : A → bool).
Context (I : B → Prop) (add : B → A → M B) (create : M B) (make : B → storage).
Hypothesis Hcreate : ∀ s, wp create (λ b s', I b ∧ drew s s') s.
Hypothesis Hadd : ∀ b x s, P x = true → I b → wp (add b x) (λ b' s', I b' ∧ drew s s') s.

Lemma wp_read_items_any cnt : ∀ r b s, (scan_items rd P cnt r).1 = true → I b →
  wp (read_items rd add cnt r b) (λ res s', drew s s' ∧ (snd <$> res) = (scan_items rd P cnt r).2 ∧
    ∀ b' r', res = Some (b', r') → I b') s.
Proof using Hadd.
  induction cnt as [|cnt IH]; intros r b s Hs Hb; cbn [read_items scan_items] in *.
  { apply wp_ret. split; [done|]. split; [done|]. by intros b' r' [= <- _]. }
  destruct (rd r) as [[x r1]|] eqn:E; [|by apply wp_ret].
  destruct (scan_items rd P cnt r1) as [ok res] eqn:Es. cbn [fst snd] in *. apply andb_true_iff in Hs as [Hx Hok].
  apply wp_bind. eapply wp_mono; [by apply Hadd|]. intros b1 s1 [Hb1 Hs1].
  eapply wp_mono; [apply IH; [by rewrite Es|done]|]. intros out s2 (Hs2 & Ho & Hres). rewrite Es in Ho. split; [by etrans|done].
Qed.

Hypothesis Hmake : ∀ b, I b → ∃ v, storage_rep (make b) v.

Lemma wp_read_container_any r s :
  (scan_container rd P r).1 = true →
  wp (read_container rd add create make r) (λ res s', drew s s' ∧ (snd <$> res) = (scan_container rd P r).2 ∧
    ∀ o r', res = Some (o, r') → ∃ v, storage_rep (o_ptr o) v) s.
Proof using Hadd Hcreate Hmake.
  unfold read_container, scan_container. destruct (r_u32 r) as [[cnt r1]|]; [|by intros _; apply wp_ret]. intros Hok.
  apply wp_bind. eapply wp_mono; [apply Hcreate|]. intros b s1 [Hb Hs1].
  apply wp_bind. eapply wp_mono; [by apply wp_read_items_any|]. intros [[b' r']|] s2 (Hs2 & Ho & Hres); apply wp_ret.
  - split; [by etrans|]. split; [done|]. intros o r2 [= <- _]. by eapply Hmake, Hres.
  - split; [by etrans|done].
Qed.
End Container.

Lemma wp_read_obj_any ty r s :
  (scan_obj ty r).1 = true →
  wp (rdb_read_obj ty r) (λ res s', drew s s' ∧ (snd <$> res) = (scan_obj ty r).2 ∧
    ∀ o r', res = Some (o, r') → ∃ v, storage_rep (o_ptr o) v) s.
Proof.
  unfold rdb_read_obj, scan_obj.
  assert (∀ V s, wp (seed ← random_seed; mret (dict_create seed)) (λ (h : dict V) s', dict_wf h ∧ drew s s') s) as Hdict.
  { intros V s0. apply wp_bind, wp_draw_seed. intros seed s1 H1. apply wp_ret. split; [apply dict_create_spec|done]. }
  destruct (ty =? 0); [intros _|destruct (ty =? 1); [|destruct (ty =? 2); [|destruct (ty =? 3); [|destruct (ty =? 4)]]]].
  - apply wp_ret. split; [done|]. destruct (r_bytes r) as [[b r1]|]; cbn; [|done]. split; [done|]. intros o r' [= <- _].
    eexists. constructor.
  - apply (wp_read_container_any _ _ (λ l, ∃ xs, is_list l xs)).
    + intros s0. apply wp_ret. split; [|reflexivity]. exists []. apply is_list_create.
    + intros l x s0 _ [xs Hl]. destruct (list_push_tail_spec l xs x Hl) as (l' & E & Hl'). eapply wp_lift; [exact E|]. split; [by eexists|reflexivity].
    + intros l [xs Hl]. eexists. by constructor.
  - apply (wp_read_container_any _ _ dict_wf); [apply Hdict|..].
    + intros h x s0 _ Hh. apply wp_ret. split; [by apply dict_set_correct|done].
    + intros h Hh. eexists. by constructor.
  - apply (wp_read_container_any _ _ dict_wf); [apply Hdict|..].
    + intros h x s0 _ Hh. apply wp_ret. split; [by apply dict_set_correct|done].
    + intros h Hh. eexists. by constructor.
  - apply (wp_read_container_any _ _ (λ z, ∃ xs, zset_rep z xs)).
    + intros s0. apply wp_bind, wp_draw_seed. intros seed s1 H1. apply wp_ret. split; [|done]. eexists. apply zset_create_rep.
    + intros z x s0 Hx [xs Hz]. apply wp_bind. eapply wp_mono; [by apply wp_zset_insert|]. intros [rc z'] s1 (z2 & E & Hz2 & Hs).
      injection E as -> ->. apply wp_ret. split; [by eexists|done].
    + intros z [xs Hz]. eexists. by constructor.
  - intros _. by apply wp_ret.
Qed.

(** ** The whole file *)

Lemma r_s64_range r x r' : r_s64 r = Some (x, r') → in_ll x.
Proof.
  unfold r_s64. destruct (r_need r 8) as [r1|]; [|done]. cbn [mbind option_bind]. intros Hx%(inj Some).
  apply pair_equal_spec in Hx as [<- _]. apply wraps64_in_ll.
Qed.

Lemma wp_load_keys_any cnt : ∀ r s ks,
  scan_keys cnt r = true → db_rep (db_d (st_db s)) ks →
  wp (load_keys cnt r) (λ _ s', (∃ ks', db_rep (db_d (st_db s')) ks') ∧ loads s s') s.
Proof.
  induction cnt as [|cnt IH]; intros r s ks Hn Hd; cbn [load_keys scan_keys] in *; [apply wp_ret; split; [by eexists|by split_and!]|].
  assert (∀ s', drew s s' → (∃ ks', db_rep (db_d (st_db s')) ks') ∧ loads s s') as Hstop.
  { intros s' Hs. rewrite (proj1 Hs). split; [by eexists|]. eapply drew_loads; [exact Hs|]. by split_and!. }
  destruct (r_pair (r_pair r_bytes r_s64) r_u8 r) as [[[[key expire] ty] r1]|] eqn:E; [|apply wp_ret; by apply Hstop].
  assert (in_ll expire) as He.
  { unfold r_pair in E. destruct (r_bytes r) as [[k r2]|]; [|done]. cbn [mbind option_bind] in E.
    destruct (r_s64 r2) as [[x r3]|] eqn:E2; [|done]. cbn [mbind option_bind] in E. apply r_s64_range in E2.
    destruct (r_u8 r3) as [[y r4]|]; [|done]. cbn [mbind option_bind] in E. simplify_eq. exact E2. }
  destruct (scan_obj ty r1) as [ok res] eqn:Es. apply andb_true_iff in Hn as [Hok Hn].
  apply wp_bind. eapply wp_mono; [apply wp_read_obj_any; by rewrite Es|]. rewrite Es. cbn [snd].
  intros [[o r2]|] s1 (Hs1 & Hr & Hres); [|apply wp_ret; by apply Hstop]. cbn in Hr. subst res.
  destruct (Hres _ _ eq_refl) as [v Hv]. apply wp_bind. eapply (wp_load_object _ _ (Aobj v expire)).
  { rewrite (proj1 Hs1). exact Hd. }
  { by split. }
  intros old s2 Hd2 Hs2. apply wp_bind. eapply wp_mono; [by eapply IH|]. intros n s3 [Hd3 Hs3]. apply wp_ret. split; [done|].
  eapply drew_loads; [done|]. unfold loads in *. intuition congruence.
Qed.

Lemma wp_rdb_load_any f s ks :
  (∀ b, f = Contents b → no_nan b = true) → db_rep (db_d (st_db s)) ks →
  wp (rdb_load f) (λ rc s', (rc = 0 ∨ rc = -1 ∧ s' = s) ∧ (∃ ks', db_rep (db_d (st_db s')) ks') ∧ loads s s') s.
Proof.
  intros Hn Hd. assert (wp (mret (-1)) (λ rc s', (rc = 0 ∨ rc = -1 ∧ s' = s) ∧ (∃ ks', db_rep (db_d (st_db s')) ks') ∧ loads s s') s) as Hfail.
  { apply wp_ret. split; [by right|]. split; [by eexists|by split_and!]. }
  unfold rdb_load. destruct f as [| |b]; [done..|]. specialize (Hn b eq_refl). destruct (_ || _); [done|]. unfold no_nan in Hn.
  destruct (r_u32 (Reader b 9)) as [[version r1]|]; [|done]. destruct (negb (version =? RDB_VERSION)); [done|].
  destruct (r_u32 r1) as [[count r2]|]; [|done].
  apply wp_bind. eapply wp_mono; [by eapply wp_load_keys_any|]. intros n s' Hl. apply wp_ret. split; [by left|done].
Qed.


(** One key is announced as a list of 255 elements, of which the file holds one. *)
Definition damaged : bytes :=
  rdb_header 2 ++ w_bytes (bs "k") ++ w_s64 (-1) ++ w_u8 1 ++ w_u32 255 ++ w_bytes (bs "element") ++ [x01].


(** A NaN in a snapshot becomes a score, and the order of the set is lost: here the
    member with score infinity comes before the one with score 1. *)
Definition nan_snapshot : bytes :=
  rdb_header 1 ++ w_bytes (bs "z") ++ w_s64 (-1) ++ w_u8 4 ++ w_u32 3 ++
  (w_bytes (bs "b") ++ w_f64 (S754_finite false 4503599627370496 (-52))) ++
  (w_bytes (bs "n") ++ w_f64 S754_nan) ++ (w_bytes (bs "c") ++ w_f64 (S754_infinity false)).

Example nan_score_loaded :
  ('(rc, s) ← rdb_load (Contents nan_snapshot) idle;
   o ← dict_get (db_d (st_db s)) (bs "z");
   match o_ptr o with OBJ_ZSET z => xs ← zsl_values (zs_zsl z); Some (rc, xs.*1, not_nan <$> xs.*2) | _ => None end)
  = Some (0, [bs "c"; bs "n"; bs "b"], [true; false; true]).
Proof. vm_compute. reflexivity. Qed.
