(* ===== verification/RdbSave.v ===== *)
(** * Saving a snapshot ([src/rdb.c], [rdb_save])

    The snapshot is serialised to memory, written to a temporary file and renamed
    over the old one. *)

From S2P Require Import Prelude Disk Dict Object Rdb.

Definition tmppath (path : bytes) : bytes := cstr path ++ bs ".tmp".

(** The part of [rdb_save] after serialisation: the buffer [b] replaces the file. *)
Definition rdb_replace (path b : bytes) : D Z :=
  opened ← sys_open (tmppath path);
  if negb opened then mret (-1) else
  ok ← file_write_full (length b) (tmppath path) b;
  commit_file (tmppath path) (cstr path) ok.

Definition rdb_save (path : bytes) (store : dict robj) : option (D Z) :=
  b ← rdb_snapshot store; Some (rdb_replace path b).

Lemma tmppath_ne path : cstr path ≠ tmppath path.
Proof.
  unfold tmppath. intros H. apply (f_equal length) in H. rewrite length_app in H. cbn in H. lia.
Qed.

Lemma dwp_rdb_replace path b files d :
  d_files d = files →
  dwp (rdb_replace path b) (replaced (tmppath path) files (cstr path) b) (untouched (tmppath path) files) d.
Proof.
  intros Hd. pose proof (tmppath_ne path). assert (untouched (tmppath path) files d) as Hu by (unfold untouched; by rewrite Hd).
  unfold rdb_replace. apply dwp_bind. eapply dwp_mono; [by apply dwp_open_tmp|]. intros ok d1 [Hu1 H1].
  destruct ok; cbn [negb]; [|apply dwp_ret; by apply replaced_fail].
  apply dwp_bind. eapply dwp_mono; [by eapply dwp_write_full; [| |apply H1]|].
  intros ok d2 [Hu2 Hok]. by apply dwp_commit.
Qed.

#[export] Instance rdb_replacer path b : Replacer (tmppath path) (cstr path) b (rdb_replace path b).
Proof.
  split.
  - unfold rdb_replace. auto 7 with ends.
  - intros d. by apply dwp_rdb_replace.
  - intros d Hd. replace (length b + 4)%nat with (S (length b + 3)) in Hd by lia.
    unfold rdb_replace, mbind, D_bind. destruct (healthy_open (tmppath path) _ d Hd) as (d1 & Hd1 & ->). cbn [negb].
    destruct (healthy_write_full (length b) (tmppath path) b 3 d1) as (d2 & Hd2 & ->); [done|done|].
    by apply healthy_commit.
Qed.

(** C20: saving replaces the snapshot file atomically.  Whatever system calls fail and
    wherever the process stops: when it returns 0 the file holds the complete
    serialised store; when it returns -1, or never returns, the file is the one that
    was there before; and no file but the snapshot and its temporary file changes.
    When no call fails and the process lives, it returns 0. *)
Theorem rdb_save_atomic (path b : bytes) (d : disk) :
  match rdb_replace path b d with
  | inl (rc, d') =>
      (rc = 0 ∧ d_files d' !! cstr path = Some b ∨ rc = -1 ∧ d_files d' !! cstr path = d_files d !! cstr path) ∧
      ∀ p, p ≠ cstr path → p ≠ tmppath path → d_files d' !! p = d_files d !! p
  | inr d' => ∀ p, p ≠ tmppath path → d_files d' !! p = d_files d !! p
  end ∧
  (healthy (length b + 4) d → ∃ d', rdb_replace path b d = inl (0, d')).
Proof. split; [exact (rp_dwp d)|apply rp_ok]. Qed.

Lemma rdb_save_atomic_witness :
  let d := Disk {[ bs "dump" := bs "old" ]} true (λ i, Some (i * 5)%nat) 0 true true true (Some 21%nat) in
  healthy (length (bs "hello, world") + 4) d ∧ ∃ d', rdb_replace (bs "dump") (bs "hello, world") d = inl (0, d').
Proof.
  intros d. assert (healthy (length (bs "hello, world") + 4) d) as Hd.
  { split; [reflexivity|]. split; [intros i; eexists; reflexivity|]. do 3 (split; [reflexivity|]). cbn. lia. }
  split; [exact Hd|]. clearbody d. destruct (rdb_save_atomic (bs "dump") (bs "hello, world") d) as [_ H]. exact (H Hd).
Defined.
