(* ===== verification/AofRewrite.v ===== *)
(** * Rewriting the append-only log ([aof_rewrite] of [src/aof.c])

    The whole store is written as a compact sequence of commands to a temporary
    file, which then replaces the log.  The theorems: the replacement is atomic, and
    replaying the new log gives the store back. *)

From Stdlib Require Import Floats.SpecFloat.
From S2P Require Import Prelude Disk Util Dict CList Zskiplist Zorder Zset Double DoubleText Object Machine DbCore.
From S2P Require Import DbString DbList DbHash DbSet DbZset Resp Aof Dispatch Session Frame Replay Rdb.
Import Num.

(** ** Writing the commands *)

(** The buffer built with explicit lengths is the RESP encoding of the arguments,
    written with [write_full].  [true] stands for 0, [false] for -1. *)
Definition aw_write_command (tmp : bytes) (argv : command) : D bool :=
  file_write_full (length (resp_encode argv)) tmp (resp_encode argv).

(** The loops over the elements of a container: [argv] is filled from its first two
    entries [head] on, and written and restarted when [full] says that the next
    element has no room; the rest is written at the end when there is any. *)
Fixpoint batch_loop (tmp : bytes) (full : nat → bool) (head argv : command) (items : list (list bytes)) : D bool :=
  match items with
  | [] => if (2 <? length argv)%nat then aw_write_command tmp argv else mret true
  | x :: items =>
      if full (length argv) then
        ok ← aw_write_command tmp argv;
        if (ok : bool) then batch_loop tmp full head (head ++ x) items else mret false
      else batch_loop tmp full head (argv ++ x) items
  end.

(** [i == 66] and [i + 1 >= 130]. *)
Definition full_single (i : nat) : bool := (i =? 66)%nat.
Definition full_pairs (i : nat) : bool := (130 <=? i + 1)%nat.

Definition aof_rewrite_key (tmp key : bytes) (o : robj) : option (D bool) :=
  let expires := o_expire_at o >=? 0 in
  let expire := ll_to_string (o_expire_at o) in
  let container name full items :=
    Some (ok ← batch_loop tmp full [name; key] [name; key] items;
          if negb ok then mret false else
          if expires then aw_write_command tmp [bs "PEXPIREAT"; key; expire] else mret true) in
  match o_ptr o with
  | OBJ_STRING s => Some (aw_write_command tmp ([bs "SET"; key; s] ++ if expires then [bs "PXAT"; expire] else []))
  | OBJ_LIST l => xs ← list_values l; container (bs "RPUSH") full_single ((λ v, [v]) <$> xs)
  | OBJ_HASH h => container (bs "HSET") full_pairs ((λ e, [e_key e; e_val e]) <$> dict_entries h)
  | OBJ_SET s => container (bs "SADD") full_single ((λ e, [e_key e]) <$> dict_entries s)
  | OBJ_ZSET z =>
      xs ← zsl_values (zs_zsl z);
      container (bs "ZADD") full_pairs ((λ x, [fmt_g17 x.2; x.1]) <$> xs)
  end.

(** [while ((e = dict_iter_next(&it)) != NULL)] *)
Fixpoint rewrite_keys (tmp : bytes) (es : list (entry robj)) : option (D bool) :=
  match es with
  | [] => Some (mret true)
  | e :: es =>
      first ← aof_rewrite_key tmp (e_key e) (e_val e);
      rest ← rewrite_keys tmp es;
      Some (ok ← first; if (ok : bool) then rest else mret false)
  end.

Definition rewrite_tmppath (path : bytes) : bytes := cstr path ++ bs ".rewrite.tmp".

Definition aof_rewrite (path : bytes) (store : dict robj) : option (D Z) :=
  w ← rewrite_keys (rewrite_tmppath path) (dict_entries store);
  Some (opened ← sys_open (rewrite_tmppath path);
        if negb opened then mret (-1) else
        ok ← w;
        commit_file (rewrite_tmppath path) (cstr path) ok).

(** ** The commands written *)

Fixpoint batches (full : nat → bool) (head argv : command) (items : list (list bytes)) : list command :=
  match items with
  | [] => if (2 <? length argv)%nat then [argv] else []
  | x :: items =>
      if full (length argv) then argv :: batches full head (head ++ x) items
      else batches full head (argv ++ x) items
  end.

Definition key_commands (key : bytes) (o : robj) : option (list command) :=
  let expires := o_expire_at o >=? 0 in
  let expire := ll_to_string (o_expire_at o) in
  let container name full items :=
    Some (batches full [name; key] [name; key] items ++
          if expires then [[bs "PEXPIREAT"; key; expire]] else []) in
  match o_ptr o with
  | OBJ_STRING s => Some [[bs "SET"; key; s] ++ if expires then [bs "PXAT"; expire] else []]
  | OBJ_LIST l => xs ← list_values l; container (bs "RPUSH") full_single ((λ v, [v]) <$> xs)
  | OBJ_HASH h => container (bs "HSET") full_pairs ((λ e, [e_key e; e_val e]) <$> dict_entries h)
  | OBJ_SET s => container (bs "SADD") full_single ((λ e, [e_key e]) <$> dict_entries s)
  | OBJ_ZSET z =>
      xs ← zsl_values (zs_zsl z);
      container (bs "ZADD") full_pairs ((λ x, [fmt_g17 x.2; x.1]) <$> xs)
  end.

Definition store_commands (d : dict robj) : option (list command) :=
  cmdss ← mapM (λ e, key_commands (e_key e) (e_val e)) (dict_entries d); Some (concat cmdss).

(** ** Programs that write a given sequence of bytes *)

Section Emits.
Context (tmp : bytes).

(** The program appends [b] to the temporary file, or fails; without failing calls it
    succeeds; and it ends. *)
Definition emits (m : D bool) (b : bytes) : Prop :=
  (∀ files done_ d, untouched tmp files d → d_files d !! tmp = Some done_ →
     dwp m (λ ok d', untouched tmp files d' ∧ (ok = true → d_files d' !! tmp = Some (done_ ++ b))) (untouched tmp files) d) ∧
  (∀ n d, healthy (length b + n) d → ∃ d', healthy n d' ∧ m d = inl (true, d')) ∧ ends m.

Lemma emits_nil : emits (mret true) [].
Proof.
  split_and!; [| |auto with ends].
  - intros files done_ d Hu Hd. apply dwp_ret. by rewrite app_nil_r.
  - intros n d Hd. by exists d.
Qed.

Lemma emits_bytes b : emits (file_write_full (length b) tmp b) b.
Proof.
  split_and!; [| |auto with ends].
  - intros files done_ d Hu Hd. by apply dwp_write_full.
  - intros n d Hd. by apply healthy_write_full.
Qed.

Lemma emits_seq m1 m2 b1 b2 :
  emits m1 b1 → emits m2 b2 → emits (ok ← m1; if (ok : bool) then m2 else mret false) (b1 ++ b2).
Proof.
  intros (H1 & G1 & E1) (H2 & G2 & E2). split_and!; [| |auto 7 with ends].
  - intros files done_ d Hu Hd. apply dwp_bind. eapply dwp_mono; [by apply H1|]. intros [] d1 [Hu1 Hd1]; [|by apply dwp_ret].
    rewrite app_assoc. apply H2; [done|by apply Hd1].
  - intros n d Hd. rewrite length_app, <- Nat.add_assoc in Hd. destruct (G1 _ d Hd) as (d1 & Hd1 & F1).
    destruct (G2 _ d1 Hd1) as (d2 & Hd2 & F2). exists d2. split; [done|]. unfold mbind, D_bind. by rewrite F1.
Qed.

Lemma emits_ext m m' b : (∀ d, m' d = m d) → emits m b → emits m' b.
Proof.
  intros E (H & G & N). split_and!.
  - intros files done_ d Hu Hd. unfold dwp. rewrite E. by apply H.
  - intros n d Hd. rewrite E. by apply G.
  - intros d. rewrite E. apply N.
Qed.

Lemma writer_emits m b : writer tmp m b → emits m b.
Proof. induction 1; [apply emits_nil|apply emits_bytes|by apply emits_seq|by eapply emits_ext]. Qed.

Lemma writer_command argv : writer tmp (aw_write_command tmp argv) (resp_encode argv).
Proof. apply writer_bytes. Qed.

Lemma writer_batches full head argv items :
  writer tmp (batch_loop tmp full head argv items) (concat (resp_encode <$> batches full head argv items)).
Proof.
  revert argv. induction items as [|x items IH]; intros argv; cbn [batch_loop batches].
  - destruct (2 <? length argv)%nat; [|apply writer_nil]. cbn. rewrite app_nil_r. apply writer_command.
  - destruct (full (length argv)); [|apply IH]. rewrite fmap_cons. cbn [concat]. apply writer_seq; [apply writer_command|apply IH].
Qed.

Lemma writer_key key o cmds :
  key_commands key o = Some cmds → ∃ m, aof_rewrite_key tmp key o = Some m ∧ writer tmp m (concat (resp_encode <$> cmds)).
Proof.
  assert (∀ (expires : bool) (fin : command) full head items,
    writer tmp (ok ← batch_loop tmp full head head items;
                if negb ok then mret false else if expires then aw_write_command tmp fin else mret true)
      (concat (resp_encode <$> (batches full head head items ++ if expires then [fin] else [])))) as Hc.
  { intros. rewrite fmap_app, concat_app.
    assert (writer tmp (if expires then aw_write_command tmp fin else mret true)
      (concat (resp_encode <$> if expires then [fin] else []))) as Hl.
    { destruct expires; [cbn; rewrite app_nil_r; apply writer_command|apply writer_nil]. }
    eapply writer_ext; [|exact (writer_seq _ _ _ _ _ (writer_batches full head head items) Hl)].
    intros d. unfold mbind, D_bind. by destruct (batch_loop _ _ _ _ _ d) as [[[] d1]|d1]. }
  unfold key_commands, aof_rewrite_key. destruct (o_ptr o) as [s|l|h|s|z].
  - intros [= <-]. eexists. split; [done|]. cbn [fmap list_fmap concat]. rewrite app_nil_r. apply writer_command.
  - destruct (list_values l); [|done]. intros [= <-]. eexists. split; [done|]. apply Hc.
  - intros [= <-]. eexists. split; [done|]. apply Hc.
  - intros [= <-]. eexists. split; [done|]. apply Hc.
  - destruct (zsl_values _); [|done]. intros [= <-]. eexists. split; [done|]. apply Hc.
Qed.

Lemma writer_keys es cmdss :
  mapM (λ e, key_commands (e_key e) (e_val e)) es = Some cmdss →
  ∃ m, rewrite_keys tmp es = Some m ∧ writer tmp m (concat (resp_encode <$> concat cmdss)).
Proof.
  revert cmdss. induction es as [|e es IH]; intros cmdss; cbn [mapM rewrite_keys].
  { intros [= <-]. eexists. split; [done|]. apply writer_nil. }
  destruct (key_commands (e_key e) (e_val e)) as [cmds|] eqn:Ek; [|done].
  destruct (mapM _ es) as [rest|] eqn:Em; [|done]. intros [= <-].
  destruct (writer_key _ _ _ Ek) as (m1 & -> & H1). destruct (IH rest eq_refl) as (m2 & -> & H2).
  eexists. split; [done|]. cbn [concat]. rewrite fmap_app, concat_app. by apply writer_seq.
Qed.

Lemma emits_key key o cmds :
  key_commands key o = Some cmds → ∃ m, aof_rewrite_key tmp key o = Some m ∧ emits m (concat (resp_encode <$> cmds)).
Proof. intros (m & Hm & Hw)%writer_key. eauto using writer_emits. Qed.

Lemma emits_keys es cmdss :
  mapM (λ e, key_commands (e_key e) (e_val e)) es = Some cmdss →
  ∃ m, rewrite_keys tmp es = Some m ∧ emits m (concat (resp_encode <$> concat cmdss)).
Proof. intros (m & Hm & Hw)%writer_keys. eauto using writer_emits. Qed.

End Emits.

Lemma rewrite_tmppath_ne path : cstr path ≠ rewrite_tmppath path.
Proof.
  unfold rewrite_tmppath. intros H. apply (f_equal length) in H. rewrite length_app in H. cbn in H. lia.
Qed.

(** ** Groups of elements *)

Section Groups.
Context {X : Type} (enc : X → list bytes) (w : nat) (full : nat → bool) (head : command).
Hypothesis Hw : (0 < w)%nat.
Hypothesis Henc : ∀ x, length (enc x) = w.
Hypothesis Hhead : length head = 2%nat.
Hypothesis Hempty : full 2 = false.

Lemma length_items (g : list X) : length (concat (enc <$> g)) = (w * length g)%nat.
Proof using Henc. clear -Henc. induction g as [|x g IH]; [cbn; lia|]. rewrite fmap_cons. cbn [concat length]. rewrite length_app, Henc, IH. lia. Qed.

(** The commands hold the elements in order, in non-empty groups. *)
Lemma batches_groups (cur xs : list X) :
  ∃ gs : list (list X),
    batches full head (head ++ concat (enc <$> cur)) (enc <$> xs) = (λ g, head ++ concat (enc <$> g)) <$> gs ∧
    concat gs = cur ++ xs ∧ Forall (λ g, g ≠ []) gs.
Proof.
  revert cur. induction xs as [|x xs IH]; intros cur.
  - cbn [batches fmap list_fmap]. rewrite length_app, length_items, Hhead, app_nil_r. destruct cur as [|y cur].
    + exists []. rewrite (proj2 (Nat.ltb_ge _ _)) by (cbn; lia). by repeat split.
    + exists [y :: cur]. rewrite (proj2 (Nat.ltb_lt _ _)) by (cbn [length]; lia). cbn [concat]. rewrite app_nil_r.
      repeat split. by constructor.
  - rewrite fmap_cons. cbn [batches]. destruct (full (length (head ++ concat (enc <$> cur)))) eqn:E.
    + destruct (IH [x]) as (gs & Hb & Hc & Hn). cbn [fmap list_fmap concat] in Hb. rewrite app_nil_r in Hb.
      exists (cur :: gs). rewrite Hb. cbn [concat]. rewrite Hc. repeat split. constructor; [|done].
      intros ->. rewrite length_app, Hhead in E. cbn in E. congruence.
    + destruct (IH (cur ++ [x])) as (gs & Hb & Hc & Hn). rewrite fmap_app, concat_app in Hb.
      cbn [fmap list_fmap concat] in Hb. rewrite app_nil_r, app_assoc in Hb. exists gs. rewrite Hb, Hc, <- app_assoc. done.
Qed.

End Groups.

(** ** Replaying the commands *)

(** The commands lead from one keyspace to another. *)
Definition runs (t : Z) (m : keyspace) (cmds : list command) (m' : keyspace) : Prop :=
  ∀ m2 rs, session m (map (pair t) cmds) m2 rs → m2 = m'.

Lemma session_app m l1 l2 m2 rs :
  session m (l1 ++ l2) m2 rs → ∃ m1 rs1 rs2, session m l1 m1 rs1 ∧ session m1 l2 m2 rs2.
Proof.
  revert m rs. induction l1 as [|[t cmd] l1 IH]; intros m rs H; [exists m, [], rs; by split; [constructor|]|].
  cbn [app] in H. apply session_inv in H as (m1 & r & rs' & He & H). apply IH in H as (m3 & rs1 & rs2 & H1 & H2).
  exists m3, (r :: rs1), rs2. split; [by econstructor|done].
Qed.

Lemma runs_nil t m : runs t m [] m.
Proof. intros m2 rs H. by inversion H. Qed.

Lemma runs_app t m c1 m1 c2 m2 : runs t m c1 m1 → runs t m1 c2 m2 → runs t m (c1 ++ c2) m2.
Proof.
  intros H1 H2 m3 rs H. rewrite map_app in H. apply session_app in H as (m' & rs1 & rs2 & Hs1 & Hs2).
  apply H1 in Hs1 as ->. by eapply H2.
Qed.

(** A keyspace with no expired key. *)
Definition settled (t : Z) (m : keyspace) : Prop := visible t m = m.

Lemma settled_put t k a m : settled t m → settled t (put t k a m).
Proof. unfold settled. intros Hm. rewrite <- Hm at 1. rewrite <- visible_insert. rewrite visible_visible by lia. by rewrite visible_insert, Hm. Qed.

Lemma settled_insert t k v m : settled t m → settled t (<[k := Aobj v (-1)]> m).
Proof. intros Hm. rewrite <- (put_forever t). by apply settled_put. Qed.

Lemma runs_one t m f name args :
  settled t m → find_spec name = Some (det f) → Forall nul_free (name :: args) →
  runs t m [name :: args] (f t m (name :: args)).1.
Proof.
  intros Hm Hf Hn m2 rs H. cbn [map] in H. apply session_inv in H as (m1 & r & rs' & He & H).
  assert (cstr <$> (name :: args) = name :: args) as Hc.
  { clear -Hn. induction Hn as [|a l Ha _ IH]; [done|]. rewrite fmap_cons, IH. by rewrite cstr_id. }
  rewrite Hm, Hc in He. unfold exec in He. rewrite Hf in He. unfold det in He. rewrite He.
  inversion H. by subst.
Qed.

Section Container.
Context {X : Type} (enc : X → list bytes) (mk : list X → value) (t : Z) (name k : bytes) (xs : list X).
Context (f : Z → keyspace → list bytes → keyspace * rv) (w : nat) (full : nat → bool).

(** The key after some of the elements. *)
Definition fill (m : keyspace) (l : list X) : keyspace :=
  match l with [] => m | _ => <[k := Aobj (mk l) (-1)]> m end.

Hypothesis Hf : find_spec name = Some (det f).
Hypothesis Hname : nul_free name.
Hypothesis Hk : nul_free k.
Hypothesis Hxs : Forall (λ x, Forall nul_free (enc x)) xs.
Hypothesis Hgrow : ∀ m don g,
  m !! k = None → g ≠ [] → (don ++ g) `prefix_of` xs →
  (f t (fill m don) (name :: k :: concat (enc <$> g))).1 = fill m (don ++ g).

Lemma runs_groups gs don m :
  settled t m → m !! k = None → Forall (λ g, g ≠ []) gs → (don ++ concat gs) `prefix_of` xs →
  runs t (fill m don) ((λ g, [name; k] ++ concat (enc <$> g)) <$> gs) (fill m (don ++ concat gs)).
Proof.
  intros Hm Hkm. revert don. induction gs as [|g gs IH]; intros don Hn Hp; cbn [fmap list_fmap concat] in *.
  { rewrite app_nil_r. apply runs_nil. }
  apply Forall_cons in Hn as [Hg Hn]. rewrite app_assoc in Hp |- *.
  assert ((don ++ g) `prefix_of` xs) as Hp1 by (etrans; [|done]; by eexists).
  change (?c :: ?cs) with ([c] ++ cs). eapply runs_app; [|by apply IH].
  cbn [app]. rewrite <- (Hgrow m don g Hkm Hg Hp1). apply runs_one; [|done|].
  - unfold fill. destruct don; [done|by apply settled_insert].
  - do 2 (constructor; [done|]). destruct Hp1 as [l Hl]. rewrite Hl in Hxs. apply Forall_app in Hxs as [Hxs' _].
    apply Forall_app in Hxs' as [_ Hg']. clear -Hg'. induction Hg' as [|x g Hx _ IH]; [constructor|].
    rewrite fmap_cons. cbn [concat]. by apply Forall_app.
Qed.

Hypothesis Hw : (0 < w)%nat.
Hypothesis Henc : ∀ x, length (enc x) = w.
Hypothesis Hempty : full 2 = false.

Lemma runs_batches m :
  settled t m → m !! k = None → xs ≠ [] →
  runs t m (batches full [name; k] [name; k] (enc <$> xs)) (<[k := Aobj (mk xs) (-1)]> m).
Proof.
  intros Hm Hkm Hne. destruct (batches_groups enc w full [name; k] Hw Henc eq_refl Hempty [] xs) as (gs & Hb & Hc & Hg).
  cbn [fmap list_fmap concat app] in Hb, Hc. rewrite Hb.
  pose proof (runs_groups gs [] m Hm Hkm Hg) as H. cbn [app] in H. rewrite Hc in H. specialize (H (reflexivity _)).
  unfold fill in H at 2. by destruct xs.
Qed.

End Container.

(** ** The containers *)

Lemma concat_singles {A} (g : list A) : concat ((λ v, [v]) <$> g) = g.
Proof. induction g as [|x g IH]; [done|]. rewrite fmap_cons. cbn [concat app]. by rewrite IH. Qed.

Lemma pair_up_items {X} (a b : X → bytes) (g : list X) :
  pair_up (concat ((λ x, [a x; b x]) <$> g)) = (λ x, (a x, b x)) <$> g.
Proof. induction g as [|x g IH]; [done|]. rewrite !fmap_cons. cbn [concat app pair_up]. by rewrite IH. Qed.

Lemma even_items {X} (a b : X → bytes) (g : list X) : Nat.odd (length (concat ((λ x, [a x; b x]) <$> g))) = false.
Proof.
  rewrite (length_items _ 2) by done. rewrite <- Nat.negb_even, Nat.even_mul. done.
Qed.

Lemma fill_lookup {X} (mk : list X → value) k m don :
  m !! k = None → fill mk k m don !! k = match don with [] => None | _ => Some (Aobj (mk don) (-1)) end.
Proof. intros Hk. destruct don; [done|]. apply lookup_insert_eq. Qed.

Lemma fill_insert {X} (mk : list X → value) k m don l :
  l ≠ [] → <[k := Aobj (mk l) (-1)]> (fill mk k m don) = fill mk k m l.
Proof. intros Hl. destruct l; [done|]. destruct don; [done|]. apply insert_insert_eq. Qed.

Lemma list_grow t k (xs : list bytes) m don g :
  m !! k = None → g ≠ [] → (don ++ g) `prefix_of` xs →
  (s_push false false t (fill VList k m don) (bs "RPUSH" :: k :: concat ((λ v, [v]) <$> g))).1 = fill VList k m (don ++ g).
Proof.
  intros Hk Hg _. rewrite concat_singles. unfold s_push, on_list. rewrite (fill_lookup _ _ _ _ Hk).
  destruct g as [|x g]; [done|]. destruct don as [|y don]; [done|]. unfold pushed. cbn [fst].
  by rewrite fill_insert.
Qed.

Definition field_map (l : list (bytes * bytes)) : gmap bytes bytes := foldl (λ m x, <[x.1 := x.2]> m) ∅ l.

Lemma insert_all_app l g : insert_all (field_map l) g = field_map (l ++ g).
Proof.
  unfold insert_all, field_map. rewrite foldl_app. generalize (foldl (λ (m : gmap bytes bytes) x, <[x.1 := x.2]> m) ∅ l).
  induction g as [|[a b] g IH]; intros h; [done|]. cbn [foldl fst snd]. by rewrite IH.
Qed.

Lemma hash_grow t k (xs : list (bytes * bytes)) m don g :
  m !! k = None → g ≠ [] → (don ++ g) `prefix_of` xs →
  (s_hset false t (fill (λ l, VHash (field_map l)) k m don) (bs "HSET" :: k :: concat ((λ x, [x.1; x.2]) <$> g))).1
  = fill (λ l, VHash (field_map l)) k m (don ++ g).
Proof.
  intros Hk Hg _. pose proof (even_items fst snd g) as He. pose proof (pair_up_items fst snd g) as Hp.
  assert ((λ x : bytes * bytes, (x.1, x.2)) <$> g = g) as Hid.
  { clear. induction g as [|[] g IH]; [done|]. by rewrite fmap_cons, IH. }
  rewrite Hid in Hp. unfold s_hset. destruct g as [|[a b] g]; [done|]. set (g' := (a, b) :: g) in *.
  assert (concat ((λ x, [x.1; x.2]) <$> g') = a :: b :: concat ((λ x, [x.1; x.2]) <$> g)) as E by done.
  rewrite E in *. rewrite He, Hp. unfold on_hash_new, on_hash. rewrite (fill_lookup _ _ _ _ Hk).
  rewrite <- (fill_insert (λ l, VHash (field_map l)) k m don (don ++ g')) by (destruct don; done).
  destruct don as [|y don]; cbn [fst]; by rewrite <- insert_all_app.
Qed.

Definition member_set (l : list bytes) : gmap bytes unit := foldl (λ m x, <[x := tt]> m) ∅ l.

Lemma set_grow t k (xs : list bytes) m don g :
  m !! k = None → g ≠ [] → (don ++ g) `prefix_of` xs →
  (s_sadd t (fill (λ l, VSet (member_set l)) k m don) (bs "SADD" :: k :: concat ((λ v, [v]) <$> g))).1
  = fill (λ l, VSet (member_set l)) k m (don ++ g).
Proof.
  intros Hk Hg _. rewrite concat_singles. unfold s_sadd, on_set. rewrite (fill_lookup _ _ _ _ Hk).
  rewrite <- (fill_insert (λ l, VSet (member_set l)) k m don (don ++ g)) by (destruct don, g; done).
  destruct g as [|x g]; [done|].
  assert (add_all (member_set don) (x :: g) = member_set (don ++ x :: g)) as <- by (unfold add_all, member_set; by rewrite foldl_app).
  by destruct don.
Qed.

(** A number is none of the options of ZADD. *)
Lemma tolower_letter c l : tolower c = l → (97 <=? uchar l) && (uchar l <=? 122) = true → c = l ∨ c = byte_of_Z (uchar l - 32).
Proof. intros <-. destruct c; vm_compute; intros H; try discriminate H; first [by left|by right]. Qed.

Lemma number_no_option w a d :
  w ∈ [bs "NX"; bs "XX"; bs "CH"; bs "INCR"] → nul_free a → parse_double a = Some d → strcaseeq a w = false.
Proof.
  intros Hw Ha Hd. apply not_true_iff_false. unfold strcaseeq. rewrite bool_decide_eq_true, (cstr_id a Ha). intros E. clear Ha.
  assert (parse_double a = None) as Hn; [|congruence]. clear Hd.
  repeat (apply elem_of_cons in Hw as [->|Hw]; [|]); [..|set_solver].
  all: destruct a as [|c1 [|c2 [|c3 [|c4 [|c5 a]]]]]; cbn in E; try discriminate E; injection E; clear E; intros.
  all: repeat match goal with E : tolower _ = _ |- _ => apply tolower_letter in E as [->| ->]; [..|vm_compute; reflexivity] end.
  all: vm_compute; reflexivity.
Qed.

Lemma zadd_plain k m (xs g : list zentry) don e :
  Forall (λ x, parse_double (fmt_g17 x.1) = Some x.1) g →
  (zadd_pairs m k (ZaddFlags false false false false) (concat ((λ x : zentry, [fmt_g17 x.1; x.2]) <$> g)) don e).1
  = <[k := Aobj (VZset (foldl (λ ys e, (zadd ys e.1 e.2).2) don g)) e]> m.
Proof.
  intros Hg. unfold zadd_pairs. rewrite (pair_up_items (λ x : zentry, fmt_g17 x.1) snd). generalize 0 at 1 as added. generalize 0 as changed.
  assert (∀ added changed, (zadd_all (ZaddFlags false false false false) don added changed ((λ x : zentry, (fmt_g17 x.1, x.2)) <$> g)).1
    = foldl (λ ys e, (zadd ys e.1 e.2).2) don g) as H.
  { revert don. induction Hg as [|x g Hx _ IH]; intros don added changed; [done|]. rewrite fmap_cons. cbn [zadd_all]. rewrite Hx. cbn.
    destruct (zadd don x.1 x.2) as [res ys] eqn:E. by rewrite IH. }
  intros changed added. specialize (H added changed). destruct (zadd_all _ _ _ _ _) as [ys r]. cbn [fst] in *. by rewrite H.
Qed.

Lemma zset_ok_prefix xs ys : zset_ok ys → xs `prefix_of` ys → zset_ok xs.
Proof.
  intros [Hs Hn] [zs ->]. split; [by eapply sorted_prefix|]. rewrite fmap_app in Hn. by apply NoDup_app in Hn as [? _].
Qed.

Lemma zset_grow t k (xs : list zentry) m don g :
  zset_ok xs → Forall (λ x, parse_double (fmt_g17 x.1) = Some x.1) xs →
  m !! k = None → g ≠ [] → (don ++ g) `prefix_of` xs →
  (s_zadd t (fill VZset k m don) (bs "ZADD" :: k :: concat ((λ x : zentry, [fmt_g17 x.1; x.2]) <$> g))).1 = fill VZset k m (don ++ g).
Proof.
  intros Hok Hf Hk Hg Hp. assert (Forall (λ x, parse_double (fmt_g17 x.1) = Some x.1) g) as Hfg.
  { destruct Hp as [l Hl]. rewrite Hl in Hf. apply Forall_app in Hf as [Hf _]. by apply Forall_app in Hf as [_ ?]. }
  pose proof (zset_ok_prefix _ _ Hok Hp) as Hd.
  pose proof (even_items (λ x : zentry, fmt_g17 x.1) snd g) as He.
  pose proof (λ m don e, zadd_plain k m xs g don e Hfg) as Hz.
  rewrite <- (fill_insert VZset k m don (don ++ g)) by (destruct don, g; done).
  rewrite <- (zadd_sorted (don ++ g) Hd), foldl_app, (zadd_sorted don) by (eapply zset_ok_prefix; [done|by eexists]).
  destruct g as [|x g]; [done|]. set (g' := x :: g) in *. apply Forall_cons in Hfg as [Hx _].
  assert (concat ((λ x : zentry, [fmt_g17 x.1; x.2]) <$> g') = fmt_g17 x.1 :: x.2 :: concat ((λ x : zentry, [fmt_g17 x.1; x.2]) <$> g)) as E by done.
  unfold s_zadd. rewrite E in *. cbn [zadd_options]. pose proof (λ w Hw, number_no_option w _ _ Hw (fmt_g17_nul_free _) Hx) as Hno.
  rewrite !Hno by set_solver.
  cbn [f_nx f_xx f_incr andb]. rewrite He. cbn [length Nat.eqb orb]. unfold on_zset. rewrite (fill_lookup _ _ _ _ Hk).
  destruct don as [|y don]; apply Hz.
Qed.

(** ** Keys *)

(** Values the log can restore: text without NUL, no empty container, scores that are
    not subnormal; and no string whose deadline has passed. *)
Definition restorable (t : Z) (a : aobj) : Prop :=
  -1 <= a_expire a ∧
  match a_value a with
  | VString s => nul_free s ∧ (a_expire a = -1 ∨ 0 < a_expire a ∧ t <= a_expire a)
  | VList xs => xs ≠ [] ∧ Forall nul_free xs
  | VHash h => h ≠ ∅ ∧ map_Forall (λ f v, nul_free f ∧ nul_free v) h
  | VSet s => s ≠ ∅ ∧ map_Forall (λ x _, nul_free x) s
  | VZset xs => xs ≠ [] ∧ Forall (λ x, nul_free x.2 ∧ printable x.1 = true) xs
  end.

Lemma put_insert t k a a' m : put t k a (<[k := a']> m) = put t k a m.
Proof. unfold put. case_decide; [apply insert_insert_eq|apply delete_insert_eq]. Qed.

Lemma nul_free_bs (s : string) : bool_decide (nul_free (bs s)) = true → nul_free (bs s).
Proof. apply bool_decide_eq_true_1. Qed.

Ltac nul_frees :=
  repeat first [ apply Forall_nil_2 | apply Forall_cons_2 ];
  first [ assumption | apply nul_free_bs; reflexivity | by apply ll_to_string_nul_free | idtac ].

Lemma string_to_ll_plain e : in_ll e → 0 <= e → string_to_ll (ll_to_string e) = Some e.
Proof.
  intros He H0. rewrite <- (string_to_ll_print e He) by (unfold INT64_MIN; lia).
  by rewrite cstr_id by (by apply ll_to_string_nul_free).
Qed.

Lemma runs_pexpireat t k v e m :
  settled t m → nul_free k → in_ll e → 0 <= e → m !! k = None →
  runs t (<[k := Aobj v (-1)]> m) [[bs "PEXPIREAT"; k; ll_to_string e]] (put t k (Aobj v e) m).
Proof.
  intros Hm Hk He H0 Hn. replace (put t k (Aobj v e) m)
    with (s_expireat true t (<[k := Aobj v (-1)]> m) [bs "PEXPIREAT"; k; ll_to_string e]).1.
  - apply runs_one; [by apply settled_insert|reflexivity|nul_frees].
  - unfold s_expireat. rewrite string_to_ll_plain by done. unfold in_ll in He.
    rewrite Z.div_1_r, Z.mul_1_r, (proj2 (Z.ltb_ge _ _)), Z.gtb_ltb, (proj2 (Z.ltb_ge _ _)) by lia. cbn [orb].
    unfold s_set_expiry. rewrite lookup_insert_eq. cbn [fst a_value]. apply put_insert.
Qed.

Lemma runs_container t k v e m cmds :
  settled t m → nul_free k → in_ll e → -1 <= e → m !! k = None →
  runs t m cmds (<[k := Aobj v (-1)]> m) →
  runs t m (cmds ++ if e >=? 0 then [[bs "PEXPIREAT"; k; ll_to_string e]] else []) (put t k (Aobj v e) m).
Proof.
  intros Hm Hk He H1 Hn Hc. eapply runs_app; [done|]. rewrite Z.geb_leb. destruct (Z.leb_spec 0 e).
  - by apply runs_pexpireat.
  - assert (e = -1) as -> by lia. rewrite put_forever. apply runs_nil.
Qed.

Lemma runs_set t k s e m :
  settled t m → nul_free k → nul_free s → in_ll e → e = -1 ∨ 0 < e ∧ t <= e →
  runs t m [[bs "SET"; k; s] ++ if e >=? 0 then [bs "PXAT"; ll_to_string e] else []] (put t k (Aobj (VString s) e) m).
Proof.
  intros Hm Hk Hs He Ht. set (args := [bs "SET"; k; s] ++ _). replace (put _ _ _ _) with (s_set t m args).1.
  - subst args. cbn [app]. apply runs_one; [done|reflexivity|].
    destruct (e >=? 0); nul_frees.
  - subst args. cbn [app]. unfold s_set. destruct Ht as [->|[Hp Ht]]; [done|].
    rewrite Z.geb_leb, (proj2 (Z.leb_le _ _)) by lia. cbn [s_set_options].
    change (strcaseeq (bs "PXAT") (bs "EX")) with false. change (strcaseeq (bs "PXAT") (bs "PX")) with false.
    change (strcaseeq (bs "PXAT") (bs "EXAT")) with false. change (strcaseeq (bs "PXAT") (bs "PXAT")) with true.
    cbv beta iota zeta. rewrite string_to_ll_plain by (done || lia). unfold in_ll in He.
    rewrite Z.div_1_r, Z.mul_1_r, (proj2 (Z.leb_gt _ _)), Z.gtb_ltb, (proj2 (Z.ltb_ge _ _)) by lia. cbn [orb].
    by rewrite (proj2 (Z.ltb_ge _ _)) by lia.
Qed.

Lemma dict_not_empty {V} (h : dict V) : dict_wf h → dict_abs h ≠ ∅ → pair_of <$> dict_entries h ≠ [].
Proof. intros Hh Hn E. apply Hn. rewrite <- (dict_items h Hh), E. done. Qed.

Lemma member_set_keys (es : list (entry unit)) :
  foldl (λ m x, <[x.1 := x.2]> m) ∅ (pair_of <$> es) = member_set (e_key <$> es).
Proof.
  unfold member_set. rewrite !foldl_fmap. generalize (∅ : gmap bytes unit).
  induction es as [|[x [] h] es IH]; intros m; [done|]. cbn [foldl]. apply IH.
Qed.

Lemma runs_value t k o v m cmds e :
  storage_rep (o_ptr o) v → o_expire_at o = e → in_ll e → restorable t (Aobj v e) →
  settled t m → nul_free k → m !! k = None →
  key_commands k o = Some cmds → runs t m cmds (put t k (Aobj v e) m).
Proof.
  intros Hs He Hll [H1 Hv] Hm Hk Hn. unfold key_commands. rewrite He. cbn [a_value a_expire] in *.
  inversion Hs as [s Es|l xs Hl Es|h Hh Es|h Hh Es|z xs Hz Es]; subst v; cbn in Hv.
  - intros [= <-]. destruct Hv. by apply runs_set.
  - rewrite (list_values_spec _ _ Hl). cbn [mbind option_bind]. intros [= <-]. destruct Hv as [Hne Hf].
    apply runs_container; try done.
    eapply (runs_batches (λ v, [v]) VList t _ k xs (s_push false false) 1%nat); try (done || lia); [nul_frees| |].
    + eapply Forall_impl; [done|]. intros x Hx. nul_frees.
    + intros. by eapply list_grow.
  - intros [= <-]. destruct Hv as [Hne Hf]. apply runs_container; try done.
    rewrite <- (dict_items h Hh). pose proof (dict_items_forall h _ Hh Hf) as Hf'.
    replace ((λ e, [e_key e; e_val e]) <$> dict_entries h) with ((λ x, [x.1; x.2]) <$> (pair_of <$> dict_entries h))
      by (by rewrite <- list_fmap_compose).
    eapply (runs_batches (λ x, [x.1; x.2]) (λ l, VHash (field_map l)) t _ k _ (s_hset false) 2%nat); try (done || lia); [nul_frees| | |].
    + eapply Forall_impl; [done|]. intros x [Hx Hy]. nul_frees.
    + intros. by eapply hash_grow.
    + by apply dict_not_empty.
  - intros [= <-]. destruct Hv as [Hne Hf]. apply runs_container; try done.
    pose proof (dict_items_forall h _ Hh Hf) as Hf'. pose proof (dict_not_empty h Hh Hne) as Hne'.
    rewrite <- (dict_items h Hh), member_set_keys.
    replace ((λ e, [e_key e]) <$> dict_entries h) with ((λ v, [v]) <$> (e_key <$> dict_entries h))
      by (by rewrite <- list_fmap_compose).
    eapply (runs_batches (λ v, [v]) (λ l, VSet (member_set l)) t _ k _ s_sadd 1%nat); try (done || lia); [nul_frees| | |].
    + rewrite !Forall_fmap in *. eapply Forall_impl; [done|]. intros x Hx. nul_frees.
    + intros. by eapply set_grow.
    + by destruct (dict_entries h).
  - rewrite (zsl_values_spec _ _ Hz). cbn [mbind option_bind]. intros [= <-]. destruct Hv as [Hne Hf]. apply runs_container; try done.
    rewrite <- list_fmap_compose. unfold compose. cbn [fst snd].
    eapply (runs_batches (λ x : zentry, [fmt_g17 x.1; x.2]) VZset t _ k xs s_zadd 2%nat); try (done || lia); [nul_frees| |].
    + eapply Forall_impl; [done|]. intros x [Hx _]. pose proof (fmt_g17_nul_free x.1). nul_frees.
    + intros. apply (zset_grow _ _ xs); try done; [exact (proj1 Hz)|]. eapply Forall_impl; [done|]. intros x [_ ?]. by apply parse_fmt_g17.
Qed.

(** ** The whole store *)

Lemma put_lookup_ne t k a m k' : k' ≠ k → put t k a m !! k' = m !! k'.
Proof. intros. unfold put. case_decide; [by rewrite lookup_insert_ne|by rewrite lookup_delete_ne]. Qed.

Definition put_all (t : Z) (m : keyspace) (kas : list (bytes * aobj)) : keyspace :=
  foldl (λ m ka, put t ka.1 ka.2 m) m kas.

Lemma visible_store_all t m kas : visible t (store_all m kas) = put_all t (visible t m) kas.
Proof.
  revert m. induction kas as [|ka kas IH]; intros m; [done|]. unfold store_all, put_all in *. cbn [foldl].
  by rewrite IH, visible_insert.
Qed.

Lemma runs_store t es kas cmdss m :
  Forall2 (λ e ka, e_key e = ka.1 ∧ obj_rep (e_val e) ka.2) es kas →
  Forall (λ ka, nul_free ka.1 ∧ restorable t ka.2) kas → NoDup kas.*1 →
  mapM (λ e, key_commands (e_key e) (e_val e)) es = Some cmdss →
  settled t m → (∀ k, k ∈ kas.*1 → m !! k = None) → runs t m (concat cmdss) (put_all t m kas).
Proof.
  intros H. revert cmdss m. induction H as [|e [k a] es kas [Hk Ho] _ IH]; intros cmdss m Hr Hn Hc Hm Hnew.
  { injection Hc as <-. apply runs_nil. }
  cbn [mapM fst snd] in *. apply Forall_cons in Hr as [[Hkf Ha] Hr]. apply NoDup_cons in Hn as [Hk' Hn].
  destruct (key_commands (e_key e) (e_val e)) as [cmds|] eqn:Ek; [|done].
  destruct (mapM _ es) as [rest|] eqn:Em; [|done]. injection Hc as <-. rewrite Hk in Ek. cbn [concat].
  destruct Ho as (Hs & He & Hll). destruct a as [v x].
  eapply runs_app; [eapply runs_value; try done; apply Hnew; by left|].
  apply IH; try done; [by apply settled_put|]. intros k2 Hk2. rewrite put_lookup_ne; [apply Hnew; by right|].
  intros ->. done.
Qed.

Lemma key_commands_defined k o a : obj_rep o a → is_Some (key_commands k o).
Proof.
  intros (Hs & _). unfold key_commands. inversion Hs as [s|l xs Hl|h Hh|h Hh|z xs Hz].
  1, 3, 4: by eexists.
  - by rewrite (list_values_spec _ _ Hl).
  - by rewrite (zsl_values_spec _ _ Hz).
Qed.

Lemma store_commands_defined d ks :
  db_rep d ks → ∃ cmdss, mapM (λ e, key_commands (e_key e) (e_val e)) (dict_entries d) = Some cmdss.
Proof.
  intros Hd. destruct (db_rep_listed d ks Hd) as (kas & Hl & _). apply mapM_is_Some_2.
  induction Hl as [|e ka es kas [_ Ho] _ IH]; constructor; [by eapply key_commands_defined|done].
Qed.

Lemma store_replayed d ks cmdss t :
  db_rep d ks → map_Forall (λ k a, nul_free k ∧ restorable t a) ks →
  mapM (λ e, key_commands (e_key e) (e_val e)) (dict_entries d) = Some cmdss →
  runs t ∅ (concat cmdss) (visible t ks).
Proof.
  intros Hd Hr Hc. destruct (db_rep_listed d ks Hd) as (kas & Hl & Hp).
  assert (store_all ∅ kas = ks) as Hks by (rewrite (store_all_union kas ks ∅ Hp); apply (right_id_L ∅ (∪))).
  rewrite <- Hks, visible_store_all. assert (visible t ∅ = ∅) as He by apply map_filter_empty.
  rewrite He. eapply runs_store; try done.
  - rewrite Hp, Forall_forall. intros [k a] Hk. apply elem_of_map_to_list in Hk. exact (Hr k a Hk).
  - rewrite Hp. apply NoDup_fst_map_to_list.
Qed.

(** ** The written commands are known commands with bounded arguments *)

Lemma batches_name n full head argv items :
  hd_error head = Some n → hd_error argv = Some n →
  Forall (λ c, hd_error c = Some n) (batches full head argv items).
Proof.
  intros Hh. revert argv. induction items as [|x items IH]; intros argv Ha; cbn [batches].
  - by destruct (2 <? length argv)%nat; repeat constructor.
  - assert (∀ l, hd_error l = Some n → hd_error (l ++ x) = Some n) as Happ by (by intros []).
    destruct (full (length argv)); [constructor; [done|]|]; apply IH; by apply Happ.
Qed.

Lemma known_command other n cmd : is_some (find_spec (cstr n)) = true → hd_error cmd = Some n → supported other cmd.
Proof. destruct cmd as [|n' cmd]; [done|]. intros Hn [= ->]. by left. Qed.

Lemma key_commands_supported other k o cmds : key_commands k o = Some cmds → Forall (supported other) cmds.
Proof.
  assert (∀ n full items, is_some (find_spec (cstr n)) = true →
    Forall (supported other) (batches full [n; k] [n; k] items ++
      if o_expire_at o >=? 0 then [[bs "PEXPIREAT"; k; ll_to_string (o_expire_at o)]] else [])) as Hc.
  { intros n full items Hn. apply Forall_app. split.
    - eapply Forall_impl; [by apply (batches_name n)|]. intros c. by apply known_command.
    - destruct (o_expire_at o >=? 0); repeat constructor; by left. }
  unfold key_commands. destruct (o_ptr o) as [s|l|h|s|z].
  - intros [= <-]. constructor; [by left|constructor].
  - destruct (list_values l); [|done]. intros [= <-]. by apply Hc.
  - intros [= <-]. by apply Hc.
  - intros [= <-]. by apply Hc.
  - destruct (zsl_values _); [|done]. intros [= <-]. by apply Hc.
Qed.

Lemma store_commands_supported other es cmdss :
  mapM (λ e, key_commands (e_key e) (e_val e)) es = Some cmdss → Forall (supported other) (concat cmdss).
Proof.
  revert cmdss. induction es as [|e es IH]; intros cmdss; cbn [mapM]; [by intros [= <-]; constructor|].
  destruct (key_commands (e_key e) (e_val e)) as [cmds|] eqn:Ek; [|done]. destruct (mapM _ es) as [rest|]; [|done].
  intros [= <-]. cbn [concat]. apply Forall_app. split; [by eapply key_commands_supported|by apply IH].
Qed.

(** The sizes of the arrays [argv] of [aof_rewrite_key]. *)
Definition argv_size (t : obj_type) : nat :=
  match t with T_STRING => 5 | T_LIST | T_SET => 66 | T_HASH | T_ZSET => 130 end.

(** [argv] has room for the elements put into it. *)
Lemma batches_length N full w head argv (xs : list (list bytes)) :
  length head = 2%nat → Forall (λ x, length x = w) xs →
  (∀ i, (i <= N)%nat → full i = false → (i + w <= N)%nat) → (2 + w <= N)%nat → (length argv <= N)%nat →
  Forall (λ c, (length c <= N)%nat) (batches full head argv xs).
Proof.
  intros Hh Hx Hroom HN. revert argv. induction Hx as [|x xs Hx _ IH]; intros argv Ha; cbn [batches].
  - by destruct (2 <? length argv)%nat; repeat constructor.
  - destruct (full (length argv)) eqn:E; [constructor; [done|]|]; apply IH; rewrite length_app; [lia|].
    rewrite Hx. by apply Hroom.
Qed.

Lemma key_commands_bounded key o cmds :
  key_commands key o = Some cmds → Forall (λ c, (length c <= argv_size (o_type o))%nat) cmds.
Proof.
  assert (∀ n N full w (xs : list (list bytes)), Forall (λ x, length x = w) xs →
    (∀ i, (i <= N)%nat → full i = false → (i + w <= N)%nat) → (2 + w <= N)%nat → (3 <= N)%nat →
    Forall (λ c, (length c <= N)%nat) (batches full [n; key] [n; key] xs ++
      if o_expire_at o >=? 0 then [[bs "PEXPIREAT"; key; ll_to_string (o_expire_at o)]] else [])) as Hc.
  { intros n N full w xs Hx Hroom HN H3. apply Forall_app. split; [apply (batches_length N full w); cbn; done || lia|].
    destruct (o_expire_at o >=? 0); repeat constructor. done. }
  assert (∀ i, (i <= 66)%nat → full_single i = false → (i + 1 <= 66)%nat) as H1.
  { intros i Hi. unfold full_single. rewrite Nat.eqb_neq. lia. }
  assert (∀ i, (i <= 130)%nat → full_pairs i = false → (i + 2 <= 130)%nat) as H2.
  { intros i Hi. unfold full_pairs. rewrite Nat.leb_gt. lia. }
  unfold key_commands, o_type. destruct (o_ptr o) as [s|l|h|s|z].
  - intros [= <-]. constructor; [|constructor]. destruct (o_expire_at o >=? 0); cbn; lia.
  - destruct (list_values l); [|done]. intros [= <-]. apply (Hc _ 66%nat _ 1%nat); try done; try lia. by apply Forall_fmap, Forall_true.
  - intros [= <-]. apply (Hc _ 130%nat _ 2%nat); try done; try lia. by apply Forall_fmap, Forall_true.
  - intros [= <-]. apply (Hc _ 66%nat _ 1%nat); try done; try lia. by apply Forall_fmap, Forall_true.
  - destruct (zsl_values _); [|done]. intros [= <-]. apply (Hc _ 130%nat _ 2%nat); try done; try lia. by apply Forall_fmap, Forall_true.
Qed.

(** C39: the argument arrays of [aof_rewrite_key] are never overrun: whatever the value
    and however many elements it has, what it writes is a sequence of commands none
    of which has more arguments than the array its branch of the switch declares. *)
Theorem rewrite_argv_bounded (tmp key : bytes) (o : robj) (w : D bool) :
  aof_rewrite_key tmp key o = Some w →
  ∃ cmds, emits tmp w (concat (resp_encode <$> cmds)) ∧ Forall (λ c, (length c <= argv_size (o_type o))%nat) cmds.
Proof.
  intros Hw. destruct (key_commands key o) as [cmds|] eqn:E.
  - destruct (emits_key tmp key o cmds E) as (w' & Hw' & He). exists cmds. split; [congruence|]. by eapply key_commands_bounded.
  - exfalso. unfold key_commands, aof_rewrite_key in *. destruct (o_ptr o) as [s|l|h|s|z]; try done.
    + by destruct (list_values l).
    + by destruct (zsl_values (zs_zsl z)).
Qed.

Lemma rewrite_argv_bounded_witness :
  ∃ w cmds, aof_rewrite_key (bs "tmp") (bs "k") small_obj = Some w ∧
    emits (bs "tmp") w (concat (resp_encode <$> cmds)) ∧ Forall (λ c, (length c <= 5)%nat) cmds.
Proof.
  assert (∃ w, aof_rewrite_key (bs "tmp") (bs "k") small_obj = Some w) as [w Hw] by (eexists; reflexivity).
  destruct (rewrite_argv_bounded (bs "tmp") (bs "k") small_obj w Hw) as (cmds & He & Hl). exists w, cmds. exact (conj Hw (conj He Hl)).
Defined.

(** 70 elements of a list go into two commands of 66 and 8 arguments. *)
Example batches_of_seventy :
  map (@length bytes) (batches full_single [bs "RPUSH"; bs "l"] [bs "RPUSH"; bs "l"] (replicate 70 [bs "x"])) = [66; 8]%nat.
Proof. reflexivity. Qed.

Lemma dwp_aof_rewrite path m b d :
  emits (rewrite_tmppath path) m b →
  dwp (opened ← sys_open (rewrite_tmppath path); if negb opened then mret (-1) else
       ok ← m; commit_file (rewrite_tmppath path) (cstr path) ok)
    (replaced (rewrite_tmppath path) (d_files d) (cstr path) b) (untouched (rewrite_tmppath path) (d_files d)) d.
Proof.
  intros (Hsafe & _). pose proof (rewrite_tmppath_ne path). apply dwp_bind. eapply dwp_mono; [by apply dwp_open_tmp|].
  intros ok d1 [Hu1 H1]. destruct ok; cbn [negb]; [|apply dwp_ret; by apply replaced_fail].
  apply dwp_bind. eapply dwp_mono; [by apply (Hsafe _ []); [|apply H1]|].
  intros ok d2 [Hu2 Hok]. by apply dwp_commit.
Qed.

Lemma aof_rewrite_replacer path store cmds :
  store_commands store = Some cmds →
  ∃ w, aof_rewrite path store = Some w ∧ Replacer (rewrite_tmppath path) (cstr path) (concat (resp_encode <$> cmds)) w.
Proof.
  intros Hc. unfold store_commands in Hc. destruct (mapM _ _) as [cmdss|] eqn:Em; [|done].
  cbn [mbind option_bind] in Hc.  assert (cmds = concat cmdss) by congruence. subst cmds.
  destruct (emits_keys (rewrite_tmppath path) _ _ Em) as (m & Hm & Hm'). unfold aof_rewrite. rewrite Hm.
  eexists. split; [done|]. split.
  - pose proof (proj2 (proj2 Hm')). auto 7 with ends.
  - intros d. exact (dwp_aof_rewrite path m _ d Hm').
  - intros d Hd. replace (length _ + 4)%nat with (S (length (concat (resp_encode <$> concat cmdss)) + 3)) in Hd by lia.
    unfold mbind, D_bind. destruct (healthy_open (rewrite_tmppath path) _ d Hd) as (d1 & Hd1 & ->). cbn [negb].
    destruct (proj1 (proj2 Hm') 3%nat d1 Hd1) as (d2 & Hd2 & ->). by apply healthy_commit.
Qed.

(** C15: rewriting replaces the log atomically.  Whatever system calls fail and wherever
    the process stops: when it returns 0 the log is the sequence of commands that
    rebuilds the store, complete; when it returns -1, or never returns, the log is the
    one that was there before; and no file but the log and its temporary file changes.
    When no call fails and the process lives, it returns 0. *)
Theorem aof_rewrite_atomic (path : bytes) (store : dict robj) (cmds : list command) (d : disk) :
  store_commands store = Some cmds →
  let b := concat (resp_encode <$> cmds) in
  ∃ w, aof_rewrite path store = Some w ∧
    match w d with
    | inl (rc, d') =>
        (rc = 0 ∧ d_files d' !! cstr path = Some b ∨ rc = -1 ∧ d_files d' !! cstr path = d_files d !! cstr path) ∧
        ∀ p, p ≠ cstr path → p ≠ rewrite_tmppath path → d_files d' !! p = d_files d !! p
    | inr d' => ∀ p, p ≠ rewrite_tmppath path → d_files d' !! p = d_files d !! p
    end ∧
    (healthy (length b + 4) d → ∃ d', w d = inl (0, d')).
Proof.
  intros Hc b. destruct (aof_rewrite_replacer path store cmds Hc) as (w & Hw & Hr). exists w.
  split; [done|]. split; [exact (rp_dwp d)|apply rp_ok].
Qed.

Lemma aof_rewrite_atomic_witness :
  let d := Disk {[ bs "log" := bs "old" ]} true (λ i, Some (i * 5)%nat) 0 true true true (Some 99%nat) in
  ∃ w, aof_rewrite (bs "log") small_dict = Some w ∧ ∃ d', w d = inl (0, d').
Proof.
  intros d. assert (store_commands small_dict = Some [[bs "SET"; bs "key"; bs "value"; bs "PXAT"; bs "5000"]]) as E
    by (vm_compute; reflexivity).
  destruct (aof_rewrite_atomic (bs "log") small_dict _ d E) as (w & Hw & _ & H). exists w. split; [exact Hw|]. apply H.
  split; [reflexivity|]. split; [intros i; eexists; reflexivity|]. do 3 (split; [reflexivity|]). vm_compute. lia.
Defined.

(** A command within the limits of the parser. *)
Definition parseable (cmd : command) : Prop := encodable cmd ∧ Z.of_nat (length (resp_encode cmd)) < 2 ^ 31.

(** C7: a rewritten log restores the store.  After [aof_rewrite] has returned 0 for a
    store, an empty server that replays the log at time [t] ends with exactly the
    keys of the store that have not expired by then, with their values, types and
    expirations: strings, lists in order, hashes, sets and sorted sets, however many
    commands their elements were split into.  The hypotheses are the limits of the
    log: text without NUL, commands within the parser's bounds, no empty container,
    scores that survive printing, and no string whose deadline has passed. *)
Theorem aof_rewrite_recovers (other : string → command → M unit) (path : bytes) (store : dict robj) (ks : keyspace)
    (t garbage : Z) (c : client) (s : state) :
  db_rep store ks → map_Forall (λ k a, nul_free k ∧ restorable t a) ks → Rep t ∅ c s →
  ∃ w cmds, aof_rewrite path store = Some w ∧ store_commands store = Some cmds ∧
    ∀ d d', Forall parseable cmds → w d = inl (0, d') →
      ∃ s', aof_replay other (d_files d' !! cstr path) garbage s = Some (true, s') ∧ Rep t (visible t ks) c s'.
Proof.
  intros Hd Hr HR. destruct (store_commands_defined store ks Hd) as (cmdss & Em).
  assert (store_commands store = Some (concat cmdss)) as Ec by (unfold store_commands; by rewrite Em).
  destruct (emits_keys (rewrite_tmppath path) _ _ Em) as (m & Hm & Hm').
  unfold aof_rewrite. rewrite Hm. eexists _, _. split; [done|]. split; [done|]. intros d d' Hp Hw.
  pose proof (dwp_aof_rewrite path m _ d Hm') as H.
  unfold dwp in H. rewrite Hw in H. destruct H as [[[_ Hf]|[? _]] _]; [|lia]. rewrite Hf.
  assert (Forall (loggable other) (concat cmdss)) as Hl.
  { pose proof (store_commands_supported other _ _ Em) as Hs. rewrite Forall_forall in *. intros cmd Hc.
    destruct (Hp cmd Hc) as [He Hlen]. split; [by apply Hs|]. by split. }
  destruct (wp_run _ _ _ (wp_replay other _ [] garbage t ∅ c s HR Hl torn_nil)) as (rc & s' & Hrun & -> & m' & rs & Hse & HR').
  rewrite app_nil_r in Hrun. exists s'. split; [exact Hrun|].
  by rewrite <- (store_replayed store ks cmdss t Hd Hr Em _ _ Hse).
Qed.

Lemma aof_rewrite_recovers_witness :
  ∃ w cmds, aof_rewrite (bs "log") small_dict = Some w ∧ store_commands small_dict = Some cmds ∧
    ∀ d d', Forall parseable cmds → w d = inl (0, d') →
      ∃ s', aof_replay no_other (d_files d' !! cstr (bs "log")) 0 start = Some (true, s') ∧
            Rep 1000 (visible 1000 small_keyspace) (client_init 3 0) s'.
Proof.
  apply (aof_rewrite_recovers no_other (bs "log") small_dict small_keyspace 1000 0 (client_init 3 0) start
    (proj1 small_dict_rep)); [|exact start_Rep].
  apply map_Forall_singleton. split; [by apply (bool_decide_unpack _)|]. split; [cbn; lia|].
  split; [by apply (bool_decide_unpack _)|]. right. cbn. lia.
Defined.
