(* ===== verification/Processes.v ===== *)
(** * Processes that replace files at the same time

    [rdb_save] and [aof_rewrite] run in the server and in child processes.  Here their
    system calls are steps of a machine with an inode file system, in which any number
    of processes go on in any order, fail or are killed anywhere.  The invariant: as
    long as no two of them share a temporary file, every other file always holds its
    old contents or the complete contents of a process that has succeeded.  This
    justifies that [Persist] lets a child take effect at one point. *)

From S2P Require Import Prelude Disk DbString Dict Object Rdb RdbSave Resp AofRewrite.

(** ** Files with inodes *)

Record fs := Fs {
  fs_names : gmap bytes nat;
  fs_data : gmap nat bytes;
  fs_next : nat;
}.

Definition contents (f : fs) (name : bytes) : option bytes := i ← fs_names f !! name; fs_data f !! i.

(** [open(name, O_WRONLY | O_CREAT | O_TRUNC)] *)
Definition fs_open (f : fs) (name : bytes) : fs * nat :=
  match fs_names f !! name with
  | Some i => (Fs (fs_names f) (<[i := []]> (fs_data f)) (fs_next f), i)
  | None =>
      let i := fs_next f in
      (Fs (<[name := i]> (fs_names f)) (<[i := []]> (fs_data f)) (S i), i)
  end.

(** [write] at the position of the descriptor. *)
Definition fs_write (f : fs) (i off : nat) (v : bytes) : fs :=
  Fs (fs_names f) (<[i := overlay (default [] (fs_data f !! i)) off v]> (fs_data f)) (fs_next f).

(** [rename(old, new)]; an error when there is no such file. *)
Definition fs_rename (f : fs) (old new : bytes) : option fs :=
  i ← fs_names f !! old; Some (Fs (<[new := i]> (delete old (fs_names f))) (fs_data f) (fs_next f)).

(** ** Processes *)

(** The next system call of a process; [Ended None] when it was killed. *)
Inductive point :=
| Opening
| Writing (i off : nat)
| Syncing
| Closing (ok : bool)
| Renaming
| Ended (rc : option Z).

#[export] Instance point_eq_dec : EqDecision point.
Proof. solve_decision. Defined.

(** A process that replaces [pr_target] by [pr_bytes] through [pr_tmp]. *)
Record proc := Proc {
  pr_tmp : bytes;
  pr_target : bytes;
  pr_bytes : bytes;
  pr_at : point;
}.

Definition at_point (p : proc) (x : point) : proc := Proc (pr_tmp p) (pr_target p) (pr_bytes p) x.

(** What happens to the call: it succeeds, it fails, or (a write) it takes at most
    [S n] bytes; or the process is killed before it. *)
Inductive call_result := Succeeds | Fails | Takes (n : nat) | Killed.

(** After [off] bytes were written. *)
Definition written (p : proc) (i off : nat) : point := if (off <? length (pr_bytes p))%nat then Writing i off else Syncing.

(** One system call of [rdb_save]; [aof_rewrite] makes the same ones. *)
Definition proc_step (f : fs) (p : proc) (r : call_result) : option (fs * proc) :=
  match pr_at p, r with
  | Ended _, _ => None
  | _, Killed => Some (f, at_point p (Ended None))
  | Opening, Succeeds => let '(f, i) := fs_open f (pr_tmp p) in Some (f, at_point p (written p i 0))
  | Opening, Fails => Some (f, at_point p (Ended (Some (-1))))
  | Writing i off, Takes n =>
      let v := take (S n) (drop off (pr_bytes p)) in
      Some (fs_write f i off v, at_point p (written p i (off + length v)))
  | Writing _ _, Fails => Some (f, at_point p (Closing false))
  | Syncing, Succeeds => Some (f, at_point p (Closing true))
  | Syncing, Fails => Some (f, at_point p (Closing false))
  | Closing ok, Succeeds => Some (f, at_point p (if ok then Renaming else Ended (Some (-1))))
  | Closing _, Fails => Some (f, at_point p (Ended (Some (-1))))
  | Renaming, Succeeds => f ← fs_rename f (pr_tmp p) (pr_target p); Some (f, at_point p (Ended (Some 0)))
  | Renaming, Fails => Some (f, at_point p (Ended (Some (-1))))
  | _, _ => None
  end.

(** A system: the files and the processes started so far. *)
Definition sys : Type := fs * list proc.

Inductive step : sys → sys → Prop :=
| step_start f ps tmp target b : step (f, ps) (f, ps ++ [Proc tmp target b Opening])
| step_call f ps n p r f' p' : ps !! n = Some p → proc_step f p r = Some (f', p') → step (f, ps) (f', <[n := p']> ps).

(** ** Processes with temporary files of their own *)

Definition running (p : proc) : Prop := match pr_at p with Ended _ => False | _ => True end.

(** No two processes that have not ended use the same temporary file, and the
    temporary files are not what others replace. *)
Definition exclusive (temps : gset bytes) (ps : list proc) : Prop :=
  (∀ n n' p p', ps !! n = Some p → ps !! n' = Some p' → running p → running p' → pr_tmp p = pr_tmp p' → n = n') ∧
  ∀ n p, ps !! n = Some p → pr_tmp p ∈ temps ∧ pr_target p ∉ temps.

Definition apart_step (temps : gset bytes) (s s' : sys) : Prop := step s s' ∧ exclusive temps s'.2.

(** Every name has its own inode, which exists. *)
Record fs_ok (f : fs) : Prop := {
  fo_inode : ∀ name i, fs_names f !! name = Some i → (i < fs_next f)%nat ∧ is_Some (fs_data f !! i);
  fo_inj : ∀ name name' i, fs_names f !! name = Some i → fs_names f !! name' = Some i → name = name';
}.

(** What a process has put into its temporary file. *)
Definition temp_ok (f : fs) (p : proc) : Prop :=
  match pr_at p with
  | Writing i off => (off < length (pr_bytes p))%nat ∧ fs_names f !! pr_tmp p = Some i ∧ contents f (pr_tmp p) = Some (take off (pr_bytes p))
  | Syncing | Closing true | Renaming => contents f (pr_tmp p) = Some (pr_bytes p)
  | _ => True
  end.

Record invariant (temps : gset bytes) (f0 : fs) (s : sys) : Prop := {
  iv_excl : exclusive temps s.2;
  iv_fs : fs_ok s.1;
  iv_temp : ∀ n p, s.2 !! n = Some p → temp_ok s.1 p;
  iv_files : ∀ name, name ∉ temps → contents s.1 name = contents f0 name ∨
    ∃ n p, s.2 !! n = Some p ∧ pr_target p = name ∧ pr_at p = Ended (Some 0) ∧ contents s.1 name = Some (pr_bytes p);
}.

(** Nothing but the file [name] has changed. *)
Record only_file (name : bytes) (f f' : fs) : Prop := {
  of_ok : fs_ok f';
  of_names : ∀ n, n ≠ name → fs_names f' !! n = fs_names f !! n;
  of_contents : ∀ n, n ≠ name → contents f' n = contents f n;
}.

Lemma only_file_refl name f : fs_ok f → only_file name f f.
Proof. by split. Qed.

(** Changing the data of an inode changes the file that has it. *)
Lemma data_changed f i name x :
  fs_ok f → fs_names f !! name = Some i →
  let f' := Fs (fs_names f) (<[i := x]> (fs_data f)) (fs_next f) in only_file name f f' ∧ contents f' name = Some x.
Proof.
  intros [Hi Hj] Hn f'. split; [split; [split|..]|].
  - intros n j Hnj. destruct (Hi n j Hnj) as [? ?]. split; [done|]. cbn. destruct (decide (i = j)) as [->|]; [by rewrite lookup_insert_eq|by rewrite lookup_insert_ne].
  - exact Hj.
  - done.
  - intros n Hne. unfold contents. cbn. destruct (fs_names f !! n) as [j|] eqn:E; [|done]. cbn. rewrite lookup_insert_ne; [done|].
    intros ->. apply Hne. by eapply Hj.
  - unfold contents. cbn. rewrite Hn. cbn. by rewrite lookup_insert_eq.
Qed.

Lemma fs_open_spec f name :
  fs_ok f → let '(f', i) := fs_open f name in
  only_file name f f' ∧ fs_names f' !! name = Some i ∧ contents f' name = Some [].
Proof.
  intros Hok. unfold fs_open. destruct (fs_names f !! name) as [i|] eqn:E.
  - destruct (data_changed f i name [] Hok E). by split.
  - destruct Hok as [Hi Hj]. set (i := fs_next f). split; [split; [split|..]|split].
    + intros n j. cbn. intros [[<- <-]|[_ Hnj]]%lookup_insert_Some; [split; [lia|by rewrite lookup_insert_eq]|].
      destruct (Hi n j Hnj) as [? ?]. split; [lia|]. rewrite lookup_insert_ne by (subst i; lia). done.
    + intros n n' j. cbn. intros [[<- <-]|[_ Hn]]%lookup_insert_Some [[<- E']|[_ Hn']]%lookup_insert_Some; try done.
      * destruct (Hi _ _ Hn'). subst i. lia.
      * subst j. destruct (Hi _ _ Hn). subst i. lia.
      * by eapply Hj.
    + intros n Hne. cbn. by rewrite lookup_insert_ne.
    + intros n Hne. unfold contents. cbn. rewrite lookup_insert_ne by done. destruct (fs_names f !! n) as [j|] eqn:En; [|done]. cbn.
      rewrite lookup_insert_ne; [done|]. destruct (Hi _ _ En). subst i. lia.
    + cbn. by rewrite lookup_insert_eq.
    + unfold contents. cbn. rewrite lookup_insert_eq. cbn. by rewrite lookup_insert_eq.
Qed.

Lemma fs_write_spec f i name off v x :
  fs_ok f → fs_names f !! name = Some i → contents f name = Some x →
  only_file name f (fs_write f i off v) ∧ fs_names (fs_write f i off v) !! name = Some i ∧
  contents (fs_write f i off v) name = Some (overlay x off v).
Proof.
  intros Hok Hn Hx. unfold contents in Hx. rewrite Hn in Hx. cbn in Hx. unfold fs_write. rewrite Hx. cbn [default from_option id].
  destruct (data_changed f i name (overlay x off v) Hok Hn). by split.
Qed.

Lemma fs_rename_spec f old new x :
  fs_ok f → old ≠ new → contents f old = Some x →
  ∃ f', fs_rename f old new = Some f' ∧ fs_ok f' ∧ contents f' new = Some x ∧ contents f' old = None ∧
    ∀ n, n ≠ old → n ≠ new → fs_names f' !! n = fs_names f !! n ∧ contents f' n = contents f n.
Proof.
  intros [Hi Hj] Hne Hx. unfold contents in Hx. destruct (fs_names f !! old) as [i|] eqn:E; [|done]. cbn in Hx.
  unfold fs_rename. rewrite E. cbn. eexists. split; [done|]. split; [split|split; [|split]].
  - intros n j. cbn. intros [[<- <-]|[_ [_ Hn]%lookup_delete_Some]]%lookup_insert_Some; by eapply Hi.
  - intros n n' j. cbn. intros [[<- <-]|[? [? Hn]%lookup_delete_Some]]%lookup_insert_Some [[<- E']|[? [? Hn']%lookup_delete_Some]]%lookup_insert_Some; try done.
    + exfalso. by assert (old = n') by (by eapply Hj).
    + subst j. exfalso. by assert (old = n) by (by eapply Hj).
    + by eapply Hj.
  - unfold contents. cbn. rewrite lookup_insert_eq. done.
  - unfold contents. cbn. by rewrite lookup_insert_ne, lookup_delete_eq by done.
  - intros n H1 H2. unfold contents. cbn. by rewrite lookup_insert_ne, lookup_delete_ne by done.
Qed.

(** Writing the next bytes behind the ones that are there. *)
Lemma overlay_next b off n :
  (off < length b)%nat → let v := take (S n) (drop off b) in overlay (take off b) off v = take (off + length v) b.
Proof.
  intros Hoff v. unfold overlay. rewrite length_take, Nat.min_l, Nat.sub_diag by lia. cbn [replicate app].
  rewrite take_take, Nat.min_id, drop_ge, app_nil_r by (rewrite length_take; lia). subst v.
  rewrite length_take, length_drop, take_take_drop.
  destruct (decide (S n <= length b - off)%nat); [f_equal; lia|]. by rewrite !take_ge by lia.
Qed.

Lemma temp_ok_other f f' p :
  fs_names f' !! pr_tmp p = fs_names f !! pr_tmp p → contents f' (pr_tmp p) = contents f (pr_tmp p) → temp_ok f p → temp_ok f' p.
Proof. intros Hn Hc. unfold temp_ok. by rewrite Hn, Hc. Qed.

(** A call other than [rename] changes the temporary file only. *)
Lemma written_ok f p i off :
  (off <= length (pr_bytes p))%nat → fs_names f !! pr_tmp p = Some i → contents f (pr_tmp p) = Some (take off (pr_bytes p)) →
  temp_ok f (at_point p (written p i off)).
Proof.
  intros Ho Hn Hc. unfold temp_ok, written. cbn [at_point pr_at pr_tmp pr_bytes].
  destruct (Nat.ltb_spec off (length (pr_bytes p))); [done|]. by rewrite take_ge in Hc by lia.
Qed.

(** The effect of a call: a successful end replaces the target by the bytes of the
    process, everything else concerns the temporary file. *)
Lemma proc_step_effect f p r f' p' :
  fs_ok f → temp_ok f p → pr_tmp p ≠ pr_target p → proc_step f p r = Some (f', p') →
  running p ∧ (∃ x, p' = at_point p x) ∧ temp_ok f' p' ∧
  (only_file (pr_tmp p) f f' ∧ pr_at p' ≠ Ended (Some 0) ∨
   fs_ok f' ∧ pr_at p' = Ended (Some 0) ∧ contents f' (pr_target p) = Some (pr_bytes p) ∧
   ∀ n, n ≠ pr_tmp p → n ≠ pr_target p → fs_names f' !! n = fs_names f !! n ∧ contents f' n = contents f n).
Proof.
  intros Hok Ht Hne. unfold proc_step, running. pose proof (only_file_refl (pr_tmp p) f Hok) as Hr.
  unfold temp_ok in Ht. destruct (pr_at p) as [|i off| |ok| |rc] eqn:Ep; [..|done].
  all: destruct r as [| |n|]; try done; try (intros [= <- <-]; split; [done|]; split; [by eexists|]; split; [by cbn|]; left; by split).
  - pose proof (fs_open_spec f (pr_tmp p) Hok) as Ho. destruct (fs_open f (pr_tmp p)) as [f1 i]. intros [= <- <-].
    destruct Ho as (Ho & Hn & Hc). split; [done|]. split; [by eexists|]. split; [by apply written_ok; [lia| |]|]. left. split; [done|].
    unfold written. cbn. by case_match.
  - destruct Ht as (Hoff & Hn & Hc). set (v := take (S n) (drop off (pr_bytes p))). intros [= <- <-].
    destruct (fs_write_spec f i (pr_tmp p) off v _ Hok Hn Hc) as (Hw & Hn' & Hc'). pose proof (overlay_next (pr_bytes p) off n Hoff) as Ho.
    cbn zeta in Ho. fold v in Ho. rewrite Ho in Hc'. split; [done|]. split; [by eexists|]. split.
    + apply written_ok; [|done|done]. subst v. rewrite length_take, length_drop. lia.
    + left. split; [done|]. unfold written. cbn. by case_match.
  - intros [= <- <-]. split; [done|]. split; [by eexists|]. split; [by destruct ok|]. left. split; [done|]. by destruct ok.
  - destruct (fs_rename_spec f _ _ _ Hok Hne Ht) as (f1 & -> & Hok1 & Hc1 & _ & Ho1). cbn. intros [= <- <-].
    split; [done|]. split; [by eexists|]. split; [done|]. right. by split_and!.
Qed.

Lemma invariant_start temps f : fs_ok f → invariant temps f (f, []).
Proof. intros Hf. by split; [split| | |left]. Qed.

Lemma running_not_ended p x : running p → pr_at p ≠ Ended x.
Proof. unfold running. by intros H E; rewrite E in H. Qed.

(** The invariant is kept. *)
Lemma invariant_step temps f0 s s' : apart_step temps s s' → invariant temps f0 s → invariant temps f0 s'.
Proof.
  intros [Hs Hex] [Hex0 Hok Ht Hf]. destruct Hs as [f ps tmp target b|f ps n p r f' p' Hn Hp]; cbn [fst snd] in *.
  - split; cbn [fst snd]; [done|done|..].
    + intros n p [Hn|[_ Hn]]%lookup_app_Some; [by eapply Ht|]. apply list_lookup_singleton_Some in Hn as [_ <-]. done.
    + intros name Hname. destruct (Hf name Hname) as [?|(n & p & Hn & ?)]; [by left|]. right. exists n, p. split; [|done].
      by apply lookup_app_l_Some.
  - destruct Hex0 as [Hx1 Hx2]. destruct (Hx2 n p Hn) as [Htmp Htar]. assert (pr_tmp p ≠ pr_target p) as Hne by (intros E; by rewrite E in Htmp).
    destruct (proc_step_effect f p r f' p' Hok (Ht n p Hn) Hne Hp) as (Hrun & [x ->] & Htp & Heff).
    assert (fs_ok f') as Hok' by (destruct Heff as [[[] _]|[? _]]; done).
    assert (∀ q, q ≠ pr_tmp p → q ≠ pr_target p → fs_names f' !! q = fs_names f !! q ∧ contents f' q = contents f q) as Hsame.
    { destruct Heff as [[[] _]|(_ & _ & _ & H)]; [|exact H]. auto. }
    assert (n < length ps)%nat as Hlen by (by eapply lookup_lt_Some).
    split; cbn [fst snd]; [done|done|..].
    + intros k q Hk. destruct (decide (k = n)) as [->|Hkn].
      { rewrite list_lookup_insert_eq in Hk by done. by injection Hk as <-. }
      rewrite list_lookup_insert_ne in Hk by done. destruct (Hx2 k q Hk) as [Hqt _].
      destruct (decide (pr_tmp q = pr_tmp p)) as [E|E].
      * assert (¬ running q) as Hq by (intros Hq; apply Hkn; by eapply Hx1). unfold temp_ok. unfold running in Hq. by destruct (pr_at q).
      * eapply temp_ok_other; [..|by eapply Ht]; apply Hsame; congruence || (intros E'; by rewrite E' in Hqt).
    + intros name Hname. assert (name ≠ pr_tmp p) as Hnt by congruence.
      destruct (decide (name = pr_target p ∧ x = Ended (Some 0))) as [[-> ->]|Hcase].
      * right. exists n, (at_point p (Ended (Some 0))). rewrite list_lookup_insert_eq by done. do 3 (split; [done|]).
        destruct Heff as [[_ He]|(_ & _ & Hc & _)]; [by destruct He|exact Hc].
      * assert (contents f' name = contents f name) as ->.
        { destruct Heff as [[Hof _]|(_ & He & _ & H)]; [by apply Hof|]. apply H; [done|]. intros ->. apply Hcase. by split. }
        destruct (Hf name Hname) as [?|(k & q & Hk & Hq1 & Hq2 & Hq3)]; [by left|]. right. exists k, q. split; [|done].
        rewrite list_lookup_insert_ne; [done|]. intros ->. assert (p = q) as -> by congruence. by eapply running_not_ended.
Qed.

(** C14: replacing files is atomic under any interleaving.  However the system calls of
    any number of saving and rewriting processes are interleaved, whichever of them fail
    and wherever processes are killed: as long as no two processes that run use the same
    temporary file, every file that is not a temporary one holds at every moment what it
    held at first, or the complete bytes of a process that replaced it and returned 0. *)
Theorem replacement_atomic (temps : gset bytes) (f0 : fs) (s : sys) (name : bytes) :
  fs_ok f0 → rtc (apart_step temps) (f0, []) s → name ∉ temps →
  contents s.1 name = contents f0 name ∨
  ∃ p, p ∈ s.2 ∧ pr_target p = name ∧ pr_at p = Ended (Some 0) ∧ contents s.1 name = Some (pr_bytes p).
Proof.
  intros Hok Hs Hname. assert (invariant temps f0 s) as [_ _ _ Hf].
  { pose proof (invariant_start temps f0 Hok) as Hi. revert Hi. induction Hs as [|s1 s2 s3 H1 _ IH]; [done|].
    intros Hi. apply IH. by eapply invariant_step. }
  destruct (Hf name Hname) as [?|(n & p & Hn & ?)]; [by left|]. right. exists p. split; [by eapply list_elem_of_lookup_2|done].
Qed.

(** ** [rdb_save] and [aof_rewrite] are such processes *)

(** A process that runs alone. *)
Definition alone : fs * proc → fs * proc → Prop := rtc (λ x y, ∃ r, proc_step x.1 x.2 r = Some y).

Lemma alone_step f p r x y : proc_step f p r = Some x → alone x y → alone (f, p) y.
Proof. intros H. apply rtc_l. by exists r. Qed.

(** The files of [Disk] are those of [fs]. *)
Definition shows (f : fs) (d : disk) : Prop := fs_ok f ∧ ∀ n, contents f n = d_files d !! n.

Lemma shows_files f d d' : d_files d' = d_files d → shows f d → shows f d'.
Proof. intros E [Hf H]. split; [done|]. by rewrite E. Qed.

(** From here the process can end as the program does, with the same files. *)
Definition ends_alike (f : fs) (p : proc) (rc : Z) (d : disk) : Prop :=
  ∃ f', alone (f, p) (f', at_point p (Ended (Some rc))) ∧ shows f' d.
Definition stops_alike (f : fs) (p : proc) (d : disk) : Prop :=
  ∃ f', alone (f, p) (f', at_point p (Ended None)) ∧ shows f' d.

Lemma stops_now f p d : running p → shows f d → stops_alike f p d.
Proof.
  intros Hr Hs. exists f. split; [|done]. eapply (alone_step _ _ Killed); [|apply rtc_refl]. unfold proc_step, running in *. by destruct (pr_at p).
Qed.

Lemma ends_after f p r f1 p1 rc d : proc_step f p r = Some (f1, at_point p p1) → ends_alike f1 (at_point p p1) rc d → ends_alike f p rc d.
Proof. intros H (f' & Ha & Hd). exists f'. split; [|done]. by eapply alone_step. Qed.

Lemma stops_after f p r f1 p1 d : proc_step f p r = Some (f1, at_point p p1) → stops_alike f1 (at_point p p1) d → stops_alike f p d.
Proof. intros H (f' & Ha & Hd). exists f'. split; [|done]. by eapply alone_step. Qed.

(** The program ends, or stops, as the process can. *)
Definition follows (m : D Z) (f : fs) (p : proc) (d : disk) : Prop := dwp m (ends_alike f p) (stops_alike f p) d.

Lemma follows_after m f p r f1 x d :
  proc_step f p r = Some (f1, at_point p x) → follows m f1 (at_point p x) d → follows m f p d.
Proof.
  intros H Hm. eapply dwp_consequence; [exact Hm|..]; [intros rc d'; by eapply ends_after|intros d'; by eapply stops_after].
Qed.

Lemma follows_ret f p rc d : pr_at p = Ended (Some rc) → shows f d → follows (mret rc) f p d.
Proof. intros Hp Hd. apply dwp_ret. exists f. split; [|done]. destruct p. cbn in *. subst. apply rtc_refl. Qed.

(** One system call of the program. *)
Lemma follows_call {A} (g : disk → A * disk) (k : A → D Z) f p d :
  running p → shows f d →
  (∀ d1, shows f d1 → follows (k (g d1).1) f p (g d1).2) → follows (syscall g ≫= k) f p d.
Proof.
  intros Hr Hd Hk. apply dwp_bind, dwp_syscall; [by apply stops_now|]. intros d1 E. apply Hk. by eapply shows_files.
Qed.

Lemma follows_rename f p d :
  pr_at p = Renaming → shows f d → contents f (pr_tmp p) = Some (pr_bytes p) → pr_tmp p ≠ pr_target p →
  follows (renamed ← sys_rename (pr_tmp p) (pr_target p); mret (if (renamed : bool) then 0 else -1)) f p d.
Proof.
  intros Hp Hd Hc Hne. apply follows_call; [by unfold running; rewrite Hp|done|]. intros d1 Hd1. cbn [fst snd].
  destruct (d_rename d1).
  - destruct Hd1 as [Hok Hf]. destruct (fs_rename_spec f _ _ _ Hok Hne Hc) as (f1 & Hr & Hok1 & Hc1 & Hn1 & Ho1).
    eapply (follows_after _ _ _ Succeeds); [unfold proc_step; rewrite Hp, Hr; done|]. apply follows_ret; [done|]. split; [done|].
    intros n. cbn. rewrite <- Hf, Hc. destruct (decide (n = pr_target p)) as [->|Hn]; [by rewrite lookup_insert_eq|]. rewrite lookup_insert_ne by done.
    destruct (decide (n = pr_tmp p)) as [->|Hn']; [by rewrite lookup_delete_eq|]. rewrite lookup_delete_ne, <- Hf by done. by apply Ho1.
  - eapply (follows_after _ _ _ Fails); [unfold proc_step; rewrite Hp; done|]. by apply follows_ret.
Qed.

Lemma follows_commit f p d (ok : bool) :
  pr_at p = (if ok then Syncing else Closing false) → shows f d → (ok = true → contents f (pr_tmp p) = Some (pr_bytes p)) →
  pr_tmp p ≠ pr_target p → follows (commit_file (pr_tmp p) (pr_target p) ok) f p d.
Proof.
  intros Hp Hd Hc Hne. unfold commit_file.
  assert (∀ p d (ok : bool), pr_at p = Closing ok → shows f d → (ok = true → contents f (pr_tmp p) = Some (pr_bytes p)) → pr_tmp p ≠ pr_target p →
    follows (closed ← sys_close; if negb (ok && closed) then mret (-1) else
             renamed ← sys_rename (pr_tmp p) (pr_target p); mret (if (renamed : bool) then 0 else -1)) f p d) as Hclose.
  { clear. intros p d ok Hp Hd Hc Hne. apply follows_call; [by unfold running; rewrite Hp|done|]. intros d1 Hd1. cbn [fst snd].
    destruct (d_close d1).
    - eapply (follows_after _ _ _ Succeeds); [unfold proc_step; rewrite Hp; done|]. destruct ok; cbn [andb negb]; [|by apply follows_ret].
      apply (follows_rename f (at_point p Renaming)); auto.
    - rewrite andb_false_r. eapply (follows_after _ _ _ Fails); [unfold proc_step; rewrite Hp; done|]. by apply follows_ret. }
  destruct ok.
  - apply follows_call; [by unfold running; rewrite Hp|done|]. intros d1 Hd1. cbn [fst snd]. destruct (d_fsync d1).
    + eapply (follows_after _ _ _ Succeeds); [unfold proc_step; rewrite Hp; done|]. by apply (Hclose (at_point p (Closing true))).
    + eapply (follows_after _ _ _ Fails); [unfold proc_step; rewrite Hp; done|]. by apply (Hclose (at_point p (Closing false))).
  - by apply Hclose.
Qed.

Lemma follows_assoc {A B} (m : D A) (k : A → D B) (k' : B → D Z) f p d :
  follows (m ≫= λ a, k a ≫= k') f p d → follows ((m ≫= k) ≫= k') f p d.
Proof. unfold follows, dwp, mbind, D_bind. by destruct (m d) as [[a d']|d']. Qed.

(** Where a process stands that has written [off] bytes. *)
Record wrote (f : fs) (p : proc) (i off : nat) : Prop := {
  wr_at : pr_at p = written p i off;
  wr_off : (off <= length (pr_bytes p))%nat;
  wr_name : fs_names f !! pr_tmp p = Some i;
  wr_contents : contents f (pr_tmp p) = Some (take off (pr_bytes p));
}.

(** What follows the writes, in both cases. *)
Definition goes_on (k : bool → D Z) (p : proc) (i off : nat) : Prop :=
  (∀ f d, shows f d → wrote f (at_point p (written p i off)) i off → follows (k true) f (at_point p (written p i off)) d) ∧
  (∀ f d, shows f d → follows (k false) f (at_point p (Closing false)) d).

Lemma at_point_self p : at_point p (pr_at p) = p.
Proof. by destruct p. Qed.

(** [write_full] *)
Lemma follows_bytes k fuel : ∀ buf f p d i off rest,
  (length buf <= fuel)%nat → shows f d → wrote f p i off → drop off (pr_bytes p) = buf ++ rest → goes_on k p i (off + length buf) →
  follows (file_write_full fuel (pr_tmp p) buf ≫= k) f p d.
Proof.
  induction fuel as [|fuel IH]; intros [|c0 buf] f p d i off rest Hf Hd Hw Hdrop [Hk1 Hk2].
  1, 3: cbn [length] in *; rewrite Nat.add_0_r in *; specialize (Hk1 f d Hd); rewrite <- (wr_at _ _ _ _ Hw), at_point_self in Hk1; by apply Hk1.
  { cbn in Hf. lia. }
  set (b := c0 :: buf) in *. assert (0 < length b)%nat as Hb by (subst b; cbn; lia). cbn [file_write_full]. apply follows_assoc.
  change (c0 :: buf) with b. clearbody b. destruct Hw as [Hp Hoff Hn Hc]. pose proof (f_equal length Hdrop) as Hlen.
  rewrite length_drop, length_app in Hlen. assert (off < length (pr_bytes p))%nat as Hlt by lia.
  unfold written in Hp. rewrite (proj2 (Nat.ltb_lt _ _)) in Hp by done.
  apply follows_call; [by unfold running; rewrite Hp|done|]. intros d1 Hd1. destruct (d_write d1 (d_writes d1)) as [n|]; cbn [fst snd].
  - set (j := Nat.min (S n) (length b)). assert (S (pred j) = j ∧ (j <= length b)%nat) as [Hj1 Hj2] by (subst j; lia).
    pose proof (overlay_next (pr_bytes p) off (pred j) Hlt) as Ho. cbn zeta in Ho. rewrite Hj1, Hdrop in Ho.
    assert (take j (b ++ rest) = take j b) as Ev by (by apply take_app_le). rewrite Ev in Ho.
    assert (length (take j b) = j) as Ej by (rewrite length_take; lia). rewrite Ej in Ho.
    destruct Hd1 as [Hok Hfd]. destruct (fs_write_spec f i (pr_tmp p) off (take j b) _ Hok Hn Hc) as (Hw & Hn' & Hc'). rewrite Ho in Hc'.
    eapply (follows_after _ _ _ (Takes (pred j))); [unfold proc_step; by rewrite Hp, Hj1, Hdrop, Ev, Ej|].
    set (p1 := at_point p (written p i (off + j))). apply (IH (drop j b) _ p1 _ i (off + j)%nat rest).
    + rewrite length_drop. lia.
    + split; [by apply Hw|]. intros m. cbn [with_files d_files]. destruct (decide (m = pr_tmp p)) as [->|Hm].
      * rewrite lookup_insert_eq, Hc', <- Hfd, Hc. cbn [default from_option id]. f_equal. by rewrite <- (take_take_drop (pr_bytes p) off j), Hdrop, Ev.
      * rewrite lookup_insert_ne, <- Hfd by done. by apply Hw.
    + split; [done|change (pr_bytes p1) with (pr_bytes p); lia|done|done].
    + cbn [p1 at_point pr_bytes]. rewrite <- drop_drop, Hdrop. by apply drop_app_le.
    + rewrite length_drop. replace (off + j + (length b - j))%nat with (off + length b)%nat by lia. by split.
  - eapply (follows_after _ _ _ Fails); [unfold proc_step; by rewrite Hp|]. by apply Hk2.
Qed.

(** Any program that writes the bytes. *)
Lemma follows_writer tmp m b : writer tmp m b → ∀ k f p d i off rest,
  pr_tmp p = tmp → shows f d → wrote f p i off → drop off (pr_bytes p) = b ++ rest → goes_on k p i (off + length b) →
  follows (m ≫= k) f p d.
Proof.
  induction 1 as [|b|m1 m2 b1 b2 _ IH1 _ IH2|m m' b E _ IH]; intros k f p d i off rest Htmp Hd Hw Hdrop Hk.
  - destruct Hk as [Hk1 _]. cbn [length] in *. rewrite Nat.add_0_r in *. specialize (Hk1 f d Hd).
    rewrite <- (wr_at _ _ _ _ Hw), at_point_self in Hk1. by apply Hk1.
  - rewrite <- Htmp. by eapply follows_bytes.
  - rewrite <- app_assoc in Hdrop. apply follows_assoc. eapply IH1; [done|done|done|done|]. destruct Hk as [Hk1 Hk2]. split; [|exact Hk2].
    intros f1 d1 Hd1 Hw1. apply (IH2 k f1 (at_point p (written p i (off + length b1))) d1 i (off + length b1)%nat rest); [done|done|done| |].
    + cbn [at_point pr_bytes]. rewrite <- drop_drop, Hdrop. by rewrite drop_app_length.
    + rewrite length_app, Nat.add_assoc in *. by split.
  - assert (follows (m ≫= k) f p d) as H by (by eapply IH). unfold follows, dwp, mbind, D_bind in *. by rewrite E.
Qed.

(** The protocol as a whole. *)
Lemma replace_follows tmp target m b f d :
  writer tmp m b → tmp ≠ target → shows f d →
  follows (opened ← sys_open tmp; if negb opened then mret (-1) else ok ← m; commit_file tmp target ok) f (Proc tmp target b Opening) d.
Proof.
  intros Hm Hne Hd. set (p := Proc _ _ _ _). apply follows_call; [done|done|]. intros d1 Hd1. cbn [fst snd].
  destruct (d_open d1); cbn [negb]; [|eapply (follows_after _ _ p Fails); [done|]; by apply follows_ret].
  destruct Hd1 as [Hok Hfd]. pose proof (fs_open_spec f tmp Hok) as Ho. destruct (fs_open f tmp) as [f1 i] eqn:Eo.
  destruct Ho as (Ho & Hn & Hc). eapply (follows_after _ _ p Succeeds); [unfold proc_step; cbn [p pr_at pr_tmp]; by rewrite Eo|].
  apply (follows_writer tmp m b Hm _ _ _ _ i 0 []); [done| |split; [done|cbn; lia|done|done]|by rewrite app_nil_r|].
  - split; [by apply Ho|]. intros n. cbn. destruct (decide (n = tmp)) as [->|Hne']; [by rewrite lookup_insert_eq|].
    rewrite lookup_insert_ne, <- Hfd by done. by apply Ho.
  - split.
    + intros f2 d2 Hd2 Hw2. apply (follows_commit f2 (at_point p (written p i (length b)))); [|done| |done].
      * change (written p i (length b) = Syncing). unfold written. change (pr_bytes p) with b. by rewrite Nat.ltb_irrefl.
      * intros _. pose proof (wr_contents _ _ _ _ Hw2) as H. cbn in H. by rewrite take_ge in H.
    + intros f2 d2 Hd2. by apply (follows_commit f2 (at_point p (Closing false)) d2 false).
Qed.

Lemma rdb_replace_follows path b f d :
  shows f d → follows (rdb_replace path b) f (Proc (tmppath path) (cstr path) b Opening) d.
Proof. intros Hd. apply replace_follows; [apply writer_bytes| |done]. intros E. by apply (tmppath_ne path). Qed.

Lemma aof_rewrite_follows path store cmds f d :
  store_commands store = Some cmds → shows f d →
  ∃ m, aof_rewrite path store = Some m ∧ follows m f (Proc (rewrite_tmppath path) (cstr path) (concat (resp_encode <$> cmds)) Opening) d.
Proof.
  intros Hc Hd. unfold store_commands in Hc. destruct (mapM _ _) as [cmdss|] eqn:Em; [|done]. cbn [mbind option_bind] in Hc.
  assert (cmds = concat cmdss) as -> by congruence. destruct (writer_keys (rewrite_tmppath path) _ _ Em) as (m & Hm & Hw).
  unfold aof_rewrite. rewrite Hm. eexists. split; [done|]. apply replace_follows; [done| |done]. intros E. by apply (rewrite_tmppath_ne path).
Qed.

(** ** Concrete runs *)

Lemma exclusive_two temps p q :
  pr_tmp p ≠ pr_tmp q → pr_tmp p ∈ temps → pr_tmp q ∈ temps → pr_target p ∉ temps → pr_target q ∉ temps → exclusive temps [p; q].
Proof.
  intros Hne Hp Hq Hp' Hq'. split.
  - intros [|[|n]] [|[|n']] x x' [= <-] [= <-]; done.
  - intros [|[|n]] x [= <-]; done.
Qed.

Lemma exclusive_one temps p : pr_tmp p ∈ temps → pr_target p ∉ temps → exclusive temps [p].
Proof. intros Hp Hp'. split; [intros [|n] [|n'] x x' [= <-] [= <-]; done|intros [|n] x [= <-]; done]. Qed.

Definition two_files : fs := Fs {[ bs "dump" := 0%nat; bs "log" := 1%nat ]} {[ 0%nat := bs "old dump"; 1%nat := bs "old log" ]} 2.

Lemma two_files_ok : fs_ok two_files.
Proof.
  assert (∀ name i, fs_names two_files !! name = Some i → name = bs "dump" ∧ i = 0%nat ∨ name = bs "log" ∧ i = 1%nat) as H.
  { intros name i. cbn [two_files fs_names]. rewrite lookup_insert_Some, lookup_singleton_Some. naive_solver. }
  split.
  - intros name i [[_ ->]|[_ ->]]%H; (split; [cbn; lia|]); by eexists.
  - intros n n' i [[-> ->]|[-> ->]]%H Hn'; apply H in Hn' as [[-> E]|[-> E]]; done.
Qed.

Definition temp_names : gset bytes := {[ tmppath (bs "dump"); rewrite_tmppath (bs "log") ]}.

Lemma two_apart b b' x x' :
  exclusive temp_names [Proc (tmppath (bs "dump")) (bs "dump") b x; Proc (rewrite_tmppath (bs "log")) (bs "log") b' x'].
Proof. apply exclusive_two; by apply (bool_decide_unpack _). Qed.

Ltac next_call n r :=
  eapply rtc_l; [split; [eapply (step_call _ _ n _ r); reflexivity|apply two_apart]|];
  cbn [list_insert insert].

(** A snapshot is complete while the rewrite of the log has written one byte. *)
Lemma replacement_atomic_witness : ∃ s : sys,
  contents s.1 (bs "dump") = Some (bs "new") ∧ contents s.1 (rewrite_tmppath (bs "log")) = Some (bs "n") ∧
  (contents s.1 (bs "log") = contents two_files (bs "log") ∨
   ∃ p, p ∈ s.2 ∧ pr_target p = bs "log" ∧ pr_at p = Ended (Some 0) ∧ contents s.1 (bs "log") = Some (pr_bytes p)).
Proof.
  assert (∃ s : sys, contents s.1 (bs "dump") = Some (bs "new") ∧ contents s.1 (rewrite_tmppath (bs "log")) = Some (bs "n") ∧
    rtc (apart_step temp_names) (two_files, []) s) as (s & H1 & H2 & Hs).
  { eexists. split; [|split]; cycle 2.
    - eapply rtc_l.
      { split; [apply (step_start _ _ (tmppath (bs "dump")) (bs "dump") (bs "new"))|apply exclusive_one; by apply (bool_decide_unpack _)]. }
      eapply rtc_l.
      { split; [apply (step_start _ _ (rewrite_tmppath (bs "log")) (bs "log") (bs "new log"))|apply two_apart]. }
      next_call 0%nat Succeeds. next_call 1%nat Succeeds. next_call 1%nat (Takes 0). next_call 0%nat (Takes 5).
      next_call 0%nat Succeeds. next_call 0%nat Succeeds. next_call 0%nat Succeeds. apply rtc_refl.
    - vm_compute. reflexivity.
    - vm_compute. reflexivity. }
  exists s. split; [exact H1|]. split; [exact H2|].
  apply (replacement_atomic temp_names two_files s (bs "log") two_files_ok Hs). by apply (bool_decide_unpack _).
Defined.

(** The calls of the processes, in a given order. *)
Fixpoint run_calls (l : list (nat * call_result)) (s : sys) : option sys :=
  match l with
  | [] => Some s
  | (n, r) :: l => p ← s.2 !! n; '(f, p) ← proc_step s.1 p r; run_calls l (f, <[n := p]> s.2)
  end.

(** Two saves at the same time share the temporary file: the first reports success,
    and the snapshot is a mixture of both. *)
Example overlapping_saves :
  let save b := Proc (tmppath (bs "dump")) (bs "dump") b Opening in
  (λ s : sys, (map pr_at s.2, contents s.1 (bs "dump"))) <$>
    run_calls [(0, Succeeds); (0, Takes 0); (1, Succeeds); (1, Takes 9); (0, Takes 9); (0, Succeeds); (0, Succeeds); (0, Succeeds)]%nat
      (two_files, [save (bs "AAAA"); save (bs "BB")]) =
  Some ([Ended (Some 0); Syncing], Some (bs "BAAA")).
Proof. vm_compute. reflexivity. Qed.
