(* ===== verification/Persist.v ===== *)
(** * The log as a file, and the persistence commands

    Opening, closing and reopening the log ([src/aof.c]), the handlers of SAVE, BGSAVE,
    REWRITEAOF and BGREWRITEAOF ([src/db.c]) with the child processes they start, and
    the end of a background rewrite ([reap_children] of [src/server.c]).

    The log is a file open for appending; its content is [g_aof_file].  As long as it
    is the file named [g_aof_path] ([g_aof_linked]) every process finds that content
    under the name; after another file was renamed over the name, only this process
    still writes to it.  A child process is the program it runs on the files; its
    effects are taken to happen at one point between two steps of the server: they go
    to a temporary file of its own, but for the final [rename] ([Processes]). *)

From S2P Require Import Prelude Disk Util Dict CList Zskiplist Object Machine DbCore.
From S2P Require Import DbString DbList DbHash DbSet DbZset Resp Aof Dispatch Session Frame Replay Rdb RdbSave AofRewrite.
Import Num.

(** ** Files *)

(** The files as any process finds them. *)
Definition files_now (s : state) : gmap bytes bytes :=
  let g := st_globals s in
  let files := y_files (w_sys (st_world s)) in
  match g_aof_path g with
  | Some p => if g_aof_linked g then <[cstr p := g_aof_file g]> files else files
  | None => files
  end.

Definition set_files (s : state) (files : gmap bytes bytes) : state :=
  let y := w_sys (st_world s) in
  set_sys s (System files (y_fate y) (y_runs y) (y_open y) (y_opens y) (y_fork y) (y_forks y) (y_children y)).

Definition modify_globals (f : globals → globals) : M unit := modify (λ s, set_globals s (f (st_globals s))).

(** [open(path, O_WRONLY | O_CREAT | O_APPEND)]: a descriptor and the content of the
    file, which is created when it does not exist. *)
Definition open_append (path : bytes) : M (option (Z * bytes)) := λ s,
  let y := w_sys (st_world s) in
  let s' := set_sys s (System (y_files y) (y_fate y) (y_runs y) (y_open y) (S (y_opens y)) (y_fork y) (y_forks y) (y_children y)) in
  match y_open y (y_opens y) with
  | None => Some (None, s')
  | Some fd =>
      let contents := default [] (files_now s !! cstr path) in
      Some (Some (Z.of_nat fd, contents), set_files s' (<[cstr path := contents]> (y_files y)))
  end.

(** The descriptor, with the content of the file. *)
Definition aof_open (path : bytes) : M (Z * bytes) :=
  r ← open_append path;
  match r with
  | None => mret (-1, [])
  | Some (fd, contents) =>
      t ← now_ms;
      _ ← modify_globals (λ g, set_last_fsync g t);
      mret (fd, contents)
  end.

(** [g_aof_fd = aof_open(g_aof_path)] *)
Definition assign_log (f : Z * bytes) : M unit := modify_globals (λ g, set_aof_log g f.1 f.2 (0 <=? f.1)).

(** [close(g_aof_fd)]: the file stays behind under its name, if it still has one. *)
Definition close_log : M unit := modify (λ s,
  set_globals (set_files s (files_now s)) (set_aof_log (st_globals s) (-1) [] false)).

Definition aof_close (fd : Z) : M unit := if fd <? 0 then mret tt else close_log.

(** Once a second; the result of [fsync] is only logged. *)
Definition aof_periodic : M unit :=
  g ← gets st_globals;
  if g_aof_fd g <? 0 then mret tt else
  now ← now_ms;
  if now - g_aof_last_fsync_ms g >=? 1000 then modify_globals (λ g, set_last_fsync g now) else mret tt.

(** [open] of a NULL path is an error. *)
Definition aof_reopen : M Z :=
  g ← gets st_globals;
  _ ← (if g_aof_fd g >=? 0 then close_log else mret tt);
  f ← (match g_aof_path g with Some p => aof_open p | None => mret (-1, []) end);
  _ ← assign_log f;
  if f.1 <? 0 then mret (-1) else
  buf ← gets (λ s, g_rewrite_buf (st_globals s));
  _ ← (match buf with
       | [] => mret tt
       | _ => _ ← write_full buf; modify_globals (λ g, set_rewrite_buf g [])
       end);
  mret 0.

(** ** Programs and processes *)

(** Run a program that replaces the file [target].  When it succeeded and the file is
    the log, the open file is no longer the one that has the name. *)
Definition run_program (target : bytes) (prog : D Z) (k : fate) (left_ : option nat) (s : state) : option Z * state :=
  match prog (boot (files_now s) k left_) with
  | inl (rc, d) =>
      let g := st_globals s in
      let gone := (rc =? 0) && bool_decide (cstr <$> g_aof_path g = Some target) in
      (Some rc, set_globals (set_files s (d_files d))
                  (set_aof_log g (g_aof_fd g) (g_aof_file g) (g_aof_linked g && negb gone)))
  | inr d => (None, set_files s (d_files d))
  end.

(** The server runs it itself. *)
Definition replace_file (target : bytes) (prog : D Z) : M Z := λ s,
  let y := w_sys (st_world s) in
  let s := set_sys s (System (y_files y) (y_fate y) (S (y_runs y)) (y_open y) (y_opens y) (y_fork y) (y_forks y) (y_children y)) in
  let '(rc, s) := run_program target prog (y_fate y (y_runs y)) None s in
  rc ← rc; Some (rc, s).

(** [fork()]: the child with its program, or an error. *)
Definition sys_fork (c : child) : M bool := λ s,
  let y := w_sys (st_world s) in
  let ok := y_fork y (y_forks y) in
  Some (ok, set_sys s (System (y_files y) (y_fate y) (y_runs y) (y_open y) (y_opens y) (y_fork y) (S (y_forks y))
                        (if ok then y_children y ++ [c] else y_children y))).

(** A child runs, to its end or until it is killed. *)
Definition run_child (i : nat) (k : fate) (left_ : option nat) : M unit := λ s,
  let y := w_sys (st_world s) in
  c ← y_children y !! i;
  let s := set_sys s (System (y_files y) (y_fate y) (y_runs y) (y_open y) (y_opens y) (y_fork y) (y_forks y)
                       (delete i (y_children y))) in
  Some (tt, (run_program (ch_target c) (ch_prog c) k left_ s).2).

(** ** The commands *)

Definition cmd_save (cmd : command) : M unit :=
  if negb (argc cmd =? 1)%nat then reply_error (bs "wrong number of arguments for 'save' command") else
  g ← gets st_globals;
  match g_rdb_path g with
  | None => reply_error (bs "SAVE requires --rdb FILE at startup")
  | Some path =>
      store ← gets (λ s, db_d (st_db s));
      prog ← lift (rdb_save path store);
      rc ← replace_file (cstr path) prog;
      if rc <? 0 then reply_error (bs "could not save RDB snapshot") else reply_simple (bs "OK")
  end.

(** The child saves the store as it was at the [fork]. *)
Definition cmd_bgsave (cmd : command) : M unit :=
  if negb (argc cmd =? 1)%nat then reply_error (bs "wrong number of arguments for 'bgsave' command") else
  g ← gets st_globals;
  match g_rdb_path g with
  | None => reply_error (bs "BGSAVE requires --rdb FILE at startup")
  | Some path =>
      store ← gets (λ s, db_d (st_db s));
      prog ← lift (rdb_save path store);
      ok ← sys_fork (Child (cstr path) prog);
      if negb ok then reply_error (bs "fork failed: could not start background save")
      else reply_simple (bs "Background saving started")
  end.

Definition cmd_rewriteaof (cmd : command) : M unit :=
  if negb (argc cmd =? 1)%nat then reply_error (bs "wrong number of arguments for 'rewriteaof' command") else
  g ← gets st_globals;
  match g_aof_path g with
  | None => reply_error (bs "REWRITEAOF requires --aof FILE at startup")
  | Some path =>
      store ← gets (λ s, db_d (st_db s));
      prog ← lift (aof_rewrite path store);
      rc ← replace_file (cstr path) prog;
      if rc <? 0 then reply_error (bs "could not rewrite AOF") else
      rc ← aof_reopen;
      if rc <? 0 then reply_error (bs "could not reopen AOF after rewrite") else reply_simple (bs "OK")
  end.

Definition cmd_bgrewriteaof (cmd : command) : M unit :=
  if negb (argc cmd =? 1)%nat then reply_error (bs "wrong number of arguments for 'bgrewriteaof' command") else
  g ← gets st_globals;
  match g_aof_path g with
  | None => reply_error (bs "BGREWRITEAOF requires --aof FILE at startup")
  | Some path =>
      if g_aof_rewriting g then reply_error (bs "Background append only file rewriting already in progress") else
      store ← gets (λ s, db_d (st_db s));
      prog ← lift (aof_rewrite path store);
      ok ← sys_fork (Child (cstr path) prog);
      if negb ok then reply_error (bs "fork failed: could not start background rewrite") else
      _ ← modify_globals (λ g, set_aof_rewriting g true);
      reply_simple (bs "Background append only file rewriting started")
  end.

(** The entries the dispatcher leaves open. *)
Definition persistence (name : string) : command → M unit :=
  if String.eqb name "save" then cmd_save
  else if String.eqb name "bgsave" then cmd_bgsave
  else if String.eqb name "rewriteaof" then cmd_rewriteaof
  else cmd_bgrewriteaof.

(** [sigchld] is [g_sigchld]; all finished children are waited for. *)
Definition reap_children (sigchld : bool) : M bool :=
  if negb sigchld then mret sigchld else
  rewriting ← gets (λ s, g_aof_rewriting (st_globals s));
  if (rewriting : bool) then
    _ ← modify_globals (λ g, set_aof_rewriting g false);
    _ ← aof_reopen;
    mret false
  else mret false.

(** ** What the operations leave alone *)

(** The store, the client, the clock and the fates of later calls. *)
Record calm (s s' : state) : Prop := {
  cm_db : st_db s' = st_db s;
  cm_client : st_client s' = st_client s;
  cm_clock : w_clock (st_world s') = w_clock (st_world s);
  cm_write : w_write (st_world s') = w_write (st_world s);
  cm_fate : y_fate (w_sys (st_world s')) = y_fate (w_sys (st_world s));
  cm_open : y_open (w_sys (st_world s')) = y_open (w_sys (st_world s));
  cm_fork : y_fork (w_sys (st_world s')) = y_fork (w_sys (st_world s));
}.

#[export] Instance calm_preorder : PreOrder calm.
Proof. split; [by split|]. intros ??? [] []. split; congruence. Qed.

Lemma Rep_calm t m c s s' : Rep t m c s → calm s s' → Rep t m c s'.
Proof. intros (Hc & Hcl & Hks) [Hdb Hcl' Hck _ _ _ _]. unfold Rep. by rewrite Hdb, Hcl', Hck. Qed.

Lemma calm_with_log s s' file buf : with_log s s' file buf → calm s s'.
Proof. intros (? & ? & ? & ? & Hy & _). split; congruence. Qed.

(** The children that have not ended. *)
Abbreviation children s := (y_children (w_sys (st_world s))).

(** The result of the next [open] of the log. *)
Definition next_open (s : state) : option nat := let y := w_sys (st_world s) in y_open y (y_opens y).

(** An open file is needed to have the name. *)
Definition log_ok (g : globals) : Prop := g_aof_linked g = true → 0 <= g_aof_fd g.

Lemma files_now_unlinked s : g_aof_linked (st_globals s) = false → files_now s = y_files (w_sys (st_world s)).
Proof. intros E. unfold files_now. rewrite E. by destruct (g_aof_path _). Qed.

Lemma files_now_linked s p :
  g_aof_path (st_globals s) = Some p → g_aof_linked (st_globals s) = true →
  files_now s = <[cstr p := g_aof_file (st_globals s)]> (y_files (w_sys (st_world s))).
Proof. intros Hp Hl. unfold files_now. by rewrite Hp, Hl. Qed.

Lemma files_now_log s p :
  g_aof_path (st_globals s) = Some p → g_aof_linked (st_globals s) = true →
  files_now s !! cstr p = Some (g_aof_file (st_globals s)).
Proof. intros Hp Hl. by rewrite (files_now_linked s p), lookup_insert_eq. Qed.

(** Writing to the log changes the file that has its name. *)
Lemma files_now_with_log s s' p file buf :
  with_log s s' file buf → g_aof_path (st_globals s) = Some p → g_aof_linked (st_globals s) = true →
  files_now s' = <[cstr p := file]> (files_now s).
Proof.
  intros (_ & _ & _ & _ & Hy & Hg) Hp Hl. unfold files_now. rewrite Hy, Hg. cbn. rewrite Hp, Hl. by rewrite insert_insert_eq.
Qed.

Lemma wp_close_log s :
  wp close_log (λ _ s', calm s s' ∧ children s' = children s ∧ next_open s' = next_open s ∧
    st_globals s' = set_aof_log (st_globals s) (-1) [] false ∧ files_now s' = files_now s) s.
Proof.
  unfold wp, close_log, modify. split; [by split|]. do 3 (split; [done|]). by rewrite files_now_unlinked.
Qed.

(** Opening the log. *)
Lemma wp_aof_open t m c p s :
  Rep t m c s → g_aof_linked (st_globals s) = false →
  wp (aof_open p) (λ f s', calm s s' ∧ children s' = children s ∧
    match next_open s with
    | None => f = (-1, []) ∧ st_globals s' = st_globals s ∧ files_now s' = files_now s
    | Some fd =>
        let contents := default [] (files_now s !! cstr p) in
        f = (Z.of_nat fd, contents) ∧ st_globals s' = set_last_fsync (st_globals s) t ∧
        files_now s' = <[cstr p := contents]> (files_now s)
    end) s.
Proof.
  intros HR Hl. unfold aof_open. apply wp_bind. unfold wp at 1, open_append, next_open.
  destruct (y_open _ _) as [fd|].
  - apply wp_bind. unfold wp at 1, now_ms. apply wp_bind. unfold wp at 1, modify_globals, modify. apply wp_ret.
    split; [by split|]. split; [done|]. split; [done|]. split; [cbn; by rewrite (proj1 (proj1 HR))|].
    rewrite (files_now_unlinked s) by done. by rewrite files_now_unlinked.
  - apply wp_ret. split; [by split|]. split; [done|]. split; [done|]. split; [done|].
    rewrite (files_now_unlinked s) by done. by rewrite files_now_unlinked.
Qed.

Lemma wp_assign_log f s :
  wp (assign_log f) (λ _ s', calm s s' ∧ children s' = children s ∧
    st_globals s' = set_aof_log (st_globals s) f.1 f.2 (0 <=? f.1) ∧
    y_files (w_sys (st_world s')) = y_files (w_sys (st_world s))) s.
Proof. by unfold wp, assign_log, modify_globals, modify. Qed.

(** Flushing the commands mirrored during a rewrite. *)
Lemma wp_flush_mirror p s :
  g_aof_path (st_globals s) = Some p → g_aof_linked (st_globals s) = true →
  let buf := g_rewrite_buf (st_globals s) in
  wp (match buf with [] => mret tt | _ => _ ← write_full buf; modify_globals (λ g, set_rewrite_buf g []) end) (λ _ s',
    ∃ b rest, buf = b ++ rest ∧ ((∀ i, is_Some (w_write (st_world s) i)) → rest = []) ∧ calm s s' ∧ children s' = children s ∧
      let file := g_aof_file (st_globals s) ++ b in
      st_globals s' = set_rewrite_buf (set_aof_file (st_globals s) file) [] ∧ files_now s' = <[cstr p := file]> (files_now s)) s.
Proof.
  intros Hp Hl buf. destruct buf as [|b0 buf0] eqn:E.
  { apply wp_ret. exists [], []. do 2 (split; [done|]). split; [done|]. split; [done|]. cbn zeta. rewrite app_nil_r.
    rewrite (files_now_linked s p), insert_insert_eq by done. subst buf. destruct s as [? ? ? []]. cbn in *. by subst. }
  rewrite <- E. clearbody buf. apply wp_bind. unfold write_full. eapply wp_mono; [by apply wp_write_full|].
  intros rc s1 (x & rest & Hx & Hrc & Herr & Hlog). unfold wp, modify_globals, modify. exists x, rest.
  split; [done|]. split.
  { intros Hw. destruct rc; [by apply Hrc|]. destruct (Herr eq_refl) as [i Hi]. destruct (Hw i). congruence. }
  pose proof (files_now_with_log _ _ _ _ _ Hlog Hp Hl) as Hf. pose proof (calm_with_log _ _ _ _ Hlog) as Hc.
  destruct Hlog as (_ & _ & _ & _ & Hy & Hg). split; [by destruct Hc|]. split; [cbn; by rewrite Hy|]. split; [cbn; by rewrite Hg|exact Hf].
Qed.

(** First the old file is closed. *)
Lemma wp_close_old s :
  let g := st_globals s in
  log_ok g →
  wp (if g_aof_fd g >=? 0 then close_log else mret tt) (λ _ s1, calm s s1 ∧ children s1 = children s ∧
    next_open s1 = next_open s ∧ files_now s1 = files_now s ∧ g_aof_linked (st_globals s1) = false ∧
    ∃ fd file, st_globals s1 = set_aof_log g fd file false) s.
Proof.
  intros g Hok. destruct (g_aof_fd g >=? 0) eqn:E.
  - eapply wp_mono; [apply wp_close_log|]. intros [] s1 (Hc & Hch & Ho & Hg & Hf). rewrite Hg. eauto 10.
  - apply wp_ret. destruct (g_aof_linked (st_globals s)) eqn:El; [specialize (Hok El); subst g; bool_prop; lia|].
    do 5 (split; [done|]). exists (g_aof_fd g), (g_aof_file g). subst g. destruct s as [? ? ? []]. cbn in *. by subst.
Qed.

(** Then the file that has the name now is opened. *)
Definition new_log (t : Z) (path : option bytes) (s : state) (f : Z * bytes) (s' : state) : Prop :=
  calm s s' ∧ children s' = children s ∧
  match path, next_open s with
  | Some p, Some fd =>
      let contents := default [] (files_now s !! cstr p) in
      f = (Z.of_nat fd, contents) ∧ st_globals s' = set_aof_log (set_last_fsync (st_globals s) t) (Z.of_nat fd) contents true ∧
      y_files (w_sys (st_world s')) = <[cstr p := contents]> (files_now s)
  | _, _ => f = (-1, []) ∧ st_globals s' = set_aof_log (st_globals s) (-1) [] false ∧ files_now s' = files_now s
  end.

Lemma wp_open_new {A} t m c path s (K : Z * bytes → M A) Q :
  Rep t m c s → g_aof_linked (st_globals s) = false →
  (∀ f s', new_log t path s f s' → wp (K f) Q s') →
  wp (f ← (match path with Some p => aof_open p | None => mret (-1, []) end); _ ← assign_log f; K f) Q s.
Proof.
  intros HR Hl HK.
  assert (path = None ∨ next_open s = None → ∀ s', st_globals s' = st_globals s → files_now s' = files_now s → calm s s' →
    children s' = children s → wp (_ ← assign_log (-1, []); K (-1, [])) Q s') as Hfail.
  { intros Hn s1 Hg1 Hf1 Hc1 Hch1. apply wp_bind. eapply wp_mono; [apply wp_assign_log|]. intros [] s2 (Hc2 & Hch2 & Hg2 & Hy2).
    rewrite Hg1 in Hg2. assert (files_now s2 = files_now s) as Hf2.
    { rewrite files_now_unlinked by (by rewrite Hg2). by rewrite Hy2, <- Hf1, files_now_unlinked by (by rewrite Hg1). }
    apply HK. split; [by etrans|]. split; [congruence|]. by destruct Hn as [->| ->]; [|destruct path]. }
  apply wp_bind. destruct path as [p|]; [|apply wp_ret; apply Hfail; auto; done].
  eapply wp_mono; [by apply (wp_aof_open t m c)|]. intros f s1 (Hc1 & Hch1 & H1).
  destruct (next_open s) as [fd|] eqn:Ho; destruct H1 as (-> & Hg1 & Hf1); [|apply Hfail; auto].
  apply wp_bind. eapply wp_mono; [apply wp_assign_log|]. intros [] s2 (Hc2 & Hch2 & Hg2 & Hy2). apply HK.
  split; [by etrans|]. split; [congruence|]. rewrite Ho. split; [done|]. cbn [fst snd] in Hg2. rewrite (proj2 (Z.leb_le _ _)), Hg1 in Hg2 by lia.
  split; [done|]. by rewrite Hy2, <- (files_now_unlinked s1), Hf1 by (by rewrite Hg1).
Qed.

(** Reopening the log: the file that has its name now, with what was mirrored
    appended. *)
Lemma wp_aof_reopen t m c s :
  Rep t m c s → log_ok (st_globals s) →
  wp aof_reopen (λ rc s', let g := st_globals s in calm s s' ∧ children s' = children s ∧
    match g_aof_path g, next_open s with
    | Some p, Some fd =>
        rc = 0 ∧ ∃ b rest, g_rewrite_buf g = b ++ rest ∧ ((∀ i, is_Some (w_write (st_world s) i)) → rest = []) ∧
        let file := default [] (files_now s !! cstr p) ++ b in
        st_globals s' = set_rewrite_buf (set_aof_log (set_last_fsync g t) (Z.of_nat fd) file true) [] ∧
        files_now s' = <[cstr p := file]> (files_now s)
    | _, _ => rc = -1 ∧ st_globals s' = set_aof_log g (-1) [] false ∧ files_now s' = files_now s
    end) s.
Proof.
  intros HR Hok. unfold aof_reopen. apply wp_bind. unfold wp at 1, gets. apply wp_bind.
  eapply wp_mono; [by apply wp_close_old|]. intros [] s1 (Hc1 & Hch1 & Ho1 & Hf1 & Hl1 & fd0 & file0 & Hg1).
  set (g := st_globals s) in *. rewrite <- Ho1, <- Hf1.
  eapply (wp_open_new t m c (g_aof_path g)); [by eapply Rep_calm|done|]. intros f s3 (Hc3 & Hch3 & H3).
  assert (calm s s3) as Hc by (by etrans). assert (children s3 = children s) as Hch by congruence.
  destruct (g_aof_path g) as [p|] eqn:Hp; [destruct (next_open s1) as [fd|]|].
  2, 3: destruct H3 as (-> & Hg3 & Hf3); apply wp_ret; rewrite Hg1 in Hg3; by rewrite Hg3.
  destruct H3 as (-> & Hg3 & Hy3). cbn [fst snd]. rewrite (proj2 (Z.ltb_ge _ _)) by lia. apply wp_bind. unfold wp at 1, gets.
  rewrite Hg1 in Hg3. assert (g_aof_path (st_globals s3) = Some p) as Hp3 by (by rewrite Hg3).
  assert (g_aof_linked (st_globals s3) = true) as Hl3 by (by rewrite Hg3).
  apply wp_bind. eapply wp_mono; [by apply (wp_flush_mirror p)|].
  intros [] s4 (b & rest & Hb & Hrest & Hc4 & Hch4 & Hg4 & Hf4). apply wp_ret. split; [by etrans|]. split; [congruence|].
  split; [done|]. exists b, rest. rewrite Hg3 in Hb. split; [exact Hb|].
  split; [by rewrite <- (cm_write _ _ Hc)|]. cbn zeta. rewrite Hg4, Hf4, (files_now_linked s3 p), insert_insert_eq by done.
  rewrite Hg3, Hy3. cbn. split; [done|]. by rewrite insert_insert_eq.
Qed.

(** ** Replacing a file *)

Definition replaced_now (tmp target b : bytes) (s : state) (rc : Z) (s' : state) : Prop :=
  (rc = 0 ∧ files_now s' !! target = Some b ∨ rc = -1 ∧ files_now s' !! target = files_now s !! target) ∧
  ∀ p, p ≠ target → p ≠ tmp → files_now s' !! p = files_now s !! p.

(** The log does not have the name of the temporary file. *)
Definition log_apart (tmp : bytes) (g : globals) : Prop := ∀ p, g_aof_path g = Some p → cstr p ≠ tmp.

(** The globals after a program that replaces [target]: the open log loses its name
    when it was replaced. *)
Definition unlinked (target : bytes) (rc : Z) (g : globals) : globals :=
  set_aof_log g (g_aof_fd g) (g_aof_file g)
    (g_aof_linked g && negb ((rc =? 0) && bool_decide (cstr <$> g_aof_path g = Some target))).

Section Program.
Context (tmp target b : bytes) (prog : D Z) (Hprog : Replacer tmp target b prog) (Hne : target ≠ tmp).
Context (s : state) (Happ : log_apart tmp (st_globals s)).

(** The files a program left behind, with the log in its place. *)
Lemma files_now_after files linked :
  (linked = true → g_aof_linked (st_globals s) = true ∧ ∀ p, g_aof_path (st_globals s) = Some p →
    files !! cstr p = files_now s !! cstr p) →
  ∀ q, q ≠ tmp →
  files_now (set_globals (set_files s files)
    (set_aof_log (st_globals s) (g_aof_fd (st_globals s)) (g_aof_file (st_globals s)) linked)) !! q = files !! q.
Proof.
  intros Hl q Hq. unfold files_now. cbn. destruct (g_aof_path (st_globals s)) as [p|] eqn:Hp; [|done].
  destruct linked; [|done]. destruct (Hl eq_refl) as [Hl' Hf]. destruct (decide (q = cstr p)) as [->|Hqp].
  - rewrite lookup_insert_eq, (Hf p eq_refl). by rewrite (files_now_log s p).
  - by rewrite lookup_insert_ne.
Qed.

Lemma run_program_spec k left_ :
  let '(r, s') := run_program target prog k left_ s in
  calm s s' ∧ children s' = children s ∧ next_open s' = next_open s ∧
  match r with
  | Some rc => replaced_now tmp target b s rc s' ∧ st_globals s' = unlinked target rc (st_globals s)
  | None => st_globals s' = st_globals s ∧ ∀ p, p ≠ tmp → files_now s' !! p = files_now s !! p
  end.
Proof.
  unfold run_program. pose proof (rp_dwp (w := prog) (boot (files_now s) k left_)) as H. unfold dwp in H.
  assert (∀ p, g_aof_path (st_globals s) = Some p → g_aof_linked (st_globals s) = true → cstr p ≠ tmp) as Htmp by auto.
  destruct (prog _) as [[rc d]|d]; (split; [by split|]); (split; [done|]); (split; [done|]).
  - destruct H as [Ht Ho]. assert (∀ q, q ≠ tmp → files_now (set_globals (set_files s (d_files d))
      (unlinked target rc (st_globals s))) !! q = d_files d !! q) as Hq.
    { apply files_now_after. intros [Hl Hg]%andb_true_iff. split; [done|]. intros p Hp. rewrite Hp in Hg. cbn in Hg.
      destruct (decide (cstr p = target)) as [E|E]; [|apply Ho; auto].
      rewrite bool_decide_eq_true_2, andb_true_r in Hg by (by rewrite E). rewrite E.
      destruct Ht as [[-> _]|[_ Ht]]; [done|exact Ht]. }
    split; [|done]. split; [by rewrite Hq|]. intros p Hp1 Hp2. rewrite Hq by done. by apply Ho.
  - split; [done|]. intros q Hq. rewrite <- (H q Hq : d_files d !! q = files_now s !! q), <- (files_now_after (d_files d) (g_aof_linked (st_globals s))).
    + by destruct s as [? ? ? []].
    + intros Hl. split; [done|]. intros p Hp. apply H. auto.
    + done.
Qed.

Lemma run_program_ok k : good_fate k → (run_program target prog k None s).1 = Some 0.
Proof.
  intros Hk. destruct (rp_ok (w := prog) (boot (files_now s) k None)) as [d E]; [by apply boot_healthy|].
  unfold run_program. by rewrite E.
Qed.

Lemma run_program_ends k : is_Some (run_program target prog k None s).1.
Proof.
  destruct (rp_ends (w := prog) (boot (files_now s) k None) eq_refl) as (rc & d & E & _).
  unfold run_program. rewrite E. by eexists.
Qed.
End Program.

(** The fate of the calls of the next program. *)
Definition next_fate (s : state) : fate := let y := w_sys (st_world s) in y_fate y (y_runs y).

Lemma wp_replace_file tmp target b prog s :
  Replacer tmp target b prog → target ≠ tmp → log_apart tmp (st_globals s) →
  wp (replace_file target prog) (λ rc s', calm s s' ∧ children s' = children s ∧ next_open s' = next_open s ∧
    replaced_now tmp target b s rc s' ∧ st_globals s' = unlinked target rc (st_globals s) ∧
    (good_fate (next_fate s) → rc = 0)) s.
Proof.
  intros Hr Hne Ha. unfold wp, replace_file. set (s0 := set_sys s _).
  pose proof (run_program_spec tmp target b prog Hr Hne s0 Ha (next_fate s) None) as H.
  pose proof (run_program_ok tmp target b prog Hr s0 (next_fate s)) as Hok.
  pose proof (run_program_ends tmp target b prog Hr s0 (next_fate s)) as [rc Hrc]. unfold next_fate in *.
  destruct (run_program target prog _ None s0) as [r s'] eqn:E. cbn [fst] in *. subst r. cbn.
  destruct H as ([] & Hch & Ho & Hf & Hg). split; [by split|]. do 4 (split; [done|]). intros Hk. by injection (Hok Hk).
Qed.

(** ** The commands, in every case *)

(** The names of the two files and of the temporary ones do not clash. *)
Definition names_apart (g : globals) : Prop :=
  ∀ p r, g_aof_path g = Some p → g_rdb_path g = Some r → cstr p ≠ tmppath r.

Definition config_ok (g : globals) : Prop := log_ok g ∧ names_apart g.

Lemma names_apart_rdb g r : names_apart g → g_rdb_path g = Some r → log_apart (tmppath r) g.
Proof. intros Hn Hr p Hp. by eapply Hn. Qed.

Lemma log_apart_rewrite g p : g_aof_path g = Some p → log_apart (rewrite_tmppath p) g.
Proof. intros Hp q Hq. rewrite Hp in Hq. injection Hq as <-. apply rewrite_tmppath_ne. Qed.

(** A command that did its work in [s1] and sent [r]. *)
Definition answers {A} (m : M A) (Q : state → rv → Prop) (s : state) : Prop :=
  wp m (λ _ s', ∃ s1 r, Q s1 r ∧ s' = set_client s1 (deliver (st_client s1) r)) s.

Lemma answers_error text (Q : state → rv → Prop) s : Q s (RError text) → answers (reply_error text) Q s.
Proof. intros HQ. unfold answers, wp, reply_error, reply, modify. by eexists _, _. Qed.

Lemma answers_simple text (Q : state → rv → Prop) s : Q s (RSimple text) → answers (reply_simple text) Q s.
Proof. intros HQ. unfold answers, wp, reply_simple, reply, modify. by eexists _, _. Qed.

Lemma answers_bind {A B} (m : M A) (f : A → M B) (Q : state → rv → Prop) s :
  wp m (λ a s', answers (f a) Q s') s → answers (m ≫= f) Q s.
Proof. apply wp_bind. Qed.

Lemma answers_mono {A} (m : M A) (Q Q' : state → rv → Prop) s :
  answers m Q s → (∀ s1 r, Q s1 r → Q' s1 r) → answers m Q' s.
Proof. intros H HQ. eapply wp_mono; [exact H|]. intros _ s' (s1 & r & Hr & E). eauto. Qed.

(** SAVE with a snapshot configured. *)
Definition saved (path b : bytes) (s s1 : state) (r : rv) : Prop :=
  calm s s1 ∧ children s1 = children s ∧ ∃ rc, replaced_now (tmppath path) (cstr path) b s rc s1 ∧
    st_globals s1 = unlinked (cstr path) rc (st_globals s) ∧
    r = (if rc <? 0 then RError (bs "could not save RDB snapshot") else RSimple (bs "OK")) ∧
    (good_fate (next_fate s) → rc = 0).

Lemma answers_save name path b s :
  g_rdb_path (st_globals s) = Some path → names_apart (st_globals s) → rdb_snapshot (db_d (st_db s)) = Some b →
  answers (cmd_save [name]) (saved path b s) s.
Proof.
  intros Hp Hn Hb. unfold cmd_save. cbn [argc length Nat.eqb negb]. apply answers_bind. unfold wp, gets. rewrite Hp.
  apply answers_bind. unfold wp. apply answers_bind. eapply wp_lift; [unfold rdb_save; by rewrite Hb|].
  apply answers_bind. eapply wp_mono.
  { eapply (wp_replace_file (tmppath path) (cstr path) b); [apply _|apply tmppath_ne|by apply names_apart_rdb]. }
  intros rc s1 (Hc & Hch & _ & Hf & Hg & Hok). destruct (rc <? 0) eqn:E; [apply answers_error|apply answers_simple];
    (split; [done|]); (split; [done|]); exists rc; by rewrite E.
Qed.

(** Whether the next [fork] succeeds. *)
Definition next_fork (s : state) : bool := let y := w_sys (st_world s) in y_fork y (y_forks y).

(** BGSAVE. *)
Lemma answers_bgsave name path b s :
  g_rdb_path (st_globals s) = Some path → rdb_snapshot (db_d (st_db s)) = Some b →
  answers (cmd_bgsave [name]) (λ s1 r, calm s s1 ∧ st_globals s1 = st_globals s ∧ files_now s1 = files_now s ∧
    if next_fork s
    then r = RSimple (bs "Background saving started") ∧ children s1 = children s ++ [Child (cstr path) (rdb_replace path b)]
    else r = RError (bs "fork failed: could not start background save") ∧ children s1 = children s) s.
Proof.
  intros Hp Hb. unfold cmd_bgsave. cbn [argc length Nat.eqb negb]. apply answers_bind. unfold wp, gets. rewrite Hp.
  apply answers_bind. unfold wp. apply answers_bind. eapply wp_lift; [unfold rdb_save; by rewrite Hb|].
  apply answers_bind. unfold wp, sys_fork, next_fork. destruct (y_fork _ _); cbn [negb]; [by apply answers_simple|by apply answers_error].
Qed.

(** BGREWRITEAOF, no rewrite being under way. *)
Lemma answers_bgrewriteaof name path prog s :
  g_aof_path (st_globals s) = Some path → g_aof_rewriting (st_globals s) = false →
  aof_rewrite path (db_d (st_db s)) = Some prog →
  answers (cmd_bgrewriteaof [name]) (λ s1 r, calm s s1 ∧ files_now s1 = files_now s ∧
    next_open s1 = next_open s ∧ next_fate s1 = next_fate s ∧
    if next_fork s
    then r = RSimple (bs "Background append only file rewriting started") ∧
         children s1 = children s ++ [Child (cstr path) prog] ∧ st_globals s1 = set_aof_rewriting (st_globals s) true
    else r = RError (bs "fork failed: could not start background rewrite") ∧
         children s1 = children s ∧ st_globals s1 = st_globals s) s.
Proof.
  intros Hp Hr Hprog. unfold cmd_bgrewriteaof. cbn [argc length Nat.eqb negb]. apply answers_bind. unfold wp, gets. rewrite Hp, Hr.
  apply answers_bind. unfold wp. apply answers_bind. eapply wp_lift; [exact Hprog|].
  apply answers_bind. unfold wp, sys_fork, next_fork. destruct (y_fork _ _); cbn [negb].
  - apply answers_bind. unfold wp, modify_globals, modify. by apply answers_simple.
  - by apply answers_error.
Qed.

Lemma unlinked_failed target g : unlinked target (-1) g = g.
Proof. unfold unlinked, set_aof_log. cbn. rewrite andb_true_r. by destruct g. Qed.

Lemma unlinked_log g path : g_aof_path g = Some path → unlinked (cstr path) 0 g = set_aof_log g (g_aof_fd g) (g_aof_file g) false.
Proof. intros Hp. unfold unlinked. rewrite Hp, bool_decide_eq_true_2 by done. by rewrite andb_false_r. Qed.

(** REWRITEAOF with a log configured: the rewrite failed and nothing changed; or the
    new log could not be opened, and there is none any more; or the new log is open,
    with what was mirrored for a background rewrite at its end. *)
Definition rewrote (t : Z) (path b : bytes) (s s1 : state) (r : rv) : Prop :=
  let g := st_globals s in
  calm s s1 ∧ children s1 = children s ∧
  (∀ p, p ≠ cstr path → p ≠ rewrite_tmppath path → files_now s1 !! p = files_now s !! p) ∧
  (r = RError (bs "could not rewrite AOF") ∧ st_globals s1 = g ∧ files_now s1 !! cstr path = files_now s !! cstr path ∧
     ¬ good_fate (next_fate s) ∨
   r = RError (bs "could not reopen AOF after rewrite") ∧ st_globals s1 = set_aof_log g (-1) [] false ∧
     files_now s1 !! cstr path = Some b ∧ next_open s = None ∨
   r = RSimple (bs "OK") ∧ ∃ fd x rest, g_rewrite_buf g = x ++ rest ∧ ((∀ i, is_Some (w_write (st_world s) i)) → rest = []) ∧
     st_globals s1 = set_rewrite_buf (set_aof_log (set_last_fsync g t) (Z.of_nat fd) (b ++ x) true) [] ∧
     files_now s1 !! cstr path = Some (b ++ x)).

Lemma answers_rewriteaof t m c name path cmds s :
  Rep t m c s → log_ok (st_globals s) → g_aof_path (st_globals s) = Some path →
  store_commands (db_d (st_db s)) = Some cmds →
  answers (cmd_rewriteaof [name]) (rewrote t path (concat (resp_encode <$> cmds)) s) s.
Proof.
  intros HR Hok Hp Hcmds. destruct (aof_rewrite_replacer path _ _ Hcmds) as (prog & Hprog & Hr).
  unfold cmd_rewriteaof. cbn [argc length Nat.eqb negb]. apply answers_bind. unfold wp, gets. rewrite Hp.
  apply answers_bind. unfold wp. apply answers_bind. eapply wp_lift; [exact Hprog|].
  apply answers_bind. eapply wp_mono.
  { eapply (wp_replace_file (rewrite_tmppath path)); [exact Hr|apply rewrite_tmppath_ne|by apply log_apart_rewrite]. }
  intros rc s1 (Hc1 & Hch1 & Ho1 & [Hf1 Hf1'] & Hg1 & Hok1). destruct Hf1 as [[-> Hf1]|[-> Hf1]]; cbn [Z.ltb Z.compare].
  2: { apply answers_error. split; [done|]. split; [done|]. split; [done|]. left. rewrite Hg1, unlinked_failed.
       do 3 (split; [done|]). intros Hk. by specialize (Hok1 Hk). }
  rewrite (unlinked_log _ _ Hp) in Hg1. apply answers_bind. eapply wp_mono.
  { eapply (wp_aof_reopen t m c); [by eapply Rep_calm|]. rewrite Hg1. by intros H. }
  intros rc s2 (Hc2 & Hch2 & H2). rewrite Hg1 in H2. cbn [set_aof_log g_aof_path] in H2. rewrite Hp, Ho1 in H2.
  assert (calm s s2) as Hc by (by etrans). assert (children s2 = children s) as Hch by congruence.
  destruct (next_open s) as [fd|] eqn:Ho.
  - destruct H2 as (-> & x & rest & Hx & Hrest & Hg2 & Hf2). rewrite Hf1 in Hg2, Hf2. cbn [default from_option id] in *.
    apply answers_simple. split; [done|]. split; [done|]. split.
    { intros p Hp1 Hp2. rewrite Hf2, lookup_insert_ne by done. by apply Hf1'. }
    right. right. split; [done|]. exists fd, x, rest. split; [exact Hx|]. split; [by rewrite <- (cm_write _ _ Hc1)|].
    split; [by rewrite Hg2|]. by rewrite Hf2, lookup_insert_eq.
  - destruct H2 as (-> & Hg2 & Hf2). apply answers_error. split; [done|]. split; [done|]. rewrite Hf2. split; [done|].
    right. left. by rewrite Hg2.
Qed.

(** ** The operations never go wrong *)

(** Whatever the state, the operation ends and leaves the store and the client alone. *)
Definition calmly {A} (m : M A) : Prop := ∀ s, wp m (λ _ s', calm s s') s.

Create HintDb calmly.

Lemma calmly_ret {A} (a : A) : calmly (mret a).
Proof. intros s. by apply wp_ret. Qed.
Lemma calmly_gets {A} (f : state → A) : calmly (gets f).
Proof. intros s. by unfold wp, gets. Qed.
Lemma calmly_bind {A B} (m : M A) (f : A → M B) : calmly m → (∀ a, calmly (f a)) → calmly (m ≫= f).
Proof.
  intros Hm Hf s. apply wp_bind. eapply wp_mono; [apply Hm|]. intros a s1 H1. eapply wp_mono; [apply Hf|].
  intros b s2 H2. exact (transitivity H1 H2).
Qed.
Lemma calmly_if {A} (b : bool) (m1 m2 : M A) : calmly m1 → calmly m2 → calmly (if b then m1 else m2).
Proof. by destruct b. Qed.
Lemma calmly_globals f : calmly (modify_globals f).
Proof. intros s. by unfold wp, modify_globals, modify. Qed.
Lemma calmly_now : calmly now_ms.
Proof. intros s. by unfold wp, now_ms. Qed.
Lemma calmly_write_full b : calmly (write_full b).
Proof.
  intros s. unfold write_full. eapply wp_mono; [by apply wp_write_full|]. intros rc s' (p & q & _ & _ & _ & H). by eapply calm_with_log.
Qed.
Lemma calmly_open path : calmly (open_append path).
Proof. intros s. unfold wp, open_append. by destruct (y_open _ _). Qed.
Lemma calmly_close : calmly close_log.
Proof. intros s. by unfold wp, close_log, modify. Qed.
Lemma calmly_replace tmp target b prog : Replacer tmp target b prog → calmly (replace_file target prog).
Proof.
  intros Hr s. unfold wp, replace_file. set (s0 := set_sys s _). set (k := y_fate _ _).
  pose proof (run_program_ends tmp target b prog Hr s0 k) as [rc Hrc]. unfold run_program in *.
  by destruct (prog _) as [[rc' d]|d].
Qed.
Lemma calmly_fork c : calmly (sys_fork c).
Proof. intros s. by unfold wp, sys_fork. Qed.
#[export] Hint Resolve calmly_ret calmly_gets calmly_if calmly_bind calmly_globals calmly_now calmly_write_full calmly_open
  calmly_close calmly_fork : calmly.

Lemma calmly_aof_open path : calmly (aof_open path).
Proof. unfold aof_open. apply calmly_bind; [auto with calmly|]. intros [[fd contents]|]; auto with calmly. Qed.
#[export] Hint Resolve calmly_aof_open : calmly.

Lemma calmly_aof_reopen : calmly aof_reopen.
Proof.
  unfold aof_reopen, assign_log. apply calmly_bind; [auto with calmly|]. intros g. apply calmly_bind; [auto with calmly|].
  intros _. apply calmly_bind; [destruct (g_aof_path g); auto with calmly|]. intros f. apply calmly_bind; [auto with calmly|].
  intros _. apply calmly_if; [auto with calmly|]. apply calmly_bind; [auto with calmly|]. intros [|b0 b]; auto 6 with calmly.
Qed.

Lemma calmly_aof_periodic : calmly aof_periodic.
Proof. unfold aof_periodic. auto 8 with calmly. Qed.
#[export] Hint Resolve calmly_aof_reopen calmly_aof_periodic : calmly.

Lemma calmly_reap b : calmly (reap_children b).
Proof. unfold reap_children. apply calmly_if; [auto with calmly|]. apply calmly_bind; [auto with calmly|]. intros []; auto 7 with calmly. Qed.

Lemma wp_calmly {A} (m : M A) t k c s : calmly m → Rep t k c s → wp m (λ _ s', Rep t k c s') s.
Proof. intros Hm HR. eapply wp_mono; [apply Hm|]. intros a s' H. by eapply Rep_calm. Qed.

(** The command answers once, and leaves the store alone. *)
Definition answers_calmly (m : M unit) (s : state) : Prop := answers m (λ s1 _, calm s s1) s.

Lemma answers_after {A} (m : M A) (f : A → M unit) s :
  calmly m → (∀ a s1, calm s s1 → answers_calmly (f a) s1) → answers_calmly (m ≫= f) s.
Proof.
  intros Hm Hf. apply answers_bind. eapply wp_mono; [apply Hm|]. intros a s1 H1.
  eapply answers_mono; [by apply Hf|]. intros s2 r H2. exact (transitivity H1 H2).
Qed.

Lemma answers_calmly_error text s : answers_calmly (reply_error text) s.
Proof. by apply answers_error. Qed.
Lemma answers_calmly_simple text s : answers_calmly (reply_simple text) s.
Proof. by apply answers_simple. Qed.
#[local] Hint Resolve answers_calmly_error answers_calmly_simple : calmly.

Lemma persistence_answers name cmd s ks : db_rep (db_d (st_db s)) ks → answers_calmly (persistence name cmd) s.
Proof.
  intros Hd. destruct (rdb_snapshot_defined _ _ Hd) as [b Hb]. destruct (store_commands_defined _ _ Hd) as [cmdss Em].
  assert (store_commands (db_d (st_db s)) = Some (concat cmdss)) as Hcm by (unfold store_commands; by rewrite Em).
  assert (∀ (A B : Type) (x : A) (f : A → M B) Q, answers (f x) Q s → answers (lift (Some x) ≫= f) Q s) as Hlift by done.
  unfold persistence. repeat case_match; unfold cmd_save, cmd_bgsave, cmd_rewriteaof, cmd_bgrewriteaof;
    (case_match; [auto with calmly|]); apply answers_bind; unfold wp, gets; (case_match; [|by apply answers_error]).
  4: case_match; [by apply answers_error|].
  all: apply answers_bind; unfold wp, gets.
  1, 2: unfold rdb_save; rewrite Hb; apply Hlift, answers_after; [first [apply calmly_fork|eapply calmly_replace; apply _]|].
  1, 2: intros x s1 _; case_match; auto with calmly.
  all: match goal with |- context [aof_rewrite ?p _] => destruct (aof_rewrite_replacer p _ _ Hcm) as (prog & -> & Hr) end; apply Hlift, answers_after;
    [first [apply calmly_fork|by eapply calmly_replace]|]; intros x s1 _; case_match; auto with calmly.
  all: apply answers_after; [auto with calmly|]; intros y s2 _; auto with calmly.
  case_match; auto with calmly.
Qed.

(** Every persistence command keeps the keyspace and sends one reply. *)
Lemma persistence_replies name cmd t m c s :
  Rep t m c s → wp (persistence name cmd) (λ _ s', ∃ r, Rep t m (deliver c r) s') s.
Proof.
  intros HR. pose proof HR as (_ & _ & ks & Hd & _). eapply wp_mono; [by eapply persistence_answers|].
  intros [] s' (s1 & r & Hc & ->). exists r. destruct (Rep_calm _ _ _ _ _ HR Hc) as (Hw & <- & Hks). split; [exact Hw|]. by split.
Qed.
