(* ===== verification/Rewriting.v ===== *)
(** * Rewriting the log of a running server

    Sequences of the commands of a client, BGREWRITEAOF and REWRITEAOF, the run of the
    child process and its end: what the log on disk holds afterwards and what a server
    that replays it recovers. *)

From S2P Require Import Prelude Disk Util Dict CList Zskiplist Object Machine DbCore.
From S2P Require Import DbString DbList DbHash DbSet DbZset Resp Aof Dispatch Session Frame Replay Rdb RdbSave AofRewrite Persist.
Import Num.

(** ** Ordinary commands and the files *)

(** The names of the files, whether the log still has its name, and the system. *)
Definition conf (s : state) : option bytes * option bytes * bool * system :=
  let g := st_globals s in (g_aof_path g, g_rdb_path g, g_aof_linked g, w_sys (st_world s)).

Lemma conf_with_log s s' file buf : with_log s s' file buf → conf s' = conf s.
Proof. intros (_ & _ & _ & _ & Hy & Hg). unfold conf. by rewrite Hy, Hg. Qed.

Lemma conf_append fd cmd s rc s' : aof_append_command fd cmd s = Some (rc, s') → conf s' = conf s.
Proof.
  intros E. destruct (Z.ltb_spec fd 0) as [Hfd|Hfd].
  - unfold aof_append_command in E. rewrite (proj2 (Z.ltb_lt _ _)) in E by done. by injection E as <- <-.
  - pose proof (wp_aof_append fd cmd s Hfd) as H. unfold wp in H. rewrite E in H.
    destruct H as (p & q & _ & _ & _ & H). by eapply conf_with_log.
Qed.

Lemma conf_frame s s' : frame s s' → conf s' = conf s.
Proof. intros [Hg _ _ Hy]. unfold conf. by rewrite Hg, Hy. Qed.

Lemma conf_dispatch other cmd s u s' : supported other cmd → dispatch_command other cmd s = Some (u, s') → conf s' = conf s.
Proof.
  intros Hs. destruct cmd as [|name args]; [done|]. unfold dispatch_command. cbn [argc length Nat.eqb].
  unfold mbind, M_bind, arg, lift. cbn [lookup list_lookup fmap option_fmap option_map].
  destruct (find_command other (cstr name)) as [e|] eqn:He.
  - destruct Hs as [Hs|Hs]; [|congruence]. destruct (find_spec (cstr name)) as [sp|] eqn:Esp; [|done].
    pose proof (find_spec_quiet other _ _ e (name :: args) Esp He) as Hq. cbn [gets].
    destruct (ce_write e && _ && _).
    + destruct (aof_append_command _ _ s) as [[rc s1]|] eqn:E; [|done]. cbn. intros E2.
      rewrite (conf_frame _ _ (Hq _ _ _ E2)). by eapply conf_append.
    + intros E2. exact (conf_frame _ _ (Hq _ _ _ E2)).
  - intros E. apply conf_frame. eapply (keeps_reply _); exact E.
Qed.

Lemma conf_session other l : ∀ s u s', Forall (λ x, supported other x.2) l → run_session other l s = Some (u, s') → conf s' = conf s.
Proof.
  induction l as [|[t cmd] l IH]; intros s u s' Hs; [by intros [= _ <-]|]. apply Forall_cons in Hs as [Hc Hs].
  cbn [run_session]. unfold mbind, M_bind, modify. destruct (dispatch_command other cmd (at_time t s)) as [[[] s1]|] eqn:E; [|done].
  intros E2. rewrite (IH _ _ _ Hs E2). by apply (conf_dispatch _ _ _ _ _ Hc E).
Qed.

(** A server with an open log that has its name [p]. *)
Record serving (p file buf : bytes) (rewriting : bool) (s : state) : Prop := {
  sv_logging : logging file buf rewriting s;
  sv_path : g_aof_path (st_globals s) = Some p;
  sv_linked : g_aof_linked (st_globals s) = true;
}.

Lemma serving_file p file buf rw s : serving p file buf rw s → files_now s !! cstr p = Some file.
Proof. intros [Hl Hp Hk]. rewrite (files_now_log s p) by done. f_equal. apply Hl. Qed.

Lemma session_serving other l t m c s p file buf rw :
  Rep t m c s → times_from t l → Forall (λ x, supported other x.2) l → serving p file buf rw s →
  wp (run_session other l) (λ _ s', ∃ m' rs c', session m l m' rs ∧ Rep (end_time t l) m' c' s' ∧
    (let b := session_log other l in serving p (file ++ b) (buf ++ if rw then b else []) rw s') ∧
    w_sys (st_world s') = w_sys (st_world s)) s.
Proof.
  intros HR Ht Hs [Hl Hp Hk]. pose proof (session_logs other l t m c s file buf rw HR Ht Hs Hl) as H.
  unfold wp in *. destruct (run_session other l s) as [[u s']|] eqn:E; [|done].
  destruct H as (m' & rs & c' & Hse & HR' & Hl'). pose proof (conf_session _ _ _ _ _ Hs E) as Hc.
  unfold conf in Hc. injection Hc as Hc1 Hc2 Hc3 Hc4. exists m', rs, c'. split; [done|]. split; [done|]. split; [|done].
  split; [done|congruence|congruence].
Qed.

(** ** The steps of a rewrite *)

Lemma Rep_answer t m c s s1 r :
  Rep t m c s → calm s s1 → Rep t m (deliver c r) (set_client s1 (deliver (st_client s1) r)).
Proof. intros HR Hc. destruct (Rep_calm _ _ _ _ _ HR Hc) as (Hw & <- & Hks). split; [exact Hw|]. by split. Qed.

Definition started : rv := RSimple (bs "Background append only file rewriting started").

Lemma dispatch_bgrewriteaof s : dispatch_command persistence [bs "BGREWRITEAOF"] s = cmd_bgrewriteaof [bs "BGREWRITEAOF"] s.
Proof. reflexivity. Qed.
Lemma dispatch_rewriteaof s : dispatch_command persistence [bs "REWRITEAOF"] s = cmd_rewriteaof [bs "REWRITEAOF"] s.
Proof. reflexivity. Qed.

(** BGREWRITEAOF: a child with the program that writes the store of this moment. *)
Lemma start_rewrite t m c s p file buf cmds :
  Rep t m c s → serving p file buf false s → next_fork s = true → store_commands (db_d (st_db s)) = Some cmds →
  wp (dispatch_command persistence [bs "BGREWRITEAOF"]) (λ _ s0, Rep t m (deliver c started) s0 ∧ serving p file buf true s0 ∧
    st_db s0 = st_db s ∧ next_open s0 = next_open s ∧ next_fate s0 = next_fate s ∧
    y_open (w_sys (st_world s0)) = y_open (w_sys (st_world s)) ∧
    ∃ prog, Replacer (rewrite_tmppath p) (cstr p) (concat (resp_encode <$> cmds)) prog ∧
      children s0 = children s ++ [Child (cstr p) prog]) s.
Proof.
  intros HR [[Hfd Hre Hrw Hf Hb Hw] Hp Hk] Hfork Hc. destruct (aof_rewrite_replacer p _ _ Hc) as (prog & Hprog & Hr).
  unfold wp. rewrite dispatch_bgrewriteaof.
  eapply (wp_mono (cmd_bgrewriteaof _)); [by apply (answers_bgrewriteaof _ p prog)|]. rewrite Hfork.
  intros [] s' (s1 & r & (Hcalm & Hfiles & Ho & Hfate & -> & Hch & Hg) & ->). pose proof Hcalm as [Hdb _ _ Hww _ Hop _].
  split; [by eapply Rep_answer|]. split; [|do 4 (split; [done|]); by exists prog].
  split; [split|..]; cbn; rewrite ?Hg, ?Hww; done.
Qed.

(** The child runs to its end and no call fails: the log is its file. *)
Lemma child_replaces i k p prog b s :
  children s !! i = Some (Child (cstr p) prog) → Replacer (rewrite_tmppath p) (cstr p) b prog →
  g_aof_path (st_globals s) = Some p → good_fate k →
  wp (run_child i k None) (λ _ s', calm s s' ∧ next_open s' = next_open s ∧ files_now s' !! cstr p = Some b ∧
    st_globals s' = set_aof_log (st_globals s) (g_aof_fd (st_globals s)) (g_aof_file (st_globals s)) false) s.
Proof.
  intros Hi Hr Hp Hk. unfold wp, run_child. rewrite Hi. cbn [mbind option_bind ch_target ch_prog]. set (s0 := set_sys s _).
  pose proof (run_program_spec _ _ b prog Hr (rewrite_tmppath_ne p) s0 (log_apart_rewrite _ _ Hp) k None) as H.
  pose proof (run_program_ok _ _ b prog Hr s0 k Hk) as Hok. destruct (run_program (cstr p) prog k None s0) as [r s'].
  cbn [fst snd] in *. subst r. destruct H as ([] & _ & Ho & [Hf _] & Hg). split; [by split|]. split; [done|].
  rewrite (unlinked_log (st_globals s0) _ Hp) in Hg. split; [|done]. destruct Hf as [[_ Hf]|[? _]]; [done|lia].
Qed.

(** The end of a child while a rewrite is under way: the file that has the name of the
    log is opened and the mirrored commands are appended. *)
Lemma wp_reap_rewriting t m c s p buf contents fd :
  Rep t m c s → log_ok (st_globals s) → g_aof_path (st_globals s) = Some p → g_aof_rewriting (st_globals s) = true →
  g_aof_replaying (st_globals s) = false → g_rewrite_buf (st_globals s) = buf → (∀ i, is_Some (w_write (st_world s) i)) →
  files_now s !! cstr p = Some contents → next_open s = Some fd →
  wp (reap_children true) (λ r s', r = false ∧ calm s s' ∧ Rep t m c s' ∧ children s' = children s ∧
    serving p (contents ++ buf) [] false s') s.
Proof.
  intros HR Hok Hp Hrw Hre Hb Hw Hf Ho. unfold reap_children. cbn [negb]. apply wp_bind. unfold wp at 1, gets. rewrite Hrw.
  apply wp_bind. unfold wp at 1, modify_globals, modify. set (s0 := set_globals s _). apply wp_bind.
  eapply wp_mono; [by apply (wp_aof_reopen t m c)|]. intros rc s1 (Hc & Hch & H). change (next_open s0) with (next_open s) in H.
  change (files_now s0) with (files_now s) in H. cbn [s0 st_globals set_globals set_aof_rewriting g_aof_path g_rewrite_buf] in H.
  rewrite Hp, Ho, Hf in H. destruct H as (-> & b & rest & Hbuf & Hrest & Hg & _). rewrite (Hrest Hw), app_nil_r, Hb in Hbuf. subst b.
  apply wp_ret. split; [done|]. assert (calm s s1) as Hc' by (by destruct Hc). split; [done|]. split; [by eapply Rep_calm|].
  split; [done|]. cbn [default from_option id] in Hg. split; [|by rewrite Hg|by rewrite Hg].
  split; rewrite ?Hg; cbn; try done; [lia|]. by rewrite (cm_write _ _ Hc').
Qed.

(** ** Recovery from a rewritten log *)

(** What a log can hold of the store at time [t]: keys without expiry, text without NUL,
    commands within the limits of the parser. *)
Record loggable_store (t : Z) (d : dict robj) (ks : keyspace) (cmds : list command) : Prop := {
  ls_rep : db_rep d ks;
  ls_timeless : timeless ks;
  ls_restorable : map_Forall (λ k a, nul_free k ∧ restorable t a) ks;
  ls_commands : store_commands d = Some cmds;
  ls_parseable : Forall parseable cmds;
}.

(** Commands whose effect a replay repeats. *)
Record replayable (other : string → command → M unit) (l : list (Z * command)) : Prop := {
  rp_supported : Forall (λ x, supported other x.2) l;
  rp_durable : Forall (λ x, durable x.2 = true) l;
  rp_fits : Forall (λ x, fits x.2) l;
}.

(** The commands that rebuild a store, followed by what a session logged after it. *)
Lemma rewritten_log_recovers other t d ks cmds l m1 rs garbage seed fd w g :
  loggable_store t d ks cmds → replayable other l → session ks l m1 rs → 0 <= t <= INT64_MAX →
  ∃ s', aof_replay other (Some (concat (resp_encode <$> cmds) ++ session_log other l)) garbage (at_time t (fresh seed fd w g))
          = Some (true, s') ∧ Rep t m1 (client_init fd 0) s'.
Proof.
  intros [Hd Htl Hres Hc Hp] [Hsup Hdur Hfit] Hse Ht.
  unfold store_commands in Hc. destruct (mapM _ _) as [cmdss|] eqn:Em; [|done]. cbn [mbind option_bind] in Hc.
  assert (cmds = concat cmdss) by congruence. subst cmds.
  assert (Forall (loggable other) (concat cmdss ++ log_commands other l)) as Hlog.
  { apply Forall_app. split; [|by apply log_commands_loggable]. pose proof (store_commands_supported other _ _ Em) as Hs.
    rewrite Forall_forall in *. intros cmd Hin. destruct (Hp cmd Hin) as [He Hlen]. split; [by apply Hs|by split]. }
  destruct (wp_run _ _ _ (wp_replay other _ [] garbage t ∅ (client_init fd 0) (at_time t (fresh seed fd w g))
    (Rep_fresh _ _ _ _ _ Ht) Hlog torn_nil)) as (rc & s3 & Hrun3 & -> & m3 & rs3 & Hse3 & HR3).
  exists s3. rewrite session_log_commands. rewrite app_nil_r, map_app, concat_app in Hrun3. split; [exact Hrun3|].
  rewrite map_app in Hse3. apply session_app in Hse3 as (m2 & rs1 & rs2 & Hse1 & Hse2).
  rewrite (store_replayed _ ks cmdss t Hd Hres Em _ _ Hse1), timeless_visible in Hse2 by done.
  by rewrite <- (session_replayed other t l ks m1 rs m3 rs2 Htl Hdur Hse Hse2).
Qed.

(** C4: no write is lost across a background rewrite of the log.  A client sends
    BGREWRITEAOF, and the server goes on executing and logging commands while the child
    writes the store as it was at the fork to a new file and renames it over the log.
    When the child was waited for, the log on disk is the child's file followed by
    exactly what was logged since the fork, the mirror is empty, and a new server that
    replays the log holds exactly the keyspace of this one.  (Keys without expiry, and
    commands that set none and choose nothing at random.) *)
Theorem background_rewrite_no_loss (p file : bytes) (s : state) (t0 : Z) (c : client) (ks : keyspace)
    (cmds : list command) (l : list (Z * command)) (k : fate) (fd : nat) (t : Z) (seed : bytes) (fd' : Z) (w' : world)
    (g' : globals) (garbage : Z) :
  Rep t0 ks c s → serving p file [] false s → loggable_store t (db_d (st_db s)) ks cmds →
  next_fork s = true → next_open s = Some fd → good_fate k →
  times_from t0 l → replayable persistence l → 0 <= t <= INT64_MAX →
  ∃ s0 s1 s2 s3 s4 m1 t1 c1,
    dispatch_command persistence [bs "BGREWRITEAOF"] s = Some (tt, s0) ∧
    run_session persistence l s0 = Some (tt, s1) ∧ Rep t1 m1 c1 s1 ∧
    run_child (length (children s)) k None s1 = Some (tt, s2) ∧
    reap_children true s2 = Some (false, s3) ∧ Rep t1 m1 c1 s3 ∧
    let log := concat (resp_encode <$> cmds) ++ session_log persistence l in
    serving p log [] false s3 ∧ files_now s3 !! cstr p = Some log ∧
    aof_replay persistence (files_now s3 !! cstr p) garbage (at_time t (fresh seed fd' w' g')) = Some (true, s4) ∧
    Rep t m1 (client_init fd' 0) s4.
Proof.
  intros HR Hsv Hls Hfork Hopen Hk Ht0 Hrp Ht.
  destruct (wp_run _ _ _ (start_rewrite _ _ _ _ _ _ _ _ HR Hsv Hfork (ls_commands _ _ _ _ Hls)))
    as ([] & s0 & E0 & HR0 & Hsv0 & _ & Ho0 & _ & _ & prog & Hprog & Hch0).
  destruct (wp_run _ _ _ (session_serving _ l _ _ _ _ _ _ _ _ HR0 Ht0 (rp_supported _ _ Hrp) Hsv0))
    as ([] & s1 & E1 & m1 & rs & c1 & Hse & HR1 & Hsv1 & Hy1). cbn [app] in Hsv1. set (t1 := end_time t0 l) in *.
  assert (next_open s1 = Some fd) as Ho1 by (unfold next_open in *; by rewrite Hy1, Ho0).
  assert (children s1 !! length (children s) = Some (Child (cstr p) prog)) as Hi.
  { rewrite Hy1, Hch0. by rewrite lookup_app_r, Nat.sub_diag by lia. }
  destruct (wp_run _ _ _ (child_replaces _ k p prog _ s1 Hi Hprog (sv_path _ _ _ _ _ Hsv1) Hk))
    as ([] & s2 & E2 & Hc2 & Ho2 & Hf2 & Hg2).
  pose proof Hsv1 as [[Hfd1 Hre1 Hrw1 _ Hb1 Hw1] Hp1 _].
  destruct (wp_run _ _ _ (wp_reap_rewriting t1 m1 c1 s2 p (session_log persistence l) (concat (resp_encode <$> cmds)) fd
    ltac:(by eapply Rep_calm) ltac:(by rewrite Hg2) ltac:(by rewrite Hg2) ltac:(by rewrite Hg2) ltac:(by rewrite Hg2)
    ltac:(by rewrite Hg2) ltac:(by rewrite (cm_write _ _ Hc2)) Hf2 ltac:(by rewrite Ho2)))
    as (r & s3 & E3 & -> & Hc3 & HR3 & _ & Hsv3).
  destruct (rewritten_log_recovers persistence t _ ks cmds l m1 rs garbage seed fd' w' g' Hls Hrp Hse Ht) as (s4 & E4 & HR4).
  exists s0, s1, s2, s3, s4, m1, t1, c1. do 7 (split; [done|]). rewrite (serving_file _ _ _ _ _ Hsv3). done.
Qed.

(** A server at work: the log open under its name, every call successful. *)
Definition good_system : system :=
  System ∅ (λ _, Fate true (λ _, Some 2%nat) true true true) 0 (λ _, Some 6%nat) 0 (λ _, true) 0 [].
Definition good_world : world :=
  World (λ _, 1000) 0 (λ _, 0) 0 (λ _, replicate 16 NUL) 0 (λ _, Some 2%nat) 0 good_system.
Definition log_globals (rewriting : bool) : globals := Globals 0 5 false rewriting [] [] 0 (Some (bs "log")) None true.
Definition one_key : dict robj := (dict_set (dict_create []) (bs "k") (robj_new_string (bs "v"))).2.
Definition one_keyspace : keyspace := {[ bs "k" := Aobj (VString (bs "v")) (-1) ]}.
Definition at_work : state := State (Db one_key 0) (client_init 3 0) good_world (log_globals false).

Lemma one_key_rep : db_rep one_key one_keyspace.
Proof.
  unfold one_key, one_keyspace. rewrite <- insert_empty. apply db_rep_set; [apply db_rep_create|].
  split; [constructor|]. split; [done|]. unfold in_ll, INT64_MIN, INT64_MAX. cbn. lia.
Qed.

Lemma one_key_timeless : timeless one_keyspace.
Proof. apply map_Forall_singleton. reflexivity. Qed.

Lemma at_work_Rep : Rep 1000 one_keyspace (client_init 3 0) at_work.
Proof.
  split; [split; [reflexivity|unfold INT64_MAX; lia]|]. split; [reflexivity|]. exists one_keyspace. split; [exact one_key_rep|].
  apply timeless_visible, one_key_timeless.
Qed.

Lemma at_work_serving : serving (bs "log") [] [] false at_work.
Proof. split; [|reflexivity..]. split; try reflexivity; [vm_compute; congruence|]. intros i. by exists 2%nat. Qed.

Lemma one_key_loggable : loggable_store 9000 one_key one_keyspace [[bs "SET"; bs "k"; bs "v"]].
Proof.
  split; [exact one_key_rep|exact one_key_timeless| | |].
  - apply map_Forall_singleton. split; [by apply (bool_decide_unpack _)|]. split; [cbn; lia|].
    split; [by apply (bool_decide_unpack _)|]. by left.
  - vm_compute. reflexivity.
  - apply Forall_cons_2; [|apply Forall_nil_2]. split; [apply (bool_decide_unpack _); vm_compute; exact I|vm_compute; reflexivity].
Qed.

Definition one_push : list (Z * command) := [(2000, [bs "RPUSH"; bs "l"; bs "a"])].
Lemma one_push_replayable : replayable persistence one_push.
Proof.
  split; (apply Forall_cons_2; [|apply Forall_nil_2]); [by left|reflexivity|].
  split; [apply (bool_decide_unpack _); vm_compute; exact I|vm_compute; reflexivity].
Qed.

Definition good_calls : fate := Fate true (λ _, Some 2%nat) true true true.
Lemma good_calls_good : good_fate good_calls.
Proof. by split_and!. Qed.

Lemma background_rewrite_no_loss_witness :
  ∃ s0 s1 s2 s3 s4 m1 t1 c1,
    dispatch_command persistence [bs "BGREWRITEAOF"] at_work = Some (tt, s0) ∧
    run_session persistence one_push s0 = Some (tt, s1) ∧ Rep t1 m1 c1 s1 ∧
    run_child 0 good_calls None s1 = Some (tt, s2) ∧
    reap_children true s2 = Some (false, s3) ∧ Rep t1 m1 c1 s3 ∧
    let log := concat (resp_encode <$> [[bs "SET"; bs "k"; bs "v"]]) ++ session_log persistence one_push in
    serving (bs "log") log [] false s3 ∧ files_now s3 !! bs "log" = Some log ∧
    aof_replay persistence (files_now s3 !! bs "log") 0 (at_time 9000 (fresh [] 4 good_world no_aof)) = Some (true, s4) ∧
    Rep 9000 m1 (client_init 4 0) s4.
Proof.
  apply (background_rewrite_no_loss (bs "log") [] at_work 1000 (client_init 3 0) one_keyspace [[bs "SET"; bs "k"; bs "v"]] one_push
    good_calls 6 9000 [] 4 good_world no_aof 0 at_work_Rep at_work_serving one_key_loggable eq_refl eq_refl good_calls_good).
  - vm_compute. repeat split; congruence.
  - exact one_push_replayable.
  - vm_compute. split; congruence.
Defined.

(** ** Children that do not replace the log *)

(** The child ends, fails or is killed without renaming a file over the log. *)
Lemma child_leaves_log i k left_ p file buf rw tmp target b prog s :
  serving p file buf rw s → children s !! i = Some (Child target prog) → Replacer tmp target b prog → target ≠ tmp → cstr p ≠ tmp →
  (target = cstr p → ∀ files d, prog (boot files k left_) ≠ inl (0, d)) →
  wp (run_child i k left_) (λ _ s', calm s s' ∧ next_open s' = next_open s ∧ serving p file buf rw s') s.
Proof.
  intros [[Hfd Hre Hrw Hf Hb Hw] Hp Hl] Hi Hr Hne Hpt Hfail. unfold wp, run_child. rewrite Hi. cbn [mbind option_bind ch_target ch_prog].
  set (s0 := set_sys s _). assert (log_apart tmp (st_globals s0)) as Ha by (intros q Hq; cbn in Hq; congruence).
  pose proof (run_program_spec tmp target b prog Hr Hne s0 Ha k left_) as H.
  assert (∀ rc, (run_program target prog k left_ s0).1 = Some rc → rc = 0 → target ≠ cstr p) as Hrc.
  { unfold run_program. intros rc E -> Ht. destruct (prog _) as [[rc d]|d] eqn:Ep; [|done]. cbn in E. injection E as ->. by eapply Hfail. }
  destruct (run_program target prog k left_ s0) as [r s']. cbn [fst snd] in *. destruct H as (Hc & _ & Ho & H).
  assert (st_globals s' = st_globals s) as Hg.
  { destruct r as [rc|]; [|apply H]. destruct H as [[[[-> _]|[-> _]] _] Hg].
    - rewrite Hg. unfold unlinked. cbn. rewrite Hp, bool_decide_eq_false_2, andb_true_r by (intros [= E]; by apply (Hrc 0)).
      by destruct s as [? ? ? []].
    - by rewrite Hg, unlinked_failed. }
  assert (calm s s') as Hc' by (by destruct Hc). split; [done|]. split; [done|].
  split; [split|..]; rewrite ?Hg; try done. by rewrite (cm_write _ _ Hc').
Qed.

(** The end of any child is taken for the end of the rewrite.  When the rewriting
    child fails or is killed, or when another child (a BGSAVE) ends first, the log was
    not replaced; the server opens the log it has been writing all along and appends
    the mirrored commands to it a second time. *)
Theorem failed_rewrite_duplicates (p file : bytes) (s : state) (t0 : Z) (c : client) (m : keyspace) (l : list (Z * command))
    (i : nat) (k : fate) (left_ : option nat) (tmp target b : bytes) (prog : D Z) (fd : nat) :
  Rep t0 m c s → serving p file [] true s → times_from t0 l → Forall (λ x, supported persistence x.2) l →
  children s !! i = Some (Child target prog) → Replacer tmp target b prog → target ≠ tmp → cstr p ≠ tmp →
  (target = cstr p → ∀ files d, prog (boot files k left_) ≠ inl (0, d)) → next_open s = Some fd →
  ∃ s1 s2 s3,
    run_session persistence l s = Some (tt, s1) ∧ files_now s1 !! cstr p = Some (file ++ session_log persistence l) ∧
    run_child i k left_ s1 = Some (tt, s2) ∧ reap_children true s2 = Some (false, s3) ∧
    files_now s3 !! cstr p = Some (file ++ session_log persistence l ++ session_log persistence l).
Proof.
  intros HR Hsv Ht Hs Hi Hr Hne Hpt Hfail Ho.
  destruct (wp_run _ _ _ (session_serving _ l _ _ _ _ _ _ _ _ HR Ht Hs Hsv))
    as ([] & s1 & E1 & m1 & rs & c1 & _ & HR1 & Hsv1 & Hy1). cbn [app] in Hsv1. set (t1 := end_time t0 l) in *.
  rewrite <- Hy1 in Hi. assert (next_open s1 = Some fd) as Ho1 by (unfold next_open in *; by rewrite Hy1).
  destruct (wp_run _ _ _ (child_leaves_log i k left_ _ _ _ _ _ _ _ _ _ Hsv1 Hi Hr Hne Hpt Hfail)) as ([] & s2 & E2 & Hc2 & Ho2 & Hsv2).
  pose proof Hsv2 as [[Hfd2 Hre2 Hrw2 _ Hb2 Hw2] Hp2 _].
  destruct (wp_run _ _ _ (wp_reap_rewriting t1 m1 c1 s2 p _ _ fd (Rep_calm _ _ _ _ _ HR1 Hc2) (λ _, Hfd2) Hp2 Hrw2 Hre2 Hb2 Hw2
    (serving_file _ _ _ _ _ Hsv2) ltac:(by rewrite Ho2))) as (r & s3 & E3 & -> & _ & _ & _ & Hsv3).
  exists s1, s2, s3. split; [done|]. split; [by eapply serving_file|]. do 2 (split; [done|]).
  by rewrite (serving_file _ _ _ _ _ Hsv3), <- app_assoc.
Qed.

(** A rewrite is under way, and a child that saves a snapshot. *)
Definition saving : state :=
  State (Db one_key 0) (client_init 3 0)
    (World (λ _, 1000) 0 (λ _, 0) 0 (λ _, replicate 16 NUL) 0 (λ _, Some 2%nat) 0
       (System ∅ (λ _, good_calls) 0 (λ _, Some 6%nat) 0 (λ _, true) 0 [Child (bs "dump") (rdb_replace (bs "dump") (bs "snapshot"))]))
    (log_globals true).

Lemma failed_rewrite_duplicates_witness :
  let l := [(2000, [bs "INCR"; bs "n"])] in
  ∃ s1 s2 s3,
    run_session persistence l saving = Some (tt, s1) ∧ files_now s1 !! bs "log" = Some ([] ++ session_log persistence l) ∧
    run_child 0 good_calls None s1 = Some (tt, s2) ∧ reap_children true s2 = Some (false, s3) ∧
    files_now s3 !! bs "log" = Some ([] ++ session_log persistence l ++ session_log persistence l).
Proof.
  intros l. apply (failed_rewrite_duplicates (bs "log") [] saving 1000 (client_init 3 0) one_keyspace l 0 good_calls None
    (tmppath (bs "dump")) (bs "dump") (bs "snapshot") (rdb_replace (bs "dump") (bs "snapshot")) 6).
  - exact at_work_Rep.
  - split; [|reflexivity..]. split; try reflexivity; [vm_compute; congruence|]. intros i. by exists 2%nat.
  - vm_compute. repeat split; congruence.
  - apply Forall_cons_2; [by left|]. apply Forall_nil_2.
  - reflexivity.
  - exact (rdb_replacer (bs "dump") (bs "snapshot")).
  - vm_compute. congruence.
  - vm_compute. congruence.
  - intros E. exfalso. revert E. vm_compute. congruence.
  - reflexivity.
Defined.

(** ** REWRITEAOF in every case *)

(** C31: the outcomes of REWRITEAOF.  Whatever call fails, the store is unchanged and no
    other file is touched.  When writing the new log fails, the client gets an error and
    the log is as it was; when the new log cannot be opened, the file holds the commands
    that rebuild the store, the client gets an error and the server has no log any more;
    otherwise the log is those commands followed by what had been mirrored for a
    background rewrite, or by a part of it when writing that fails. *)
Theorem rewriteaof_outcomes (p : bytes) (s : state) (t : Z) (m : keyspace) (c : client) :
  Rep t m c s → log_ok (st_globals s) → g_aof_path (st_globals s) = Some p →
  ∃ cmds s1 r, store_commands (db_d (st_db s)) = Some cmds ∧ rewrote t p (concat (resp_encode <$> cmds)) s s1 r ∧
    dispatch_command persistence [bs "REWRITEAOF"] s = Some (tt, set_client s1 (deliver (st_client s1) r)).
Proof.
  intros HR Hok Hp. pose proof HR as (_ & _ & ks & Hd & _). destruct (store_commands_defined _ _ Hd) as [cmdss Em].
  assert (store_commands (db_d (st_db s)) = Some (concat cmdss)) as Hc by (unfold store_commands; by rewrite Em).
  destruct (wp_run _ _ _ (answers_rewriteaof t m c (bs "REWRITEAOF") p _ s HR Hok Hp Hc)) as ([] & s' & E & s1 & r & H & ->).
  exists (concat cmdss), s1, r. split; [done|]. split; [done|]. by rewrite dispatch_rewriteaof.
Qed.

Lemma rewriteaof_outcomes_witness :
  ∃ cmds s1 r, store_commands (db_d (st_db at_work)) = Some cmds ∧
    rewrote 1000 (bs "log") (concat (resp_encode <$> cmds)) at_work s1 r ∧
    dispatch_command persistence [bs "REWRITEAOF"] at_work = Some (tt, set_client s1 (deliver (st_client s1) r)).
Proof.
  apply (rewriteaof_outcomes (bs "log") at_work 1000 one_keyspace (client_init 3 0)).
  - exact at_work_Rep.
  - intros _. cbn. lia.
  - reflexivity.
Defined.

(** ** Two rewrites at once *)

(** REWRITEAOF when no call fails. *)
Lemma rewrite_now t m c s p file buf rw cmds fd :
  Rep t m c s → serving p file buf rw s → store_commands (db_d (st_db s)) = Some cmds →
  good_fate (next_fate s) → next_open s = Some fd →
  wp (dispatch_command persistence [bs "REWRITEAOF"]) (λ _ s', Rep t m (deliver c (RSimple (bs "OK"))) s' ∧ st_db s' = st_db s ∧
    serving p (concat (resp_encode <$> cmds) ++ buf) [] rw s' ∧ children s' = children s ∧
    y_open (w_sys (st_world s')) = y_open (w_sys (st_world s))) s.
Proof.
  intros HR [[Hfd Hre Hrw Hf Hb Hw] Hp Hl] Hc Hk Ho. unfold wp. rewrite dispatch_rewriteaof.
  eapply (wp_mono (cmd_rewriteaof _)); [eapply (answers_rewriteaof t m c); [done|by intros _|done|done]|].
  intros [] s' (s1 & r & (Hcalm & Hch & _ & H) & ->). cbn zeta in H. rewrite Ho in H. pose proof (Rep_answer _ _ _ _ _ r HR Hcalm) as HR'.
  destruct H as [(_ & _ & _ & H)|[(_ & _ & _ & H)|(-> & fd' & x & rest & Hx & Hrest & Hg & _)]]; [done|done|].
  rewrite (Hrest Hw), app_nil_r, Hb in Hx. subst x. split; [done|]. split; [apply Hcalm|]. split; [|split; [done|apply Hcalm]].
  split; [split|..]; cbn; rewrite ?Hg; cbn; try done; [lia|]. by rewrite (cm_write _ _ Hcalm).
Qed.

(** C40: a REWRITEAOF during a background rewrite loses writes.  REWRITEAOF does not
    look whether a background rewrite is under way; it appends the mirrored commands,
    which the store it has just written contains already, to the new log, and empties
    the mirror.  When the child then renames its older image over that log, the commands
    executed between the fork and the REWRITEAOF are on no file any more: the log is the
    child's image followed by what was logged after the REWRITEAOF only. *)
Theorem rewriteaof_discards_mirror (p file : bytes) (s : state) (t0 : Z) (c : client) (ks : keyspace)
    (cmds0 : list command) (l1 l2 : list (Z * command)) (k : fate) :
  Rep t0 ks c s → serving p file [] false s → store_commands (db_d (st_db s)) = Some cmds0 →
  next_fork s = true → (∀ i, is_Some (y_open (w_sys (st_world s)) i)) →
  (∀ i, good_fate (y_fate (w_sys (st_world s)) i)) → good_fate k →
  times_from t0 (l1 ++ l2) →
  Forall (λ x, supported persistence x.2) l1 → Forall (λ x, supported persistence x.2) l2 →
  ∃ s0 s1 s2 s3 s4 s5 cmds1,
    dispatch_command persistence [bs "BGREWRITEAOF"] s = Some (tt, s0) ∧
    run_session persistence l1 s0 = Some (tt, s1) ∧ store_commands (db_d (st_db s1)) = Some cmds1 ∧
    dispatch_command persistence [bs "REWRITEAOF"] s1 = Some (tt, s2) ∧
    files_now s2 !! cstr p = Some (concat (resp_encode <$> cmds1) ++ session_log persistence l1) ∧
    run_session persistence l2 s2 = Some (tt, s3) ∧
    run_child (length (children s)) k None s3 = Some (tt, s4) ∧ reap_children true s4 = Some (false, s5) ∧
    files_now s5 !! cstr p = Some (concat (resp_encode <$> cmds0) ++ session_log persistence l2).
Proof.
  intros HR Hsv Hc0 Hfork Hopen Hfate Hk [Ht1 Ht2]%times_from_app Hs1 Hs2.
  destruct (wp_run _ _ _ (start_rewrite _ _ _ _ _ _ _ _ HR Hsv Hfork Hc0))
    as ([] & s0 & E0 & HR0 & Hsv0 & _ & Ho0 & Hf0 & Hop0 & prog & Hprog & Hch0).
  destruct (wp_run _ _ _ (session_serving _ l1 _ _ _ _ _ _ _ _ HR0 Ht1 Hs1 Hsv0))
    as ([] & s1 & E1 & m1 & rs1 & c1 & _ & HR1 & Hsv1 & Hy1). cbn [app] in Hsv1.
  pose proof HR1 as (_ & _ & ks1 & Hd1 & _). destruct (store_commands_defined _ _ Hd1) as [cmdss1 Em].
  assert (store_commands (db_d (st_db s1)) = Some (concat cmdss1)) as Hc1 by (unfold store_commands; by rewrite Em).
  assert (good_fate (next_fate s1)) as Hk1 by (unfold next_fate in *; rewrite Hy1, Hf0; apply Hfate).
  destruct (next_open s1) as [fd|] eqn:Ho1.
  2: { exfalso. unfold next_open in *. rewrite Hy1, Ho0 in Ho1. destruct (Hopen (y_opens (w_sys (st_world s)))). congruence. }
  destruct (wp_run _ _ _ (rewrite_now _ _ _ _ _ _ _ _ _ _ HR1 Hsv1 Hc1 Hk1 Ho1)) as ([] & s2 & E2 & HR2 & _ & Hsv2 & Hch2 & Hy2).
  destruct (wp_run _ _ _ (session_serving _ l2 _ _ _ _ _ _ _ _ HR2 Ht2 Hs2 Hsv2))
    as ([] & s3 & E3 & m3 & rs3 & c3 & _ & HR3 & Hsv3 & Hy3). cbn [app] in Hsv3.
  assert (children s3 !! length (children s) = Some (Child (cstr p) prog)) as Hi.
  { rewrite Hy3, Hch2, Hy1, Hch0. by rewrite lookup_app_r, Nat.sub_diag by lia. }
  destruct (wp_run _ _ _ (child_replaces _ k p prog _ s3 Hi Hprog (sv_path _ _ _ _ _ Hsv3) Hk))
    as ([] & s4 & E4 & Hc4 & Ho4 & Hf4 & Hg4).
  assert (∃ fd, next_open s4 = Some fd) as [fd4 Ho].
  { rewrite Ho4. unfold next_open in *. rewrite Hy3, Hy2, Hy1, Hop0. apply Hopen. }
  pose proof Hsv3 as [[Hfd3 Hre3 Hrw3 _ Hb3 Hw3] Hp3 _].
  destruct (wp_run _ _ _ (wp_reap_rewriting _ m3 c3 s4 p (session_log persistence l2) (concat (resp_encode <$> cmds0)) fd4
    ltac:(by eapply Rep_calm) ltac:(by rewrite Hg4) ltac:(by rewrite Hg4) ltac:(by rewrite Hg4) ltac:(by rewrite Hg4)
    ltac:(by rewrite Hg4) ltac:(by rewrite (cm_write _ _ Hc4)) Hf4 Ho)) as (r & s5 & E5 & -> & _ & _ & _ & Hsv5).
  exists s0, s1, s2, s3, s4, s5, (concat cmdss1). do 4 (split; [done|]). split; [by eapply serving_file|].
  do 3 (split; [done|]). by eapply serving_file.
Qed.

Lemma rewriteaof_discards_mirror_witness :
  let l1 := [(2000, [bs "SET"; bs "lost"; bs "1"])] in
  let l2 := [(3000, [bs "SET"; bs "kept"; bs "2"])] in
  ∃ s0 s1 s2 s3 s4 s5 cmds1,
    dispatch_command persistence [bs "BGREWRITEAOF"] at_work = Some (tt, s0) ∧
    run_session persistence l1 s0 = Some (tt, s1) ∧ store_commands (db_d (st_db s1)) = Some cmds1 ∧
    dispatch_command persistence [bs "REWRITEAOF"] s1 = Some (tt, s2) ∧
    files_now s2 !! bs "log" = Some (concat (resp_encode <$> cmds1) ++ session_log persistence l1) ∧
    run_session persistence l2 s2 = Some (tt, s3) ∧
    run_child 0 good_calls None s3 = Some (tt, s4) ∧ reap_children true s4 = Some (false, s5) ∧
    files_now s5 !! bs "log" = Some (resp_encode [bs "SET"; bs "k"; bs "v"] ++ resp_encode [bs "SET"; bs "kept"; bs "2"]).
Proof.
  intros l1 l2. apply (rewriteaof_discards_mirror (bs "log") [] at_work 1000 (client_init 3 0) one_keyspace [[bs "SET"; bs "k"; bs "v"]]
    l1 l2 good_calls at_work_Rep at_work_serving (ls_commands _ _ _ _ one_key_loggable) eq_refl).
  - intros i. by exists 6%nat.
  - intros i. exact good_calls_good.
  - exact good_calls_good.
  - vm_compute. repeat split; congruence.
  - apply Forall_cons_2; [by left|]. apply Forall_nil_2.
  - apply Forall_cons_2; [by left|]. apply Forall_nil_2.
Defined.
