(* ===== verification/Server.v ===== *)
(** * Clients and the event loop ([src/server.c])

    Reading and writing of client sockets, acceptance of connections, removal of
    closed clients, and one turn of the epoll loop.  What the system calls return is
    an input: a list of results per call site, consumed in order; a list that has
    run out means that the socket would block.

    The theorems: however the input of a client is split into packets, exactly the
    complete commands are executed, in order, and the rest is kept; nothing of the
    output is lost, repeated or reordered; the table of clients stays within its
    bounds. *)

From S2P Require Import Prelude Util Dict CList Zskiplist Object Machine DbCore.
From S2P Require Import DbString DbList DbHash DbSet DbZset Resp Aof Dispatch Session Frame Replay Persist.
Import Num.

Definition MAX_CLIENTS : nat := 1024.
Definition READ_CHUNK : Z := 65536.
Definition MAX_QUERY_BUF : Z := 64 * 1024 * 1024.

(** ** Reading *)

(** A result of [recv]. *)
Inductive recv_result :=
| Received (b : bytes)   (* n > 0 *)
| PeerClosed             (* 0 *)
| WouldBlock             (* EAGAIN, EWOULDBLOCK *)
| Interrupted            (* EINTR *)
| RecvFailed.            (* any other error *)

Definition set_input (f : bytes → bytes) : M unit := modify (λ s, let c := st_client s in
  set_client s (Client (c_fd c) (f (c_in c)) (c_out c) (c_out_sent c) (c_closing c) (c_events c) (c_subscribed c))).

(** How the inner loop of [read_client] ends: by returning, or at its [break]. *)
Inductive drain_end := DrainReturn (rc : Z) | DrainMore.

Section Read.
Context (other : string → command → M unit).

(** "Drain every complete command currently buffered": every turn that goes on
    consumes at least one byte. *)
Fixpoint drain (fuel : nat) : M drain_end :=
  c ← gets st_client;
  let '(consumed, argv) := resp_parse_command (c_in c) in
  if consumed >? 0 then
    match fuel with
    | O => ub
    | S fuel =>
        _ ← dispatch_command other argv;
        _ ← set_input (drop (Z.to_nat consumed));
        c ← gets st_client;
        if c_closing c then mret (DrainReturn 0) else drain fuel
    end
  else if consumed <? 0 then mret (DrainReturn (-1))
  else mret DrainMore.

(** The results of [recv] that are left are returned too. *)
Fixpoint read_client (rs : list recv_result) : M (Z * list recv_result) :=
  match rs with
  | [] => mret (0, [])
  | Received b :: rs =>
      _ ← set_input (λ i, i ++ b);
      c ← gets st_client;
      if zlen (c_in c) >? MAX_QUERY_BUF then mret (-1, rs) else
      r ← drain (length (c_in c));
      match r with
      | DrainReturn rc => mret (rc, rs)
      | DrainMore => read_client rs
      end
  | PeerClosed :: rs => mret (-1, rs)
  | WouldBlock :: rs => mret (0, rs)
  | Interrupted :: rs => read_client rs
  | RecvFailed :: rs => mret (-1, rs)
  end.

End Read.

(** ** Writing *)

(** A result of [send]; [Sent n] accepts at most [S n] bytes. *)
Inductive send_result := Sent (n : nat) | SendZero | SendWouldBlock | SendInterrupted | SendFailed.

Definition with_output (c : client) (out : bytes) (sent : Z) : client :=
  Client (c_fd c) (c_in c) out sent (c_closing c) (c_events c) (c_subscribed c).

(** The result, the client, and the bytes handed to the socket. *)
Fixpoint write_client (ss : list send_result) (c : client) : Z * client * bytes :=
  if c_out_sent c <? zlen (c_out c) then
    match ss with
    | [] => (0, c, [])
    | Sent n :: ss =>
        let p := drop (Z.to_nat (c_out_sent c)) (c_out c) in
        let k := Nat.min (S n) (length p) in
        let '(rc, c', w) := write_client ss (with_output c (c_out c) (c_out_sent c + Z.of_nat k)) in
        (rc, c', take k p ++ w)
    | SendWouldBlock :: _ => (0, c, [])
    | SendInterrupted :: ss => write_client ss c
    | SendFailed :: _ | SendZero :: _ => (-1, c, [])
    end
  else (0, with_output c [] 0, []).

(** ** The table of clients *)

(** The clients that are not closing keep their order; the others are freed. *)
Fixpoint compact_clients (cs : list client) : list client :=
  match cs with
  | [] => []
  | c :: cs => if c_closing c then compact_clients cs else c :: compact_clients cs
  end.

Definition EPOLLIN : Z := 1.
Definition EPOLLOUT : Z := 4.
Definition FD_SETSIZE : Z := 1024.

Definition with_events (c : client) (e : Z) : client :=
  Client (c_fd c) (c_in c) (c_out c) (c_out_sent c) (c_closing c) e (c_subscribed c).

(** A result of [accept]: a descriptor, with the result of [epoll_ctl] for it and the
    value of the fields [client_init] leaves unset, or an error. *)
Inductive accept_result :=
| Accepted (fd : Z) (added : bool) (garbage : Z)
| AcceptWouldBlock
| AcceptInterrupted
| AcceptFailed.

(** Grows the array as [xrealloc] does; [ep] tells the epoll loop from the select
    loop.  Descriptors turned away are returned last. *)
Fixpoint accept_clients (ep : bool) (cs : list client) (cap : nat) (rs : list accept_result) :
    list client * nat * list Z :=
  match rs with
  | [] => (cs, cap, [])
  | AcceptWouldBlock :: _ | AcceptFailed :: _ => (cs, cap, [])
  | AcceptInterrupted :: rs => accept_clients ep cs cap rs
  | Accepted fd added garbage :: rs =>
      if negb ep && (fd >=? FD_SETSIZE) then
        let '(cs, cap, refused) := accept_clients ep cs cap rs in (cs, cap, fd :: refused)
      else if (MAX_CLIENTS <=? length cs)%nat then
        let '(cs, cap, refused) := accept_clients ep cs cap rs in (cs, cap, fd :: refused)
      else
        let cap := if (length cs =? cap)%nat then (if (cap =? 0)%nat then 16%nat else (cap * 2)%nat) else cap in
        let c := client_init fd garbage in
        let c := if ep then (if added then with_events c EPOLLIN else closing c) else c in
        accept_clients ep (cs ++ [c]) cap rs
  end.

(** [client_update_epoll]; [ok] is the result of [epoll_ctl]. *)
Definition client_update_epoll (ok : bool) (c : client) : client :=
  let want := if zlen (c_out c) >? c_out_sent c then Z.lor EPOLLIN EPOLLOUT else EPOLLIN in
  if want =? c_events c then c else if ok then with_events c want else c.

(** ** The abstract connection *)

(** The reply closes the connection. *)
Definition closes (r : rv) : bool := match r with RClose _ => true | _ => false end.

(** Commands executed at one time, up to the first that closes the connection:
    the new keyspace, the replies, the commands that are not executed, and whether
    the connection is to be closed. *)
Inductive serves (t : Z) : keyspace → list command → keyspace → list rv → list command → bool → Prop :=
| serves_done m : serves t m [] m [] [] false
| serves_next m cmd m1 r cmds m2 rs rest b :
    exec t m (cstr <$> cmd) m1 r → closes r = false → serves t m1 cmds m2 rs rest b →
    serves t m (cmd :: cmds) m2 (r :: rs) rest b
| serves_close m cmd m1 r cmds :
    exec t m (cstr <$> cmd) m1 r → closes r = true → serves t m (cmd :: cmds) m1 [r] cmds true.

Definition stream (cmds : list command) : bytes := concat (resp_encode <$> cmds).

(** The client after a run of commands. *)
Definition served (c : client) (input : bytes) (rs : list rv) (b : bool) : client :=
  Client (c_fd c) input (c_out c ++ concat (map rv_bytes rs)) (c_out_sent c) b (c_events c) (c_subscribed c).

Lemma deliver_served c r : c_closing c = false → deliver c r = served c (c_in c) [r] (closes r).
Proof.
  intros Hc. unfold served. cbn [map concat]. rewrite app_nil_r. destruct r; cbn [deliver closes rv_bytes]; unfold closing, push; by rewrite ?Hc.
Qed.

Lemma Rep_set_input t m c s f :
  Rep t m c s → wp (set_input f) (λ _ s', Rep t m
    (Client (c_fd c) (f (c_in c)) (c_out c) (c_out_sent c) (c_closing c) (c_events c) (c_subscribed c)) s') s.
Proof. intros (Hw & <- & Hks). unfold wp, set_input, modify. split; [exact Hw|]. by split. Qed.

Lemma parse_torn tail : torn tail → resp_parse_command tail = (0, (resp_parse_command tail).2).
Proof.
  intros (cmd & x & He & Heq & Hx). unfold resp_parse_command. pose proof (resp_parse_prefix cmd tail x He Heq Hx) as Hp.
  by destruct (resp_parse tail) as [[| |] ?].
Qed.

Section Serve.
Context (other : string → command → M unit).

Lemma drain_serves cmds tail t m c s fuel :
  Rep t m c s → c_closing c = false → c_in c = stream cmds ++ tail → Forall (loggable other) cmds → torn tail →
  (length cmds <= fuel)%nat →
  wp (drain other fuel) (λ r s', ∃ m' rs rest b,
    serves t m cmds m' rs rest b ∧ r = (if (b : bool) then DrainReturn 0 else DrainMore) ∧
    Rep t m' (served c (stream rest ++ tail) rs b) s') s.
Proof.
  revert m c s fuel. induction cmds as [|cmd cmds IH]; intros m c s fuel HR Hc Hin Hl Ht Hf.
  - assert (wp (mret DrainMore) (λ r s', ∃ m' rs rest b,
      serves t m [] m' rs rest b ∧ r = (if (b : bool) then DrainReturn 0 else DrainMore) ∧
      Rep t m' (served c (stream rest ++ tail) rs b) s') s) as Hend.
    { apply wp_ret. exists m, [], [], false. split; [constructor|]. split; [done|].
      unfold served. cbn. rewrite app_nil_r. destruct c; cbn in *. by subst. }
    assert (c_in (st_client s) = tail) as Hin' by (by rewrite (proj1 (proj2 HR))).
    destruct fuel; cbn [drain]; apply wp_bind; unfold wp at 1, gets; rewrite Hin', (parse_torn _ Ht); exact Hend.
  - destruct fuel as [|fuel]; [cbn in Hf; lia|]. apply Forall_cons in Hl as [(Hs & He & Hlen) Hl].
    assert (c_in (st_client s) = resp_encode cmd ++ stream cmds ++ tail) as Hin'.
    { rewrite (proj1 (proj2 HR)), Hin. unfold stream. rewrite fmap_cons. cbn [concat]. by rewrite <- app_assoc. }
    cbn [drain]. apply wp_bind. unfold wp at 1, gets. rewrite Hin', parse_frame by done.
    pose proof (resp_encode_pos cmd). rewrite Z.gtb_ltb, (proj2 (Z.ltb_lt _ _)) by lia.
    apply wp_bind. eapply wp_mono; [by apply dispatch_exec|]. intros [] s1 (m1 & r & Hex & HR1).
    rewrite (deliver_served c r Hc) in HR1. apply wp_bind. eapply wp_mono; [by apply Rep_set_input|].
    intros [] s2 HR2. unfold served in HR2. cbn [c_fd c_in c_out c_out_sent c_closing c_events c_subscribed] in HR2.
    rewrite Hin in HR2. unfold stream in HR2. rewrite fmap_cons in HR2. cbn [concat] in HR2.
    rewrite <- app_assoc, Nat2Z.id, drop_app_length in HR2. fold (stream cmds) in HR2.
    apply wp_bind. unfold wp at 1, gets. rewrite (proj1 (proj2 HR2)). cbn [c_closing]. destruct (closes r) eqn:Ec.
    + apply wp_ret. exists m1, [r], cmds, true. split; [by econstructor|]. by split.
    + cbn in Hf. eapply wp_mono; [eapply IH; [exact HR2|done|done|done|done|lia]|].
      intros res s3 (m' & rs & rest & b & Hsv & -> & HR3). exists m', (r :: rs), rest, b.
      split; [by eapply serves_next|]. split; [done|]. unfold served in *. cbn [c_fd c_in c_out c_out_sent c_closing c_events c_subscribed map concat] in *.
      by rewrite app_nil_r, <- app_assoc in HR3.
Qed.

End Serve.

(** ** Packets *)

(** The beginning of a command whose encoding has at most [L] bytes. *)
Definition begun (L : Z) (tail : bytes) : Prop :=
  ∃ cmd x, encodable cmd ∧ Z.of_nat (length (resp_encode cmd)) <= L ∧ resp_encode cmd = tail ++ x ∧ x ≠ [].

Lemma begun_torn L tail : begun L tail → torn tail.
Proof. intros (cmd & x & He & _ & Heq & Hx). by exists cmd, x. Qed.

Lemma begun_length L tail : begun L tail → zlen tail <= L.
Proof.
  intros (cmd & x & _ & Hl & Heq & _). rewrite Heq, length_app in Hl. unfold zlen. lia.
Qed.

Lemma begun_prefix L p q : begun L (p ++ q) → begun L p.
Proof.
  intros (cmd & x & He & Hl & Heq & Hx). exists cmd, (q ++ x). rewrite app_assoc. do 3 (split; [done|]).
  intros E. apply app_nil in E as [_ ?]. done.
Qed.

Lemma begun_nil L : 4 <= L → begun L [].
Proof. intros HL. exists [], (resp_encode []). split; [split; [vm_compute; congruence|constructor]|]. by split. Qed.

(** What has arrived of a stream: whole commands, and the beginning of the next. *)
Lemma stream_split L cmds tail buf rest :
  Forall (λ cmd, encodable cmd ∧ Z.of_nat (length (resp_encode cmd)) <= L) cmds → begun L tail →
  buf ++ rest = stream cmds ++ tail →
  ∃ cmds1 cmds2 p, cmds = cmds1 ++ cmds2 ∧ buf = stream cmds1 ++ p ∧ begun L p ∧ p ++ rest = stream cmds2 ++ tail.
Proof.
  intros Hf Ht. revert buf. induction Hf as [|cmd cmds [He Hl] Hf IH]; intros buf Heq.
  { exists [], [], buf. cbn in Heq. do 2 (split; [done|]). split; [|done]. rewrite <- Heq in Ht. by eapply begun_prefix. }
  unfold stream in Heq. rewrite fmap_cons in Heq. cbn [concat] in Heq. rewrite <- app_assoc in Heq. fold (stream cmds) in Heq.
  destruct (decide (length buf < length (resp_encode cmd))%nat) as [Hlt|Hge].
  - exists [], (cmd :: cmds), buf. do 2 (split; [done|]). split.
    + exists cmd, (drop (length buf) (resp_encode cmd)). do 2 (split; [done|]).
      apply (f_equal (take (length buf))) in Heq. rewrite take_app_length, take_app_le in Heq by lia.
      split; [rewrite Heq at 1; by rewrite take_drop|]. intros E. apply (f_equal length) in E. rewrite length_drop in E. cbn [length] in E. lia.
    + unfold stream. rewrite fmap_cons. cbn [concat]. by rewrite <- app_assoc.
  - assert (buf = resp_encode cmd ++ drop (length (resp_encode cmd)) buf) as Hb.
    { rewrite <- (take_drop (length (resp_encode cmd)) buf) at 1. f_equal.
      apply (f_equal (take (length (resp_encode cmd)))) in Heq. rewrite take_app_length, take_app_le in Heq by lia. done. }
    set (buf' := drop _ buf) in Hb. rewrite Hb, <- app_assoc in Heq. apply app_inv_head in Heq.
    destruct (IH buf' Heq) as (c1 & c2 & p & -> & -> & Hp & Hr). exists (cmd :: c1), c2, p. split; [done|]. split; [|done].
    rewrite Hb. unfold stream. rewrite fmap_cons. cbn [concat]. by rewrite <- app_assoc.
Qed.

Lemma serves_app t m c1 c2 m1 rs1 rest1 m2 rs2 rest b :
  serves t m c1 m1 rs1 rest1 false → serves t m1 c2 m2 rs2 rest b → serves t m (c1 ++ c2) m2 (rs1 ++ rs2) rest b.
Proof.
  intros H. remember false as b0 eqn:Eb. induction H; intros H2; [done| |done]. cbn. eapply serves_next; [done..|]. by apply IHserves.
Qed.

Lemma serves_open t m cmds m' rs rest : serves t m cmds m' rs rest false → rest = [].
Proof. intros H. remember false as b eqn:E. induction H; [done|by apply IHserves|done]. Qed.

(** Commands that fail to be executed are those after the one that closes. *)
Lemma serves_weaken t m c1 c2 m1 rs rest :
  serves t m c1 m1 rs rest true → serves t m (c1 ++ c2) m1 rs (rest ++ c2) true.
Proof.
  intros H. remember true as b eqn:E. induction H; [done| |].
  - cbn. eapply serves_next; [done..|]. by apply IHserves.
  - by apply serves_close.
Qed.

(** ** Reading a stream in packets *)

(** A command of at most [L] bytes that the server supports. *)
Definition request (other : string → command → M unit) (L : Z) (cmd : command) : Prop :=
  supported other cmd ∧ encodable cmd ∧ Z.of_nat (length (resp_encode cmd)) <= L.

(** Packets of at most [READ_CHUNK] bytes, with interruptions in between. *)
Definition packet (r : recv_result) : Prop :=
  match r with Received b => 0 < zlen b <= READ_CHUNK | Interrupted => True | _ => False end.

Definition payload (rs : list recv_result) : bytes :=
  concat (map (λ r, match r with Received b => b | _ => [] end) rs).

Lemma length_commands cmds : (length cmds <= length (stream cmds))%nat.
Proof.
  induction cmds as [|cmd cmds IH]; [done|]. unfold stream in *. rewrite fmap_cons. cbn [concat length]. rewrite length_app.
  pose proof (resp_encode_pos cmd). lia.
Qed.

Lemma request_loggable other L cmds :
  L + READ_CHUNK <= MAX_QUERY_BUF → Forall (request other L) cmds → Forall (loggable other) cmds.
Proof.
  intros HL Hf. eapply Forall_impl; [exact Hf|]. intros cmd (Hs & He & Hl). split; [done|]. split; [done|].
  unfold READ_CHUNK, MAX_QUERY_BUF in HL. lia.
Qed.

Lemma read_serves other L rs : 
  L + READ_CHUNK <= MAX_QUERY_BUF → Forall packet rs → ∀ cmds tail t m c s p,
  Rep t m c s → c_closing c = false → c_in c = p → begun L p →
  Forall (request other L) cmds → begun L tail → p ++ payload rs = stream cmds ++ tail →
  wp (read_client other (rs ++ [WouldBlock])) (λ r s', r.1 = 0 ∧ ∃ m' reps rest b input,
    serves t m cmds m' reps rest b ∧ (b = false → input = tail) ∧ Rep t m' (served c input reps b) s') s.
Proof.
  intros HL Hrs. induction Hrs as [|r rs Hr Hrs IH]; intros cmds tail t m c s p HR Hc Hp Hb Hcmds Ht Heq.
  - cbn in Heq. rewrite app_nil_r in Heq. cbn [app read_client]. apply wp_ret. split; [done|].
    assert (cmds = [] ∧ p = tail) as [-> ->].
    { destruct cmds as [|cmd cmds]; [done|]. exfalso. destruct Hb as (cmd' & x & He' & _ & Hx & Hne).
      apply Forall_cons in Hcmds as [(_ & He & _) _]. rewrite Heq in Hx. unfold stream in Hx. rewrite fmap_cons in Hx. cbn [concat] in Hx.
      rewrite <- !app_assoc in Hx. pose proof (resp_parse_prefix cmd' (stream (cmd :: cmds) ++ tail) x He') as Hpre.
      unfold stream in Hpre. rewrite fmap_cons in Hpre. cbn [concat] in Hpre. rewrite <- !app_assoc in Hpre. specialize (Hpre Hx Hne).
      rewrite resp_parse_encoded in Hpre by done. done. }
    exists m, [], [], false, tail. split; [constructor|]. split; [done|]. unfold served. cbn. rewrite app_nil_r.
    destruct c; cbn in *. by subst.
  - destruct r as [b| | | |]; try done; cbn [app read_client]; [|by eapply IH].
    apply wp_bind. eapply wp_mono; [by apply Rep_set_input|]. intros [] s1 HR1. rewrite Hp in HR1.
    apply wp_bind. unfold wp at 1, gets. rewrite (proj1 (proj2 HR1)). cbn [c_in].
    pose proof (begun_length _ _ Hb). cbn in Hr. unfold zlen in *. rewrite Z.gtb_ltb, (proj2 (Z.ltb_ge _ _)) by (rewrite length_app; lia).
    unfold payload in Heq. cbn [map concat] in Heq. rewrite app_assoc in Heq. fold (payload rs) in Heq.
    destruct (stream_split L cmds tail (p ++ b) (payload rs)) as (c1 & c2 & p' & -> & Hbuf & Hp' & Hrest); [|done|done|].
    { eapply Forall_impl; [done|]. by intros cmd (_ & ? & ?). }
    apply Forall_app in Hcmds as [Hc1 Hc2]. rewrite Hbuf in *. apply wp_bind.
    eapply wp_mono; [eapply (drain_serves other c1 p'); [exact HR1|done|done|by eapply request_loggable|by eapply begun_torn|]|].
    { rewrite length_app. pose proof (length_commands c1). lia. }
    intros r s2 (m2 & rs2 & rest & b2 & Hsv & -> & HR2). unfold served in HR2. cbn [c_fd c_in c_out c_out_sent c_closing c_events c_subscribed] in HR2.
    destruct b2.
    + apply wp_ret. split; [done|]. exists m2, rs2, (rest ++ c2), true, (stream rest ++ p'). split; [by apply serves_weaken|]. by split.
    + rewrite (serves_open _ _ _ _ _ _ Hsv) in *. eapply wp_mono; [eapply (IH c2 tail t m2 _ s2 p'); [exact HR2|done..]|].
      intros r s3 (Hrc & m3 & rs3 & rest3 & b3 & input & Hsv3 & Hin & HR3). split; [done|].
      exists m3, (rs2 ++ rs3), rest3, b3, input. split; [by eapply serves_app|]. split; [done|].
      unfold served in *. cbn [c_fd c_in c_out c_out_sent c_closing c_events c_subscribed] in *.
      by rewrite map_app, concat_app, app_assoc.
Qed.

(** C6: framing is independent of packets.  However the network splits the input of a
    client (packets of any sizes up to the read chunk, interrupted calls in between,
    the first completing what was left over from earlier reads), [read_client]
    executes exactly the commands that are complete, in order, each once; it appends
    their replies to the output and keeps the beginning of the next command for
    later; after a command that closes the connection it executes nothing more. *)
Theorem read_client_packets (other : string → command → M unit) (L : Z) (rs : list recv_result)
    (cmds : list command) (tail : bytes) (t : Z) (m : keyspace) (c : client) (s : state) :
  L + READ_CHUNK <= MAX_QUERY_BUF → Forall packet rs →
  Rep t m c s → c_closing c = false → begun L (c_in c) →
  Forall (request other L) cmds → begun L tail → c_in c ++ payload rs = stream cmds ++ tail →
  ∃ left_ s' m' reps rest b input,
    read_client other (rs ++ [WouldBlock]) s = Some ((0, left_), s') ∧
    serves t m cmds m' reps rest b ∧ (b = false → input = tail) ∧
    Rep t m' (Client (c_fd c) input (c_out c ++ concat (map rv_bytes reps)) (c_out_sent c) b (c_events c) (c_subscribed c)) s'.
Proof.
  intros HL Hrs HR Hc Hb Hcmds Ht Heq.
  destruct (wp_run _ _ _ (read_serves other L rs HL Hrs cmds tail t m c s (c_in c) HR Hc eq_refl Hb Hcmds Ht Heq))
    as ([rc l] & s' & Hrun & Hrc & m' & reps & rest & b & input & Hsv & Hin & HR').
  cbn in Hrc. subst rc. exists l, s', m', reps, rest, b, input. split; [exact Hrun|]. split; [exact Hsv|]. by split.
Qed.

Lemma read_client_packets_witness :
  let cmds := [[bs "SET"; bs "k"; bs "v"]; [bs "GET"; bs "k"]] in
  let all := stream cmds ++ bs "*1" in
  ∃ left_ s' m' reps rest b input,
    read_client no_other ([Received (take 7 all); Interrupted; Received (drop 7 all)] ++ [WouldBlock]) start
      = Some ((0, left_), s') ∧
    serves 1000 ∅ cmds m' reps rest b ∧ (b = false → input = bs "*1") ∧
    Rep 1000 m' (Client 3 input ([] ++ concat (map rv_bytes reps)) 0 b 0 0) s'.
Proof.
  intros cmds all. apply (read_client_packets no_other 1000 [Received (take 7 all); Interrupted; Received (drop 7 all)]
    cmds (bs "*1") 1000 ∅ (client_init 3 0) start).
  - vm_compute. congruence.
  - apply Forall_cons_2; [vm_compute; split; congruence|]. apply Forall_cons_2; [exact I|].
    apply Forall_cons_2; [vm_compute; split; congruence|]. apply Forall_nil_2.
  - exact start_Rep.
  - reflexivity.
  - apply begun_nil. lia.
  - repeat (apply Forall_cons_2; [split; [by left|split; [apply (bool_decide_unpack _); vm_compute; exact I|vm_compute; congruence]]|]).
    apply Forall_nil_2.
  - exists [bs "PING"], (crlf ++ encode_arg (bs "PING")). split; [apply (bool_decide_unpack _); vm_compute; exact I|].
    split; [vm_compute; congruence|]. split; [vm_compute; reflexivity|]. vm_compute. congruence.
  - vm_compute. reflexivity.
Defined.

(** ** Arbitrary input *)

(** Nothing happened to the output but that more was appended. *)
Definition grown (c c' : client) : Prop := c_out_sent c' = c_out_sent c ∧ c_out c `prefix_of` c_out c'.

#[global] Instance grown_preorder : PreOrder grown.
Proof.
  split; [by intros c|]. intros c1 c2 c3 [E1 P1] [E2 P2]. split; [congruence|by etrans].
Qed.

Lemma grown_deliver c r : grown c (deliver c r).
Proof. split; [by destruct r|]. rewrite deliver_out. by eexists. Qed.

(** What is required of the handlers that are a parameter of the dispatcher: no
    undefined behaviour, a well-formed store, replies appended to the output, and the
    input buffer left alone.  The persistence commands satisfy it. *)
Definition handlers_safe (other : string → command → M unit) : Prop := ∀ n cmd t m c s,
  Rep t m c s → wp (other n cmd) (λ _ s', ∃ m' c', Rep t m' c' s' ∧ c_in c' = c_in c ∧ grown c c') s.

Lemma persistence_safe : handlers_safe persistence.
Proof.
  intros n cmd t m c s HR. eapply wp_mono; [by apply persistence_replies|]. intros [] s' [r HR'].
  exists m, (deliver c r). split; [done|]. split; [by destruct r|apply grown_deliver].
Qed.

Lemma commands_known other :
  Forall (λ e, is_some (find_spec (ce_name e)) = true ∨ ∃ n, ce_fn e = other n) (commands other).
Proof. unfold commands. repeat (apply Forall_cons_2; [first [by left | right; by eexists]|]). apply Forall_nil_2. Qed.

Lemma unspecified_command other name e :
  find_command other name = Some e → find_spec name = None → ∃ n, ce_fn e = other n.
Proof.
  intros He Hs. unfold find_command in He. apply find_some in He as [Hin Hn].
  destruct (proj1 (Forall_forall _ _) (commands_known other) e (proj2 (list_elem_of_In _ _) Hin)) as [Hk|Hk]; [|done].
  by rewrite <- (find_spec_case _ _ Hn), Hs in Hk.
Qed.

Lemma dispatch_safe other cmd t m c s :
  handlers_safe other → Rep t m c s →
  wp (dispatch_command other cmd) (λ _ s', ∃ m' c', Rep t m' c' s' ∧ c_in c' = c_in c ∧ grown c c') s.
Proof.
  intros Ho HR. destruct cmd as [|name args]; [apply wp_ret; by exists m, c|].
  destruct (find_spec (cstr name)) as [sp|] eqn:Esp.
  - eapply wp_mono; [apply dispatch_exec; [left; by rewrite Esp|done]|].
    intros [] s' (m' & r & _ & HR'). exists m', (deliver c r). split; [done|]. split; [by destruct r|apply grown_deliver].
  - destruct (find_command other (cstr name)) as [e|] eqn:Ec.
    + destruct (unspecified_command _ _ _ Ec Esp) as (n & Hn). unfold dispatch_command. cmd_simpl. wp_steps.
      rewrite Ec. wp_steps. unfold wp at 1, gets. apply wp_bind. eapply wp_log; [done|]. intros s' HR'. rewrite Hn. exact (Ho n (name :: args) t m c s' HR').
    + eapply wp_mono; [apply dispatch_exec; [by right|done]|].
      intros [] s' (m' & r & _ & HR'). exists m', (deliver c r). split; [done|]. split; [by destruct r|apply grown_deliver].
Qed.

Lemma drain_safe other t fuel : ∀ m c s,
  handlers_safe other → Rep t m c s → (length (c_in c) <= fuel)%nat →
  wp (drain other fuel) (λ r s', r ∈ [DrainReturn 0; DrainReturn (-1); DrainMore] ∧ ∃ m' c', Rep t m' c' s' ∧ grown c c') s.
Proof.
  assert (∀ r m c0 c s, grown c0 c → Rep t m c s → r ∈ [DrainReturn 0; DrainReturn (-1); DrainMore] →
    wp (mret r) (λ r s', r ∈ [DrainReturn 0; DrainReturn (-1); DrainMore] ∧ ∃ m' c', Rep t m' c' s' ∧ grown c0 c') s) as Hret.
  { intros r m c0 c s Hg HR Hr. apply wp_ret. by eauto. }
  induction fuel as [|fuel IH]; intros m c s Ho HR Hf; cbn [drain]; apply wp_bind; unfold wp at 1, gets;
    rewrite (proj1 (proj2 HR)); destruct (resp_parse_command (c_in c)) as [consumed argv] eqn:E.
  - assert (consumed = 0) as ->.
    { destruct (c_in c); [|cbn in Hf; lia]. vm_compute in E. congruence. }
    cbn. eapply Hret; [reflexivity|done|set_solver].
  - destruct (consumed >? 0) eqn:Ep; [|destruct (consumed <? 0); (eapply Hret; [reflexivity|done|set_solver])].
    apply wp_bind. eapply wp_mono; [by eapply dispatch_safe|]. intros [] s1 (m1 & c1 & HR1 & Hc1 & Hg1).
    apply wp_bind. eapply wp_mono; [by apply Rep_set_input|]. intros [] s2 HR2.
    apply wp_bind. unfold wp at 1, gets. rewrite (proj1 (proj2 HR2)). cbn [c_closing]. destruct (c_closing c1); [eapply Hret; [|exact HR2|set_solver]; exact Hg1|].
    eapply wp_mono; [eapply IH; [done|exact HR2|]|].
    + cbn [c_in]. rewrite length_drop, Hc1. rewrite Z.gtb_ltb in Ep. apply Z.ltb_lt in Ep. lia.
    + intros r s3 (Hr & m3 & c3 & HR3 & Hg3). split; [done|]. exists m3, c3. split; [done|]. etrans; [exact Hg1|exact Hg3].
Qed.

Lemma read_safe other rs t m c s :
  handlers_safe other → Rep t m c s →
  wp (read_client other rs) (λ r s', (r.1 = 0 ∨ r.1 = -1) ∧ ∃ m' c', Rep t m' c' s' ∧ grown c c') s.
Proof.
  intros Ho. revert m c s. induction rs as [|r rs IH]; intros m c s HR; cbn [read_client].
  { apply wp_ret. split; [by left|by exists m, c]. }
  destruct r as [b| | | |].
  2, 5: apply wp_ret; split; [by right|by exists m, c].
  2: apply wp_ret; split; [by left|by exists m, c].
  2: by eapply IH.
  apply wp_bind. eapply wp_mono; [by apply Rep_set_input|]. intros [] s1 HR1.
  apply wp_bind. unfold wp at 1, gets. case_if; [apply wp_ret; split; [by right|]; eexists _, _; split; [exact HR1|by split]|].
  apply wp_bind. eapply wp_mono; [eapply (drain_safe other t); [done|exact HR1|by rewrite (proj1 (proj2 HR1))]|].
  intros r s2 (Hr & m2 & c2 & HR2 & Hg2). destruct r as [rc|]; [apply wp_ret; split; [set_solver|by exists m2, c2]|].
  eapply wp_mono; [by eapply IH|]. intros r s3 (Hr3 & m3 & c3 & HR3 & Hg3). split; [done|]. exists m3, c3. split; [done|].
  etrans; [exact Hg2|exact Hg3].
Qed.

(** No input from the network, well-formed or not, in packets of any sizes, with
    any errors of the socket, makes the server misbehave: [read_client] ends without
    undefined behaviour, with result 0 or -1, leaves a well-formed store, and what it
    did to the output is to append to it. *)
Theorem read_client_safe (rs : list recv_result) (t : Z) (m : keyspace) (c : client) (s : state) :
  Rep t m c s →
  ∃ rc left_ s' m' c', read_client persistence rs s = Some ((rc, left_), s') ∧ (rc = 0 ∨ rc = -1) ∧ Rep t m' c' s' ∧
    c_out_sent c' = c_out_sent c ∧ c_out c `prefix_of` c_out c'.
Proof.
  intros HR. destruct (wp_run _ _ _ (read_safe persistence rs t m c s persistence_safe HR)) as ([rc l] & s' & Hrun & Hrc & m' & c' & HR' & Hg).
  exists rc, l, s', m', c'. by destruct Hg.
Qed.

Lemma read_client_safe_witness :
  ∃ rc left_ s' m' c',
    read_client persistence [Received (bs "*2" ++ crlf ++ bs "garbage" ++ crlf); PeerClosed] start = Some ((rc, left_), s') ∧
    (rc = 0 ∨ rc = -1) ∧ Rep 1000 m' c' s' ∧ c_out_sent c' = 0 ∧ [] `prefix_of` c_out c'.
Proof. exact (read_client_safe _ 1000 ∅ (client_init 3 0) start start_Rep). Defined.

(** ** Output *)

(** The output a client has not been sent yet. *)
Definition pending (c : client) : bytes := drop (Z.to_nat (c_out_sent c)) (c_out c).

Definition out_ok (c : client) : Prop := 0 <= c_out_sent c <= zlen (c_out c).

Lemma pending_sent c k :
  out_ok c → (k <= length (pending c))%nat →
  out_ok (with_output c (c_out c) (c_out_sent c + Z.of_nat k)) ∧
  pending c = take k (pending c) ++ pending (with_output c (c_out c) (c_out_sent c + Z.of_nat k)).
Proof.
  intros Ho Hk. unfold out_ok, pending, with_output, zlen in *. cbn [c_out c_out_sent]. rewrite length_drop in Hk. split; [lia|].
  rewrite Z2Nat.inj_add, Nat2Z.id, <- drop_drop by lia. by rewrite take_drop.
Qed.

(** The client is the same but for its output. *)
Definition same_but_output (c c' : client) : Prop := ∃ out sent, c' = with_output c out sent.

Definition wrote (c : client) (r : Z * client * bytes) : Prop :=
  let '(rc, c', w) := r in
  pending c = w ++ pending c' ∧ out_ok c' ∧ same_but_output c c' ∧ (rc = 0 ∨ rc = -1) ∧
  (rc = 0 → pending c' = [] → c_out c' = [] ∧ c_out_sent c' = 0).

(** The call ends with some output left. *)
Lemma wrote_stuck c rc : out_ok c → c_out_sent c < zlen (c_out c) → rc = 0 ∨ rc = -1 → wrote c (rc, c, []).
Proof.
  intros Ho Hlt Hrc. split; [done|]. split; [done|]. split; [exists (c_out c), (c_out_sent c); by destruct c|].
  split; [done|]. intros _ E. apply (f_equal length) in E. unfold pending, out_ok, zlen in *. rewrite length_drop in E.
  cbn in E. lia.
Qed.

Lemma wrote_all c : out_ok c → zlen (c_out c) <= c_out_sent c → wrote c (0, with_output c [] 0, []).
Proof.
  intros Ho Hge. split; [unfold pending; rewrite drop_ge by (unfold out_ok, zlen in *; lia); done|].
  split; [unfold out_ok, zlen; cbn; lia|]. split; [by exists [], 0|]. split; [by left|done].
Qed.

Lemma write_client_spec ss c : out_ok c → wrote c (write_client ss c).
Proof.
  revert c. induction ss as [|r ss IH]; intros c Ho; cbn [write_client];
    destruct (Z.ltb_spec (c_out_sent c) (zlen (c_out c))) as [Hlt|Hge]; [..|by apply wrote_all].
  1, 2: first [apply wrote_all; done | apply wrote_stuck; auto].
  destruct r as [n| | | |]; [|apply wrote_stuck; auto..| |]; [|by apply IH|apply wrote_stuck; auto].
  fold (pending c). set (k := Nat.min (S n) (length (pending c))).
  destruct (pending_sent c k Ho ltac:(lia)) as [Ho' Hp]. specialize (IH _ Ho').
  destruct (write_client ss _) as [[rc c'] w]. destruct IH as (Hp' & Ho2 & (out & sent & Hs) & Hrc & Hdone).
  rewrite Hp' in Hp. rewrite app_assoc in Hp. do 2 (split; [done|]). split; [by exists out, sent|]. done.
Qed.

(** C16: nothing a client is owed is lost, repeated or reordered: whatever the socket
    accepts and wherever it fails, the bytes handed to it followed by the output
    still pending are the output that was pending; and when the call succeeds with
    nothing left, the buffer is empty again. *)
Theorem write_client_no_loss (ss : list send_result) (c : client) :
  0 <= c_out_sent c <= zlen (c_out c) →
  let '(rc, c', w) := write_client ss c in
  pending c = w ++ pending c' ∧ 0 <= c_out_sent c' <= zlen (c_out c') ∧ (rc = 0 ∨ rc = -1) ∧
  (rc = 0 → pending c' = [] → c_out c' = [] ∧ c_out_sent c' = 0).
Proof.
  intros Ho. pose proof (write_client_spec ss c Ho) as H. destruct (write_client ss c) as [[rc c'] w].
  destruct H as (H1 & H2 & _ & H3 & H4). done.
Qed.

Lemma write_client_no_loss_witness :
  let c := with_output (client_init 3 0) (bs "+OK" ++ crlf) 1 in
  write_client [Sent 0; SendInterrupted; Sent 1; SendWouldBlock] c = (0, with_output c (bs "+OK" ++ crlf) 4, bs "OK" ++ [CR]) ∧
  pending c = (bs "OK" ++ [CR]) ++ [LF].
Proof.
  intros c. assert (0 <= c_out_sent c <= zlen (c_out c)) as Ho by (vm_compute; split; congruence).
  pose proof (write_client_no_loss [Sent 0; SendInterrupted; Sent 1; SendWouldBlock] c Ho) as H.
  assert (write_client [Sent 0; SendInterrupted; Sent 1; SendWouldBlock] c
    = (0, with_output c (bs "+OK" ++ crlf) 4, bs "OK" ++ [CR])) as E by (vm_compute; reflexivity).
  split; [exact E|]. rewrite E in H. exact (proj1 H).
Defined.

(** ** The table of clients *)

Lemma compact_clients_spec cs : compact_clients cs = filter (λ c, c_closing c = false) cs.
Proof.
  induction cs as [|c cs IH]; [done|]. cbn [compact_clients]. rewrite filter_cons, IH. destruct (c_closing c).
  - by rewrite decide_False.
  - by rewrite decide_True.
Qed.

(** The array has room for the clients, of which there are at most [MAX_CLIENTS]. *)
Definition table_fits (cs : list client) (cap : nat) : Prop := (length cs <= MAX_CLIENTS)%nat ∧ (length cs <= cap)%nat.

Lemma accept_clients_spec ep rs : ∀ cs cap,
  table_fits cs cap →
  let '(cs', cap', refused) := accept_clients ep cs cap rs in
  table_fits cs' cap' ∧ ∃ new, cs' = cs ++ new ∧
    Forall (λ c, c_in c = [] ∧ c_out c = [] ∧ c_out_sent c = 0 ∧ (ep = false → c_fd c < FD_SETSIZE)) new ∧
    (length new + length refused <= length rs)%nat.
Proof.
  induction rs as [|r rs IH]; intros cs cap Hf; cbn [accept_clients].
  { split; [done|]. exists []. rewrite app_nil_r. split; [done|]. split; [constructor|cbn; lia]. }
  assert (table_fits cs cap ∧ ∃ new, cs = cs ++ new ∧
    Forall (λ c, c_in c = [] ∧ c_out c = [] ∧ c_out_sent c = 0 ∧ (ep = false → c_fd c < FD_SETSIZE)) new ∧
    (length new + length (@nil Z) <= length (r :: rs))%nat) as Hstop.
  { split; [done|]. exists []. rewrite app_nil_r. split; [done|]. split; [constructor|cbn; lia]. }
  destruct r as [fd added garbage| | |]; [| done | | done]; clear Hstop.
  - assert (let '(cs', cap', refused) := (let '(cs, cap, refused) := accept_clients ep cs cap rs in (cs, cap, fd :: refused)) in
      table_fits cs' cap' ∧ ∃ new, cs' = cs ++ new ∧
        Forall (λ c, c_in c = [] ∧ c_out c = [] ∧ c_out_sent c = 0 ∧ (ep = false → c_fd c < FD_SETSIZE)) new ∧
        (length new + length refused <= length (Accepted fd added garbage :: rs))%nat) as Hrefuse.
    { specialize (IH cs cap Hf). destruct (accept_clients ep cs cap rs) as [[cs' cap'] refused].
      destruct IH as (Hf' & new & -> & Hn & Hl). split; [done|]. exists new. split; [done|]. split; [done|]. cbn. lia. }
    destruct (negb ep && (fd >=? FD_SETSIZE)) eqn:Efd; [exact Hrefuse|].
    destruct (MAX_CLIENTS <=? length cs)%nat eqn:Emax; [exact Hrefuse|]. clear Hrefuse. apply Nat.leb_gt in Emax.
    set (cap1 := if (length cs =? cap)%nat then _ else cap).
    set (c := if ep then _ else client_init fd garbage).
    assert (table_fits (cs ++ [c]) cap1) as Hf1.
    { destruct Hf as [_ Hcap]. split; rewrite length_app; cbn [length]; [lia|]. subst cap1.
      destruct (Nat.eqb_spec (length cs) cap); [|lia]. destruct (Nat.eqb_spec cap 0); lia. }
    specialize (IH (cs ++ [c]) cap1 Hf1). destruct (accept_clients ep (cs ++ [c]) cap1 rs) as [[cs' cap'] refused].
    destruct IH as (Hf' & new & -> & Hn & Hl). split; [done|]. exists (c :: new). rewrite <- app_assoc. split; [done|].
    split; [|cbn in *; lia]. constructor; [|done].
    assert (c_fd c = fd ∧ c_in c = [] ∧ c_out c = [] ∧ c_out_sent c = 0) as (-> & -> & -> & ->) by (subst c; destruct ep, added; done).
    repeat split. intros ->. rewrite Z.geb_leb in Efd. apply Z.leb_gt in Efd. done.
  - specialize (IH cs cap Hf). destruct (accept_clients ep cs cap rs) as [[cs' cap'] refused].
    destruct IH as (Hf' & new & -> & Hn & Hl). split; [done|]. exists new. split; [done|]. split; [done|]. cbn. lia.
Qed.
