(* ===== verification/Loop.v ===== *)
(** * The event loop ([src/server.c])

    One turn of the epoll loop and of the select loop over a table of clients:
    events are served in order, closed clients are removed, expired keys collected,
    the log flushed, and finished children reaped, which ends a background rewrite of
    the log.  The results of the system calls are inputs. *)

From S2P Require Import Prelude Disk Util Dict CList Zskiplist Object Machine DbCore.
From S2P Require Import DbString DbList DbHash DbSet DbZset Resp Aof Dispatch Session ExpireCycle Frame Replay Rdb AofRewrite Persist Server.
Import Num.

(** ** Events *)

(** What is ready on a client's socket, and the results of the calls made for it:
    [recv], [send], the [send]s of the final flush, and [epoll_ctl]. *)
Record io_event := IoEvent {
  ev_in : bool;
  ev_out : bool;
  ev_err : bool;
  ev_recv : list recv_result;
  ev_send : list send_result;
  ev_flush : list send_result;
  ev_ctl_read : bool;
  ev_ctl_write : bool;
}.

(** "Best-effort flush of a final reply". *)
Definition final_flush (ss : list send_result) (c : client) : client * bytes :=
  if c_closing c && (c_out_sent c <? zlen (c_out c))
  then let '(_, c, w) := write_client ss c in (c, w)
  else (c, []).

Section Loop.
Context (other : string → command → M unit).

(** [read_client(c, store)] for a client of the table. *)
Definition read_from (c : client) (rs : list recv_result) : M (Z * client) :=
  _ ← put_client c;
  '(rc, _) ← read_client other rs;
  c ← gets st_client;
  mret (rc, c).

(** One event of the epoll loop; the bytes sent are returned too. *)
Definition epoll_client (ev : io_event) (c : client) : M (client * bytes) :=
  if c_closing c then mret (c, []) else
  if ev_err ev && negb (ev_in ev) then mret (closing c, []) else
  c ← (if ev_in ev then
         '(rc, c) ← read_from c (ev_recv ev);
         mret (if rc <? 0 then closing c else client_update_epoll (ev_ctl_read ev) c)
       else mret c);
  let '(c, w) :=
    if negb (c_closing c) && ev_out ev then
      let '(rc, c, w) := write_client (ev_send ev) c in
      (if rc <? 0 then closing c else client_update_epoll (ev_ctl_write ev) c, w)
    else (c, []) in
  let '(c, w') := final_flush (ev_flush ev) c in
  mret (c, w ++ w').

(** The same for the select loop. *)
Definition select_client (ev : io_event) (c : client) : M (client * bytes) :=
  if c_closing c then mret (c, []) else
  c ← (if ev_in ev then
         '(rc, c) ← read_from c (ev_recv ev);
         mret (if rc <? 0 then closing c else c)
       else mret c);
  let '(c, w) :=
    if negb (c_closing c) && ev_out ev then
      let '(rc, c, w) := write_client (ev_send ev) c in (if rc <? 0 then closing c else c, w)
    else (c, []) in
  let '(c, w') := final_flush (ev_flush ev) c in
  mret (c, w ++ w').

(** An event of [epoll_wait]: the listening socket, or the client at an index of the
    table. *)
Inductive loop_event :=
| NewConnections (rs : list accept_result)
| ClientReady (i : nat) (ev : io_event).

Fixpoint serve_events (evs : list loop_event) (cs : list client) (cap : nat) :
    M (list client * nat * list (Z * bytes)) :=
  match evs with
  | [] => mret (cs, cap, [])
  | NewConnections rs :: evs =>
      let '(cs, cap, _) := accept_clients true cs cap rs in serve_events evs cs cap
  | ClientReady i ev :: evs =>
      c ← lift (cs !! i);
      '(c, w) ← epoll_client ev c;
      '(cs, cap, ws) ← serve_events evs (<[i := c]> cs) cap;
      mret (cs, cap, (c_fd c, w) :: ws)
  end.

(** [for (i = 0; i < nclients; i++)] of the select loop; clients without an event are
    not ready. *)
Fixpoint select_clients (evs : list io_event) (cs : list client) : M (list client * list (Z * bytes)) :=
  match cs, evs with
  | c :: cs, ev :: evs =>
      '(c, w) ← select_client ev c;
      '(cs, ws) ← select_clients evs cs;
      mret (c :: cs, (c_fd c, w) :: ws)
  | c :: cs, [] =>
      '(cs, ws) ← select_clients [] cs;
      mret (c :: cs, ws)
  | [], _ => mret ([], [])
  end.

Record loop := LoopState {
  lp_clients : list client;
  lp_cap : nat;
  lp_sigchld : bool;
}.

(** The end of every turn. *)
Definition housekeeping (cs : list client) (cap : nat) (sigchld : bool) : M loop :=
  let cs := compact_clients cs in
  _ ← db_expire_cycle;
  _ ← aof_periodic;
  sigchld ← reap_children sigchld;
  mret (LoopState cs cap sigchld).

Definition epoll_turn (evs : list loop_event) (lp : loop) : M (loop * list (Z * bytes)) :=
  '(cs, cap, ws) ← serve_events evs (lp_clients lp) (lp_cap lp);
  lp ← housekeeping cs cap (lp_sigchld lp);
  mret (lp, ws).

Definition select_turn (listening : option (list accept_result)) (evs : list io_event)
    (lp : loop) : M (loop * list (Z * bytes)) :=
  let '(cs, cap) :=
    match listening with
    | Some rs => let '(cs, cap, _) := accept_clients false (lp_clients lp) (lp_cap lp) rs in (cs, cap)
    | None => (lp_clients lp, lp_cap lp)
    end in
  '(cs, ws) ← select_clients evs cs;
  lp ← housekeeping cs cap (lp_sigchld lp);
  mret (lp, ws).

End Loop.

(** ** A turn is safe *)

Lemma out_ok_grown c c' : grown c c' → out_ok c → out_ok c'.
Proof. intros [E [l Hl]] Ho. unfold out_ok, zlen in *. rewrite E, Hl, length_app. lia. Qed.

Lemma out_ok_closing c : out_ok c → out_ok (closing c).
Proof. done. Qed.

Lemma out_ok_update b c : out_ok c → out_ok (client_update_epoll b c).
Proof. intros Ho. unfold client_update_epoll. repeat case_match; done. Qed.

Lemma out_ok_write ss c rc c' w : out_ok c → write_client ss c = (rc, c', w) → out_ok c'.
Proof. intros Ho E. pose proof (write_client_spec ss c Ho) as H. rewrite E in H. apply H. Qed.

Lemma out_ok_flush ss c c' w : out_ok c → final_flush ss c = (c', w) → out_ok c'.
Proof.
  intros Ho. unfold final_flush. case_match; [|by intros [= <- _]].
  destruct (write_client ss c) as [[rc c1] w1] eqn:E. intros [= <- _]. by eapply out_ok_write.
Qed.

Create HintDb out_ok.
#[local] Hint Resolve out_ok_grown out_ok_closing out_ok_update out_ok_write out_ok_flush : out_ok.

Section Safe.
Context (other : string → command → M unit) (Hother : handlers_safe other) (t : Z).

(** The store is well formed. *)
Definition store_ok (s : state) : Prop := ∃ m c, Rep t m c s.

Lemma wp_read_from c rs s :
  store_ok s → out_ok c → wp (read_from other c rs) (λ r s', store_ok s' ∧ out_ok r.2) s.
Proof.
  intros (m & c0 & Hw & _ & Hks) Ho. unfold read_from. apply wp_bind. unfold wp at 1, put_client, modify.
  apply wp_bind. eapply wp_mono; [apply (read_safe other rs t m c); [done|split; [exact Hw|by split]]|].
  intros [rc l] s1 (_ & m1 & c1 & HR1 & Hg). apply wp_bind. unfold wp at 1, gets. apply wp_ret.
  split; [by exists m1, c1|]. cbn. rewrite (proj1 (proj2 HR1)). by eapply out_ok_grown.
Qed.

Lemma wp_epoll_client ev c s :
  store_ok s → out_ok c → wp (epoll_client other ev c) (λ r s', store_ok s' ∧ out_ok r.1) s.
Proof.
  intros Hs Ho. unfold epoll_client. destruct (c_closing c); [by apply wp_ret|].
  destruct (ev_err ev && negb (ev_in ev)); [by apply wp_ret|]. apply wp_bind.
  apply (wp_mono _ (λ c' s', store_ok s' ∧ out_ok c')).
  - destruct (ev_in ev); [|by apply wp_ret]. apply wp_bind. eapply wp_mono; [by apply wp_read_from|].
    intros [rc c1] s1 [Hs1 Ho1]. apply wp_ret. split; [done|]. destruct (rc <? 0); eauto with out_ok.
  - intros c1 s1 [Hs1 Ho1]. destruct (if negb (c_closing c1) && ev_out ev then _ else _) as [c2 w] eqn:E.
    assert (out_ok c2) as Ho2.
    { destruct (negb (c_closing c1) && ev_out ev); [|by injection E as <- _].
      destruct (write_client (ev_send ev) c1) as [[rc c3] w3] eqn:E3. injection E as <- _.
      destruct (rc <? 0); eauto with out_ok. }
    destruct (final_flush (ev_flush ev) c2) as [c3 w3] eqn:E3. apply wp_ret. eauto with out_ok.
Qed.

Lemma wp_select_client ev c s :
  store_ok s → out_ok c → wp (select_client other ev c) (λ r s', store_ok s' ∧ out_ok r.1) s.
Proof.
  intros Hs Ho. unfold select_client. destruct (c_closing c); [by apply wp_ret|]. apply wp_bind.
  apply (wp_mono _ (λ c' s', store_ok s' ∧ out_ok c')).
  - destruct (ev_in ev); [|by apply wp_ret]. apply wp_bind. eapply wp_mono; [by apply wp_read_from|].
    intros [rc c1] s1 [Hs1 Ho1]. apply wp_ret. split; [done|]. destruct (rc <? 0); eauto with out_ok.
  - intros c1 s1 [Hs1 Ho1]. destruct (if negb (c_closing c1) && ev_out ev then _ else _) as [c2 w] eqn:E.
    assert (out_ok c2) as Ho2.
    { destruct (negb (c_closing c1) && ev_out ev); [|by injection E as <- _].
      destruct (write_client (ev_send ev) c1) as [[rc c3] w3] eqn:E3. injection E as <- _.
      destruct (rc <? 0); eauto with out_ok. }
    destruct (final_flush (ev_flush ev) c2) as [c3 w3] eqn:E3. apply wp_ret. eauto with out_ok.
Qed.

Lemma accept_ok ep cs cap rs cs' cap' refused :
  accept_clients ep cs cap rs = (cs', cap', refused) → table_fits cs cap → Forall out_ok cs →
  table_fits cs' cap' ∧ Forall out_ok cs' ∧ (length cs <= length cs')%nat.
Proof.
  intros E Hf Ho. pose proof (accept_clients_spec ep rs cs cap Hf) as H. rewrite E in H.
  destruct H as (Hf' & new & -> & Hn & _). split; [done|]. split; [|rewrite length_app; lia].
  apply Forall_app. split; [done|]. eapply Forall_impl; [done|]. intros c (_ & Hout & Hsent & _).
  unfold out_ok, zlen. rewrite Hout, Hsent. cbn. lia.
Qed.

(** The clients named by the events are in the table. *)
Definition events_in (n : nat) (evs : list loop_event) : Prop :=
  Forall (λ ev, match ev with ClientReady i _ => (i < n)%nat | NewConnections _ => True end) evs.

Lemma events_in_mono n n' evs : (n <= n')%nat → events_in n evs → events_in n' evs.
Proof. intros Hn H. eapply Forall_impl; [exact H|]. intros []; [done|lia]. Qed.

Lemma wp_serve_events evs : ∀ cs cap s,
  store_ok s → table_fits cs cap → Forall out_ok cs → events_in (length cs) evs →
  wp (serve_events other evs cs cap) (λ r s', let '(cs', cap', _) := r in
    store_ok s' ∧ table_fits cs' cap' ∧ Forall out_ok cs') s.
Proof.
  induction evs as [|[rs|i ev] evs IH]; intros cs cap s Hs Hf Ho Hi; cbn [serve_events].
  - by apply wp_ret.
  - apply Forall_cons in Hi as [_ Hi]. destruct (accept_clients true cs cap rs) as [[cs' cap'] refused] eqn:E.
    destruct (accept_ok _ _ _ _ _ _ _ E Hf Ho) as (Hf' & Ho' & Hl). apply IH; try done. by eapply events_in_mono.
  - apply Forall_cons in Hi as [Hlt Hi]. destruct (lookup_lt_is_Some_2 _ _ Hlt) as [c Hc]. apply wp_bind.
    eapply wp_lift; [exact Hc|]. apply wp_bind. eapply wp_mono.
    { apply wp_epoll_client; [done|]. by eapply Forall_lookup_1. }
    intros [c' w] s1 [Hs1 Ho1]. apply wp_bind. eapply wp_mono.
    { apply (IH (<[i := c']> cs) cap); [done|..].
      - unfold table_fits. by rewrite length_insert.
      - by apply Forall_insert.
      - by rewrite length_insert. }
    intros [[cs' cap'] ws] s2 H. by apply wp_ret.
Qed.

Lemma wp_select_clients cs : ∀ evs s,
  store_ok s → Forall out_ok cs →
  wp (select_clients other evs cs) (λ r s', store_ok s' ∧ Forall out_ok r.1 ∧ length r.1 = length cs) s.
Proof.
  induction cs as [|c cs IH]; intros evs s Hs Ho; [destruct evs; by apply wp_ret|].
  apply Forall_cons in Ho as [Hc Ho]. destruct evs as [|ev evs]; cbn [select_clients]; apply wp_bind.
  - eapply wp_mono; [by apply IH|]. intros [cs' ws] s' (Hs' & Ho' & Hl). apply wp_ret. cbn in *. split; [done|].
    split; [by constructor|by rewrite Hl].
  - eapply wp_mono; [by apply wp_select_client|]. intros [c' w] s1 [Hs1 Ho1]. apply wp_bind.
    eapply wp_mono; [by apply IH|]. intros [cs' ws] s' (Hs' & Ho' & Hl). apply wp_ret. cbn in *. split; [done|].
    split; [by constructor|by rewrite Hl].
Qed.
End Safe.

(** ** Housekeeping *)

Lemma wp_housekeeping t m c s cs cap sigchld :
  Rep t m c s →
  wp (housekeeping cs cap sigchld) (λ lp s', Rep t m c s' ∧ lp_clients lp = compact_clients cs ∧ lp_cap lp = cap) s.
Proof.
  intros HR. unfold housekeeping. apply wp_bind. eapply wp_mono; [by apply wp_expire_cycle|]. intros [] s1 [HR1 _].
  apply wp_bind. eapply wp_mono; [apply (wp_calmly _ _ _ _ _ calmly_aof_periodic HR1)|]. intros [] s2 HR2.
  apply wp_bind. eapply wp_mono; [apply (wp_calmly _ _ _ _ _ (calmly_reap sigchld) HR2)|]. intros b s3 HR3. by apply wp_ret.
Qed.

(** Between two turns: the table within its bounds, and every client open, with no more
    output marked as sent than there is. *)
Definition loop_ok (lp : loop) : Prop :=
  table_fits (lp_clients lp) (lp_cap lp) ∧ Forall (λ c, out_ok c ∧ c_closing c = false) (lp_clients lp).

Lemma loop_ok_compact cs cap b :
  table_fits cs cap → Forall out_ok cs → loop_ok (LoopState (compact_clients cs) cap b).
Proof.
  intros [H1 H2] Ho. unfold loop_ok, table_fits. cbn [lp_clients lp_cap]. rewrite compact_clients_spec.
  pose proof (length_filter (λ c, c_closing c = false) cs). split; [lia|].
  rewrite Forall_forall in *. intros c [Hc Hin]%list_elem_of_filter. auto.
Qed.

Lemma wp_turn_end t s cs cap sigchld (ws : list (Z * bytes)) :
  store_ok t s → table_fits cs cap → Forall out_ok cs →
  wp (lp ← housekeeping cs cap sigchld; mret (lp, ws)) (λ res s', loop_ok res.1 ∧ store_ok t s') s.
Proof.
  intros (m & c & HR) Hf Ho. apply wp_bind. eapply wp_mono; [by apply wp_housekeeping|].
  intros [cs' cap' b] s' (HR' & E1 & E2). cbn in E1, E2. subst. apply wp_ret. split; [by apply loop_ok_compact|by exists m, c].
Qed.

Lemma wp_epoll_turn t lp s evs :
  store_ok t s → loop_ok lp → events_in (length (lp_clients lp)) evs →
  wp (epoll_turn persistence evs lp) (λ res s', loop_ok res.1 ∧ store_ok t s') s.
Proof.
  intros Hs [Hf Ho0] Hi. pose proof persistence_safe as Hh.
  assert (Forall out_ok (lp_clients lp)) as Ho by (eapply Forall_impl; [done|]; by intros c0 [? _]).
  unfold epoll_turn. apply wp_bind. eapply wp_mono; [by apply wp_serve_events|].
  intros [[cs cap] ws] s1 (Hs1 & Hf1 & Ho1). by apply wp_turn_end.
Qed.

Lemma wp_select_turn t lp s listening evs :
  store_ok t s → loop_ok lp → wp (select_turn persistence listening evs lp) (λ res s', loop_ok res.1 ∧ store_ok t s') s.
Proof.
  intros Hs [Hf Ho0]. pose proof persistence_safe as Hh.
  assert (Forall out_ok (lp_clients lp)) as Ho by (eapply Forall_impl; [done|]; by intros c0 [? _]).
  unfold select_turn. destruct (match listening with Some _ => _ | None => _ end) as [cs cap] eqn:E.
  assert (table_fits cs cap ∧ Forall out_ok cs) as [Hf1 Ho1].
  { destruct listening as [rs|]; [|by injection E as <- <-].
    destruct (accept_clients false (lp_clients lp) (lp_cap lp) rs) as [[cs1 cap1] refused] eqn:E1. injection E as <- <-.
    by destruct (accept_ok _ _ _ _ _ _ _ E1 Hf Ho) as (? & ? & _). }
  apply wp_bind. eapply wp_mono; [by apply wp_select_clients|].
  intros [cs2 ws] s1 (Hs1 & Ho2 & Hl2). cbn [fst] in *. apply wp_turn_end; [done| |done]. unfold table_fits in *. by rewrite Hl2.
Qed.


