(* ===== verification/Startup.v ===== *)
(** * The server as a whole ([server_run] of [src/server.c])

    Start (listening socket, log, snapshot, replay), the turns of the event loop until
    a signal, and shutdown.  The theorems: the whole run is free of undefined behaviour
    whatever the files hold, whatever clients send and whichever calls fail; and what a
    restart recovers: all of it from a snapshot or from the log, and too much from
    both. *)

From Stdlib Require Import Floats.SpecFloat.
From S2P Require Import Prelude Disk Util Dict CList Zskiplist Object Machine DbCore.
From S2P Require Import DbString DbList DbHash DbSet DbZset Resp Aof Dispatch Session ExpireCycle Frame Replay Rdb RdbLoad RdbSave AofRewrite.
From S2P Require Import Persist Rewriting Server Loop.
Import Num.

(** ** The listening socket *)

(** The results of the calls; [inet_pton] decides whether an address is well formed, and
    [bind] depends on address and port. *)
Record listen_calls := ListenCalls {
  lc_socket : Z;
  lc_pton : bytes → bool;
  lc_bind : bytes → Z → bool;
  lc_listen : bool;
  lc_nonblock : bool;
}.

Definition create_listener (k : listen_calls) (host : bytes) (port : Z) : Z :=
  let fd := lc_socket k in
  if fd <? 0 then -1 else
  if negb (bool_decide (host = bs "*")) && negb (bool_decide (host = bs "0.0.0.0")) && negb (lc_pton k host) then -1 else
  if negb (lc_bind k host port) then -1 else
  if negb (lc_listen k) then -1 else
  if negb (lc_nonblock k) then -1 else fd.

(** ** Start *)

Definition set_server_start (g : globals) (t : Z) : globals :=
  Globals t (g_aof_fd g) (g_aof_replaying g) (g_aof_rewriting g) (g_aof_file g) (g_rewrite_buf g)
    (g_aof_last_fsync_ms g) (g_aof_path g) (g_rdb_path g) (g_aof_linked g).

(** What reading a file delivers; [ok] is [false] when [fopen] or [fread] fail. *)
Definition read_file (ok : bool) (path : bytes) : M (option bytes) :=
  gets (λ s, if ok then files_now s !! cstr path else None).

(** [access(path, F_OK) == 0] *)
Definition file_exists (path : bytes) : M bool := gets (λ s, is_some (files_now s !! cstr path)).

(** The persistence set-up: the log is opened, the snapshot loaded, the log replayed;
    [false] when the log cannot be opened. *)
Definition load_files (rdb_ok aof_ok : bool) (garbage : Z) : M bool :=
  g ← gets st_globals;
  opened ← (match g_aof_path g with
            | Some p => f ← aof_open p; _ ← assign_log f; mret (0 <=? f.1)
            | None => mret true
            end);
  if negb opened then mret false else
  _ ← (match g_rdb_path g with
       | Some r =>
           there ← file_exists r;
           if (there : bool) then
             f ← read_file rdb_ok r;
             _ ← rdb_load (match f with Some b => Contents b | None => CannotOpen end); mret tt
           else mret tt
       | None => mret tt
       end);
  _ ← (match g_aof_path g with
       | Some p =>
           there ← file_exists p;
           if (there : bool) then
             f ← read_file aof_ok p;
             _ ← aof_replay persistence f garbage; mret tt
           else mret tt
       | None => mret tt
       end);
  mret true.

(** ** The loop *)

(** What happens until the next wait returns: the clock, children that end (with the
    fate of their calls), and what the wait reports. *)
Inductive wait_result (E : Type) := Interrupted | WaitFailed | Ready (events : E).
Arguments Interrupted {_}.
Arguments WaitFailed {_}.
Arguments Ready {_}.

Record tick (E : Type) := Tick {
  tk_time : Z;
  tk_children : list (nat * fate * option nat);
  tk_wait : wait_result E;
}.
Arguments Tick {_}.
Arguments tk_time {_}.
Arguments tk_children {_}.
Arguments tk_wait {_}.

(** Children run; the signal of one that ended sets [g_sigchld]. *)
Fixpoint run_children (l : list (nat * fate * option nat)) : M bool :=
  match l with
  | [] => mret false
  | (i, k, left_) :: l =>
      cs ← gets (λ s, children s);
      match cs !! i with
      | Some _ => _ ← run_child i k left_; _ ← run_children l; mret true
      | None => run_children l
      end
  end.

(** [while (!g_stop)]: the ticks end when a signal has set [g_stop]. *)
Fixpoint run_loop {E} (turn : E → loop → M (loop * list (Z * bytes))) (ticks : list (tick E)) (lp : loop) : M loop :=
  match ticks with
  | [] => mret lp
  | tk :: ticks =>
      _ ← modify (at_time (tk_time tk));
      sig ← run_children (tk_children tk);
      let lp := LoopState (lp_clients lp) (lp_cap lp) (lp_sigchld lp || sig) in
      match tk_wait tk with
      | Interrupted => run_loop turn ticks lp
      | WaitFailed => mret lp
      | Ready evs => '(lp, _) ← turn evs lp; run_loop turn ticks lp
      end
  end.

(** The kernel reports events of registered clients only. *)
Definition reported (n : nat) (evs : list loop_event) : list loop_event :=
  List.filter (λ ev, match ev with ClientReady i _ => (i <? n)%nat | NewConnections _ => true end) evs.

Definition no_clients : loop := LoopState [] 0 false.

(** [created] and [added] are the results of [epoll_create] and of registering the
    listening socket. *)
Definition run_loop_epoll (created added : bool) (ticks : list (tick (list loop_event))) : M Z :=
  if negb created then mret 1 else
  if negb added then mret 1 else
  _ ← run_loop (λ evs lp, epoll_turn persistence (reported (length (lp_clients lp)) evs) lp) ticks no_clients;
  mret 0.

Definition run_loop_select (ticks : list (tick (option (list accept_result) * list io_event))) : M Z :=
  _ ← run_loop (λ evs lp, select_turn persistence evs.1 evs.2 lp) ticks no_clients;
  mret 0.

(** ** The whole run *)

(** What is not in the state: the results of the calls before the loop, and what either
    loop meets. *)
Record run_input := RunInput {
  ri_listen : listen_calls;
  ri_rdb_ok : bool;
  ri_aof_ok : bool;
  ri_garbage : Z;
  ri_created : bool;
  ri_added : bool;
  ri_epoll : list (tick (list loop_event));
  ri_select : list (tick (option (list accept_result) * list io_event));
}.

(** [linux] says whether [__linux__] is defined. *)
Definition run_mode (linux : bool) (io_mode : bytes) (k : run_input) : M Z :=
  if linux && bool_decide (io_mode = bs "epoll")
  then run_loop_epoll (ri_created k) (ri_added k) (ri_epoll k)
  else run_loop_select (ri_select k).

(** The snapshot is saved and the log closed. *)
Definition shut_down : M unit :=
  g ← gets st_globals;
  _ ← (match g_rdb_path g with
       | Some r =>
           store ← gets (λ s, db_d (st_db s));
           prog ← lift (rdb_save r store);
           _ ← replace_file (cstr r) prog; mret tt
       | None => mret tt
       end);
  fd ← gets (λ s, g_aof_fd (st_globals s));
  aof_close fd.

Definition server_start (host : bytes) (port : Z) (k : run_input) : M bool :=
  t ← now_ms;
  _ ← modify_globals (λ g, set_server_start g t);
  seed ← random_seed;
  _ ← modify (λ s, set_db s (db_create seed));
  if create_listener (ri_listen k) host port <? 0 then mret false else
  load_files (ri_rdb_ok k) (ri_aof_ok k) (ri_garbage k).

Definition server_run (linux : bool) (host : bytes) (port : Z) (io_mode : bytes) (k : run_input) : M Z :=
  ok ← server_start host port k;
  if negb ok then mret 1 else
  rc ← run_mode linux io_mode k;
  _ ← shut_down;
  mret rc.

(** ** Safety of the parts *)

(** A log of arbitrary bytes. *)
Lemma replay_loop_any t fuel : ∀ b m c s,
  Rep t m c s → (length b <= fuel)%nat → wp (replay_loop persistence fuel b) (λ _ s', ∃ m' c', Rep t m' c' s') s.
Proof.
  induction fuel as [|fuel IH]; intros [|b0 b] m c s HR Hf; cbn [replay_loop]; try (apply wp_ret; by exists m, c).
  { cbn in Hf. lia. }
  destruct (resp_parse_command (b0 :: b)) as [consumed argv] eqn:E. destruct (consumed >? 0) eqn:Ep.
  - apply wp_bind. eapply wp_mono; [apply (dispatch_safe persistence argv t m c s persistence_safe HR)|].
    intros [] s1 (m1 & c1 & HR1 & _). apply wp_bind. unfold wp at 1, reset_fake, modify.
    destruct HR1 as (Hw & <- & Hks). eapply IH.
    + split; [exact Hw|]. split; [reflexivity|exact Hks].
    + rewrite length_drop. rewrite Z.gtb_ltb in Ep. apply Z.ltb_lt in Ep. cbn in *. lia.
  - case_match; apply wp_ret; by exists m, c.
Qed.

Lemma wp_replay_any t m c s f garbage :
  Rep t m c s → wp (aof_replay persistence f garbage) (λ _ s', ∃ m', Rep t m' c s') s.
Proof.
  intros HR. unfold aof_replay. destruct f as [[|b0 b]|]; try (apply wp_ret; by exists m).
  pose proof HR as (Hw & Hc & Hks). apply wp_bind. unfold wp at 1, gets. apply wp_bind. unfold wp at 1, put_client, modify.
  apply wp_bind. unfold wp at 1, set_replaying, modify. apply wp_bind.
  eapply wp_mono; [eapply (replay_loop_any t _ _ m (client_init (-1) garbage)); [|done]|].
  { split; [exact Hw|]. split; [reflexivity|exact Hks]. }
  intros rc s1 (m1 & c1 & Hw1 & _ & Hks1). do 2 apply wp_bind. apply wp_ret. exists m1. split; [exact Hw1|]. split; [exact Hc|exact Hks1].
Qed.

Lemma calmly_run_children l : calmly (run_children l).
Proof.
  induction l as [|[[i k] left_] l IH]; cbn [run_children]; [apply calmly_ret|]. intros s. apply wp_bind. unfold wp at 1, gets.
  destruct (children s !! i) as [ch|] eqn:E; [|apply IH]. apply wp_bind. unfold wp at 1, run_child. rewrite E. cbn [mbind option_bind].
  apply wp_bind. set (s0 := set_sys s _). assert (calm s (run_program (ch_target ch) (ch_prog ch) k left_ s0).2) as Hc.
  { unfold run_program. by destruct (ch_prog ch _) as [[rc d]|d]. }
  eapply wp_mono; [apply IH|]. intros b s2 H2. apply wp_ret. exact (transitivity Hc H2).
Qed.

(** The time of every tick. *)
Fixpoint ticks_from {E} (t0 : Z) (l : list (tick E)) : Prop :=
  match l with [] => True | tk :: l => t0 <= tk_time tk <= INT64_MAX ∧ ticks_from (tk_time tk) l end.

Lemma run_loop_safe {E} (turn : E → loop → M (loop * list (Z * bytes))) ticks :
  (∀ t evs lp s, store_ok t s → loop_ok lp → wp (turn evs lp) (λ res s', loop_ok res.1 ∧ store_ok t s') s) →
  ∀ t lp s, ticks_from t ticks → store_ok t s → loop_ok lp →
  wp (run_loop turn ticks lp) (λ lp' s', loop_ok lp' ∧ ∃ t', store_ok t' s') s.
Proof.
  intros Hturn. induction ticks as [|tk ticks IH]; intros t lp s Ht Hs Hl; cbn [run_loop]; [apply wp_ret; by eauto|].
  destruct Ht as [Ht Hts]. apply wp_bind. unfold wp at 1, modify. destruct Hs as (m & c & HR).
  pose proof (Rep_at_time _ _ _ _ _ HR Ht) as HR1. apply wp_bind. eapply wp_mono; [exact (wp_calmly _ _ _ _ _ (calmly_run_children _) HR1)|].
  intros sig s1 HR2. set (lp' := LoopState _ _ _). assert (loop_ok lp') as Hl' by exact Hl.
  assert (store_ok (tk_time tk) s1) as Hs1 by (eexists _, _; exact HR2). destruct (tk_wait tk) as [| |evs]; [by eapply IH|apply wp_ret; by eauto|].
  apply wp_bind. eapply wp_mono; [by apply Hturn|]. intros [lp2 ws] s2 [Hl2 Hs2]. by eapply IH.
Qed.

Lemma loop_ok_no_clients : loop_ok no_clients.
Proof. split; [|apply Forall_nil_2]. unfold table_fits. cbn. unfold MAX_CLIENTS. lia. Qed.

Lemma reported_in n evs : events_in n (reported n evs).
Proof.
  apply Forall_forall. intros ev Hin%list_elem_of_In. unfold reported in Hin. rewrite filter_In in Hin. destruct Hin as [_ H].
  destruct ev; [done|]. by apply Nat.ltb_lt.
Qed.

(** The times of the ticks of either loop. *)
Definition timed (t : Z) (k : run_input) : Prop := ticks_from t (ri_epoll k) ∧ ticks_from t (ri_select k).

Lemma run_mode_safe linux io_mode k t s :
  timed t k → store_ok t s → wp (run_mode linux io_mode k) (λ rc s', (rc = 0 ∨ rc = 1) ∧ ∃ t', store_ok t' s') s.
Proof.
  intros [Hte Hts] Hs. assert (∀ s', store_ok t s' → wp (mret 1) (λ rc s', (rc = 0 ∨ rc = 1) ∧ ∃ t', store_ok t' s') s') as Hfail.
  { intros s' Hs'. apply wp_ret. split; [by right|by exists t]. }
  unfold run_mode. case_match.
  - unfold run_loop_epoll. destruct (ri_created k); cbn [negb]; [|by apply Hfail]. destruct (ri_added k); cbn [negb]; [|by apply Hfail].
    apply wp_bind. eapply wp_mono; [eapply run_loop_safe; [|done|done|apply loop_ok_no_clients]|].
    + intros t1 evs lp s1 Hs1 Hl. apply wp_epoll_turn; [done|done|apply reported_in].
    + intros lp s1 [_ Hs1]. apply wp_ret. split; [by left|done].
  - unfold run_loop_select. apply wp_bind. eapply wp_mono; [eapply run_loop_safe; [|done|done|apply loop_ok_no_clients]|].
    + intros t1 evs lp s1 Hs1 Hl. by apply wp_select_turn.
    + intros lp s1 [_ Hs1]. apply wp_ret. split; [by left|done].
Qed.

Lemma calmly_aof_close fd : calmly (aof_close fd).
Proof. unfold aof_close. auto with calmly. Qed.

Lemma shut_down_safe t s : store_ok t s → wp shut_down (λ _ s', store_ok t s') s.
Proof.
  intros (m & c & HR). unfold shut_down. apply wp_bind. unfold wp at 1, gets. apply wp_bind.
  apply (wp_mono _ (λ _ s', Rep t m c s')).
  - destruct (g_rdb_path (st_globals s)) as [r|]; [|by apply wp_ret]. apply wp_bind. unfold wp at 1. apply wp_bind.
    pose proof HR as (_ & _ & ks & Hd & _). destruct (rdb_snapshot_defined _ _ Hd) as [b Hb].
    eapply wp_lift; [unfold rdb_save; by rewrite Hb|]. apply wp_bind.
    eapply wp_mono; [eapply wp_calmly; [eapply calmly_replace; apply _|done]|]. intros rc s1 HR1. by apply wp_ret.
  - intros [] s1 HR1. apply wp_bind. unfold wp at 1. eapply wp_mono; [exact (wp_calmly _ _ _ _ _ (calmly_aof_close _) HR1)|].
    intros [] s2 HR2. by exists m, c.
Qed.

(** ** Start-up *)

(** The globals after the log was opened. *)
Definition opened_log (t : Z) (p : bytes) (s : state) (fd : nat) : globals :=
  set_aof_log (set_last_fsync (st_globals s) t) (Z.of_nat fd) (default [] (files_now s !! cstr p)) true.

Lemma wp_open_log t m c p s :
  Rep t m c s → g_aof_linked (st_globals s) = false → g_aof_path (st_globals s) = Some p →
  wp (f ← aof_open p; _ ← assign_log f; mret (0 <=? f.1)) (λ ok s', calm s s' ∧
    match next_open s with
    | Some fd => ok = true ∧ st_globals s' = opened_log t p s fd ∧
        files_now s' = <[cstr p := default [] (files_now s !! cstr p)]> (files_now s)
    | None => ok = false
    end) s.
Proof.
  intros HR Hl Hp. apply (wp_open_new t m c (Some p)); [done|done|]. intros f s' (Hc & _ & H). apply wp_ret. split; [done|].
  destruct (next_open s) as [fd|]; [|by destruct H as (-> & _)]. destruct H as (-> & Hg & Hy). cbn [fst].
  rewrite (proj2 (Z.leb_le _ _)) by lia. split; [done|]. split; [exact Hg|].
  rewrite (files_now_linked s' p) by (by rewrite Hg). rewrite Hy, Hg. cbn. by rewrite insert_insert_eq.
Qed.

(** The snapshot a process finds holds no NaN. *)
Definition snapshot_ok (s : state) : Prop := ∀ r b, g_rdb_path (st_globals s) = Some r → files_now s !! cstr r = Some b → no_nan b = true.

Lemma Rep_loads t m c s s' ks :
  Rep t m c s → loads s s' → db_rep (db_d (st_db s')) ks → Rep t (visible t ks) c s'.
Proof. intros (Hw & Hc & _) (Hc' & _ & _ & Hk & _) Hd. unfold Rep. rewrite Hc', Hk. eauto. Qed.

Lemma wp_load_rdb t m c s r ok :
  Rep t m c s → (∀ b, files_now s !! cstr r = Some b → no_nan b = true) →
  wp (there ← file_exists r;
      if (there : bool) then
        f ← read_file ok r; _ ← rdb_load (match f with Some b => Contents b | None => CannotOpen end); mret tt
      else mret tt) (λ _ s', ∃ m', Rep t m' c s') s.
Proof.
  intros HR Hn. apply wp_bind. unfold wp at 1, file_exists, gets. destruct (is_some _); [|apply wp_ret; by exists m].
  apply wp_bind. unfold wp at 1, read_file, gets. pose proof HR as (_ & _ & ks & Hd & _). apply wp_bind.
  eapply wp_mono; [eapply (wp_rdb_load_any _ s ks); [|exact Hd]|].
  - intros b. destruct ok; [|done]. destruct (files_now s !! cstr r) as [b'|]; [|done]. intros [= <-]. by apply Hn.
  - intros rc s1 (_ & [ks1 Hd1] & Hl). apply wp_ret. eexists. by eapply Rep_loads.
Qed.

Lemma load_files_safe t m c s rdb_ok aof_ok garbage :
  Rep t m c s → g_aof_linked (st_globals s) = false → snapshot_ok s →
  wp (load_files rdb_ok aof_ok garbage) (λ _ s', ∃ m', Rep t m' c s') s.
Proof.
  intros HR Hl Hn. unfold load_files. apply wp_bind. unfold wp at 1, gets. set (g := st_globals s). apply wp_bind.
  apply (wp_mono _ (λ ok s1, Rep t m c s1 ∧ (ok = true → ∀ r b, g_rdb_path g = Some r → files_now s1 !! cstr r = Some b → no_nan b = true))).
  { destruct (g_aof_path g) as [p|] eqn:Hp; [|apply wp_ret; split; [done|]; intros _; apply Hn].
    eapply wp_mono; [by apply (wp_open_log t m c)|]. intros ok s1 [Hc H]. split; [by eapply Rep_calm|]. intros ->.
    destruct (next_open s) as [fd|]; [|done]. destruct H as (_ & _ & Hf). intros r b Hr. rewrite Hf.
    destruct (decide (cstr r = cstr p)) as [E|E]; [|rewrite lookup_insert_ne by done; by apply Hn].
    rewrite E, lookup_insert_eq. intros [= <-]. destruct (files_now s !! cstr p) as [b0|] eqn:E0; [|done].
    apply (Hn r); [done|by rewrite E]. }
  intros ok s1 [HR1 Hn1]. destruct ok; cbn [negb]; [specialize (Hn1 eq_refl)|apply wp_ret; by exists m].
  apply wp_bind. apply (wp_mono _ (λ _ s2, ∃ m', Rep t m' c s2)).
  { destruct (g_rdb_path g) as [r|]; [|apply wp_ret; by exists m]. eapply wp_load_rdb; [done|]. intros b. by apply Hn1. }
  intros [] s2 [m2 HR2]. apply wp_bind. apply (wp_mono _ (λ _ s3, ∃ m', Rep t m' c s3)).
  - destruct (g_aof_path g) as [p|]; [|apply wp_ret; by exists m2]. apply wp_bind. unfold wp at 1, file_exists, gets.
    destruct (is_some _); [|apply wp_ret; by exists m2]. apply wp_bind. unfold wp at 1, read_file, gets. apply wp_bind.
    eapply wp_mono; [by eapply wp_replay_any|]. intros rc s3 [m3 HR3]. apply wp_ret. by exists m3.
  - intros [] s3 [m3 HR3]. apply wp_ret. by exists m3.
Qed.

(** A process that has just been started: nothing open, nothing loaded; the clock stands
    at [t]. *)
Record booting (t : Z) (s : state) : Prop := {
  bt_clock : (∀ n, w_clock (st_world s) n = t) ∧ 0 <= t <= INT64_MAX;
  bt_linked : g_aof_linked (st_globals s) = false;
}.

(** An empty store, before the files are read. *)
Lemma wp_server_start t s host port k (Q : bool → state → Prop) :
  booting t s →
  (∀ s1, Rep t ∅ (st_client s) s1 → db_rep (db_d (st_db s1)) ∅ → g_aof_linked (st_globals s1) = false → st_globals s1 = set_server_start (st_globals s) t →
     w_write (st_world s1) = w_write (st_world s) → w_sys (st_world s1) = w_sys (st_world s) →
     if create_listener (ri_listen k) host port <? 0 then Q false s1
     else wp (load_files (ri_rdb_ok k) (ri_aof_ok k) (ri_garbage k)) Q s1) →
  wp (server_start host port k) Q s.
Proof.
  intros [[Hw Ht] Hl] HQ. unfold server_start. apply wp_bind. unfold wp at 1, now_ms. apply wp_bind.
  unfold wp at 1, modify_globals, modify. apply wp_bind. unfold wp at 1, random_seed. apply wp_bind. unfold wp at 1, modify.
  set (s1 := set_db _ _). assert (db_rep (db_d (st_db s1)) ∅) as Hd by apply db_rep_create.
  assert (Rep t ∅ (st_client s) s1) as HR by (split; [done|]; split; [done|]; exists ∅; split; [done|apply map_filter_empty]).
  specialize (HQ s1 HR Hd). case_match; [apply wp_ret|]; apply HQ; try done; cbn; by rewrite Hw.
Qed.

(** A run of the server never goes wrong, whatever the files hold, whatever clients send
    and whichever calls fail. *)
Lemma server_run_ends (linux : bool) (host : bytes) (port : Z) (io_mode : bytes) (k : run_input) (t : Z) (s : state) :
  booting t s → snapshot_ok s → timed t k →
  ∃ rc s' ks, server_run linux host port io_mode k s = Some (rc, s') ∧ (rc = 0 ∨ rc = 1) ∧ db_rep (db_d (st_db s')) ks.
Proof.
  intros Hb Hn Ht. assert (∀ t rc s', (rc = 0 ∨ rc = 1) → store_ok t s' →
    (rc = 0 ∨ rc = 1) ∧ ∃ ks, db_rep (db_d (st_db s')) ks) as Hdone.
  { intros t' rc s' Hrc (m & c & _ & _ & ks & Hd & _). eauto. }
  assert (wp (server_run linux host port io_mode k) (λ rc s', (rc = 0 ∨ rc = 1) ∧ ∃ ks, db_rep (db_d (st_db s')) ks) s) as H.
  { unfold server_run. apply wp_bind. eapply wp_server_start; [exact Hb|]. intros s1 HR1 Hd1 Hl1 Hg1 _ Hy1.
    assert (store_ok t s1) as Hs1 by (eexists _, _; exact HR1). case_match; cbn [negb].
    { apply wp_ret. eapply Hdone; [by right|exact Hs1]. }
    eapply wp_mono; [apply (load_files_safe t ∅ (st_client s) s1); [done|done|]|].
    { intros r b Hr. unfold files_now. rewrite Hy1. rewrite Hg1 in Hr |- *. cbn in Hr |- *. exact (Hn r b Hr). }
    intros ok s2 [m2 HR2]. assert (store_ok t s2) as Hs2 by (eexists _, _; exact HR2).
    destruct ok; cbn [negb]; [|apply wp_ret; eapply Hdone; [by right|exact Hs2]].
    apply wp_bind. eapply wp_mono; [by apply (run_mode_safe _ _ _ t)|]. intros rc s3 [Hrc [t3 Hs3]].
    apply wp_bind. eapply wp_mono; [by apply shut_down_safe|]. intros [] s4 Hs4. apply wp_ret. by eapply Hdone. }
  destruct (wp_run _ _ _ H) as (rc & s' & E & Hrc & ks & Hd). by exists rc, s', ks.
Qed.

(** ** What a restart recovers *)

(** The snapshot a process finds: none, or that of a store. *)
Definition finds_snapshot (s : state) (ks : keyspace) : Prop :=
  match g_rdb_path (st_globals s) with
  | None => ks = ∅
  | Some r => ∃ d b, db_rep d ks ∧ rdb_keyspace ks ∧ rdb_snapshot d = Some b ∧ files_now s !! cstr r = Some b
  end.

(** The log it finds: none, or a sequence of commands. *)
Definition finds_log (s : state) (cmds : list command) : Prop :=
  match g_aof_path (st_globals s) with
  | None => cmds = []
  | Some p => is_Some (next_open s) ∧ default [] (files_now s !! cstr p) = concat (map resp_encode cmds) ∧
      Forall (loggable persistence) cmds ∧ ∀ r, g_rdb_path (st_globals s) = Some r → cstr r ≠ cstr p
  end.

Lemma files_now_loads s s' : loads s s' → files_now s' = files_now s.
Proof. intros (_ & Hg & _ & _ & _ & Hy). unfold files_now. by rewrite Hg, Hy. Qed.

Lemma wp_load_snapshot t c s ks r :
  Rep t ∅ c s → db_rep (db_d (st_db s)) ∅ →
  (∃ d b, db_rep d ks ∧ rdb_keyspace ks ∧ rdb_snapshot d = Some b ∧ files_now s !! cstr r = Some b) →
  wp (there ← file_exists r;
      if (there : bool) then
        f ← read_file true r; _ ← rdb_load (match f with Some b => Contents b | None => CannotOpen end); mret tt
      else mret tt) (λ _ s', Rep t (visible t ks) c s' ∧ files_now s' = files_now s) s.
Proof.
  intros HR Hd0 (d & b & Hd & Hks & Hb & Hf). apply wp_bind. unfold wp at 1, file_exists, gets. rewrite Hf. cbn [is_some].
  apply wp_bind. unfold wp at 1, read_file, gets. rewrite Hf.
  destruct (snapshot_loads d ks ∅ s Hd Hks Hd0) as (b' & s' & Hb' & E & Hd' & Hl).
  assert (b' = b) by congruence. subst b'. apply wp_bind. unfold wp at 1. rewrite E. apply wp_ret.
  rewrite (right_id_L ∅ (∪)) in Hd'. split; [by eapply Rep_loads|by apply files_now_loads].
Qed.

(** Loading executes the log on top of the snapshot. *)
Lemma load_files_exact t c s ks cmds garbage :
  Rep t ∅ c s → db_rep (db_d (st_db s)) ∅ → g_aof_linked (st_globals s) = false → finds_snapshot s ks → finds_log s cmds →
  wp (load_files true true garbage) (λ ok s', ok = true ∧
    ∃ m rs, session (visible t ks) (map (pair t) cmds) m rs ∧ Rep t m c s') s.
Proof.
  intros HR Hd Hl Hsnap Hlog. unfold load_files. apply wp_bind. unfold wp at 1, gets. unfold finds_snapshot, finds_log in *.
  set (g := st_globals s) in *. apply wp_bind.
  apply (wp_mono _ (λ ok s1, ok = true ∧ Rep t ∅ c s1 ∧ st_db s1 = st_db s ∧
    (∀ r, g_rdb_path g = Some r → files_now s1 !! cstr r = files_now s !! cstr r) ∧
    (∀ p, g_aof_path g = Some p → files_now s1 !! cstr p = Some (concat (map resp_encode cmds))))).
  { destruct (g_aof_path g) as [p|] eqn:Hp.
    - destruct Hlog as ([fd Ho] & Hf & _ & Hne). eapply wp_mono; [by apply (wp_open_log t ∅ c)|]. intros ok s1 [Hc H]. rewrite Ho in H.
      destruct H as (-> & _ & Hf1). split; [done|]. split; [by eapply Rep_calm|]. split; [apply Hc|]. rewrite Hf1. split.
      + intros r Hr. by rewrite lookup_insert_ne by (apply not_eq_sym; auto).
      + intros p' [= <-]. by rewrite lookup_insert_eq, Hf.
    - apply wp_ret. by split_and!. }
  intros ok s1 (-> & HR1 & Hdb1 & Hr1 & Hp1). cbn [negb]. apply wp_bind.
  apply (wp_mono _ (λ _ s2, Rep t (visible t ks) c s2 ∧ files_now s2 = files_now s1)).
  { destruct (g_rdb_path g) as [r|].
    - eapply wp_load_snapshot; [done|by rewrite Hdb1|]. by rewrite (Hr1 r eq_refl).
    - apply wp_ret. subst ks. split; [|done]. unfold visible. by rewrite map_filter_empty. }
  intros [] s2 [HR2 Hf2]. apply wp_bind. destruct (g_aof_path g) as [p|].
  - destruct Hlog as (_ & _ & Hcmds & _). apply wp_bind. unfold wp at 1, file_exists, gets. rewrite Hf2, (Hp1 p eq_refl). cbn [is_some].
    apply wp_bind. unfold wp at 1, read_file, gets. rewrite Hf2, (Hp1 p eq_refl). apply wp_bind.
    rewrite <- (app_nil_r (concat _)). eapply wp_mono; [by apply wp_replay; [|done|apply torn_nil]|].
    intros rc s3 (_ & m & rs & Hse & HR3). apply wp_ret, wp_ret. eauto.
  - subst cmds. apply wp_ret, wp_ret. split; [done|]. exists (visible t ks), []. split; [constructor|done].
Qed.

(** A process started with the files another one left behind. *)
Record restarted (host : bytes) (port : Z) (k : run_input) (t : Z) (old new : state) : Prop := {
  rs_boot : booting t new;
  rs_aof : g_aof_path (st_globals new) = g_aof_path (st_globals old);
  rs_rdb : g_rdb_path (st_globals new) = g_rdb_path (st_globals old);
  rs_files : y_files (w_sys (st_world new)) = files_now old;
  rs_open : g_aof_path (st_globals new) ≠ None → is_Some (next_open new);
  rs_listen : 0 <= create_listener (ri_listen k) host port;
  rs_read : ri_rdb_ok k = true ∧ ri_aof_ok k = true;
}.

Lemma restart_exact host port k t old new ks cmds :
  restarted host port k t old new → finds_snapshot old ks →
  match g_aof_path (st_globals old) with
  | None => cmds = []
  | Some p => default [] (files_now old !! cstr p) = concat (map resp_encode cmds) ∧ Forall (loggable persistence) cmds ∧
      ∀ r, g_rdb_path (st_globals old) = Some r → cstr r ≠ cstr p
  end →
  wp (server_start host port k) (λ ok s', ok = true ∧
    ∃ m rs, session (visible t ks) (map (pair t) cmds) m rs ∧ Rep t m (st_client new) s') new.
Proof.
  intros [Hb Hp Hr Hf Ho Hli [Hok1 Hok2]] Hs Hl. eapply wp_server_start; [exact Hb|]. intros s1 HR1 Hd1 Hl1 Hg1 _ Hy1.
  rewrite (proj2 (Z.ltb_ge _ _)) by done. rewrite Hok1, Hok2.
  assert (files_now s1 = files_now old) as Hfn by (by rewrite files_now_unlinked, Hy1).
  assert (g_aof_path (st_globals s1) = g_aof_path (st_globals old)) as Hp1 by (by rewrite Hg1).
  assert (g_rdb_path (st_globals s1) = g_rdb_path (st_globals old)) as Hr1 by (by rewrite Hg1).
  apply load_files_exact; try done.
  - unfold finds_snapshot in *. by rewrite Hr1, Hfn.
  - unfold finds_log. rewrite Hp1, Hr1, Hfn. destruct (g_aof_path (st_globals old)); [|done].
    split; [|done]. unfold next_open in *. rewrite Hy1. apply Ho. by rewrite Hp.
Qed.

(** Shutting down with a snapshot configured. *)
Lemma shut_down_saves t m c s ks r :
  Rep t m c s → db_rep (db_d (st_db s)) ks → rdb_keyspace ks → g_rdb_path (st_globals s) = Some r → names_apart (st_globals s) →
  good_fate (next_fate s) →
  wp shut_down (λ _ s', finds_snapshot s' ks ∧ g_aof_path (st_globals s') = g_aof_path (st_globals s) ∧
    g_rdb_path (st_globals s') = Some r ∧ ∀ p, p ≠ cstr r → p ≠ tmppath r → files_now s' !! p = files_now s !! p) s.
Proof.
  intros HR Hd Hks Hr Hn Hk. destruct (rdb_snapshot_defined _ _ Hd) as [b Hb]. unfold shut_down. apply wp_bind. unfold wp at 1, gets.
  rewrite Hr. apply wp_bind. apply wp_bind. unfold wp at 1. apply wp_bind. eapply wp_lift; [unfold rdb_save; by rewrite Hb|]. apply wp_bind.
  eapply wp_mono.
  { eapply (wp_replace_file (tmppath r) (cstr r) b); [apply _|apply tmppath_ne|by apply names_apart_rdb]. }
  intros rc s1 (_ & _ & _ & [Hf Ho] & Hg & Hok). rewrite (Hok Hk) in *. destruct Hf as [[_ Hf]|[? _]]; [|lia]. apply wp_ret.
  apply wp_bind. unfold wp at 1. apply (wp_mono _ (λ _ s', files_now s' = files_now s1 ∧
    g_aof_path (st_globals s') = g_aof_path (st_globals s) ∧ g_rdb_path (st_globals s') = Some r)).
  - unfold aof_close. case_match.
    + apply wp_ret. by rewrite Hg.
    + eapply wp_mono; [apply wp_close_log|]. intros [] s2 (_ & _ & _ & Hg2 & Hf2). split; [done|]. by rewrite Hg2, Hg.
  - intros [] s2 (Hf2 & Hp2 & Hr2). unfold finds_snapshot. rewrite Hr2, Hf2. split; [by exists (db_d (st_db s)), b|].
    split; [done|]. by split.
Qed.

(** C10: a clean restart with a snapshot loses nothing.  When a server with a snapshot
    file and no log is shut down, it saves its store; the next server started with the
    same options holds, at any later time, exactly the keys that have not expired by
    then, with their values, types and expirations. *)
Theorem restart_from_snapshot (r : bytes) (s : state) (t0 : Z) (ks : keyspace) (c : client) (t : Z) :
  Rep t0 (visible t0 ks) c s → db_rep (db_d (st_db s)) ks → rdb_keyspace ks → t0 <= t →
  g_rdb_path (st_globals s) = Some r → g_aof_path (st_globals s) = None → good_fate (next_fate s) →
  ∃ s1, shut_down s = Some (tt, s1) ∧
    ∀ host port k new, restarted host port k t s1 new →
      ∃ s2, server_start host port k new = Some (true, s2) ∧ Rep t (visible t (visible t0 ks)) (st_client new) s2.
Proof.
  intros HR Hd Hks Ht Hr Hp Hk. assert (names_apart (st_globals s)) as Hn by (intros q q' Hq; congruence).
  destruct (wp_run _ _ _ (shut_down_saves _ _ _ _ _ _ HR Hd Hks Hr Hn Hk)) as ([] & s1 & E1 & Hs1 & Hp1 & Hr1 & _).
  exists s1. split; [done|]. intros host port k new Hnew.
  destruct (wp_run _ _ _ (restart_exact host port k t s1 new ks [] Hnew Hs1 ltac:(by rewrite Hp1, Hp)))
    as (ok & s2 & E2 & -> & m & rs & Hse & HR2). exists s2. split; [done|]. inversion Hse; subst. by rewrite visible_visible.
Qed.

(** A child that saves a snapshot runs to its end and no call fails. *)
Lemma child_saves i k r b s :
  children s !! i = Some (Child (cstr r) (rdb_replace r b)) → names_apart (st_globals s) → g_rdb_path (st_globals s) = Some r →
  good_fate k →
  wp (run_child i k None) (λ _ s', files_now s' !! cstr r = Some b ∧ g_rdb_path (st_globals s') = Some r ∧
    g_aof_path (st_globals s') = g_aof_path (st_globals s)) s.
Proof.
  intros Hi Hn Hr Hk. unfold wp, run_child. rewrite Hi. cbn [mbind option_bind ch_target ch_prog]. set (s0 := set_sys s _).
  pose proof (run_program_spec _ _ b _ (rdb_replacer r b) (tmppath_ne r) s0 (names_apart_rdb (st_globals s) r Hn Hr) k None) as H.
  pose proof (run_program_ok _ _ b _ (rdb_replacer r b) s0 k Hk) as Hok. destruct (run_program (cstr r) _ k None s0) as [rc s'].
  cbn [fst snd] in *. subst rc. destruct H as (_ & _ & _ & [Hf _] & Hg). destruct Hf as [[_ Hf]|[? _]]; [|lia].
  by rewrite Hg.
Qed.

Lemma dispatch_bgsave s : dispatch_command persistence [bs "BGSAVE"] s = cmd_bgsave [bs "BGSAVE"] s.
Proof. reflexivity. Qed.


(** A process that is started with the log enabled, no log file and no snapshot. *)
Record first_start (p : bytes) (t : Z) (host : bytes) (port : Z) (k : run_input) (s : state) : Prop := {
  fs_boot : booting t s;
  fs_aof : g_aof_path (st_globals s) = Some p;
  fs_rdb : g_rdb_path (st_globals s) = None;
  fs_file : y_files (w_sys (st_world s)) !! cstr p = None;
  fs_open : is_Some (next_open s);
  fs_write : ∀ i, is_Some (w_write (st_world s) i);
  fs_idle : g_aof_replaying (st_globals s) = false ∧ g_aof_rewriting (st_globals s) = false ∧ g_rewrite_buf (st_globals s) = [];
  fs_listen : 0 <= create_listener (ri_listen k) host port;
  fs_read : ri_aof_ok k = true;
}.

Lemma wp_first_start p t host port k s :
  first_start p t host port k s →
  wp (server_start host port k) (λ ok s', ok = true ∧ Rep t ∅ (st_client s) s' ∧ g_rdb_path (st_globals s') = None ∧
    serving p [] [] false s') s.
Proof.
  intros [Hb Hp Hr Hf [fd Ho] Hw (Hre & Hrw & Hbuf) Hli Hok]. eapply wp_server_start; [exact Hb|].
  intros s1 HR1 Hd1 Hl1 Hg1 Hw1 Hy1. rewrite (proj2 (Z.ltb_ge _ _)) by done. unfold load_files. apply wp_bind. unfold wp at 1, gets.
  assert (g_aof_path (st_globals s1) = Some p) as Hp1 by (by rewrite Hg1). assert (g_rdb_path (st_globals s1) = None) as Hr1 by (by rewrite Hg1).
  assert (next_open s1 = Some fd) as Ho1 by (unfold next_open in *; by rewrite Hy1).
  assert (files_now s1 !! cstr p = None) as Hf1 by (by rewrite files_now_unlinked, Hy1).
  rewrite Hp1, Hr1. apply wp_bind. eapply wp_mono; [by apply (wp_open_log t ∅ (st_client s))|]. intros ok s2 [Hc2 H2].
  rewrite Ho1 in H2. destruct H2 as (-> & Hg2 & Hf2). unfold opened_log in Hg2. rewrite Hf1 in Hg2, Hf2. cbn [negb default from_option id] in *.
  apply wp_bind. apply wp_ret. apply wp_bind. apply wp_bind. unfold wp at 1, file_exists, gets. rewrite Hf2, lookup_insert_eq. cbn [is_some].
  apply wp_bind. unfold wp at 1, read_file, gets. rewrite Hf2, lookup_insert_eq, Hok. apply wp_bind. cbn [aof_replay].
  do 3 apply wp_ret. split; [done|]. split; [by eapply Rep_calm|]. split; [by rewrite Hg2|].
  split; [split|..]; rewrite ?Hg2, ?(cm_write _ _ Hc2), ?Hw1, ?Hg1; cbn; try done. lia.
Qed.

(** C3: a crash loses nothing that was logged.  A server is started for the first time
    with a log, executes any session of commands that set no expiry and choose nothing
    at random, and is killed.  The next server started with the same options and the
    files left behind holds exactly the keyspace of the one that was killed. *)
Theorem crash_and_restart (p host : bytes) (port : Z) (k : run_input) (t0 : Z) (s : state) (l : list (Z * command)) :
  first_start p t0 host port k s → times_from t0 l → replayable persistence l →
  ∃ s0 s1 m c,
    server_start host port k s = Some (true, s0) ∧ run_session persistence l s0 = Some (tt, s1) ∧ Rep (end_time t0 l) m c s1 ∧
    ∀ host' port' k' t new, restarted host' port' k' t s1 new →
      ∃ s2, server_start host' port' k' new = Some (true, s2) ∧ Rep t m (st_client new) s2.
Proof.
  intros Hs Ht [Hsup Hdur Hfit]. destruct (wp_run _ _ _ (wp_first_start _ _ _ _ _ _ Hs)) as (ok & s0 & E0 & -> & HR0 & Hr0 & Hsv0).
  destruct (wp_run _ _ _ (session_serving _ l _ _ _ _ _ _ _ _ HR0 Ht Hsup Hsv0)) as ([] & s1 & E1 & m & rs & c & Hse & HR1 & Hsv1 & Hy1).
  exists s0, s1, m, c. do 3 (split; [done|]). intros host' port' k' t new Hnew. cbn [app] in Hsv1. pose proof (serving_file _ _ _ _ _ Hsv1) as Hf1.
  pose proof (sv_path _ _ _ _ _ Hsv1) as Hp1.
  pose proof (conf_session _ _ _ _ _ Hsup E1) as Hcf. unfold conf in Hcf. injection Hcf as _ Hr1 _ _. rewrite Hr0 in Hr1.
  destruct (wp_run _ _ _ (restart_exact host' port' k' t s1 new ∅ (log_commands persistence l) Hnew
    ltac:(unfold finds_snapshot; by rewrite Hr1) ltac:(rewrite Hp1, Hf1, Hr1, <- session_log_commands;
      split; [done|split; [by apply log_commands_loggable|done]])))
    as (ok & s2 & E2 & -> & m2 & rs2 & Hse2 & HR2). exists s2. split; [done|].
  unfold visible in Hse2. rewrite map_filter_empty in Hse2.
  by rewrite <- (session_replayed persistence t l ∅ m rs m2 rs2 timeless_empty Hdur Hse Hse2).
Qed.

(** With both a snapshot and a log, a restart executes the log a second time.  When
    a server whose log holds the commands [cmds] is shut down, its snapshot is the
    outcome of all of them; the next server loads it and then executes the whole log on
    top of it. *)
Theorem restart_applies_log_twice (p r : bytes) (s : state) (t0 : Z) (ks : keyspace) (c : client) (cmds : list command) (t : Z) :
  Rep t0 (visible t0 ks) c s → db_rep (db_d (st_db s)) ks → rdb_keyspace ks → t0 <= t →
  serving p (concat (map resp_encode cmds)) [] false s → Forall (loggable persistence) cmds →
  g_rdb_path (st_globals s) = Some r → names_apart (st_globals s) → cstr p ≠ cstr r → good_fate (next_fate s) →
  ∃ s1, shut_down s = Some (tt, s1) ∧
    ∀ host port k new, restarted host port k t s1 new →
      ∃ s2 m rs, server_start host port k new = Some (true, s2) ∧
        session (visible t (visible t0 ks)) (map (pair t) cmds) m rs ∧ Rep t m (st_client new) s2.
Proof.
  intros HR Hd Hks Ht Hsv Hcmds Hr Hn Hne Hk. pose proof (sv_path _ _ _ _ _ Hsv) as Hp.
  destruct (wp_run _ _ _ (shut_down_saves _ _ _ _ _ _ HR Hd Hks Hr Hn Hk)) as ([] & s1 & E1 & Hs1 & Hp1 & Hr1 & Hf1).
  exists s1. split; [done|]. intros host port k new Hnew.
  assert (files_now s1 !! cstr p = Some (concat (map resp_encode cmds))) as Hf.
  { rewrite Hf1 by (done || by apply (Hn p r)). by eapply serving_file. }
  destruct (wp_run _ _ _ (restart_exact host port k t s1 new ks cmds Hnew Hs1 ltac:(rewrite Hp1, Hp, Hf, Hr1; split; [done|];
    split; [done|]; intros r' [= <-]; by apply not_eq_sym))) as (ok & s2 & E2 & -> & m & rs & Hse & HR2).
  exists s2, m, rs. rewrite visible_visible by done. done.
Qed.

(** ** Concrete runs *)

(** A process started with given files and options; every call succeeds. *)
Definition process (t : Z) (files : gmap bytes bytes) (aof rdb : option bytes) : state :=
  State (Db (dict_create []) 0) (client_init (-1) 0)
    (World (λ _, t) 0 (λ _, 0) 0 (λ _, replicate 16 NUL) 0 (λ _, Some 6%nat) 0
       (System files (λ _, good_calls) 0 (λ _, Some 6%nat) 0 (λ _, true) 0 []))
    (Globals 0 (-1) false false [] [] 0 aof rdb false).

Definition input (ticks : list (tick (list loop_event))) : run_input :=
  RunInput (ListenCalls 3 (λ _, true) (λ _ _, true) true true) true true 0 true true ticks [].
Definition no_ticks : run_input := input [].
Definition localhost : bytes := bs "127.0.0.1".

Lemma process_booting t files aof rdb : 0 <= t <= INT64_MAX → booting t (process t files aof rdb).
Proof. by split. Qed.

(** A process started with the files and options of another. *)
Definition successor (t : Z) (old : state) : state :=
  process t (files_now old) (g_aof_path (st_globals old)) (g_rdb_path (st_globals old)).

Lemma process_restarted t old : 0 <= t <= INT64_MAX → restarted localhost 6379 no_ticks t old (successor t old).
Proof.
  intros Ht. by split.
Qed.

Definition with_key (s : state) : state := set_db s (Db one_key 0).

Lemma one_key_visible t : visible t one_keyspace = one_keyspace.
Proof. apply timeless_visible, one_key_timeless. Qed.

Lemma one_key_rdb : rdb_keyspace one_keyspace.
Proof.
  split; [unfold one_keyspace; by rewrite map_size_singleton|]. apply map_Forall_singleton. split; [done|]. by cbn.
Qed.

Lemma with_key_Rep t files aof rdb :
  0 <= t <= INT64_MAX → Rep t (visible t one_keyspace) (client_init (-1) 0) (with_key (process t files aof rdb)).
Proof. intros Ht. split; [by split|]. split; [done|]. exists one_keyspace. split; [exact one_key_rep|done]. Qed.

Lemma restart_from_snapshot_witness :
  let s := with_key (process 5000 ∅ None (Some (bs "dump"))) in
  ∃ s1, shut_down s = Some (tt, s1) ∧
    ∃ s2, server_start localhost 6379 no_ticks (successor 9000 s1) = Some (true, s2) ∧
      Rep 9000 (visible 9000 (visible 5000 one_keyspace)) (client_init (-1) 0) s2.
Proof.
  intros s. destruct (restart_from_snapshot (bs "dump") s 5000 one_keyspace (client_init (-1) 0) 9000) as (s1 & E & H).
  - apply with_key_Rep. unfold INT64_MAX. lia.
  - exact one_key_rep.
  - exact one_key_rdb.
  - lia.
  - reflexivity.
  - reflexivity.
  - exact good_calls_good.
  - exists s1. split; [exact E|]. apply (H localhost 6379 no_ticks (successor 9000 s1)). apply process_restarted. unfold INT64_MAX. lia.
Defined.


Lemma crash_and_restart_witness :
  let s := process 1000 ∅ (Some (bs "log")) None in
  ∃ s0 s1 m c,
    server_start localhost 6379 no_ticks s = Some (true, s0) ∧ run_session persistence one_push s0 = Some (tt, s1) ∧
    Rep 2000 m c s1 ∧
    ∃ s2, server_start localhost 6379 no_ticks (successor 9000 s1) = Some (true, s2) ∧ Rep 9000 m (client_init (-1) 0) s2.
Proof.
  intros s. destruct (crash_and_restart (bs "log") localhost 6379 no_ticks 1000 s one_push) as (s0 & s1 & m & c & E0 & E1 & HR & H).
  - split; try reflexivity.
    + apply process_booting. unfold INT64_MAX. lia.
    + by exists 6%nat.
    + intros i. by exists 6%nat.
    + by split_and!.
    + vm_compute. congruence.
  - vm_compute. repeat split; congruence.
  - exact one_push_replayable.
  - exists s0, s1, m, c. split; [exact E0|]. split; [exact E1|]. split; [exact HR|].
    apply (H localhost 6379 no_ticks 9000 (successor 9000 s1)). apply process_restarted. unfold INT64_MAX. lia.
Defined.

(** The key [k] exists and the log says [SET k v]. *)
Definition logged_key : state :=
  set_globals (with_key (process 5000 ∅ (Some (bs "log")) (Some (bs "dump"))))
    (Globals 0 6 false false (resp_encode [bs "SET"; bs "k"; bs "v"]) [] 0 (Some (bs "log")) (Some (bs "dump")) true).

Lemma restart_applies_log_twice_witness :
  let cmds := [[bs "SET"; bs "k"; bs "v"]] in
  ∃ s1, shut_down logged_key = Some (tt, s1) ∧
    ∃ s2 m rs, server_start localhost 6379 no_ticks (successor 9000 s1) = Some (true, s2) ∧
      session (visible 9000 (visible 5000 one_keyspace)) (map (pair 9000) cmds) m rs ∧ Rep 9000 m (client_init (-1) 0) s2.
Proof.
  intros cmds.
  destruct (restart_applies_log_twice (bs "log") (bs "dump") logged_key 5000 one_keyspace (client_init (-1) 0) cmds 9000) as (s1 & E & H).
  - apply (with_key_Rep 5000 ∅ (Some (bs "log")) (Some (bs "dump"))). unfold INT64_MAX. lia.
  - exact one_key_rep.
  - exact one_key_rdb.
  - lia.
  - split; [|reflexivity..]. split; try reflexivity; [vm_compute; congruence|]. intros i. by exists 6%nat.
  - apply Forall_cons_2; [|apply Forall_nil_2]. split; [by left|].
    split; [apply (bool_decide_unpack _); vm_compute; exact I|vm_compute; reflexivity].
  - reflexivity.
  - intros p r Hp Hr. cbn in Hp, Hr. injection Hp as <-. injection Hr as <-. vm_compute. congruence.
  - vm_compute. congruence.
  - exact good_calls_good.
  - exists s1. split; [exact E|]. apply (H localhost 6379 no_ticks (successor 9000 s1)). apply process_restarted. unfold INT64_MAX. lia.
Defined.

(** INCR, a clean restart, and the counter is 2. *)
Example restart_counts_twice :
  ('(_, s) ← server_start localhost 6379 no_ticks (process 1000 ∅ (Some (bs "log")) (Some (bs "dump")));
   '(_, s) ← dispatch_command persistence [bs "INCR"; bs "n"] s;
   '(_, s) ← shut_down s;
   '(ok, s) ← server_start localhost 6379 no_ticks (process 2000 (files_now s) (Some (bs "log")) (Some (bs "dump")));
   '(_, s) ← dispatch_command persistence [bs "GET"; bs "n"] s;
   Some (ok, c_out (st_client s))) = Some (true, fmt_bulk (bs "2")).
Proof. vm_compute. reflexivity. Qed.
