(* ===== verification/Typing.v ===== *)
(** * The types of keys

    A key holds a string, a list, a hash, a set or a sorted set.  Every command of the
    table has a signature that says which type its operands have and what it may do to
    the types of keys; the theorem says that the commands keep to it: an operand of
    another type is refused without any effect, and no command turns a value of one
    type into another in place. *)

From S2P Require Import Prelude Util Dict CList Zskiplist Zset Object Double Machine DbCore.
From S2P Require Import DbString DbList DbHash DbSet DbZset Aof Dispatch Session Rewriting Persist Startup.
Import Num.

(** ** Signatures *)

Inductive effect :=
| Operand (T : obj_type)     (* works on the value of type [T] under its first argument *)
| Operands (T : obj_type)    (* reads the values of type [T] under all its arguments *)
| Keeps                      (* changes no value, but may remove keys or set expirations *)
| Stores (T : obj_type)      (* stores values of type [T], whatever was there *)
| Moves.                     (* moves the value under its first argument to another key *)

Definition signatures : list (string * effect) := [
  ("ping", Keeps); ("echo", Keeps); ("select", Keeps); ("quit", Keeps);
  ("set", Stores T_STRING); ("get", Operand T_STRING); ("del", Keeps); ("exists", Keeps);
  ("incr", Operand T_STRING); ("decr", Operand T_STRING);
  ("mget", Keeps); ("mset", Stores T_STRING); ("append", Operand T_STRING); ("strlen", Operand T_STRING);
  ("getrange", Operand T_STRING); ("setrange", Operand T_STRING); ("rename", Moves);
  ("setnx", Stores T_STRING); ("setex", Stores T_STRING); ("getset", Operand T_STRING);
  ("expire", Keeps); ("pexpire", Keeps); ("expireat", Keeps); ("pexpireat", Keeps);
  ("ttl", Keeps); ("pttl", Keeps); ("type", Keeps);
  ("lpush", Operand T_LIST); ("rpush", Operand T_LIST); ("lpushx", Operand T_LIST); ("rpushx", Operand T_LIST);
  ("lpop", Operand T_LIST); ("rpop", Operand T_LIST); ("llen", Operand T_LIST);
  ("lrange", Operand T_LIST); ("lindex", Operand T_LIST); ("lset", Operand T_LIST);
  ("ltrim", Operand T_LIST); ("lrem", Operand T_LIST); ("linsert", Operand T_LIST);
  ("hset", Operand T_HASH); ("hmset", Operand T_HASH); ("hget", Operand T_HASH);
  ("hmget", Operand T_HASH); ("hgetall", Operand T_HASH); ("hkeys", Operand T_HASH); ("hvals", Operand T_HASH);
  ("hlen", Operand T_HASH); ("hexists", Operand T_HASH); ("hdel", Operand T_HASH);
  ("hsetnx", Operand T_HASH); ("hincrby", Operand T_HASH); ("hincrbyfloat", Operand T_HASH);
  ("sadd", Operand T_SET); ("srem", Operand T_SET); ("sismember", Operand T_SET);
  ("scard", Operand T_SET); ("smembers", Operand T_SET); ("spop", Operand T_SET);
  ("sinter", Operands T_SET); ("sunion", Operands T_SET); ("sdiff", Operands T_SET);
  ("zadd", Operand T_ZSET); ("zcard", Operand T_ZSET); ("zscore", Operand T_ZSET); ("zrem", Operand T_ZSET);
  ("zrange", Operand T_ZSET); ("zrevrange", Operand T_ZSET);
  ("zrangebyscore", Operand T_ZSET); ("zrank", Operand T_ZSET);
  ("zrevrank", Operand T_ZSET); ("zincrby", Operand T_ZSET); ("zcount", Operand T_ZSET);
  ("keys", Keeps); ("flushall", Keeps); ("dbsize", Keeps); ("info", Keeps); ("command", Keeps)
]%string.

Definition signature (name : bytes) : option effect :=
  snd <$> find (λ p, strcaseeq (bs p.1) name) signatures.

(** ** What a signature promises *)

Abbreviation type_of a := (value_type (a_value a)).

(** The key holds a value of another type. *)
Definition ill_typed (T : obj_type) (m : keyspace) (k : bytes) : Prop := ∃ a, m !! k = Some a ∧ type_of a ≠ T.

(** An error, with nothing changed. *)
Definition refused (m m' : keyspace) (r : rv) : Prop :=
  m' = m ∧ match r with RError _ | RWrongType => True | _ => False end.

(** Only the key [k] changes, to a value of type [T] if any. *)
Definition only_key (T : obj_type) (k : bytes) (m m' : keyspace) : Prop :=
  ∀ k' a, m' !! k' = Some a → m !! k' = Some a ∨ k' = k ∧ type_of a = T.

Definition promises (eff : effect) (m : keyspace) (args : list bytes) (m' : keyspace) (r : rv) : Prop :=
  match eff with
  | Operand T =>
      match args !! 1%nat with
      | Some k => only_key T k m m' ∧ (ill_typed T m k → refused m m' r)
      | None => refused m m' r
      end
  | Operands T => m' = m ∧ (Exists (ill_typed T m) (tail args) → refused m m' r)
  | Keeps => ∀ k a, m' !! k = Some a → ∃ a0, m !! k = Some a0 ∧ a_value a = a_value a0
  | Stores T => ∀ k a, m' !! k = Some a → m !! k = Some a ∨ type_of a = T
  | Moves => ∀ k a, m' !! k = Some a → m !! k = Some a ∨ ∃ src, args !! 1%nat = Some src ∧ m !! src = Some a
  end.

Create HintDb typing.

(** ** Commands that work on one key *)

Lemma only_key_same T k m : only_key T k m m.
Proof. intros k' a H. by left. Qed.

Lemma only_key_insert T k m v e : value_type v = T → only_key T k m (<[k := Aobj v e]> m).
Proof. intros Hv k' a [[<- <-]|[_ H]]%lookup_insert_Some; [by right|by left]. Qed.

Lemma only_key_settle T k m v e : value_type v = T → only_key T k m (settle m k v e).
Proof.
  intros Hv. unfold settle. destruct (value_is_empty v); [|by apply only_key_insert].
  intros k' a [_ H]%lookup_delete_Some. by left.
Qed.
#[local] Hint Resolve only_key_same : typing.
#[local] Hint Extern 1 (only_key _ _ _ (<[_ := _]> _)) => (apply only_key_insert; reflexivity) : typing.
#[local] Hint Extern 1 (only_key _ _ _ (settle _ _ _ _)) => (apply only_key_settle; reflexivity) : typing.

(** A result that is an error, or that takes care of the types. *)
Definition operand_ok (T : obj_type) (k : bytes) (m : keyspace) (res : keyspace * rv) : Prop :=
  only_key T k m res.1 ∧ (ill_typed T m k → refused m res.1 res.2).

Lemma operand_refused T k m res : refused m res.1 res.2 → operand_ok T k m res.
Proof. intros H. split; [destruct H as [-> _]; apply only_key_same|done]. Qed.

(** What is done to a value of the right type, or where there is none. *)
Lemma operand_typed T k m res : only_key T k m res.1 → ¬ ill_typed T m k → operand_ok T k m res.
Proof. by split. Qed.

Lemma not_ill_typed T m k : (∀ a, m !! k = Some a → type_of a = T) → ¬ ill_typed T m k.
Proof. intros H (a & Ha & Hn). by apply Hn, H. Qed.

Ltac operand_cases :=
  intros; repeat case_match;
  solve [apply operand_refused; by split
        |apply operand_typed; [by auto|apply not_ill_typed; intros ? Ha; by simplify_eq]].

Lemma on_string_typed m k absent present :
  only_key T_STRING k m absent.1 → (∀ s e, only_key T_STRING k m (present s e).1) →
  operand_ok T_STRING k m (on_string m k absent present).
Proof. unfold on_string. operand_cases. Qed.

Lemma on_list_typed m k absent present :
  only_key T_LIST k m absent.1 → (∀ xs e, only_key T_LIST k m (present xs e).1) →
  operand_ok T_LIST k m (on_list m k absent present).
Proof. unfold on_list. operand_cases. Qed.

Lemma on_hash_typed m k absent present :
  only_key T_HASH k m absent.1 → (∀ h e, only_key T_HASH k m (present h e).1) →
  operand_ok T_HASH k m (on_hash m k absent present).
Proof. unfold on_hash. operand_cases. Qed.

Lemma on_set_typed m k absent present :
  only_key T_SET k m absent.1 → (∀ s e, only_key T_SET k m (present s e).1) →
  operand_ok T_SET k m (on_set m k absent present).
Proof. unfold on_set. operand_cases. Qed.

Lemma on_zset_typed m k absent present :
  only_key T_ZSET k m absent.1 → (∀ xs e, only_key T_ZSET k m (present xs e).1) →
  operand_ok T_ZSET k m (on_zset m k absent present).
Proof. unfold on_zset. operand_cases. Qed.

(** ** The commands keep to their signatures *)

Definition honours (eff : effect) (sp : spec) : Prop :=
  ∀ t m args m' r, args ≠ [] → sp t m args m' r → promises eff m args m' r.

Lemma honours_operand_det T f :
  (∀ t m a0, refused m (f t m [a0]).1 (f t m [a0]).2) → (∀ t m a0 k l, operand_ok T k m (f t m (a0 :: k :: l))) →
  honours (Operand T) (det f).
Proof.
  intros H1 H2 t m args m' r Hne Hf. unfold det in Hf. destruct args as [|a0 [|k l]]; [done|..].
  - specialize (H1 t m a0). by rewrite Hf in H1.
  - specialize (H2 t m a0 k l). by rewrite Hf in H2.
Qed.

Lemma refused_wrong n m : refused m (s_wrong n m).1 (s_wrong n m).2.
Proof. by split. Qed.

Lemma operand_wrong T k m n : operand_ok T k m (s_wrong n m).
Proof. apply operand_refused, refused_wrong. Qed.

Lemma operand_error T k m e : operand_ok T k m (m, RError e).
Proof. by apply operand_refused. Qed.
#[local] Hint Resolve refused_wrong operand_wrong operand_error : typing.
#[local] Hint Resolve on_string_typed on_list_typed on_hash_typed on_set_typed on_zset_typed : typing.

Ltac only_key_cases := intros; cbn [fst snd]; repeat case_match; cbn [fst snd]; auto with typing.

Lemma only_key_zadd k m f rest xs e : only_key T_ZSET k m (zadd_pairs m k f rest xs e).1.
Proof. unfold zadd_pairs. destruct (zadd_all _ _ _ _ _) as [ys res]. by apply only_key_insert. Qed.
#[local] Hint Resolve only_key_zadd : typing.

Ltac honour f :=
  apply honours_operand_det; intros; cbv beta delta [f] iota zeta;
    [repeat case_match; auto with typing
    |repeat case_match; try done; unfold on_hash_new, on_zset_new;
     first [by auto with typing | first [apply on_string_typed | apply on_list_typed | apply on_hash_typed | apply on_set_typed | apply on_zset_typed]; only_key_cases]].

Lemma get_honours : honours (Operand T_STRING) (det s_get).
Proof. honour s_get. Qed.
Lemma incr_decr_honours d : honours (Operand T_STRING) (det (s_incr_decr d)).
Proof. honour s_incr_decr. Qed.
Lemma append_honours : honours (Operand T_STRING) (det s_append).
Proof. honour s_append. Qed.
Lemma strlen_honours : honours (Operand T_STRING) (det s_strlen).
Proof. honour s_strlen. Qed.
Lemma getrange_honours : honours (Operand T_STRING) (det s_getrange).
Proof. honour s_getrange. Qed.
Lemma setrange_honours : honours (Operand T_STRING) (det s_setrange).
Proof. honour s_setrange. Qed.
Lemma getset_honours : honours (Operand T_STRING) (det s_getset).
Proof. honour s_getset. Qed.
Lemma push_honours head xx : honours (Operand T_LIST) (det (s_push head xx)).
Proof. honour s_push. Qed.
Lemma pop_honours head : honours (Operand T_LIST) (det (s_pop head)).
Proof. honour s_pop. Qed.
Lemma llen_honours : honours (Operand T_LIST) (det s_llen).
Proof. honour s_llen. Qed.
Lemma lrange_honours : honours (Operand T_LIST) (det s_lrange).
Proof. honour s_lrange. Qed.
Lemma lindex_honours : honours (Operand T_LIST) (det s_lindex).
Proof. honour s_lindex. Qed.
Lemma lset_honours : honours (Operand T_LIST) (det s_lset).
Proof. honour s_lset. Qed.
Lemma ltrim_honours : honours (Operand T_LIST) (det s_ltrim).
Proof. honour s_ltrim. Qed.
Lemma lrem_honours : honours (Operand T_LIST) (det s_lrem).
Proof. honour s_lrem. Qed.
Lemma linsert_honours : honours (Operand T_LIST) (det s_linsert).
Proof. honour s_linsert. Qed.
Lemma hset_honours ok : honours (Operand T_HASH) (det (s_hset ok)).
Proof. honour s_hset. Qed.
Lemma hget_honours : honours (Operand T_HASH) (det s_hget).
Proof. honour s_hget. Qed.
Lemma hmget_honours : honours (Operand T_HASH) (det s_hmget).
Proof. honour s_hmget. Qed.
Lemma hlen_honours : honours (Operand T_HASH) (det s_hlen).
Proof. honour s_hlen. Qed.
Lemma hexists_honours : honours (Operand T_HASH) (det s_hexists).
Proof. honour s_hexists. Qed.
Lemma hdel_honours : honours (Operand T_HASH) (det s_hdel).
Proof. honour s_hdel. Qed.
Lemma hsetnx_honours : honours (Operand T_HASH) (det s_hsetnx).
Proof. honour s_hsetnx. Qed.
Lemma hincrby_honours : honours (Operand T_HASH) (det s_hincrby).
Proof. honour s_hincrby. Qed.
Lemma hincrbyfloat_honours : honours (Operand T_HASH) (det s_hincrbyfloat).
Proof. honour s_hincrbyfloat. Qed.
Lemma sadd_honours : honours (Operand T_SET) (det s_sadd).
Proof. honour s_sadd. Qed.
Lemma srem_honours : honours (Operand T_SET) (det s_srem).
Proof. honour s_srem. Qed.
Lemma sismember_honours : honours (Operand T_SET) (det s_sismember).
Proof. honour s_sismember. Qed.
Lemma scard_honours : honours (Operand T_SET) (det s_scard).
Proof. honour s_scard. Qed.
Lemma zadd_honours : honours (Operand T_ZSET) (det s_zadd).
Proof. honour s_zadd. Qed.
Lemma zcard_honours : honours (Operand T_ZSET) (det s_zcard).
Proof. honour s_zcard. Qed.
Lemma zscore_honours : honours (Operand T_ZSET) (det s_zscore).
Proof. honour s_zscore. Qed.
Lemma zrem_honours : honours (Operand T_ZSET) (det s_zrem).
Proof. honour s_zrem. Qed.
Lemma zrange_honours rev : honours (Operand T_ZSET) (det (s_zrange rev)).
Proof. honour s_zrange. Qed.
Lemma zrangebyscore_honours : honours (Operand T_ZSET) (det s_zrangebyscore).
Proof. honour s_zrangebyscore. Qed.
Lemma zrank_honours name rev : honours (Operand T_ZSET) (det (s_zrank name rev)).
Proof. honour s_zrank. Qed.
Lemma zincrby_honours : honours (Operand T_ZSET) (det s_zincrby).
Proof. honour s_zincrby. Qed.
Lemma zcount_honours : honours (Operand T_ZSET) (det s_zcount).
Proof. honour s_zcount. Qed.
#[local] Hint Resolve get_honours incr_decr_honours append_honours strlen_honours getrange_honours setrange_honours getset_honours push_honours pop_honours llen_honours lrange_honours lindex_honours lset_honours ltrim_honours lrem_honours linsert_honours hset_honours hget_honours hmget_honours hlen_honours hexists_honours hdel_honours hsetnx_honours hincrby_honours hincrbyfloat_honours sadd_honours srem_honours sismember_honours scard_honours zadd_honours zcard_honours zscore_honours zrem_honours zrange_honours zrangebyscore_honours zrank_honours zincrby_honours zcount_honours : typing.

(** The commands whose reply is not a function of the keyspace. *)
Lemma refused_pair n m m' r : (m', r) = s_wrong n m → refused m m' r.
Proof. intros [= -> ->]. by split. Qed.
#[local] Hint Resolve refused_pair : typing.

Lemma operand_pair T k m n m' r : (m', r) = s_wrong n m → operand_ok T k m (m', r).
Proof. intros ->. apply operand_wrong. Qed.
#[local] Hint Resolve operand_pair : typing.

Lemma listing_honours name item : honours (Operand T_HASH) (s_listing name item).
Proof.
  intros t m [|a0 [|k [|? ?]]] m' r Hne H; [done|by eapply refused_pair| |by eapply (operand_pair T_HASH k)].
  destruct H as [-> H]. split; [apply only_key_same|]. intros (a & Ha & Hn). rewrite Ha in H. destruct a as [[] ?]; try done; by subst.
Qed.

Lemma hgetall_honours : honours (Operand T_HASH) s_hgetall.
Proof. apply listing_honours. Qed.

Lemma hkeys_or_vals_honours vals : honours (Operand T_HASH) (s_hkeys_or_vals vals).
Proof. intros t m args m' r. apply listing_honours. Qed.

Lemma wrong_type_ill m k : wrong_type m k ↔ ill_typed T_SET m k.
Proof.
  unfold wrong_type, ill_typed. destruct (m !! k) as [[[] e]|]; split; try done; try (intros (a & Ha & Hn); by simplify_eq).
  all: intros _; by eexists.
Qed.

Lemma select_members_honours name P : honours (Operands T_SET) (λ t, s_select_members name P).
Proof.
  intros t m [|a0 [|k l]] m' r Hne H; [done|..].
  - destruct (refused_pair _ _ _ _ H) as [-> ?]. by split.
  - destruct H as [-> H]. split; [done|]. intros He. destruct H as [[_ ->]|[Hf _]]; [by split|].
    exfalso. apply Exists_exists in He as (x & Hin & Hx). rewrite Forall_forall in Hf. by apply (Hf x Hin), wrong_type_ill.
Qed.

Lemma smembers_honours : honours (Operand T_SET) s_smembers.
Proof.
  intros t m [|a0 [|k [|? ?]]] m' r Hne H; [done|by eapply refused_pair| |by eapply (operand_pair T_SET k)].
  destruct (select_members_honours _ _ t m _ m' r Hne (H : s_select_members _ _ m _ m' r)) as [-> Hi]. split; [apply only_key_same|].
  intros Hk. apply Hi. by apply Exists_cons_hd.
Qed.

Lemma spop_count_typed m k count m' r : s_spop_count m k count m' r → operand_ok T_SET k m (m', r).
Proof.
  unfold s_spop_count. intros H. destruct (m !! k) as [[[] e]|] eqn:E.
  all: try (destruct H as [-> ->]; apply operand_refused; by split).
  - apply operand_typed; [|apply not_ill_typed; intros a Ha; by simplify_eq]. destruct H as (l & _ & _ & _ & H). cbn [fst].
    destruct (count =? 1); [|destruct H as [-> _]; auto with typing]. destruct l as [|x [|? ?]]; destruct H as [-> _]; auto with typing.
  - destruct H as [-> _]. apply operand_typed; [apply only_key_same|]. apply not_ill_typed. intros a Ha. by simplify_eq.
Qed.

Lemma spop_honours : honours (Operand T_SET) s_spop.
Proof.
  intros t m [|a0 [|k l]] m' r Hne H; [done|by eapply refused_pair|]. change (operand_ok T_SET k m (m', r)). unfold s_spop in H.
  repeat case_match; eauto using spop_count_typed with typing; destruct H as [-> ->]; apply operand_error.
Qed.
#[local] Hint Resolve hgetall_honours hkeys_or_vals_honours smembers_honours spop_honours : typing.

(** Commands that change no value. *)
Lemma keeps_same m args r : promises Keeps m args m r.
Proof. intros k a Ha. by exists a. Qed.

Lemma keeps_fun f : (∀ t m args, (f t m args).1 = m) → honours Keeps (det f).
Proof. intros H t m args m' r Hne Hf. specialize (H t m args). rewrite Hf in H. cbn in H. subst. apply keeps_same. Qed.

Lemma keeps_rel (sp : spec) : (∀ t m args m' r, sp t m args m' r → m' = m) → honours Keeps sp.
Proof. intros H t m args m' r _ Hs. rewrite (H _ _ _ _ _ Hs). apply keeps_same. Qed.

Ltac keeps f := first [apply keeps_fun; intros | apply keeps_rel; intros ? ? ? ? ? H; revert H]; unfold f, s_wrong; repeat case_match; naive_solver.

Lemma ping_honours : honours Keeps (det s_ping).
Proof. keeps s_ping. Qed.
Lemma echo_honours : honours Keeps (det s_echo).
Proof. keeps s_echo. Qed.
Lemma select_honours : honours Keeps (det s_select).
Proof. keeps s_select. Qed.
Lemma quit_honours : honours Keeps (det s_quit).
Proof. keeps s_quit. Qed.
Lemma exists_honours : honours Keeps (det s_exists).
Proof. keeps s_exists. Qed.
Lemma mget_honours : honours Keeps (det s_mget).
Proof. keeps s_mget. Qed.
Lemma ttl_honours is_ms : honours Keeps (det (s_ttl is_ms)).
Proof. keeps s_ttl. Qed.
Lemma type_honours : honours Keeps (det s_type).
Proof. keeps s_type. Qed.
Lemma keys_honours : honours Keeps s_keys.
Proof. keeps s_keys. Qed.
Lemma dbsize_honours : honours Keeps s_dbsize.
Proof. keeps s_dbsize. Qed.
Lemma info_honours : honours Keeps s_info.
Proof. keeps s_info. Qed.
Lemma command_honours : honours Keeps (det s_command).
Proof. keeps s_command. Qed.

Lemma del_honours : honours Keeps s_del.
Proof.
  intros t m [|a0 [|k l]] m' r Hne H; [done|..].
  - destruct (refused_pair _ _ _ _ H) as [-> _]. apply keeps_same.
  - destruct H as [-> _]. intros k' a [Ha _]%map_lookup_filter_Some. by exists a.
Qed.

Lemma flushall_honours : honours Keeps (det s_flushall).
Proof.
  intros t m args m' r _ H. unfold det, s_flushall, s_wrong in H. repeat case_match; simplify_eq; try apply keeps_same.
  intros k a Ha. by rewrite lookup_empty in Ha.
Qed.

Lemma set_expiry_keeps t m k e : promises Keeps m [] (s_set_expiry t m k e).1 RNull.
Proof.
  unfold s_set_expiry, put. destruct (m !! k) as [a|] eqn:E; [|apply keeps_same]. cbn [fst]. case_decide; intros k' a'.
  - intros [[<- <-]|[_ Hk]]%lookup_insert_Some; [by exists a|by exists a'].
  - intros [_ Hk]%lookup_delete_Some. by exists a'.
Qed.

(** EXPIRE and its variants. *)
Lemma expiry_honours f :
  (∀ t m args, (f t m args).1 = m ∨ ∃ k e, f t m args = s_set_expiry t m k e) → honours Keeps (det f).
Proof.
  intros H t m args m' r _ Hf. unfold det in Hf. destruct (H t m args) as [E|(k & e & E)].
  - rewrite Hf in E. cbn in E. subst. apply keeps_same.
  - pose proof (set_expiry_keeps t m k e) as Hk. rewrite <- E, Hf in Hk. exact Hk.
Qed.

Lemma expire_honours is_ms : honours Keeps (det (s_expire is_ms)).
Proof. apply expiry_honours. intros. unfold s_expire. repeat case_match; eauto. Qed.
Lemma expireat_honours is_ms : honours Keeps (det (s_expireat is_ms)).
Proof. apply expiry_honours. intros. unfold s_expireat. repeat case_match; eauto. Qed.
#[local] Hint Resolve ping_honours echo_honours select_honours quit_honours exists_honours mget_honours ttl_honours
  type_honours keys_honours dbsize_honours info_honours command_honours del_honours flushall_honours expire_honours expireat_honours : typing.

(** Commands that overwrite. *)
Lemma stores_insert T m k v e : value_type v = T → promises (Stores T) m [] (<[k := Aobj v e]> m) RNull.
Proof. intros Hv k' a [[<- <-]|[_ H]]%lookup_insert_Some; [by right|by left]. Qed.

Lemma stores_put T t m k v e : value_type v = T → promises (Stores T) m [] (put t k (Aobj v e) m) RNull.
Proof.
  intros Hv. unfold put. case_decide; [by apply stores_insert|]. intros k' a [_ Hk]%lookup_delete_Some. by left.
Qed.

Lemma stores_same T m : promises (Stores T) m [] m RNull.
Proof. intros k a Ha. by left. Qed.

Lemma stores_all m kvs : promises (Stores T_STRING) m [] (foldl (λ m '(k, v), <[k := Aobj (VString v) (-1)]> m) m kvs) RNull.
Proof.
  revert m. induction kvs as [|[k v] kvs IH]; intros m; cbn [foldl]; [apply stores_same|].
  intros k' a [H|H]%IH; [|by right]. by apply (stores_insert _ _ _ _ _ eq_refl) in H.
Qed.

Lemma stores_fun T f : (∀ t m args, promises (Stores T) m [] (f t m args).1 RNull) → honours (Stores T) (det f).
Proof. intros H t m args m' r _ Hf. specialize (H t m args). unfold det in Hf. rewrite Hf in H. exact H. Qed.

Ltac stores f :=
  apply stores_fun; intros; unfold f, s_wrong; repeat case_match; cbn [fst];
  solve [apply stores_same | by apply stores_put | by apply stores_insert | apply stores_all].

Lemma set_honours : honours (Stores T_STRING) (det s_set).
Proof. stores s_set. Qed.
Lemma mset_honours : honours (Stores T_STRING) (det s_mset).
Proof. stores s_mset. Qed.
Lemma setnx_honours : honours (Stores T_STRING) (det s_setnx).
Proof. stores s_setnx. Qed.
Lemma setex_honours : honours (Stores T_STRING) (det s_setex).
Proof. stores s_setex. Qed.

Lemma rename_honours : honours Moves (det s_rename).
Proof.
  intros t m args m' r _ H k a Ha. unfold det, s_rename, s_wrong in H. repeat case_match; simplify_eq; try by left.
  apply lookup_insert_Some in Ha as [[<- <-]|[_ [_ Ha]%lookup_delete_Some]]; [by right; eauto|by left].
Qed.
#[local] Hint Resolve set_honours mset_honours setnx_honours setex_honours rename_honours : typing.
#[local] Hint Extern 2 (honours (Operands _) _) => (refine (select_members_honours _ _)) : typing.

Lemma all_honoured : Forall2 (λ sg sp, sg.1 = sp.1 ∧ honours sg.2 sp.2) signatures specs.
Proof.
  unfold signatures, specs. repeat (apply Forall2_cons_2; [split; [reflexivity|cbn [snd]; auto with typing]|]). apply Forall2_nil_2.
Qed.

(** A name that has a signature has a specification that honours it. *)
Lemma signature_honoured name eff : signature name = Some eff → ∃ sp, find_spec name = Some sp ∧ honours eff sp.
Proof.
  unfold find_spec, signature. induction all_honoured as [|[n eff'] [n' sp] sgs sps [Hn H] _ IH]; [done|]. cbn in Hn, H. subst n'.
  cbn [find fst]. destruct (strcaseeq (bs n) name); [|exact IH]. intros [= <-]. by exists sp.
Qed.

(** Every command of the table but the four that write files has a signature. *)
Example signatures_complete :
  map (λ e, ce_name e) (filter (λ e, is_some (signature (ce_name e)) = false) (commands persistence)) =
  map bs ["save"; "bgsave"; "rewriteaof"; "bgrewriteaof"]%string.
Proof. vm_compute. reflexivity. Qed.


