(* ===== verification/Pubsub.v ===== *)
(** * The publish/subscribe registry ([src/pubsub.c])

    Channels are keys of a dictionary whose values are linked lists of client
    pointers.  A client pointer is the number of a client in a table of live clients;
    dereferencing a freed client is undefined.  The registry refines a finite map
    from channels to duplicate-free sequences of clients. *)

From S2P Require Import Prelude Util Dict CList Zskiplist Object Machine DbCore DbList Resp.
Import Num.

(** ** Operations *)

Record pubsub := Pubsub { channels : dict (clist nat) }.

Abbreviation clients := (gmap nat client).

Definition pubsub_create (seed : bytes) : pubsub := Pubsub (dict_create seed).

Definition channel_subscribers (ps : pubsub) (chan : bytes) : option (clist nat) := dict_get (channels ps) chan.

(** The list the pointer [l] points to has changed. *)
Definition update_list (ps : pubsub) (chan : bytes) (l : clist nat) : pubsub :=
  Pubsub (dict_poke (channels ps) chan l).

(** The first node that holds the client. *)
Definition client_node (l : clist nat) (c : nat) : option ptr :=
  find_node (Z.to_nat (list_len l)) (l_nodes l) c (list_first l).

Definition client_in_list (l : clist nat) (c : nat) : option bool :=
  x ← client_node l c; Some (is_some x).

Definition with_subscribed (c : client) (n : Z) : client :=
  Client (c_fd c) (c_in c) (c_out c) (c_out_sent c) (c_closing c) (c_events c) n.

(** A field of type [int]. *)
Definition succ_int (n : Z) : Z := wraps32 (n + 1).

Definition pubsub_subscribe (ps : pubsub) (cs : clients) (c : nat) (chan : bytes) : option (Z * pubsub * clients) :=
  let '(ps, l) :=
    match channel_subscribers ps chan with
    | Some l => (ps, l)
    | None => (Pubsub (dict_set (channels ps) chan list_create).2, list_create)
    end in
  b ← client_in_list l c;
  l ← (if (b : bool) then Some l else list_push_tail l c);
  cl ← cs !! c;
  let n := succ_int (c_subscribed cl) in
  Some (n, update_list ps chan l, <[c := with_subscribed cl n]> cs).

Definition pubsub_unsubscribe (ps : pubsub) (cs : clients) (c : nat) (chan : bytes) : option (Z * pubsub * clients) :=
  cl ← cs !! c;
  match channel_subscribers ps chan with
  | None => Some (c_subscribed cl, ps, cs)
  | Some l =>
      b ← client_in_list l c;
      if (b : bool) then
        x ← client_node l c;
        '(_, l) ← list_detach l x;
        let n := if c_subscribed cl >? 0 then c_subscribed cl - 1 else c_subscribed cl in
        Some (n, update_list ps chan l, <[c := with_subscribed cl n]> cs)
      else Some (c_subscribed cl, ps, cs)
  end.

(** [for (n = list_first(l); n; n = next)], detaching the nodes of the client. *)
Fixpoint detach_loop (fuel : nat) (l : clist nat) (c : nat) (x : ptr) : option (clist nat) :=
  match x with
  | None => Some l
  | Some a =>
      match fuel with
      | O => None
      | S fuel =>
          nd ← l_nodes l !! a;
          l ← (if bool_decide (n_val nd = c) then '(_, l) ← list_detach l (Some a); Some l else Some l);
          detach_loop fuel l c (n_next nd)
      end
  end.

(** The loop over the channels; lists change in place, the table does not. *)
Fixpoint detach_channels (es : list (entry (clist nat))) (ps : pubsub) (c : nat) : option pubsub :=
  match es with
  | [] => Some ps
  | e :: es =>
      l ← detach_loop (Z.to_nat (list_len (e_val e))) (e_val e) c (list_first (e_val e));
      detach_channels es (update_list ps (e_key e) l) c
  end.

Definition pubsub_unsubscribe_all (ps : pubsub) (cs : clients) (c : nat) : option (pubsub * clients) :=
  cl ← cs !! c;
  if c_subscribed cl =? 0 then Some (ps, cs) else
  ps ← detach_channels (dict_entries (channels ps)) ps c;
  Some (ps, <[c := with_subscribed cl 0]> cs).

(** The calls of [frame] are returned: channel and count. *)
Fixpoint leave_channels (es : list (entry (clist nat))) (ps : pubsub) (cs : clients) (c : nat) :
    option (list (bytes * Z) * pubsub * clients) :=
  match es with
  | [] => Some ([], ps, cs)
  | e :: es =>
      l ← channel_subscribers ps (e_key e);
      b ← client_in_list l c;
      if (b : bool) then
        '(n, ps, cs) ← pubsub_unsubscribe ps cs c (e_key e);
        '(fs, ps, cs) ← leave_channels es ps cs c;
        Some ((e_key e, n) :: fs, ps, cs)
      else leave_channels es ps cs c
  end.

Definition pubsub_unsubscribe_channels (ps : pubsub) (cs : clients) (c : nat) :
    option (list (bytes * Z) * pubsub * clients) :=
  cl ← cs !! c;
  if c_subscribed cl =? 0 then Some ([], ps, cs) else
  leave_channels (dict_entries (channels ps)) ps cs c.

(** The push frame of a message. *)
Definition message_frame (chan msg : bytes) : bytes :=
  bs "*3" ++ crlf ++ bs "$7" ++ crlf ++ bs "message" ++ crlf ++ bs "$" ++ dec_of (zlen chan) ++ crlf ++ chan ++
  crlf ++ bs "$" ++ dec_of (zlen msg) ++ crlf ++ msg ++ crlf.

Definition send_to (frame : bytes) (cl : client) : client :=
  Client (c_fd cl) (c_in cl) (c_out cl ++ frame) (c_out_sent cl) (c_closing cl) (c_events cl) (c_subscribed cl).

Fixpoint publish_loop (fuel : nat) (l : clist nat) (x : ptr) (frame : bytes) (cs : clients) (receivers : Z) :
    option (Z * clients) :=
  match x with
  | None => Some (receivers, cs)
  | Some a =>
      match fuel with
      | O => None
      | S fuel =>
          nd ← l_nodes l !! a;
          sub ← cs !! n_val nd;
          publish_loop fuel l (n_next nd) frame (<[n_val nd := send_to frame sub]> cs) (receivers + 1)
      end
  end.

Definition pubsub_publish (ps : pubsub) (cs : clients) (chan msg : bytes) : option (Z * pubsub * clients) :=
  match channel_subscribers ps chan with
  | None => Some (0, ps, cs)
  | Some l =>
      if list_len l =? 0 then Some (0, Pubsub (dict_delete (channels ps) chan).2, cs)
      else
        '(n, cs) ← publish_loop (Z.to_nat (list_len l)) l (list_first l) (message_frame chan msg) cs 0;
        Some (n, ps, cs)
  end.

(** ** The abstract registry *)

Abbreviation registry := (gmap bytes (list nat)).

Definition joined (l : list nat) (c : nat) : list nat := if decide (c ∈ l) then l else l ++ [c].
Definition left_ (l : list nat) (c : nat) : list nat := filter (λ x, x ≠ c) l.

Definition ps_rep (ps : pubsub) (r : registry) : Prop :=
  dict_wf (channels ps) ∧ map_Forall2 (λ _, is_list) (dict_abs (channels ps)) r ∧ map_Forall (λ _ xs, NoDup xs) r.

(** ** Lists of clients *)

Lemma client_node_spec l ls xs c :
  list_rep l ls xs → client_node l c = Some ('(i, _) ← list_find (λ x, x = c) xs; ls !! i).
Proof.
  intros H. unfold client_node. unfold list_first. rewrite (lr_head _ _ _ H). pose proof (hr_len _ _ _ (lr_heap _ _ _ H)) as Hl.
  rewrite (find_node_spec _ _ ls xs); [|apply H|].
  - by rewrite drop_0.
  - unfold list_len. rewrite (lr_len _ _ _ H). lia.
Qed.

Lemma client_in_list_spec l xs c : is_list l xs → client_in_list l c = Some (bool_decide (c ∈ xs)).
Proof.
  intros [ls H]. unfold client_in_list. rewrite (client_node_spec _ _ _ _ H). cbn [mbind option_bind].
  destruct (list_find (λ x, x = c) xs) as [[i x]|] eqn:E.
  - cbn. apply list_find_Some in E as (Hi & -> & _). pose proof (lookup_lt_Some _ _ _ Hi).
    rewrite bool_decide_true by (by eapply list_elem_of_lookup_2).
    destruct (ls !! i) eqn:El; [done|]. apply lookup_ge_None in El. pose proof (hr_len _ _ _ (lr_heap _ _ _ H)). lia.
  - apply list_find_None in E. rewrite bool_decide_false; [done|]. intros Hin. rewrite Forall_forall in E. by apply (E c).
Qed.

Lemma left_notin (xs : list nat) c : c ∉ xs → left_ xs c = xs.
Proof.
  unfold left_. induction xs as [|x xs IH]; intros Hc; [done|]. apply not_elem_of_cons in Hc as [Hx Hc].
  rewrite filter_cons, decide_True by congruence. by rewrite IH.
Qed.

Lemma left_alone (c : nat) : left_ [c] c = [].
Proof. unfold left_. by rewrite filter_cons, decide_False by naive_solver. Qed.

Lemma left_app (xs ys : list nat) c : left_ (xs ++ ys) c = left_ xs c ++ left_ ys c.
Proof. apply filter_app. Qed.

Lemma left_delete (xs : list nat) i c : xs !! i = Some c → left_ (delete i xs) c = left_ xs c.
Proof.
  intros Hi. pose proof (left_app (take i xs) (c :: drop (S i) xs) c) as E. rewrite (take_drop_middle xs i c Hi) in E.
  rewrite E, delete_take_drop, left_app. f_equal. unfold left_. rewrite filter_cons, decide_False by naive_solver. done.
Qed.

Lemma filter_delete (xs : list nat) i c : NoDup xs → xs !! i = Some c → delete i xs = left_ xs c.
Proof.
  intros Hn Hi. rewrite <- (left_delete xs i c Hi), left_notin; [done|].
  rewrite <- (take_drop_middle xs i c Hi) in Hn. rewrite delete_take_drop. apply NoDup_app in Hn as (_ & H1 & [H2 _]%NoDup_cons).
  rewrite elem_of_app. intros [H|H]; [|done]. apply (H1 c H). by left.
Qed.

(** Detaching the node of a client. *)
Lemma detach_client_spec l xs c :
  is_list l xs → NoDup xs → c ∈ xs →
  ∃ x v l', client_node l c = Some x ∧ list_detach l x = Some (v, l') ∧ is_list l' (left_ xs c).
Proof.
  intros [ls H] Hn Hc. rewrite (client_node_spec _ _ _ _ H).
  destruct (list_find_elem_of (λ x, x = c) xs c Hc eq_refl) as [[i x] E]. rewrite E. cbn [mbind option_bind].
  apply list_find_Some in E as (Hi & -> & _). pose proof (lookup_lt_Some _ _ _ Hi).
  destruct (ls !! i) as [a|] eqn:El. 2: { apply lookup_ge_None in El. pose proof (hr_len _ _ _ (lr_heap _ _ _ H)). lia. }
  destruct (list_detach_spec l ls xs i a c H El Hi) as (l' & Hd & H'). eexists _, _, l'. split; [done|]. split; [exact Hd|].
  exists (delete i ls). by rewrite <- (filter_delete xs i c).
Qed.

Lemma detach_loop_spec c fuel : ∀ l ls xs j,
  list_rep l ls xs → (length xs - j <= fuel)%nat → c ∉ take j xs →
  ∃ l', detach_loop fuel l c (ls !! j) = Some l' ∧ is_list l' (left_ xs c).
Proof.
  induction fuel as [|fuel IH]; intros l ls xs j H Hf Hj; pose proof (hr_len _ _ _ (lr_heap _ _ _ H)) as Hl;
    destruct (ls !! j) as [a|] eqn:Ea; cbn [detach_loop].
  2, 4: exists l; split; [done|]; apply lookup_ge_None in Ea; rewrite firstn_all2 in Hj by lia;
        rewrite left_notin by done; by exists ls.
  { apply lookup_lt_Some in Ea. lia. }
  pose proof (lookup_lt_Some _ _ _ Ea). destruct (hr_lookup _ _ _ _ _ (lr_heap _ _ _ H) Ea) as (v & Hv & ->).
  cbn [mbind option_bind n_val n_next]. case_bool_decide as Ev.
  - subst v. destruct (list_detach_spec l ls xs j a c H Ea Hv) as (l1 & -> & H1). cbn [mbind option_bind].
    rewrite <- (left_delete xs j c Hv).
    replace (ls !! S j) with (delete j ls !! j) by (by rewrite list_lookup_delete_ge).
    apply (IH l1 _ _ j H1); [rewrite length_delete by done; lia|].
    rewrite delete_take_drop, take_app_le by (rewrite length_take; lia). rewrite take_take. by rewrite Nat.min_id.
  - cbn [mbind option_bind]. apply (IH l ls xs (S j) H); [lia|]. rewrite (take_S_r _ _ _ Hv). rewrite elem_of_app, list_elem_of_singleton.
    intros [?|?]; [done|congruence].
Qed.

(** The clients that receive a frame. *)
Definition deliver_all (frame : bytes) (cs : clients) (xs : list nat) : clients :=
  foldl (λ cs x, alter (send_to frame) x cs) cs xs.

Lemma publish_loop_spec frame l ls xs (H : list_rep l ls xs) fuel : ∀ j cs n,
  (length xs - j <= fuel)%nat → (∀ x, x ∈ xs → is_Some (cs !! x)) →
  publish_loop fuel l (ls !! j) frame cs n = Some (n + Z.of_nat (length xs - j), deliver_all frame cs (drop j xs)).
Proof.
  pose proof (hr_len _ _ _ (lr_heap _ _ _ H)) as Hl.
  induction fuel as [|fuel IH]; intros j cs n Hf Hc; destruct (ls !! j) as [a|] eqn:Ea; cbn [publish_loop].
  2, 4: apply lookup_ge_None in Ea; rewrite drop_ge by lia; do 2 f_equal; lia.
  { apply lookup_lt_Some in Ea. lia. }
  pose proof (lookup_lt_Some _ _ _ Ea). destruct (hr_lookup _ _ _ _ _ (lr_heap _ _ _ H) Ea) as (v & Hv & ->).
  cbn [mbind option_bind n_val n_next]. destruct (Hc v) as [cl Hcl]; [by eapply list_elem_of_lookup_2|]. rewrite Hcl.
  cbn [mbind option_bind]. rewrite IH by (lia || (intros x Hx; destruct (decide (x = v)) as [->|];
    [rewrite lookup_insert_eq; by eexists|rewrite lookup_insert_ne by done; by apply Hc])).
  rewrite (drop_S _ _ _ Hv). unfold deliver_all. cbn [foldl]. do 2 f_equal; [lia|]. f_equal.
  apply map_eq. intros k. destruct (decide (k = v)) as [->|].
  - by rewrite lookup_insert_eq, lookup_alter_eq, Hcl.
  - by rewrite lookup_insert_ne, lookup_alter_ne.
Qed.

(** ** Operations on the abstract registry *)

Definition subscribers (r : registry) (chan : bytes) : list nat := default [] (r !! chan).

Definition a_subscribe (r : registry) (cs : clients) (c : nat) (cl : client) (chan : bytes) : Z * registry * clients :=
  let n := succ_int (c_subscribed cl) in
  (n, <[chan := joined (subscribers r chan) c]> r, <[c := with_subscribed cl n]> cs).

Definition a_unsubscribe (r : registry) (cs : clients) (c : nat) (cl : client) (chan : bytes) : Z * registry * clients :=
  if decide (c ∈ subscribers r chan) then
    let n := if c_subscribed cl >? 0 then c_subscribed cl - 1 else c_subscribed cl in
    (n, <[chan := left_ (subscribers r chan) c]> r, <[c := with_subscribed cl n]> cs)
  else (c_subscribed cl, r, cs).

Definition a_publish (r : registry) (cs : clients) (chan msg : bytes) : Z * registry * clients :=
  (Z.of_nat (length (subscribers r chan)),
   if decide (subscribers r chan = []) then delete chan r else r,
   deliver_all (message_frame chan msg) cs (subscribers r chan)).

(** Leaving channels one after the other, with the count after each. *)
Fixpoint leave_all (r : registry) (cs : clients) (c : nat) (chans : list bytes) : list (bytes * Z) * registry * clients :=
  match chans with
  | [] => ([], r, cs)
  | chan :: chans =>
      match cs !! c with
      | None => ([], r, cs)
      | Some cl =>
          let '(n, r, cs) := a_unsubscribe r cs c cl chan in
          let '(fs, r, cs) := leave_all r cs c chans in
          ((chan, n) :: fs, r, cs)
      end
  end.

Definition is_subscribed (r : registry) (c : nat) (chan : bytes) : bool := bool_decide (c ∈ subscribers r chan).

(** ** The registry refines them *)

Lemma ps_lookup ps r chan :
  ps_rep ps r →
  match channel_subscribers ps chan with
  | Some l => ∃ xs, r !! chan = Some xs ∧ is_list l xs ∧ NoDup xs
  | None => r !! chan = None
  end.
Proof.
  intros (Hw & Hm & Hn). unfold channel_subscribers. rewrite dict_get_correct by done. specialize (Hm chan).
  inversion Hm as [l xs Hl E1 E2|E1 E2].
  - exists xs. split; [done|]. split; [done|]. by apply (Hn chan).
  - done.
Qed.

Lemma ps_rep_update ps r chan l xs :
  ps_rep ps r → is_Some (r !! chan) → is_list l xs → NoDup xs → ps_rep (update_list ps chan l) (<[chan := xs]> r).
Proof.
  intros (Hw & Hm & Hn) Hc Hl Hx. assert (is_Some (dict_abs (channels ps) !! chan)) as Hd.
  { specialize (Hm chan). inversion Hm as [? ? ? E1 E2|E1 E2]; [by eexists|]. rewrite <- E2 in Hc. by destruct Hc. }
  destruct (dict_poke_correct (channels ps) chan l Hw Hd) as [Hw' Ha]. split; [done|]. unfold update_list. cbn [channels]. rewrite Ha. split.
  - by apply map_Forall2_insert_2.
  - by apply map_Forall_insert_2.
Qed.

Lemma ps_rep_new ps r chan :
  ps_rep ps r → ps_rep (Pubsub (dict_set (channels ps) chan list_create).2) (<[chan := []]> r).
Proof.
  intros (Hw & Hm & Hn). destruct (dict_set_correct (channels ps) chan list_create Hw) as (Hw' & Ha & _).
  split; [done|]. cbn [channels]. rewrite Ha. split.
  - apply map_Forall2_insert_2; [apply is_list_create|done].
  - apply map_Forall_insert_2; [apply NoDup_nil_2|done].
Qed.

Lemma ps_rep_delete ps r chan :
  ps_rep ps r → ps_rep (Pubsub (dict_delete (channels ps) chan).2) (delete chan r).
Proof.
  intros (Hw & Hm & Hn). destruct (dict_delete_correct (channels ps) chan Hw) as (Hw' & Ha & _).
  split; [done|]. cbn [channels]. rewrite Ha. split; [by apply map_Forall2_delete|by apply map_Forall_delete].
Qed.

Lemma joined_nodup xs c : NoDup xs → NoDup (joined xs c).
Proof.
  intros Hn. unfold joined. case_decide as Hc; [done|]. apply NoDup_app. split; [done|].
  split; [|apply NoDup_singleton]. intros x Hx ->%list_elem_of_singleton. done.
Qed.

Lemma subscribe_spec ps r cs c cl chan :
  ps_rep ps r → cs !! c = Some cl →
  ∃ ps', let '(n, r', cs') := a_subscribe r cs c cl chan in
    pubsub_subscribe ps cs c chan = Some (n, ps', cs') ∧ ps_rep ps' r'.
Proof.
  intros Hr Hc. pose proof (ps_lookup ps r chan Hr) as Hl.
  assert (∀ ps1 r1 l xs, ps_rep ps1 r1 → r1 !! chan = Some xs → is_list l xs → NoDup xs → ∃ l',
    (b ← client_in_list l c; if (b : bool) then Some l else list_push_tail l c) = Some l' ∧
    ps_rep (update_list ps1 chan l') (<[chan := joined xs c]> r1)) as Hstep.
  { intros ps1 r1 l xs Hr1 Hx Hlist Hn. rewrite (client_in_list_spec l xs c Hlist). cbn [mbind option_bind].
    unfold joined. case_bool_decide as Hin.
    - exists l. split; [done|]. rewrite decide_True by done. by apply ps_rep_update.
    - destruct (list_push_tail_spec l xs c Hlist) as (l' & Hp & Hl'). exists l'. split; [done|]. rewrite decide_False by done.
      apply ps_rep_update; try done. pose proof (joined_nodup xs c Hn) as Hj. unfold joined in Hj. by rewrite decide_False in Hj. }
  unfold pubsub_subscribe, a_subscribe, subscribers. destruct (channel_subscribers ps chan) as [l|].
  - destruct Hl as (xs & Hx & Hlist & Hn). destruct (Hstep ps r l xs Hr Hx Hlist Hn) as (l' & El & Hr').
    exists (update_list ps chan l'). rewrite Hx. cbn [default from_option id]. split; [|done].
    destruct (client_in_list l c) as [b|]; [|done]. cbn [mbind option_bind] in El |- *. rewrite El. cbn [mbind option_bind]. by rewrite Hc.
  - destruct (Hstep _ _ list_create [] (ps_rep_new ps r chan Hr) (lookup_insert_eq _ _ _) is_list_create (NoDup_nil_2)) as (l' & El & Hr').
    rewrite insert_insert_eq in Hr'. eexists. rewrite Hl. cbn [default from_option id]. split; [|exact Hr'].
    destruct (client_in_list list_create c) as [b|]; [|done]. cbn [mbind option_bind] in El |- *. rewrite El. cbn [mbind option_bind]. by rewrite Hc.
Qed.

Lemma unsubscribe_spec ps r cs c cl chan :
  ps_rep ps r → cs !! c = Some cl →
  ∃ ps', let '(n, r', cs') := a_unsubscribe r cs c cl chan in
    pubsub_unsubscribe ps cs c chan = Some (n, ps', cs') ∧ ps_rep ps' r'.
Proof.
  intros Hr Hc. pose proof (ps_lookup ps r chan Hr) as Hl. unfold pubsub_unsubscribe, a_unsubscribe, subscribers. rewrite Hc.
  cbn [mbind option_bind]. destruct (channel_subscribers ps chan) as [l|].
  - destruct Hl as (xs & Hx & Hlist & Hn). rewrite Hx, (client_in_list_spec l xs c Hlist). cbn [default from_option id mbind option_bind].
    destruct (decide (c ∈ xs)) as [Hin|Hin].
    + rewrite bool_decide_true by done. destruct (detach_client_spec l xs c Hlist Hn Hin) as (x & v & l' & -> & Hd & Hl').
      cbn [mbind option_bind]. rewrite Hd. cbn [mbind option_bind]. eexists. cbv beta iota zeta. split; [done|].
      apply ps_rep_update; [done|by eexists|done|]. by apply NoDup_filter.
    + rewrite bool_decide_false by done. by exists ps.
  - rewrite Hl. cbn [default from_option id]. rewrite decide_False by apply not_elem_of_nil. by exists ps.
Qed.

Lemma publish_spec ps r cs chan msg :
  ps_rep ps r → (∀ x, x ∈ subscribers r chan → is_Some (cs !! x)) →
  ∃ ps', let '(n, r', cs') := a_publish r cs chan msg in
    pubsub_publish ps cs chan msg = Some (n, ps', cs') ∧ ps_rep ps' r'.
Proof.
  intros Hr Hlive. pose proof (ps_lookup ps r chan Hr) as Hl. unfold pubsub_publish, a_publish, subscribers in *.
  destruct (channel_subscribers ps chan) as [l|].
  - destruct Hl as (xs & Hx & Hlist & Hn). rewrite Hx in *. cbn [default from_option id] in *. rewrite (is_list_len _ _ Hlist). destruct xs as [|x xs].
    + cbn. eexists. split; [done|]. by apply ps_rep_delete.
    + rewrite (proj2 (Z.eqb_neq _ _)) by (cbn; lia). exists ps. destruct Hlist as [ls H]. unfold list_first.
      rewrite (lr_head _ _ _ H), (publish_loop_spec _ _ _ _ H) by (done || lia). cbn [mbind option_bind]. rewrite drop_0.
      split; [|by rewrite decide_False]. done.
  - rewrite Hl. cbn. exists ps. split; [done|]. by rewrite delete_id.
Qed.

Lemma foldl_alter_lookup {A} (f : A → A) (keys : list bytes) (r : gmap bytes A) k :
  NoDup keys → foldl (λ r k, alter f k r) r keys !! k = if decide (k ∈ keys) then f <$> r !! k else r !! k.
Proof.
  intros Hn. revert r. induction Hn as [|x keys Hx Hn IH]; intros r; [done|]. cbn [foldl]. rewrite IH.
  destruct (decide (k = x)) as [->|Hk].
  - rewrite decide_False by done. rewrite lookup_alter_eq. by rewrite decide_True by (by left).
  - rewrite lookup_alter_ne by done. destruct (decide (k ∈ keys)); [by rewrite decide_True by (by right)|].
    by rewrite decide_False by (rewrite elem_of_cons; tauto).
Qed.

Lemma detach_channels_spec c es : ∀ ps r,
  ps_rep ps r → NoDup (e_key <$> es) →
  Forall (λ e, ∃ xs, r !! e_key e = Some xs ∧ is_list (e_val e) xs ∧ NoDup xs) es →
  ∃ ps', detach_channels es ps c = Some ps' ∧ ps_rep ps' (foldl (λ r k, alter (λ xs, left_ xs c) k r) r (e_key <$> es)).
Proof.
  induction es as [|e es IH]; intros ps r Hr Hn Hes; [by exists ps|]. rewrite fmap_cons in Hn. apply NoDup_cons in Hn as [Hk Hn].
  apply Forall_cons in Hes as [(xs & Hx & [ls H] & Hxn) Hes]. cbn [detach_channels fmap list_fmap foldl].
  unfold list_first. rewrite (lr_head _ _ _ H).
  destruct (detach_loop_spec c (Z.to_nat (list_len (e_val e))) (e_val e) ls xs 0 H) as (l' & El & Hl').
  { unfold list_len. rewrite (lr_len _ _ _ H). lia. }
  { apply not_elem_of_nil. }
  rewrite El. cbn [mbind option_bind].
  assert (alter (λ xs, left_ xs c) (e_key e) r = <[e_key e := left_ xs c]> r) as ->.
  { apply map_eq. intros k. destruct (decide (k = e_key e)) as [->|].
    - by rewrite lookup_alter_eq, lookup_insert_eq, Hx.
    - by rewrite lookup_alter_ne, lookup_insert_ne. }
  apply IH; [|done|].
  - apply ps_rep_update; [done|by eexists|done|]. by apply NoDup_filter.
  - rewrite Forall_forall in *. intros e' He'. destruct (Hes e' He') as (xs' & Hx' & Hl & Hn'). exists xs'. split; [|done].
    rewrite lookup_insert_ne; [done|]. intros E. apply Hk. rewrite E. by apply list_elem_of_fmap_2.
Qed.

Lemma ps_entries ps r :
  ps_rep ps r →
  NoDup (e_key <$> dict_entries (channels ps)) ∧ (∀ k, k ∈ e_key <$> dict_entries (channels ps) ↔ is_Some (r !! k)) ∧
  Forall (λ e, ∃ xs, r !! e_key e = Some xs ∧ is_list (e_val e) xs ∧ NoDup xs) (dict_entries (channels ps)).
Proof.
  intros (Hw & Hm & Hn). split; [by apply dict_entries_nodup|]. split.
  - intros k. assert (is_Some (dict_abs (channels ps) !! k) ↔ is_Some (r !! k)) as <-.
    { specialize (Hm k). inversion Hm; [split; by eexists|done]. }
    assert (e_key <$> dict_entries (channels ps) ≡ₚ (map_to_list (dict_abs (channels ps))).*1) as ->.
    { rewrite <- (dict_entries_to_list _ Hw), <- list_fmap_compose. done. }
    rewrite list_elem_of_fmap. split.
    + intros ([k' l] & -> & Hin%elem_of_map_to_list). by eexists.
    + intros [l Hl]. exists (k, l). split; [done|]. by apply elem_of_map_to_list.
  - apply Forall_forall. intros e He. pose proof (elem_of_dict_entries _ _ Hw He) as Hd. specialize (Hm (e_key e)). rewrite Hd in Hm.
    inversion Hm as [l xs Hl E1 E2|]; subst. exists xs. split; [done|]. split; [done|]. by apply (Hn (e_key e)).
Qed.

Lemma unsubscribe_all_spec ps r cs c cl :
  ps_rep ps r → cs !! c = Some cl →
  ∃ ps', pubsub_unsubscribe_all ps cs c = Some (ps', if c_subscribed cl =? 0 then cs else <[c := with_subscribed cl 0]> cs) ∧
    ps_rep ps' (if c_subscribed cl =? 0 then r else (λ xs, left_ xs c) <$> r).
Proof.
  intros Hr Hc. unfold pubsub_unsubscribe_all. rewrite Hc. cbn [mbind option_bind]. destruct (c_subscribed cl =? 0); [by exists ps|].
  destruct (ps_entries ps r Hr) as (Hn & Hkeys & Hes). destruct (detach_channels_spec c _ ps r Hr Hn Hes) as (ps' & -> & Hr').
  exists ps'. split; [done|].
  assert ((λ xs, left_ xs c) <$> r = foldl (λ r k, alter (λ xs, left_ xs c) k r) r (e_key <$> dict_entries (channels ps))) as ->; [|done].
  apply map_eq. intros k. rewrite foldl_alter_lookup, lookup_fmap by done. case_decide as Hk; [done|].
  rewrite Hkeys in Hk. apply eq_None_not_Some in Hk. by rewrite Hk.
Qed.

Lemma filter_agree {A} (f g : A → bool) (l : list A) : (∀ x, x ∈ l → f x = g x) → filter f l = filter g l.
Proof.
  induction l as [|x l IH]; intros H; [done|]. rewrite !filter_cons. rewrite IH by (intros y Hy; apply H; by right).
  pose proof (H x ltac:(by left)) as Hx. repeat case_decide; rewrite ?Hx in *; done.
Qed.

Lemma leave_channels_spec c es : ∀ ps r cs,
  ps_rep ps r → NoDup (e_key <$> es) → Forall (λ e, is_Some (r !! e_key e)) es → is_Some (cs !! c) →
  ∃ ps', let '(fs, r', cs') := leave_all r cs c (filter (is_subscribed r c) (e_key <$> es)) in
    leave_channels es ps cs c = Some (fs, ps', cs') ∧ ps_rep ps' r'.
Proof.
  induction es as [|e es IH]; intros ps r cs Hr Hn Hes Hc; [by exists ps|]. rewrite fmap_cons in Hn |- *.
  apply NoDup_cons in Hn as [Hk Hn]. apply Forall_cons in Hes as [[xs Hx] Hes]. rewrite filter_cons. cbn [leave_channels].
  pose proof (ps_lookup ps r (e_key e) Hr) as Hl. destruct (channel_subscribers ps (e_key e)) as [l|]; [|congruence].
  destruct Hl as (xs' & Hx' & Hlist & Hxn). rewrite Hx in Hx'. injection Hx' as <-. cbn [mbind option_bind].
  rewrite (client_in_list_spec l xs c Hlist). cbn [mbind option_bind].
  assert (Is_true (is_subscribed r c (e_key e)) ↔ c ∈ xs) as Hsub by (unfold is_subscribed, subscribers; rewrite Hx; apply bool_decide_spec).
  case_bool_decide as Hin; [rewrite decide_True by (by apply Hsub)|rewrite decide_False by (by rewrite Hsub); by apply IH].
  destruct Hc as [cl Hcl]. cbn [leave_all]. rewrite Hcl. destruct (unsubscribe_spec ps r cs c cl (e_key e) Hr Hcl) as (ps1 & H1).
  unfold a_unsubscribe in *. rewrite decide_True in * by (unfold subscribers; by rewrite Hx). cbv zeta in *. destruct H1 as [-> Hr1].
  cbn [mbind option_bind]. set (n := if c_subscribed cl >? 0 then _ else _) in *. set (r1 := <[e_key e := _]> r) in *.
  assert (∀ e', e' ∈ es → r1 !! e_key e' = r !! e_key e') as Hother.
  { intros e' He'. apply lookup_insert_ne. intros E. apply Hk. rewrite E. by apply list_elem_of_fmap_2. }
  destruct (IH ps1 r1 (<[c := with_subscribed cl n]> cs) Hr1 Hn) as (ps2 & H2).
  { rewrite Forall_forall in *. intros e' He'. rewrite Hother by done. by apply Hes. }
  { rewrite lookup_insert_eq. by eexists. }
  assert (filter (is_subscribed r1 c) (e_key <$> es) = filter (is_subscribed r c) (e_key <$> es)) as Hf.
  { apply filter_agree. intros k (e' & -> & He')%list_elem_of_fmap. unfold is_subscribed, subscribers. by rewrite Hother. }
  rewrite Hf in H2. exists ps2. destruct (leave_all r1 _ c _) as [[fs r'] cs']. destruct H2 as [-> Hr2]. by split.
Qed.

(** ** Sequences of operations *)

Inductive pubsub_op :=
| Subscribe (c : nat) (chan : bytes)
| Unsubscribe (c : nat) (chan : bytes)
| UnsubscribeAll (c : nat)
| UnsubscribeChannels (c : nat)
| Publish (chan msg : bytes).

Inductive pubsub_out := OCount (n : Z) | OFrames (fs : list (bytes * Z)) | ODone.

Definition pubsub_step (ps : pubsub) (cs : clients) (op : pubsub_op) : option (pubsub_out * pubsub * clients) :=
  match op with
  | Subscribe c chan => '(n, ps, cs) ← pubsub_subscribe ps cs c chan; Some (OCount n, ps, cs)
  | Unsubscribe c chan => '(n, ps, cs) ← pubsub_unsubscribe ps cs c chan; Some (OCount n, ps, cs)
  | UnsubscribeAll c => '(ps, cs) ← pubsub_unsubscribe_all ps cs c; Some (ODone, ps, cs)
  | UnsubscribeChannels c => '(fs, ps, cs) ← pubsub_unsubscribe_channels ps cs c; Some (OFrames fs, ps, cs)
  | Publish chan msg => '(n, ps, cs) ← pubsub_publish ps cs chan msg; Some (OCount n, ps, cs)
  end.

Fixpoint pubsub_run (ps : pubsub) (cs : clients) (ops : list pubsub_op) : option (list pubsub_out * pubsub * clients) :=
  match ops with
  | [] => Some ([], ps, cs)
  | op :: ops =>
      '(o, ps, cs) ← pubsub_step ps cs op;
      '(os, ps, cs) ← pubsub_run ps cs ops;
      Some (o :: os, ps, cs)
  end.

(** The abstract operations; the order in which channels are left is not specified. *)
Inductive a_step (r : registry) (cs : clients) : pubsub_op → pubsub_out → registry → clients → Prop :=
| a_step_subscribe c cl chan n r' cs' :
    cs !! c = Some cl → a_subscribe r cs c cl chan = (n, r', cs') → a_step r cs (Subscribe c chan) (OCount n) r' cs'
| a_step_unsubscribe c cl chan n r' cs' :
    cs !! c = Some cl → a_unsubscribe r cs c cl chan = (n, r', cs') → a_step r cs (Unsubscribe c chan) (OCount n) r' cs'
| a_step_nothing c cl :
    cs !! c = Some cl → c_subscribed cl = 0 → a_step r cs (UnsubscribeAll c) ODone r cs
| a_step_all c cl :
    cs !! c = Some cl → c_subscribed cl ≠ 0 →
    a_step r cs (UnsubscribeAll c) ODone ((λ xs, left_ xs c) <$> r) (<[c := with_subscribed cl 0]> cs)
| a_step_none c cl :
    cs !! c = Some cl → c_subscribed cl = 0 → a_step r cs (UnsubscribeChannels c) (OFrames []) r cs
| a_step_channels c cl chans fs r' cs' :
    cs !! c = Some cl → c_subscribed cl ≠ 0 →
    NoDup chans → (∀ chan, chan ∈ chans ↔ c ∈ subscribers r chan) → leave_all r cs c chans = (fs, r', cs') →
    a_step r cs (UnsubscribeChannels c) (OFrames fs) r' cs'
| a_step_publish chan msg n r' cs' :
    a_publish r cs chan msg = (n, r', cs') → a_step r cs (Publish chan msg) (OCount n) r' cs'.

Inductive a_run : registry → clients → list pubsub_op → list pubsub_out → registry → clients → Prop :=
| a_run_nil r cs : a_run r cs [] [] r cs
| a_run_cons r cs op o r1 cs1 ops os r2 cs2 :
    a_step r cs op o r1 cs1 → a_run r1 cs1 ops os r2 cs2 → a_run r cs (op :: ops) (o :: os) r2 cs2.

(** The client of an operation is alive. *)
Definition op_client (cs : clients) (op : pubsub_op) : Prop :=
  match op with
  | Subscribe c _ | Unsubscribe c _ | UnsubscribeAll c | UnsubscribeChannels c => is_Some (cs !! c)
  | Publish _ _ => True
  end.

(** Every subscriber is alive. *)
Definition live_registry (r : registry) (cs : clients) : Prop :=
  ∀ chan x, x ∈ subscribers r chan → is_Some (cs !! x).

Lemma pubsub_step_refines ps r cs op :
  ps_rep ps r → live_registry r cs → op_client cs op →
  ∃ o ps' cs' r', pubsub_step ps cs op = Some (o, ps', cs') ∧ a_step r cs op o r' cs' ∧ ps_rep ps' r'.
Proof.
  intros Hr Hlive Hop. destruct op as [c chan|c chan|c|c|chan msg]; cbn [pubsub_step op_client] in *.
  1-4: destruct Hop as [cl Hcl].
  - destruct (subscribe_spec ps r cs c cl chan Hr Hcl) as (ps' & H). destruct (a_subscribe r cs c cl chan) as [[n r'] cs'] eqn:E.
    destruct H as [-> Hr']. exists (OCount n), ps', cs', r'. split; [done|]. split; [by econstructor|done].
  - destruct (unsubscribe_spec ps r cs c cl chan Hr Hcl) as (ps' & H). destruct (a_unsubscribe r cs c cl chan) as [[n r'] cs'] eqn:E.
    destruct H as [-> Hr']. exists (OCount n), ps', cs', r'. split; [done|]. split; [by econstructor|done].
  - destruct (unsubscribe_all_spec ps r cs c cl Hr Hcl) as (ps' & -> & Hr'). eexists _, ps', _, _. split; [done|]. split; [|exact Hr'].
    destruct (Z.eqb_spec (c_subscribed cl) 0); by econstructor.
  - unfold pubsub_unsubscribe_channels. rewrite Hcl. cbn [mbind option_bind].
    destruct (Z.eqb_spec (c_subscribed cl) 0) as [Hz|Hz].
    { exists (OFrames []), ps, cs, r. split; [done|]. split; [by econstructor|done]. }
    destruct (ps_entries ps r Hr) as (Hn & Hkeys & Hes).
    destruct (leave_channels_spec c (dict_entries (channels ps)) ps r cs Hr Hn) as (ps' & H); [|by eexists|].
    { eapply Forall_impl; [done|]. intros e (xs & Hx & _). by eexists. }
    destruct (leave_all r cs c _) as [[fs r'] cs'] eqn:E. destruct H as [-> Hr']. exists (OFrames fs), ps', cs', r'.
    split; [done|]. split; [|done]. eapply a_step_channels; [done|done|..|exact E].
    + by apply NoDup_filter.
    + intros chan. rewrite list_elem_of_filter, Hkeys. unfold is_subscribed. rewrite bool_decide_spec.
      split; [by intros [? _]|]. intros Hin. split; [done|]. unfold subscribers in Hin. destruct (r !! chan); [by eexists|].
      by apply not_elem_of_nil in Hin.
  - destruct (publish_spec ps r cs chan msg Hr (Hlive chan)) as (ps' & H). destruct (a_publish r cs chan msg) as [[n r'] cs'] eqn:E.
    destruct H as [-> Hr']. exists (OCount n), ps', cs', r'. split; [done|]. split; [by econstructor|done].
Qed.

(** *** Clients stay alive *)

Lemma deliver_all_dom frame cs xs x : is_Some (deliver_all frame cs xs !! x) ↔ is_Some (cs !! x).
Proof.
  revert cs. induction xs as [|y xs IH]; intros cs; [done|]. unfold deliver_all in *. cbn [foldl]. rewrite IH.
  destruct (decide (x = y)) as [->|]; [by rewrite lookup_alter_eq, fmap_is_Some|by rewrite lookup_alter_ne].
Qed.

Lemma insert_dom (cs : clients) c cl cl' x : cs !! c = Some cl → is_Some (<[c := cl']> cs !! x) ↔ is_Some (cs !! x).
Proof.
  intros Hc. destruct (decide (x = c)) as [->|]; [|by rewrite lookup_insert_ne].
  rewrite lookup_insert_eq, Hc. split; by eexists.
Qed.

Lemma subscribers_insert r chan xs chan' :
  subscribers (<[chan := xs]> r) chan' = if decide (chan' = chan) then xs else subscribers r chan'.
Proof. unfold subscribers. case_decide as E; [subst; by rewrite lookup_insert_eq|by rewrite lookup_insert_ne]. Qed.

Lemma left_sub xs c x : x ∈ left_ xs c → x ∈ xs.
Proof. unfold left_. by intros [_ ?]%list_elem_of_filter. Qed.

Lemma unsubscribe_live r cs c cl chan n r' cs' :
  cs !! c = Some cl → a_unsubscribe r cs c cl chan = (n, r', cs') →
  (∀ x, is_Some (cs' !! x) ↔ is_Some (cs !! x)) ∧ (∀ ch x, x ∈ subscribers r' ch → x ∈ subscribers r ch).
Proof.
  intros Hc. unfold a_unsubscribe. case_decide; [|by intros [= <- <- <-]].
  intros [= <- <- <-]. split; [intros x; by apply (insert_dom cs c cl)|]. intros ch x. rewrite subscribers_insert.
  case_decide as E; [subst; apply left_sub|done].
Qed.

Lemma leave_all_live c chans : ∀ r cs fs r' cs',
  leave_all r cs c chans = (fs, r', cs') →
  (∀ x, is_Some (cs' !! x) ↔ is_Some (cs !! x)) ∧ (∀ ch x, x ∈ subscribers r' ch → x ∈ subscribers r ch).
Proof.
  induction chans as [|chan chans IH]; intros r cs fs r' cs'; cbn [leave_all]; [by intros [= <- <- <-]|].
  destruct (cs !! c) as [cl|] eqn:Hc; [|by intros [= <- <- <-]].
  destruct (a_unsubscribe r cs c cl chan) as [[n r1] cs1] eqn:E1. destruct (leave_all r1 cs1 c chans) as [[fs2 r2] cs2] eqn:E2.
  intros [= <- <- <-]. destruct (unsubscribe_live _ _ _ _ _ _ _ _ Hc E1) as [H1 G1]. destruct (IH _ _ _ _ _ E2) as [H2 G2].
  split; [intros x; by rewrite H2|]. intros ch x Hx. by apply G1, G2.
Qed.

Lemma a_step_live r cs op o r' cs' :
  a_step r cs op o r' cs' → live_registry r cs →
  live_registry r' cs' ∧ ∀ x, is_Some (cs' !! x) ↔ is_Some (cs !! x).
Proof.
  assert (∀ r' cs', (∀ x, is_Some (cs' !! x) ↔ is_Some (cs !! x)) → (∀ ch x, x ∈ subscribers r' ch → x ∈ subscribers r ch) →
    live_registry r cs → live_registry r' cs' ∧ ∀ x, is_Some (cs' !! x) ↔ is_Some (cs !! x)) as Hsub.
  { intros r1 cs1 Hd Hs Hl. split; [|done]. intros ch x Hx. apply Hd, (Hl ch), Hs, Hx. }
  intros [c cl chan n r1 cs1 Hc E|c cl chan n r1 cs1 Hc E|c cl Hc|c cl Hc|c cl Hc|c cl chans fs r1 cs1 Hc _ _ _ E|chan msg n r1 cs1 E] Hl.
  - injection E as <- <- <-. assert (∀ x, is_Some (<[c := with_subscribed cl (succ_int (c_subscribed cl))]> cs !! x) ↔ is_Some (cs !! x)) as Hd
      by (intros x; by apply (insert_dom cs c cl)).
    split; [|done]. intros ch x. rewrite subscribers_insert, Hd. case_decide as Ech; [|apply Hl]. unfold joined. case_decide; [by apply Hl|].
    rewrite elem_of_app, list_elem_of_singleton. intros [Hx| ->]; [by apply (Hl chan)|by eexists].
  - destruct (unsubscribe_live _ _ _ _ _ _ _ _ Hc E). by apply Hsub.
  - by apply Hsub.
  - apply Hsub; [intros x; by apply (insert_dom cs c cl)| |done]. intros ch x. unfold subscribers. rewrite lookup_fmap.
    destruct (r !! ch); [apply left_sub|done].
  - by apply Hsub.
  - destruct (leave_all_live _ _ _ _ _ _ _ E). by apply Hsub.
  - injection E as <- <- <-. apply Hsub; [intros x; apply deliver_all_dom| |done]. intros ch x. case_decide; [|done].
    unfold subscribers. destruct (decide (ch = chan)) as [->|]; [rewrite lookup_delete_eq; by intros ?%not_elem_of_nil|by rewrite lookup_delete_ne].
Qed.

Lemma op_client_dom cs cs' op : (∀ x, is_Some (cs' !! x) ↔ is_Some (cs !! x)) → op_client cs op → op_client cs' op.
Proof. intros H. destruct op; cbn; by rewrite ?H. Qed.

(** C13: the registry behaves as a finite map from channels to duplicate-free sequences
    of clients: any sequence of subscriptions, cancellations and publications on a
    fresh registry is free of bad pointer accesses, returns the counts, receivers and
    frames that the abstract operations give, appends to each subscriber's output
    exactly one frame per message, and ends in a registry that represents the abstract
    one. *)
Theorem pubsub_refines (seed : bytes) (cs : clients) (ops : list pubsub_op) :
  Forall (op_client cs) ops →
  ∃ outs ps cs' r, pubsub_run (pubsub_create seed) cs ops = Some (outs, ps, cs') ∧
    a_run ∅ cs ops outs r cs' ∧ ps_rep ps r.
Proof.
  assert (∀ ops ps cs r, ps_rep ps r → live_registry r cs → Forall (op_client cs) ops →
    ∃ outs ps' cs' r', pubsub_run ps cs ops = Some (outs, ps', cs') ∧ a_run r cs ops outs r' cs' ∧ ps_rep ps' r') as H.
  { clear. induction ops as [|op ops IH]; intros ps cs r Hr Hl Hops.
    { exists [], ps, cs, r. split; [done|]. split; [constructor|done]. }
    apply Forall_cons in Hops as [Hop Hops]. destruct (pubsub_step_refines ps r cs op Hr Hl Hop) as (o & ps1 & cs1 & r1 & Es & Ha & Hr1).
    destruct (a_step_live _ _ _ _ _ _ Ha Hl) as [Hl1 Hd].
    destruct (IH ps1 cs1 r1 Hr1 Hl1) as (os & ps2 & cs2 & r2 & Er & Ha2 & Hr2).
    { eapply Forall_impl; [done|]. intros op'. by apply op_client_dom. }
    exists (o :: os), ps2, cs2, r2. cbn [pubsub_run]. rewrite Es. cbn [mbind option_bind]. rewrite Er. split; [done|].
    split; [by econstructor|done]. }
  apply H.
  - destruct (dict_create_spec (V := clist nat) seed) as [Hw Ha]. split; [done|]. unfold pubsub_create. cbn [channels]. rewrite Ha.
    split; [apply map_Forall2_empty|apply map_Forall_empty].
  - intros chan x Hx. by apply not_elem_of_nil in Hx.
Qed.

Lemma pubsub_refines_witness :
  let cs : clients := {[ 1%nat := client_init 5 0; 2%nat := client_init 6 0 ]} in
  let ops := [Subscribe 1 (bs "news"); Subscribe 2 (bs "news"); Publish (bs "news") (bs "hi"); UnsubscribeAll 1;
              Publish (bs "news") (bs "ho")] in
  ∃ outs ps cs' r, pubsub_run (pubsub_create []) cs ops = Some (outs, ps, cs') ∧ a_run ∅ cs ops outs r cs' ∧ ps_rep ps r.
Proof.
  intros cs ops. apply (pubsub_refines [] cs ops).
  repeat (apply Forall_cons_2; [first [exact I | vm_compute; eexists; reflexivity]|]). apply Forall_nil_2.
Defined.

(** The subscription count of a client is not the number of its channels: a client
    that subscribes to a channel it is already subscribed to is counted twice but
    listed once, so after it has unsubscribed it receives nothing any more and is still
    counted as a subscriber. *)
Theorem duplicate_subscription_leaks (seed : bytes) (cs : clients) (c : nat) (cl : client) (chan msg : bytes) :
  cs !! c = Some cl → c_subscribed cl = 0 →
  ∃ ps cs' cl', pubsub_run (pubsub_create seed) cs [Subscribe c chan; Subscribe c chan; Unsubscribe c chan; Publish chan msg]
      = Some ([OCount 1; OCount 2; OCount 1; OCount 0], ps, cs') ∧
    cs' !! c = Some cl' ∧ c_subscribed cl' = 1 ∧ c_out cl' = c_out cl.
Proof.
  intros Hc H0. assert (ps_rep (pubsub_create seed) ∅) as Hr.
  { destruct (dict_create_spec (V := clist nat) seed) as [Hw Ha]. split; [done|]. unfold pubsub_create. cbn [channels]. rewrite Ha.
    split; [apply map_Forall2_empty|apply map_Forall_empty]. }
  cbn [pubsub_run pubsub_step].
  destruct (subscribe_spec _ _ cs c cl chan Hr Hc) as (ps1 & E1 & Hr1). rewrite E1. cbn [mbind option_bind].
  unfold subscribers, joined in Hr1. rewrite lookup_empty in Hr1. cbn in Hr1. rewrite decide_False in Hr1 by apply not_elem_of_nil.
  cbn [app] in Hr1. rewrite H0. change (succ_int 0) with 1. set (cs1 := <[c := _]> cs).
  assert (cs1 !! c = Some (with_subscribed cl 1)) as Hc1 by apply lookup_insert_eq.
  destruct (subscribe_spec _ _ cs1 c _ chan Hr1 Hc1) as (ps2 & E2 & Hr2). rewrite E2. cbn [mbind option_bind].
  unfold subscribers, joined in Hr2. rewrite lookup_insert_eq in Hr2. cbn in Hr2. rewrite decide_True, insert_insert_eq in Hr2 by (by left).
  cbn [c_subscribed with_subscribed]. change (succ_int 1) with 2. set (cs2 := <[c := _]> cs1).
  assert (cs2 !! c = Some (with_subscribed (with_subscribed cl 1) 2)) as Hc2 by apply lookup_insert_eq.
  destruct (unsubscribe_spec _ _ cs2 c _ chan Hr2 Hc2) as (ps3 & H3). unfold a_unsubscribe, subscribers in H3.
  rewrite lookup_insert_eq in H3. cbn [default from_option id] in H3. rewrite decide_True in H3 by (by left). cbv beta iota zeta in H3. destruct H3 as [E3 Hr3]. rewrite E3. cbn [mbind option_bind].
  set (cs3 := <[c := _]> cs2) in *.
  destruct (publish_spec _ _ cs3 chan msg Hr3) as (ps4 & H4).
  { unfold subscribers. rewrite lookup_insert_eq. cbn [default from_option id]. rewrite left_alone. by intros x ?%not_elem_of_nil. }
  unfold a_publish, subscribers in H4. rewrite lookup_insert_eq in H4. cbn [default from_option id] in H4.
  rewrite left_alone in H4. cbn [length] in H4. destruct H4 as [E4 _]. rewrite E4.
  eexists _, cs3, _. split; [done|]. split; [apply lookup_insert_eq|]. done.
Qed.

Lemma duplicate_subscription_leaks_witness :
  let cs : clients := {[ 1%nat := client_init 5 0 ]} in
  ∃ ps cs' cl', pubsub_run (pubsub_create []) cs
      [Subscribe 1 (bs "news"); Subscribe 1 (bs "news"); Unsubscribe 1 (bs "news"); Publish (bs "news") (bs "hi")]
      = Some ([OCount 1; OCount 2; OCount 1; OCount 0], ps, cs') ∧
    cs' !! 1%nat = Some cl' ∧ c_subscribed cl' = 1 ∧ c_out cl' = [].
Proof.
  exact (duplicate_subscription_leaks [] {[ 1%nat := client_init 5 0 ]} 1 (client_init 5 0) (bs "news") (bs "hi")
    (lookup_singleton_eq _ _) eq_refl).
Defined.
