(* ===== verification/Main.v ===== *)
(** * The command line ([src/main.c])

    [main] reads the options and either leaves with a message on the error stream or
    starts the server.  The theorems characterise the command lines it accepts and the
    settings they lead to, and show that the whole program never goes wrong. *)

From S2P Require Import Prelude Disk Util Dict Object Machine DbCore Resp RdbLoad Persist Rewriting Server Loop Startup.
Import Num.

Definition usage (prog : bytes) : bytes :=
  bs "miniredis - a tiny Redis-compatible in-memory key/value store" ++ [LF; LF] ++
  bs "Usage: " ++ prog ++ bs " [OPTIONS]" ++ [LF; LF] ++
  bs "Options:" ++ [LF] ++
  bs "  --port N     listen port (default: 6379)" ++ [LF] ++
  bs "  --bind HOST  bind address (default: 127.0.0.1; use 0.0.0.0 for all)" ++ [LF] ++
  bs "  --io MODE    event loop: epoll (Linux, default) or select" ++ [LF] ++
  bs "  --aof FILE   append-only log: every write command is recorded" ++ [LF] ++
  bs "               and replayed on startup (crash recovery)" ++ [LF] ++
  bs "  --rdb FILE   RDB snapshot: saved on clean shutdown and by" ++ [LF] ++
  bs "               SAVE/BGSAVE; loaded on startup" ++ [LF] ++
  bs "  -h, --help   show this help and exit" ++ [LF].

(** The local variables of [main] with the two globals it sets. *)
Record options := Options {
  opt_host : bytes;
  opt_port : Z;
  opt_io : option bytes;
  opt_aof : option bytes;
  opt_rdb : option bytes;
}.

Definition defaults : options := Options (bs "127.0.0.1") 6379 None None None.

(** An exit status with the text written to [stderr], or the call of [server_run] with
    the paths of the log and of the snapshot. *)
Inductive outcome :=
| Exit (status : Z) (message : bytes)
| ServerRun (host : bytes) (port : Z) (io_mode : bytes) (aof rdb : option bytes).

(** [!strcmp(argv[i], name)] *)
Definition is_opt (arg : bytes) (name : string) : bool := bool_decide (arg = bs name).

(** [for (int i = 1; i < argc; i++)]: an exit, or the settings at the end. *)
Fixpoint options_loop (prog : bytes) (argv : list bytes) (o : options) : outcome + options :=
  match argv with
  | [] => inr o
  | a :: argv =>
      if is_opt a "-h" || is_opt a "--help" then inl (Exit 0 (usage prog)) else
      match argv with
      | v :: argv =>
          if is_opt a "--port" then
            match string_to_ll v with
            | Some n =>
                if (n <? 0) || (n >? 65535) then inl (Exit 1 (bs "invalid port: " ++ v ++ [LF]))
                else options_loop prog argv (Options (opt_host o) n (opt_io o) (opt_aof o) (opt_rdb o))
            | None => inl (Exit 1 (bs "invalid port: " ++ v ++ [LF]))
            end
          else if is_opt a "--bind" then
            options_loop prog argv (Options v (opt_port o) (opt_io o) (opt_aof o) (opt_rdb o))
          else if is_opt a "--io" then
            options_loop prog argv (Options (opt_host o) (opt_port o) (Some v) (opt_aof o) (opt_rdb o))
          else if is_opt a "--aof" then
            options_loop prog argv (Options (opt_host o) (opt_port o) (opt_io o) (Some v) (opt_rdb o))
          else if is_opt a "--rdb" then
            options_loop prog argv (Options (opt_host o) (opt_port o) (opt_io o) (opt_aof o) (Some v))
          else inl (Exit 1 (usage prog))
      | [] => inl (Exit 1 (usage prog))
      end
  end.

(** [linux] says whether [__linux__] is defined. *)
Definition default_io (linux : bool) : bytes := if linux then bs "epoll" else bs "select".

Definition main (linux : bool) (prog : bytes) (argv : list bytes) : outcome :=
  match options_loop prog argv defaults with
  | inl e => e
  | inr o =>
      let io_mode := default (default_io linux) (opt_io o) in
      if negb (is_opt io_mode "select") && negb (is_opt io_mode "epoll") then
        Exit 1 (bs "invalid --io mode: " ++ io_mode ++ bs " (expected select|epoll)" ++ [LF])
      else ServerRun (opt_host o) (opt_port o) io_mode (opt_aof o) (opt_rdb o)
  end.

(** ** The accepted command lines *)

(** An option with its argument. *)
Inductive setting :=
| SetPort (text : bytes) (n : Z)
| SetBind (host : bytes)
| SetIo (mode : bytes)
| SetAof (file : bytes)
| SetRdb (file : bytes).

Definition words (x : setting) : list bytes :=
  match x with
  | SetPort text _ => [bs "--port"; text]
  | SetBind h => [bs "--bind"; h]
  | SetIo m => [bs "--io"; m]
  | SetAof f => [bs "--aof"; f]
  | SetRdb f => [bs "--rdb"; f]
  end.

(** A port is written as a decimal number from 0 to 65535. *)
Definition well_written (x : setting) : Prop :=
  match x with SetPort text n => string_to_ll text = Some n ∧ 0 <= n <= 65535 | _ => True end.

(** The last value given, or the default. *)
Definition last_of {A} (f : setting → option A) (d : A) (xs : list setting) : A :=
  default d (last (omap f xs)).

Definition the_port x := match x with SetPort _ n => Some n | _ => None end.
Definition the_host x := match x with SetBind h => Some h | _ => None end.
Definition the_io x := match x with SetIo m => Some m | _ => None end.
Definition the_aof x := match x with SetAof f => Some f | _ => None end.
Definition the_rdb x := match x with SetRdb f => Some f | _ => None end.

Definition chosen (o : options) (xs : list setting) : options :=
  Options (last_of the_host (opt_host o) xs) (last_of the_port (opt_port o) xs)
    (last_of (λ x, Some <$> the_io x) (opt_io o) xs) (last_of (λ x, Some <$> the_aof x) (opt_aof o) xs)
    (last_of (λ x, Some <$> the_rdb x) (opt_rdb o) xs).

Lemma last_of_cons {A} (f : setting → option A) d x xs :
  last_of f d (x :: xs) = last_of f (default d (f x)) xs.
Proof.
  unfold last_of. cbn [omap list_omap]. destruct (f x) as [a|]; [|done]. cbn [default from_option id].
  rewrite last_cons. by destruct (last (omap f xs)).
Qed.

Lemma options_loop_words prog xs o :
  Forall well_written xs → options_loop prog (concat (words <$> xs)) o = inr (chosen o xs).
Proof.
  intros H. revert o. induction H as [|x xs Hx _ IH]; intros o; [by destruct o|].
  rewrite fmap_cons. cbn [concat]. destruct x as [text n|h|m|f|f]; cbn [words app options_loop];
    unfold is_opt; cbn [orb]; repeat (rewrite ?bool_decide_eq_false_2 by done; rewrite ?bool_decide_eq_true_2 by done; cbn [orb]).
  all: try (rewrite IH; unfold chosen; cbn [opt_host opt_port opt_io opt_aof opt_rdb]; by rewrite !last_of_cons).
  destruct Hx as [-> Hn]. rewrite (proj2 (Z.ltb_ge _ _)), gtb_le by lia. cbn [orb].
  rewrite IH. unfold chosen. cbn [opt_host opt_port opt_io opt_aof opt_rdb]. by rewrite !last_of_cons.
Qed.

Lemma is_opt_true a n : is_opt a n = true → a = bs n.
Proof. apply bool_decide_eq_true. Qed.

Lemma options_loop_inv prog argv : ∀ o o',
  options_loop prog argv o = inr o' →
  ∃ xs, argv = concat (words <$> xs) ∧ Forall well_written xs.
Proof.
  induction argv as [[|a [|v argv]] IH] using list_len_ind; intros o o'; cbn [options_loop].
  - intros _. by exists [].
  - by destruct (is_opt a "-h" || is_opt a "--help").
  - destruct (is_opt a "-h" || is_opt a "--help"); [done|].
    assert (∀ x o1, words x = [a; v] → well_written x → options_loop prog argv o1 = inr o' →
      ∃ xs, a :: v :: argv = concat (words <$> xs) ∧ Forall well_written xs) as Hstep.
    { intros x o1 Hx Hw Ho. destruct (IH argv ltac:(cbn; lia) _ _ Ho) as (xs & -> & Hxs). exists (x :: xs).
      rewrite fmap_cons. cbn [concat]. rewrite Hx. split; [done|by constructor]. }
    destruct (is_opt a "--port") eqn:E1.
    { apply is_opt_true in E1 as ->. destruct (string_to_ll v) as [n|] eqn:Ev; [|done].
      destruct ((n <? 0) || (n >? 65535)) eqn:En; [done|]. apply (Hstep (SetPort v n)); [done|].
      split; [done|]. bool_prop. lia. }
    destruct (is_opt a "--bind") eqn:E2; [apply is_opt_true in E2 as ->; by apply (Hstep (SetBind v))|].
    destruct (is_opt a "--io") eqn:E3; [apply is_opt_true in E3 as ->; by apply (Hstep (SetIo v))|].
    destruct (is_opt a "--aof") eqn:E4; [apply is_opt_true in E4 as ->; by apply (Hstep (SetAof v))|].
    destruct (is_opt a "--rdb") eqn:E5; [apply is_opt_true in E5 as ->; by apply (Hstep (SetRdb v))|done].
Qed.

Lemma last_of_Forall {A} (P : A → Prop) (f : setting → option A) d xs :
  P d → Forall (λ x, ∀ a, f x = Some a → P a) xs → P (last_of f d xs).
Proof.
  intros Hd H. revert d Hd. induction H as [|x xs Hx _ IH]; intros d Hd; [done|]. rewrite last_of_cons.
  apply IH. destruct (f x) as [a|]; [by apply Hx|done].
Qed.

Lemma last_of_some {A} (f : setting → option A) xs : last_of (λ x, Some <$> f x) None xs = last (omap f xs).
Proof.
  unfold last_of. assert (omap (λ x, Some <$> f x) xs = Some <$> omap f xs) as ->.
  { induction xs as [|x xs IH]; [done|]. cbn [omap list_omap]. destruct (f x); cbn; by rewrite IH. }
  rewrite fmap_last. by destruct (last (omap f xs)).
Qed.

Lemma options_loop_exit prog argv : ∀ o e,
  options_loop prog argv o = inl e → ∃ status message, e = Exit status message ∧ (status = 0 ∨ status = 1) ∧ message ≠ [].
Proof.
  assert (usage prog ≠ []) as Hu by done.
  induction argv as [[|a [|v argv]] IH] using list_len_ind; intros o e; cbn [options_loop]; [done|..].
  - case_match; intros [= <-]; eexists _, _; (split; [reflexivity|]); (split; [lia|done]).
  - assert (∀ o, options_loop prog argv o = inl e →
      ∃ status message, e = Exit status message ∧ (status = 0 ∨ status = 1) ∧ message ≠ []) as IH' by (intros o'; apply IH; cbn; lia).
    repeat case_match; first [apply IH'|intros [= <-]; eexists _, _; (split; [reflexivity|]); (split; [lia|done])].
Qed.

(** C32: the command line is read exactly.  The server is started if and only if the
    arguments are options from the documented ones, each with its argument, every
    port a decimal number from 0 to 65535, and the last mode given, if any, "select"
    or "epoll"; it is then started with the last value given for every option and
    the documented defaults for the others, and so always with a port from 0 to
    65535.  In every other case [main] leaves with status 0 or 1 and a message. *)
Theorem main_exact (linux : bool) (prog : bytes) (argv : list bytes) :
  match main linux prog argv with
  | ServerRun host port io aof rdb =>
      ∃ xs, argv = concat (words <$> xs) ∧ Forall well_written xs ∧
        host = last_of the_host (bs "127.0.0.1") xs ∧ port = last_of the_port 6379 xs ∧
        io = last_of the_io (default_io linux) xs ∧
        aof = last (omap the_aof xs) ∧ rdb = last (omap the_rdb xs) ∧
        0 <= port <= 65535 ∧ io ∈ [bs "select"; bs "epoll"]
  | Exit status message =>
      (status = 0 ∨ status = 1) ∧ message ≠ [] ∧
      ∀ xs, argv = concat (words <$> xs) → Forall well_written xs →
        status = 1 ∧ last_of the_io (default_io linux) xs ∉ [bs "select"; bs "epoll"]
  end.
Proof.
  unfold main. destruct (options_loop prog argv defaults) as [e|o] eqn:E.
  - destruct (options_loop_exit _ _ _ _ E) as (status & message & -> & Hs & Hm). split; [done|]. split; [done|].
    intros xs -> Hxs. by rewrite options_loop_words in E.
  - destruct (options_loop_inv _ _ _ _ E) as (xs & Hargv & Hxs). subst argv. rewrite options_loop_words in E by done. injection E as <-.
    assert (default (default_io linux) (opt_io (chosen defaults xs)) = last_of the_io (default_io linux) xs) as ->.
    { unfold chosen. cbn [opt_io defaults]. by rewrite last_of_some. }
    unfold is_opt. destruct (_ && _) eqn:Eio; rewrite ?andb_true_iff, ?andb_false_iff, ?negb_true_iff, ?negb_false_iff,
      ?bool_decide_eq_true, ?bool_decide_eq_false in Eio.
    + split; [by right|]. split; [done|]. intros ys Hys Hw. split; [done|].
      pose proof (options_loop_words prog ys defaults Hw) as E. rewrite <- Hys, options_loop_words in E by done. injection E as _ _ Eio' _ _.
      rewrite !last_of_some in Eio'. unfold last_of in Eio |- *. rewrite <- Eio'. set_solver.
    + exists xs. unfold chosen. cbn [opt_host opt_port opt_aof opt_rdb defaults]. rewrite !last_of_some. do 7 (split; [done|]).
      split; [|set_solver]. apply (last_of_Forall (λ n, 0 <= n <= 65535)); [lia|]. eapply Forall_impl; [done|].
      intros [text n| | | |] Hx k; cbn; intros [= <-]. apply Hx.
Qed.

Example main_samples :
  main true (bs "mr") [bs "--port"; bs "0"; bs "--aof"; bs "log"; bs "--port"; bs "+8080"] =
    ServerRun (bs "127.0.0.1") 8080 (bs "epoll") (Some (bs "log")) None ∧
  main true (bs "mr") [bs "--aof"] = Exit 1 (usage (bs "mr")) ∧
  main false (bs "mr") [bs "--port"; bs "65536"] = Exit 1 (bs "invalid port: 65536" ++ [LF]).
Proof. vm_compute. auto. Qed.

(** ** The whole program *)

Definition set_paths (g : globals) (aof rdb : option bytes) : globals :=
  Globals (g_server_start_ms g) (g_aof_fd g) (g_aof_replaying g) (g_aof_rewriting g) (g_aof_file g) (g_rewrite_buf g)
    (g_aof_last_fsync_ms g) aof rdb (g_aof_linked g).

(** [main] with its call of [server_run]; the exit status. *)
Definition program (linux : bool) (prog : bytes) (argv : list bytes) (k : run_input) : M Z :=
  match main linux prog argv with
  | Exit status _ => mret status
  | ServerRun host port io_mode aof rdb =>
      _ ← modify_globals (λ g, set_paths g aof rdb);
      server_run linux host port io_mode k
  end.

Lemma main_exit linux prog argv status msg : main linux prog argv = Exit status msg → status = 0 ∨ status = 1.
Proof.
  unfold main. destruct (options_loop prog argv defaults) as [e|o] eqn:E.
  - destruct (options_loop_exit _ _ _ _ E) as (st & m & -> & H & _). by intros [= <- _].
  - case_match; [intros [= <- _]; by right|done].
Qed.


